(* ===== verification/_CoqProject ===== *)
-Q . S2P
Prelude.v
Errs.v
GoHeap.v
GoIO.v
Bytespool.v
Message.v
Packet.v
MessageFacts.v
MessageSend.v
MessageThms.v
IdGen.v
Timer.v
AutoFlush.v
Options.v
OptionsThms.v
OptionSet.v
OptionSetThms.v
OptionReg.v
Routing.v
Transport.v
Schemes.v
Address.v
Inproc.v
InprocThms.v
Channel.v
Net.v
Ws.v
WsListen.v
WsListenThms.v
Pipe.v
PipeThms.v
Links.v
BufReader.v
IoPipe.v
Carrier.v
Session.v
Connector.v
ConnectorFacts.v
ConnectorThms.v
Connecting.v
Socket.v
SocketFacts.v
SocketThms.v
Attached.v
Pair.v
Switch.v
SwitchSock.v
Perf.v
PerfProg.v
