(* ===== verification/Prelude.v ===== *)
(** * multisocket: a verification development

    multisocket is a Go library for message sockets.  A socket exchanges messages with any
    number of peers; a message carries the path of pipes it came along, so that a reply
    finds its way back, and a time to live.  The parts, bottom up, with the files that
    model them:

    - bytespool/bytespool.go, the pools of byte buffers by size class: GoHeap.v (Go slices
      over backing arrays, with aliasing and Go's bounds checks) and Bytespool.v;
    - message/message.go, messages and their wire format: Message.v (the buffer-level code),
      Packet.v (the abstract packet: header, paths and content, its bytes, one hop),
      MessageFacts.v and MessageSend.v (the code implements the packets), MessageThms.v;
      GoIO.v is the interface io.Reader with io.ReadFull and io.CopyN;
    - errs/errs.go and the other error constants: Errs.v;
    - utils/id.go and utils/time.go, the pipe ids and the re-armable timer: IdGen.v, Timer.v;
      utils/bufio.go, a buffered writer that a timer flushes: AutoFlush.v;
    - options/options.go and the options.go files of the packages: Options.v (kinds of
      values: validation, parsing, assertion), OptionSet.v (sets with sub-sets, a downstream
      and change hooks), OptionReg.v (the registry of names), with OptionsThms.v and
      OptionSetThms.v;
    - transport/transport.go, conn.go, types.go: Transport.v (schemes, registry, addresses,
      connections), Schemes.v (the registrations of the init functions);
    - address/address.go, the line that says whom to connect to: Address.v, against the
      class [DialListener], whose methods connector.go implements; Connecting.v is that instance,
      from the line through the registry of transports to the dialer or listener;
    - transport/inproc: Inproc.v and InprocThms.v (how dials and accepts of one process meet),
      Channel.v (the pipes over Go channels; a byte pipe is an instance of [Reader]), IoPipe.v
      (the pipes over io.Pipe, with a buffer, and over net.Pipe: a rendezvous);
    - transport/tcp/tcp.go and transport/ipc/ipc_unix.go: Net.v; transport/ws/ws.go: Ws.v (a
      connection, an instance of [Reader]), WsListen.v and WsListenThms.v (dialling, the
      listener and its queue);
    - connector/pipe.go, messages over one connection: Pipe.v and PipeThms.v, against the class
      [Conn]; a pipe is itself an instance of [Reader]; BufReader.v: the bufio.Reader a pipe may
      read through; Links.v: the classes of a connection that is a link, of bytes [LinkOk], of
      packets [PacketLink] or of messages [MsgLink], with the in-process pipes as instances;
      Carrier.v: what each kind of pipe promises of one packet, [Carrier]; Session.v: two
      pipes at the ends of one connection, against [Carrier];
    - connector/connector.go, dialer.go, listener.go, who dials and listens and which pipes
      exist: Connector.v, ConnectorFacts.v, ConnectorThms.v;
    - socket.go: Routing.v (where a message goes, over several sockets), Socket.v,
      SocketFacts.v, SocketThms.v (the queues, senders and receivers), Attached.v (a socket made by
      [New] with its connector, and HandlePipeEvent, in joint steps);
    - pair.go: Pair.v; switch.go: Switch.v (one loop, and the two over a class [Sockets]) and
      SwitchSock.v (two sockets of Socket.v on one memory are an instance of it);
    - perf: Perf.v (its commands and their loops) and PerfProg.v (the programs whole).

    Definitions have the names of the source; a Go method whose name is taken has its type in
    front (MsgPath_Length, pipe_Close).  Prelude.v holds what the files share: machine
    integers, lists indexed by [Z], the computations [M] with explicit state and panics as
    results, triples, big-endian words, and the automation (zlia, the rewrite base zlist,
    the hints go).

    ** How the code is modelled

    A sequential operation is a function: [M S A] threads the state [S] and ends in a result or
    a Go panic.  An error of the source is a value ([err], or [err + A]).  A lock that may never
    be released, as in ParseOption, is the result [None].  Code with goroutines is cut at its
    critical sections and channel operations, and a step relation interleaves the pieces:
    [cstep] (connector), [run_event] over [ND], the lists of the possible outcomes of a select
    (socket), [jstep] (a socket with its connector), [iostep] (the ends of a rendezvous pipe),
    [istep] (in-process transport), [wstep] (websocket listener), [pstep] (pair), [swstep]
    (switch), [astep] (flushing writer).  Theorems on these speak of every reached state, so of
    every schedule.  Integers keep their width: [u8], [u32] and so on are the wrap-around of
    Go's conversions.

    ** What the theorems show

    - Messages: encoding and decoding are inverse up to one hop, on byte strings and on any
      chunking of a stream; decoding is total and answers each error under its condition;
      copies are independent; buffers in use never share memory, whatever the pools return.
    - Sessions: over a connection of bytes, packets or messages, however its two ends interleave,
      the receiver gets the packets sent, in order and intact; a read buffer changes nothing of
      what is received.
    - Routing: a reply along the source path of a message reaches the origin over the same
      links; the time to live bounds the hops.
    - Socket: every outcome of a send; queues are FIFO, lossless and bounded in every
      interleaving; a send to all copies to every pipe; receiving drains after Close; the socket
      knows only pipes its connector holds.
    - Connector: the pipe limit holds in every interleaving, and dialers and listeners are
      stopped exactly when it is reached; the event handler sees exactly the pipes; an address
      line makes the dialer or the listener it describes, with the options in their order of
      precedence.
    - Transports: in-process dials and accepts are paired off; in-process pipes, over channels
      and by rendezvous, and websocket connections are the streams they promise;
      tcp and ipc leak no connection on a failure;
      no connection of the websocket listener is handed out twice; a scheme has one transport.
    - Options and addresses: what a lookup and a write return, that the typed readers cannot
      panic, that names and numerals parse back, when an address line parses and what it sets.
    - Switch: in every interleaving of its loops, what is sent in a direction is what was received
      there, in order, whatever else the two sockets do, and nothing goes back where it came from.
    - Perf: the commands are found, a client and its server complete their rounds, the calls of a
      program come in order and its figures are what they say.
    - Flushing writer: the bytes come through in order and none is left behind, as long as no flush
      overlaps a write; if one does, the writer fails or loses bytes.
    - Behaviours the code probably does not intend, as theorems that name the run: a closed
      in-process listener that keeps its address, a websocket connection that outlives its
      listener, a dialer that never dials again, a NoSend option without effect, a timer that
      flushes in the middle of a write, and others.

    ** Fuel

    Recursions that are not structural have fuel, and a lemma says how much is enough:
    [read_loop] takes the reader's credit (every Read that succeeds uses some up); [NextID] two
    rounds more than there are ids; [GetOption] and [SetOption] one more than the number of the
    set, since a set refers to older ones only; [Read_loop] of Channel.v two rounds per chunk;
    [ws_read] one per message; [copy_all] the library's credit; [forward] of Switch.v one round
    more than there are messages (without an error the loop never ends). [onOptionChange] of
    Pair.v nests once.  The loops of Perf.v take one round more than their count; with a
    negative count no fuel below 2^63 is enough, which is proved.  A write of AutoFlush.v takes
    two rounds.

    ** Parameters

    time.ParseDuration, net/url, package net, package os, the websocket library and net/http are
    parameters, with what the code relies on as laws ([net_laws], [ws_laws]), each with a
    concrete instance that satisfies it.  io.Pipe, net.Pipe, bufio.Reader and bufio.Writer, of
    the standard library, are modelled; a float64 is the Standard Library's [spec_float].
    sync.Pool.Get may return any pooled buffer or none: the memory carries the choices, and
    theorems quantify over them.

    ** Approximations

    Strings are ASCII where letter case matters.  A Go map is enumerated in the order of the
    list it is given as, and theorems hold for any.  The connector's Close closes the pipes as
    tasks of their own, which allows more interleavings; the socket's stopPipe and a send to all
    are one step each.  On an unbuffered channel a send of the socket is possible when a
    receiver waits, which is an arbitrary choice.  A chunk on an in-process byte channel is its
    bytes: the code hands the slice over and its sender keeps off it.  Logging is left out, and
    so are deadlines.

    ** Not modelled

    transport/ipc/ipc_windows.go and options_windows.go (the file refers to a field its
    listener does not have, so that package does not compile on Windows and has no behaviour);
    test (helpers of the tests); types.go and most of connector/types.go (interfaces, whose
    methods are the operations above); the accessors of addresses and of embedded objects;
    deadlines, logging, the texts perf prints.  A data race inside one call - as between the
    flush and the write of utils/bufio.go - is looked at only between the calls they make. *)
From stdpp Require Import base tactics numbers list gmap sets strings.
From Stdlib Require Import ZArith Lia.

#[global] Set Default Goal Selector "!".
Open Scope Z_scope.

(** * Automation *)

Create HintDb go.
Create Rewrite HintDb zlist.

(** [mlia]: linear arithmetic with [mod] and [div] by constants. *)
Ltac mlia := Z.to_euclidean_division_equations; lia.

(** Case on the boolean or option tests of a goal, simplify, repeat. *)
Ltac case_all :=
  repeat (case_match; simplify_eq/=; try done).

(** * Machine integers: the wrap-around of Go's unsigned conversions *)

Definition u8 (z : Z) : Z := z mod 256.
Definition u16 (z : Z) : Z := z mod 65536.
Definition u32 (z : Z) : Z := z mod 4294967296.
Definition u64 (z : Z) : Z := z mod 18446744073709551616.

Definition is_u8 (z : Z) : Prop := 0 ≤ z < 256.
Definition is_u32 (z : Z) : Prop := 0 ≤ z < 4294967296.

#[global] Instance is_u8_dec z : Decision (is_u8 z).
Proof. unfold is_u8; apply _. Defined.
#[global] Instance is_u32_dec z : Decision (is_u32 z).
Proof. unfold is_u32; apply _. Defined.

Lemma u8_bound z : is_u8 (u8 z).
Proof. apply Z.mod_pos_bound; lia. Qed.
Lemma u8_small z : is_u8 z → u8 z = z.
Proof. apply Z.mod_small. Qed.
Lemma u32_bound z : is_u32 (u32 z).
Proof. apply Z.mod_pos_bound; lia. Qed.
Lemma u32_small z : is_u32 z → u32 z = z.
Proof. apply Z.mod_small. Qed.
#[export] Hint Resolve u8_bound u32_bound : go.

(** [x & (2^n - 1)] is [x mod 2^n]. *)
Lemma land_mask n z : 0 ≤ n → Z.land z (2 ^ n - 1) = z mod 2 ^ n.
Proof. intros. rewrite <- Z.land_ones, Z.ones_equiv by done. f_equal; lia. Qed.

(** * Lists indexed by [Z] *)

Section zlist.
Context {A : Type}.
Implicit Types (l k : list A) (n m : Z).

Definition zlen l : Z := Z.of_nat (length l).
Definition ztake n l : list A := take (Z.to_nat n) l.
Definition zdrop n l : list A := drop (Z.to_nat n) l.

(** [zsub n m l]: the [m] elements of [l] that start at index [n]. *)
Definition zsub n m l : list A := ztake m (zdrop n l).

(** [zsplice n k l]: [l] with [k] written over it from index [n] on. *)
Definition zsplice n k l : list A := ztake n l ++ k ++ zdrop (n + zlen k) l.

Lemma zlen_nonneg l : 0 ≤ zlen l.
Proof. unfold zlen; lia. Qed.
Lemma zlen_nil : zlen (@nil A) = 0.
Proof. done. Qed.
Lemma zlen_cons a l : zlen (a :: l) = 1 + zlen l.
Proof. unfold zlen; cbn [length]; lia. Qed.
Lemma zlen_app l k : zlen (l ++ k) = zlen l + zlen k.
Proof. unfold zlen; rewrite length_app; lia. Qed.
Lemma zlen_take n l : 0 ≤ n ≤ zlen l → zlen (ztake n l) = n.
Proof. unfold zlen, ztake; rewrite length_take; lia. Qed.
Lemma zlen_drop n l : 0 ≤ n ≤ zlen l → zlen (zdrop n l) = zlen l - n.
Proof. unfold zlen, zdrop; rewrite length_drop; lia. Qed.
Lemma zlen_0 l : zlen l = 0 → l = [].
Proof. destruct l; [done|]. rewrite zlen_cons. pose proof (zlen_nonneg l). lia. Qed.

Lemma ztake_zdrop n l : ztake n l ++ zdrop n l = l.
Proof. apply take_drop. Qed.
Lemma ztake_app l k : ztake (zlen l) (l ++ k) = l.
Proof. unfold ztake, zlen. rewrite Nat2Z.id. apply take_app_length. Qed.
Lemma zdrop_app l k : zdrop (zlen l) (l ++ k) = k.
Proof. unfold zdrop, zlen. rewrite Nat2Z.id. apply drop_app_length. Qed.
Lemma ztake_all l : ztake (zlen l) l = l.
Proof. unfold ztake, zlen. rewrite Nat2Z.id. by apply firstn_all. Qed.
Lemma zdrop_0 l : zdrop 0 l = l.
Proof. done. Qed.
Lemma ztake_0 l : ztake 0 l = [].
Proof. done. Qed.
Lemma zdrop_zdrop n m l : 0 ≤ n → 0 ≤ m → zdrop n (zdrop m l) = zdrop (m + n) l.
Proof. intros. unfold zdrop. rewrite drop_drop. f_equal; lia. Qed.

(** The segment lemmas the proofs on buffers use. *)
Lemma ztake_app_eq n l k : n = zlen l → ztake n (l ++ k) = l.
Proof. intros ->. apply ztake_app. Qed.
Lemma zdrop_app_eq n l k : n = zlen l → zdrop n (l ++ k) = k.
Proof. intros ->. apply zdrop_app. Qed.
Lemma ztake_all_eq n l : n = zlen l → ztake n l = l.
Proof. intros ->. apply ztake_all. Qed.
Lemma zsub_app_eq n m l k j : n = zlen l → m = zlen k → zsub n m (l ++ k ++ j) = k.
Proof. intros -> ->. unfold zsub. by rewrite zdrop_app, ztake_app. Qed.
Lemma zsplice_app_eq n l k k' j :
  n = zlen l → zlen k' = zlen k → zsplice n k' (l ++ k ++ j) = l ++ k' ++ j.
Proof.
  intros -> Hk. unfold zsplice. rewrite ztake_app. do 2 f_equal.
  rewrite Hk, app_assoc, <- zlen_app. apply zdrop_app.
Qed.
Lemma zlen_zsub n m l : 0 ≤ n → 0 ≤ m → n + m ≤ zlen l → zlen (zsub n m l) = m.
Proof. intros. unfold zsub. rewrite zlen_take; [done|]. rewrite zlen_drop; lia. Qed.

(** Every list splits at an index inside it. *)
Lemma zsplit n l : 0 ≤ n ≤ zlen l → ∃ l1 l2, l = l1 ++ l2 ∧ zlen l1 = n.
Proof.
  intros. exists (ztake n l), (zdrop n l). rewrite ztake_zdrop.
  split; [done|]. by apply zlen_take.
Qed.

Definition zlookup l n : option A := if n <? 0 then None else l !! Z.to_nat n.
End zlist.

#[export] Hint Rewrite @zlen_nil @zlen_cons @zlen_app : zlist.
#[export] Hint Resolve zlen_nonneg : go.

Ltac zlen_pose :=
  repeat match goal with
  | |- context [zlen ?l] => lazymatch goal with
      | _ : 0 ≤ zlen l |- _ => fail | _ => pose proof (zlen_nonneg l) end
  | _ : context [zlen ?l] |- _ => lazymatch goal with
      | _ : 0 ≤ zlen l |- _ => fail | _ => pose proof (zlen_nonneg l) end
  end.

(** [zlia]: arithmetic on list lengths. *)
Ltac zlia := autorewrite with zlist in *; zlen_pose; lia.

(** * Go computations: explicit state, and panics as a result *)

Inductive panic : Set :=
  | PanicBounds         (* index or slice bounds out of range *)
  | PanicNilMap         (* assignment to entry in nil map *)
  | PanicTypeAssert     (* failed x.(T) *)
  | PanicNilDeref       (* nil pointer dereference *)
  | PanicCloseClosed    (* close of a closed channel *)
  | PanicMakeChan.      (* make(chan T, n) with n < 0 *)

Inductive outcome (A : Type) : Type :=
  | Ret (a : A)
  | Panics (p : panic).
Arguments Ret {A} a.
Arguments Panics {A} p.

Definition M (S A : Type) : Type := S → outcome (A * S).

#[global] Instance M_ret S : MRet (M S) := λ A a s, Ret (a, s).
#[global] Instance M_bind S : MBind (M S) := λ A B f m s,
  match m s with
  | Ret (a, s') => f a s'
  | Panics p => Panics p
  end.

Definition gets {S A} (f : S → A) : M S A := λ s, Ret (f s, s).
Definition modify {S} (f : S → S) : M S unit := λ s, Ret ((), f s).
Definition gopanic {S A} (p : panic) : M S A := λ _, Panics p.

Section M_laws.
Context {S A B C : Type}.

Lemma M_bind_ret_run (m : M S A) (f : A → M S B) s a s' :
  m s = Ret (a, s') → (m ≫= f) s = f a s'.
Proof. intros H. unfold mbind, M_bind. by rewrite H. Qed.
Lemma M_bind_panic_run (m : M S A) (f : A → M S B) s p :
  m s = Panics p → (m ≫= f) s = Panics p.
Proof. intros H. unfold mbind, M_bind. by rewrite H. Qed.
Lemma M_bind_Ret (m : M S A) (f : A → M S B) s b s'' :
  (m ≫= f) s = Ret (b, s'') ↔ ∃ a s', m s = Ret (a, s') ∧ f a s' = Ret (b, s'').
Proof.
  unfold mbind, M_bind. destruct (m s) as [[a s']|p].
  - split; [by eauto|]. intros (a' & s1 & Heq & Hf). by simplify_eq.
  - split; [done|]. by intros (? & ? & ? & ?).
Qed.
End M_laws.

(** * Triples: what holds of the result of a computation that returns *)

Definition hoare {S A} (Pre : S → Prop) (c : M S A) (Post : A → S → Prop) : Prop :=
  ∀ s a s', Pre s → c s = Ret (a, s') → Post a s'.

Section hoare_rules.
Context {S A B : Type}.

Lemma hoare_bind (Pre : S → Prop) (c : M S A) (f : A → M S B) Mid Post :
  hoare Pre c Mid → (∀ a, hoare (Mid a) (f a) Post) → hoare Pre (c ≫= f) Post.
Proof.
  intros Hc Hf s b s'' Hs (a & s' & H1 & H2)%M_bind_Ret. eapply Hf; [|exact H2]. by eapply Hc.
Qed.
Lemma hoare_ret (Pre : S → Prop) (a : A) Post : (∀ s, Pre s → Post a s) → hoare Pre (mret a) Post.
Proof. intros H s a' s' Hs [= <- <-]. by apply H. Qed.
Lemma hoare_weaken (Pre Pre' : S → Prop) (c : M S A) (Post Post' : A → S → Prop) :
  hoare Pre' c Post' → (∀ s, Pre s → Pre' s) → (∀ a s, Post' a s → Post a s) → hoare Pre c Post.
Proof. intros H H1 H2 s a s' Hs Hc. eapply H2, H; [by apply H1|done]. Qed.
Lemma hoare_panic (Pre : S → Prop) p (Post : A → S → Prop) : hoare Pre (gopanic p) Post.
Proof. intros s a s' _ H. discriminate H. Qed.
End hoare_rules.

(** [go_step H]: run the first call of a sequence with the equation [H]. *)
Ltac go_step H := rewrite (M_bind_ret_run _ _ _ _ _ H).

(** * Big-endian 32-bit words, as encoding/binary writes them *)

Definition be32 (v : Z) : list Z :=
  [Z.land (Z.shiftr v 24) 255; Z.land (Z.shiftr v 16) 255;
   Z.land (Z.shiftr v 8) 255; Z.land v 255].

Definition be32_decode (b : list Z) : option Z :=
  match b with
  | b0 :: b1 :: b2 :: b3 :: _ =>
      Some (Z.lor (Z.lor (Z.lor b3 (Z.shiftl b2 8)) (Z.shiftl b1 16)) (Z.shiftl b0 24))
  | _ => None
  end.

Lemma zlen_be32 v : zlen (be32 v) = 4.
Proof. done. Qed.
#[export] Hint Rewrite zlen_be32 : zlist.

Lemma lor_shiftl_add a b n : 0 ≤ n → 0 ≤ a < 2 ^ n → Z.lor a (Z.shiftl b n) = a + b * 2 ^ n.
Proof.
  intros Hn Ha. rewrite <- Z.shiftl_mul_pow2 by done.
  symmetry. apply Z.add_nocarry_lor. apply Z.bits_inj'. intros i Hi.
  rewrite Z.land_spec, Z.bits_0. destruct (decide (i < n)).
  - rewrite Z.shiftl_spec_low by lia. apply andb_false_r.
  - rewrite <- (Z.mod_small a (2 ^ n)) by lia. rewrite Z.mod_pow2_bits_high by lia. done.
Qed.

Lemma be32_decode_sum b0 b1 b2 b3 l :
  is_u8 b0 → is_u8 b1 → is_u8 b2 → is_u8 b3 →
  be32_decode (b0 :: b1 :: b2 :: b3 :: l)
    = Some (b3 + b2 * 2 ^ 8 + b1 * 2 ^ 16 + b0 * 2 ^ 24).
Proof.
  unfold is_u8. intros. cbn [be32_decode]. f_equal.
  rewrite (lor_shiftl_add b3 b2), (lor_shiftl_add _ b1), (lor_shiftl_add _ b0); lia.
Qed.

Lemma be32_roundtrip v l : is_u32 v → be32_decode (be32 v ++ l) = Some v.
Proof.
  unfold is_u32. intros Hv. unfold be32. cbn [app].
  change 255 with (2 ^ 8 - 1). rewrite !land_mask by lia.
  rewrite be32_decode_sum; [|unfold is_u8; change (2 ^ 8) with 256; mlia..].
  rewrite !Z.shiftr_div_pow2 by lia. f_equal.
  change (2 ^ 8) with 256; change (2 ^ 16) with 65536; change (2 ^ 24) with 16777216. mlia.
Qed.

Lemma be32_bytes v : Forall is_u8 (be32 v).
Proof.
  unfold be32. change 255 with (2 ^ 8 - 1). rewrite !land_mask by lia.
  change (2 ^ 8) with 256. repeat constructor; unfold is_u8; mlia.
Qed.
#[export] Hint Resolve be32_bytes : go.
#[global] Arguments be32 : simpl never.
#[global] Arguments be32_decode : simpl never.
