(* ===== verification/Errs.v ===== *)
(** Error values of the repository (errs/errs.go, errs.go, connector/errs.go,
    transport/errs.go, and the [errors.New] values of options and address),
    with the errors of package io the code tests for.

    In the source an error constant is a value of [type Err string] and two
    errors are compared with [==], that is by their texts; [Error_inj] shows that
    the texts are pairwise distinct, so one constructor per constant is faithful. *)
From S2P Require Import Prelude.
From stdpp Require Import base strings.

Inductive err : Set :=
  (* errs *)
  | ErrClosed | ErrTimeout | ErrBadOperateState | ErrBadAddr | ErrAddrInUse
  | ErrOperationNotSupported | ErrBadTransport | ErrBadMsg | ErrBadProtocol
  | ErrContentTooLong
  (* multisocket *)
  | ErrMsgDropped | ErrBrokenPath | ErrInvalidSendType
  (* connector *)
  | ErrStopped
  (* transport *)
  | ErrConnRefused | ErrNotListening
  (* options *)
  | ErrInvalidOptionValue | ErrUnsupportedOption | ErrOptionNotFound
  (* address *)
  | ErrBadConnectType | ErrConnectTypeMissing
  (* package io *)
  | EOF | ErrUnexpectedEOF | ErrClosedPipe | ErrShortWrite
  (* any other error, reported by the operating system or a peer library *)
  | ErrOS (n : nat).

#[global] Instance err_eq_dec : EqDecision err.
Proof. solve_decision. Defined.

(** [Err.Error]: the text of a constant of the repository. *)
Definition Error (e : err) : option string :=
  match e with
  | ErrClosed => Some "object is closed"
  | ErrTimeout => Some "operation time out"
  | ErrBadOperateState => Some "bad operation state"
  | ErrBadAddr => Some "bad address"
  | ErrAddrInUse => Some "address already in use"
  | ErrOperationNotSupported => Some "operation not supported"
  | ErrBadTransport => Some "invalid or unsupported transport"
  | ErrBadMsg => Some "bad message"
  | ErrBadProtocol => Some "bad protocol"
  | ErrContentTooLong => Some "content is too long"
  | ErrMsgDropped => Some "message dropped"
  | ErrBrokenPath => Some "bad destination: broken path"
  | ErrInvalidSendType => Some "invalid send type"
  | ErrStopped => Some "object is stopped"
  | ErrConnRefused => Some "connection refused"
  | ErrNotListening => Some "not listening"
  | ErrInvalidOptionValue => Some "invalid option value"
  | ErrUnsupportedOption => Some "unsupported option"
  | ErrOptionNotFound => Some "option not found"
  | ErrBadConnectType => Some "bad connect type"
  | ErrConnectTypeMissing => Some "connect type missing"
  | EOF | ErrUnexpectedEOF | ErrClosedPipe | ErrShortWrite | ErrOS _ => None
  end%string.

Lemma Error_inj e1 e2 t : Error e1 = Some t → Error e2 = Some t → e1 = e2.
Proof. intros H1 H2. destruct e1; simplify_eq/=; destruct e2; simplify_eq/=; done. Qed.
