(* ===== verification/GoHeap.v ===== *)
(** Go byte slices over a heap of backing arrays.

    A non-nil slice is a window (offset, length, capacity) of a backing array;
    two slices of one array alias.  [reslice] is [s[lo:hi:max]] with Go's bounds
    check, [hcopy] the builtin [copy], [put_be32] is
    binary.BigEndian.PutUint32.  Offsets and lengths are Go [int]s and are kept in
    [Z]; a byte is a [Z] below 256. *)
From S2P Require Import Prelude.
From stdpp Require Import base tactics numbers list gmap.
From Stdlib Require Import ZArith Lia.
Open Scope Z_scope.

Inductive slice : Set :=
  | NilSlice
  | Slice (arr : nat) (off len cap : Z).

#[global] Instance slice_eq_dec : EqDecision slice.
Proof. solve_decision. Defined.

Definition slen (s : slice) : Z :=
  match s with NilSlice => 0 | Slice _ _ l _ => l end.
Definition scap (s : slice) : Z :=
  match s with NilSlice => 0 | Slice _ _ _ c => c end.
Definition sarr (s : slice) : option nat :=
  match s with NilSlice => None | Slice a _ _ _ => Some a end.

Record heap := Heap { arrays : gmap nat (list Z); next_arr : nat }.

Definition heap_empty : heap := Heap ∅ 0.

(** [make([]byte, 0, n)] and [make([]byte, n)]: a next_arr zeroed array. *)
Definition halloc (n : Z) (h : heap) : nat * heap :=
  (next_arr h, Heap (<[next_arr h := replicate (Z.to_nat n) 0]> (arrays h)) (S (next_arr h))).

(** [s[lo:hi:max]]; [s[lo:hi]] is [reslice s lo hi (scap s)]. *)
Definition reslice (s : slice) (lo hi mx : Z) : option slice :=
  if bool_decide (0 ≤ lo ∧ lo ≤ hi ∧ hi ≤ mx ∧ mx ≤ scap s) then
    match s with
    | NilSlice => Some NilSlice
    | Slice a o _ _ => Some (Slice a (o + lo) (hi - lo) (mx - lo))
    end
  else None.

(** The bytes a slice shows. *)
Definition hread (h : heap) (s : slice) : list Z :=
  match s with
  | NilSlice => []
  | Slice a o l _ => zsub o l (default [] (arrays h !! a))
  end.

(** Write [bs] at the start of the slice. *)
Definition hwrite (s : slice) (bs : list Z) (h : heap) : heap :=
  match s with
  | NilSlice => h
  | Slice a o _ _ =>
      Heap (alter (zsplice o bs) a (arrays h)) (next_arr h)
  end.

(** [copy(dst, src)]: the bytes are read before any is written. *)
Definition hcopy (dst src : slice) (h : heap) : heap :=
  hwrite dst (ztake (Z.min (slen dst) (slen src)) (hread h src)) h.

(** [copy] from bytes that are not in the heap (a buffer owned by another party). *)
Definition hcopy_bytes (dst : slice) (bs : list Z) (h : heap) : heap :=
  hwrite dst (ztake (Z.min (slen dst) (zlen bs)) bs) h.

(** [b[i] = v] *)
Definition hset (s : slice) (i v : Z) (h : heap) : option heap :=
  if bool_decide (0 ≤ i < slen s) then
    match reslice s i (i + 1) (i + 1) with
    | Some s' => Some (hwrite s' [v] h)
    | None => None
    end
  else None.

(** binary.BigEndian.PutUint32(b, v): panics unless [len(b) >= 4]. *)
Definition put_be32 (s : slice) (v : Z) (h : heap) : option heap :=
  if bool_decide (4 ≤ slen s) then Some (hwrite s (be32 v) h) else None.

(** A slice points into its array. *)
Definition slice_ok (h : heap) (s : slice) : Prop :=
  match s with
  | NilSlice => True
  | Slice a o l c =>
      0 ≤ o ∧ 0 ≤ l ≤ c ∧ (a < next_arr h)%nat ∧
      match arrays h !! a with Some b => o + c ≤ zlen b | None => False end
  end.

(** Every allocated array has a number below [next_arr]. *)
Definition heap_ok (h : heap) : Prop := ∀ a, (next_arr h ≤ a)%nat → arrays h !! a = None.

(** ** Lemmas *)

Lemma heap_empty_ok : heap_ok heap_empty.
Proof. intros a _. apply lookup_empty. Qed.

Lemma halloc_ok n h : heap_ok h → heap_ok (snd (halloc n h)).
Proof.
  intros H a Ha. cbn in *. rewrite lookup_insert_ne by lia. apply H; lia.
Qed.

Lemma halloc_slice_ok n l h :
  heap_ok h → 0 ≤ l ≤ n → slice_ok (snd (halloc n h)) (Slice (fst (halloc n h)) 0 l n).
Proof.
  intros Hh Hl. cbn. rewrite lookup_insert_eq. unfold zlen. rewrite length_replicate.
  repeat split; lia.
Qed.

Lemma reslice_Some s lo hi mx :
  0 ≤ lo ∧ lo ≤ hi ∧ hi ≤ mx ∧ mx ≤ scap s →
  reslice s lo hi mx = Some (match s with
    | NilSlice => NilSlice | Slice a o _ _ => Slice a (o + lo) (hi - lo) (mx - lo) end).
Proof. intros H. unfold reslice. rewrite bool_decide_eq_true_2 by done. by destruct s. Qed.

Lemma reslice_None s lo hi mx :
  (0 ≤ lo ∧ lo ≤ hi ∧ hi ≤ mx ∧ mx ≤ scap s → False) → reslice s lo hi mx = None.
Proof. intros H. unfold reslice. by rewrite bool_decide_eq_false_2. Qed.

(** A write through a slice touches its own array only. *)
Lemma hwrite_other a o l c bs h s :
  sarr s ≠ Some a → hread (hwrite (Slice a o l c) bs h) s = hread h s.
Proof.
  destruct s as [|a' o' l' c']; [done|]. intros Hne. cbn.
  rewrite lookup_alter_ne; [done|]. intros ->. by apply Hne.
Qed.

(** Segment forms: the array is [X ++ Y ++ Z] and the slice shows [Y]. *)
Lemma hread_seg h a o l c X Y Z :
  arrays h !! a = Some (X ++ Y ++ Z) → o = zlen X → l = zlen Y →
  hread h (Slice a o l c) = Y.
Proof. intros Ha -> ->. cbn. rewrite Ha. cbn. by apply zsub_app_eq. Qed.

Lemma hwrite_seg h a o l c X Y Z bs :
  arrays h !! a = Some (X ++ Y ++ Z) → o = zlen X → zlen bs = zlen Y →
  hwrite (Slice a o l c) bs h = Heap (<[a := X ++ bs ++ Z]> (arrays h)) (next_arr h).
Proof.
  intros Ha -> Hl. cbn. f_equal. apply map_eq. intros i.
  destruct (decide (i = a)) as [->|Hne].
  - rewrite lookup_alter_eq, lookup_insert_eq, Ha. cbn. f_equal. by apply zsplice_app_eq.
  - by rewrite lookup_alter_ne, lookup_insert_ne.
Qed.

Lemma heap_ok_insert h a b :
  heap_ok h → is_Some (arrays h !! a) → heap_ok (Heap (<[a := b]> (arrays h)) (next_arr h)).
Proof.
  intros Hh [b' Hb] i Hi. cbn in *. rewrite lookup_insert_ne; [by apply Hh|].
  intros ->. by rewrite Hh in Hb.
Qed.

Lemma slice_ok_insert h a b b' s :
  arrays h !! a = Some b → zlen b' = zlen b → slice_ok h s →
  slice_ok (Heap (<[a := b']> (arrays h)) (next_arr h)) s.
Proof.
  destruct s as [|a' o l c]; [done|]. cbn. intros Ha Hl (? & ? & ? & Hb).
  repeat split; try lia. destruct (decide (a = a')) as [->|].
  - rewrite lookup_insert_eq. rewrite Ha in Hb. lia.
  - by rewrite lookup_insert_ne.
Qed.

(** The window of a well-formed slice: its array splits around it. *)
Lemma slice_ok_split h a o l c :
  slice_ok h (Slice a o l c) →
  ∃ X Y Z, arrays h !! a = Some (X ++ Y ++ Z) ∧ zlen X = o ∧ zlen Y = l.
Proof.
  cbn. intros (Ho & Hl & _ & Hb). destruct (arrays h !! a) as [b|] eqn:Ea; [|done].
  destruct (zsplit o b) as (X & r & -> & HX); [lia|].
  destruct (zsplit l r) as (Y & Z & -> & HY); [zlia|].
  by exists X, Y, Z.
Qed.
