(* ===== verification/GoIO.v ===== *)
(** The part of package io that message.go uses: [io.Reader], [io.ReadFull] and
    [io.CopyN(ioutil.Discard, ...)].

    [Reader R] is the interface a client of a reader relies on: [Read n r] returns at
    most [n] bytes, they are the next bytes of [pending r], an error is reported only
    once the pending bytes are used up, a reader cannot return nothing for ever ([credit]
    decreases on every successful call), and closing a reader adds no bytes.  [stream] is a reader that delivers
    given chunks and then fails with a given error; connector/pipe.go gives another
    instance. *)
From S2P Require Import Prelude Errs.
From stdpp Require Import base tactics numbers list.
From Stdlib Require Import ZArith Lia.
Open Scope Z_scope.

Class Reader (R : Type) := {
  Read : Z → R → list Z * option err * R;
  Close : R → R;
  pending : R → list Z;
  credit : R → nat }.

(** What the documentation of io.Reader promises, as used here. *)
Class ReaderOk (R : Type) `{!Reader R} : Prop := {
  read_ok n r bs e r' :
    0 < n → Read n r = (bs, e, r') →
    zlen bs ≤ n ∧ pending r = bs ++ pending r' ∧
    (e = None → (credit r' < credit r)%nat) ∧ (e ≠ None → pending r' = []) ∧
    (credit r' ≤ credit r)%nat;
  close_pending r : (length (pending (Close r)) ≤ length (pending r))%nat;
  close_credit r : (credit (Close r) ≤ credit r)%nat }.

Section readers.
Context {R : Type} `{!Reader R}.

(** The loop of io.ReadAtLeast with [min = len(buf)]: [n] bytes are still wanted. *)
Fixpoint read_loop (fuel : nat) (n : Z) (r : R) : list Z * option err * R :=
  if n <=? 0 then ([], None, r) else
  match fuel with
  | O => ([], None, r)
  | S fuel =>
      let '(bs, e, r1) := Read n r in
      match e with
      | Some e => (bs, if n <=? zlen bs then None else Some e, r1)
      | None => let '(bs', e', r2) := read_loop fuel (n - zlen bs) r1 in
                (bs ++ bs', e', r2)
      end
  end.

(** [io.ReadFull(r, buf)] with [len(buf) = n]: the bytes read and the error. *)
Definition ReadFull (n : Z) (r : R) : list Z * option err * R :=
  let '(bs, e, r') := read_loop (S (credit r)) n r in
  let e' := match e with
            | Some EOF => if 0 <? zlen bs then Some ErrUnexpectedEOF else Some EOF
            | _ => e
            end in
  (bs, e', r').

(** [io.CopyN(ioutil.Discard, r, n)] *)
Definition CopyN (n : Z) (r : R) : option err * R :=
  let '(_, e, r') := read_loop (S (credit r)) n r in (e, r').

Context `{!ReaderOk R}.

Lemma read_loop_spec fuel n r :
  (credit r < fuel)%nat → 0 ≤ n →
  let '(bs, e, r') := read_loop fuel n r in
  pending r = bs ++ pending r' ∧ zlen bs ≤ n ∧
  (zlen bs = n ↔ n ≤ zlen (pending r)) ∧ (e = None ↔ n ≤ zlen (pending r)).
Proof.
  revert n r. induction fuel as [|fuel IH]; intros n r Hf Hn; [lia|]. cbn [read_loop].
  destruct (Z.leb_spec n 0).
  { cbn. autorewrite with zlist. zlen_pose. repeat split; try done; lia. }
  destruct (Read n r) as [[bs e] r1] eqn:Er.
  destruct (read_ok n r bs e r1) as (Hl & Hp & Hc & He & _); [lia|done|].
  destruct e as [e|].
  - rewrite Hp, He in * by done. rewrite app_nil_r in *.
    destruct (Z.leb_spec n (zlen bs)); repeat split; try done; try lia.
  - specialize (IH (n - zlen bs) r1).
    destruct (read_loop fuel (n - zlen bs) r1) as [[bs' e'] r2].
    destruct IH as (Hp' & Hl' & Hi & Hi'); [specialize (Hc eq_refl); lia|lia|].
    rewrite Hp, zlen_app. rewrite Hi'. autorewrite with zlist.
    repeat split; try (by rewrite Hp', app_assoc); lia.
Qed.

Lemma ReadFull_enough n r :
  0 ≤ n ≤ zlen (pending r) →
  ∃ r', ReadFull n r = (ztake n (pending r), None, r') ∧ pending r' = zdrop n (pending r).
Proof.
  intros [Hn Hp]. unfold ReadFull.
  pose proof (read_loop_spec (S (credit r)) n r ltac:(lia) Hn) as Hl.
  destruct (read_loop _ n r) as [[bs e] r']. destruct Hl as (H1 & _ & H3 & H4).
  assert (e = None) as -> by by apply H4.
  assert (zlen bs = n) as Hbs by by apply H3.
  exists r'. rewrite H1, <- Hbs, ztake_app, zdrop_app. done.
Qed.

Lemma ReadFull_short n r :
  zlen (pending r) < n →
  ∃ bs e r', ReadFull n r = (bs, Some e, r') ∧ zlen bs < n ∧ pending r = bs ++ pending r'.
Proof.
  intros Hp. unfold ReadFull. zlen_pose.
  pose proof (read_loop_spec (S (credit r)) n r ltac:(lia) ltac:(lia)) as Hl.
  destruct (read_loop _ n r) as [[bs e] r']. destruct Hl as (H1 & H2 & H3 & H4).
  destruct e as [e|]; [|exfalso; destruct H4 as [H4 _]; specialize (H4 eq_refl); lia].
  exists bs, (match e with EOF => if 0 <? zlen bs then ErrUnexpectedEOF else EOF | _ => e end), r'.
  split; [|split; [|exact H1]].
  - destruct e; try done. by destruct (0 <? zlen bs).
  - assert (zlen bs ≠ n) by (intros Hx; apply H3 in Hx; lia). lia.
Qed.

Lemma CopyN_enough n r :
  0 ≤ n ≤ zlen (pending r) →
  ∃ r', CopyN n r = (None, r') ∧ pending r' = zdrop n (pending r).
Proof.
  intros H. unfold CopyN. destruct (ReadFull_enough n r H) as (r' & Hr & Hp).
  unfold ReadFull in Hr. destruct (read_loop _ n r) as [[bs e] r1].
  destruct e as [e|]; [|simplify_eq/=; by eauto].
  exfalso. destruct e; simplify_eq/=; by case_match.
Qed.

Lemma CopyN_short n r : zlen (pending r) < n → ∃ e r', CopyN n r = (Some e, r').
Proof.
  intros H. unfold CopyN. destruct (ReadFull_short n r H) as (bs & e & r' & Hr & _).
  unfold ReadFull in Hr. destruct (read_loop _ n r) as [[bs1 e1] r1].
  destruct e1 as [e1|]; simplify_eq/=. by eauto.
Qed.
End readers.

(** ** A reader over a list of chunks *)

Record stream := Stream { chunks : list (list Z); end_err : err; closed : bool }.

Definition stream_read (n : Z) (s : stream) : list Z * option err * stream :=
  match chunks s with
  | [] => ([], Some (end_err s), s)
  | c :: cs =>
      if zlen c <=? n then (c, None, Stream cs (end_err s) (closed s))
      else (ztake n c, None, Stream (zdrop n c :: cs) (end_err s) (closed s))
  end.

#[global] Instance stream_reader : Reader stream := {
  Read := stream_read;
  Close s := Stream (chunks s) (end_err s) true;
  pending s := concat (chunks s);
  credit s := (length (chunks s) + length (concat (chunks s)))%nat }.

#[global] Instance stream_reader_ok : ReaderOk stream.
Proof.
  split; [|done|done]. intros n [cs e0 cl] bs e r' Hn. cbn. unfold stream_read. cbn.
  destruct cs as [|c cs]; [intros [= <- <- <-]; split_and!; [zlia|done..]|].
  destruct (Z.leb_spec (zlen c) n); intros [= <- <- <-]; cbn.
  - rewrite length_app. split_and!; [done|done|intros _; lia|done|lia].
  - rewrite zlen_take by zlia. rewrite app_assoc, ztake_zdrop. rewrite !length_app.
    unfold zdrop. rewrite length_drop. unfold zlen in *. split_and!; [lia|done|lia|done|lia].
Qed.
