(* ===== verification/Bytespool.v ===== *)
(** bytespool/bytespool.go: the size-classed buffer pools.

    [mem] is the memory the library allocates buffers in: the heap, the pools, and the
    choices of [sync.Pool].  [sync.Pool.Get] may return any pooled item or none (then
    [New] runs), so each call consumes one entry of [choices]; theorems quantify over
    [mem] and so over every behaviour of the pools. *)
From S2P Require Import Prelude GoHeap.
From stdpp Require Import base tactics numbers list sorting gmap.
From Stdlib Require Import ZArith Lia.
Open Scope Z_scope.

Record poolInfo := PoolInfo { sz : Z; p : list slice }.

Definition newPoolInfo (n : Z) : poolInfo := PoolInfo n [].

Definition static_pools : list poolInfo :=
  newPoolInfo <$>
    [4; 8; 16; 32; 64; 128; 256; 512; 1024; 2 * 1024; 4 * 1024; 8 * 1024; 16 * 1024].

(** [pools] after [init]: the static classes, then [i*8*1024] for [i] in 2..64. *)
Definition init_pools : list poolInfo :=
  static_pools ++ ((λ i, newPoolInfo (i * 8 * 1024)) <$> seqZ 2 63).

Record mem := Mem { hp : heap; pools : list poolInfo; choices : list (option nat) }.

Definition mem_init (cs : list (option nat)) : mem := Mem heap_empty init_pools cs.

Definition next_choice (cs : list (option nat)) : option nat * list (option nat) :=
  match cs with [] => (None, []) | c :: cs' => (c, cs') end.

(** [pi.p.Get().([]byte)] for the pool number [i]. *)
Definition pool_Get (i : nat) (pi : poolInfo) : M mem slice := λ m,
  let '(c, cs) := next_choice (choices m) in
  match c ≫= λ k, (λ s, (k, s)) <$> p pi !! k with
  | Some (k, s) =>
      Ret (s, Mem (hp m) (<[i := PoolInfo (sz pi) (delete k (p pi))]> (pools m)) cs)
  | None =>
      let '(a, h) := halloc (sz pi) (hp m) in
      Ret (Slice a 0 0 (sz pi), Mem h (pools m) cs)
  end.

(** The first class that can hold [n] bytes. *)
Definition find_pool (n : Z) (ps : list poolInfo) : option (nat * poolInfo) :=
  list_find (λ pi, n ≤ sz pi) ps.

Definition Alloc (n : Z) : M mem slice :=
  if bool_decide (n ≤ 0) then mret NilSlice else
  ps ← gets pools;
  match find_pool n ps with
  | Some (i, pi) =>
      s ← pool_Get i pi;
      match reslice s 0 n (scap s) with
      | Some s' => mret s'
      | None => gopanic PanicBounds
      end
  | None => λ m, let '(a, h) := halloc n (hp m) in
                 Ret (Slice a 0 n n, Mem h (pools m) (choices m))
  end.

Definition pool_Put (s : slice) (pi : poolInfo) : poolInfo :=
  if bool_decide (scap s = sz pi) then PoolInfo (sz pi) (s :: p pi) else pi.

Definition Free (s : slice) : M mem unit :=
  if bool_decide (scap s ≤ 0) then mret () else
  modify (λ m, Mem (hp m) (pool_Put s <$> pools m) (choices m)).

(** ** The ownership discipline *)

Definition pool_sizes : list Z := sz <$> init_pools.

(** Class 13 repeats the size of class 12 (16 KiB) and [Alloc] never takes from it;
    the other classes are live. *)
Definition dead_pool : nat := 13.
Definition live (m : mem) : list poolInfo := delete dead_pool (pools m).

Definition pool_arrays (ps : list poolInfo) : list nat :=
  ps ≫= λ pi, omap sarr (p pi).

(** The backing arrays a later [Alloc] may hand out. *)
Definition pooled (m : mem) : list nat := pool_arrays (live m).

Definition pool_ok (h : heap) (pi : poolInfo) : Prop :=
  Forall (λ s, scap s = sz pi ∧ s ≠ NilSlice ∧ slice_ok h s) (p pi).

Record mem_ok (m : mem) : Prop := {
  mo_heap : heap_ok (hp m);
  mo_sizes : sz <$> pools m = pool_sizes;
  mo_pools : Forall (pool_ok (hp m)) (pools m);
  mo_nodup : NoDup (pooled m) }.

(** A slice the caller owns: valid, and its array is in no live pool. *)
Definition owned (m : mem) (s : slice) : Prop :=
  slice_ok (hp m) s ∧ ∀ a, sarr s = Some a → a ∉ pooled m.

(** [frame P m m']: every slice owned in [m] that satisfies [P] is owned in [m'] and
    shows the same bytes. *)
Definition frame (P : slice → Prop) (m m' : mem) : Prop :=
  ∀ t, P t → owned m t → owned m' t ∧ hread (hp m') t = hread (hp m) t.

(** ** The classes *)

Lemma pool_sizes_pos : Forall (λ z, 0 < z) pool_sizes.
Proof. refine (bool_decide_unpack _ _). vm_compute. exact I. Qed.

Lemma live_sizes_nodup : NoDup (delete dead_pool pool_sizes).
Proof. refine (bool_decide_unpack _ _). vm_compute. exact I. Qed.

Lemma dead_pool_size : pool_sizes !! dead_pool = pool_sizes !! 12%nat.
Proof. reflexivity. Qed.

Lemma find_pool_live n ps i pi :
  sz <$> ps = pool_sizes → find_pool n ps = Some (i, pi) → i ≠ dead_pool.
Proof.
  intros Hs (Hl & Hn & Hlt)%list_find_Some ->.
  assert (sz <$> (ps !! dead_pool) = sz <$> (ps !! 12%nat)) as Heq.
  { by rewrite <- !list_lookup_fmap, Hs, dead_pool_size. }
  rewrite Hl in Heq. destruct (ps !! 12%nat) as [pj|] eqn:E; [|done].
  cbn in Heq. simplify_eq. eapply (Hlt 12%nat pj); [done|unfold dead_pool; lia|lia].
Qed.

Lemma delete_split {A} (l : list A) i k x :
  i ≠ k → l !! i = Some x →
  ∃ l1 l2, delete k l = l1 ++ x :: l2 ∧ ∀ y, delete k (<[i := y]> l) = l1 ++ y :: l2.
Proof.
  revert i k. induction l as [|a l IH]; intros [|i] [|k] Hne Hi; simplify_eq/=.
  - by exists [], (delete k l).
  - exists (take i l), (drop (S i) l). split; [by rewrite take_drop_middle|].
    intros y. apply insert_take_drop. by eapply lookup_lt_Some.
  - destruct (IH i k) as (l1 & l2 & H1 & H2); [lia|done|].
    exists (a :: l1), l2. cbn. split; [by rewrite H1|]. intros y. by rewrite H2.
Qed.

(** ** [Alloc] and [Free] keep the discipline *)

Lemma pool_arrays_mid l1 pi l2 :
  pool_arrays (l1 ++ pi :: l2) ≡ₚ omap sarr (p pi) ++ pool_arrays (l1 ++ l2).
Proof.
  unfold pool_arrays. rewrite !bind_app, bind_cons.
  by rewrite !app_assoc, (Permutation_app_comm (l1 ≫= _) (omap _ _)).
Qed.

Lemma slice_ok_alloc n h s : heap_ok h → slice_ok h s → slice_ok (snd (halloc n h)) s.
Proof.
  destruct s as [|a o l c]; [done|]. cbn. intros Hh (? & ? & ? & ?).
  rewrite lookup_insert_ne by lia. repeat split; try lia. done.
Qed.

Lemma hread_alloc n h s : slice_ok h s → hread (snd (halloc n h)) s = hread h s.
Proof.
  destruct s as [|a o l c]; [done|]. cbn. intros (? & ? & ? & ?).
  by rewrite lookup_insert_ne by lia.
Qed.

Lemma pool_ok_alloc n h pi : heap_ok h → pool_ok h pi → pool_ok (snd (halloc n h)) pi.
Proof.
  intros Hh Hp. eapply Forall_impl; [exact Hp|]. cbn.
  intros s (? & ? & ?). repeat split; [done..|]. by apply slice_ok_alloc.
Qed.

Lemma pooled_inv m a :
  mem_ok m → a ∈ pooled m →
  ∃ s pi, sarr s = Some a ∧ s ∈ p pi ∧ pi ∈ pools m ∧ slice_ok (hp m) s.
Proof.
  intros Hm (pi & (s & Hs & Ha)%list_elem_of_omap & Hpi)%list_elem_of_bind.
  apply list_elem_of_delete_inv in Hpi.
  pose proof (mo_pools _ Hm) as Hp. rewrite Forall_forall in Hp.
  specialize (Hp _ Hpi). unfold pool_ok in Hp. rewrite Forall_forall in Hp.
  exists s, pi. naive_solver.
Qed.

Lemma pooled_below m a : mem_ok m → a ∈ pooled m → (a < next_arr (hp m))%nat.
Proof.
  intros Hm (s & pi & Hs & _ & _ & Hok)%pooled_inv; [|done].
  destruct s; simplify_eq/=. naive_solver.
Qed.

(** Taking a fresh array. *)
Lemma mem_ok_alloc n m cs :
  mem_ok m → mem_ok (Mem (snd (halloc n (hp m))) (pools m) cs).
Proof.
  intros Hm. destruct Hm as [H1 H2 H3 H4]. split; [by apply halloc_ok|done| |done].
  eapply Forall_impl; [exact H3|]. intros. by apply pool_ok_alloc.
Qed.

Lemma frame_alloc n m cs :
  mem_ok m → frame (λ _, True) m (Mem (snd (halloc n (hp m))) (pools m) cs).
Proof.
  intros Hm t _ [Ht Hp]. split; [split; [|done]|].
  - apply slice_ok_alloc; [apply Hm|done].
  - by apply hread_alloc.
Qed.

Lemma owned_fresh n l m cs :
  mem_ok m → 0 ≤ l ≤ n →
  owned (Mem (snd (halloc n (hp m))) (pools m) cs) (Slice (next_arr (hp m)) 0 l n).
Proof.
  intros Hm Hl. split; [by apply halloc_slice_ok; [apply Hm|]|].
  intros a [= <-] Hin. apply (pooled_below m) in Hin; [lia|done].
Qed.

Lemma owned_not_fresh m s : owned m s → sarr s ≠ Some (next_arr (hp m)).
Proof. destruct s; [done|]. intros [(_ & _ & ? & _) _] [= ->]. lia. Qed.

(** [pool_Get] returns a buffer of its class that nobody else can reach. *)
Lemma pool_Get_spec m i pi :
  mem_ok m → pools m !! i = Some pi → i ≠ dead_pool →
  ∃ s m', pool_Get i pi m = Ret (s, m') ∧ mem_ok m' ∧ s ≠ NilSlice ∧ scap s = sz pi ∧
    owned m' s ∧ frame (λ _, True) m m' ∧ (∀ t, owned m t → t ≠ NilSlice → sarr t ≠ sarr s).
Proof.
  intros Hm Hi Hne. unfold pool_Get.
  destruct (next_choice (choices m)) as [c cs].
  assert (0 < sz pi) as Hpos.
  { pose proof pool_sizes_pos as Hp. rewrite Forall_lookup in Hp.
    apply (Hp i). by rewrite <- (mo_sizes _ Hm), list_lookup_fmap, Hi. }
  destruct (c ≫= _) as [[k s]|] eqn:Ec.
  - assert (p pi !! k = Some s) as Hk.
    { destruct c as [k'|]; [|done]. cbn in Ec. destruct (p pi !! k') eqn:E; by simplify_eq/=. }
    eexists _, _. split; [done|].
    set (m' := Mem (hp m) _ cs).
    destruct (delete_split (pools m) i dead_pool pi) as (l1 & l2 & Hd & Hd'); [done..|].
    assert (pool_ok (hp m) pi) as Hpi.
    { pose proof (mo_pools _ Hm) as Hp. rewrite Forall_lookup in Hp. eauto. }
    pose proof Hpi as Hs. unfold pool_ok in Hs. rewrite Forall_lookup in Hs.
    destruct (Hs _ _ Hk) as (Hcap & Hnil & Hok).
    destruct s as [|a o l cp]; [done|].
    assert (pooled m ≡ₚ a :: pooled m') as Hperm.
    { unfold pooled, live, m'. cbn [pools]. rewrite Hd, Hd', !pool_arrays_mid. cbn [p].
      rewrite (delete_Permutation _ _ _ Hk) at 1. done. }
    pose proof (mo_nodup _ Hm) as Hnd. rewrite Hperm, NoDup_cons in Hnd.
    destruct Hnd as [Hnin Hnd].
    split_and!; try done.
    + split; [apply Hm| | |done].
      * unfold m'. cbn [pools]. rewrite list_fmap_insert. cbn [sz].
        rewrite list_insert_id; [apply Hm|]. by rewrite list_lookup_fmap, Hi.
      * apply Forall_insert; [apply Hm|]. cbn. unfold pool_ok. cbn.
        by apply Forall_delete.
    + split; [done|]. by intros ? [= <-].
    + intros t _ [Ht Hp]. split; [split; [done|]|done].
      intros b Hb Hin. apply (Hp b Hb). rewrite Hperm. by right.
    + intros t [_ Hp] Hnt Heq. apply (Hp a); [done|]. rewrite Hperm. by left.
  - cbn. eexists _, _. split; [done|].
    split_and!; try done.
    + by apply (mem_ok_alloc (sz pi)).
    + apply (owned_fresh (sz pi)); [done|lia].
    + by apply (frame_alloc (sz pi)).
    + intros t Ht _. by apply owned_not_fresh.
Qed.

(** [Alloc n] succeeds with [n] bytes that nobody else can reach. *)
Lemma Alloc_run m n :
  mem_ok m → 0 < n →
  ∃ s m', Alloc n m = Ret (s, m') ∧ mem_ok m' ∧ slen s = n ∧ n ≤ scap s ∧
    owned m' s ∧ frame (λ _, True) m m' ∧ (∀ t, owned m t → t ≠ NilSlice → sarr t ≠ sarr s).
Proof.
  intros Hm Hn. unfold Alloc. rewrite bool_decide_eq_false_2 by lia.
  unfold gets, mbind, M_bind. destruct (find_pool n (pools m)) as [[i pi]|] eqn:Ef.
  - assert (i ≠ dead_pool) by (eapply find_pool_live; [apply Hm|done]).
    pose proof Ef as (Hi & Hsz & _)%list_find_Some.
    destruct (pool_Get_spec m i pi) as (s & m' & -> & Hm' & Hnil & Hcap & Hown & Hfr & Hd); [done..|].
    destruct s as [|a o l c]; [done|]. cbn in Hcap.
    rewrite reslice_Some by (cbn; lia). eexists _, m'. split; [done|].
    split_and!; try done; cbn; try lia.
    destruct Hown as [Hok Hp]. cbn in Hok. split; [|done].
    cbn. rewrite Z.add_0_r, !Z.sub_0_r. split_and!; [naive_solver lia..|]. case_match; naive_solver lia.
  - cbn. eexists _, _. split; [done|]. split_and!; try done; cbn; try lia.
    + by apply (mem_ok_alloc n).
    + apply (owned_fresh n); [done|lia].
    + by apply (frame_alloc n).
    + intros t Ht _. by apply owned_not_fresh.
Qed.

Lemma pool_Put_sz s (ps : list poolInfo) : sz <$> (pool_Put s <$> ps) = sz <$> ps.
Proof.
  rewrite <- list_fmap_compose. apply list_fmap_ext. intros i pi _. cbn.
  unfold pool_Put. by case_bool_decide.
Qed.

(** Among classes of distinct sizes, [pool_Put] files a buffer once or not at all. *)
Lemma pool_Put_arrays a o l c (ps : list poolInfo) :
  NoDup (sz <$> ps) →
  pool_arrays (pool_Put (Slice a o l c) <$> ps) ≡ₚ a :: pool_arrays ps ∨
  pool_arrays (pool_Put (Slice a o l c) <$> ps) = pool_arrays ps.
Proof.
  intros Hnd. destruct (decide (c ∈ sz <$> ps)) as [(pi & -> & Hin)%list_elem_of_fmap|Hc].
  - left. apply list_elem_of_split in Hin as (l1 & l2 & ->).
    rewrite fmap_app, fmap_cons in Hnd. rewrite !fmap_app, !fmap_cons. apply NoDup_app in Hnd as (_ & Hl1 & [Hl2 _]%NoDup_cons).
    assert (∀ q : list poolInfo, sz pi ∉ sz <$> q → pool_Put (Slice a o l (sz pi)) <$> q = q) as Hid.
    { clear. intros q Hq. induction q as [|x q IH]; [done|]. csimpl in *.
      apply not_elem_of_cons in Hq as [Hx Hq]. rewrite IH by done. f_equal.
      unfold pool_Put. cbn. by rewrite bool_decide_eq_false_2. }
    rewrite !Hid; [|done|intros Hin; apply (Hl1 _ Hin); by left].
    rewrite !pool_arrays_mid. unfold pool_Put. cbn. by rewrite bool_decide_eq_true_2.
  - right. f_equal. induction ps as [|x q IH]; [done|]. csimpl in *.
    apply not_elem_of_cons in Hc as [Hx Hq]. apply NoDup_cons in Hnd as [_ Hnd].
    rewrite IH by done. f_equal. unfold pool_Put. cbn. by rewrite bool_decide_eq_false_2.
Qed.

Lemma pooled_Put m a o l c :
  mem_ok m →
  let m' := Mem (hp m) (pool_Put (Slice a o l c) <$> pools m) (choices m) in
  pooled m' ≡ₚ a :: pooled m ∨ pooled m' = pooled m.
Proof.
  intros Hm m'. unfold pooled, live, m'. cbn [pools]. rewrite <- list_fmap_delete.
  apply pool_Put_arrays. rewrite list_fmap_delete, (mo_sizes _ Hm). apply live_sizes_nodup.
Qed.

Lemma Free_run m s :
  mem_ok m → owned m s →
  ∃ m', Free s m = Ret ((), m') ∧ mem_ok m' ∧ frame (λ t, sarr t ≠ sarr s) m m'.
Proof.
  intros Hm [Hok Hp]. unfold Free. case_bool_decide as Hc.
  { exists m. split; [done|]. split; [done|]. by intros t _ Ht. }
  destruct s as [|a o l c]; [done|]. unfold modify.
  eexists. split; [done|]. set (m' := Mem _ _ _).
  assert (∀ b, b ∈ pooled m' → b = a ∨ b ∈ pooled m) as Hin.
  { intros b. destruct (pooled_Put m a o l c Hm) as [Hperm|Heq].
    - unfold m'. rewrite Hperm, elem_of_cons. done.
    - unfold m'. rewrite Heq. by right. }
  split; [split|].
  - apply Hm.
  - unfold m'. cbn [pools]. rewrite pool_Put_sz. apply Hm.
  - unfold m'. cbn [hp pools]. apply Forall_fmap. eapply Forall_impl; [apply Hm|].
    intros pi Hpi. cbn. unfold pool_Put. case_bool_decide; [|done].
    constructor; [|done]. done.
  - destruct (pooled_Put m a o l c Hm) as [Hperm|Heq].
    + unfold m'. rewrite Hperm. apply NoDup_cons. split; [by apply Hp|apply Hm].
    + unfold m'. rewrite Heq. apply Hm.
  - intros t Hne [Ht Htp]. split; [split; [done|]|done].
    intros b Hb [->|Hb']%Hin; [by rewrite Hb in Hne|]. by apply (Htp b).
Qed.

Lemma mem_init_ok cs : mem_ok (mem_init cs).
Proof.
  split; [apply heap_empty_ok|done| |].
  - refine (Forall_impl (λ pi, p pi = []) _ _ _ _).
    + refine (bool_decide_unpack _ _). vm_compute. exact I.
    + intros pi Hpi. unfold pool_ok. by rewrite Hpi.
  - assert (pooled (mem_init cs) = []) as -> by (vm_compute; done). constructor.
Qed.

(** Writing through an owned slice keeps the pools and every other array. *)
Lemma write_run m s bs :
  mem_ok m → slice_ok (hp m) s → zlen bs ≤ slen s →
  let m' := Mem (hwrite s bs (hp m)) (pools m) (choices m) in
  mem_ok m' ∧ (∀ t, owned m t → owned m' t) ∧
  (∀ t, sarr t ≠ sarr s → hread (hp m') t = hread (hp m) t).
Proof.
  intros Hm Hs Hl m'. destruct s as [|a o l c]; [by destruct m|].
  destruct (slice_ok_split _ _ _ _ _ Hs) as (X & Y & Z & Ha & HX & HY).
  destruct (zsplit (zlen bs) Y) as (Y1 & Y2 & -> & HY1); [cbn in Hl; zlia|].
  assert (hwrite (Slice a o l c) bs (hp m)
    = Heap (<[a := X ++ bs ++ (Y2 ++ Z)]> (arrays (hp m))) (next_arr (hp m))) as Hw.
  { apply hwrite_seg with (Y := Y1); [|done|done]. by rewrite Ha, <- !app_assoc. }
  assert (∀ t, slice_ok (hp m) t → slice_ok (hp m') t) as Hok.
  { intros t Ht. unfold m'. cbn [hp]. rewrite Hw. eapply slice_ok_insert; [done| |done]. zlia. }
  split_and!.
  - split; [|apply Hm| |apply Hm].
    + unfold m'. cbn [hp]. rewrite Hw. apply heap_ok_insert; [apply Hm|by eexists].
    + unfold m'. cbn [pools]. eapply Forall_impl; [apply Hm|].
      intros pi Hpi. eapply Forall_impl; [exact Hpi|]. cbn. naive_solver.
  - intros t [Ht Hp]. split; [by apply Hok|done].
  - intros t Hne. unfold m'. cbn [hp]. by apply hwrite_other.
Qed.

(** ** Clients of the pools: sequences of [Alloc], [Free] and writes *)

Inductive client_step : mem * list slice → mem * list slice → Prop :=
  | client_alloc m out n s m' :
      0 < n → Alloc n m = Ret (s, m') → client_step (m, out) (m', s :: out)
  | client_free m l1 s l2 m' :
      Free s m = Ret ((), m') → client_step (m, l1 ++ s :: l2) (m', l1 ++ l2)
  | client_write m out s bs :
      s ∈ out → zlen bs ≤ slen s →
      client_step (m, out) (Mem (hwrite s bs (hp m)) (pools m) (choices m), out).

Definition client_ok (st : mem * list slice) : Prop :=
  let '(m, out) := st in
  mem_ok m ∧ Forall (λ s, owned m s ∧ s ≠ NilSlice) out ∧ NoDup (omap sarr out).

Lemma sarr_elem (s : slice) a (l : list slice) : s ∈ l → sarr s = Some a → a ∈ omap sarr l.
Proof. intros. apply list_elem_of_omap. by exists s. Qed.

Lemma omap_sarr_inj (out : list slice) i j s t a :
  NoDup (omap sarr out) → out !! i = Some s → out !! j = Some t →
  sarr s = Some a → sarr t = Some a → i = j.
Proof.
  revert i j. induction out as [|x out IH]; intros [|i] [|j] Hnd Hi Hj Hs Ht; simplify_eq/=;
    [done|..].
  - rewrite Hs in Hnd. apply NoDup_cons in Hnd as [Hna _]. exfalso. apply Hna.
    eapply sarr_elem; [by eapply list_elem_of_lookup_2|done].
  - rewrite Ht in Hnd. apply NoDup_cons in Hnd as [Hna _]. exfalso. apply Hna.
    eapply sarr_elem; [by eapply list_elem_of_lookup_2|done].
  - f_equal. apply (IH i j); [|done..]. by destruct (sarr x); [apply NoDup_cons in Hnd as []|].
Qed.

Lemma client_step_ok st st' : client_ok st → client_step st st' → client_ok st'.
Proof.
  intros Hc Hst. destruct Hst as [m out n s m' Hn Ha|m l1 s l2 m' Hf|m out s bs Hs Hl];
    destruct Hc as (Hm & Hout & Hnd).
  - destruct (Alloc_run m n Hm Hn) as (s0 & m0 & Ha' & Hm' & Hlen & _ & Hown & Hfr & Hd).
    rewrite Ha in Ha'. simplify_eq. destruct s0 as [|a o l c]; [cbn in *; lia|].
    split_and!; [done| |].
    + constructor; [done|]. eapply Forall_impl; [exact Hout|]. cbn.
      intros t [Ht ?]. split; [by apply Hfr|done].
    + cbn. apply NoDup_cons. split; [|done]. intros (t & Ht & Hta)%list_elem_of_omap.
      rewrite Forall_forall in Hout. destruct (Hout _ Ht). by eapply (Hd t).
  - rewrite Forall_app, Forall_cons in Hout. destruct Hout as (H1 & [Hs Hsn] & H2).
    destruct (Free_run m s Hm Hs) as (m0 & Hf' & Hm' & Hfr). rewrite Hf in Hf'. simplify_eq.
    destruct s as [|a o l c]; [done|]. rewrite omap_app in Hnd. cbn in Hnd.
    apply NoDup_app in Hnd as (Hn1 & Hn12 & [Hna Hn2]%NoDup_cons).
    split_and!; [done| |].
    + rewrite Forall_forall in H1, H2. apply Forall_app.
      split; apply Forall_forall; intros t Ht.
      * destruct (H1 t Ht). split; [|done]. apply Hfr; [|done].
        intros Heq. apply (Hn12 a); [by eapply sarr_elem|by left].
      * destruct (H2 t Ht). split; [|done]. apply Hfr; [|done].
        intros Heq. apply Hna. by eapply sarr_elem.
    + rewrite omap_app. apply NoDup_app. split_and!; [done| |done]. intros b Hb Hb'. apply (Hn12 b Hb). by right.
  - rewrite Forall_forall in Hout. destruct (Hout _ Hs) as [[Hok ?] ?].
    destruct (write_run m s bs) as (Hm' & Ho & _); [done..|].
    split_and!; [done| |done]. apply Forall_forall. intros t Ht. destruct (Hout _ Ht). auto.
Qed.

Lemma client_reach_ok cs st : rtc client_step (mem_init cs, []) st → client_ok st.
Proof.
  assert (client_ok (mem_init cs, [])) as H0.
  { split_and!; [apply mem_init_ok|constructor..]. }
  intros Hr. remember (mem_init cs, []) as st0 eqn:E. clear E.
  induction Hr; [done|]. by eauto using client_step_ok.
Qed.

(** The size of the buffers of the least class that holds [n] bytes. *)
Lemma pool_sizes_sorted : StronglySorted Z.le pool_sizes.
Proof.
  apply Sorted_StronglySorted; [exact Z.le_trans|].
  refine (bool_decide_unpack _ _). vm_compute. exact I.
Qed.

Lemma sorted_first (l : list Z) i j x y :
  StronglySorted Z.le l → l !! i = Some x → l !! j = Some y → (i ≤ j)%nat → x ≤ y.
Proof.
  intros Hs. revert i j. induction Hs as [|a l Hs IH Ha]; intros [|i] [|j] Hi Hj Hij; simplify_eq/=;
    try lia; [|by eapply (IH i j); eauto; lia].
  rewrite Forall_lookup in Ha. by eapply Ha.
Qed.

Lemma find_pool_least n ps i pi z :
  sz <$> ps = pool_sizes → find_pool n ps = Some (i, pi) →
  z ∈ pool_sizes → n ≤ z → sz pi ≤ z.
Proof.
  intros Hs (Hi & Hn & Hlt)%list_find_Some (j & Hj)%list_elem_of_lookup Hz.
  destruct (decide (j < i)%nat).
  - rewrite <- Hs, list_lookup_fmap in Hj. destruct (ps !! j) as [pj|] eqn:E; simplify_eq/=.
    exfalso. by eapply Hlt.
  - eapply (sorted_first pool_sizes i j); [apply pool_sizes_sorted| |done|lia].
    by rewrite <- Hs, list_lookup_fmap, Hi.
Qed.

Definition least_class (n c : Z) : Prop :=
  (c ∈ pool_sizes ∧ n ≤ c ∧ ∀ z, z ∈ pool_sizes → n ≤ z → c ≤ z) ∨
  (c = n ∧ ∀ z, z ∈ pool_sizes → z < n).

Lemma Alloc_cap m n s m' :
  mem_ok m → 0 < n → Alloc n m = Ret (s, m') →
  least_class n (scap s) ∧ pools m' !! dead_pool = pools m !! dead_pool.
Proof.
  intros Hm Hn. unfold Alloc. rewrite bool_decide_eq_false_2 by lia.
  unfold gets, mbind, M_bind. pose proof (mo_sizes _ Hm) as Hs.
  destruct (find_pool n (pools m)) as [[i pi]|] eqn:Ef.
  - assert (i ≠ dead_pool) as Hne by (by eapply find_pool_live).
    pose proof Ef as (Hi & Hsz & _)%list_find_Some.
    destruct (pool_Get_spec m i pi) as (s0 & m0 & HG & _ & _ & Hcap & _); [done..|].
    rewrite HG. destruct s0 as [|a o l c]; [by cbn in *; rewrite reslice_None by (cbn; lia)|].
    cbn in Hcap. rewrite reslice_Some by (cbn; lia). intros [= <- <-]. cbn.
    split.
    + rewrite Z.sub_0_r, Hcap. left. split_and!; [|done|].
      * rewrite <- Hs. apply list_elem_of_fmap. exists pi. split; [done|]. by eapply list_elem_of_lookup_2.
      * intros z Hz Hnz. by eapply find_pool_least.
    + unfold pool_Get in HG. destruct (next_choice _), (_ ≫= _) as [[]|];
        simplify_eq/=; [by rewrite list_lookup_insert_ne|done].
  - cbn. intros [= <- <-]. split; [|done]. right. split; [done|].
    intros z Hz. rewrite <- Hs in Hz. apply list_elem_of_fmap in Hz as (pi & -> & Hpi).
    apply list_find_None in Ef. rewrite Forall_forall in Ef. specialize (Ef _ Hpi). cbn in Ef. lia.
Qed.

(** A buffer that does not come from a pool is zeroed. *)
Lemma Alloc_zero m n s m' :
  mem_ok m → 0 < n → choices m = [] → Alloc n m = Ret (s, m') → Forall (eq 0) (hread (hp m') s).
Proof.
  intros Hm Hn Hc. unfold Alloc. rewrite bool_decide_eq_false_2 by lia.
  unfold gets, mbind, M_bind. destruct (find_pool n (pools m)) as [[i pi]|] eqn:Ef.
  - unfold pool_Get. rewrite Hc. cbn. apply list_find_Some in Ef as (_ & Hn' & _).
    rewrite reslice_Some by (cbn; lia). intros [= <- <-]. cbn.
    rewrite lookup_insert_eq. cbn. by apply Forall_take, Forall_drop, Forall_replicate.
  - cbn. intros [= <- <-]. cbn. rewrite lookup_insert_eq. cbn.
    by apply Forall_take, Forall_drop, Forall_replicate.
Qed.

(** C39: in every state clients of the pools can reach, [Alloc n] returns (it neither
    panics nor fails) a slice of exactly [n] bytes whose capacity is that of the least
    size class holding [n] bytes, or exactly [n] when no class is large enough. *)
Theorem alloc_least_class cs m out n :
  rtc client_step (mem_init cs, []) (m, out) → 0 < n →
  ∃ s m', Alloc n m = Ret (s, m') ∧ slen s = n ∧ least_class n (scap s).
Proof.
  intros (Hm & _ & _)%client_reach_ok Hn.
  destruct (Alloc_run m n Hm Hn) as (s & m' & Ha & _ & Hl & _).
  exists s, m'. split_and!; [done..|]. by eapply Alloc_cap.
Qed.


(** Class 13 is dead storage: [Free] of a 16 KiB buffer files it in the two pools of that
    size, and no [Alloc] ever takes anything out of the second one. *)
Theorem dead_pool_retains m n s m' t :
  mem_ok m → 0 < n → Alloc n m = Ret (s, m') → scap t = 16384 →
  pools m' !! dead_pool = pools m !! dead_pool ∧
  ∃ m'' p12 p13, Free t m' = Ret ((), m'') ∧
    pools m' !! 12%nat = Some (PoolInfo 16384 p12) ∧
    pools m' !! dead_pool = Some (PoolInfo 16384 p13) ∧
    pools m'' !! 12%nat = Some (PoolInfo 16384 (t :: p12)) ∧
    pools m'' !! dead_pool = Some (PoolInfo 16384 (t :: p13)).
Proof.
  intros Hm Hn Ha Ht. pose proof (Alloc_cap _ _ _ _ Hm Hn Ha) as [_ Hd].
  destruct (Alloc_run m n Hm Hn) as (s0 & m0 & Ha' & Hm' & _). rewrite Ha in Ha'. simplify_eq.
  split; [done|]. pose proof (mo_sizes _ Hm') as Hs.
  assert (∀ i, pool_sizes !! i = Some 16384 → ∃ q, pools m0 !! i = Some (PoolInfo 16384 q)) as Hq.
  { intros i Hi. rewrite <- Hs, list_lookup_fmap in Hi.
    destruct (pools m0 !! i) as [[z q]|] eqn:E; simplify_eq/=. eauto. }
  destruct (Hq 12%nat) as [p12 H12]; [done|]. destruct (Hq dead_pool) as [p13 H13]; [done|].
  unfold Free. rewrite bool_decide_eq_false_2 by lia. eexists _, p12, p13.
  split; [done|]. split_and!; [done..| |]; cbn [pools];
    rewrite list_lookup_fmap, ?H12, ?H13; cbn; unfold pool_Put; cbn;
    by rewrite bool_decide_eq_true_2.
Qed.

(** ** Witnesses *)

Lemma alloc_least_class_witness :
  ∃ s m', Alloc 100 (mem_init []) = Ret (s, m') ∧ slen s = 100 ∧ least_class 100 (scap s).
Proof. apply (alloc_least_class [] (mem_init []) [] 100); [apply rtc_refl|lia]. Defined.

(** Allocate, free, allocate again (the pool recycles the freed array), allocate. *)
Definition demo_alloc (n : Z) (st : mem * list slice) : mem * list slice :=
  match Alloc n st.1 with Ret (s, m') => (m', s :: st.2) | Panics _ => st end.
Definition demo_free (st : mem * list slice) : mem * list slice :=
  match st.2 with
  | s :: out => match Free s st.1 with Ret (_, m') => (m', out) | Panics _ => st end
  | [] => st
  end.
Definition demo0 : mem * list slice := (mem_init [None; Some 0%nat; None], []).
Definition demo : mem * list slice :=
  demo_alloc 12 (demo_alloc 10 (demo_free (demo_alloc 10 demo0))).

Lemma demo_reach : rtc client_step demo0 demo.
Proof.
  eapply (rtc_l _ _ (demo_alloc 10 demo0));
    [apply (client_alloc _ _ 10); [lia|vm_compute; reflexivity]|].
  eapply (rtc_l _ _ (demo_free (demo_alloc 10 demo0)));
    [eapply (client_free _ [] _ []); vm_compute; reflexivity|].
  eapply (rtc_l _ _ (demo_alloc 10 (demo_free (demo_alloc 10 demo0))));
    [apply (client_alloc _ _ 10); [lia|vm_compute; reflexivity]|].
  eapply (rtc_l _ _ demo); [apply (client_alloc _ _ 12); [lia|vm_compute; reflexivity]|].
  apply rtc_refl.
Qed.


Lemma dead_pool_retains_witness :
  ∃ m'' p12 p13,
    pools m'' !! 12%nat = Some (PoolInfo 16384 (Slice 7 0 16384 16384 :: p12)) ∧
    pools m'' !! dead_pool = Some (PoolInfo 16384 (Slice 7 0 16384 16384 :: p13)).
Proof.
  destruct (dead_pool_retains (mem_init []) 4 (Slice 0 0 4 4)
    (Mem (snd (halloc 4 heap_empty)) init_pools []) (Slice 7 0 16384 16384))
    as (_ & m'' & p12 & p13 & _ & _ & _ & H1 & H2);
    [apply mem_init_ok|lia|vm_compute; reflexivity|reflexivity|].
  exists m'', p12, p13. exact (conj H1 H2).
Defined.
