(* ===== verification/Message.v ===== *)
(** message/message.go: the message record, its wire format and its constructors.

    A message owns one buffer of the pools; [Source], [Destination] and [Content] are
    windows of that buffer, so [Encode] only has to write the 8 bytes of [Meta] in
    front of them.  Constructors run in [M world]: they take the message record from
    [msgPool], the buffer from bytespool, and can panic on a bad slice bound.  Byte
    strings that belong to a caller or to a transport (a received packet, a path, a
    content) are passed by value. *)
From S2P Require Import Prelude Errs GoHeap GoIO Bytespool.
From stdpp Require Import base tactics numbers list gmap.
From Stdlib Require Import ZArith Lia.
Open Scope Z_scope.

(** ** Data *)

Record Meta := mkMeta { Flags : Z; TTL : Z; Hops : Z; Distance : Z; Length : Z }.

Record Message := mkMessage {
  buf : slice; meta : Meta; Source : slice; Destination : slice; Content : slice }.

#[global] Instance Meta_eq_dec : EqDecision Meta.
Proof. solve_decision. Defined.

Definition DefaultMsgTTL : Z := 16.
Definition MetaSize : Z := 8.
Definition emptyMeta : Meta := mkMeta 0 DefaultMsgTTL 0 0 0.
Definition zeroMessage : Message := mkMessage NilSlice (mkMeta 0 0 0 0 0) NilSlice NilSlice NilSlice.

Definition sendTypeMask : Z := 3.
Definition flagsMask : Z := Z.lxor 255 sendTypeMask.
Definition SendTypeToOne : Z := Z.land 0 sendTypeMask.
Definition SendTypeToAll : Z := Z.land 1 sendTypeMask.
Definition SendTypeToDest : Z := Z.land 2 sendTypeMask.

Definition MsgFlagInternal : Z := Z.shiftl 1 (0 + 2).
Definition MsgFlagNoSource : Z := Z.shiftl 1 (1 + 2).
Definition MsgFlagRaw : Z := Z.shiftl 1 (2 + 2).
Definition MsgFlagControl : Z := Z.shiftl 1 (3 + 2).

Inductive FreeLevel := FreeLevelAll | FreeLevelMsg | FreeLevelNone.

(** ** Flags of [Meta] *)

Definition SendType (m : Meta) : Z := Z.land (Flags m) sendTypeMask.
Definition HasFlags (m : Meta) (flags : Z) : bool := Z.land (Flags m) flags =? flags.
Definition HasAnyFlags (m : Meta) : bool := negb (Z.land (Flags m) flagsMask =? 0).
Definition ClearFlags (m : Meta) (flags : Z) : Z := Z.land (Flags m) (Z.lxor flags 255).

(** ** State *)

Record world := World { wmem : mem; msgPool : list Message }.

Definition lift_mem {A} (c : M mem A) : M world A := λ w,
  match c (wmem w) with
  | Ret (a, m') => Ret (a, World m' (msgPool w))
  | Panics q => Panics q
  end.

Definition on_heap (f : heap → heap) : M world unit := λ w,
  Ret ((), World (Mem (f (hp (wmem w))) (pools (wmem w)) (choices (wmem w))) (msgPool w)).

Definition on_heap_opt (f : heap → option heap) : M world unit := λ w,
  match f (hp (wmem w)) with
  | Some h => Ret ((), World (Mem h (pools (wmem w)) (choices (wmem w))) (msgPool w))
  | None => Panics PanicBounds
  end.

Definition or_panic {S A} (o : option A) : M S A :=
  match o with Some a => mret a | None => gopanic PanicBounds end.

(** [s[lo:hi:max]] and [b[lo:]] with Go's bounds check. *)
Definition sub (s : slice) (lo hi mx : Z) : M world slice := or_panic (reslice s lo hi mx).
Definition from_index {S} (b : list Z) (lo : Z) : M S (list Z) :=
  or_panic (if bool_decide (0 ≤ lo ≤ zlen b) then Some (zdrop lo b) else None).

(** [msgPool.Get] *)
Definition msgPool_Get : M world Message := λ w,
  let '(c, cs) := next_choice (choices (wmem w)) in
  let m' := Mem (hp (wmem w)) (pools (wmem w)) cs in
  match c ≫= λ k, (λ x, (k, x)) <$> msgPool w !! k with
  | Some (k, x) => Ret (x, World m' (delete k (msgPool w)))
  | None => Ret (zeroMessage, World m' (msgPool w))
  end.

(** [(msg).Free]: the record goes back to [msgPool] with every field reset. *)
Definition Message_Free (msg : Message) : M world unit :=
  modify (λ w, World (wmem w)
    (mkMessage NilSlice emptyMeta NilSlice NilSlice NilSlice :: msgPool w)).

Definition Message_FreeAll (msg : Message) : M world unit :=
  lift_mem (Free (buf msg)) ;; Message_Free msg.

Definition FreeByLevel (msg : Message) (level : FreeLevel) : M world unit :=
  match level with
  | FreeLevelAll => Message_FreeAll msg
  | FreeLevelMsg => Message_Free msg
  | FreeLevelNone => mret ()
  end.

(** ** Meta codec *)

Definition encodeTo (m : Meta) (b : slice) : M world unit :=
  on_heap_opt (hset b 0 (Flags m)) ;;
  on_heap_opt (hset b 1 (TTL m)) ;;
  on_heap_opt (hset b 2 (Hops m)) ;;
  on_heap_opt (hset b 3 (Distance m)) ;;
  b4 ← sub b 4 (slen b) (scap b);
  on_heap_opt (put_be32 b4 (Length m)).

Definition decodeMetaFrom (a : list Z) : option Meta :=
  a0 ← zlookup a 0; a1 ← zlookup a 1; a2 ← zlookup a 2; a3 ← zlookup a 3;
  l ← be32_decode (zdrop 4 a);
  Some (mkMeta a0 a1 a2 a3 l).

(** ** MsgPath *)

Definition MsgPath_Length (path : list Z) : Z := u8 (zlen path `div` 4).
Definition MsgPath_CurID {S} (path : list Z) : M S Z := or_panic (be32_decode path).
Definition MsgPath_NextID {S} (path : list Z) : M S (Z * list Z) :=
  id ← or_panic (be32_decode path);
  source ← from_index path 4;
  mret (id, source).

(** ** Constructors *)

(** The sizes of the parts of a received message. *)
Definition recv_sourceSize (m : Meta) : Z := 4 * u8 (Hops m + 1).
Definition recv_destSize (m : Meta) : Z :=
  if SendType m =? SendTypeToDest then 4 * u8 (Distance m - 1) else 4 * Distance m.

Definition too_long (m : Meta) (maxLength : Z) : bool :=
  negb (maxLength =? 0) && (Length m >? maxLength).

Definition step_meta (m : Meta) : Meta :=
  mkMeta (Flags m) (u8 (TTL m - 1)) (u8 (Hops m + 1)) (Distance m) (Length m).
Definition dec_Distance (m : Meta) : Meta :=
  mkMeta (Flags m) (TTL m) (Hops m) (u8 (Distance m - 1)) (Length m).

Definition NewMessageFromBytes (pid : Z) (b : list Z) (maxLength : Z) : M world (err + Message) :=
  msg ← msgPool_Get;
  if zlen b <? MetaSize then Message_Free msg ;; mret (inl ErrBadMsg) else
  m ← or_panic (decodeMetaFrom b);
  b ← from_index b MetaSize;
  if too_long m maxLength then Message_Free msg ;; mret (inl ErrContentTooLong) else
  if negb (zlen b =? 4 * u8 (Hops m + Distance m) + Length m)
  then Message_Free msg ;; mret (inl ErrBadMsg) else
  let toDest := SendType m =? SendTypeToDest in
  let sourceSize := recv_sourceSize m in
  let destSize := recv_destSize m in
  let length := Length m in
  bf ← lift_mem (Alloc (MetaSize + sourceSize + destSize + length));
  (* Source *)
  let to := MetaSize + sourceSize in
  src ← sub bf MetaSize to to;
  tail ← sub src 4 sourceSize (scap src);
  on_heap (hcopy_bytes tail b) ;;
  b ← from_index b (sourceSize - 4);
  head ← sub src 0 4 (scap src);
  on_heap_opt (put_be32 head pid) ;;
  let m1 := step_meta m in
  (* Destination *)
  '(b, m2) ← (if toDest then b' ← from_index b 4; mret (b', dec_Distance m1) else mret (b, m1));
  '(dst, b, to) ← (if 0 <? destSize then
      dst ← sub bf to (to + destSize) (to + destSize);
      on_heap (hcopy_bytes dst b) ;;
      b' ← from_index b destSize;
      mret (dst, b', to + destSize)
    else mret (Destination msg, b, to));
  (* Content *)
  content ← sub bf to (to + length) (to + length);
  on_heap (hcopy_bytes content b) ;;
  mret (inr (mkMessage bf m2 src dst content)).

Definition NewMessageFromMsg (pid : Z) (srcMsg : Message) (maxLength : Z) : M world (err + Message) :=
  msg ← msgPool_Get;
  let m := meta srcMsg in
  if too_long m maxLength then Message_Free msg ;; mret (inl ErrContentTooLong) else
  let toDest := SendType m =? SendTypeToDest in
  let sourceSize := recv_sourceSize m in
  let destSize := recv_destSize m in
  let length := Length m in
  bf ← lift_mem (Alloc (MetaSize + sourceSize + destSize + length));
  (* Source *)
  let to := MetaSize + sourceSize in
  src ← sub bf MetaSize to to;
  tail ← sub src 4 sourceSize (scap src);
  on_heap (hcopy tail (Source srcMsg)) ;;
  head ← sub src 0 4 (scap src);
  on_heap_opt (put_be32 head pid) ;;
  let m1 := step_meta m in
  (* Destination *)
  let m2 := if toDest then dec_Distance m1 else m1 in
  '(dst, to) ← (if 0 <? destSize then
      dst ← sub bf to (to + destSize) (to + destSize);
      dst4 ← sub dst 4 (slen dst) (scap dst);
      on_heap (hcopy dst dst4) ;;
      mret (dst, to + destSize)
    else mret (Destination msg, to));
  (* Content *)
  content ← sub bf to (to + length) (to + length);
  on_heap (hcopy content (Content srcMsg)) ;;
  mret (inr (mkMessage bf m2 src dst content)).

Definition NewRawRecvMessage (pid : Z) (content : option (list Z)) : M world Message :=
  msg ← msgPool_Get;
  let bs := default [] content in
  let m := mkMeta (Z.lor MsgFlagRaw SendTypeToOne) 0 0 0 (u32 (zlen bs)) in
  let length := Length m in
  bf ← lift_mem (Alloc (MetaSize + 4 + length));
  let to := MetaSize + 4 in
  src ← sub bf MetaSize to to;
  on_heap_opt (put_be32 src pid) ;;
  let m1 := step_meta m in
  match content with
  | Some bs =>
      c ← sub bf to (to + length) (to + length);
      on_heap (hcopy_bytes c bs) ;;
      mret (mkMessage bf m1 src (Destination msg) c)
  | None => mret (mkMessage bf m1 src (Destination msg) (Content msg))
  end.

Definition NewSendMessage (flags sendType ttl : Z) (src dest content : list Z) : M world Message :=
  let ttl := if ttl =? 0 then DefaultMsgTTL else ttl in
  msg ← msgPool_Get;
  let m := mkMeta (Z.lor flags sendType) ttl (MsgPath_Length src) (MsgPath_Length dest)
                  (u32 (zlen content)) in
  let sourceSize := zlen src in
  let destSize := zlen dest in
  let length := zlen content in
  bf ← lift_mem (Alloc (MetaSize + sourceSize + destSize + length));
  let to := MetaSize in
  '(s, to) ← (if 0 <? sourceSize then
      s ← sub bf to (to + sourceSize) (to + sourceSize);
      on_heap (hcopy_bytes s src) ;;
      mret (s, to + sourceSize)
    else mret (Source msg, to));
  '(d, to) ← (if 0 <? destSize then
      d ← sub bf to (to + destSize) (to + destSize);
      on_heap (hcopy_bytes d dest) ;;
      mret (d, to + destSize)
    else mret (Destination msg, to));
  c ← sub bf to (to + length) (to + length);
  on_heap (hcopy_bytes c content) ;;
  mret (mkMessage bf m s d c).

Definition Encode (msg : Message) : M world slice :=
  encodeTo (meta msg) (buf msg) ;; mret (buf msg).

Definition Dup (msg : Message) : M world Message :=
  _ ← msgPool_Get;
  bf ← lift_mem (Alloc (slen (buf msg)));
  on_heap (hcopy bf (buf msg)) ;;
  let sourceSize := 4 * Hops (meta msg) in
  let destSize := 4 * Distance (meta msg) in
  let length := Length (meta msg) in
  let to1 := MetaSize + sourceSize in
  s ← sub bf MetaSize to1 to1;
  let to2 := to1 + destSize in
  d ← sub bf to1 to2 to2;
  let to3 := to2 + length in
  c ← sub bf to2 to3 to3;
  mret (mkMessage bf (meta msg) s d c).

Definition PipeID (msg : Message) : M world Z :=
  bs ← gets (λ w, hread (hp (wmem w)) (Source msg));
  MsgPath_CurID bs.

(** [NewMessageFromReader] reads the parts of the message from [r] straight into the
    buffer; its state is the world and the reader.  [metaBuf] is the caller's 8-byte
    scratch buffer. *)
Section reader.
Context {R : Type} `{!Reader R}.

Definition lift_world {A} (c : M world A) : M (world * R) A := λ '(w, r),
  match c w with
  | Ret (a, w') => Ret (a, (w', r))
  | Panics q => Panics q
  end.

Definition readFull (n : Z) : M (world * R) (list Z * option err) := λ '(w, r),
  let '(bs, e, r') := ReadFull n r in Ret ((bs, e), (w, r')).

Definition discardN (n : Z) : M (world * R) (option err) := λ '(w, r),
  let '(e, r') := CopyN n r in Ret (e, (w, r')).

Definition close_reader : M (world * R) unit := λ '(w, r), Ret ((), (w, Close r)).

(** [io.ReadFull(r, s)]: what was read is in [s], also when the read fails. *)
Definition readFull_into (s : slice) : M (world * R) (option err) :=
  '(bs, e) ← readFull (slen s);
  lift_world (on_heap (hcopy_bytes s bs)) ;;
  mret e.

Definition NewMessageFromReader (pid : Z) (metaBuf : Z) (maxLength : Z)
  : M (world * R) (err + Message) :=
  msg ← lift_world msgPool_Get;
  '(mb, e) ← readFull metaBuf;
  match e with
  | Some e => lift_world (Message_Free msg) ;; mret (inl e)
  | None =>
  m ← or_panic (decodeMetaFrom mb);
  if too_long m maxLength
  then lift_world (Message_Free msg) ;; close_reader ;; mret (inl ErrContentTooLong) else
  let toDest := SendType m =? SendTypeToDest in
  let sourceSize := recv_sourceSize m in
  let destSize := recv_destSize m in
  let length := Length m in
  bf ← lift_world (lift_mem (Alloc (MetaSize + sourceSize + destSize + length)));
  (* Source *)
  let to := MetaSize + sourceSize in
  src ← lift_world (sub bf MetaSize to to);
  tail ← lift_world (sub src 4 sourceSize (scap src));
  e ← readFull_into tail;
  match e with
  | Some e => lift_world (lift_mem (Free bf) ;; Message_Free msg) ;; mret (inl e)
  | None =>
  head ← lift_world (sub src 0 4 (scap src));
  lift_world (on_heap_opt (put_be32 head pid)) ;;
  let m1 := step_meta m in
  (* Destination *)
  '(e, m2) ← (if toDest then e ← discardN 4; mret (e, dec_Distance m1) else mret (None, m1));
  match e with
  | Some e => lift_world (lift_mem (Free bf) ;; Message_Free msg) ;; mret (inl e)
  | None =>
  '(e, dst, to) ← (if 0 <? destSize then
      dst ← lift_world (sub bf to (to + destSize) (to + destSize));
      e ← readFull_into dst;
      mret (e, dst, to + destSize)
    else mret (None, Destination msg, to));
  match e with
  | Some e => lift_world (lift_mem (Free bf) ;; Message_Free msg) ;; mret (inl e)
  | None =>
  (* Content *)
  content ← lift_world (sub bf to (to + length) (to + length));
  e ← readFull_into content;
  match e with
  | Some e => lift_world (lift_mem (Free bf) ;; Message_Free msg) ;; mret (inl e)
  | None => mret (inr (mkMessage bf m2 src dst content))
  end
  end
  end
  end
  end.
End reader.
