(* ===== verification/Packet.v ===== *)
(** The abstract view of a message: what message.go means by a packet, its bytes on the
    wire, and what one hop does to it.  MessageFacts.v proves that the buffer-level code
    of Message.v implements it. *)
From S2P Require Import Prelude Errs GoHeap Bytespool GoIO Message.
From stdpp Require Import base tactics numbers list gmap.
From Stdlib Require Import ZArith Lia.
Open Scope Z_scope.

Record packet := Packet { pmeta : Meta; psrc : list Z; pdst : list Z; pcontent : list Z }.

Record meta_ok (m : Meta) : Prop := {
  mk_flags : is_u8 (Flags m); mk_ttl : is_u8 (TTL m); mk_hops : is_u8 (Hops m);
  mk_dist : is_u8 (Distance m); mk_len : is_u32 (Length m) }.

(** A packet whose parts have the lengths its [Meta] announces. *)
Record packet_ok (k : packet) : Prop := {
  po_meta : meta_ok (pmeta k);
  po_src : zlen (psrc k) = 4 * Hops (pmeta k);
  po_dst : zlen (pdst k) = 4 * Distance (pmeta k);
  po_content : zlen (pcontent k) = Length (pmeta k) }.

Definition encode_meta (m : Meta) : list Z :=
  [Flags m; TTL m; Hops m; Distance m] ++ be32 (Length m).

Definition wire (k : packet) : list Z :=
  encode_meta (pmeta k) ++ psrc k ++ pdst k ++ pcontent k.

Definition to_dest (m : Meta) : bool := SendType m =? SendTypeToDest.

(** One hop: the receiving pipe's id is pushed on the source path, the time to live
    goes down, and a message to a destination pops the id it was sent through. *)
Definition hop (pid : Z) (k : packet) : packet :=
  let m := step_meta (pmeta k) in
  Packet (if to_dest (pmeta k) then dec_Distance m else m)
         (be32 pid ++ psrc k)
         (if to_dest (pmeta k) then zdrop 4 (pdst k) else pdst k)
         (pcontent k).

(** What a receiver can decode: the counters do not wrap, and a message to a destination
    has a destination. *)
Definition receivable (m : Meta) : Prop :=
  Hops m < 255 ∧ Hops m + Distance m < 256 ∧ (to_dest m = true → 1 ≤ Distance m).

#[global] Instance receivable_dec m : Decision (receivable m).
Proof. unfold receivable. apply _. Defined.

(** The content length is within the limit ([0] is no limit). *)
Definition fits (m : Meta) (maxLength : Z) : Prop := maxLength = 0 ∨ Length m ≤ maxLength.

Lemma too_long_fits m maxLength : too_long m maxLength = false ↔ fits m maxLength.
Proof.
  unfold too_long, fits. rewrite andb_false_iff, negb_false_iff, Z.eqb_eq.
  rewrite Z.gtb_ltb, Z.ltb_ge. lia.
Qed.

Lemma zlen_encode_meta m : zlen (encode_meta m) = MetaSize.
Proof. done. Qed.
#[export] Hint Rewrite zlen_encode_meta : zlist.

Lemma decode_encode_meta m l : meta_ok m → decodeMetaFrom (encode_meta m ++ l) = Some m.
Proof.
  intros Hm. unfold decodeMetaFrom, encode_meta. rewrite <- app_assoc.
  change (zdrop 4 _) with (be32 (Length m) ++ l).
  rewrite be32_roundtrip by apply Hm. by destruct m.
Qed.

Lemma decode_wire k l : packet_ok k → decodeMetaFrom (wire k ++ l) = Some (pmeta k).
Proof.
  intros Hk. unfold wire. rewrite <- !app_assoc. apply decode_encode_meta, Hk.
Qed.

Lemma zlen_wire k :
  packet_ok k →
  zlen (wire k) = MetaSize + 4 * (Hops (pmeta k) + Distance (pmeta k)) + Length (pmeta k).
Proof. intros []. unfold wire. zlia. Qed.

(** Sizes computed by a receiver, for what it can decode. *)
Lemma recv_sizes k :
  packet_ok k → receivable (pmeta k) →
  recv_sourceSize (pmeta k) = 4 + zlen (psrc k) ∧
  recv_destSize (pmeta k) = zlen (pdst (hop 0 k)) ∧
  4 * u8 (Hops (pmeta k) + Distance (pmeta k)) = zlen (psrc k) + zlen (pdst k) ∧
  (to_dest (pmeta k) = true → 4 ≤ zlen (pdst k)).
Proof.
  intros [[] Hs Hd Hc] (H1 & H2 & H3). unfold recv_sourceSize, recv_destSize, hop, is_u8 in *.
  cbn [pdst]. fold (to_dest (pmeta k)).
  rewrite (u8_small (Hops _ + 1)) by (unfold is_u8; lia).
  rewrite (u8_small (Hops _ + Distance _)) by (unfold is_u8; lia).
  split_and!; [lia| |lia|].
  - destruct (to_dest (pmeta k)) eqn:E; [|done]. specialize (H3 eq_refl).
    rewrite u8_small by (unfold is_u8; lia). rewrite zlen_drop by lia. lia.
  - intros E. specialize (H3 E). lia.
Qed.

(** A hop keeps a packet well formed. *)
Lemma hop_ok pid k : packet_ok k → receivable (pmeta k) → packet_ok (hop pid k).
Proof.
  intros Hk Hr. destruct (recv_sizes k Hk Hr) as (_ & Hd & _ & H4).
  destruct Hk as [[] Hs Hd' Hc], Hr as (H1 & H2 & H3). unfold is_u8 in *.
  unfold hop in *. cbn [pmeta psrc pdst pcontent] in *.
  destruct (to_dest (pmeta k)) eqn:E; cbn.
  all: split; cbn; rewrite ?zlen_app, ?zlen_be32, ?(u8_small (Hops _ + 1)) by (unfold is_u8; lia).
  all: try (split; cbn; try apply u8_bound; unfold is_u8; done || lia).
  all: try (done || lia).
  specialize (H3 eq_refl). specialize (H4 eq_refl).
  rewrite u8_small by (unfold is_u8; lia). rewrite zlen_drop by lia. lia.
Qed.
