(* ===== verification/MessageFacts.v ===== *)
(** The constructors and the codec of Message.v implement the packets of Packet.v.

    [built w w' msg k] is the contract of every constructor: run in [w], it leaves a
    message that shows the packet [k] in a buffer of its own, keeps the pools in order,
    and leaves every buffer that was owned before untouched. *)
From S2P Require Import Prelude Errs GoHeap GoIO Bytespool Message Packet.
From stdpp Require Import base tactics numbers list gmap.
From Stdlib Require Import ZArith Lia.
Open Scope Z_scope.

(** ** Well-formed worlds *)

Definition blank (x : Message) : Prop :=
  buf x = NilSlice ∧ Source x = NilSlice ∧ Destination x = NilSlice ∧ Content x = NilSlice.

Definition world_ok (w : world) : Prop := mem_ok (wmem w) ∧ Forall blank (msgPool w).

Definition world_init (cs : list (option nat)) : world := World (mem_init cs) [].

Definition warr (w : world) : gmap nat (list Z) := arrays (hp (wmem w)).
Definition wread (w : world) (s : slice) : list Z := hread (hp (wmem w)) s.
Definition wowned (w : world) (s : slice) : Prop := owned (wmem w) s.

(** Every slice owned in [w] is still owned in [w'] and shows the same bytes. *)
Definition wframe (w w' : world) : Prop := frame (λ _, True) (wmem w) (wmem w').

Definition set_arr (a : nat) (b : list Z) (w : world) : world :=
  World (Mem (Heap (<[a := b]> (warr w)) (next_arr (hp (wmem w))))
             (pools (wmem w)) (choices (wmem w))) (msgPool w).

Lemma world_init_ok cs : world_ok (world_init cs).
Proof. split; [apply mem_init_ok|constructor]. Qed.

Lemma set_arr_id a b w : warr w !! a = Some b → set_arr a b w = w.
Proof.
  intros H. unfold set_arr. rewrite insert_id by done.
  by destruct w as [[[]]].
Qed.
Lemma set_arr_set_arr a b b' w : set_arr a b (set_arr a b' w) = set_arr a b w.
Proof. unfold set_arr, warr. cbn. by rewrite insert_insert_eq. Qed.
Lemma warr_set_arr a b w : warr (set_arr a b w) !! a = Some b.
Proof. apply lookup_insert_eq. Qed.

Lemma wframe_refl w : wframe w w.
Proof. by intros t _ Ht. Qed.
Lemma wframe_trans w1 w2 w3 : wframe w1 w2 → wframe w2 w3 → wframe w1 w3.
Proof.
  intros H1 H2 t _ Ht. destruct (H1 t I Ht) as [Ht2 E2]. destruct (H2 t I Ht2) as [Ht3 E3].
  split; [done|]. by rewrite E3.
Qed.

(** Changing the contents of one array. *)
Lemma set_arr_world_ok a b b' w :
  world_ok w → warr w !! a = Some b → zlen b' = zlen b → world_ok (set_arr a b' w).
Proof.
  intros [Hm Hp] Ha Hl. split; [|done]. destruct Hm as [H1 H2 H3 H4].
  split; [|done| |done].
  - apply heap_ok_insert; [done|]. by exists b.
  - eapply Forall_impl; [exact H3|]. intros pi Hpi. eapply Forall_impl; [exact Hpi|].
    cbn. intros s (? & ? & ?). split_and!; [done..|]. by eapply slice_ok_insert.
Qed.

Lemma set_arr_owned a b b' w s :
  warr w !! a = Some b → zlen b' = zlen b → wowned w s → wowned (set_arr a b' w) s.
Proof. intros Ha Hl [Hs Hp]. split; [by eapply slice_ok_insert|done]. Qed.

Lemma set_arr_read a b w s : sarr s ≠ Some a → wread (set_arr a b w) s = wread w s.
Proof.
  destruct s as [|a' o l c]; [done|]. cbn. intros Hne.
  unfold wread. cbn. rewrite lookup_insert_ne; [done|]. by intros ->.
Qed.

(** ** Running the primitives *)

Lemma sub_run w a o l c lo hi mx :
  0 ≤ lo → lo ≤ hi → hi ≤ mx → mx ≤ c →
  sub (Slice a o l c) lo hi mx w = Ret (Slice a (o + lo) (hi - lo) (mx - lo), w).
Proof. intros. unfold sub. by rewrite reslice_Some. Qed.

Lemma from_index_run {S} (w : S) b lo :
  0 ≤ lo ≤ zlen b → from_index b lo w = Ret (zdrop lo b, w).
Proof. intros. unfold from_index. by rewrite bool_decide_eq_true_2. Qed.

Lemma from_index_panic {S} (w : S) b lo :
  zlen b < lo → from_index b lo w = Panics PanicBounds.
Proof. intros. unfold from_index. rewrite bool_decide_eq_false_2 by lia. done. Qed.

Lemma copy_run w a o l c X Y Q bs :
  warr w !! a = Some (X ++ Y ++ Q) → o = zlen X → l = zlen Y → l ≤ zlen bs →
  on_heap (hcopy_bytes (Slice a o l c) bs) w = Ret ((), set_arr a (X ++ ztake l bs ++ Q) w).
Proof.
  intros Ha -> -> Hl. unfold on_heap, hcopy_bytes. cbn [slen]. rewrite Z.min_l by lia.
  rewrite hwrite_seg with (X := X) (Y := Y) (Z := Q); [done|done|done|].
  apply zlen_take. zlia.
Qed.

Lemma put_run w a o c X Y Q v :
  warr w !! a = Some (X ++ Y ++ Q) → o = zlen X → zlen Y = 4 →
  on_heap_opt (put_be32 (Slice a o 4 c) v) w = Ret ((), set_arr a (X ++ be32 v ++ Q) w).
Proof.
  intros Ha -> HY. unfold on_heap_opt, put_be32. cbn [slen].
  rewrite bool_decide_eq_true_2 by lia.
  by rewrite hwrite_seg with (X := X) (Y := Y) (Z := Q).
Qed.

Lemma msgPool_Get_run w :
  world_ok w →
  ∃ x w', msgPool_Get w = Ret (x, w') ∧ world_ok w' ∧ blank x ∧
    hp (wmem w') = hp (wmem w) ∧ pools (wmem w') = pools (wmem w) ∧
    (choices (wmem w) = [] → choices (wmem w') = []).
Proof.
  intros [Hm Hp]. unfold msgPool_Get. destruct (next_choice _) as [c cs] eqn:Ech.
  assert (choices (wmem w) = [] → cs = []) as Hcs by (intros Hc; rewrite Hc in Ech; by simplify_eq/=).
  assert (mem_ok (Mem (hp (wmem w)) (pools (wmem w)) cs)) as Hm' by (destruct Hm; by split).
  destruct (c ≫= _) as [[k x]|] eqn:Ec; eexists _, _; (split; [done|]); split_and!; try done.
  - split; [done|]. by apply Forall_delete.
  - destruct c as [k'|]; [|done]. cbn in Ec. destruct (msgPool w !! k') eqn:E; simplify_eq/=.
    rewrite Forall_lookup in Hp. by eapply Hp.
Qed.

(** What [Alloc] leaves: a fresh window [Y] of the array [a]. *)
Record allocated (w w1 : world) (a : nat) (o n c : Z) (X Y Q : list Z) : Prop := {
  al_ok : world_ok w1;
  al_arr : warr w1 !! a = Some (X ++ Y ++ Q);
  al_off : zlen X = o; al_len : zlen Y = n; al_cap : n ≤ c;
  al_own : wowned w1 (Slice a o n c);
  al_frame : wframe w w1;
  al_excl : ∀ t, wowned w t → t ≠ NilSlice → sarr t ≠ Some a;
  al_zero : choices (wmem w) = [] → Forall (eq 0) Y }.

Lemma get_alloc_run w n :
  world_ok w → 0 < n →
  ∃ x w0 w1 a o c X Y Q,
    msgPool_Get w = Ret (x, w0) ∧ blank x ∧
    lift_mem (Alloc n) w0 = Ret (Slice a o n c, w1) ∧ allocated w w1 a o n c X Y Q.
Proof.
  intros Hw Hn. destruct (msgPool_Get_run w Hw) as (x & w0 & HG & Hw0 & Hx & Hh & Hpl & Hch).
  destruct (Alloc_run (wmem w0) n) as (s & m' & HA & Hm' & Hl & Hc & Ho & Hf & Hd); [apply Hw0|done|].
  destruct s as [|a o l c]; cbn in Hl; [lia|]. subst l.
  assert (∀ t, wowned w t ↔ owned (wmem w0) t) as Hiff.
  { intros t. unfold wowned, owned, pooled, live. by rewrite Hh, Hpl. }
  destruct (slice_ok_split _ _ _ _ _ (proj1 Ho)) as (X & Y & Q & Ha & HX & HY).
  exists x, w0, (World m' (msgPool w0)), a, o, c, X, Y, Q.
  split_and!; [done|done|unfold lift_mem; by rewrite HA|].
  split; try done.
  - split; [done|apply Hw0].
  - intros t _ Ht. destruct (Hf t I) as [? E]; [by apply Hiff|]. split; [done|].
    cbn [wmem]. by rewrite E, Hh.
  - intros t Ht Hnil. apply (Hd t); [by apply Hiff|done].
  - intros Hc0. rewrite <- (hread_seg (hp m') a o n c X Y Q Ha (eq_sym HX) (eq_sym HY)).
    apply (Alloc_zero (wmem w0) n); [apply Hw0|done|by apply Hch|done].
Qed.

(** ** Messages at rest *)

(** [x] is the window [off, off + len) of the array [a], or nil if it is empty. *)
Definition window (a : nat) (off len : Z) (x : slice) : Prop :=
  x = Slice a off len len ∨ (len = 0 ∧ x = NilSlice).

(** In [w] the message shows the packet [k]: its buffer is an 8-byte header and the
    parts of [k], and its three fields are the windows of the parts. *)
Definition msg_at (w : world) (msg : Message) (k : packet) : Prop :=
  meta msg = pmeta k ∧ wowned w (buf msg) ∧
  ∃ a o c X hdr Q, buf msg = Slice a o (MetaSize + zlen (psrc k) + zlen (pdst k) + zlen (pcontent k)) c ∧
    warr w !! a = Some (X ++ hdr ++ psrc k ++ pdst k ++ pcontent k ++ Q) ∧
    zlen X = o ∧ zlen hdr = MetaSize ∧
    window a (o + MetaSize) (zlen (psrc k)) (Source msg) ∧
    window a (o + MetaSize + zlen (psrc k)) (zlen (pdst k)) (Destination msg) ∧
    window a (o + MetaSize + zlen (psrc k) + zlen (pdst k)) (zlen (pcontent k)) (Content msg).

Record built (w w' : world) (msg : Message) (k : packet) : Prop := {
  bu_ok : world_ok w';
  bu_at : msg_at w' msg k;
  bu_frame : wframe w w';
  bu_excl : ∀ t, wowned w t → t ≠ NilSlice → sarr t ≠ sarr (buf msg) }.

Lemma window_read w a off x A B C :
  warr w !! a = Some (A ++ B ++ C) → off = zlen A → window a off (zlen B) x → wread w x = B.
Proof.
  intros Ha -> [->|[H0 ->]].
  - unfold wread. by eapply hread_seg.
  - symmetry. by apply zlen_0.
Qed.

Lemma built_intro w w1 a o n c X Y Q hdr s d ct m src dst content :
  allocated w w1 a o n c X Y Q →
  zlen hdr = MetaSize → n = MetaSize + zlen s + zlen d + zlen ct →
  window a (o + MetaSize) (zlen s) src →
  window a (o + MetaSize + zlen s) (zlen d) dst →
  window a (o + MetaSize + zlen s + zlen d) (zlen ct) content →
  built w (set_arr a (X ++ hdr ++ s ++ d ++ ct ++ Q) w1)
    (mkMessage (Slice a o n c) m src dst content) (Packet m s d ct).
Proof.
  intros [] Hh -> Hs Hd Hc.
  assert (zlen (X ++ hdr ++ s ++ d ++ ct ++ Q) = zlen (X ++ Y ++ Q)) as Hl by zlia.
  split.
  - by eapply set_arr_world_ok.
  - split_and!; [done|by eapply set_arr_owned|]. cbn.
    exists a, o, c, X, hdr, Q. split_and!; try done. by rewrite lookup_insert_eq.
  - intros t _ Ht. destruct (al_frame0 t I Ht) as [Ht1 E]. split; [by eapply set_arr_owned|].
    destruct (decide (t = NilSlice)) as [->|]; [done|].
    fold (wread (set_arr a (X ++ hdr ++ s ++ d ++ ct ++ Q) w1) t).
    rewrite set_arr_read; [done|]. by apply al_excl0.
  - intros t Ht Hn. by apply al_excl0.
Qed.

(** Reading the parts back. *)
Lemma msg_at_read w msg k :
  msg_at w msg k →
  meta msg = pmeta k ∧ wread w (Source msg) = psrc k ∧
  wread w (Destination msg) = pdst k ∧ wread w (Content msg) = pcontent k.
Proof.
  intros (Hm & _ & a & o & c & X & hdr & Q & _ & Ha & HX & Hh & Hs & Hd & Hc).
  split_and!; [done|..].
  - eapply (window_read w a (o + MetaSize) _ (X ++ hdr) (psrc k)); [by rewrite <- app_assoc|zlia|done].
  - eapply (window_read w a (o + MetaSize + zlen (psrc k)) _ (X ++ hdr ++ psrc k) (pdst k)); [by rewrite <- !app_assoc|zlia|done].
  - eapply (window_read w a (o + MetaSize + zlen (psrc k) + zlen (pdst k)) _
      (X ++ hdr ++ psrc k ++ pdst k) (pcontent k));
      [by rewrite <- !app_assoc|zlia|done].
Qed.

(** The window of a new buffer splits into header, pipe id, tail of the source path,
    destination and content. *)
Lemma allocated_parts w w1 a o n c X Y Q s d l :
  allocated w w1 a o n c X Y Q → n = MetaSize + (4 + s) + d + l → 0 ≤ s → 0 ≤ d → 0 ≤ l →
  ∃ Y0 Y1 Y2 Y3 Y4, Y = Y0 ++ Y1 ++ Y2 ++ Y3 ++ Y4 ∧
    zlen Y0 = MetaSize ∧ zlen Y1 = 4 ∧ zlen Y2 = s ∧ zlen Y3 = d ∧ zlen Y4 = l.
Proof.
  intros [] Hn Hs Hd Hl. unfold MetaSize in *.
  destruct (zsplit 8 Y) as (Y0 & r0 & -> & H0); [lia|].
  destruct (zsplit 4 r0) as (Y1 & r1 & -> & H1); [zlia|].
  destruct (zsplit s r1) as (Y2 & r2 & -> & H2); [zlia|].
  destruct (zsplit d r2) as (Y3 & Y4 & -> & H3); [zlia|].
  exists Y0, Y1, Y2, Y3, Y4. split_and!; try done. zlia.
Qed.

(** Writing one part of a buffer that is being filled. *)
Lemma fill_run w a b o l c A B C bs :
  b = A ++ B ++ C → o = zlen A → l = zlen B → l ≤ zlen bs →
  on_heap (hcopy_bytes (Slice a o l c) bs) (set_arr a b w)
    = Ret ((), set_arr a (A ++ ztake l bs ++ C) w).
Proof.
  intros -> Ho Hl Hb. erewrite copy_run by (try done; apply warr_set_arr).
  by rewrite set_arr_set_arr.
Qed.

Lemma fill_put w a b o c A B C v :
  b = A ++ B ++ C → o = zlen A → zlen B = 4 →
  on_heap_opt (put_be32 (Slice a o 4 c) v) (set_arr a b w)
    = Ret ((), set_arr a (A ++ be32 v ++ C) w).
Proof.
  intros -> Ho Hl. erewrite put_run by (try done; apply warr_set_arr).
  by rewrite set_arr_set_arr.
Qed.

Lemma M_bind_if_run {S A B} (t : bool) (m1 m2 : M S A) (f : A → M S B) s :
  ((if t then m1 else m2) ≫= f) s = if t then (m1 ≫= f) s else (m2 ≫= f) s.
Proof. by destruct t. Qed.

Ltac unfold_ret := unfold mret, M_ret.

(** Solve a length side condition of the steps above. *)
Ltac part_len := autorewrite with zlist in *; zlen_pose; unfold MetaSize in *; lia.
Ltac part_app := rewrite ?app_assoc; rewrite <- ?app_assoc; reflexivity.

Lemma hop_parts pid k :
  packet_ok k → receivable (pmeta k) →
  psrc (hop pid k) = be32 pid ++ psrc k ∧ pcontent (hop pid k) = pcontent k ∧
  (if to_dest (pmeta k) then zdrop 4 (pdst k) else pdst k) = pdst (hop pid k) ∧
  pmeta (hop pid k) = (if to_dest (pmeta k) then dec_Distance (step_meta (pmeta k)) else step_meta (pmeta k)) ∧
  zlen (pdst (hop pid k)) = recv_destSize (pmeta k).
Proof. intros Hk Hr. by destruct (recv_sizes k Hk Hr) as (_ & -> & _). Qed.

(** Windows up to arithmetic on their bounds. *)
Lemma window_eq a off len off' len' x :
  window a off len x → off = off' → len = len' → window a off' len' x.
Proof. by intros H -> ->. Qed.

(** Popping the id a message to a destination was sent through. *)
Lemma pop_dest_run {S} pid k (w : S) :
  packet_ok k → receivable (pmeta k) →
  (if to_dest (pmeta k)
   then b' ← from_index (pdst k ++ pcontent k) 4; mret (b', dec_Distance (step_meta (pmeta k)))
   else mret (pdst k ++ pcontent k, step_meta (pmeta k))) w
  = Ret ((pdst (hop pid k) ++ pcontent k, pmeta (hop pid k)), w).
Proof.
  intros Hk Hr. destruct (recv_sizes k Hk Hr) as (_ & _ & _ & H4).
  unfold hop. cbn [pdst pmeta]. destruct (to_dest (pmeta k)); [|done]. specialize (H4 eq_refl).
  erewrite M_bind_ret_run by (apply from_index_run; zlia).
  destruct (zsplit 4 (pdst k)) as (d1 & d2 & -> & Hd); [lia|].
  rewrite <- app_assoc, !zdrop_app_eq by lia. done.
Qed.

(** The optional part of a buffer: it is written when it is not empty. *)
Lemma part_run w1 a o n c b A B C ds pos bs rest x :
  b = A ++ B ++ C → zlen B = ds → o + pos = zlen A → zlen bs = ds → 0 ≤ pos → pos + ds ≤ c →
  x = NilSlice →
  ∃ dst, (if 0 <? ds then
      dst ← sub (Slice a o n c) pos (pos + ds) (pos + ds);
      on_heap (hcopy_bytes dst (bs ++ rest)) ;;
      b' ← from_index (bs ++ rest) ds;
      mret (dst, b', pos + ds)
    else mret (x, bs ++ rest, pos)) (set_arr a b w1)
    = Ret ((dst, rest, pos + ds), set_arr a (A ++ bs ++ C) w1) ∧ window a (o + pos) ds dst.
Proof.
  intros -> HB HA Hbs Hp Hc ->. destruct (Z.ltb_spec 0 ds).
  - eexists. split; [|left; reflexivity].
    erewrite M_bind_ret_run by (apply sub_run; lia).
    erewrite M_bind_ret_run by (apply (fill_run w1 a _ _ _ _ A B C); [done|lia|lia|zlia]).
    erewrite M_bind_ret_run by (apply from_index_run; zlia).
    rewrite ztake_app_eq, zdrop_app_eq by lia. unfold_ret. do 3 f_equal. f_equal; f_equal; lia.
  - assert (ds = 0) as -> by (pose proof (zlen_nonneg B); lia).
    apply zlen_0 in HB as ->, Hbs as ->. rewrite Z.add_0_r. exists NilSlice. split; [done|].
    by right.
Qed.

(** The size of the buffer a receiver allocates. *)
Abbreviation recv_size m := (MetaSize + recv_sourceSize m + recv_destSize m + Length m).

(** The state in which a receiver of [k] starts to fill its buffer. *)
Record receiving (w w1 : world) (k : packet) (a : nat) (o c : Z)
    (X Y0 Y1 Y2 Y3 Y4 Q : list Z) : Prop := {
  re_al : allocated w w1 a o (recv_size (pmeta k)) c X (Y0 ++ Y1 ++ Y2 ++ Y3 ++ Y4) Q;
  re_0 : zlen Y0 = MetaSize; re_1 : zlen Y1 = 4; re_2 : zlen Y2 = zlen (psrc k);
  re_3 : zlen Y3 = recv_destSize (pmeta k); re_4 : zlen Y4 = Length (pmeta k);
  re_off : zlen X = o; re_cap : recv_size (pmeta k) ≤ c;
  re_ss : recv_sourceSize (pmeta k) = 4 + zlen (psrc k) }.

Lemma recv_alloc k w :
  world_ok w → packet_ok k → receivable (pmeta k) →
  ∃ x w0 w1 a o c X Y0 Y1 Y2 Y3 Y4 Q,
    msgPool_Get w = Ret (x, w0) ∧ blank x ∧
    lift_mem (Alloc (recv_size (pmeta k))) w0 = Ret (Slice a o (recv_size (pmeta k)) c, w1) ∧
    receiving w w1 k a o c X Y0 Y1 Y2 Y3 Y4 Q.
Proof.
  intros Hw Hk Hr. destruct (recv_sizes k Hk Hr) as (Hss & Hds & _).
  destruct (hop_parts 0 k Hk Hr) as (_ & _ & _ & _ & Pl).
  pose proof (po_content k Hk). zlen_pose.
  destruct (get_alloc_run w (recv_size (pmeta k)) Hw)
    as (x & w0 & w1 & a & o & c & X & Y & Q & HG & Hx & HA & Hal); [unfold MetaSize; lia|].
  destruct (allocated_parts w w1 a o (recv_size (pmeta k)) c X Y Q
      (zlen (psrc k)) (recv_destSize (pmeta k)) (Length (pmeta k)))
    as (Y0 & Y1 & Y2 & Y3 & Y4 & -> & ? & ? & ? & ? & ?); [done|lia..|].
  exists x, w0, w1, a, o, c, X, Y0, Y1, Y2, Y3, Y4, Q. split_and!; [done..|].
  split; try done; apply Hal.
Qed.

(** The filled buffer shows the packet after the hop. *)
Lemma recv_built pid k w w1 a o c X Y0 Y1 Y2 Y3 Y4 Q src dst content :
  packet_ok k → receivable (pmeta k) → receiving w w1 k a o c X Y0 Y1 Y2 Y3 Y4 Q →
  window a (o + MetaSize) (4 + zlen (psrc k)) src →
  window a (o + (MetaSize + (4 + zlen (psrc k)))) (recv_destSize (pmeta k)) dst →
  window a (o + (MetaSize + (4 + zlen (psrc k)) + recv_destSize (pmeta k))) (Length (pmeta k)) content →
  built w (set_arr a (X ++ Y0 ++ be32 pid ++ psrc k ++ pdst (hop pid k) ++ pcontent k ++ Q) w1)
    (mkMessage (Slice a o (recv_size (pmeta k)) c) (pmeta (hop pid k)) src dst content) (hop pid k).
Proof.
  intros Hk Hr [Hal ? ? ? ? ? ? ? Hss] W1 W2 W3.
  destruct (hop_parts pid k Hk Hr) as (_ & _ & _ & _ & Pl). pose proof (po_content k Hk).
  replace (hop pid k) with (Packet (pmeta (hop pid k)) (be32 pid ++ psrc k) (pdst (hop pid k)) (pcontent k))
    at 3 by done.
  rewrite (app_assoc (be32 pid)).
  eapply built_intro; [done|done|part_len|eapply window_eq; [done|part_len..]..].
Qed.

Lemma FromBytes_run pid k maxL w :
  world_ok w → packet_ok k → receivable (pmeta k) → fits (pmeta k) maxL →
  ∃ msg w', NewMessageFromBytes pid (wire k) maxL w = Ret (inr msg, w') ∧
    built w w' msg (hop pid k).
Proof.
  intros Hw Hk Hr Hfit. pose proof (recv_sizes k Hk Hr) as (_ & _ & Hsum & _).
  destruct (hop_parts pid k Hk Hr) as (_ & _ & _ & _ & Pl). pose proof (po_content k Hk) as Hct.
  destruct (recv_alloc k w Hw Hk Hr)
    as (x & w0 & w1 & a & o & c & X & Y0 & Y1 & Y2 & Y3 & Y4 & Q & HG & Hx & HA & Hre).
  pose proof Hre as [[_ Harr _ _ _ _ _ _ _] L0 L1 L2 L3 L4 HX Hcap Hss].
  unfold NewMessageFromBytes. go_step HG.
  rewrite (proj2 (Z.ltb_ge (zlen (wire k)) MetaSize)) by (unfold wire; part_len).
  rewrite <- (app_nil_r (wire k)), decode_wire, app_nil_r by done.
  erewrite M_bind_ret_run by done.
  erewrite M_bind_ret_run by (apply from_index_run; unfold wire; part_len).
  unfold wire. rewrite zdrop_app_eq by done. apply too_long_fits in Hfit. rewrite Hfit.
  rewrite (proj2 (Z.eqb_eq (zlen _) _)) by part_len. cbn [negb].
  fold (to_dest (pmeta k)). go_step HA. rewrite Hss. rewrite <- (set_arr_id _ _ _ Harr).
  erewrite M_bind_ret_run by (apply sub_run; part_len).
  erewrite M_bind_ret_run by (apply sub_run; cbn [scap]; part_len).
  erewrite M_bind_ret_run.
  2: { apply (fill_run w1 a _ _ _ _ (X ++ Y0 ++ Y1) Y2 (Y3 ++ Y4 ++ Q)); [part_app|part_len..]. }
  rewrite (ztake_app_eq _ (psrc k)) by lia.
  erewrite M_bind_ret_run by (apply from_index_run; part_len).
  rewrite (zdrop_app_eq _ (psrc k)) by lia.
  erewrite M_bind_ret_run by (apply sub_run; cbn [scap]; part_len).
  erewrite M_bind_ret_run.
  2: { apply (fill_put w1 a _ _ _ (X ++ Y0) Y1 (psrc k ++ Y3 ++ Y4 ++ Q)); [part_app|part_len..]. }
  erewrite M_bind_ret_run by (by apply (pop_dest_run pid)). rewrite <- !app_assoc.
  edestruct part_run with (w1 := w1) (a := a) (o := o) (B := Y3) (C := Y4 ++ Q)
    (A := X ++ Y0 ++ be32 pid ++ psrc k) as (dst & HD & HW);
    [|exact L3|..|erewrite M_bind_ret_run by exact HD; cbv beta iota];
    [part_app|part_len|done|part_len|part_len|apply Hx|].
  erewrite M_bind_ret_run by (apply sub_run; part_len).
  erewrite M_bind_ret_run.
  2: { apply (fill_run w1 a _ _ _ _ (X ++ Y0 ++ be32 pid ++ psrc k ++ pdst (hop pid k)) Y4 Q);
       [part_app|part_len..]. }
  rewrite <- !app_assoc, (ztake_all_eq _ (pcontent k)) by part_len. rewrite <- Hss.
  eexists _, _. split; [reflexivity|].
  eapply recv_built; [done..| | |]; [left; f_equal; lia|done|left; f_equal; lia].
Qed.

(** ** Reading a message from a stream *)
Section from_reader.
Context {R : Type} `{!Reader R} `{!ReaderOk R}.
Implicit Types (r : R).

Lemma lift_world_run {A} (c : M world A) w r x w' :
  c w = Ret (x, w') → lift_world c (w, r) = Ret (x, (w', r)).
Proof. intros H. unfold lift_world. by rewrite H. Qed.

Lemma readFull_run w r bs rest n :
  pending r = bs ++ rest → n = zlen bs →
  ∃ r', readFull n (w, r) = Ret ((bs, None), (w, r')) ∧ pending r' = rest.
Proof.
  intros Hp ->. destruct (ReadFull_enough (zlen bs) r) as (r' & Hr & Hp'); [rewrite Hp; zlia|].
  rewrite Hp in Hr, Hp'. rewrite ztake_app in Hr. rewrite zdrop_app in Hp'.
  exists r'. unfold readFull. by rewrite Hr.
Qed.

Lemma discardN_run w r bs rest n :
  pending r = bs ++ rest → n = zlen bs →
  ∃ r', discardN n (w, r) = Ret (None, (w, r')) ∧ pending r' = rest.
Proof.
  intros Hp ->. destruct (CopyN_enough (zlen bs) r) as (r' & Hr & Hp'); [rewrite Hp; zlia|].
  rewrite Hp, zdrop_app in Hp'. exists r'. unfold discardN. by rewrite Hr.
Qed.

Lemma readFull_into_run w a b o l c A B C r bs rest :
  b = A ++ B ++ C → o = zlen A → l = zlen B → zlen bs = l → pending r = bs ++ rest →
  ∃ r', readFull_into (Slice a o l c) (set_arr a b w, r)
          = Ret (None, (set_arr a (A ++ bs ++ C) w, r')) ∧ pending r' = rest.
Proof.
  intros Hb Ho Hl Hbs Hp. unfold readFull_into. cbn [slen].
  destruct (readFull_run (set_arr a b w) r bs rest l Hp) as (r' & Hr & Hp'); [done|].
  exists r'. split; [|done]. go_step Hr. cbv beta iota.
  erewrite M_bind_ret_run by (apply lift_world_run, (fill_run w a b o l c A B C); [done..|lia]).
  rewrite (ztake_all_eq l bs) by done. done.
Qed.

(** Reading the optional destination. *)
Lemma read_part_run w1 a o n c b A B C ds pos bs rest x r :
  b = A ++ B ++ C → zlen B = ds → o + pos = zlen A → zlen bs = ds → 0 ≤ pos → pos + ds ≤ c →
  x = NilSlice → pending r = bs ++ rest →
  ∃ dst r', (if 0 <? ds then
      dst ← lift_world (sub (Slice a o n c) pos (pos + ds) (pos + ds));
      e ← readFull_into dst;
      mret (e, dst, pos + ds)
    else mret (None, x, pos)) (set_arr a b w1, r)
    = Ret ((None, dst, pos + ds), (set_arr a (A ++ bs ++ C) w1, r')) ∧
    pending r' = rest ∧ window a (o + pos) ds dst.
Proof.
  intros Hb HB HA Hbs Hp Hc -> Hr. destruct (Z.ltb_spec 0 ds).
  - destruct (readFull_into_run w1 a b (o + pos) ds ds A B C r bs rest) as (r' & Hf & Hr'); [done..|].
    exists (Slice a (o + pos) ds ds), r'. split_and!; [|done|by left].
    erewrite M_bind_ret_run by (apply lift_world_run, sub_run; lia).
    replace (pos + ds - pos) with ds by lia. by go_step Hf.
  - assert (ds = 0) as -> by (pose proof (zlen_nonneg B); lia).
    apply zlen_0 in HB as ->, Hbs as ->. rewrite Hb, Z.add_0_r. exists NilSlice, r.
    split_and!; [done|done|by right].
Qed.

(** Skipping the id a message to a destination was sent through. *)
Lemma skip_dest_run pid k w r rest :
  packet_ok k → receivable (pmeta k) → pending r = pdst k ++ rest →
  ∃ r', (if to_dest (pmeta k)
         then e ← discardN 4; mret (e, dec_Distance (step_meta (pmeta k)))
         else mret (None, step_meta (pmeta k))) (w, r)
        = Ret ((None, pmeta (hop pid k)), (w, r')) ∧ pending r' = pdst (hop pid k) ++ rest.
Proof.
  intros Hk Hr Hp. destruct (recv_sizes k Hk Hr) as (_ & _ & _ & H4).
  unfold hop. cbn [pdst pmeta]. destruct (to_dest (pmeta k)); [|by exists r].
  specialize (H4 eq_refl). destruct (zsplit 4 (pdst k)) as (d1 & d2 & Hd & Hl); [lia|].
  rewrite Hd in Hp |- *. rewrite <- app_assoc in Hp.
  destruct (discardN_run w r d1 (d2 ++ rest) 4) as (r' & Hr' & Hp'); [done|done|].
  exists r'. split; [by go_step Hr'|]. by rewrite zdrop_app_eq.
Qed.

Lemma FromReader_run pid k maxL w r rest :
  world_ok w → packet_ok k → receivable (pmeta k) → fits (pmeta k) maxL →
  pending r = wire k ++ rest →
  ∃ msg w' r', NewMessageFromReader pid MetaSize maxL (w, r) = Ret (inr msg, (w', r')) ∧
    built w w' msg (hop pid k) ∧ pending r' = rest.
Proof.
  intros Hw Hk Hr Hfit Hp.
  destruct (hop_parts pid k Hk Hr) as (_ & _ & _ & _ & Pl). pose proof (po_content k Hk) as Hct.
  destruct (recv_alloc k w Hw Hk Hr)
    as (x & w0 & w1 & a & o & c & X & Y0 & Y1 & Y2 & Y3 & Y4 & Q & HG & Hx & HA & Hre).
  pose proof Hre as [[_ Harr _ _ _ _ _ _ _] L0 L1 L2 L3 L4 HX Hcap Hss].
  unfold wire in Hp. rewrite <- !app_assoc in Hp.
  unfold NewMessageFromReader. erewrite M_bind_ret_run by (apply lift_world_run, HG).
  edestruct (readFull_run w0 r) as (r1 & Hr1 & Hp1); [exact Hp|symmetry; apply zlen_encode_meta|].
  go_step Hr1. cbv beta iota.
  rewrite <- (app_nil_r (encode_meta _)), decode_encode_meta by apply Hk.
  erewrite M_bind_ret_run by done. apply too_long_fits in Hfit. rewrite Hfit.
  fold (to_dest (pmeta k)). erewrite M_bind_ret_run by (apply lift_world_run, HA).
  rewrite Hss. rewrite <- (set_arr_id _ _ _ Harr).
  erewrite M_bind_ret_run by (apply lift_world_run, sub_run; part_len).
  erewrite M_bind_ret_run by (apply lift_world_run, sub_run; cbn [scap]; part_len).
  edestruct readFull_into_run with (w := w1) (a := a) (r := r1) (B := Y2) (A := X ++ Y0 ++ Y1)
    (C := Y3 ++ Y4 ++ Q) as (r2 & Hr2 & Hp2); [| | | |exact Hp1|go_step Hr2; cbv beta iota];
    [part_app|part_len..|].
  erewrite M_bind_ret_run by (apply lift_world_run, sub_run; cbn [scap]; part_len).
  erewrite M_bind_ret_run.
  2: { apply lift_world_run, (fill_put w1 a _ _ _ (X ++ Y0) Y1 (psrc k ++ Y3 ++ Y4 ++ Q));
       [part_app|part_len..]. }
  edestruct (skip_dest_run pid k) as (r3 & Hr3 & Hp3); [done..|exact Hp2|].
  go_step Hr3. cbv beta iota. rewrite <- !app_assoc.
  edestruct read_part_run with (w1 := w1) (a := a) (o := o) (B := Y3) (C := Y4 ++ Q) (r := r3)
    (A := X ++ Y0 ++ be32 pid ++ psrc k) as (dst & r4 & Hr4 & Hp4 & HW);
    [|exact L3|..|exact Hp3|go_step Hr4; cbv beta iota];
    [part_app|part_len|done|part_len|part_len|apply Hx|].
  erewrite M_bind_ret_run by (apply lift_world_run, sub_run; part_len).
  edestruct readFull_into_run with (w := w1) (a := a) (r := r4) (B := Y4) (C := Q)
    (A := X ++ Y0 ++ be32 pid ++ psrc k ++ pdst (hop pid k)) as (r5 & Hr5 & Hp5);
    [| | | |exact Hp4|go_step Hr5; cbv beta iota]; [part_app|part_len..|].
  rewrite <- !app_assoc. rewrite <- Hss. eexists _, _, _. split; [reflexivity|]. split; [|done].
  eapply recv_built; [done..| | |]; [left; f_equal; lia|done|left; f_equal; lia].
Qed.
End from_reader.

(** ** Messages as sources of copies *)

Lemma msg_at_windows w msg k a :
  msg_at w msg k → sarr (buf msg) ≠ Some a →
  (slen (Source msg) = zlen (psrc k) ∧ sarr (Source msg) ≠ Some a) ∧
  (slen (Content msg) = zlen (pcontent k) ∧ sarr (Content msg) ≠ Some a) ∧
  slen (buf msg) = MetaSize + zlen (psrc k) + zlen (pdst k) + zlen (pcontent k).
Proof.
  intros (_ & _ & a' & o & c & X & hdr & Q & -> & _ & _ & _ & Hs & _ & Hc) Ha.
  destruct Hs as [->|[Es ->]], Hc as [->|[Ec ->]]; cbn in *; repeat split; done || lia.
Qed.

(** What a message shows depends on the bytes of its buffer only. *)
Lemma msg_at_reads w w' msg k :
  msg_at w msg k → wowned w' (buf msg) → wread w' (buf msg) = wread w (buf msg) → msg_at w' msg k.
Proof.
  intros (Hm & Ho & a & o & c & X & hdr & Q & Hb & Ha & HX & Hh & Hs & Hd & Hc) Ho' Hrd.
  split_and!; [done..|]. unfold wowned, wread, warr in *.
  rewrite Hb in Ho', Hrd. set (n := MetaSize + _ + _ + _) in *.
  destruct (slice_ok_split _ _ _ _ _ (proj1 Ho')) as (X' & Y' & Q' & Ha' & HX' & HY').
  rewrite (hread_seg _ _ _ _ _ X' Y' Q' Ha') in Hrd by done.
  rewrite (hread_seg _ _ _ _ _ X (hdr ++ psrc k ++ pdst k ++ pcontent k) Q) in Hrd;
    [|by rewrite <- !app_assoc|done|unfold n; part_len].
  subst Y'. exists a, o, c, X', hdr, Q'. rewrite <- !app_assoc in Ha'. by split_and!.
Qed.

Lemma msg_at_frame w w' msg k : msg_at w msg k → wframe w w' → msg_at w' msg k.
Proof.
  intros Hat Hf. destruct (Hf _ I (proj1 (proj2 Hat))). by apply (msg_at_reads w).
Qed.

Lemma hcopy_as_bytes dst src h : slen src = zlen (hread h src) →
  hcopy dst src h = hcopy_bytes dst (hread h src) h.
Proof. intros H. unfold hcopy, hcopy_bytes. by rewrite H. Qed.

(** [copy] from a slice of another array into a part of the buffer being filled. *)
Lemma fill_copy_run w a b o l c A B C src bs :
  b = A ++ B ++ C → o = zlen A → l = zlen B → l = zlen bs →
  sarr src ≠ Some a → wread w src = bs → slen src = zlen bs →
  on_heap (hcopy (Slice a o l c) src) (set_arr a b w) = Ret ((), set_arr a (A ++ bs ++ C) w).
Proof.
  intros Hb Ho Hl Hbs Hne Hr Hsl.
  rewrite <- (ztake_all_eq l bs) by lia. erewrite <- fill_run by (done || lia).
  unfold on_heap. do 4 f_equal. rewrite <- (set_arr_read a b w src Hne) in Hr. unfold wread in Hr.
  rewrite hcopy_as_bytes; [by rewrite Hr|by rewrite Hr].
Qed.

(** [copy(d, d[4:])] on a window of at least four bytes. *)
Definition shift4 (d : list Z) : list Z := zdrop 4 d ++ zdrop (zlen d - 4) d.

Lemma zlen_shift4 d : d ≠ [] → 4 ≤ zlen d → zlen (shift4 d) = zlen d.
Proof. intros _ H. unfold shift4. rewrite zlen_app, !zlen_drop by lia. lia. Qed.

Lemma shift_run w a b o l c c' A B C :
  b = A ++ B ++ C → o = zlen A → l = zlen B → 4 ≤ l →
  on_heap (hcopy (Slice a o l c) (Slice a (o + 4) (l - 4) c')) (set_arr a b w)
    = Ret ((), set_arr a (A ++ shift4 B ++ C) w).
Proof.
  intros -> -> -> Hl. unfold on_heap, hcopy. cbn [slen]. rewrite Z.min_r by lia.
  destruct (zsplit 4 B) as (B1 & B2 & -> & HB1); [lia|].
  rewrite (hread_seg _ _ _ _ _ (A ++ B1) B2 C); cycle 1.
  { cbn. rewrite lookup_insert_eq. by rewrite <- !app_assoc. }
  { zlia. } { zlia. }
  rewrite ztake_all_eq by zlia. unfold shift4. rewrite (zdrop_app_eq 4 B1 B2) by done.
  destruct (zsplit (zlen B2) (B1 ++ B2)) as (D1 & D2 & HD & HD1); [zlia|].
  rewrite HD. rewrite (hwrite_seg _ _ _ _ _ A D1 (D2 ++ C)); cycle 1.
  { cbn. rewrite lookup_insert_eq. by rewrite <- !app_assoc. }
  { done. } { done. }
  rewrite zdrop_app_eq; cycle 1.
  { rewrite <- HD. zlia. }
  unfold set_arr, warr. cbn. by rewrite insert_insert_eq, <- !app_assoc.
Qed.

(** The destination part of [NewMessageFromMsg]. *)
Lemma shift_part_run w1 a o n c b A B C ds pos x :
  b = A ++ B ++ C → zlen B = ds → o + pos = zlen A → 0 ≤ pos → pos + ds ≤ c →
  ds = 0 ∨ 4 ≤ ds → x = NilSlice →
  ∃ dst, (if 0 <? ds then
      dst ← sub (Slice a o n c) pos (pos + ds) (pos + ds);
      dst4 ← sub dst 4 (slen dst) (scap dst);
      on_heap (hcopy dst dst4) ;;
      mret (dst, pos + ds)
    else mret (x, pos)) (set_arr a b w1)
    = Ret ((dst, pos + ds), set_arr a (A ++ (if 0 <? ds then shift4 B else []) ++ C) w1) ∧
    window a (o + pos) ds dst.
Proof.
  intros Hb HB HA Hp Hc H4 ->. destruct (Z.ltb_spec 0 ds).
  - eexists. split; [|left; reflexivity].
    erewrite M_bind_ret_run by (apply sub_run; lia). cbn [slen scap].
    erewrite M_bind_ret_run by (apply sub_run; lia).
    replace (pos + ds - pos) with ds by lia.
    erewrite M_bind_ret_run by (apply (shift_run w1 a b _ _ _ _ A B C); [done|lia..]). done.
  - assert (ds = 0) as -> by lia. apply zlen_0 in HB as ->. rewrite Hb, Z.add_0_r.
    exists NilSlice. split; [done|by right].
Qed.

Definition with_dst (k : packet) (d : list Z) : packet := Packet (pmeta k) (psrc k) d (pcontent k).

(** [NewMessageFromMsg] takes everything but the destination from [srcMsg]; the
    destination is what the recycled buffer happened to hold, shifted by four bytes. *)
Lemma FromMsg_run pid k maxL w srcMsg :
  world_ok w → packet_ok k → receivable (pmeta k) → fits (pmeta k) maxL → msg_at w srcMsg k →
  ∃ msg w' stale, NewMessageFromMsg pid srcMsg maxL w = Ret (inr msg, w') ∧
    zlen stale = recv_destSize (pmeta k) ∧ (choices (wmem w) = [] → Forall (eq 0) stale) ∧
    built w w' msg (with_dst (hop pid k) (if 0 <? recv_destSize (pmeta k) then shift4 stale else [])).
Proof.
  intros Hw Hk Hr Hfit Hat. destruct (recv_sizes k Hk Hr) as (_ & Hds & _).
  destruct (hop_parts pid k Hk Hr) as (_ & _ & _ & Pm & Pl). pose proof (po_content k Hk) as Hct.
  destruct (recv_alloc k w Hw Hk Hr)
    as (x & w0 & w1 & a & o & c & X & Y0 & Y1 & Y2 & Y3 & Y4 & Q & HG & Hx & HA & Hre).
  pose proof Hre as [Hal L0 L1 L2 L3 L4 HX Hcap Hss].
  pose proof Hal as [_ Harr _ _ _ _ Hfr Hex Hz].
  assert (sarr (buf srcMsg) ≠ Some a) as Hne.
  { destruct Hat as (_ & Ho & ? & ? & ? & ? & ? & ? & Hb & _). apply Hex; [done|]. by rewrite Hb. }
  destruct (msg_at_windows w srcMsg k a Hat Hne) as ((Ss & Sa) & (Cs & Ca) & _).
  destruct (msg_at_read w1 srcMsg k) as (Hmeta & Rs & _ & Rc); [by eapply msg_at_frame|].
  assert (recv_destSize (pmeta k) = 0 ∨ 4 ≤ recv_destSize (pmeta k)) as Hd4.
  { unfold recv_destSize. pose proof (u8_bound (Distance (pmeta k) - 1)).
    pose proof (mk_dist _ (po_meta k Hk)). unfold is_u8 in *.
    destruct (SendType (pmeta k) =? SendTypeToDest); lia. }
  unfold NewMessageFromMsg. go_step HG. rewrite Hmeta.
  apply too_long_fits in Hfit. rewrite Hfit. fold (to_dest (pmeta k)). go_step HA.
  rewrite Hss. rewrite <- (set_arr_id _ _ _ Harr).
  erewrite M_bind_ret_run by (apply sub_run; part_len).
  erewrite M_bind_ret_run by (apply sub_run; cbn [scap]; part_len).
  erewrite M_bind_ret_run.
  2: { apply (fill_copy_run w1 a _ _ _ _ (X ++ Y0 ++ Y1) Y2 (Y3 ++ Y4 ++ Q) _ (psrc k));
       [part_app|part_len|part_len|part_len|done..]. }
  erewrite M_bind_ret_run by (apply sub_run; cbn [scap]; part_len).
  erewrite M_bind_ret_run.
  2: { apply (fill_put w1 a _ _ _ (X ++ Y0) Y1 (psrc k ++ Y3 ++ Y4 ++ Q)); [part_app|part_len..]. }
  rewrite <- Pm, <- !app_assoc.
  edestruct shift_part_run with (w1 := w1) (a := a) (o := o) (B := Y3) (C := Y4 ++ Q)
    (A := X ++ Y0 ++ be32 pid ++ psrc k) as (dst & HD & HW);
    [|exact L3|..|erewrite M_bind_ret_run by exact HD; cbv beta iota];
    [part_app|part_len|part_len|part_len|done|apply Hx|].
  set (d := if 0 <? recv_destSize (pmeta k) then shift4 Y3 else []) in *.
  assert (zlen d = recv_destSize (pmeta k)) as Hdl.
  { unfold d. destruct (Z.ltb_spec 0 (recv_destSize (pmeta k))).
    - rewrite zlen_shift4; [done| |lia]. intros ->. rewrite zlen_nil in L3. lia.
    - rewrite zlen_nil. lia. }
  erewrite M_bind_ret_run by (apply sub_run; part_len).
  erewrite M_bind_ret_run.
  2: { apply (fill_copy_run w1 a _ _ _ _ (X ++ Y0 ++ be32 pid ++ psrc k ++ d) Y4 Q _ (pcontent k));
       [part_app|part_len|part_len|part_len|done..]. }
  rewrite <- !app_assoc. rewrite <- Hss. eexists _, _, Y3. split; [reflexivity|]. split; [done|]. split.
  { intros Hc. specialize (Hz Hc). by rewrite !Forall_app in Hz; destruct_and! Hz. }
  fold d. unfold with_dst. cbn [psrc pcontent hop]. rewrite (app_assoc (be32 pid)).
  eapply built_intro; [done|done|part_len|left; f_equal; part_len|
    eapply window_eq; [done|part_len..]|left; f_equal; part_len].
Qed.
