(* ===== verification/MessageSend.v ===== *)
(** The sending side of Message.v: [NewSendMessage], [NewRawRecvMessage], [Encode], [Dup]
    and the release of messages, against the packets of Packet.v. *)
From S2P Require Import Prelude Errs GoHeap GoIO Bytespool Message Packet MessageFacts.
From stdpp Require Import base tactics numbers list gmap.
From Stdlib Require Import ZArith Lia.
Open Scope Z_scope.

(** ** [Encode] *)

Lemma hset_run w a b o n c A y C v i :
  b = A ++ [y] ++ C → o + i = zlen A → 0 ≤ i < n → n ≤ c →
  on_heap_opt (hset (Slice a o n c) i v) (set_arr a b w) = Ret ((), set_arr a (A ++ [v] ++ C) w).
Proof.
  intros -> HA Hi Hc. unfold on_heap_opt, hset. cbn [slen].
  rewrite bool_decide_eq_true_2 by done. rewrite reslice_Some by (cbn; lia).
  rewrite (hwrite_seg _ _ _ _ _ A [y] C); [|cbn; by rewrite lookup_insert_eq|done|done].
  unfold set_arr, warr. cbn. by rewrite insert_insert_eq.
Qed.

Lemma zlen_explode8 (l : list Z) :
  zlen l = 8 → ∃ b0 b1 b2 b3 r, l = [b0; b1; b2; b3] ++ r ∧ zlen r = 4.
Proof.
  intros H. destruct l as [|b0 [|b1 [|b2 [|b3 r]]]]; try (autorewrite with zlist in H; lia).
  exists b0, b1, b2, b3, r. split; [done|]. autorewrite with zlist in H. lia.
Qed.

Lemma encodeTo_run w a o n c X hdr Q m :
  warr w !! a = Some (X ++ hdr ++ Q) → zlen X = o → zlen hdr = MetaSize → MetaSize ≤ n ≤ c →
  encodeTo m (Slice a o n c) w = Ret ((), set_arr a (X ++ encode_meta m ++ Q) w).
Proof.
  intros Ha HX Hh Hn. unfold MetaSize in *.
  destruct (zlen_explode8 hdr Hh) as (b0 & b1 & b2 & b3 & r & -> & Hr).
  rewrite <- (set_arr_id _ _ _ Ha). unfold encodeTo.
  erewrite M_bind_ret_run.
  2: { apply (hset_run w a _ o n c X b0 ([b1; b2; b3] ++ r ++ Q)); [part_app|lia..]. }
  erewrite M_bind_ret_run.
  2: { apply (hset_run w a _ o n c (X ++ [Flags m]) b1 ([b2; b3] ++ r ++ Q)); [part_app|zlia|lia..]. }
  erewrite M_bind_ret_run.
  2: { apply (hset_run w a _ o n c (X ++ [Flags m; TTL m]) b2 ([b3] ++ r ++ Q)); [part_app|zlia|lia..]. }
  erewrite M_bind_ret_run.
  2: { apply (hset_run w a _ o n c (X ++ [Flags m; TTL m; Hops m]) b3 (r ++ Q)); [part_app|zlia|lia..]. }
  erewrite M_bind_ret_run by (apply sub_run; cbn [slen scap]; lia). cbn [slen scap].
  rewrite set_arr_set_arr.
  unfold on_heap_opt, put_be32. cbn [slen].
  destruct (decide (4 ≤ n - 4)) as [Hle|Hle]; [|exfalso; lia].
  rewrite bool_decide_eq_true_2 by done.
  rewrite (hwrite_seg _ _ _ _ _ (X ++ [Flags m; TTL m; Hops m; Distance m]) r Q); cycle 1.
  { cbn. rewrite lookup_insert_eq. by rewrite <- !app_assoc. } { zlia. } { done. }
  unfold set_arr, warr. cbn. rewrite insert_insert_eq. by rewrite <- !app_assoc.
Qed.

Lemma Encode_run w msg k :
  world_ok w → msg_at w msg k →
  ∃ w', Encode msg w = Ret (buf msg, w') ∧ wread w' (buf msg) = wire k ∧
    world_ok w' ∧ msg_at w' msg k ∧ msgPool w' = msgPool w ∧
    (∀ t, wowned w t → wowned w' t) ∧
    (∀ t, sarr t ≠ sarr (buf msg) → wread w' t = wread w t).
Proof.
  intros Hw (Hm & Ho & a & o & c & X & hdr & Q & Hb & Ha & HX & Hh & Hs & Hd & Hc).
  set (n := MetaSize + zlen (psrc k) + zlen (pdst k) + zlen (pcontent k)) in *.
  assert (n ≤ c) as Hnc by (rewrite Hb in Ho; destruct Ho as [(_ & ? & _) _]; lia).
  unfold Encode. rewrite Hm, Hb.
  erewrite M_bind_ret_run; cycle 1.
  { apply (encodeTo_run w a o n c X hdr); [done|done|done|unfold n; part_len]. }
  set (b := X ++ encode_meta (pmeta k) ++ psrc k ++ pdst k ++ pcontent k ++ Q).
  assert (zlen b = zlen (X ++ hdr ++ psrc k ++ pdst k ++ pcontent k ++ Q)) as Hl by (unfold b; part_len).
  eexists. split; [done|]. rewrite <- Hb. split_and!.
  - rewrite Hb. unfold wread. apply (hread_seg _ _ _ _ _ X (wire k) Q); [|done|unfold wire, n; part_len].
    cbn. rewrite lookup_insert_eq. unfold b, wire. by rewrite <- !app_assoc.
  - by eapply set_arr_world_ok.
  - split_and!; [done|by eapply set_arr_owned|].
    exists a, o, c, X, (encode_meta (pmeta k)), Q. split_and!; try done. apply warr_set_arr.
  - done.
  - intros t. by eapply set_arr_owned.
  - intros t. rewrite Hb. apply set_arr_read.
Qed.

(** ** [NewSendMessage] *)

(** An optional part of a buffer copied from bytes of exactly its size. *)
Lemma opt_part_run w1 a o n c b A B C pos bs x :
  b = A ++ B ++ C → zlen B = zlen bs → o + pos = zlen A → 0 ≤ pos → pos + zlen bs ≤ c →
  x = NilSlice →
  ∃ s, (if 0 <? zlen bs then
      s ← sub (Slice a o n c) pos (pos + zlen bs) (pos + zlen bs);
      on_heap (hcopy_bytes s bs) ;;
      mret (s, pos + zlen bs)
    else mret (x, pos)) (set_arr a b w1)
    = Ret ((s, pos + zlen bs), set_arr a (A ++ bs ++ C) w1) ∧ window a (o + pos) (zlen bs) s.
Proof.
  intros Hb HB HA Hp Hc ->. destruct (Z.ltb_spec 0 (zlen bs)).
  - eexists. split; [|left; reflexivity].
    erewrite M_bind_ret_run by (apply sub_run; lia).
    erewrite M_bind_ret_run by (apply (fill_run w1 a b _ _ _ A B C); [done|lia..]).
    rewrite (ztake_all_eq _ bs) by lia. unfold_ret. do 3 f_equal. f_equal; f_equal; lia.
  - assert (zlen bs = 0) as E by (pose proof (zlen_nonneg bs); lia). rewrite E in *.
    apply zlen_0 in HB as ->, E as ->. rewrite Hb, Z.add_0_r. exists NilSlice. split; [done|by right].
Qed.

Definition send_meta (flags sendType ttl : Z) (src dest content : list Z) : Meta :=
  mkMeta (Z.lor flags sendType) (if ttl =? 0 then DefaultMsgTTL else ttl)
    (MsgPath_Length src) (MsgPath_Length dest) (u32 (zlen content)).

Lemma NewSendMessage_run flags sendType ttl src dest content w :
  world_ok w →
  ∃ msg w', NewSendMessage flags sendType ttl src dest content w = Ret (msg, w') ∧
    built w w' msg (Packet (send_meta flags sendType ttl src dest content) src dest content).
Proof.
  intros Hw. set (n := MetaSize + zlen src + zlen dest + zlen content).
  destruct (get_alloc_run w n Hw)
    as (x & w0 & w1 & a & o & c & X & Y & Q & HG & Hx & HA & Hal); [unfold n; part_len|].
  pose proof Hal as [_ Harr HX HY Hcap _ _ _ _].
  destruct (zsplit MetaSize Y) as (Y0 & r0 & -> & L0); [unfold n in *; part_len|].
  destruct (zsplit (zlen src) r0) as (Y1 & r1 & -> & L1); [unfold n in *; part_len|].
  destruct (zsplit (zlen dest) r1) as (Y2 & Y3 & -> & L2); [unfold n in *; part_len|].
  assert (zlen Y3 = zlen content) as L3 by (unfold n in *; part_len).
  unfold NewSendMessage. go_step HG. fold n. go_step HA. rewrite <- (set_arr_id _ _ _ Harr).
  rewrite <- !app_assoc.
  edestruct opt_part_run with (w1 := w1) (a := a) (o := o) (A := X ++ Y0) (B := Y1)
    (C := Y2 ++ Y3 ++ Q) as (s & HS & WS); [|exact L1|..|erewrite M_bind_ret_run by exact HS; cbv beta iota];
    [part_app|part_len|part_len|unfold n in *; part_len|apply Hx|].
  rewrite <- !app_assoc.
  edestruct opt_part_run with (w1 := w1) (a := a) (o := o) (A := X ++ Y0 ++ src) (B := Y2)
    (C := Y3 ++ Q) as (d & HD & WD); [|exact L2|..|erewrite M_bind_ret_run by exact HD; cbv beta iota];
    [part_app|part_len|part_len|unfold n in *; part_len|apply Hx|].
  erewrite M_bind_ret_run by (apply sub_run; unfold n in *; part_len).
  erewrite M_bind_ret_run.
  2: { apply (fill_run w1 a _ _ _ _ (X ++ Y0 ++ src ++ dest) Y3 Q); [part_app|unfold n in *; part_len..]. }
  rewrite <- !app_assoc, (ztake_all_eq _ content) by lia.
  eexists _, _. split; [reflexivity|]. fold (send_meta flags sendType ttl src dest content).
  eapply built_intro; [done|done|done|eapply window_eq; [done|part_len..]..|left; f_equal; part_len].
Qed.

Lemma send_packet_ok flags sendType ttl src dest content i j :
  is_u8 flags → is_u8 sendType → is_u8 ttl → zlen src = 4 * i → zlen dest = 4 * j →
  i < 256 → j < 256 → is_u32 (zlen content) →
  packet_ok (Packet (send_meta flags sendType ttl src dest content) src dest content).
Proof.
  intros Hf Hst Ht Hi Hj Hi' Hj' Hc. pose proof (zlen_nonneg src). pose proof (zlen_nonneg dest).
  unfold send_meta, MsgPath_Length. rewrite Hi, Hj, !(Z.mul_comm 4), !Z.div_mul by lia.
  rewrite (u32_small (zlen content)), !u8_small by (unfold is_u8; lia || done).
  split; cbn; try lia. split; cbn; [|case_match; [done|exact Ht]|unfold is_u8; lia..|done].
  unfold is_u8 in *. change 256 with (2 ^ 8).
  pose proof (Z.log2_lor flags sendType ltac:(lia) ltac:(lia)).
  split; [apply Z.lor_nonneg; lia|].
  destruct (decide (Z.lor flags sendType = 0)) as [->|]; [lia|].
  apply Z.log2_lt_pow2; [pose proof (Z.lor_nonneg flags sendType); lia|].
  assert (∀ z, 0 ≤ z < 256 → Z.log2 z < 8) as Hl.
  { intros z Hz. destruct (decide (z = 0)) as [->|]; [done|]. apply Z.log2_lt_pow2; lia. }
  pose proof (Hl flags Hf). pose proof (Hl sendType Hst). lia.
Qed.

(** ** [Dup] *)

Lemma built_eta w w' msg k :
  built w w' msg (Packet (pmeta k) (psrc k) (pdst k) (pcontent k)) → built w w' msg k.
Proof. by destruct k. Qed.

Lemma Dup_run w msg k :
  world_ok w → packet_ok k → msg_at w msg k →
  ∃ dup w', Dup msg w = Ret (dup, w') ∧ built w w' dup k.
Proof.
  intros Hw Hk Hat. destruct (Hat) as (Hm & Ho & _).
  destruct Hk as [_ Hs Hd Hc].
  set (n := MetaSize + zlen (psrc k) + zlen (pdst k) + zlen (pcontent k)).
  destruct (get_alloc_run w n Hw)
    as (x & w0 & w1 & a & o & c & X & Y & Q & HG & Hx & HA & Hal); [unfold n; part_len|].
  pose proof Hal as [_ Harr HX HY Hcap _ Hfr Hex _].
  assert (sarr (buf msg) ≠ Some a) as Hne.
  { destruct Hat as (_ & _ & ? & ? & ? & ? & ? & ? & Hb & _). apply Hex; [done|]. by rewrite Hb. }
  destruct (msg_at_windows w msg k a Hat Hne) as (_ & _ & Hl). fold n in Hl.
  pose proof (msg_at_frame _ _ _ _ Hat Hfr) as Hat1.
  destruct Hat1 as (_ & _ & a' & o' & c' & X' & hdr & Q' & Hb & Ha' & HX' & Hh & _).
  unfold Dup. go_step HG. rewrite Hl. go_step HA. rewrite Hm, <- (set_arr_id _ _ _ Harr).
  erewrite M_bind_ret_run.
  2: { apply (fill_copy_run w1 a _ _ _ _ X Y Q _ (hdr ++ psrc k ++ pdst k ++ pcontent k));
       [done|lia|lia|unfold n; part_len|done| |rewrite Hl; unfold n; part_len].
       rewrite Hb. unfold wread. apply (hread_seg _ _ _ _ _ X' _ Q'); [|done|part_len].
       rewrite <- !app_assoc. exact Ha'. }
  rewrite <- Hs, <- Hd, <- Hc.
  erewrite M_bind_ret_run by (apply sub_run; unfold n in *; part_len).
  erewrite M_bind_ret_run by (apply sub_run; unfold n in *; part_len).
  erewrite M_bind_ret_run by (apply sub_run; unfold n in *; part_len).
  eexists _, _. split; [reflexivity|]. rewrite <- !app_assoc.
  apply built_eta.
  eapply built_intro; [done|done|done|left; f_equal; part_len..].
Qed.

(** ** Releasing messages *)

Lemma FreeAll_run w msg k :
  world_ok w → msg_at w msg k →
  ∃ w', Message_FreeAll msg w = Ret ((), w') ∧ world_ok w' ∧
    frame (λ t, sarr t ≠ sarr (buf msg)) (wmem w) (wmem w').
Proof.
  intros [Hm Hp] (_ & Ho & _). destruct (Free_run (wmem w) (buf msg) Hm Ho) as (m' & HF & Hm' & Hfr).
  unfold Message_FreeAll. erewrite M_bind_ret_run by (unfold lift_mem; by rewrite HF).
  eexists. split; [done|]. split; [split; [done|]|done]. by constructor.
Qed.
