(* ===== verification/MessageThms.v ===== *)
(** Theorems on messages: wire round trips, framing, errors and panics, copies. *)
From S2P Require Import Prelude Errs GoHeap GoIO Bytespool Message Packet MessageFacts MessageSend.
From stdpp Require Import base tactics numbers list gmap.
From Stdlib Require Import ZArith Lia.
Open Scope Z_scope.

(** In [w] the fields of [msg] are those of [k]. *)
Definition shows (w : world) (msg : Message) (k : packet) : Prop :=
  meta msg = pmeta k ∧ wread w (Source msg) = psrc k ∧
  wread w (Destination msg) = pdst k ∧ wread w (Content msg) = pcontent k.

Lemma built_shows w w' msg k : built w w' msg k → shows w' msg k.
Proof. intros H. apply msg_at_read, H. Qed.

Lemma built_world_ok w w' msg k : built w w' msg k → world_ok w'.
Proof. apply bu_ok. Qed.
#[export] Hint Resolve built_shows built_world_ok : go.

(** ** Helpers for arbitrary received bytes *)

Lemma bytes_encode_meta b :
  Forall is_u8 b → MetaSize ≤ zlen b →
  ∃ m r, b = encode_meta m ++ r ∧ meta_ok m ∧ decodeMetaFrom b = Some m.
Proof.
  intros Hb Hl. unfold MetaSize in Hl.
  do 8 (destruct b as [|? b]; [autorewrite with zlist in Hl; zlen_pose; lia|]).
  repeat (apply Forall_cons in Hb as [? Hb]).
  set (L := z6 + z5 * 2 ^ 8 + z4 * 2 ^ 16 + z3 * 2 ^ 24).
  assert (is_u32 L) as HL by (unfold is_u32, L, is_u8 in *; lia).
  assert (be32 L = [z3; z4; z5; z6]) as HbL.
  { unfold be32. change 255 with (2 ^ 8 - 1). rewrite !land_mask by lia.
    rewrite !Z.shiftr_div_pow2 by lia. unfold L, is_u8 in *.
    change (2 ^ 8) with 256; change (2 ^ 16) with 65536; change (2 ^ 24) with 16777216.
    repeat f_equal; mlia. }
  exists (mkMeta z z0 z1 z2 L), b.
  assert ((z :: z0 :: z1 :: z2 :: z3 :: z4 :: z5 :: z6 :: b)
    = encode_meta (mkMeta z z0 z1 z2 L) ++ b) as E by (unfold encode_meta; cbn [Length]; by rewrite HbL).
  assert (meta_ok (mkMeta z z0 z1 z2 L)) as Hm by by split.
  split_and!; [done|done|]. rewrite E. by apply decode_encode_meta.
Qed.

(** The refusals of [NewMessageFromBytes]. *)
Lemma FromBytes_reject pid b maxL w m r :
  world_ok w → b = encode_meta m ++ r → meta_ok m →
  (too_long m maxL = true →
     ∃ w', NewMessageFromBytes pid b maxL w = Ret (inl ErrContentTooLong, w') ∧ world_ok w') ∧
  (too_long m maxL = false → zlen r ≠ 4 * u8 (Hops m + Distance m) + Length m →
     ∃ w', NewMessageFromBytes pid b maxL w = Ret (inl ErrBadMsg, w') ∧ world_ok w').
Proof.
  intros Hw -> Hm. destruct (msgPool_Get_run w Hw) as (x & w0 & HG & Hw0 & Hx & _).
  unfold NewMessageFromBytes.
  rewrite (proj2 (Z.ltb_ge (zlen (encode_meta m ++ r)) MetaSize)) by part_len.
  rewrite decode_encode_meta by done.
  split; [intros Ht|intros Ht Hne]; go_step HG; erewrite !M_bind_ret_run by done.
  all: erewrite M_bind_ret_run by (apply from_index_run; part_len); rewrite Ht.
  2: rewrite zdrop_app_eq by done; rewrite (proj2 (Z.eqb_neq _ _) Hne); cbn [negb].
  all: eexists; (split; [reflexivity|]); (split; [apply Hw0|]); constructor; [done|apply Hw0].
Qed.

Lemma FromBytes_short pid b maxL w :
  world_ok w → zlen b < MetaSize →
  ∃ w', NewMessageFromBytes pid b maxL w = Ret (inl ErrBadMsg, w') ∧ world_ok w'.
Proof.
  intros Hw Hl. destruct (msgPool_Get_run w Hw) as (x & w0 & HG & Hw0 & Hx & _).
  unfold NewMessageFromBytes. go_step HG. rewrite (proj2 (Z.ltb_lt (zlen b) MetaSize)) by done.
  eexists. split; [reflexivity|]. split; [apply Hw0|]. constructor; [done|apply Hw0].
Qed.

Lemma recv_sizes_nonneg m :
  meta_ok m → 0 ≤ recv_sourceSize m ∧ 0 ≤ recv_destSize m ∧ 0 ≤ Length m.
Proof.
  intros Hm. pose proof (u8_bound (Hops m + 1)). pose proof (u8_bound (Distance m - 1)).
  destruct (mk_dist m Hm), (mk_len m Hm). unfold is_u8, recv_sourceSize, recv_destSize in *.
  destruct (SendType m =? SendTypeToDest); lia.
Qed.

(** Run [NewMessageFromBytes] up to the allocation of the buffer. *)
Ltac run_to_alloc Hm Ht Hl HG HA :=
  unfold NewMessageFromBytes; go_step HG;
  rewrite (proj2 (Z.ltb_ge (zlen (encode_meta _ ++ _)) MetaSize)) by part_len;
  rewrite decode_encode_meta by exact Hm; erewrite M_bind_ret_run by done;
  erewrite M_bind_ret_run by (apply from_index_run; part_len);
  rewrite zdrop_app_eq by done; rewrite Ht, (proj2 (Z.eqb_eq _ _) Hl); cbn [negb]; go_step HA.

(** A packet that arrives with 255 hops: the source path gets no room, the receiver panics. *)
Lemma FromBytes_panic_hops pid m r maxL w :
  world_ok w → meta_ok m → too_long m maxL = false →
  zlen r = 4 * u8 (Hops m + Distance m) + Length m → Hops m = 255 →
  NewMessageFromBytes pid (encode_meta m ++ r) maxL w = Panics PanicBounds.
Proof.
  intros Hw Hm Ht Hl Hh. destruct (recv_sizes_nonneg m Hm) as (? & ? & ?).
  destruct (get_alloc_run w (recv_size m) Hw ltac:(unfold MetaSize; lia))
    as (x & w0 & w1 & a & o & c & X & Y & Q & HG & Hx & HA & [_ _ _ _ Hcap _ _ _ _]).
  run_to_alloc Hm Ht Hl HG HA.
  assert (recv_sourceSize m = 0) as -> by (unfold recv_sourceSize; by rewrite Hh).
  erewrite M_bind_ret_run by (apply sub_run; unfold MetaSize in *; lia).
  apply M_bind_panic_run. unfold sub. by rewrite reslice_None by (cbn [scap]; lia).
Qed.

(** A packet to a destination that has none: the receiver reads past the end. *)
Lemma FromBytes_panic_dest pid m r maxL w :
  world_ok w → meta_ok m → too_long m maxL = false →
  zlen r = 4 * u8 (Hops m + Distance m) + Length m →
  Hops m < 255 → to_dest m = true → Distance m = 0 → Length m < 4 →
  NewMessageFromBytes pid (encode_meta m ++ r) maxL w = Panics PanicBounds.
Proof.
  intros Hw Hm Ht Hl Hh Hd H0 HL. destruct (recv_sizes_nonneg m Hm) as (? & ? & ?).
  destruct (get_alloc_run w (recv_size m) Hw ltac:(unfold MetaSize; lia))
    as (x & w0 & w1 & a & o & c & X & Y & Q & HG & Hx & HA & [_ Harr HX HY Hcap _ _ _ _]).
  pose proof (mk_hops m Hm) as Hh0. pose proof (mk_len m Hm) as HL0. unfold is_u8, is_u32 in *.
  assert (recv_sourceSize m = 4 + 4 * Hops m) as Hss
    by (unfold recv_sourceSize; rewrite u8_small by (unfold is_u8; lia); lia).
  assert (recv_destSize m = 1020) as Hds
    by (unfold recv_destSize; fold (to_dest m); rewrite Hd, H0; done).
  run_to_alloc Hm Ht Hl HG HA. rewrite H0, Z.add_0_r, u8_small in Hl by (unfold is_u8; lia).
  fold (to_dest m). rewrite Hss, Hd.
  erewrite M_bind_ret_run by (apply sub_run; unfold MetaSize in *; lia).
  erewrite M_bind_ret_run by (apply sub_run; unfold MetaSize in *; cbn [scap]; lia).
  erewrite M_bind_ret_run by reflexivity.
  erewrite M_bind_ret_run by (apply from_index_run; lia).
  erewrite M_bind_ret_run by (apply sub_run; unfold MetaSize in *; cbn [scap]; lia).
  erewrite M_bind_ret_run.
  2: { unfold on_heap_opt, put_be32. cbn [slen]. by rewrite bool_decide_eq_true_2 by lia. }
  apply M_bind_panic_run, M_bind_panic_run, from_index_panic. rewrite zlen_drop by lia. lia.
Qed.

(** ** Receiving a sequence of messages from one reader *)
Section stream.
Context {R : Type} `{!Reader R} `{!ReaderOk R}.

(** [n] calls of [NewMessageFromReader], as the receiver loop of a pipe makes them. *)
Fixpoint recv_n (n : nat) (pid maxL : Z) : M (world * R) (list (err + Message)) :=
  match n with
  | O => mret []
  | S n => x ← NewMessageFromReader pid MetaSize maxL;
           xs ← recv_n n pid maxL;
           mret (x :: xs)
  end.

Definition decodable (maxL : Z) (k : packet) : Prop :=
  packet_ok k ∧ receivable (pmeta k) ∧ fits (pmeta k) maxL.

Lemma recv_n_run ks pid maxL w (r : R) rest :
  world_ok w → Forall (decodable maxL) ks → pending r = concat (wire <$> ks) ++ rest →
  ∃ msgs w' r', recv_n (length ks) pid maxL (w, r) = Ret (inr <$> msgs, (w', r')) ∧
    world_ok w' ∧ wframe w w' ∧ Forall2 (msg_at w') msgs (hop pid <$> ks) ∧ pending r' = rest.
Proof.
  intros Hw Hks. revert w r Hw. induction Hks as [|k ks (Hk & Hr & Hf) Hks IH]; intros w r Hw Hp.
  { exists [], w, r. split_and!; [done|done|apply wframe_refl|constructor|done]. }
  cbn [fmap list_fmap concat] in Hp. rewrite <- app_assoc in Hp. cbn [recv_n length].
  destruct (FromReader_run pid k maxL w r _ Hw Hk Hr Hf Hp) as (msg & w1 & r1 & HR & Hb & Hp1).
  destruct (IH w1 r1) as (msgs & w2 & r2 & HN & Hw2 & Hf2 & Hall & Hp2); [apply Hb|done|].
  exists (msg :: msgs), w2, r2. go_step HR. go_step HN.
  split_and!; [done|done| | |done].
  - eapply wframe_trans; [apply Hb|done].
  - constructor; [|done]. eapply msg_at_frame; [apply Hb|done].
Qed.
End stream.

(** C1: a message made with [NewSendMessage] and encoded with [Encode] is decoded by
    [NewMessageFromBytes] at the other end as the same message one hop further: same
    flags and content, time to live one less, the receiving pipe's id pushed on the
    source path, and for a message to a destination the first id of the path popped. *)
Theorem send_recv_roundtrip w pid maxL flags sendType ttl src dest content i j :
  let k := Packet (send_meta flags sendType ttl src dest content) src dest content in
  world_ok w → is_u8 flags → is_u8 sendType → is_u8 ttl →
  zlen src = 4 * i → zlen dest = 4 * j → is_u32 (zlen content) →
  i < 255 → i + j < 256 → (to_dest (pmeta k) = true → 1 ≤ j) → fits (pmeta k) maxL →
  ∃ msg w1 w2 msg' w3,
    NewSendMessage flags sendType ttl src dest content w = Ret (msg, w1) ∧
    Encode msg w1 = Ret (buf msg, w2) ∧
    NewMessageFromBytes pid (wread w2 (buf msg)) maxL w2 = Ret (inr msg', w3) ∧
    shows w3 msg' (hop pid k).
Proof.
  intros k Hw Hf Hs Ht Hi Hj Hc Hi' Hij Hd Hfit.
  pose proof (zlen_nonneg src). pose proof (zlen_nonneg dest).
  assert (packet_ok k) as Hk by (apply (send_packet_ok _ _ _ _ _ _ i j); done || lia).
  assert (receivable (pmeta k)) as Hr.
  { pose proof (po_src k Hk) as H1. pose proof (po_dst k Hk) as H2. unfold receivable.
    cbn [psrc pdst k] in H1, H2. split_and!; [lia|lia|]. intros E. specialize (Hd E). lia. }
  destruct (NewSendMessage_run flags sendType ttl src dest content w Hw) as (msg & w1 & HN & Hb).
  destruct (Encode_run w1 msg k) as (w2 & HE & Hwire & Hw2 & _); [apply Hb..|].
  destruct (FromBytes_run pid k maxL w2) as (msg' & w3 & HF & Hb'); [done..|].
  exists msg, w1, w2, msg', w3. rewrite Hwire. eauto with go.
Qed.

(** C2: on a byte stream the messages are framed by their own headers: from any reader
    that delivers the encodings of [ks] and then [rest], however it chunks them, [n]
    calls of [NewMessageFromReader] return exactly the messages [ks] one hop further, in
    order and all valid together at the end, and leave exactly [rest] unread. *)
Theorem stream_framing {R} `{!Reader R} `{!ReaderOk R} ks pid maxL w (r : R) rest :
  world_ok w → Forall (decodable maxL) ks → pending r = concat (wire <$> ks) ++ rest →
  ∃ msgs w' r', recv_n (length ks) pid maxL (w, r) = Ret (inr <$> msgs, (w', r')) ∧
    Forall2 (shows w') msgs (hop pid <$> ks) ∧ pending r' = rest.
Proof.
  intros Hw Hks Hp.
  destruct (recv_n_run ks pid maxL w r rest Hw Hks Hp) as (msgs & w' & r' & HN & _ & _ & Hall & Hp').
  exists msgs, w', r'. split_and!; [done| |done].
  eapply Forall2_impl; [exact Hall|]. intros. by apply msg_at_read.
Qed.

(** C20: [NewMessageFromBytes] on any byte string whose header has fewer than 255 hops, path
    lengths that add up within a byte, and a destination if it is sent to one: it never
    panics; it answers [ErrBadMsg] exactly when the string is shorter than a header or,
    the limit being respected, has not the announced length, [ErrContentTooLong] exactly
    when the announced content exceeds the limit, and a message otherwise. *)
Theorem from_bytes_total pid b maxL w :
  world_ok w → Forall is_u8 b → (∀ m, decodeMetaFrom b = Some m → receivable m) →
  ∃ res w', NewMessageFromBytes pid b maxL w = Ret (res, w') ∧ world_ok w' ∧
    match decodeMetaFrom b with
    | None => res = inl ErrBadMsg
    | Some m =>
        if too_long m maxL then res = inl ErrContentTooLong
        else if zlen b =? MetaSize + 4 * (Hops m + Distance m) + Length m
        then ∃ msg, res = inr msg ∧ Length (meta msg) = Length m
        else res = inl ErrBadMsg
    end.
Proof.
  intros Hw Hb Hr. destruct (decide (zlen b < MetaSize)) as [Hs|Hs].
  { destruct (FromBytes_short pid b maxL w Hw Hs) as (w' & HF & Hw'). exists (inl ErrBadMsg), w'.
    split_and!; [done..|]. unfold MetaSize in Hs.
    do 8 (destruct b as [|? b]; [done|]). autorewrite with zlist in Hs. zlen_pose. lia. }
  destruct (bytes_encode_meta b Hb) as (m & r & E & Hm & Hdec); [lia|].
  rewrite Hdec. specialize (Hr m Hdec). destruct (FromBytes_reject pid b maxL w m r Hw E Hm) as [R1 R2].
  destruct (too_long m maxL) eqn:Et; [destruct (R1 eq_refl) as (w' & ? & ?); by eauto 6|].
  destruct (Hr) as (H1 & H2 & _). pose proof (mk_hops m Hm). pose proof (mk_dist m Hm).
  unfold is_u8 in *. rewrite u8_small in R2 by (unfold is_u8; lia).
  assert (zlen b = MetaSize + zlen r) as Hlen by (rewrite E; part_len).
  destruct (Z.eqb_spec (zlen b) (MetaSize + 4 * (Hops m + Distance m) + Length m)) as [Eq|Ne].
  2: { destruct (R2 eq_refl) as (w' & ? & ?); [lia|]. by eauto 6. }
  destruct (zsplit (4 * Hops m) r) as (s & r' & -> & Hs'); [pose proof (mk_len m Hm); unfold is_u32 in *; lia|].
  destruct (zsplit (4 * Distance m) r') as (d & c & -> & Hd');
    [pose proof (mk_len m Hm); unfold is_u32 in *; autorewrite with zlist in *; lia|].
  assert (packet_ok (Packet m s d c)) as Hk by (split; cbn; [done..|]; autorewrite with zlist in *; lia).
  destruct (FromBytes_run pid (Packet m s d c) maxL w) as (msg & w' & HF & Hbu);
    [done|done|done|by apply too_long_fits|].
  exists (inr msg), w'. unfold wire in HF. cbn [pmeta psrc pdst pcontent] in HF.
  rewrite E. split_and!; [done|apply Hbu|]. exists msg. split; [done|].
  destruct (built_shows _ _ _ _ Hbu) as [-> _]. cbn. by case_match.
Qed.

(** A peer can crash the receiver with a short packet that passes the length check: one
    that claims 255 hops, or one sent to a destination with an empty path and fewer than
    four bytes of content; both make [NewMessageFromBytes] panic on a slice bound. *)
Theorem from_bytes_remote_panic pid m r maxL w :
  world_ok w → meta_ok m → too_long m maxL = false →
  zlen r = 4 * u8 (Hops m + Distance m) + Length m →
  Hops m = 255 ∨ (Hops m < 255 ∧ to_dest m = true ∧ Distance m = 0 ∧ Length m < 4) →
  NewMessageFromBytes pid (encode_meta m ++ r) maxL w = Panics PanicBounds.
Proof.
  intros Hw Hm Ht Hl [Hh|(Hh & Hd & H0 & HL)];
    [by apply FromBytes_panic_hops|by apply FromBytes_panic_dest].
Qed.

(** C37: [NewMessageFromMsg], the copy the in-process transport makes, agrees with the wire
    decoders for every message that has no destination left after the hop. *)
Theorem from_msg_agrees pid k maxL w srcMsg :
  world_ok w → packet_ok k → receivable (pmeta k) → fits (pmeta k) maxL → msg_at w srcMsg k →
  recv_destSize (pmeta k) = 0 →
  ∃ msg w1, NewMessageFromMsg pid srcMsg maxL w = Ret (inr msg, w1) ∧ shows w1 msg (hop pid k) ∧
  ∃ w2 msg' w3, Encode srcMsg w = Ret (buf srcMsg, w2) ∧
    NewMessageFromBytes pid (wread w2 (buf srcMsg)) maxL w2 = Ret (inr msg', w3) ∧
    shows w3 msg' (hop pid k).
Proof.
  intros Hw Hk Hr Hf Hat H0.
  destruct (FromMsg_run pid k maxL w srcMsg Hw Hk Hr Hf Hat) as (msg & w1 & st & HF & _ & _ & Hb).
  destruct (hop_parts pid k Hk Hr) as (_ & _ & _ & _ & Pl). rewrite H0 in Hb, Pl. cbn in Hb.
  apply zlen_0 in Pl.
  exists msg, w1. split; [done|]. split.
  { destruct (built_shows _ _ _ _ Hb) as (? & ? & Hd & ?). split_and!; try done. by rewrite Pl. }
  destruct (Encode_run w srcMsg k Hw Hat) as (w2 & HE & Hwire & Hw2 & _).
  destruct (FromBytes_run pid k maxL w2) as (msg' & w3 & HB & Hb'); [done..|].
  exists w2, msg', w3. rewrite Hwire. eauto with go.
Qed.

(** [NewMessageFromMsg] loses the destination path: in a memory whose pools hand out
    fresh buffers, whatever ids the source message still has to visit, the copy's
    destination is all zeros (the code copies the new buffer onto itself instead of the
    source message's path), while the wire decoders keep it. *)
Theorem from_msg_loses_destination pid k maxL w srcMsg :
  world_ok w → packet_ok k → receivable (pmeta k) → fits (pmeta k) maxL → msg_at w srcMsg k →
  choices (wmem w) = [] →
  ∃ msg w1, NewMessageFromMsg pid srcMsg maxL w = Ret (inr msg, w1) ∧
    meta msg = pmeta (hop pid k) ∧ Forall (eq 0) (wread w1 (Destination msg)) ∧
    zlen (wread w1 (Destination msg)) = recv_destSize (pmeta k) ∧
  ∃ w2 msg' w3, Encode srcMsg w = Ret (buf srcMsg, w2) ∧
    NewMessageFromBytes pid (wread w2 (buf srcMsg)) maxL w2 = Ret (inr msg', w3) ∧
    wread w3 (Destination msg') = pdst (hop pid k).
Proof.
  intros Hw Hk Hr Hf Hat Hc.
  destruct (FromMsg_run pid k maxL w srcMsg Hw Hk Hr Hf Hat) as (msg & w1 & st & HF & Hst & Hz & Hb).
  destruct (built_shows _ _ _ _ Hb) as (? & _ & Hd & _). cbn [with_dst pdst pmeta] in *.
  exists msg, w1. specialize (Hz Hc). split_and!; [done|done| | |].
  - rewrite Hd. case_match; [|constructor]. unfold shift4. apply Forall_app. split; by apply Forall_drop.
  - rewrite Hd. destruct (Z.ltb_spec 0 (recv_destSize (pmeta k))).
    + rewrite zlen_shift4; [done|intros ->; rewrite zlen_nil in Hst; lia|].
      destruct (recv_sizes k Hk Hr) as (_ & E & _). rewrite Hst, E in *.
      pose proof (po_dst _ (hop_ok 0 k Hk Hr)). lia.
    + rewrite zlen_nil. destruct (recv_sizes_nonneg (pmeta k) (po_meta k Hk)). lia.
  - destruct (Encode_run w srcMsg k Hw Hat) as (w2 & HE & Hwire & Hw2 & _).
    destruct (FromBytes_run pid k maxL w2) as (msg' & w3 & HB & Hb'); [done..|].
    exists w2, msg', w3. rewrite Hwire. split_and!; [done..|].
    by destruct (built_shows _ _ _ _ Hb') as (_ & _ & ? & _).
Qed.

(** The windows of a message are owned with its buffer, and lie in the buffer's array. *)
Lemma msg_at_window_owned w msg k t :
  msg_at w msg k → t = Source msg ∨ t = Destination msg ∨ t = Content msg →
  wowned w t ∧ (t = NilSlice ∨ sarr t = sarr (buf msg)).
Proof.
  intros (_ & Ho & a & o & c & X & hdr & Q & Hb & Ha & HX & Hh & Hs & Hd & Hc) Ht.
  rewrite Hb in *. destruct Ho as [(Ho1 & Ho2 & Hlt & Hin) Hp].
  assert (∀ off len, window a off len t → o ≤ off → 0 ≤ len → off + len ≤ o + c →
    wowned w t ∧ (t = NilSlice ∨ sarr t = Some a)) as Hwin.
  { intros off len [->|[_ ->]] ???; [|split; [split; done|by left]].
    split; [|by right]. split; [|cbn; intros ? [= <-]; by apply Hp].
    split_and!; [lia..|done|]. unfold warr in Ha. rewrite Ha in *. lia. }
  pose proof (zlen_nonneg (psrc k)). pose proof (zlen_nonneg (pdst k)).
  pose proof (zlen_nonneg (pcontent k)). unfold MetaSize in *.
  destruct Ht as [-> | [-> | ->]]; eapply Hwin; done || lia.
Qed.

Lemma shows_preserved w w' msg k :
  msg_at w msg k →
  (∀ t, wowned w t → t ≠ NilSlice → sarr t = sarr (buf msg) → wread w' t = wread w t) →
  shows w' msg k.
Proof.
  intros Hat Hr. unfold shows. destruct (msg_at_read _ _ _ Hat) as (? & <- & <- & <-).
  assert (∀ t, t = Source msg ∨ t = Destination msg ∨ t = Content msg →
    wread w' t = wread w t) as Hall; [|split_and!; eauto].
  intros t Ht. destruct (msg_at_window_owned w msg k t Hat Ht) as [Ho [->|Hs]]; [done|].
  destruct (decide (t = NilSlice)) as [->|]; [done|]. by apply Hr.
Qed.

(** C36: [Dup] makes an equal and independent copy: both messages show the packet, and
    releasing the original with [FreeAll] or overwriting its buffer changes nothing the
    copy shows. *)
Theorem dup_independent w msg k :
  world_ok w → packet_ok k → msg_at w msg k →
  ∃ dup w1, Dup msg w = Ret (dup, w1) ∧ shows w1 msg k ∧ shows w1 dup k ∧
    (∃ w2, Message_FreeAll msg w1 = Ret ((), w2) ∧ shows w2 dup k) ∧
    (∀ bs w2, on_heap (hwrite (buf msg) bs) w1 = Ret ((), w2) → shows w2 dup k).
Proof.
  intros Hw Hk Hat. destruct (Dup_run w msg k Hw Hk Hat) as (dup & w1 & HD & Hb).
  assert (msg_at w1 msg k) as Hat1 by (eapply msg_at_frame; [done|apply Hb]).
  destruct (Hat) as (_ & Ho & a & o & c & _ & _ & _ & Hbuf & _).
  assert (sarr (buf msg) ≠ sarr (buf dup)) as Hne
    by (apply (bu_excl _ _ _ _ Hb); [done|by rewrite Hbuf]).
  exists dup, w1. split_and!; [done|by apply msg_at_read|by eauto with go|..].
  - destruct (FreeAll_run w1 msg k) as (w2 & HF & _ & Hfr); [apply Hb|done|].
    exists w2. split; [done|]. eapply shows_preserved; [apply Hb|].
    intros t Ht _ Hs. destruct (Hfr t); [congruence|done|done].
  - intros bs w2 [= <-]. eapply shows_preserved; [apply Hb|].
    intros t Ht Hn Hs. unfold wread. cbn. rewrite Hbuf in *. apply hwrite_other. cbn in *. congruence.
Qed.

(** ** Concrete instances *)

(** "hi" to a destination two pipes away, already one hop from its origin. *)
Definition hi_meta : Meta := send_meta 0 SendTypeToDest 0 (be32 7) (be32 9 ++ be32 5) [104; 105].
Definition hi_packet : packet := Packet hi_meta (be32 7) (be32 9 ++ be32 5) [104; 105].

Definition hi_state : Message * world :=
  match NewSendMessage 0 SendTypeToDest 0 (be32 7) (be32 9 ++ be32 5) [104; 105] (world_init []) with
  | Ret x => x
  | Panics _ => (zeroMessage, world_init [])
  end.

Lemma hi_packet_ok : packet_ok hi_packet.
Proof. repeat split; vm_compute; done. Qed.

Lemma hi_receivable : receivable (pmeta hi_packet).
Proof. refine (bool_decide_unpack _ _). vm_compute. exact I. Qed.

Lemma hi_state_built : built (world_init []) hi_state.2 hi_state.1 hi_packet.
Proof.
  unfold hi_state.
  destruct (NewSendMessage_run 0 SendTypeToDest 0 (be32 7) (be32 9 ++ be32 5) [104; 105]
    (world_init [])) as (msg & w & -> & Hb); [apply world_init_ok|done].
Qed.

(** The same content to any peer, with no destination left. *)
Definition one_packet : packet :=
  Packet (send_meta 0 SendTypeToOne 3 (be32 7) [] [104; 105]) (be32 7) [] [104; 105].
Definition one_state : Message * world :=
  match NewSendMessage 0 SendTypeToOne 3 (be32 7) [] [104; 105] (world_init []) with
  | Ret x => x
  | Panics _ => (zeroMessage, world_init [])
  end.

Lemma one_state_built : built (world_init []) one_state.2 one_state.1 one_packet.
Proof.
  unfold one_state.
  destruct (NewSendMessage_run 0 SendTypeToOne 3 (be32 7) [] [104; 105] (world_init []))
    as (msg & w & -> & Hb); [apply world_init_ok|done].
Qed.

Lemma one_packet_ok : packet_ok one_packet.
Proof. repeat split; vm_compute; done. Qed.

Lemma send_recv_roundtrip_witness :
  ∃ msg w1 w2 msg' w3,
    NewSendMessage 0 SendTypeToDest 0 (be32 7) (be32 9 ++ be32 5) [104; 105] (world_init [])
      = Ret (msg, w1) ∧
    Encode msg w1 = Ret (buf msg, w2) ∧
    NewMessageFromBytes 3 (wread w2 (buf msg)) 0 w2 = Ret (inr msg', w3) ∧
    shows w3 msg' (Packet (mkMeta 2 15 2 1 2) (be32 3 ++ be32 7) (be32 5) [104; 105]).
Proof.
  apply (send_recv_roundtrip (world_init []) 3 0 0 SendTypeToDest 0 (be32 7) (be32 9 ++ be32 5)
    [104; 105] 1 2); try (done || lia).
  - apply world_init_ok.
  - by left.
Defined.

Lemma stream_framing_witness :
  ∃ msgs w' r', recv_n 2 3 16 (world_init [], Stream [ztake 5 (wire hi_packet);
      zdrop 5 (wire hi_packet) ++ ztake 1 (wire one_packet); zdrop 1 (wire one_packet)] EOF false)
      = Ret (inr <$> msgs, (w', r')) ∧
    Forall2 (shows w') msgs [hop 3 hi_packet; hop 3 one_packet] ∧ pending r' = [].
Proof.
  apply (stream_framing [hi_packet; one_packet] 3 16 (world_init [])).
  - apply world_init_ok.
  - constructor; [|constructor; [|constructor]]; split_and!.
    + apply hi_packet_ok.
    + apply hi_receivable.
    + right. vm_compute. done.
    + apply one_packet_ok.
    + refine (bool_decide_unpack _ _). vm_compute. exact I.
    + right. vm_compute. done.
  - vm_compute. reflexivity.
Defined.

Lemma from_bytes_total_witness :
  ∃ res w', NewMessageFromBytes 3 (wire hi_packet ++ [0]) 0 (world_init []) = Ret (res, w') ∧
    res = inl ErrBadMsg.
Proof.
  destruct (from_bytes_total 3 (wire hi_packet ++ [0]) 0 (world_init [])) as (res & w' & H1 & _ & H2).
  - apply world_init_ok.
  - refine (bool_decide_unpack _ _). vm_compute. exact I.
  - intros m Hm. vm_compute in Hm. injection Hm as <-.
    refine (bool_decide_unpack _ _). vm_compute. exact I.
  - exists res, w'. split; [exact H1|]. vm_compute in H2. exact H2.
Defined.

Lemma from_bytes_remote_panic_witness :
  NewMessageFromBytes 3 [0; 16; 255; 1; 0; 0; 0; 0] 0 (world_init []) = Panics PanicBounds.
Proof.
  apply (from_bytes_remote_panic 3 (mkMeta 0 16 255 1 0) [] 0 (world_init [])).
  - apply world_init_ok.
  - repeat split; vm_compute; done.
  - reflexivity.
  - reflexivity.
  - left. reflexivity.
Defined.

Lemma from_msg_agrees_witness :
  ∃ msg w1, NewMessageFromMsg 3 one_state.1 0 one_state.2 = Ret (inr msg, w1) ∧
    shows w1 msg (hop 3 one_packet).
Proof.
  destruct (from_msg_agrees 3 one_packet 0 one_state.2 one_state.1) as (msg & w1 & H1 & H2 & _).
  - apply one_state_built.
  - apply one_packet_ok.
  - refine (bool_decide_unpack _ _). vm_compute. exact I.
  - by left.
  - apply one_state_built.
  - reflexivity.
  - exists msg, w1. exact (conj H1 H2).
Defined.

Lemma zeros_eq (l : list Z) : Forall (eq 0) l → l = replicate (Z.to_nat (zlen l)) 0.
Proof.
  unfold zlen. rewrite Nat2Z.id. induction 1 as [|x l <- _ IH]; cbn; [done|]. by f_equal.
Qed.

Lemma from_msg_loses_destination_witness :
  ∃ msg w1, NewMessageFromMsg 3 hi_state.1 0 hi_state.2 = Ret (inr msg, w1) ∧
    wread w1 (Destination msg) = [0; 0; 0; 0] ∧ pdst (hop 3 hi_packet) = [0; 0; 0; 5].
Proof.
  destruct (from_msg_loses_destination 3 hi_packet 0 hi_state.2 hi_state.1)
    as (msg & w1 & H1 & _ & H2 & H3 & _).
  - apply hi_state_built.
  - apply hi_packet_ok.
  - apply hi_receivable.
  - by left.
  - apply hi_state_built.
  - vm_compute. reflexivity.
  - exists msg, w1. split_and!; [exact H1| |vm_compute; reflexivity].
    rewrite (zeros_eq _ H2), H3. vm_compute. reflexivity.
Defined.

Lemma dup_independent_witness :
  ∃ dup w1, Dup hi_state.1 hi_state.2 = Ret (dup, w1) ∧ shows w1 dup hi_packet ∧
    ∃ w2, Message_FreeAll hi_state.1 w1 = Ret ((), w2) ∧ shows w2 dup hi_packet.
Proof.
  destruct (dup_independent hi_state.2 hi_state.1 hi_packet) as (dup & w1 & H1 & _ & H2 & H3 & _).
  - apply hi_state_built.
  - apply hi_packet_ok.
  - apply hi_state_built.
  - exists dup, w1. exact (conj H1 (conj H2 H3)).
Defined.
