(* ===== verification/IdGen.v ===== *)
(** utils/id.go: the generator of recyclable 31-bit ids that numbers the pipes.

    The endless loop of [NextID] is a fixpoint on fuel that answers [None] when the fuel
    runs out; the generator's lock makes a call one step.  [size (ids g) + 2] rounds are
    enough whenever an id is free, and no number of rounds is enough when none is. *)
From S2P Require Import Prelude.
From stdpp Require Import base tactics numbers list gmap sets.
From Stdlib Require Import ZArith Lia.
Open Scope Z_scope.

Record RecyclableIDGenerator := IDGen { ids : gset Z; next : Z }.

Definition NewRecyclableIDGenerator : RecyclableIDGenerator := IDGen ∅ 0.

Fixpoint NextID_loop (fuel : nat) (g : RecyclableIDGenerator) : option (Z * RecyclableIDGenerator) :=
  match fuel with
  | O => None
  | S fuel =>
      let id := Z.land (next g) 0x7fffffff in
      let g' := IDGen (ids g) (u32 (next g + 1)) in
      if id =? 0 then NextID_loop fuel g'
      else if decide (id ∈ ids g) then NextID_loop fuel g'
      else Some (id, IDGen ({[id]} ∪ ids g) (next g'))
  end.

Definition NextID (g : RecyclableIDGenerator) : option (Z * RecyclableIDGenerator) :=
  NextID_loop (size (ids g) + 2) g.

Definition Recycle (id : Z) (g : RecyclableIDGenerator) : RecyclableIDGenerator :=
  IDGen (ids g ∖ {[id]}) (next g).

(** ** Invariant *)

Definition id_ok (id : Z) : Prop := 1 ≤ id < 2 ^ 31.

Record gen_ok (g : RecyclableIDGenerator) : Prop := {
  go_ids : ∀ id, id ∈ ids g → id_ok id;
  go_next : is_u32 (next g) }.

Lemma NewRecyclableIDGenerator_ok : gen_ok NewRecyclableIDGenerator.
Proof. split; [set_solver|done]. Qed.

Lemma Recycle_ok id g : gen_ok g → gen_ok (Recycle id g).
Proof. intros [H1 H2]. split; [|done]. cbn. set_solver. Qed.
#[export] Hint Resolve NewRecyclableIDGenerator_ok Recycle_ok : go.

(** ** The ids the loop tries *)

Definition candidate (n k : Z) : Z := (n + k) mod 2 ^ 31.

Lemma candidate_land n : Z.land n 0x7fffffff = candidate n 0.
Proof. unfold candidate. rewrite Z.add_0_r. apply (land_mask 31). lia. Qed.

Lemma candidate_step n k : candidate (u32 (n + 1)) k = candidate n (k + 1).
Proof.
  unfold candidate, u32. change 4294967296 with (2 ^ 31 * 2). change (2 ^ 31) with 2147483648. mlia.
Qed.

Lemma candidate_inj n j k :
  0 ≤ j < 2 ^ 31 → 0 ≤ k < 2 ^ 31 → candidate n j = candidate n k → j = k.
Proof. unfold candidate. change (2 ^ 31) with 2147483648. mlia. Qed.

Lemma candidate_id n k : candidate n k ≠ 0 → id_ok (candidate n k).
Proof. unfold candidate, id_ok. pose proof (Z.mod_pos_bound (n + k) (2 ^ 31)). lia. Qed.

Definition taken (g : RecyclableIDGenerator) (id : Z) : Prop := id = 0 ∨ id ∈ ids g.
#[global] Instance taken_dec g id : Decision (taken g id).
Proof. unfold taken. apply _. Defined.

(** One round of the loop, and [k] rounds on ids that are taken. *)
Lemma NextID_round fuel g :
  NextID_loop (S fuel) g =
    if decide (taken g (candidate (next g) 0)) then NextID_loop fuel (IDGen (ids g) (u32 (next g + 1)))
    else Some (candidate (next g) 0, IDGen ({[candidate (next g) 0]} ∪ ids g) (u32 (next g + 1))).
Proof.
  cbn [NextID_loop]. rewrite candidate_land. unfold taken.
  destruct (Z.eqb_spec (candidate (next g) 0) 0) as [E|E].
  { rewrite decide_True by (by left). done. }
  destruct (decide (candidate (next g) 0 ∈ ids g)).
  - rewrite decide_True by (by right). done.
  - rewrite decide_False by (intros [?|?]; done). done.
Qed.

(** The loop stops at the first id that is not taken. *)
Lemma NextID_find k g fuel :
  (∀ j, (j < k)%nat → taken g (candidate (next g) (Z.of_nat j))) →
  ¬ taken g (candidate (next g) (Z.of_nat k)) → (k < fuel)%nat →
  NextID_loop fuel g = Some (candidate (next g) (Z.of_nat k),
    IDGen ({[candidate (next g) (Z.of_nat k)]} ∪ ids g) (u32 (next g + Z.of_nat k + 1))).
Proof.
  revert g fuel. induction k as [|k IH]; intros g [|fuel] Hj Hk Hf; try lia; rewrite NextID_round.
  { rewrite decide_False by done. by rewrite Z.add_0_r. }
  rewrite decide_True by (apply (Hj 0%nat); lia).
  assert (∀ j, candidate (u32 (next g + 1)) (Z.of_nat j) = candidate (next g) (Z.of_nat (S j))) as Hc.
  { intros j. rewrite candidate_step. f_equal. lia. }
  rewrite IH; cbn [ids next]; [|intros j Hjk; rewrite Hc; apply Hj; lia|by rewrite Hc|lia].
  rewrite !Hc. do 3 f_equal. unfold u32. mlia.
Qed.

Lemma NextID_all_taken g fuel :
  (∀ j, taken g (candidate (next g) j)) → NextID_loop fuel g = None.
Proof.
  revert g. induction fuel as [|fuel IH]; intros g Hj; [done|].
  rewrite NextID_round, decide_True by apply Hj. apply IH. intros j. cbn [next].
  rewrite candidate_step. apply Hj.
Qed.

(** Among [size (ids g) + 2] successive candidates one is free. *)
Lemma free_candidate g :
  Z.of_nat (size (ids g)) < 2 ^ 31 - 1 →
  ∃ k, (k < size (ids g) + 2)%nat ∧ ¬ taken g (candidate (next g) (Z.of_nat k)) ∧
    ∀ j, (j < k)%nat → taken g (candidate (next g) (Z.of_nat j)).
Proof.
  intros Hs. set (n := (size (ids g) + 2)%nat).
  set (l := (λ k, candidate (next g) (Z.of_nat k)) <$> seq 0 n).
  assert (∀ k y, l !! k = Some y ↔ y = candidate (next g) (Z.of_nat k) ∧ (k < n)%nat) as Hl.
  { intros k y. unfold l. rewrite list_lookup_fmap, fmap_Some. setoid_rewrite lookup_seq. naive_solver lia. }
  destruct (list_find (λ x, ¬ taken g x) l) as [[k x]|] eqn:E.
  - apply list_find_Some in E as (Hk & Hx & Hj). apply Hl in Hk as [-> Hk].
    exists k. split_and!; [done|done|]. intros j Hjk. apply dec_stable.
    eapply Hj; [|done]. apply Hl. split; [done|lia].
  - exfalso. apply list_find_None in E.
    assert (NoDup l) as Hnd.
    { apply NoDup_alt. intros i j x Hi Hj. apply Hl in Hi as [-> Hi], Hj as [Heq Hj].
      apply Nat2Z.inj, (candidate_inj (next g)); lia. }
    assert (list_to_set l ⊆@{gset Z} {[0]} ∪ ids g) as Hsub.
    { intros x Hx%elem_of_list_to_set. rewrite Forall_forall in E. specialize (E x Hx).
      apply dec_stable in E as [->|?]; set_solver. }
    apply subseteq_size in Hsub. rewrite size_list_to_set in Hsub by done.
    assert (length l = n) as Hn by (unfold l; by rewrite length_fmap, length_seq).
    pose proof (size_union_alt {[0]} (ids g)) as Hu. rewrite size_singleton in Hu.
    pose proof (subseteq_size (ids g ∖ {[0]}) (ids g) ltac:(set_solver)). lia.
Qed.

Lemma ids_full g id :
  gen_ok g → Z.of_nat (size (ids g)) = 2 ^ 31 - 1 → id_ok id → id ∈ ids g.
Proof.
  intros [Hg _] Hs Hid. destruct (decide (id ∈ ids g)) as [|Hn]; [done|exfalso].
  (* the ids out of [1, 2^31) that are not [id] are at most 2^31 - 2 *)
  assert (size (ids g) ≤ Z.to_nat (2 ^ 31 - 2))%nat as Hle; [|lia].
  pose proof (subseteq_size (ids g) (list_to_set (seqZ 1 (id - 1) ++ seqZ (id + 1) (2 ^ 31 - id - 1)))) as Hsub.
  rewrite size_list_to_set, length_app, !length_seqZ in Hsub.
  - etrans; [apply Hsub|unfold id_ok in *; lia].
    intros x Hx. apply elem_of_list_to_set. rewrite elem_of_app, !elem_of_seqZ.
    specialize (Hg x Hx). assert (x ≠ id) by congruence. unfold id_ok in *. lia.
  - apply NoDup_app. split_and!; [apply NoDup_seqZ| |apply NoDup_seqZ].
    intros x. rewrite !elem_of_seqZ. lia.
Qed.

(** What the clients of the generator rely on. *)
Lemma NextID_run g :
  gen_ok g → Z.of_nat (size (ids g)) < 2 ^ 31 - 1 →
  ∃ id g', NextID g = Some (id, g') ∧ id_ok id ∧ (id ∉ ids g) ∧ ids g' = {[id]} ∪ ids g ∧ gen_ok g'.
Proof.
  intros Hg Hs. destruct (free_candidate g Hs) as (k & Hk & Hfree & Hj).
  assert (id_ok (candidate (next g) (Z.of_nat k))) as Hid.
  { apply candidate_id. intros E. apply Hfree. by left. }
  eexists _, _. split; [by apply NextID_find|]. split_and!; [done| |done|].
  - intros E. apply Hfree. by right.
  - split; cbn; [|apply u32_bound]. intros x [->%elem_of_singleton|Hx]%elem_of_union; [done|].
    by apply Hg.
Qed.

(** C33: [NextID] terminates whenever an id is free, and returns the first free one: with any
    fuel from [size (ids g) + 2] on it answers the same id, a non-zero 31-bit number that
    was not out, the first one free in the cyclic order from [next] on; it marks exactly
    this id as out and keeps the invariant. *)
Theorem next_id_first_free g :
  gen_ok g → Z.of_nat (size (ids g)) < 2 ^ 31 - 1 →
  ∃ id k, (∀ fuel, (size (ids g) + 2 ≤ fuel)%nat →
      NextID_loop fuel g = Some (id, IDGen ({[id]} ∪ ids g) (u32 (next g + k + 1)))) ∧
    NextID g = Some (id, IDGen ({[id]} ∪ ids g) (u32 (next g + k + 1))) ∧
    id_ok id ∧ (id ∉ ids g) ∧ id = candidate (next g) k ∧
    (∀ j, 0 ≤ j < k → taken g (candidate (next g) j)) ∧
    gen_ok (IDGen ({[id]} ∪ ids g) (u32 (next g + k + 1))).
Proof.
  intros Hg Hs. destruct (free_candidate g Hs) as (k & Hk & Hfree & Hj).
  assert (id_ok (candidate (next g) (Z.of_nat k))) as Hid.
  { apply candidate_id. intros E. apply Hfree. by left. }
  exists (candidate (next g) (Z.of_nat k)), (Z.of_nat k).
  split_and!; [|apply NextID_find; done|done| |done| |].
  - intros fuel Hf. apply NextID_find; [done|done|lia].
  - intros E. apply Hfree. by right.
  - intros j Hjk. rewrite <- (Z2Nat.id j) by lia. apply Hj. lia.
  - split; cbn; [|apply u32_bound]. intros x [->%elem_of_singleton|Hx]%elem_of_union; [done|].
    by apply Hg.
Qed.

(** When all [2^31 - 1] ids are out the loop of [NextID] never ends, whatever the fuel,
    while the caller holds the generator's lock. *)
Theorem next_id_exhausted g fuel :
  gen_ok g → Z.of_nat (size (ids g)) = 2 ^ 31 - 1 → NextID_loop fuel g = None.
Proof.
  intros Hg Hs. apply NextID_all_taken. intros j. unfold taken.
  destruct (decide (candidate (next g) j = 0)) as [->|Hne]; [by left|right].
  apply ids_full; [done|done|]. by apply candidate_id.
Qed.

(** ** Concrete instances *)

(** At the wrap-around of [next], with the ids 1 and [2^31 - 1] out. *)
Definition wrap_gen : RecyclableIDGenerator := IDGen {[2147483647; 1]} 4294967295.

Lemma next_id_first_free_witness :
  ∃ g', NextID wrap_gen = Some (2, g') ∧ 2 ∈ ids g' ∧ gen_ok g'.
Proof.
  destruct (next_id_first_free wrap_gen) as (id & k & _ & H & _ & _ & _ & _ & Hg).
  - split; [unfold wrap_gen; set_unfold; unfold id_ok; lia|done].
  - vm_compute. reflexivity.
  - assert (id = 2) as ->.
    { assert (fst <$> NextID wrap_gen = Some 2) as E by (vm_compute; reflexivity).
      rewrite H in E. by injection E. }
    eexists. split_and!; [exact H| |exact Hg]. set_solver.
Defined.

(** The generator with the ids [1 .. n] out. *)
Definition first_ids (n : Z) : RecyclableIDGenerator := IDGen (list_to_set (seqZ 1 n)) 5.

Lemma first_ids_size n : 0 ≤ n → Z.of_nat (size (ids (first_ids n))) = n.
Proof.
  intros Hn. unfold first_ids, ids. rewrite size_list_to_set by apply NoDup_seqZ.
  rewrite length_seqZ. lia.
Qed.

Lemma first_ids_ok n : n < 2 ^ 31 → gen_ok (first_ids n).
Proof.
  intros Hn. split; [|done]. intros id Hid. unfold first_ids, ids in Hid.
  apply elem_of_list_to_set, elem_of_seqZ in Hid. unfold id_ok. lia.
Qed.

Lemma next_id_exhausted_witness : NextID_loop 1000 (first_ids (2 ^ 31 - 1)) = None.
Proof.
  apply (next_id_exhausted (first_ids (2 ^ 31 - 1)) 1000).
  - apply first_ids_ok. lia.
  - apply first_ids_size. lia.
Defined.
