(* ===== verification/Timer.v ===== *)
(** utils/time.go: the re-armable timer the sockets use for their stop timeouts.

    A [time.Timer] of the standard library is armed or not, and its channel holds at most
    one tick; when it fires while the channel is full the tick is lost.  A tick is
    labelled with the number of the arming that caused it, so that "a stale tick" can be
    said.  [Timer] is the wrapper: [C] is the channel the users select on, absent before
    the first [Reset] and after [Stop]. *)
From S2P Require Import Prelude.
From stdpp Require Import base tactics numbers list relations.
From Stdlib Require Import ZArith Lia.

Record time_Timer := TimeTimer { armed : option nat; chan : option nat }.

(** [Stop] of the standard library: was it armed? The channel is not drained. *)
Definition time_Stop (t : time_Timer) : bool * time_Timer :=
  (match armed t with Some _ => true | None => false end, TimeTimer None (chan t)).
Definition time_Reset (g : nat) (t : time_Timer) : time_Timer := TimeTimer (Some g) (chan t).
Definition time_fire (t : time_Timer) : time_Timer :=
  match armed t with
  | Some g => TimeTimer None (match chan t with Some g' => Some g' | None => Some g end)
  | None => t
  end.

Record Timer := mkTimer { C : bool; tm : option time_Timer; arms : nat }.

Definition NewTimer : Timer := mkTimer false None 0.

(** [stop] *)
Definition stop (t : time_Timer) : time_Timer :=
  let '(active, t') := time_Stop t in
  if active then t' else TimeTimer (armed t') None.

Definition Stop (t : Timer) : Timer :=
  match tm t with
  | None => t
  | Some x => mkTimer false (Some (stop x)) (arms t)
  end.

Definition Reset (t : Timer) : Timer :=
  let g := S (arms t) in
  match tm t with
  | None => mkTimer true (Some (TimeTimer (Some g) None)) g
  | Some x => mkTimer true (Some (time_Reset g (stop x))) g
  end.

Definition NewTimerWithDuration : Timer := Reset NewTimer.

(** ** Runs: calls of the owner, firings, and receives from [C] *)

Inductive timer_step : Timer → option nat → Timer → Prop :=
  | step_Stop t : timer_step t None (Stop t)
  | step_Reset t : timer_step t None (Reset t)
  | step_fire t x : tm t = Some x →
      timer_step t None (mkTimer (C t) (Some (time_fire x)) (arms t))
  | step_recv t a g : C t = true → tm t = Some (TimeTimer a (Some g)) →
      timer_step t (Some g) (mkTimer true (Some (TimeTimer a None)) (arms t)).

Inductive timer_reach : Timer → Prop :=
  | reach_new : timer_reach NewTimer
  | reach_step t l t' : timer_reach t → timer_step t l t' → timer_reach t'.

(** The timer never has a tick waiting while it is armed, and both the arming and a
    waiting tick are of the last [Reset]. *)
Definition timer_ok (t : Timer) : Prop :=
  match tm t with
  | None => C t = false
  | Some x =>
      match armed x, chan x with
      | Some g, None | None, Some g => g = arms t ∧ C t = true
      | None, None => True
      | Some _, Some _ => False
      end
  end.

Lemma timer_step_ok t l t' : timer_ok t → timer_step t l t' → timer_ok t'.
Proof.
  unfold timer_ok. intros Hok Hst. destruct Hst as [t|t|t x Hx|t a g Hc Hx];
    unfold Stop, Reset, stop, time_Stop, time_fire in *; try rewrite Hx in *; cbn in *.
  - destruct (tm t) as [[[] []]|] eqn:E; cbn; rewrite ?E; done.
  - destruct (tm t) as [[[] []]|]; cbn; done.
  - destruct x as [[] []]; cbn in *; done.
  - destruct a; done.
Qed.

Lemma timer_reach_ok t : timer_reach t → timer_ok t.
Proof. induction 1; [done|]. by eapply timer_step_ok. Qed.


