(* ===== verification/AutoFlush.v ===== *)
(** utils/bufio.go: a buffered writer that a timer flushes.

    The writer underneath is the interface [Writer]; over it bufio.Writer of the standard library,
    with [Flush] in two halves, before and after the call of the writer below it.  The timer
    of time.AfterFunc is armed or not; when it fires it starts a goroutine that flushes.  It
    has no channel ([C] is nil), so the select of [Write] does nothing.  [astep] lets writes,
    firings and the goroutines interleave with each flush in one piece; the two halves let a
    write in between. *)
From S2P Require Import Prelude Errs.
From stdpp Require Import base tactics numbers list relations.
From Stdlib Require Import ZArith Lia.
Open Scope Z_scope.

(** io.Writer: the count and the error. *)
Class Writer (W : Type) := {
  wr_Write : list Z → W → Z * option err * W;
  written : W → list Z }.

(** What the documentation of io.Writer promises. *)
Class WriterOk (W : Type) `{!Writer W} : Prop :=
  wr_ok p w n e w' : wr_Write p w = (n, e, w') →
    0 ≤ n ≤ zlen p ∧ written w' = written w ++ ztake n p ∧ (e = None → n = zlen p).

(** [bufio.Writer]: the bytes [buf[0:n]], the error that sticks, and [len(buf)] *)
Record bwriter (W : Type) := BW { wr : W; buf : list Z; werr : option err; size : Z }.
Arguments BW {W} wr buf werr size.
Arguments wr {W} b : rename.
Arguments buf {W} b : rename.
Arguments werr {W} b : rename.
Arguments size {W} b : rename.

Section bufio.
Context {W : Type} `{!Writer W}.
Implicit Type b : bwriter W.

(** [bufio.NewWriterSize(w, n)] *)
Definition NewWriterSize (w : W) (n : Z) : bwriter W := BW w [] None (if n <=? 0 then 4096 else n).

(** The call of the writer in [Flush]. *)
Definition flush_call b : Z * option err * bwriter W :=
  let '(k, e, w) := wr_Write (buf b) (wr b) in (k, e, BW w (buf b) (werr b) (size b)).

(** The rest of [Flush], when [k] bytes were written: [k < b.n] is a short write. *)
Definition flush_return (k : Z) (e : option err) b : option err * bwriter W :=
  match (if (k <? zlen (buf b)) && bool_decide (e = None) then Some ErrShortWrite else e) with
  | Some e => (Some e, BW (wr b) (zdrop k (buf b)) (Some e) (size b))
  | None => (None, BW (wr b) [] (werr b) (size b))
  end.

Definition Flush b : option err * bwriter W :=
  match werr b with
  | Some e => (Some e, b)
  | None => if zlen (buf b) =? 0 then (None, b) else let '(k, e, b) := flush_call b in flush_return k e b
  end.

Definition Available b : Z := size b - zlen (buf b).

(** The loop of [bufio.Writer.Write]; [nn] bytes are done. *)
Fixpoint Write_rounds (fuel : nat) (p : list Z) (nn : Z) b : option (list Z * Z * bwriter W) :=
  if (zlen p <=? Available b) || bool_decide (werr b ≠ None) then Some (p, nn, b) else
  match fuel with
  | O => None
  | S fuel =>
      if zlen (buf b) =? 0 then
        let '(n, e, w) := wr_Write p (wr b) in
        Write_rounds fuel (zdrop n p) (nn + n) (BW w (buf b) e (size b))
      else
        let n := Available b in
        Write_rounds fuel (zdrop n p) (nn + n) (Flush (BW (wr b) (buf b ++ ztake n p) (werr b) (size b))).2
  end.

(** Two rounds are enough for a writer that keeps the contract ([Write_spec]). *)
Definition bufio_Write (p : list Z) b : option (Z * option err * bwriter W) :=
  match Write_rounds 2 p 0 b with
  | None => None
  | Some (p, nn, b) =>
      match werr b with
      | Some e => Some (nn, Some e, b)
      | None => Some (nn + zlen p, None, BW (wr b) (buf b ++ p) None (size b))
      end
  end.

(** ** AutoFlushBufferWriter *)

(** [bw] is the embedded writer; [armed] the timer; [fired] counts the goroutines the timer has
    started and that have not flushed yet. *)
Record AutoFlushBufferWriter := Auto { bw : bwriter W; armed : option Z; period : Z; fired : nat }.

(** Durations in nanoseconds *)
Definition defaultFlushPeriod : Z := 10 * 1000000.

Definition NewAutoFlushBufferWriterWithPeriod b (period : Z) : AutoFlushBufferWriter :=
  Auto b (Some (1024 * 3600 * 1000000000)) period 0.
Definition NewAutoFlushBufferWriter b (period : Z) : AutoFlushBufferWriter :=
  NewAutoFlushBufferWriterWithPeriod b defaultFlushPeriod.

Definition Write (p : list Z) (x : AutoFlushBufferWriter) : option (Z * option err * AutoFlushBufferWriter) :=
  match bufio_Write p (bw x) with
  | None => None
  | Some (n, err, b) => Some (n, err, Auto b (Some (period x)) (period x) (fired x))
  end.

(** The writes so far, with what they answered, and the state. *)
Definition history : Type := list (list Z * Z * option err) * AutoFlushBufferWriter.

Inductive astep : history → history → Prop :=
  | as_write l x p n e x' : Write p x = Some (n, e, x') → astep (l, x) (l ++ [(p, n, e)], x')
  | as_fire l x d : armed x = Some d → astep (l, x) (l, Auto (bw x) None (period x) (S (fired x)))
  | as_flush l x k : fired x = S k → astep (l, x) (l, Auto (Flush (bw x)).2 (armed x) (period x) k).
End bufio.
Arguments AutoFlushBufferWriter W : clear implicits.
Arguments history W : clear implicits.

(** ** The buffered writer *)

Section laws.
Context {W : Type} `{!Writer W, !WriterOk W}.
Implicit Type b : bwriter W.

Definition total b : list Z := written (wr b) ++ buf b.

(** The buffer fits, and is not empty of room. *)
Definition fits b : Prop := 0 < size b ∧ zlen (buf b) ≤ size b.

Lemma Flush_spec b : fits b →
  let '(e, b') := Flush b in
  total b' = total b ∧ fits b' ∧ size b' = size b ∧ werr b' = e ∧
  (e = None → buf b' = []) ∧ (werr b ≠ None → b' = b).
Proof.
  intros [Hs Hb]. unfold Flush. destruct (werr b) as [e|] eqn:Ee; [done|].
  destruct (Z.eqb_spec (zlen (buf b)) 0) as [E|E].
  { apply zlen_0 in E. rewrite E. done. }
  unfold flush_call. destruct (wr_Write (buf b) (wr b)) as [[k e] w] eqn:Ew.
  destruct (wr_ok _ _ _ _ _ Ew) as (Hk & Hw & He). unfold flush_return, total, fits. cbn.
  destruct ((k <? zlen (buf b)) && bool_decide (e = None)) eqn:Ec.
  { apply andb_prop in Ec as [Hlt%Z.ltb_lt Hn%bool_decide_eq_true]. specialize (He Hn). lia. }
  destruct e as [e|]; cbn.
  - rewrite Hw, <- app_assoc, ztake_zdrop, zlen_drop by done. repeat split; done || lia.
  - rewrite Hw, (He eq_refl), ztake_all, app_nil_r, Ee. autorewrite with zlist. repeat split; done || lia.
Qed.
Lemma ztake_add n m (l : list Z) : 0 ≤ n → 0 ≤ m → ztake (n + m) l = ztake n l ++ ztake m (zdrop n l).
Proof. intros. unfold ztake, zdrop. rewrite Z2Nat.inj_add by done. by rewrite take_take_drop. Qed.

(** From [p] on [b] the loop has come to [p'] on [b'] with [k] bytes done. *)
Definition rounds_to (p : list Z) b (k : Z) (p' : list Z) b' : Prop :=
  0 ≤ k ≤ zlen p ∧ p' = zdrop k p ∧ total b' = total b ++ ztake k p ∧ fits b' ∧ size b' = size b ∧
  (werr b' = None → zlen p' ≤ Available b') ∧ (werr b ≠ None → k = 0 ∧ b' = b).

Lemma rounds_stop f p nn b : fits b → zlen p ≤ Available b ∨ werr b ≠ None →
  Write_rounds f p nn b = Some (p, nn, b) ∧ rounds_to p b 0 p b.
Proof.
  intros Hf H. split.
  - destruct f; cbn; by destruct H as [H%Z.leb_le|H%(bool_decide_eq_true_2 _)]; rewrite H, ?orb_true_r.
  - unfold rounds_to. rewrite zdrop_0, ztake_0, app_nil_r. pose proof (zlen_nonneg p). repeat split; try done; try lia; try tauto.
    all: destruct Hf; done.
Qed.

(** With an empty buffer one round is enough. *)
Lemma rounds_direct f p nn b : fits b → buf b = [] →
  ∃ k p' b', Write_rounds (S f) p nn b = Some (p', nn + k, b') ∧ rounds_to p b k p' b'.
Proof.
  intros Hf Hb. destruct (decide (zlen p ≤ Available b ∨ werr b ≠ None)) as [H|H].
  { exists 0, p, b. rewrite Z.add_0_r. by apply rounds_stop. }
  assert (Ha : (zlen p <=? Available b) || bool_decide (werr b ≠ None) = false).
  { apply orb_false_iff. split; [apply Z.leb_gt; lia|apply bool_decide_eq_false_2; tauto]. }
  cbn [Write_rounds]. rewrite Ha, Hb. cbn. destruct (wr_Write p (wr b)) as [[n e] w] eqn:Ew.
  destruct (wr_ok _ _ _ _ _ Ew) as (Hn & Hw & He). destruct Hf as [Hs Hl].
  set (b1 := BW w [] e (size b)). assert (Hf1 : fits b1) by (split; [done|cbn; zlia]).
  destruct (rounds_stop f (zdrop n p) (nn + n) b1 Hf1) as [E _].
  { destruct e as [e|]; [by right|left]. rewrite (He eq_refl), zlen_drop by lia. unfold Available. cbn. zlia. }
  exists n, (zdrop n p), b1. split; [done|]. unfold rounds_to, total, b1. cbn. rewrite Hb, Hw, !app_nil_r.
  split_and!; try done; try tauto. intros ->. rewrite (He eq_refl), zlen_drop by lia. unfold Available. cbn. zlia.
Qed.

Lemma Write_rounds_spec p nn b : fits b →
  ∃ k p' b', Write_rounds 2 p nn b = Some (p', nn + k, b') ∧ rounds_to p b k p' b'.
Proof.
  intros Hf. destruct (decide (zlen p ≤ Available b ∨ werr b ≠ None)) as [H|H].
  { exists 0, p, b. rewrite Z.add_0_r. by apply rounds_stop. }
  destruct (decide (buf b = [])) as [Hb|Hb]; [by apply rounds_direct|].
  assert (Hn : werr b = None) by (destruct (werr b); [exfalso; apply H; by right|done]).
  assert (Ha : (zlen p <=? Available b) || bool_decide (werr b ≠ None) = false).
  { rewrite Hn. apply orb_false_iff. split; [apply Z.leb_gt; lia|done]. }
  assert (Hz : (zlen (buf b) =? 0) = false) by (apply Z.eqb_neq; intros E%zlen_0; done).
  destruct Hf as [Hs Hl]. set (n := Available b). assert (0 ≤ n < zlen p) as Hr by (unfold n, Available in *; lia).
  set (b0 := BW (wr b) (buf b ++ ztake n p) (werr b) (size b)).
  assert (Hf0 : fits b0). { split; [done|]. cbn. rewrite zlen_app, zlen_take by lia. unfold n, Available. lia. }
  pose proof (Flush_spec b0 Hf0) as HF. change (Write_rounds 2 p nn b) with
    (if (zlen p <=? Available b) || bool_decide (werr b ≠ None) then Some (p, nn, b) else
     if zlen (buf b) =? 0 then let '(n, e, w) := wr_Write p (wr b) in Write_rounds 1 (zdrop n p) (nn + n) (BW w (buf b) e (size b))
     else Write_rounds 1 (zdrop n p) (nn + n) (Flush b0).2).
  rewrite Ha, Hz. destruct (Flush b0) as [e b1]. cbn [snd]. destruct HF as (Ht & Hf1 & Hs1 & He & Hb1 & _).
  assert (H1 : ∃ k p' b', Write_rounds 1 (zdrop n p) (nn + n) b1 = Some (p', nn + n + k, b') ∧ rounds_to (zdrop n p) b1 k p' b').
  { destruct e as [e|]; [|apply rounds_direct; [done|by apply Hb1]].
    exists 0, (zdrop n p), b1. rewrite Z.add_0_r. apply rounds_stop; [done|]. right. by rewrite He. }
  destruct H1 as (k & p' & b' & E & Hk & -> & Ht1 & Hf' & Hs' & Ha' & _).
  rewrite zlen_drop in Hk by lia. rewrite zdrop_zdrop in * by lia.
  exists (n + k), (zdrop (n + k) p), b'. split; [by rewrite Z.add_assoc|]. unfold rounds_to.
  split_and!; try done; try lia; try (rewrite Hs'; done); try congruence.
  rewrite Ht1, Ht, ztake_add by lia. unfold total. cbn. by rewrite <- !app_assoc.
Qed.

Lemma bufio_Write_spec p b : fits b →
  ∃ n e b', bufio_Write p b = Some (n, e, b') ∧ 0 ≤ n ≤ zlen p ∧ (e = None → n = zlen p) ∧
    total b' = total b ++ ztake n p ∧ fits b' ∧ werr b' = e ∧ (werr b ≠ None → n = 0 ∧ b' = b).
Proof.
  intros Hf. unfold bufio_Write. destruct (Write_rounds_spec p 0 b Hf) as (k & p' & b' & -> & Hk & -> & Ht & Hf' & Hs & Ha & Hn).
  destruct (werr b') as [e|] eqn:Ee.
  - exists k, (Some e), b'. rewrite Z.add_0_l. done.
  - do 3 eexists. split; [done|]. rewrite zlen_drop by lia. specialize (Ha eq_refl). rewrite zlen_drop in Ha by lia.
    split_and!; try lia; try done.
    + unfold total in *. cbn. rewrite app_assoc, Ht, <- app_assoc, ztake_zdrop. f_equal. symmetry. apply ztake_all_eq. lia.
    + destruct Hf' as [? Hl]. split; [done|]. cbn. rewrite zlen_app, zlen_drop by lia. unfold Available in Ha. lia.
    + intros Hw. destruct (Hn Hw) as [-> ->]. congruence.
Qed.
End laws.

(** ** The flushing writer *)

Section auto.
Context {W : Type} `{!Writer W, !WriterOk W}.

(** What the writes took, of the history [l]. *)
Definition taken_of (l : list (list Z * Z * option err)) : list Z := concat ((λ '(p, n, _), ztake n p) <$> l).

(** An answer keeps the contract of io.Writer. *)
Definition answered (r : list Z * Z * option err) : Prop :=
  let '(p, n, e) := r in 0 ≤ n ≤ zlen p ∧ (e = None → n = zlen p).

(** After an error [e] every write answers 0 and [e]. *)
Definition sticks (l : list (list Z * Z * option err)) (e : option err) : Prop :=
  ∀ l1 p n e1 l2, l = l1 ++ (p, n, Some e1) :: l2 → e = Some e1 ∧ Forall (λ r, r.1.2 = 0 ∧ r.2 = Some e1) l2.

Record auto_ok (w0 : W) (d : Z) (h : history W) : Prop := AutoOk {
  ao_fits : fits (bw h.2);
  ao_total : total (bw h.2) = written w0 ++ taken_of h.1;
  ao_answered : Forall answered h.1;
  ao_sticks : sticks h.1 (werr (bw h.2));
  ao_period : period h.2 = d;
  ao_coming : buf (bw h.2) ≠ [] → werr (bw h.2) ≠ None ∨ armed h.2 = Some d ∨ fired h.2 ≠ 0%nat }.

Lemma taken_of_snoc l r : taken_of (l ++ [r]) = taken_of l ++ let '(p, n, _) := r in ztake n p.
Proof. unfold taken_of. rewrite fmap_app, concat_app. cbn. by rewrite app_nil_r. Qed.

Lemma sticks_snoc l p n e e' : sticks l e → (e ≠ None → n = 0 ∧ e' = e) → sticks (l ++ [(p, n, e')]) e'.
Proof.
  intros H He l1 p1 n1 e1 l2 E. destruct l2 as [|r l2 _] using rev_ind.
  - apply app_inj_tail in E as [-> [= -> -> ->]]. done.
  - rewrite app_comm_cons, app_assoc in E. apply app_inj_tail in E as [-> <-].
    destruct (H _ _ _ _ _ eq_refl) as [-> Hl]. destruct He as [-> ->]; [done|]. split; [done|].
    apply Forall_app. by split; [|constructor].
Qed.

Lemma auto_step w0 d h h' : auto_ok w0 d h → astep h h' → auto_ok w0 d h'.
Proof.
  intros [Hf Ht Ha Hs Hp Hc] H. destruct H as [l x p n e x' HW|l x d' Hd|l x k Hk]; cbn in *.
  - unfold Write in HW. destruct (bufio_Write_spec p (bw x) Hf) as (n1 & e1 & b & E & Hn & He & Ht1 & Hf1 & Hw & Hn0).
    rewrite E in HW. injection HW as <- <- <-. split; cbn; try done.
    + fold (taken_of (l ++ [(p, n1, e1)])). by rewrite taken_of_snoc, Ht1, Ht, <- app_assoc.
    + apply Forall_app. by split; [|constructor].
    + rewrite Hw. apply sticks_snoc with (werr (bw x)); [done|]. intros [-> ->]%Hn0. by rewrite <- Hw.
    + right. left. by rewrite Hp.
  - split; cbn; try done. intros Hb. right. by right.
  - pose proof (Flush_spec (bw x) Hf) as HF. destruct (Flush (bw x)) as [e b]. cbn.
    destruct HF as (Ht1 & Hf1 & _ & He & Hb & Hn). split; cbn; try done.
    + by rewrite Ht1.
    + intros l1 p n e1 l2 E. destruct (Hs _ _ _ _ _ E) as [E1 E2]. rewrite Hn, E1 by (by rewrite E1). done.
    + intros Hb'. left. rewrite He. intros ->. by apply Hb', Hb.
Qed.

Lemma auto_new w0 n d : auto_ok w0 d ([], NewAutoFlushBufferWriterWithPeriod (NewWriterSize w0 n) d).
Proof.
  split; try done.
  - unfold fits. cbn. destruct (Z.leb_spec n 0); autorewrite with zlist; lia.
  - intros l1 p m e1 l2 E. by destruct l1.
Qed.

Lemma auto_reached w0 n d h :
  rtc astep ([], NewAutoFlushBufferWriterWithPeriod (NewWriterSize w0 n) d) h → auto_ok w0 d h.
Proof.
  intros H. cut (∀ h0, auto_ok w0 d h0 → rtc astep h0 h → auto_ok w0 d h); [intros Hc; by eapply Hc, H; apply auto_new|].
  clear H. intros h0 H0 H. induction H as [|h0 h1 h2 Hs _ IH]; [done|]. apply IH. by eapply auto_step.
Qed.
End auto.

(** C27: a flushing writer over a writer that keeps the contract of io.Writer, as long as no flush of
    the timer overlaps a write: in every interleaving what is written below and what is
    buffered is what the writes took, in order; every write returns, takes all of its bytes if
    it answers no error, and after an error takes nothing and answers the same error; nothing stays in the
    buffer without an error unless a flush is due within the period or under way; and a flush
    without an error puts everything below. *)
Theorem auto_flush_delivers {W} `{!Writer W, !WriterOk W} (w0 : W) n d l x :
  rtc astep ([], NewAutoFlushBufferWriterWithPeriod (NewWriterSize w0 n) d) (l, x) →
  written (wr (bw x)) ++ buf (bw x) = written w0 ++ taken_of l ∧
  zlen (buf (bw x)) ≤ size (bw x) ∧
  Forall answered l ∧ sticks l (werr (bw x)) ∧
  (∀ p, ∃ k e x', Write p x = Some (k, e, x')) ∧
  (buf (bw x) ≠ [] → werr (bw x) ≠ None ∨ armed x = Some d ∨ fired x ≠ 0%nat) ∧
  ((Flush (bw x)).1 = None → written (wr (Flush (bw x)).2) = written w0 ++ taken_of l ∧ buf (Flush (bw x)).2 = []).
Proof.
  intros H. destruct (auto_reached _ _ _ _ H) as [Hf Ht Ha Hs Hp Hc]. cbn in *. split_and!; try done.
  - by destruct Hf.
  - intros p. unfold Write. destruct (bufio_Write_spec p (bw x) Hf) as (k & e & b & -> & _). by do 3 eexists.
  - intros E. pose proof (Flush_spec (bw x) Hf) as HF. destruct (Flush (bw x)) as [e b]. cbn in *.
    destruct HF as (Ht1 & _ & _ & _ & Hb & _). specialize (Hb E). unfold total in Ht1 at 1.
    rewrite Hb, app_nil_r in Ht1. rewrite Ht1. by rewrite Ht.
Qed.

(** ** A writer that takes everything *)

#[global] Instance sink : Writer (list Z) := {| wr_Write p w := (zlen p, None, w ++ p); written w := w |}.
#[global] Instance sink_ok : WriterOk (list Z).
Proof. intros p w n e w' [= <- <- <-]. rewrite ztake_all. pose proof (zlen_nonneg p). repeat split; done || lia. Qed.

(** The goroutine of the timer does not exclude the writer: a write that only fills the buffer, between
    the two halves of the flush, makes the flush fail with ErrShortWrite though the writer
    below took everything, and all later writes with it. *)
Theorem overlapping_flush_fails (b : bwriter (list Z)) p q : buf b ≠ [] → p ≠ [] → werr b = None → zlen p ≤ Available b →
  let '(k, e, b1) := flush_call b in
  ∃ b2, bufio_Write p b1 = Some (zlen p, None, b2) ∧
    (flush_return k e b2).1 = Some ErrShortWrite ∧
    bufio_Write q (flush_return k e b2).2 = Some (0, Some ErrShortWrite, (flush_return k e b2).2).
Proof.
  destruct b as [w bs e sz]. unfold Available. cbn. intros Hb Hp Hw Ha. unfold bufio_Write at 1. eexists. split.
  { cbn [Write_rounds]. unfold Available. cbn. rewrite (proj2 (Z.leb_le _ _) Ha). cbn. by rewrite Hw. }
  unfold flush_return. cbn. assert (0 < zlen p).
  { pose proof (zlen_nonneg p). assert (zlen p ≠ 0) by (intros E%zlen_0; done). lia. }
  rewrite (proj2 (Z.ltb_lt _ _)) by (rewrite zlen_app; lia). cbn. split; [done|].
  unfold bufio_Write. cbn [Write_rounds werr]. by rewrite orb_true_r.
Qed.

(** Two bytes wait, their flush is under way, and a write fills a buffer of four: the first two are
    written twice and two of the later ones are lost. *)
Lemma overlapping_flush_corrupts :
  let b := BW (W := list Z) [] [1; 2] None 4 in
  let '(k, e, b1) := flush_call b in
  ∃ b2, bufio_Write [3; 4; 5; 6; 7] b1 = Some (5, None, b2) ∧
    wr b2 = [1; 2; 1; 2; 3; 4] ∧ buf b2 = [5; 6; 7] ∧ buf (flush_return k e b2).2 = [7].
Proof. eexists. repeat split. Qed.

Definition demo_auto : AutoFlushBufferWriter (list Z) := NewAutoFlushBufferWriterWithPeriod (NewWriterSize [] 4) 5.

Definition demo_write (p : list Z) (h : history (list Z)) : history (list Z) :=
  match Write p h.2 with Some (n, e, x) => (h.1 ++ [(p, n, e)], x) | None => h end.
Definition demo_run : history (list Z) := demo_write [3; 4; 5; 6; 7] (demo_write [1; 2] ([], demo_auto)).

Lemma demo_run_reached : rtc astep ([], demo_auto) demo_run.
Proof.
  eapply rtc_l; [by apply (as_write [] demo_auto [1; 2])|].
  eapply rtc_l; [|apply rtc_refl]. by apply (as_write [([1; 2], 2, None)] _ [3; 4; 5; 6; 7]).
Qed.

Lemma auto_flush_delivers_witness :
  written (wr (bw demo_run.2)) ++ buf (bw demo_run.2) = [1; 2; 3; 4; 5; 6; 7] ∧ armed demo_run.2 = Some 5.
Proof.
  destruct (auto_flush_delivers [] 4 5 demo_run.1 demo_run.2) as (E & _); [exact demo_run_reached|].
  rewrite E. split; vm_compute; reflexivity.
Defined.

Lemma overlapping_flush_fails_witness :
  bufio_Write [9] (flush_return 2 None (BW [1; 2] [1; 2; 3] None 4)).2 =
    Some (0, Some ErrShortWrite, (flush_return 2 None (BW [1; 2] [1; 2; 3] None 4)).2).
Proof.
  destruct (overlapping_flush_fails (BW [] [1; 2] None 4) [3] [9]) as (b2 & [= <-] & _ & H);
    [done|done|done|by vm_compute|exact H].
Defined.
