(* ===== verification/Options.v ===== *)
(** options/options.go, first part: option values, the kinds of options, their
    validation and their parsers.

    A Go [interface{}] that holds an option value is a [value]: its dynamic type with its
    contents ([int] is 64 bits wide).  An [Option] is a pointer to one of nine structs: its
    identity [optr], its struct [okind] and its [defaultValue].  A [Parse] method returns
    its two results; on failure the error is its text.  [time.ParseDuration] works in
    floating point for fractions; it is an argument of the parser of durations. *)
From S2P Require Import Prelude Errs.
From stdpp Require Import base tactics numbers list countable strings.
From Stdlib Require Import ZArith Lia Ascii String.
Open Scope Z_scope.

Inductive value : Set :=
  | VNil
  | VBool (b : bool)
  | VString (s : string)
  | VDuration (z : Z)
  | VInt (z : Z) | VInt64 (z : Z) | VInt32 (z : Z)
  | VUint8 (z : Z) | VUint16 (z : Z) | VUint32 (z : Z) | VUint64 (z : Z)
  | VOther (n : nat).   (* any other dynamic type *)

Inductive kind : Set :=
  | anyOption | boolOption | stringOption | timeDurationOption | intOption
  | uint8Option | uint16Option | uint32Option | int32Option.

Record Option := mkOption { optr : nat; okind : kind; defaultValue : value }.

#[global] Instance value_eq_dec : EqDecision value.
Proof. solve_decision. Defined.
#[global] Instance kind_eq_dec : EqDecision kind.
Proof. solve_decision. Defined.
#[global] Instance Option_eq_dec : EqDecision Option.
Proof. solve_decision. Defined.

Definition value_code (v : value) : nat * Z * string :=
  match v with
  | VNil => (0, 0%Z, "") | VBool b => (1, Z.b2z b, "") | VString s => (2, 0%Z, s)
  | VDuration z => (3, z, "") | VInt z => (4, z, "") | VInt64 z => (5, z, "")
  | VInt32 z => (6, z, "") | VUint8 z => (7, z, "") | VUint16 z => (8, z, "")
  | VUint32 z => (9, z, "") | VUint64 z => (10, z, "") | VOther n => (11, Z.of_nat n, "")
  end%nat%string.
Definition value_decode (c : nat * Z * string) : value :=
  match c with
  | (0, _, _) => VNil | (1, z, _) => VBool (negb (z =? 0)%Z) | (2, _, s) => VString s
  | (3, z, _) => VDuration z | (4, z, _) => VInt z | (5, z, _) => VInt64 z
  | (6, z, _) => VInt32 z | (7, z, _) => VUint8 z | (8, z, _) => VUint16 z
  | (9, z, _) => VUint32 z | (10, z, _) => VUint64 z | (_, z, _) => VOther (Z.to_nat z)
  end%nat.
#[global] Instance value_countable : Countable value.
Proof.
  apply (inj_countable' value_code value_decode).
  intros []; cbn; try done; [by destruct b|by rewrite Nat2Z.id].
Defined.

Definition kind_code (k : kind) : nat :=
  match k with
  | anyOption => 0 | boolOption => 1 | stringOption => 2 | timeDurationOption => 3
  | intOption => 4 | uint8Option => 5 | uint16Option => 6 | uint32Option => 7 | int32Option => 8
  end%nat.
Definition kind_decode (n : nat) : kind :=
  match n with
  | 0 => anyOption | 1 => boolOption | 2 => stringOption | 3 => timeDurationOption
  | 4 => intOption | 5 => uint8Option | 6 => uint16Option | 7 => uint32Option | _ => int32Option
  end%nat.
#[global] Instance kind_countable : Countable kind.
Proof. apply (inj_countable' kind_code kind_decode). by intros []. Defined.
#[global] Instance Option_countable : Countable Option.
Proof.
  apply (inj_countable' (λ o, (optr o, okind o, defaultValue o)) (λ '(p, k, v), mkOption p k v)).
  by intros [].
Defined.

(** ** Constructors of options: [p] is the address of the new struct *)

Definition NewAnyOption (p : nat) (val : value) : Option := mkOption p anyOption val.
Definition NewBoolOption (p : nat) (val : bool) : Option := mkOption p boolOption (VBool val).
Definition NewStringOption (p : nat) (val : string) : Option := mkOption p stringOption (VString val).
Definition NewTimeDurationOption (p : nat) (name : Z) : Option :=
  mkOption p timeDurationOption (VDuration name).
Definition NewIntOption (p : nat) (val : Z) : Option := mkOption p intOption (VInt val).
Definition NewUint8Option (p : nat) (val : Z) : Option := mkOption p uint8Option (VUint8 val).
Definition NewUint16Option (p : nat) (val : Z) : Option := mkOption p uint16Option (VUint16 val).
Definition NewUint32Option (p : nat) (val : Z) : Option := mkOption p uint32Option (VUint32 val).
Definition NewInt32Option (p : nat) (val : Z) : Option := mkOption p int32Option (VInt32 val).

Definition DefaultValue (o : Option) : value := defaultValue o.

(** ** Validation *)

Definition MaxUint8 : Z := 2 ^ 8 - 1.
Definition MaxUint16 : Z := 2 ^ 16 - 1.
Definition MaxUint32 : Z := 2 ^ 32 - 1.
Definition MaxUint64 : Z := 2 ^ 64 - 1.
Definition MinInt32 : Z := - 2 ^ 31.
Definition MaxInt32 : Z := 2 ^ 31 - 1.
Definition within (lo x hi : Z) : bool := (x >=? lo) && (x <=? hi).

Definition anyOption_Validate (val : value) : err + value := inr val.

Definition boolOption_Validate (val : value) : err + value :=
  match val with VBool _ => inr val | _ => inl ErrInvalidOptionValue end.

Definition stringOption_Validate (val : value) : err + value :=
  match val with VString _ => inr val | _ => inl ErrInvalidOptionValue end.

Definition timeDurationOption_Validate (val : value) : err + value :=
  match val with VDuration _ => inr val | _ => inl ErrInvalidOptionValue end.

Definition intOption_Validate (val : value) : err + value :=
  match val with
  | VInt x => inr (VInt x)
  | VInt64 x => inr (VInt x)
  | _ => inl ErrInvalidOptionValue
  end.

Definition uint8Option_Validate (val : value) : err + value :=
  match val with
  | VUint8 x => inr (VUint8 x)
  | VInt x => if within 0 x MaxUint8 then inr (VUint8 (u8 x)) else inl ErrInvalidOptionValue
  | VUint64 x => if within 0 x MaxUint8 then inr (VUint8 (u8 x)) else inl ErrInvalidOptionValue
  | _ => inl ErrInvalidOptionValue
  end.

Definition uint16Option_Validate (val : value) : err + value :=
  match val with
  | VUint16 x => inr (VUint16 x)
  | VInt x => if within 0 x MaxUint16 then inr (VUint16 (u16 x)) else inl ErrInvalidOptionValue
  | VUint64 x => if within 0 x MaxUint16 then inr (VUint16 (u16 x)) else inl ErrInvalidOptionValue
  | _ => inl ErrInvalidOptionValue
  end.

Definition uint32Option_Validate (val : value) : err + value :=
  match val with
  | VUint32 x => inr (VUint32 x)
  | VInt x => if within 0 x MaxUint32 then inr (VUint32 (u32 x)) else inl ErrInvalidOptionValue
  | VUint64 x => if within 0 x MaxUint64 then inr (VUint32 (u32 x)) else inl ErrInvalidOptionValue
  | _ => inl ErrInvalidOptionValue
  end.

(** The conversion [int32(x)]. *)
Definition s32 (x : Z) : Z := (x + 2 ^ 31) mod 2 ^ 32 - 2 ^ 31.

Definition int32Option_Validate (val : value) : err + value :=
  match val with
  | VInt32 x => inr (VInt32 x)
  | VInt x => if within MinInt32 x MaxInt32 then inr (VInt32 (s32 x)) else inl ErrInvalidOptionValue
  | VInt64 x => if within MinInt32 x MaxInt32 then inr (VInt32 (s32 x)) else inl ErrInvalidOptionValue
  | _ => inl ErrInvalidOptionValue
  end.

(** The method call [opt.Validate(val)]. *)
Definition Validate (o : Option) : value → err + value :=
  match okind o with
  | anyOption => anyOption_Validate
  | boolOption => boolOption_Validate
  | stringOption => stringOption_Validate
  | timeDurationOption => timeDurationOption_Validate
  | intOption => intOption_Validate
  | uint8Option => uint8Option_Validate
  | uint16Option => uint16Option_Validate
  | uint32Option => uint32Option_Validate
  | int32Option => int32Option_Validate
  end.

(** ** Reading a value: the type assertions [val.(T)] *)

Definition boolOption_Value (val : value) : outcome bool :=
  match val with VBool b => Ret b | _ => Panics PanicTypeAssert end.
Definition stringOption_Value (val : value) : outcome string :=
  match val with VString s => Ret s | _ => Panics PanicTypeAssert end.
Definition timeDurationOption_Value (val : value) : outcome Z :=
  match val with VDuration z => Ret z | _ => Panics PanicTypeAssert end.
Definition intOption_Value (val : value) : outcome Z :=
  match val with VInt z => Ret z | _ => Panics PanicTypeAssert end.
Definition uint8Option_Value (val : value) : outcome Z :=
  match val with VUint8 z => Ret z | _ => Panics PanicTypeAssert end.
Definition uint16Option_Value (val : value) : outcome Z :=
  match val with VUint16 z => Ret z | _ => Panics PanicTypeAssert end.
Definition uint32Option_Value (val : value) : outcome Z :=
  match val with VUint32 z => Ret z | _ => Panics PanicTypeAssert end.
Definition int32Option_Value (val : value) : outcome Z :=
  match val with VInt32 z => Ret z | _ => Panics PanicTypeAssert end.

(** ** Parsers *)

Definition digit (c : ascii) : option Z :=
  let n := Z.of_nat (nat_of_ascii c) in
  if within 48 n 57 then Some (n - 48) else None.

(** [strconv.ParseUint(s, 10, bits)]: the value returned beside the error is 0 on a
    syntax error and the maximum on overflow. *)
Inductive num_err := ErrSyntax | ErrRange.

Fixpoint parse_digits (mx n : Z) (s : string) : Z * option num_err :=
  match s with
  | EmptyString => (n, None)
  | String c s =>
      match digit c with
      | None => (0, Some ErrSyntax)
      | Some d => if 10 * n + d >? mx then (mx, Some ErrRange) else parse_digits mx (10 * n + d) s
      end
  end.

Definition ParseUint (bits : Z) (s : string) : Z * option num_err :=
  match s with
  | EmptyString => (0, Some ErrSyntax)
  | _ => parse_digits (2 ^ bits - 1) 0 s
  end.

(** [strconv.ParseInt(s, 10, bits)] *)
Definition ParseInt (bits : Z) (s : string) : Z * option num_err :=
  let '(neg, body) :=
    match s with
    | String "+" s' => (false, s')
    | String "-" s' => (true, s')
    | _ => (false, s)
    end in
  let cutoff := 2 ^ (bits - 1) in
  match ParseUint bits body with
  | (_, Some ErrSyntax) => (0, Some ErrSyntax)
  | (un, _) =>
      if negb neg && (un >=? cutoff) then (cutoff - 1, Some ErrRange)
      else if neg && (un >? cutoff) then (- cutoff, Some ErrRange)
      else (if neg then - un else un, None)
  end.

(** [strings.ToLower], on ASCII strings. *)
Definition lower_ascii (c : ascii) : ascii :=
  let n := Z.of_nat (nat_of_ascii c) in
  if within 65 n 90 then ascii_of_nat (nat_of_ascii c + 32) else c.
Fixpoint ToLower (s : string) : string :=
  match s with EmptyString => EmptyString | String c s => String (lower_ascii c) (ToLower s) end.

(** The text of [fmt.Errorf("%s: %s=>%s", ErrInvalidOptionValue, fullName, s)]. *)
Definition invalid_value (fullName s : string) : string :=
  ("invalid option value: " +:+ fullName +:+ "=>" +:+ s)%string.

Definition anyOption_Parse (s : string) : value * option string := (VString s, None).
Definition stringOption_Parse (s : string) : value * option string := (VString s, None).

Definition boolOption_Parse (fullName : string) (s : string) : value * option string :=
  let s := ToLower s in
  if bool_decide (s ∈ [""; "true"; "t"; "1"]%string) then (VBool true, None)
  else if bool_decide (s ∈ ["false"; "f"; "0"]%string) then (VBool false, None)
  else (VNil, Some (invalid_value fullName s)).

Definition num_result (mk : Z → value) (fullName s : string) (r : Z * option num_err)
  : value * option string :=
  (mk r.1, match r.2 with None => None | Some _ => Some (invalid_value fullName s) end).

Definition intOption_Parse (fullName s : string) : value * option string :=
  num_result VInt64 fullName s (ParseInt 64 s).
Definition uint8Option_Parse (fullName s : string) : value * option string :=
  num_result VUint64 fullName s (ParseUint 8 s).
Definition uint16Option_Parse (fullName s : string) : value * option string :=
  num_result VUint64 fullName s (ParseUint 16 s).
Definition uint32Option_Parse (fullName s : string) : value * option string :=
  num_result VUint64 fullName s (ParseUint 32 s).
Definition int32Option_Parse (fullName s : string) : value * option string :=
  num_result VInt64 fullName s (ParseInt 32 s).

Section duration.
Context (ParseDuration : string → Z * option err).

Definition timeDurationOption_Parse (fullName s : string) : value * option string :=
  let '(d, e) := ParseDuration s in
  (VDuration d, match e with None => None | Some _ => Some (invalid_value fullName s) end).

(** The method call [opt.Parse(s)]; [fullName] is [optionFullNames[opt]]. *)
Definition Parse (o : Option) (fullName s : string) : value * option string :=
  match okind o with
  | anyOption => anyOption_Parse s
  | boolOption => boolOption_Parse fullName s
  | stringOption => stringOption_Parse s
  | timeDurationOption => timeDurationOption_Parse fullName s
  | intOption => intOption_Parse fullName s
  | uint8Option => uint8Option_Parse fullName s
  | uint16Option => uint16Option_Parse fullName s
  | uint32Option => uint32Option_Parse fullName s
  | int32Option => int32Option_Parse fullName s
  end.
End duration.

(** ** Types of values *)

(** The value has the dynamic type its option asserts, within the type's range. *)
Definition has_kind (k : kind) (v : value) : Prop :=
  match k, v with
  | anyOption, _ => True
  | boolOption, VBool _ => True
  | stringOption, VString _ => True
  | timeDurationOption, VDuration z => - 2 ^ 63 ≤ z < 2 ^ 63
  | intOption, VInt z => - 2 ^ 63 ≤ z < 2 ^ 63
  | uint8Option, VUint8 z => 0 ≤ z < 2 ^ 8
  | uint16Option, VUint16 z => 0 ≤ z < 2 ^ 16
  | uint32Option, VUint32 z => 0 ≤ z < 2 ^ 32
  | int32Option, VInt32 z => - 2 ^ 31 ≤ z < 2 ^ 31
  | _, _ => False
  end.

(** The numbers of a value fit its dynamic type, as every Go value's do. *)
Definition in_range (v : value) : Prop :=
  match v with
  | VDuration z | VInt z | VInt64 z => - 2 ^ 63 ≤ z < 2 ^ 63
  | VInt32 z => - 2 ^ 31 ≤ z < 2 ^ 31
  | VUint8 z => 0 ≤ z < 2 ^ 8
  | VUint16 z => 0 ≤ z < 2 ^ 16
  | VUint32 z => 0 ≤ z < 2 ^ 32
  | VUint64 z => 0 ≤ z < 2 ^ 64
  | _ => True
  end.

(** The integer a value denotes. *)
Definition number (v : value) : option Z :=
  match v with
  | VDuration z | VInt z | VInt64 z | VInt32 z
  | VUint8 z | VUint16 z | VUint32 z | VUint64 z => Some z
  | _ => None
  end.

Lemma within_spec lo x hi : reflect (lo ≤ x ≤ hi) (within lo x hi).
Proof. unfold within. apply iff_reflect. rewrite andb_true_iff, Z.geb_le, Z.leb_le. done. Qed.

Lemma s32_small x : - 2 ^ 31 ≤ x < 2 ^ 31 → s32 x = x.
Proof. intros. unfold s32. rewrite Z.mod_small by lia. lia. Qed.

(** Unfold the validation of one kind and split its tests. *)
Ltac validate_cases :=
  repeat match goal with
  | H : context [within ?a ?b ?c] |- _ => destruct (within_spec a b c)
  | |- context [within ?a ?b ?c] => destruct (within_spec a b c)
  end; simplify_eq/=.

Ltac unfold_validate o :=
  unfold Validate in *; destruct (okind o);
  unfold anyOption_Validate, boolOption_Validate, stringOption_Validate, timeDurationOption_Validate,
    intOption_Validate, uint8Option_Validate, uint16Option_Validate, uint32Option_Validate,
    int32Option_Validate in *.

Ltac unfold_limits := unfold MaxUint8, MaxUint16, MaxUint32, MaxUint64, MinInt32, MaxInt32 in *.

Lemma Validate_has_kind o v v' :
  in_range v → Validate o v = inr v' → has_kind (okind o) v'.
Proof.
  intros Hr Hv. unfold_validate o; destruct v; simplify_eq/=; try done;
    validate_cases; try done; unfold u8, u16, u32, s32; try (apply Z.mod_pos_bound; lia).
  all: change (2 ^ 31) with 2147483648; change (2 ^ 32) with 4294967296; mlia.
Qed.

Lemma Validate_in_range o v v' : in_range v → Validate o v = inr v' → in_range v'.
Proof.
  intros Hr Hv. pose proof (Validate_has_kind o v v' Hr Hv) as Hk.
  unfold has_kind in Hk. destruct (okind o) eqn:E; destruct v'; try done.
  all: unfold Validate, anyOption_Validate in Hv; rewrite E in Hv; injection Hv as ->; exact Hr.
Qed.

Lemma Validate_idem o v v' : Validate o v = inr v' → Validate o v' = inr v'.
Proof.
  intros Hv. unfold_validate o; destruct v; simplify_eq/=; try done; validate_cases; done.
Qed.
