(* ===== verification/OptionsThms.v ===== *)
(** Theorems on option values: validation and parsing. *)
From S2P Require Import Prelude Errs Options.
From stdpp Require Import base tactics numbers list sets strings pretty.
From Stdlib Require Import ZArith Lia Ascii String.
Open Scope Z_scope.

(** ** Parsing decimal numerals *)

Lemma digit_pretty x : (x < 10)%N → digit (pretty_N_char x) = Some (Z.of_N x).
Proof.
  intros. assert (x = 0 ∨ x = 1 ∨ x = 2 ∨ x = 3 ∨ x = 4 ∨ x = 5 ∨ x = 6 ∨ x = 7 ∨ x = 8 ∨ x = 9)%N
    as Hx by lia.
  by destruct_or! Hx; subst x.
Qed.

Lemma parse_digits_pretty mx x s :
  Z.of_N x ≤ mx → parse_digits mx 0 (pretty_N_go x s) = parse_digits mx (Z.of_N x) s.
Proof.
  revert s. induction (N.lt_wf_0 x) as [x _ IH]; intros s Hx.
  destruct (decide (0 < x)%N) as [Hp|Hp]; [|assert (x = 0%N) as -> by lia; done].
  rewrite pretty_N_go_step by done. rewrite IH; [|by apply N.div_lt|rewrite N2Z.inj_div; mlia].
  cbn [parse_digits]. rewrite digit_pretty by (apply N.mod_lt; lia).
  rewrite N2Z.inj_div, N2Z.inj_mod. change (Z.of_N 10) with 10.
  rewrite <- Z.div_mod by lia. rewrite Z.gtb_ltb, (proj2 (Z.ltb_ge mx (Z.of_N x))) by done. done.
Qed.

Lemma pretty_N_head (x : N) : ∃ c s d, pretty x = String c s ∧ digit c = Some d.
Proof.
  unfold pretty, pretty_N. destruct (decide (x = 0%N)) as [->|Hx]; [by eexists _, _, _|].
  cut (∀ y s, (∃ c s' d, s = String c s' ∧ digit c = Some d) ∨ (0 < y)%N →
    ∃ c s' d, pretty_N_go y s = String c s' ∧ digit c = Some d).
  { intros H. apply H. right. lia. }
  intros y. induction (N.lt_wf_0 y) as [y _ IH]; intros s Hs.
  destruct (decide (0 < y)%N) as [Hp|Hp].
  - rewrite pretty_N_go_step by done. apply IH; [by apply N.div_lt|]. left.
    eexists _, _, _. split; [done|]. apply digit_pretty, N.mod_lt. done.
  - assert (y = 0%N) as -> by lia. destruct Hs as [?|?]; [done|lia].
Qed.

Lemma ParseUint_pretty bits (x : N) :
  0 ≤ bits → Z.of_N x < 2 ^ bits → ParseUint bits (pretty x) = (Z.of_N x, None).
Proof.
  intros Hb Hx. destruct (pretty_N_head x) as (c & s & d & E & _).
  unfold ParseUint. rewrite E, <- E. unfold pretty, pretty_N.
  destruct (decide (x = 0%N)) as [->|].
  - cbn [parse_digits]. change (digit "0") with (Some 0). cbv iota beta.
    by rewrite Z.gtb_ltb, (proj2 (Z.ltb_ge _ _)) by lia.
  - by rewrite parse_digits_pretty by lia.
Qed.

(** A numeral has no sign in front. *)
Lemma ParseInt_pretty bits (x : N) :
  1 ≤ bits → Z.of_N x < 2 ^ (bits - 1) → ParseInt bits (pretty x) = (Z.of_N x, None).
Proof.
  intros Hb Hx. assert (2 ^ bits = 2 * 2 ^ (bits - 1)) as H2
    by (rewrite <- Z.pow_succ_r by lia; f_equal; lia).
  destruct (pretty_N_head x) as (c & s & d & E & Hd). unfold ParseInt.
  rewrite E. replace (match String c s with
    | String "+" s' => (false, s') | String "-" s' => (true, s') | _ => (false, String c s)
    end) with (false, String c s); cycle 1.
  { destruct c as [[] [] [] [] [] [] [] []]; try done; discriminate Hd. }
  rewrite <- E, ParseUint_pretty by lia. cbn [negb andb].
  rewrite Z.geb_leb, (proj2 (Z.leb_gt _ _)) by done. done.
Qed.

Lemma ParseInt_pretty_neg bits (x : N) :
  1 ≤ bits → Z.of_N x ≤ 2 ^ (bits - 1) →
  ParseInt bits ("-" +:+ pretty x) = (- Z.of_N x, None).
Proof.
  intros Hb Hx. assert (2 ^ bits = 2 * 2 ^ (bits - 1)) as H2
    by (rewrite <- Z.pow_succ_r by lia; f_equal; lia).
  pose proof (Z.pow_pos_nonneg 2 (bits - 1)).
  change ("-" +:+ pretty x)%string with (String "-" (pretty x)). unfold ParseInt.
  cbv beta iota zeta. rewrite ParseUint_pretty by lia. cbn [negb andb].
  rewrite Z.gtb_ltb, (proj2 (Z.ltb_ge _ _)) by done. done.
Qed.

Lemma ParseInt_Z bits (z : Z) :
  1 ≤ bits → - 2 ^ (bits - 1) ≤ z < 2 ^ (bits - 1) → ParseInt bits (pretty z) = (z, None).
Proof.
  intros Hb Hz. destruct z as [|p|p].
  - apply (ParseInt_pretty bits 0); lia.
  - apply (ParseInt_pretty bits (N.pos p)); lia.
  - apply (ParseInt_pretty_neg bits (N.pos p)); lia.
Qed.

Lemma ParseUint_Z bits (z : Z) :
  0 ≤ bits → 0 ≤ z < 2 ^ bits → ParseUint bits (pretty z) = (z, None).
Proof.
  intros Hb Hz. destruct z as [|p|p]; [|apply (ParseUint_pretty bits (N.pos p)); lia|lia].
  apply (ParseUint_pretty bits 0); lia.
Qed.

(** A parsed number fits its type. *)
Lemma parse_digits_range mx n s : 0 ≤ n ≤ mx → 0 ≤ (parse_digits mx n s).1 ≤ mx.
Proof.
  revert n. induction s as [|c s IH]; intros n Hn; cbn [parse_digits]; [done|].
  destruct (digit c) as [d|] eqn:Ed; [|cbn; lia].
  assert (0 ≤ d) by (unfold digit in Ed; destruct (within_spec 48 (Z.of_nat (Ascii.nat_of_ascii c)) 57); [|done];
    injection Ed as <-; lia).
  rewrite Z.gtb_ltb. destruct (Z.ltb_spec mx (10 * n + d)); [cbn; lia|]. apply IH. lia.
Qed.
Lemma ParseUint_range bits s : 0 ≤ bits → 0 ≤ (ParseUint bits s).1 < 2 ^ bits.
Proof.
  intros Hb. pose proof (Z.pow_pos_nonneg 2 bits). unfold ParseUint. destruct s as [|c s]; [cbn; lia|].
  pose proof (parse_digits_range (2 ^ bits - 1) 0 (String c s)). lia.
Qed.
Lemma ParseInt_range bits s : 1 ≤ bits → - 2 ^ (bits - 1) ≤ (ParseInt bits s).1 < 2 ^ (bits - 1).
Proof.
  intros Hb. pose proof (Z.pow_pos_nonneg 2 (bits - 1)). unfold ParseInt.
  set (p := match s with String "+" s' => (false, s') | String "-" s' => (true, s') | _ => (false, s) end).
  destruct p as [neg body]. pose proof (ParseUint_range bits body ltac:(lia)).
  destruct (ParseUint bits body) as [un [[|]|]]; cbn [fst] in *; [lia|..];
    rewrite Z.geb_leb, Z.gtb_ltb; destruct neg; cbn [negb andb];
    destruct (Z.leb_spec (2 ^ (bits - 1)) un), (Z.ltb_spec (2 ^ (bits - 1)) un); cbn [fst]; lia.
Qed.

Lemma Parse_in_range PD o fullName s v e :
  (∀ s, - 2 ^ 63 ≤ (PD s : Z * option err).1 < 2 ^ 63) → Parse PD o fullName s = (v, e) → in_range v.
Proof.
  intros HPD H. unfold Parse in H. destruct (okind o).
  - injection H as <- _. done.
  - unfold boolOption_Parse in H. repeat case_bool_decide; injection H as <- _; done.
  - injection H as <- _. done.
  - unfold timeDurationOption_Parse in H. pose proof (HPD s) as Hs. destruct (PD s) as [d e']. by injection H as <- _.
  - injection H as <- _. apply (ParseInt_range 64). lia.
  - injection H as <- _. cbn. pose proof (ParseUint_range 8 s). lia.
  - injection H as <- _. cbn. pose proof (ParseUint_range 16 s). lia.
  - injection H as <- _. cbn. pose proof (ParseUint_range 32 s). lia.
  - injection H as <- _. cbn. pose proof (ParseInt_range 32 s). lia.
Qed.

(** ** Validation *)


(** [uint32Option.Validate] compares a [uint64] with the wrong maximum: every 64-bit
    value is accepted, and one beyond 32 bits is silently cut to its low 32 bits. *)
Theorem uint32_validate_truncates o x :
  okind o = uint32Option → 0 ≤ x < 2 ^ 64 →
  Validate o (VUint64 x) = inr (VUint32 (x mod 2 ^ 32)).
Proof.
  intros Hk Hx. unfold Validate. rewrite Hk. unfold uint32Option_Validate.
  destruct (within_spec 0 x MaxUint64); [done|]. unfold_limits. lia.
Qed.

(** The options with a decimal parser. *)
Definition numeric (k : kind) : bool :=
  match k with
  | intOption | uint8Option | uint16Option | uint32Option | int32Option => true
  | _ => false
  end.

(** C31: parsing inverts printing for the numeric options: the decimal numeral of any value
    the option can hold is parsed without error, and validating what the parser returns
    gives back exactly that value; so no number is lost between a textual option and the
    option set. *)
Theorem parse_print_roundtrip PD o fullName v z :
  numeric (okind o) = true →
  has_kind (okind o) v → number v = Some z →
  ∃ w, Parse PD o fullName (pretty z) = (w, None) ∧ Validate o w = inr v.
Proof.
  intros Ho Hk Hz. unfold Parse, Validate.
  assert (∀ bits lo, within lo z (2 ^ bits - 1) = true ↔ lo ≤ z < 2 ^ bits) as Hw.
  { intros bits lo. destruct (within_spec lo z (2 ^ bits - 1)); split; intros; done || lia. }
  destruct (okind o); try discriminate Ho; destruct v; try contradiction; unfold has_kind in Hk;
    injection Hz as ->.
  - exists (VInt64 z). unfold intOption_Parse. by rewrite ParseInt_Z by lia.
  - exists (VUint64 z). unfold uint8Option_Parse. rewrite ParseUint_Z by lia. split; [done|].
    cbn. unfold MaxUint8. rewrite (proj2 (Hw 8 0)) by done. unfold u8. by rewrite Z.mod_small.
  - exists (VUint64 z). unfold uint16Option_Parse. rewrite ParseUint_Z by lia. split; [done|].
    cbn. unfold MaxUint16. rewrite (proj2 (Hw 16 0)) by done. unfold u16. by rewrite Z.mod_small.
  - exists (VUint64 z). unfold uint32Option_Parse. rewrite ParseUint_Z by lia. split; [done|].
    cbn. unfold MaxUint64. rewrite (proj2 (Hw 64 0)) by lia. unfold u32. by rewrite Z.mod_small.
  - exists (VInt64 z). unfold int32Option_Parse. rewrite ParseInt_Z by lia. split; [done|].
    cbn. unfold MinInt32, MaxInt32. rewrite (proj2 (Hw 31 (- 2 ^ 31))) by done. by rewrite s32_small.
Qed.

(** ** Concrete instances *)


Lemma uint32_validate_truncates_witness :
  Validate (NewUint32Option 0 131072) (VUint64 4294967297) = inr (VUint32 1).
Proof. apply (uint32_validate_truncates (NewUint32Option 0 131072) 4294967297); [done|lia]. Defined.

Lemma parse_print_roundtrip_witness :
  ∃ w, Parse (λ _, (0, None)) (NewInt32Option 0 0) "" "-2147483648" = (w, None) ∧
    Validate (NewInt32Option 0 0) w = inr (VInt32 (-2147483648)).
Proof.
  apply (parse_print_roundtrip (λ _, (0, None)) (NewInt32Option 0 0) "" (VInt32 (-2147483648))
    (-2147483648)); [done|cbn; lia|done].
Defined.
