(* ===== verification/OptionSet.v ===== *)
(** options/options.go, second part: option sets.

    Option sets refer to each other (sub options, a downstream set) and are shared, so they
    live in a store: [sets] lists every set ever created, a reference is an index.  A hook is
    known to a set by its number; calling hook number [h] is [run_hook h], which may change
    the hooks' own state [env] and the store.  A set can only refer to older sets, so a
    chain of references from [r] has at most [r + 1] sets: [S r] is enough fuel for the
    recursive methods ([None] is "did not return"). *)
From S2P Require Import Prelude Errs Options.
From stdpp Require Import base tactics numbers list gmap sets relations.
From Stdlib Require Import ZArith Lia.

Record options := mkOptions {
  opts : gmap Option value;
  accepts : option (gset Option);
  subOptions : list nat;
  downstream : option nat;
  optionChangeHooks : list nat }.

Abbreviation store := (list options).

(** ** Reading *)

Definition acceptOption (o : options) (opt : Option) : bool :=
  match accepts o with None => true | Some a => bool_decide (opt ∈ a) end.

(** The loop over the sub options: the first hit wins. *)
Fixpoint first_hit {A} (get : A → option (option value)) (l : list A) : option (option value) :=
  match l with
  | [] => Some None
  | x :: l =>
      match get x with
      | Some (Some v) => Some (Some v)
      | Some None => first_hit get l
      | None => None
      end
  end.

Fixpoint GetOption (fuel : nat) (st : store) (r : nat) (opt : Option) : option (option value) :=
  match fuel with
  | O => None
  | S fuel =>
      o ← st !! r;
      if acceptOption o opt then
        match opts o !! opt with
        | Some val => Some (Some val)
        | None => first_hit (λ sub, GetOption fuel st sub opt) (subOptions o)
        end
      else
        match downstream o with
        | Some d => GetOption fuel st d opt
        | None => Some None
        end
  end.

Definition GetOptionDefault (st : store) (r : nat) (opt : Option) : option value :=
  default (DefaultValue opt) <$> GetOption (S r) st r opt.

Definition OptionValues (o : options) : list (Option * value) := map_to_list (opts o).

Definition valueFrom (st : store) (opt : Option) (optss : list nat) : option value :=
  default (DefaultValue opt) <$> first_hit (λ r, GetOption (S r) st r opt) optss.

(** ** Writing *)

Definition with_opts (o : options) (m : gmap Option value) : options :=
  mkOptions m (accepts o) (subOptions o) (downstream o) (optionChangeHooks o).

Section hooks.
Context {H : Type}.

Record state := State { sets : store; env : H }.

Context (run_hook : nat → Option → value → value → state → option err * state).

Fixpoint run_hooks (hs : list nat) (opt : Option) (oldVal val : value) (s : state)
  : option err * state :=
  match hs with
  | [] => (None, s)
  | h :: hs =>
      match run_hook h opt oldVal val s with
      | (Some e, s') => (Some e, s')
      | (None, s') => run_hooks hs opt oldVal val s'
      end
  end.

Definition doSetOption (r : nat) (o : options) (opt : Option) (val : value) (s : state)
  : option err * state :=
  let oldVal := default VNil (opts o !! opt) in
  let s' := State (<[r := with_opts o (<[opt := val]> (opts o))]> (sets s)) (env s) in
  run_hooks (optionChangeHooks o) opt oldVal val s'.

Fixpoint SetOption (fuel : nat) (r : nat) (opt : Option) (val : value) (s : state)
  : option (option err * state) :=
  match fuel with
  | O => None
  | S fuel =>
      match Validate opt val with
      | inl e => Some (Some e, s)
      | inr val =>
          o ← sets s !! r;
          if acceptOption o opt then Some (doSetOption r o opt val s)
          else match downstream o with
               | None => Some (Some ErrUnsupportedOption, s)
               | Some d => SetOption fuel d opt val s
               end
      end
  end.

Fixpoint SetOptionIfNotExists (fuel : nat) (r : nat) (opt : Option) (val : value) (s : state)
  : option (option err * state) :=
  match fuel with
  | O => None
  | S fuel =>
      match Validate opt val with
      | inl e => Some (Some e, s)
      | inr val =>
          o ← sets s !! r;
          if acceptOption o opt then
            match opts o !! opt with
            | Some _ => Some (None, s)
            | None => Some (doSetOption r o opt val s)
            end
          else match downstream o with
               | None => Some (Some ErrUnsupportedOption, s)
               | Some d => SetOptionIfNotExists fuel d opt val s
               end
      end
  end.

Definition AddOptionChangeHook (r : nat) (hook : nat) (s : state) : option state :=
  o ← sets s !! r;
  Some (State (<[r := mkOptions (opts o) (accepts o) (subOptions o) (downstream o)
                        (optionChangeHooks o ++ [hook])]> (sets s)) (env s)).

(** ** Constructors: the new set's reference is the length of the store *)

Definition new_set (o : options) (s : state) : nat * state :=
  (length (sets s), State (sets s ++ [o]) (env s)).

(** [for opt, val := range ovs { opts.SetOption(opt, val) }], errors ignored. *)
Fixpoint set_values (r : nat) (ovs : list (Option * value)) (s : state) : option state :=
  match ovs with
  | [] => Some s
  | (opt, val) :: ovs => '(_, s') ← SetOption (S r) r opt val s; set_values r ovs s'
  end.

Definition NewOptionsWithValuesAndSubs (ovs : list (Option * value)) (subs : list nat) (s : state)
  : option (nat * state) :=
  let '(r, s') := new_set (mkOptions ∅ None subs None []) s in
  s'' ← set_values r ovs s'; Some (r, s'').

Definition NewOptionsWithValues (ovs : list (Option * value)) (s : state) : option (nat * state) :=
  let '(r, s') := new_set (mkOptions ∅ None [] None []) s in
  s'' ← set_values r ovs s'; Some (r, s'').

Definition NewOptions (s : state) : option (nat * state) := NewOptionsWithValues [] s.

Definition NewOptionsWithDownStreamsAndAccepts (down : option nat) (acc : list Option) (s : state)
  : nat * state :=
  new_set (mkOptions ∅ (Some (list_to_set acc)) [] down []) s.

Definition NewOptionsWithAccepts (acc : list Option) (s : state) : nat * state :=
  NewOptionsWithDownStreamsAndAccepts None acc s.
End hooks.
Arguments state H : clear implicits.

(** The typed readers [ValueFrom]. *)
Definition ValueFrom {A} (assert : value → outcome A) (st : store) (opt : Option) (optss : list nat)
  : option (outcome A) := assert <$> valueFrom st opt optss.

Definition anyOption_ValueFrom (st : store) (opt : Option) (optss : list nat) : option value := valueFrom st opt optss.
Definition boolOption_ValueFrom := ValueFrom boolOption_Value.
Definition stringOption_ValueFrom := ValueFrom stringOption_Value.
Definition timeDurationOption_ValueFrom := ValueFrom timeDurationOption_Value.
Definition intOption_ValueFrom := ValueFrom intOption_Value.
Definition uint8Option_ValueFrom := ValueFrom uint8Option_Value.
Definition uint16Option_ValueFrom := ValueFrom uint16Option_Value.
Definition uint32Option_ValueFrom := ValueFrom uint32Option_Value.
Definition int32Option_ValueFrom := ValueFrom int32Option_Value.

(** ** Well-formed stores *)

Definition set_ok (r : nat) (o : options) : Prop :=
  Forall (λ s, s < r)%nat (subOptions o) ∧ ∀ d, downstream o = Some d → (d < r)%nat.

Definition store_ok (st : store) : Prop := ∀ r o, st !! r = Some o → set_ok r o.

(** Every stored value passed its option's validation. *)
Definition store_typed (st : store) : Prop :=
  ∀ r o opt v, st !! r = Some o → opts o !! opt = Some v → has_kind (okind opt) v.

(** The sets consulted for [opt] from [r] on, in order. *)
Fixpoint search (fuel : nat) (st : store) (r : nat) (opt : Option) : list nat :=
  match fuel, st !! r with
  | S fuel, Some o =>
      if acceptOption o opt then r :: concat ((λ sub, search fuel st sub opt) <$> subOptions o)
      else match downstream o with Some d => search fuel st d opt | None => [] end
  | _, _ => []
  end.

(** What the set [r] itself holds. *)
Definition held (st : store) (opt : Option) (r : nat) : option value :=
  o ← st !! r; opts o !! opt.

Fixpoint first_some {A B} (f : A → option B) (l : list A) : option B :=
  match l with
  | [] => None
  | x :: l => match f x with Some y => Some y | None => first_some f l end
  end.

Lemma first_some_app {A B} (f : A → option B) l k :
  first_some f (l ++ k) = match first_some f l with Some y => Some y | None => first_some f k end.
Proof. induction l as [|x l IH]; cbn; [done|]. by destruct (f x). Qed.

Lemma first_hit_search {A} (get : A → option (option value)) (srch : A → list nat) f l :
  (∀ x, x ∈ l → get x = Some (first_some f (srch x))) →
  first_hit get l = Some (first_some f (concat (srch <$> l))).
Proof.
  induction l as [|x l IH]; intros Hg; cbn; [done|]. rewrite Hg by left. rewrite first_some_app.
  destruct (first_some f (srch x)); [done|]. apply IH. intros y Hy. apply Hg. by right.
Qed.

Lemma lookup_ref {A} (st : list A) r r' o : st !! r = Some o → (r' < r)%nat → ∃ o', st !! r' = Some o'.
Proof. intros Hr Hlt. apply lookup_lt_is_Some. apply lookup_lt_Some in Hr. lia. Qed.

(** [GetOption] terminates on a well-formed store and is the ordered search. *)
Lemma GetOption_search fuel st r opt o :
  store_ok st → st !! r = Some o → (r < fuel)%nat →
  GetOption fuel st r opt = Some (first_some (held st opt) (search fuel st r opt)).
Proof.
  intros Hst. revert r o. induction fuel as [|fuel IH]; intros r o Ho Hf; [lia|].
  destruct (Hst r o Ho) as [Hs Hd]. cbn. rewrite Ho. cbn.
  destruct (acceptOption o opt).
  - cbn. unfold held at 1. rewrite Ho. cbn. destruct (opts o !! opt) as [v|]; [done|].
    apply first_hit_search. intros x Hx. rewrite Forall_forall in Hs. specialize (Hs x Hx).
    destruct (lookup_ref st r x o Ho Hs) as [ox Hox]. apply (IH x ox); [done|lia].
  - destruct (downstream o) as [d|]; [|done]. specialize (Hd d eq_refl).
    destruct (lookup_ref st r d o Ho Hd) as [od Hod]. apply (IH d od); [done|lia].
Qed.

(** More fuel searches the same sets. *)
Lemma search_fuel n m st r opt o :
  store_ok st → st !! r = Some o → (r < n)%nat → (r < m)%nat → search n st r opt = search m st r opt.
Proof.
  intros Hst. revert m r o. induction n as [|n IH]; intros [|m] r o Ho Hn Hm; try lia.
  destruct (Hst r o Ho) as [Hs Hd]. cbn. rewrite Ho.
  destruct (acceptOption o opt).
  - do 2 f_equal. apply list_fmap_ext. intros i x Hx.
    apply list_elem_of_lookup_2 in Hx. rewrite Forall_forall in Hs. specialize (Hs x Hx).
    destruct (lookup_ref st r x o Ho Hs) as [ox Hox]. apply (IH m x ox); [done|lia..].
  - destruct (downstream o) as [d|]; [|done]. specialize (Hd d eq_refl).
    destruct (lookup_ref st r d o Ho Hd) as [od Hod]. apply (IH m d od); [done|lia..].
Qed.
