(* ===== verification/OptionSetThms.v ===== *)
(** Theorems on option sets: lookup order, what a write changes, typing, hooks. *)
From S2P Require Import Prelude Errs Options OptionSet.
From stdpp Require Import base tactics numbers list gmap sets relations.
From Stdlib Require Import ZArith Lia.

(** What [search] looks at. *)
Definition shape (o : options) := (accepts o, subOptions o, downstream o).

Definition same_shape (st st' : store) : Prop := ∀ r, shape <$> st !! r = shape <$> st' !! r.

#[global] Instance same_shape_equiv : Equivalence same_shape.
Proof.
  split; [by intros st r|by intros st st' E r|]. intros s1 s2 s3 E1 E2 r. by rewrite E1.
Qed.

Lemma same_shape_set st r o o' : st !! r = Some o → shape o' = shape o → same_shape st (<[r := o']> st).
Proof.
  intros Ho Hs r'. destruct (decide (r = r')) as [<-|Hne].
  - rewrite list_lookup_insert_eq by (by eapply lookup_lt_Some). rewrite Ho. cbn. by rewrite Hs.
  - by rewrite list_lookup_insert_ne.
Qed.

Lemma same_shape_ok st st' : same_shape st st' → store_ok st → store_ok st'.
Proof.
  intros E Hst r o' Ho'. specialize (E r). rewrite Ho' in E. cbn in E.
  destruct (st !! r) as [o|] eqn:Ho; [|done]. unfold shape in E. cbn in E.
  injection E as E1 E2 E3. destruct (Hst r o Ho) as [Hs Hd]. split; [by rewrite <- E2|by rewrite <- E3].
Qed.

(** The search and the lookup depend on the store through the shape and the values held. *)
#[global] Instance search_proper : Proper ((=) ==> same_shape ==> (=) ==> (=) ==> (=)) search.
Proof.
  intros n ? <- st st' E r ? <- opt ? <-. revert r. induction n as [|n IH]; intros r; [done|].
  cbn. pose proof (E r) as Er. destruct (st !! r) as [o|], (st' !! r) as [o'|]; try done.
  unfold shape in Er. cbn in Er. injection Er as E1 E2 E3. unfold acceptOption.
  rewrite E1, E2, E3. destruct (accepts o') as [a|]; [destruct (bool_decide (opt ∈ a))|].
  2: { by destruct (downstream o'). }
  all: do 2 f_equal; apply list_fmap_ext; by intros.
Qed.

Lemma held_set st r o o' opt r' :
  st !! r = Some o → opts o' !! opt = opts o !! opt → held (<[r := o']> st) opt r' = held st opt r'.
Proof.
  intros Ho Hs. unfold held. destruct (decide (r = r')) as [<-|Hne].
  - rewrite list_lookup_insert_eq by (by eapply lookup_lt_Some). by rewrite Ho.
  - by rewrite list_lookup_insert_ne.
Qed.

Lemma first_some_ext {A B} (f g : A → option B) l : (∀ x, f x = g x) → first_some f l = first_some g l.
Proof. intros E. induction l as [|x l IH]; cbn; [done|]. by rewrite E, IH. Qed.

Lemma GetOption_ext st st' r opt :
  store_ok st → (r < length st)%nat → same_shape st st' → (∀ x, held st opt x = held st' opt x) →
  GetOption (S r) st r opt = GetOption (S r) st' r opt.
Proof.
  intros Hst Hr E Hh. destruct (lookup_lt_is_Some_2 st r Hr) as [o Ho].
  pose proof (E r) as Er. rewrite Ho in Er. destruct (st' !! r) as [o'|] eqn:Ho'; [|done].
  rewrite (GetOption_search _ st r opt o), (GetOption_search _ st' r opt o') by
    (done || lia || by eapply same_shape_ok).
  rewrite (search_proper _ _ eq_refl _ _ E r r eq_refl opt opt eq_refl).
  f_equal. by apply first_some_ext.
Qed.

(** ** Runs of the writers *)

Section writers.
Context {H : Type} (run_hook : nat → Option → value → value → state H → option err * state H).

(** The hooks of this repository read options but never set one. *)
Context (hooks_read_only : ∀ h opt o n s, sets (run_hook h opt o n s).2 = sets s).

Lemma run_hooks_sets hs opt o n s : sets (run_hooks run_hook hs opt o n s).2 = sets s.
Proof.
  revert s. induction hs as [|h hs IH]; intros s; cbn; [done|].
  pose proof (hooks_read_only h opt o n s) as E. destruct (run_hook h opt o n s) as [[e|] s']; [done|].
  cbn in E. by rewrite IH.
Qed.

Lemma doSetOption_sets r o opt val s :
  sets (doSetOption run_hook r o opt val s).2 = <[r := with_opts o (<[opt := val]> (opts o))]> (sets s).
Proof. unfold doSetOption. by rewrite run_hooks_sets. Qed.

(** The set a write of [opt] through [r] reaches: the first one of the search. *)
Lemma head_search fuel st r opt t o :
  store_ok st → st !! r = Some o → (r < fuel)%nat → head (search fuel st r opt) = Some t →
  ∃ ot, st !! t = Some ot ∧ acceptOption ot opt = true.
Proof.
  intros Hst. revert r o. induction fuel as [|fuel IH]; intros r o Ho Hf; [lia|].
  cbn. rewrite Ho. destruct (acceptOption o opt) eqn:Ea; cbn.
  - intros [= <-]. by eauto.
  - destruct (Hst r o Ho) as [_ Hd]. destruct (downstream o) as [d|]; [|done].
    specialize (Hd d eq_refl). destruct (lookup_ref st r d o Ho Hd) as [od Hod]. apply (IH d od); [done|lia].
Qed.

Lemma SetOption_run fuel r opt val v s o :
  store_ok (sets s) → sets s !! r = Some o → (r < fuel)%nat → Validate opt val = inr v →
  SetOption run_hook fuel r opt val s =
    match head (search fuel (sets s) r opt) with
    | None => Some (Some ErrUnsupportedOption, s)
    | Some t => ot ← sets s !! t; Some (doSetOption run_hook t ot opt v s)
    end.
Proof.
  intros Hst. revert r o val. induction fuel as [|fuel IH]; intros r o val Ho Hf Hv; [lia|].
  cbn. rewrite Hv, Ho. cbn. destruct (acceptOption o opt) eqn:Ea; cbn; [by rewrite Ho|].
  destruct (Hst r o Ho) as [_ Hd]. destruct (downstream o) as [d|]; [|done].
  specialize (Hd d eq_refl). destruct (lookup_ref (sets s) r d o Ho Hd) as [od Hod].
  apply (IH d od); [done|lia|]. by eapply Validate_idem.
Qed.

Lemma SetOptionIfNotExists_run fuel r opt val v s o :
  store_ok (sets s) → sets s !! r = Some o → (r < fuel)%nat → Validate opt val = inr v →
  SetOptionIfNotExists run_hook fuel r opt val s =
    match head (search fuel (sets s) r opt) with
    | None => Some (Some ErrUnsupportedOption, s)
    | Some t => match held (sets s) opt t with
                | Some _ => Some (None, s)
                | None => ot ← sets s !! t; Some (doSetOption run_hook t ot opt v s)
                end
    end.
Proof.
  intros Hst. revert r o val. induction fuel as [|fuel IH]; intros r o val Ho Hf Hv; [lia|].
  cbn. rewrite Hv, Ho. cbn. destruct (acceptOption o opt) eqn:Ea; cbn.
  { unfold held. rewrite Ho. cbn. by destruct (opts o !! opt). }
  destruct (Hst r o Ho) as [_ Hd]. destruct (downstream o) as [d|]; [|done].
  specialize (Hd d eq_refl). destruct (lookup_ref (sets s) r d o Ho Hd) as [od Hod].
  apply (IH d od); [done|lia|]. by eapply Validate_idem.
Qed.

(** What a write to the set [t] does to the store. *)
Lemma doSetOption_spec t ot opt v s e s' :
  store_ok (sets s) → sets s !! t = Some ot → doSetOption run_hook t ot opt v s = (e, s') →
  same_shape (sets s) (sets s') ∧ held (sets s') opt t = Some v ∧
  ∀ opt' r', (opt', r') ≠ (opt, t) → held (sets s') opt' r' = held (sets s) opt' r'.
Proof.
  intros Hst Ht E. pose proof (doSetOption_sets t ot opt v s) as Es. rewrite E in Es. cbn in Es.
  rewrite Es. split_and!.
  - by eapply same_shape_set.
  - unfold held. rewrite list_lookup_insert_eq by (by eapply lookup_lt_Some). cbn.
    by rewrite lookup_insert_eq.
  - intros opt' r' Hne. destruct (decide (t = r')) as [<-|Hr].
    + eapply held_set; [done|]. cbn. apply lookup_insert_ne. congruence.
    + unfold held. by rewrite list_lookup_insert_ne.
Qed.
End writers.

(** ** Lookup *)

(** C28: [GetOption] terminates on every store of option sets and finds what a plain ordered
    search finds: the sets that accept the option, depth first, a set before its sub
    options, the downstream set only in place of one that does not accept it; the first
    set of that list that holds a value wins, [GetOptionDefault] falls back on the option's
    default, and extra fuel changes nothing. *)
Theorem get_option_first_holder st r opt fuel :
  store_ok st → (r < length st)%nat → (r < fuel)%nat →
  let found := first_some (held st opt) (search (S r) st r opt) in
  GetOption fuel st r opt = Some found ∧
  GetOptionDefault st r opt = Some (default (DefaultValue opt) found).
Proof.
  intros Hst Hr Hf. destruct (lookup_lt_is_Some_2 st r Hr) as [o Ho]. cbn zeta.
  unfold GetOptionDefault. rewrite !(GetOption_search _ st r opt o) by (done || lia).
  rewrite (search_fuel fuel (S r) st r opt o) by (done || lia). done.
Qed.

(** ** Writes *)

Section write_claims.
Context {H : Type} (run_hook : nat → Option → value → value → state H → option err * state H).
Context (hooks_read_only : ∀ h opt o n s, sets (run_hook h opt o n s).2 = sets s).

(** C29: [SetOption] of a valid value returns, and either no set on the way accepts the
    option (then nothing changed and the error is [ErrUnsupportedOption]) or from then on
    [GetOption] through the same set returns the validated value - even when a change hook
    answered an error - while every other option reads as before through every set. *)
Theorem set_option_then_get r opt val v s :
  store_ok (sets s) → (r < length (sets s))%nat → Validate opt val = inr v →
  ∃ e s', SetOption run_hook (S r) r opt val s = Some (e, s') ∧
    ((search (S r) (sets s) r opt = [] ∧ e = Some ErrUnsupportedOption ∧ s' = s) ∨
     (GetOption (S r) (sets s') r opt = Some (Some v) ∧
      ∀ opt' r', opt' ≠ opt → (r' < length (sets s))%nat →
        GetOption (S r') (sets s') r' opt' = GetOption (S r') (sets s) r' opt')).
Proof.
  intros Hst Hr Hv. destruct (lookup_lt_is_Some_2 (sets s) r Hr) as [o Ho].
  rewrite (SetOption_run run_hook (S r) r opt val v s o) by (done || lia).
  destruct (search (S r) (sets s) r opt) as [|t ts] eqn:Es; cbn [head].
  { eexists _, _. split; [done|]. by left. }
  destruct (head_search (S r) (sets s) r opt t o) as (ot & Ht & _); [done..|lia|by rewrite Es|].
  rewrite Ht. cbn [mbind option_bind]. destruct (doSetOption run_hook t ot opt v s) as [e s'] eqn:E.
  destruct (doSetOption_spec run_hook hooks_read_only t ot opt v s e s') as (Hsh & Hh & Hoth); [done..|].
  exists e, s'. split; [done|right]. pose proof (Hsh r) as Er. rewrite Ho in Er.
  destruct (sets s' !! r) as [o'|] eqn:Ho'; [|done]. split.
  - rewrite (GetOption_search _ _ r opt o') by (done || lia || by eapply same_shape_ok).
    rewrite <- (search_proper _ _ eq_refl _ _ Hsh r r eq_refl opt opt eq_refl), Es. cbn. by rewrite Hh.
  - intros opt' r' Hne Hr'. symmetry. apply GetOption_ext; [done|done|done|].
    intros x. symmetry. apply Hoth. congruence.
Qed.

(** [SetOptionIfNotExists] never overwrites: if the set that accepts the option holds a
    value, the call succeeds and changes nothing, so no hook runs either; if it holds none,
    the call does exactly what [SetOption] does. *)
Theorem set_if_not_exists_keeps r opt val v s :
  store_ok (sets s) → (r < length (sets s))%nat → Validate opt val = inr v →
  SetOptionIfNotExists run_hook (S r) r opt val s =
    match head (search (S r) (sets s) r opt) ≫= held (sets s) opt with
    | Some _ => Some (None, s)
    | None => SetOption run_hook (S r) r opt val s
    end.
Proof.
  intros Hst Hr Hv. destruct (lookup_lt_is_Some_2 (sets s) r Hr) as [o Ho].
  rewrite (SetOptionIfNotExists_run run_hook (S r) r opt val v s o) by (done || lia).
  rewrite (SetOption_run run_hook (S r) r opt val v s o) by (done || lia).
  destruct (head (search (S r) (sets s) r opt)) as [t|]; [|done]. cbn.
  by destruct (held (sets s) opt t).
Qed.

(** ** Typing *)

Lemma held_typed st opt r v : store_typed st → held st opt r = Some v → has_kind (okind opt) v.
Proof. unfold held. intros Ht. destruct (st !! r) as [o|] eqn:Ho; [|done]. cbn. by eapply Ht. Qed.

Lemma store_typed_held st :
  (∀ opt r v, held st opt r = Some v → has_kind (okind opt) v) → store_typed st.
Proof. intros Hh r o opt v Ho Hv. apply (Hh opt r). unfold held. by rewrite Ho. Qed.

Lemma SetOption_typed fuel r opt val s e s' :
  store_ok (sets s) → store_typed (sets s) → (r < length (sets s))%nat → (r < fuel)%nat →
  in_range val → SetOption run_hook fuel r opt val s = Some (e, s') →
  store_ok (sets s') ∧ store_typed (sets s') ∧ length (sets s') = length (sets s).
Proof.
  intros Hst Hty Hr Hf Hin. destruct (lookup_lt_is_Some_2 (sets s) r Hr) as [o Ho].
  destruct (Validate opt val) as [e0|v] eqn:Hv.
  { destruct fuel; [done|]. cbn. rewrite Hv. by intros [= <- <-]. }
  rewrite (SetOption_run run_hook fuel r opt val v s o) by done.
  destruct (head (search fuel (sets s) r opt)) as [t|]; [|by intros [= <- <-]].
  destruct (sets s !! t) as [ot|] eqn:Ht; [|done]. cbn. intros [= E].
  pose proof (doSetOption_sets run_hook hooks_read_only t ot opt v s) as Es. rewrite E in Es. cbn in Es.
  destruct (doSetOption_spec run_hook hooks_read_only t ot opt v s e s') as (Hsh & Hh & Hoth); [done..|].
  split_and!; [by eapply same_shape_ok| |rewrite Es; apply length_insert].
  apply store_typed_held. intros opt' r' v' Hh'.
  destruct (decide ((opt', r') = (opt, t))) as [[= -> ->]|Hne].
  - rewrite Hh in Hh'. injection Hh' as <-. by eapply Validate_has_kind.
  - rewrite Hoth in Hh' by done. by eapply held_typed.
Qed.

Lemma set_values_typed r ovs s s' :
  store_ok (sets s) → store_typed (sets s) → (r < length (sets s))%nat →
  Forall (λ ov, in_range ov.2) ovs → set_values run_hook r ovs s = Some s' →
  store_ok (sets s') ∧ store_typed (sets s').
Proof.
  intros Hst Hty Hr Hin. revert s Hst Hty Hr.
  induction Hin as [|[opt val] ovs Hv Hin IH]; intros s Hst Hty Hr; cbn [set_values]; [by intros [= <-]|].
  destruct (SetOption run_hook (S r) r opt val s) as [[e s1]|] eqn:E; [|done]. cbn.
  destruct (SetOption_typed (S r) r opt val s e s1) as (? & ? & El); [done|done|done|lia|done|done|].
  apply IH; [done|done|lia].
Qed.

(** The operations on option sets. *)
Inductive opt_step : state H → state H → Prop :=
  | step_new ovs subs s r s' :
      Forall (λ ov, in_range ov.2) ovs → Forall (λ x, x < length (sets s))%nat subs →
      NewOptionsWithValuesAndSubs run_hook ovs subs s = Some (r, s') → opt_step s s'
  | step_new_down down acc s r s' :
      (∀ d, down = Some d → (d < length (sets s))%nat) →
      NewOptionsWithDownStreamsAndAccepts down acc s = (r, s') → opt_step s s'
  | step_set r opt val s e s' :
      (r < length (sets s))%nat → in_range val →
      SetOption run_hook (S r) r opt val s = Some (e, s') → opt_step s s'
  | step_set_if r opt val s e s' :
      (r < length (sets s))%nat → in_range val →
      SetOptionIfNotExists run_hook (S r) r opt val s = Some (e, s') → opt_step s s'
  | step_hook r hook s s' : AddOptionChangeHook r hook s = Some s' → opt_step s s'.

Lemma new_set_typed o (s : state H) :
  store_ok (sets s) → store_typed (sets s) → opts o = ∅ → set_ok (length (sets s)) o →
  store_ok (sets s ++ [o]) ∧ store_typed (sets s ++ [o]).
Proof.
  intros Hst Hty He Ho. split.
  - intros r o' [Hl|[Hr Hl]]%lookup_app_Some; [by apply Hst|].
    apply list_lookup_singleton_Some in Hl as [Hr0 <-].
    assert (r = length (sets s)) as -> by lia. done.
  - intros r o' opt v [Hl|[Hr Hl]]%lookup_app_Some; [by eapply Hty|].
    apply list_lookup_singleton_Some in Hl as [_ <-]. by rewrite He, lookup_empty.
Qed.

Lemma opt_step_typed s s' :
  opt_step s s' → store_ok (sets s) ∧ store_typed (sets s) → store_ok (sets s') ∧ store_typed (sets s').
Proof.
  intros Hstep [Hst Hty]. destruct Hstep as [ovs subs s r s' Hin Hsub E|down acc s r s' Hd E
    |r opt val s e s' Hr Hin E|r opt val s e s' Hr Hin E|r hook s s' E].
  - unfold NewOptionsWithValuesAndSubs, new_set in E. cbn in E.
    destruct (set_values run_hook _ ovs _) as [s2|] eqn:Es; [|done]. cbn in E. injection E as <- <-.
    destruct (new_set_typed (mkOptions ∅ None subs None []) s) as [H1 H2]; [done..|].
    apply (set_values_typed (length (sets s)) ovs (State (sets s ++ [mkOptions ∅ None subs None []]) (env s)));
      [exact H1|exact H2|cbn; rewrite length_app; cbn; lia|exact Hin|exact Es].
  - unfold NewOptionsWithDownStreamsAndAccepts, new_set in E. injection E as <- <-. cbn.
    apply new_set_typed; [done..|]. split; [constructor|done].
  - edestruct (SetOption_typed (S r) r opt val s e s') as (? & ? & _); done || lia.
  - destruct (Validate opt val) as [e0|v] eqn:Hv.
    { cbn in E. rewrite Hv in E. by injection E as <- <-. }
    destruct (lookup_lt_is_Some_2 (sets s) r Hr) as [o Ho].
    rewrite (SetOptionIfNotExists_run run_hook (S r) r opt val v s o) in E by (done || lia).
    assert (SetOption run_hook (S r) r opt val s = Some (e, s') ∨ s' = s) as [E'| ->]; [|..|done].
    { rewrite (SetOption_run run_hook (S r) r opt val v s o) by (done || lia).
      destruct (head (search (S r) (sets s) r opt)) as [t|]; [|by left].
      destruct (held (sets s) opt t); [right; by injection E|by left]. }
    edestruct (SetOption_typed (S r) r opt val s e s') as (? & ? & _); done || lia.
  - unfold AddOptionChangeHook in E. destruct (sets s !! r) as [o|] eqn:Ho; [|done]. cbn in E.
    injection E as <-. cbn. split.
    + eapply same_shape_ok; [|exact Hst]. by eapply same_shape_set.
    + apply store_typed_held. intros opt r' v. erewrite held_set by done. by apply held_typed.
Qed.

(** Every typed reader [ValueFrom] of an option of kind [k] succeeds on [v]. *)
Definition reads (k : kind) (v : value) : Prop :=
  match k with
  | anyOption => True
  | boolOption => ∃ b, boolOption_Value v = Ret b
  | stringOption => ∃ s, stringOption_Value v = Ret s
  | timeDurationOption => ∃ z, timeDurationOption_Value v = Ret z
  | intOption => ∃ z, intOption_Value v = Ret z
  | uint8Option => ∃ z, uint8Option_Value v = Ret z
  | uint16Option => ∃ z, uint16Option_Value v = Ret z
  | uint32Option => ∃ z, uint32Option_Value v = Ret z
  | int32Option => ∃ z, int32Option_Value v = Ret z
  end.

(** The reader of the options of kind [k] returns. *)
Definition reader_returns (k : kind) (st : store) (opt : Option) (optss : list nat) : Prop :=
  match k with
  | anyOption => is_Some (anyOption_ValueFrom st opt optss)
  | boolOption => ∃ x, boolOption_ValueFrom st opt optss = Some (Ret x)
  | stringOption => ∃ x, stringOption_ValueFrom st opt optss = Some (Ret x)
  | timeDurationOption => ∃ x, timeDurationOption_ValueFrom st opt optss = Some (Ret x)
  | intOption => ∃ x, intOption_ValueFrom st opt optss = Some (Ret x)
  | uint8Option => ∃ x, uint8Option_ValueFrom st opt optss = Some (Ret x)
  | uint16Option => ∃ x, uint16Option_ValueFrom st opt optss = Some (Ret x)
  | uint32Option => ∃ x, uint32Option_ValueFrom st opt optss = Some (Ret x)
  | int32Option => ∃ x, int32Option_ValueFrom st opt optss = Some (Ret x)
  end.

Lemma reads_returns k st opt optss v : valueFrom st opt optss = Some v → reads k v → reader_returns k st opt optss.
Proof.
  intros E. destruct k; cbn; [by eexists|..]; intros [x Hx]; exists x.
  all: unfold boolOption_ValueFrom, stringOption_ValueFrom, timeDurationOption_ValueFrom, intOption_ValueFrom,
    uint8Option_ValueFrom, uint16Option_ValueFrom, uint32Option_ValueFrom, int32Option_ValueFrom, ValueFrom.
  all: rewrite E; cbn; by rewrite Hx.
Qed.

Lemma has_kind_reads k v : has_kind k v → reads k v.
Proof. destruct k, v; cbn; try done; eauto. Qed.

(** C30: no type assertion of an option reader can panic: in every store built by the
    constructors, [SetOption], [SetOptionIfNotExists] and [AddOptionChangeHook], with
    whatever values callers pass, [valueFrom] of an option whose default has its type
    returns a value of that type, on which the option's own reader succeeds, and so does
    its [ValueFrom]. *)
Theorem option_readers_never_panic h0 s opt optss :
  rtc opt_step (State [] h0) s → has_kind (okind opt) (DefaultValue opt) →
  Forall (λ r, r < length (sets s))%nat optss →
  ∃ v, valueFrom (sets s) opt optss = Some v ∧ has_kind (okind opt) v ∧ reads (okind opt) v ∧
    reader_returns (okind opt) (sets s) opt optss.
Proof.
  intros Hr Hdef Hopts.
  assert (store_ok (sets s) ∧ store_typed (sets s)) as [Hst Hty].
  { assert (store_ok (sets (State [] h0)) ∧ store_typed (sets (State [] h0))) as H0 by done.
    clear -Hr H0 hooks_read_only. induction Hr as [|s1 s2 s3 Hstep _ IH]; [done|].
    apply IH. by eapply opt_step_typed. }
  assert (∃ x, first_hit (λ r, GetOption (S r) (sets s) r opt) optss = Some x ∧
    ∀ v, x = Some v → has_kind (okind opt) v) as (x & Hx & Hxk).
  { induction Hopts as [|r optss Hlt Hopts IH]; cbn [first_hit]; [by exists None|].
    destruct (lookup_lt_is_Some_2 (sets s) r Hlt) as [o Ho].
    rewrite (GetOption_search (S r) (sets s) r opt o) by (done || lia).
    destruct (first_some _ _) as [v|] eqn:Ef; [|done].
    exists (Some v). split; [done|]. intros ? [= <-]. clear -Ef Hty.
    induction (search (S r) (sets s) r opt) as [|t l IH]; cbn in Ef; [done|].
    destruct (held (sets s) opt t) as [v'|] eqn:Eh; [|by apply IH].
    injection Ef as ->. by eapply held_typed. }
  assert (E : valueFrom (sets s) opt optss = Some (default (DefaultValue opt) x)) by (unfold valueFrom; by rewrite Hx).
  eexists. split; [exact E|].
  assert (has_kind (okind opt) (default (DefaultValue opt) x)) as Hk.
  { destruct x as [v|]; cbn; [by apply Hxk|done]. }
  pose proof (has_kind_reads _ _ Hk) as Hreads. split; [done|]. split; [done|by eapply reads_returns].
Qed.
End write_claims.

(** ** A new set over an older one *)

(** The values that pass validation, the last one of an option. *)
Definition set_valid (m : gmap Option value) (ov : Option * value) : gmap Option value :=
  match Validate ov.1 ov.2 with inr v => <[ov.1 := v]> m | inl _ => m end.

Lemma set_valid_lookup l m o : NoDup l.*1 →
  foldl set_valid m l !! o =
    match (list_to_map l : gmap Option value) !! o with
    | Some v => match Validate o v with inr v => Some v | inl _ => m !! o end
    | None => m !! o
    end.
Proof.
  revert m. induction l as [|[o' v'] l IH]; intros m Hnd; cbn; [done|].
  apply NoDup_cons in Hnd as [Hni Hnd]. rewrite IH by done. destruct (decide (o' = o)) as [->|Hne].
  - rewrite lookup_insert_eq, not_elem_of_list_to_map_1 by done. unfold set_valid. cbn.
    destruct (Validate o v'); [done|]. by rewrite lookup_insert_eq.
  - rewrite (lookup_insert_ne _ o') by done. unfold set_valid at 1 2. cbn.
    destruct (Validate o' v'); [done|]. by rewrite lookup_insert_ne.
Qed.

(** Setting values on a set that accepts all and has no hooks *)
Lemma set_values_run {H} run_hook r l (s : state H) o :
  sets s !! r = Some o → accepts o = None → optionChangeHooks o = [] →
  set_values run_hook r l s = Some (State (<[r := with_opts o (foldl set_valid (opts o) l)]> (sets s)) (env s)).
Proof.
  revert s o. induction l as [|[opt v] l IH]; intros s o Ho Ha Hh; cbn [set_values foldl].
  - rewrite list_insert_id; [by destruct s|]. rewrite Ho. by destruct o.
  - cbn [SetOption]. unfold set_valid at 2. cbn [fst snd].
    destruct (Validate opt v) as [e|v'] eqn:E; cbn [mbind option_bind]; [by apply IH|].
    rewrite Ho. cbn [mbind option_bind]. unfold acceptOption. rewrite Ha. cbn [mbind option_bind].
    unfold doSetOption. rewrite Hh. cbn [run_hooks].
    erewrite IH; cbn [sets env]; [|by rewrite list_lookup_insert_eq by (by eapply lookup_lt_Some)|done|done].
    by rewrite list_insert_insert_eq.
Qed.

(** Older sets read as before. *)
Lemma GetOption_app fuel st o r opt : store_ok st → (r < length st)%nat →
  GetOption fuel (st ++ [o]) r opt = GetOption fuel st r opt.
Proof.
  intros Hst. revert r. induction fuel as [|fuel IH]; intros r Hr; [done|]. cbn [GetOption].
  rewrite lookup_app_l by done. destruct (lookup_lt_is_Some_2 st r Hr) as [x Hx]. rewrite Hx. cbn.
  destruct (Hst r x Hx) as [Hs Hd]. destruct (acceptOption x opt).
  - destruct (opts x !! opt); [done|]. induction Hs as [|y l Hy _ IHl]; cbn; [done|].
    rewrite IH by lia. destruct (GetOption fuel st y opt) as [[v|]|]; done.
  - destruct (downstream x) as [d|] eqn:Ed; [|done]. apply IH. specialize (Hd d eq_refl). lia.
Qed.

(** [NewOptionsWithValuesAndSubs(ovs, opts)]: its own value, or else what the set below has. *)
Lemma new_over st c m : store_ok st → (c < length st)%nat →
  ∃ o, NewOptionsWithValuesAndSubs (λ _ _ _ _ s, (None, s)) (map_to_list m) [c] (State st ()) =
      Some (length st, State (st ++ [o]) ()) ∧
    store_ok (st ++ [o]) ∧ (store_typed st → (∀ k v, m !! k = Some v → in_range v) → store_typed (st ++ [o])) ∧
    ∀ k, GetOption (S (length st)) (st ++ [o]) (length st) k =
      match m !! k ≫= λ v, match Validate k v with inr v => Some v | inl _ => None end with
      | Some v => Some (Some v)
      | None => GetOption (S c) st c k
      end.
Proof.
  intros Hst Hc. set (o := mkOptions (foldl set_valid ∅ (map_to_list m)) None [c] None []).
  assert (Hl : ∀ k, opts o !! k = m !! k ≫= λ v, match Validate k v with inr v => Some v | inl _ => None end).
  { intros k. cbn. rewrite set_valid_lookup by apply NoDup_fst_map_to_list. rewrite list_to_map_to_list, lookup_empty.
    by destruct (m !! k). }
  assert (Hok : store_ok (st ++ [o])).
  { intros r x [Hx|[Hr Hx]]%lookup_app_Some; [by apply Hst|]. apply list_lookup_singleton_Some in Hx as [Hr0 <-].
    split; [|done]. constructor; [lia|constructor]. }
  exists o. split; [|split; [done|split]].
  - unfold NewOptionsWithValuesAndSubs, new_set. cbn [sets env].
    erewrite set_values_run; cbn [sets env]; [|by rewrite lookup_app_r, Nat.sub_diag by lia|done|done]. cbn.
    by rewrite insert_app_r_alt, Nat.sub_diag by lia.
  - intros Hty Hin r x opt v [Hx|[Hr Hx]]%lookup_app_Some; [by eapply Hty|].
    apply list_lookup_singleton_Some in Hx as [_ <-]. rewrite Hl. destruct (m !! opt) as [v0|] eqn:E; [|done]. cbn.
    destruct (Validate opt v0) as [|v1] eqn:Ev; [done|]. intros [= <-]. eapply Validate_has_kind; [by eapply Hin|done].
  - intros k. destruct (lookup_lt_is_Some_2 st c Hc) as [x Hx].
    assert (GetOption (S c) st c k = GetOption (length st) st c k) as ->.
    { rewrite !(GetOption_search _ st c k x) by (done || lia). by rewrite (search_fuel (length st) (S c) st c k x) by (done || lia). }
    cbn [GetOption]. rewrite lookup_app_r, Nat.sub_diag by lia. cbn [lookup list_lookup mbind option_bind].
    change (acceptOption o k) with true. cbv iota. rewrite Hl.
    destruct (m !! k ≫= _) as [v|]; [done|]. cbn [subOptions o first_hit].
    rewrite GetOption_app by done. by destruct (GetOption (length st) st c k) as [[v|]|].
Qed.

(** ** Concrete instances *)

(** Hook number 1 refuses every change, the others accept them. *)
Definition demo_hook (h : nat) (opt : Option) (o n : value) (s : state unit) : option err * state unit :=
  (if bool_decide (h = 1%nat) then Some (ErrOS 1) else None, s).

Definition demo_limit : Option := NewIntOption 0 (-1).
Definition demo_raw : Option := NewBoolOption 1 false.

(** A socket's set with a refusing hook, a dialer's set above it, and a set that accepts
    only [demo_raw] and passes the rest down to the socket's. *)
Definition demo_store : store := [
  mkOptions {[demo_limit := VInt 3]} None [] None [1%nat];
  mkOptions ∅ None [0%nat] None [];
  mkOptions ∅ (Some {[demo_raw]}) [] (Some 0%nat) []].

Lemma demo_store_ok : store_ok demo_store.
Proof.
  intros r o Ho. unfold demo_store in Ho.
  destruct r as [|[|[|r]]]; cbn in Ho; [..|done]; injection Ho as <-;
    (split; cbn; [repeat constructor; lia|intros d Hd; inversion Hd; lia]).
Qed.

Lemma get_option_first_holder_witness :
  GetOption 9 demo_store 1 demo_limit = Some (Some (VInt 3)) ∧
  GetOptionDefault demo_store 1 demo_raw = Some (VBool false).
Proof.
  destruct (get_option_first_holder demo_store 1 demo_limit 9 demo_store_ok) as [H1 _]; [cbn; lia..|].
  destruct (get_option_first_holder demo_store 1 demo_raw 9 demo_store_ok) as [_ H2]; [cbn; lia..|].
  split; [exact H1|exact H2].
Defined.

Lemma set_option_then_get_witness :
  ∃ e s', SetOption demo_hook 3 2 demo_limit (VInt64 7) (State demo_store ()) = Some (e, s') ∧
    e = Some (ErrOS 1) ∧ GetOption 3 (sets s') 2 demo_limit = Some (Some (VInt 7)).
Proof.
  destruct (set_option_then_get demo_hook (λ _ _ _ _ _, eq_refl) 2 demo_limit (VInt64 7) (VInt 7)
    (State demo_store ()) demo_store_ok) as (e & s' & H1 & H2); [cbn; lia|reflexivity|].
  exists e, s'. destruct H2 as [(H2 & _)|[H2 _]]; [discriminate H2|].
  split; [exact H1|]. split; [|exact H2]. vm_compute in H1. congruence.
Defined.

Lemma set_if_not_exists_keeps_witness :
  SetOptionIfNotExists demo_hook 2 1 demo_limit (VInt 7) (State demo_store ())
    = SetOption demo_hook 2 1 demo_limit (VInt 7) (State demo_store ()) ∧
  SetOptionIfNotExists demo_hook 1 0 demo_limit (VInt 7) (State demo_store ())
    = Some (None, State demo_store ()).
Proof.
  pose proof (set_if_not_exists_keeps demo_hook 1 demo_limit (VInt 7) (VInt 7)
    (State demo_store ()) demo_store_ok) as H1.
  pose proof (set_if_not_exists_keeps demo_hook 0 demo_limit (VInt 7) (VInt 7)
    (State demo_store ()) demo_store_ok) as H2.
  split; [apply H1|apply H2]; cbn; try lia; reflexivity.
Defined.

Lemma option_readers_never_panic_witness :
  ∃ s v, rtc (opt_step demo_hook) (State [] ()) s ∧
    valueFrom (sets s) demo_limit [0%nat] = Some v ∧ reads intOption v ∧
    reader_returns intOption (sets s) demo_limit [0%nat].
Proof.
  set (s := State [mkOptions {[demo_limit := VInt 5]} None [] None []] ()).
  assert (rtc (opt_step demo_hook) (State [] ()) s) as Hr.
  { eapply rtc_l; [|apply rtc_refl].
    apply (step_new demo_hook [(demo_limit, VInt64 5)] [] (State [] ()) 0 s).
    - constructor; [cbn; lia|constructor].
    - constructor.
    - vm_compute. reflexivity. }
  destruct (option_readers_never_panic demo_hook (λ _ _ _ _ _, eq_refl) () s demo_limit [0%nat] Hr)
    as (v & H1 & _ & H2); [cbn; lia|repeat constructor|].
  exists s, v. exact (conj Hr (conj H1 H2)).
Defined.
