(* ===== verification/OptionReg.v ===== *)
(** options/options.go, third part: the registry that names options, and the option
    structs every package registers in it.

    The registry is a tree of maps under lower-case names.  [locked] is the global lock:
    an operation on a locked registry waits for ever, which is the result [None].
    Names are ASCII.  The reflective walk of [RegisterStructuredOptions] over a struct is
    a recursion over [structured] values, a field list whose leaves are options. *)
From S2P Require Import Prelude Errs Options.
From Stdlib Require Import ZArith Lia Ascii String.
From stdpp Require Import base tactics numbers list gmap strings.
Import Datatypes.
Open Scope Z_scope.

Inductive node :=
  | NOpt (opt : Option)
  | NDom (m : gmap string node).

Record registry := Registry {
  registeredOptions : gmap string node;
  optionFullNames : gmap Option string;
  locked : bool }.

Definition registry_init : registry := Registry ∅ ∅ false.

(** [strings.Join(l, ".")] and [strings.Split(s, ".")] *)
Definition Join (l : list string) : string := String.concat "." l.

Fixpoint Split (s : string) : list string :=
  match s with
  | EmptyString => [EmptyString]
  | String c s =>
      if Ascii.eqb c "." then EmptyString :: Split s
      else match Split s with
           | x :: xs => String c x :: xs
           | [] => [String c EmptyString]
           end
  end.

(** ** RegisterOption *)

(** The walk down the maps, creating the missing ones, and the final assignment. *)
Fixpoint register_at (cur : gmap string node) (domains : list string) (name : string) (opt : Option)
  : outcome (gmap string node) :=
  match domains with
  | [] => Ret (<[ToLower name := NOpt opt]> cur)
  | d :: ds =>
      let d := ToLower d in
      match cur !! d with
      | Some (NOpt _) => Panics PanicTypeAssert
      | Some (NDom m) =>
          match register_at m ds name opt with
          | Ret m' => Ret (<[d := NDom m']> cur)
          | Panics p => Panics p
          end
      | None =>
          match register_at ∅ ds name opt with
          | Ret m' => Ret (<[d := NDom m']> cur)
          | Panics p => Panics p
          end
      end
  end.

Definition RegisterOption (opt : Option) (name : string) (domains : list string) (g : registry)
  : option (outcome registry) :=
  if locked g then None else
  Some match register_at (registeredOptions g) domains name opt with
       | Ret m => Ret (Registry m (<[opt := Join (domains ++ [name])]> (optionFullNames g)) false)
       | Panics p => Panics p
       end.

(** ** RegisterStructuredOptions *)

Inductive structured :=
  | SOpt (opt : Option)
  | SStruct (fields : list (string * structured)).

(** The options of a struct with their names and domains, in field order. *)
Fixpoint struct_options (fv : structured) (name : string) (domains : list string)
  : list (Option * string * list string) :=
  match fv with
  | SOpt opt => [(opt, name, domains)]
  | SStruct fields =>
      (fix fields_options fields := match fields with
        | [] => []
        | (f, fv) :: fields => struct_options fv f (domains ++ [name]) ++ fields_options fields
        end) fields
  end.

Fixpoint register_all (l : list (Option * string * list string)) (g : registry)
  : option (outcome registry) :=
  match l with
  | [] => Some (Ret g)
  | (opt, name, domains) :: l =>
      match RegisterOption opt name domains g with
      | Some (Ret g') => register_all l g'
      | r => r
      end
  end.

Definition RegisterStructuredOptions (fields : list (string * structured)) (domains : list string)
  (g : registry) : option (outcome registry) :=
  register_all (flat_map (λ f, struct_options f.2 f.1 domains) fields) g.

(** ** ParseOption *)

(** The walk of [ParseOption]; [None] is "not found". *)
Fixpoint find_at (cur : gmap string node) (domains : list string) (name : string) : option Option :=
  match domains with
  | [] => match cur !! name with Some (NOpt opt) => Some opt | _ => None end
  | d :: ds =>
      match cur !! ToLower d with
      | Some (NDom m) => find_at m ds name
      | _ => None
      end
  end.

Definition not_found (s : string) : string := ("option not found: " +:+ s)%string.

(** The lock is released on success only. *)
Definition ParseOption (s : string) (g : registry) : option ((string + Option) * registry) :=
  let domains := Split s in
  let name := ToLower (default EmptyString (last domains)) in
  let domains := take (length domains - 1) domains in
  if locked g then None else
  Some match find_at (registeredOptions g) domains name with
       | Some opt => (inr opt, g)
       | None => (inl (not_found s), Registry (registeredOptions g) (optionFullNames g) true)
       end.

(** ** The registered structs (the address of an option is its number here) *)

Module Connector.
Definition PipeLimit : Option := NewIntOption 0 (-1).
Definition Reconnect : Option := NewBoolOption 1 true.
Definition MinReconnectTime : Option := NewTimeDurationOption 2 (100 * 1000000).
Definition MaxReconnectTime : Option := NewTimeDurationOption 3 (8 * 1000000000).
Definition DialAsync : Option := NewBoolOption 4 false.
Definition ReadBuffer : Option := NewIntOption 5 0.
Definition Raw : Option := NewBoolOption 6 false.
Definition RawRecvBufSize : Option := NewIntOption 7 (4 * 1024).
Definition CloseOnEOF : Option := NewBoolOption 8 true.
Definition MaxRecvContentLength : Option := NewUint32Option 9 (128 * 1024).
Definition connector_Options : list (string * structured) := [
  ("PipeLimit", SOpt PipeLimit);
  ("Dialer", SStruct [("Reconnect", SOpt Reconnect); ("MinReconnectTime", SOpt MinReconnectTime);
                      ("MaxReconnectTime", SOpt MaxReconnectTime); ("DialAsync", SOpt DialAsync)]);
  ("Pipe", SStruct [("ReadBuffer", SOpt ReadBuffer); ("Raw", SOpt Raw);
                    ("RawRecvBufSize", SOpt RawRecvBufSize); ("CloseOnEOF", SOpt CloseOnEOF);
                    ("MaxRecvContentLength", SOpt MaxRecvContentLength)])]%string.
Definition connector_OptionDomains : list string := ["Connector"%string].
End Connector.

Module Socket.
Definition NoRecv : Option := NewBoolOption 10 false.
Definition RecvQueueSize : Option := NewUint16Option 11 64.
Definition NoSend : Option := NewBoolOption 12 false.
Definition SendQueueSize : Option := NewUint16Option 13 64.
Definition SendTTL : Option := NewUint8Option 14 16.
Definition SendBestEffort : Option := NewBoolOption 15 false.
Definition SendStopTimeout : Option := NewTimeDurationOption 16 (5 * 1000000000).
Definition socket_Options : list (string * structured) := [
  ("NoRecv", SOpt NoRecv); ("RecvQueueSize", SOpt RecvQueueSize); ("NoSend", SOpt NoSend);
  ("SendQueueSize", SOpt SendQueueSize); ("SendTTL", SOpt SendTTL);
  ("SendBestEffort", SOpt SendBestEffort); ("SendStopTimeout", SOpt SendStopTimeout)]%string.
Definition socket_OptionDomains : list string := ["Socket"%string].
End Socket.

Module Transport.
Definition transport_OptionDomains : list string := ["transport"%string].
Definition transport_Options : list (string * structured) := [].
Definition tcp_NoDelay : Option := NewBoolOption 17 true.
Definition tcp_KeepAlive : Option := NewBoolOption 18 true.
Definition tcp_KeepAlivePeriod : Option := NewTimeDurationOption 19 0.
Definition tcp_ReadBuffer : Option := NewIntOption 20 0.
Definition tcp_WriteBuffer : Option := NewIntOption 21 0.
Definition tcp_Options : list (string * structured) := [
  ("NoDelay", SOpt tcp_NoDelay); ("KeepAlive", SOpt tcp_KeepAlive);
  ("KeepAlivePeriod", SOpt tcp_KeepAlivePeriod); ("ReadBuffer", SOpt tcp_ReadBuffer);
  ("WriteBuffer", SOpt tcp_WriteBuffer)]%string.
Definition tcp_OptionDomains : list string := transport_OptionDomains ++ ["tcp"%string].
Definition ws_ReadBufferSize : Option := NewIntOption 22 (4 * 1024).
Definition ws_WriteBufferSize : Option := NewIntOption 23 (4 * 1024).
Definition ws_CheckOrigin : Option := NewBoolOption 24 false.
(** The default origin checker is a function value. *)
Definition ws_OriginChecker : Option := NewAnyOption 25 (VOther 0).
Definition ws_ExternalListen : Option := NewBoolOption 26 false.
Definition ws_PendingSize : Option := NewIntOption 27 16.
Definition ws_Options : list (string * structured) := [
  ("ReadBufferSize", SOpt ws_ReadBufferSize); ("WriteBufferSize", SOpt ws_WriteBufferSize);
  ("Listener", SStruct [("CheckOrigin", SOpt ws_CheckOrigin); ("OriginChecker", SOpt ws_OriginChecker);
                        ("ExternalListen", SOpt ws_ExternalListen); ("PendingSize", SOpt ws_PendingSize)])]%string.
Definition ws_OptionDomains : list string := transport_OptionDomains ++ ["ws"%string].
Definition inproc_ReadBuffer : Option := NewIntOption 28 (8 * 1024).
Definition inproc_Options : list (string * structured) := [("ReadBuffer"%string, SOpt inproc_ReadBuffer)].
Definition inproc_OptionDomains : list string := transport_OptionDomains ++ ["inproc"%string].
Definition channel_BufferSize : Option := NewIntOption 29 16.
Definition channel_Options : list (string * structured) := [("BufferSize"%string, SOpt channel_BufferSize)].
Definition channel_OptionDomains : list string := inproc_OptionDomains ++ ["channel"%string].
End Transport.

(** The registrations of the packages' [init] functions, in import order. *)
Definition all_options : list (Option * string * list string) :=
  let reg fields domains := flat_map (λ f : string * structured, struct_options f.2 f.1 domains) fields in
  reg Transport.transport_Options Transport.transport_OptionDomains ++ reg Connector.connector_Options Connector.connector_OptionDomains ++
  reg Socket.socket_Options Socket.socket_OptionDomains ++ reg Transport.tcp_Options Transport.tcp_OptionDomains ++
  reg Transport.ws_Options Transport.ws_OptionDomains ++
  reg Transport.inproc_Options Transport.inproc_OptionDomains ++
  reg Transport.channel_Options Transport.channel_OptionDomains.

(** ** Paths *)

(** What a case-insensitive path names. *)
Definition named (g : registry) (path : list string) : option Option :=
  find_at (registeredOptions g) (take (length path - 1) path) (ToLower (default EmptyString (last path))).

Lemma lower_ascii_dot c : Ascii.eqb (lower_ascii c) "." = Ascii.eqb c ".".
Proof. by destruct c as [[] [] [] [] [] [] [] []]. Qed.

Lemma ToLower_idem s : ToLower (ToLower s) = ToLower s.
Proof.
  induction s as [|c s IH]; cbn; [done|]. rewrite IH. f_equal.
  by destruct c as [[] [] [] [] [] [] [] []].
Qed.

Fixpoint no_dot (s : string) : bool :=
  match s with EmptyString => true | String c s => negb (Ascii.eqb c ".") && no_dot s end.

Lemma Split_ToLower s : Split (ToLower s) = ToLower <$> Split s.
Proof.
  induction s as [|c s IH]; cbn [Split ToLower]; [done|]. rewrite lower_ascii_dot.
  destruct (Ascii.eqb c "."); cbn; [by rewrite IH|]. rewrite IH. by destruct (Split s).
Qed.

Lemma Split_no_dot s : no_dot s = true → Split s = [s].
Proof.
  induction s as [|c s IH]; cbn; [done|]. intros [Hc Hs]%andb_true_iff.
  apply negb_true_iff in Hc. by rewrite Hc, IH.
Qed.

Lemma Split_dot x s : no_dot x = true → Split (x +:+ String "." s) = x :: Split s.
Proof.
  induction x as [|c x IH]; [done|]. cbn [no_dot]. intros [Hc Hs]%andb_true_iff.
  apply negb_true_iff in Hc. change (String c x +:+ String "." s)%string with
    (String c (x +:+ String "." s))%string. cbn [Split]. by rewrite Hc, IH.
Qed.

Lemma Split_Join l : l ≠ [] → forallb no_dot l = true → Split (Join l) = l.
Proof.
  induction l as [|x l IH]; [done|]. intros _ [Hx Hl]%andb_true_iff.
  destruct l as [|y l]; [by apply Split_no_dot|].
  change (Join (x :: y :: l)) with (x +:+ String "." (Join (y :: l)))%string.
  rewrite Split_dot by done. f_equal. by apply IH.
Qed.

Lemma last_cons_cons {A} (x y : A) l : last (x :: y :: l) = last (y :: l).
Proof. done. Qed.

Lemma find_at_lower m ds ds' name :
  ToLower <$> ds = ToLower <$> ds' → find_at m ds name = find_at m ds' name.
Proof.
  revert m ds'. induction ds as [|d ds IH]; intros m [|d' ds'] E; try done.
  cbn in E. injection E as Ed E. cbn. rewrite Ed. destruct (m !! ToLower d') as [[]|]; try done.
  by apply IH.
Qed.

Lemma named_lower g p p' : ToLower <$> p = ToLower <$> p' → named g p = named g p'.
Proof.
  intros E. unfold named. assert (length p = length p') as ->
    by (rewrite <- (length_fmap ToLower p), E; apply length_fmap).
  assert (ToLower (default EmptyString (last p)) = ToLower (default EmptyString (last p'))) as ->.
  { apply (f_equal last) in E. rewrite !fmap_last in E. destruct (last p), (last p'); cbn in *; congruence. }
  apply find_at_lower. by rewrite !fmap_take, E.
Qed.

Lemma named_snoc g ds name : named g (ds ++ [name]) = find_at (registeredOptions g) ds (ToLower name).
Proof.
  unfold named. rewrite length_app, last_snoc. cbn [length default].
  replace (length ds + 1 - 1)%nat with (length ds) by lia. by rewrite take_app_length.
Qed.

Lemma ParseOption_named s g :
  locked g = false →
  ParseOption s g = Some match named g (Split s) with
    | Some opt => (inr opt, g)
    | None => (inl (not_found s), Registry (registeredOptions g) (optionFullNames g) true)
    end.
Proof. intros Hl. unfold ParseOption. by rewrite Hl. Qed.

(** The path ends in an inner node. *)
Fixpoint domain_at (cur : gmap string node) (domains : list string) (name : string) : bool :=
  match domains with
  | [] => match cur !! name with Some (NDom _) => true | _ => false end
  | d :: ds => match cur !! ToLower d with Some (NDom m) => domain_at m ds name | _ => false end
  end.

Lemma find_at_empty ds name : find_at ∅ ds name = None.
Proof. destruct ds; cbn; by rewrite lookup_empty. Qed.
Lemma domain_at_empty ds name : domain_at ∅ ds name = false.
Proof. destruct ds; cbn; by rewrite lookup_empty. Qed.

Lemma find_at_insert cur d n ds' name' m :
  cur !! d = Some (NDom m) ∨ (cur !! d = None ∧ m = ∅) →
  ∀ m', n = NDom m' →
  find_at (<[d := n]> cur) ds' name' =
    match ds' with
    | d' :: ds'' => if decide (ToLower d' = d) then find_at m' ds'' name' else find_at cur ds' name'
    | [] => find_at cur [] name'
    end.
Proof.
  intros Hd m' ->. destruct ds' as [|d' ds'']; cbn.
  - destruct (decide (name' = d)) as [->|Hne].
    + rewrite lookup_insert_eq. by destruct Hd as [->|[-> _]].
    + by rewrite lookup_insert_ne.
  - destruct (decide (ToLower d' = d)) as [->|Hne].
    + by rewrite lookup_insert_eq.
    + by rewrite lookup_insert_ne.
Qed.

(** What an assignment at one path does to every path. *)
Lemma register_at_find cur ds name opt cur' ds' name' :
  register_at cur ds name opt = Ret cur' → domain_at cur ds (ToLower name) = false →
  find_at cur' ds' name' =
    if decide (ToLower <$> ds' = ToLower <$> ds ∧ name' = ToLower name) then Some opt
    else find_at cur ds' name'.
Proof.
  revert cur cur' ds'. induction ds as [|d ds IH]; intros cur cur' ds' Hr Hdom; cbn in Hr.
  - injection Hr as <-. destruct ds' as [|d' ds'']; cbn.
    + destruct (decide (name' = ToLower name)) as [->|Hne].
      * rewrite lookup_insert_eq, decide_True by done. done.
      * rewrite lookup_insert_ne, decide_False by naive_solver. done.
    + rewrite decide_False by naive_solver. cbn in Hdom.
      destruct (decide (ToLower d' = ToLower name)) as [->|Hne].
      * rewrite lookup_insert_eq. by destruct (cur !! ToLower name) as [[]|].
      * by rewrite lookup_insert_ne.
  - assert (∃ m m', (cur !! ToLower d = Some (NDom m) ∨ (cur !! ToLower d = None ∧ m = ∅)) ∧
      register_at m ds name opt = Ret m' ∧ cur' = <[ToLower d := NDom m']> cur ∧
      domain_at m ds (ToLower name) = false) as (m & m' & Hd & Hm & -> & Hdm).
    { cbn in Hdom. destruct (cur !! ToLower d) as [[?|m]|] eqn:E; [done|..].
      - destruct (register_at m ds name opt) as [m'|] eqn:Em; [|done]. injection Hr as <-. eauto 10.
      - destruct (register_at ∅ ds name opt) as [m'|] eqn:Em; [|done]. injection Hr as <-.
        exists ∅, m'. rewrite domain_at_empty. eauto 10. }
    rewrite (find_at_insert cur (ToLower d) (NDom m') ds' name' m Hd m' eq_refl).
    destruct ds' as [|d' ds'']; cbn [fmap list_fmap].
    { rewrite decide_False by naive_solver. done. }
    destruct (decide (ToLower d' = ToLower d)) as [E|Hne].
    + rewrite (IH m m' ds'' Hm Hdm). rewrite E.
      assert (find_at m ds'' name' = find_at cur (d' :: ds'') name') as ->.
      { cbn. rewrite E. destruct Hd as [->|[-> ->]]; [done|apply find_at_empty]. }
      destruct (decide (ToLower <$> ds'' = ToLower <$> ds ∧ name' = ToLower name)) as [[-> ->]|Hn].
      * by rewrite decide_True.
      * rewrite decide_False by naive_solver. done.
    + rewrite decide_False by naive_solver. done.
Qed.

(** ** Claims *)


(** One failing [ParseOption] kills the registry: it answers "option not found" without
    releasing the global lock, so that every later [ParseOption] and [RegisterOption], of
    any name, waits for ever. *)
Theorem parse_failure_deadlocks s g :
  locked g = false → named g (Split s) = None →
  ∃ g', ParseOption s g = Some (inl (not_found s), g') ∧
    (∀ s', ParseOption s' g' = None) ∧
    (∀ opt name domains, RegisterOption opt name domains g' = None).
Proof.
  intros Hl Hn. rewrite ParseOption_named, Hn by done. eexists. split; [done|]. by split.
Qed.

(** ** Concrete instances *)

Definition repo_registry : registry :=
  match register_all all_options registry_init with
  | Some (Ret g) => g
  | _ => registry_init
  end.

(** A list of registrations that goes through makes the registry it is read off. *)
Definition goes_through (l : list (Option * string * list string)) : bool :=
  match register_all l registry_init with Some (Ret _) => true | _ => false end.
Lemma registered_all l : goes_through l = true →
  register_all l registry_init = Some (Ret (match register_all l registry_init with Some (Ret g) => g | _ => registry_init end)).
Proof. unfold goes_through. by destruct (register_all l registry_init) as [[]|]. Qed.

(** The registrations of all packages succeed, no package takes a name of another, and
    the dotted path of each of the repository's options parses back to that option. *)
Theorem all_options_parse :
  register_all all_options registry_init = Some (Ret repo_registry) ∧
  Forall (λ '(opt, name, domains),
    ParseOption (Join (domains ++ [name])) repo_registry = Some (inr opt, repo_registry)) all_options.
Proof.
  split; [by apply registered_all; vm_compute|].
  (* every path is looked up in one evaluation of the registry *)
  assert (Hb : forallb (λ '(opt, name, domains),
    bool_decide (named repo_registry (Split (Join (domains ++ [name]))) = Some opt)) all_options = true)
    by (vm_compute; reflexivity).
  assert (Hl : locked repo_registry = false) by (vm_compute; reflexivity).
  rewrite forallb_forall in Hb. apply Forall_forall. intros [[opt name] domains] Hin.
  apply list_elem_of_In, Hb, bool_decide_eq_true in Hin. by rewrite ParseOption_named, Hin.
Qed.


Lemma parse_failure_deadlocks_witness :
  ∃ g', ParseOption "Connector.Dialer" repo_registry = Some (inl (not_found "Connector.Dialer"), g') ∧
    ParseOption "Connector.PipeLimit" g' = None.
Proof.
  destruct (parse_failure_deadlocks "Connector.Dialer" repo_registry) as (g' & H1 & H2 & _);
    [vm_compute; reflexivity|vm_compute; reflexivity|].
  exists g'. split; [exact H1|apply H2].
Defined.
