(* ===== verification/Routing.v ===== *)
(** How a message crosses several sockets: socket.go's decision where a message goes
    ([SendMsg], [sendTo]), and the paths that the hops build and consume.

    [relay out pid msg] is one link of a network: the sending socket decides to send
    [msg] through its pipe [out], the pipe encodes it, and the receiving socket decodes it
    on its own pipe [pid], the other end of the connection.  [carry] carries a message over
    a chain of links, for a request and for the reply to it. *)
From S2P Require Import Prelude Errs GoHeap GoIO Bytespool Message Packet MessageFacts MessageSend.
From stdpp Require Import base tactics numbers list gmap.
From Stdlib Require Import ZArith Lia.
Open Scope Z_scope.

(** ** The decision of [socket.SendMsg] *)

Inductive route :=
  | Drop                       (* TTL used up: freed, no error *)
  | Arrived                    (* no distance left: dropped, no error *)
  | ToPipe (id : Z)            (* to the pipe with this id, or ErrBrokenPath *)
  | ToAny                      (* the shared queue *)
  | ToEach                     (* a copy to every pipe *)
  | BadSendType.

Definition sendTo_route (m : Meta) (dest : list Z) {S} : M S route :=
  if Distance m =? 0 then mret Arrived
  else id ← MsgPath_CurID dest; mret (ToPipe id).

Definition SendMsg_route (m : Meta) (dest : list Z) {S} : M S route :=
  if TTL m =? 0 then mret Drop
  else if SendType m =? SendTypeToDest then sendTo_route m dest
  else if SendType m =? SendTypeToOne then mret ToAny
  else if SendType m =? SendTypeToAll then mret ToEach
  else mret BadSendType.

(** ** Links *)

(** [pids] are the ids of the pipes at the two ends: the sender's and the receiver's. *)
Definition relay (out pid maxL : Z) (msg : Message) : M world (err + Message) :=
  dest ← gets (λ w, wread w (Destination msg));
  r ← SendMsg_route (meta msg) dest;
  match r with
  | ToPipe id =>
      if id =? out then b ← Encode msg; bs ← gets (λ w, wread w b); NewMessageFromBytes pid bs maxL
      else mret (inl ErrBrokenPath)
  | ToAny | ToEach => b ← Encode msg; bs ← gets (λ w, wread w b); NewMessageFromBytes pid bs maxL
  | Drop | Arrived => mret (inl ErrMsgDropped)
  | BadSendType => mret (inl ErrInvalidSendType)
  end.

(** Over a chain of links [(out, pid)]. *)
Fixpoint carry (links : list (Z * Z)) (maxL : Z) (msg : Message) : M world (err + Message) :=
  match links with
  | [] => mret (inr msg)
  | (out, pid) :: links =>
      x ← relay out pid maxL msg;
      match x with
      | inl e => mret (inl e)
      | inr msg' => carry links maxL msg'
      end
  end.

(** ** The packets of a journey *)

Definition path (ids : list Z) : list Z := concat (be32 <$> ids).

Lemma zlen_path ids : zlen (path ids) = 4 * Z.of_nat (length ids).
Proof.
  induction ids as [|i ids IH]; [done|]. change (path (i :: ids)) with (be32 i ++ path ids).
  rewrite zlen_app, IH, zlen_be32. cbn [length]. lia.
Qed.
#[export] Hint Rewrite zlen_path : zlist.

Lemma path_cons i ids : path (i :: ids) = be32 i ++ path ids.
Proof. done. Qed.
Lemma path_app l k : path (l ++ k) = path l ++ path k.
Proof. unfold path. by rewrite fmap_app, concat_app. Qed.

(** A packet on its way: the ids behind it, the ids before it, what is left of its TTL. *)
Record travelling (k : packet) (flags ttl : Z) (behind before : list Z) (content : list Z) : Prop := {
  tr_meta : pmeta k = mkMeta flags ttl (Z.of_nat (length behind)) (Z.of_nat (length before)) (zlen content);
  tr_src : psrc k = path behind;
  tr_dst : pdst k = path before;
  tr_content : pcontent k = content }.

Lemma travelling_ok k flags ttl behind before content :
  travelling k flags ttl behind before content →
  is_u8 flags → is_u8 ttl → is_u32 (zlen content) →
  Z.of_nat (length behind) < 256 → Z.of_nat (length before) < 256 → packet_ok k.
Proof.
  intros [Hm Hs Hd Hc] Hf Ht Hl Hb1 Hb2. split; rewrite ?Hm, ?Hs, ?Hd, ?Hc, ?zlen_path; try done.
  split; cbn; unfold is_u8 in *; done || lia.
Qed.

(** One hop of a packet that is sent to anyone, or to the first id of its path. *)
Lemma hop_travelling k flags ttl behind before content pid :
  travelling k flags ttl behind before content →
  1 ≤ ttl < 256 → Z.of_nat (length behind) < 255 → Z.of_nat (length before) < 256 →
  let d := Z.land flags sendTypeMask =? SendTypeToDest in
  (d = true → before ≠ []) →
  travelling (hop pid k) flags (ttl - 1) (pid :: behind) (if d then drop 1 before else before) content.
Proof.
  intros [Hm Hs Hd Hc] Ht Hb1 Hb2 d Hne. subst d.
  assert (to_dest (pmeta k) = (Z.land flags sendTypeMask =? SendTypeToDest)) as Hto by (by rewrite Hm).
  unfold hop. split; cbn [psrc pdst pcontent pmeta].
  - rewrite Hto, Hm. unfold step_meta, dec_Distance. cbn [Flags TTL Hops Distance Message.Length].
    rewrite (u8_small (ttl - 1)), (u8_small (Z.of_nat (length behind) + 1)) by (unfold is_u8; lia).
    destruct (_ =? _).
    + destruct before as [|b before]; [by specialize (Hne eq_refl)|]. cbn [length drop] in *.
      rewrite drop_0, (u8_small (_ - 1)) by (unfold is_u8; lia). f_equal; lia.
    + f_equal. cbn [length]. lia.
  - by rewrite Hs.
  - rewrite Hto, Hd. destruct (_ =? _); [|done].
    destruct before as [|b before]; [by specialize (Hne eq_refl)|]. cbn [drop].
    rewrite drop_0, path_cons. by apply zdrop_app_eq.
  - done.
Qed.

Definition link_ids_ok (links : list (Z * Z)) : Prop := Forall (λ l, is_u32 l.1 ∧ is_u32 l.2) links.

#[global] Instance link_ids_ok_dec links : Decision (link_ids_ok links).
Proof. unfold link_ids_ok. apply _. Defined.

Lemma CurID_path {S} (s : S) id ids :
  is_u32 id → MsgPath_CurID (path (id :: ids)) s = Ret (id, s).
Proof. intros Hid. unfold MsgPath_CurID. rewrite path_cons, be32_roundtrip by done. done. Qed.

(** One link, for a message that goes to anyone or along its path. *)
Lemma relay_run out pid maxL w msg k flags ttl behind before content :
  world_ok w → msg_at w msg k → travelling k flags ttl behind before content →
  is_u8 flags → is_u32 (zlen content) → (maxL = 0 ∨ zlen content ≤ maxL) → is_u32 out →
  1 ≤ ttl < 256 → Z.of_nat (length behind + length before) < 255 →
  (Z.land flags sendTypeMask = SendTypeToDest ∧ head before = Some out) ∨
  (Z.land flags sendTypeMask = SendTypeToOne ∧ before = []) →
  ∃ msg' w' k', relay out pid maxL msg w = Ret (inr msg', w') ∧ world_ok w' ∧ msg_at w' msg' k' ∧
    travelling k' flags (ttl - 1) (pid :: behind) (drop 1 before) content.
Proof.
  intros Hw Hat Htr Hf Hc Hmax Hout Ht Hn Hty.
  assert (packet_ok k) as Hk by (eapply travelling_ok; try done; unfold is_u8; lia).
  pose proof Htr as [Hm Hs Hd Hct].
  assert (receivable (pmeta k)) as Hr.
  { rewrite Hm. unfold receivable, to_dest, SendType. cbn. split_and!; [lia..|].
    rewrite Z.eqb_eq. intros E. destruct Hty as [[_ Hb]|[E' _]]; [|by rewrite E in E'].
    destruct before; [done|]. cbn. lia. }
  assert (fits (pmeta k) maxL) as Hfit by (rewrite Hm; exact Hmax).
  destruct (msg_at_read w msg k Hat) as (Hmeta & _ & Hrd & _).
  destruct (Encode_run w msg k Hw Hat) as (w2 & HE & Hwire & Hw2 & _).
  destruct (FromBytes_run pid k maxL w2) as (msg' & w3 & HB & Hb); [done..|].
  pose proof (hop_travelling k flags ttl behind before content pid Htr Ht ltac:(lia) ltac:(lia)) as Hhop.
  exists msg', w3, (hop pid k). split_and!; [|apply Hb|apply Hb|].
  - unfold relay. erewrite M_bind_ret_run by reflexivity. rewrite Hrd, Hd, Hmeta, Hm.
    unfold SendMsg_route, sendTo_route, SendType. cbn [Flags TTL Distance].
    rewrite (proj2 (Z.eqb_neq ttl 0)) by lia.
    destruct Hty as [[-> Hhd]|[-> ->]].
    + destruct before as [|o before]; [done|]. injection Hhd as ->. cbn [length].
      rewrite (proj2 (Z.eqb_neq (Z.of_nat (S (length before))) 0)) by lia. rewrite Z.eqb_refl.
      erewrite M_bind_ret_run by (erewrite M_bind_ret_run by (by apply CurID_path); reflexivity).
      cbv beta iota. rewrite Z.eqb_refl. go_step HE. erewrite M_bind_ret_run by reflexivity. by rewrite Hwire.
    + erewrite M_bind_ret_run by reflexivity. cbv beta iota. go_step HE. erewrite M_bind_ret_run by reflexivity.
      by rewrite Hwire.
  - destruct Hty as [[E Hhd]|[E ->]]; rewrite E in Hhop; apply Hhop.
    + intros _ ->. done.
    + done.
Qed.

(** A chain of links in the direction of the pipes [outs]. *)
Lemma carry_run links maxL w msg k flags ttl behind before content :
  world_ok w → msg_at w msg k → travelling k flags ttl behind before content →
  is_u8 flags → is_u32 (zlen content) → (maxL = 0 ∨ zlen content ≤ maxL) → link_ids_ok links →
  Z.of_nat (length links) ≤ ttl < 256 →
  Z.of_nat (length behind + length before + length links) < 256 →
  (Z.land flags sendTypeMask = SendTypeToDest ∧ before = links.*1) ∨
  (Z.land flags sendTypeMask = SendTypeToOne ∧ before = []) →
  ∃ msg' w' k', carry links maxL msg w = Ret (inr msg', w') ∧ world_ok w' ∧ msg_at w' msg' k' ∧
    travelling k' flags (ttl - Z.of_nat (length links)) (rev links.*2 ++ behind) [] content.
Proof.
  intros Hw Hat Htr Hf Hc Hmax Hids. revert w msg k ttl behind before Hw Hat Htr.
  induction Hids as [|[out pid] links [Ho Hp] Hids IH]; intros w msg k ttl behind before Hw Hat Htr Ht Hn Hty.
  - assert (before = []) as -> by naive_solver. exists msg, w, k.
    rewrite Z.sub_0_r. done.
  - cbn [length fmap list_fmap fst snd rev] in *.
    destruct (relay_run out pid maxL w msg k flags ttl behind before content)
      as (msg1 & w1 & k1 & HR & Hw1 & Hat1 & Htr1); try done; [lia| | |].
    { destruct Hty as [[_ ->]| [_ ->]]; cbn [length] in *; rewrite ?length_fmap in *; lia. }
    { destruct Hty as [[E ->]| [E ->]]; [by left|by right]. }
    destruct (IH w1 msg1 k1 (ttl - 1) (pid :: behind) (drop 1 before))
      as (msg2 & w2 & k2 & HC & Hw2 & Hat2 & Htr2); [done..|lia| | |].
    { destruct Hty as [[_ ->]| [_ ->]]; cbn [length drop] in *; rewrite ?drop_0, ?length_fmap in *; lia. }
    { destruct Hty as [[E ->]| [E ->]]; [left|right]; by rewrite ?drop_0. }
    exists msg2, w2, k2. cbn [carry]. go_step HR. split_and!; [done..|].
    rewrite <- app_assoc. cbn [app].
    by replace (ttl - Z.of_nat (S (length links))) with (ttl - 1 - Z.of_nat (length links)) by lia.
Qed.

Lemma carry_app l1 l2 maxL msg w msg1 w1 :
  carry l1 maxL msg w = Ret (inr msg1, w1) → carry (l1 ++ l2) maxL msg w = carry l2 maxL msg1 w1.
Proof.
  revert msg w. induction l1 as [|[o p] l1 IH]; intros msg w; cbn [carry app]; [by intros [= <- <-]|].
  intros (x & w2 & HR & HC)%M_bind_Ret. go_step HR. destruct x as [e|m]; [done|]. by apply IH.
Qed.

(** A new message to anyone, or along a path, starts its journey. *)
Lemma send_travelling sendType ttl ids content :
  Z.of_nat (length ids) < 256 → is_u32 (zlen content) →
  travelling (Packet (send_meta 0 sendType ttl [] (path ids) content) [] (path ids) content)
    (Z.lor 0 sendType) (if ttl =? 0 then DefaultMsgTTL else ttl) [] ids content.
Proof.
  intros Hn Hc. split; cbn [pmeta psrc pdst pcontent]; [|done..]. unfold send_meta, MsgPath_Length.
  rewrite zlen_path, (Z.mul_comm 4), Z.div_mul by lia.
  rewrite (u8_small (Z.of_nat _)), u32_small by first [done|unfold is_u8; lia]. done.
Qed.

Definition hops_left (ttl : Z) : Z := if ttl =? 0 then DefaultMsgTTL else ttl.

Lemma hops_left_range ttl : is_u8 ttl → 1 ≤ hops_left ttl < 256.
Proof. unfold is_u8, hops_left, DefaultMsgTTL. intros. destruct (Z.eqb_spec ttl 0); lia. Qed.

(** Sending a new message over a chain of links. *)
Lemma send_carry links maxL w ttl sendType ids content :
  world_ok w → is_u8 ttl → is_u32 (zlen content) → (maxL = 0 ∨ zlen content ≤ maxL) →
  link_ids_ok links → Z.of_nat (length links) ≤ hops_left ttl → Z.of_nat (length links) < 128 →
  (sendType = SendTypeToDest ∧ ids = links.*1) ∨ (sendType = SendTypeToOne ∧ ids = []) →
  ∃ msg w1 msg' w' k', NewSendMessage 0 sendType ttl [] (path ids) content w = Ret (msg, w1) ∧
    carry links maxL msg w1 = Ret (inr msg', w') ∧ world_ok w' ∧ msg_at w' msg' k' ∧
    travelling k' sendType (hops_left ttl - Z.of_nat (length links)) (rev links.*2) [] content.
Proof.
  intros Hw Httl Hc Hmax Hids Hlen Hlen' Hty. pose proof (hops_left_range ttl Httl).
  assert (Z.of_nat (length ids) < 128) as Hi.
  { destruct Hty as [[_ ->]|[_ ->]]; rewrite ?length_fmap; cbn; lia. }
  destruct (NewSendMessage_run 0 sendType ttl [] (path ids) content w Hw) as (msg & w1 & HN & Hb).
  assert (Z.lor 0 sendType = sendType) as Hst by apply Z.lor_0_l.
  pose proof (send_travelling sendType ttl ids content ltac:(lia) Hc) as Htr. rewrite Hst in Htr.
  destruct (carry_run links maxL w1 msg _ _ _ [] ids content (bu_ok _ _ _ _ Hb) (bu_at _ _ _ _ Hb) Htr)
    as (msg' & w' & k' & HC & Hw' & Hat & Htr'); try done.
  - by destruct Hty as [[-> _]|[-> _]].
  - fold (hops_left ttl). lia.
  - cbn [length]. lia.
  - destruct Hty as [[-> ->]|[-> ->]]; [by left|by right].
  - exists msg, w1, msg', w', k'. rewrite app_nil_r in Htr'. done.
Qed.

(** C3: replies find their way back: a request carried over any chain of links arrives with
    its content, and a reply sent to the [Source] of the arrived message is routed at each
    socket on the way to the very pipe the request came in on, arrives at the origin with
    its content and no distance left, and its own [Source] is the path of the pipes the
    request went out on, so that the origin can answer along it in turn. *)
Theorem reply_routes_back links maxL w ttl ttl' content answer :
  world_ok w → is_u8 ttl → is_u8 ttl' → is_u32 (zlen content) → is_u32 (zlen answer) →
  (maxL = 0 ∨ (zlen content ≤ maxL ∧ zlen answer ≤ maxL)) → link_ids_ok links →
  Z.of_nat (length links) ≤ hops_left ttl → Z.of_nat (length links) ≤ hops_left ttl' →
  Z.of_nat (length links) < 128 →
  ∃ msg w1 msg1 w2 rep w3 rep1 w4,
    NewSendMessage 0 SendTypeToOne ttl [] [] content w = Ret (msg, w1) ∧
    carry links maxL msg w1 = Ret (inr msg1, w2) ∧ wread w2 (Content msg1) = content ∧
    NewSendMessage 0 SendTypeToDest ttl' [] (wread w2 (Source msg1)) answer w2 = Ret (rep, w3) ∧
    carry (rev (prod_swap <$> links)) maxL rep w3 = Ret (inr rep1, w4) ∧
    wread w4 (Content rep1) = answer ∧ Distance (meta rep1) = 0 ∧
    wread w4 (Source rep1) = path links.*1.
Proof.
  intros Hw Ht Ht' Hc Ha Hmax Hids Hn Hn' Hn128.
  destruct (send_carry links maxL w ttl SendTypeToOne [] content)
    as (msg & w1 & msg1 & w2 & k1 & HN & HC & Hw2 & Hat & [Hm Hs Hd Hct]); try done; [naive_solver|by right|].
  destruct (msg_at_read w2 msg1 k1 Hat) as (_ & Hsrc & _ & Hcon).
  set (back := rev (prod_swap <$> links)).
  assert (back.*1 = rev links.*2) as Hb1.
  { unfold back. rewrite <- !map_rev. clear. induction (rev links) as [|[] l IH]; cbn; congruence. }
  assert (back.*2 = rev links.*1) as Hb2.
  { unfold back. rewrite <- !map_rev. clear. induction (rev links) as [|[] l IH]; cbn; congruence. }
  assert (length back = length links) as Hbl by (unfold back; by rewrite length_rev, length_fmap).
  destruct (send_carry back maxL w2 ttl' SendTypeToDest back.*1 answer)
    as (rep & w3 & rep1 & w4 & k2 & HN2 & HC2 & _ & Hat2 & [Hm2 Hs2 Hd2 Hct2]);
    try done; [naive_solver| |by rewrite Hbl|by rewrite Hbl|by left|].
  { unfold link_ids_ok, back. apply Forall_rev, Forall_fmap.
    eapply Forall_impl; [exact Hids|]. intros [] [? ?]. done. }
  destruct (msg_at_read w4 rep1 k2 Hat2) as (Hmeta2 & Hsrc2 & _ & Hcon2).
  exists msg, w1, msg1, w2, rep, w3, rep1, w4. split_and!; try done.
  - by rewrite Hcon.
  - by rewrite Hsrc, Hs, <- Hb1.
  - by rewrite Hcon2.
  - by rewrite Hmeta2, Hm2.
  - by rewrite Hsrc2, Hs2, Hb2, rev_involutive.
Qed.

(** C21: the time to live bounds the journey: a message crosses as many links as its TTL says
    (16 when none is given) and the socket after the last of them drops it, whatever the
    rest of the chain, so a message cannot circle for ever in a cyclic network. *)
Theorem ttl_bounds_journey links maxL w ttl content :
  world_ok w → is_u8 ttl → is_u32 (zlen content) → (maxL = 0 ∨ zlen content ≤ maxL) →
  link_ids_ok links → hops_left ttl < 128 → hops_left ttl < Z.of_nat (length links) →
  ∃ msg w1 w2, NewSendMessage 0 SendTypeToOne ttl [] [] content w = Ret (msg, w1) ∧
    carry links maxL msg w1 = Ret (inl ErrMsgDropped, w2).
Proof.
  intros Hw Ht Hc Hmax Hids Hlt Hlen. pose proof (hops_left_range ttl Ht).
  set (n := Z.to_nat (hops_left ttl)).
  assert (length (take n links) = n) as Hn by (apply length_take_le; lia).
  destruct (send_carry (take n links) maxL w ttl SendTypeToOne [] content)
    as (msg & w1 & msg1 & w2 & k1 & HN & HC & Hw2 & Hat & [Hm Hs Hd Hct]);
    try done; [by apply Forall_take|lia|lia|by right|].
  exists msg, w1, w2. split; [done|]. rewrite <- (take_drop n links).
  rewrite (carry_app _ _ _ _ _ _ _ HC). destruct (drop n links) as [|[o p] rest] eqn:E.
  { apply (f_equal length) in E. rewrite length_drop in E. cbn in E. lia. }
  destruct (msg_at_read w2 msg1 k1 Hat) as (Hmeta & _).
  cbn [carry]. unfold relay. rewrite Hmeta, Hm, Hn.
  replace (hops_left ttl - Z.of_nat n) with 0 by lia. reflexivity.
Qed.

(** ** Concrete instances *)

Definition demo_links : list (Z * Z) := [(3, 1); (7, 2); (4, 9)].

Lemma reply_routes_back_witness :
  ∃ msg w1 msg1 w2 rep w3 rep1 w4,
    NewSendMessage 0 SendTypeToOne 0 [] [] [104; 105] (world_init []) = Ret (msg, w1) ∧
    carry demo_links 16 msg w1 = Ret (inr msg1, w2) ∧ wread w2 (Content msg1) = [104; 105] ∧
    NewSendMessage 0 SendTypeToDest 3 [] (wread w2 (Source msg1)) [1] w2 = Ret (rep, w3) ∧
    carry [(9, 4); (2, 7); (1, 3)] 16 rep w3 = Ret (inr rep1, w4) ∧
    wread w4 (Content rep1) = [1] ∧ Distance (meta rep1) = 0 ∧
    wread w4 (Source rep1) = path [3; 7; 4].
Proof.
  apply (reply_routes_back demo_links 16 (world_init []) 0 3 [104; 105] [1]); try done.
  - apply world_init_ok.
  - right. done.
  - refine (bool_decide_unpack _ _). vm_compute. exact I.
Defined.

Lemma ttl_bounds_journey_witness :
  ∃ msg w1 w2, NewSendMessage 0 SendTypeToOne 2 [] [] [104; 105] (world_init []) = Ret (msg, w1) ∧
    carry demo_links 0 msg w1 = Ret (inl ErrMsgDropped, w2).
Proof.
  apply (ttl_bounds_journey demo_links 0 (world_init []) 2 [104; 105]); try done.
  - apply world_init_ok.
  - by left.
  - refine (bool_decide_unpack _ _). vm_compute. exact I.
Defined.
