(* ===== verification/Transport.v ===== *)
(** transport/transport.go, conn.go, types.go: the schemes of addresses, the registry of
    transports and the connections they hand out.

    The registry is a map under schemes, guarded by a lock that every operation takes and
    releases; [T] stands for the values of the interface Transport. *)
From S2P Require Import Prelude Errs Options.
From stdpp Require Import base tactics gmap strings.
From Stdlib Require Import Ascii ZArith.

(** [strings.Index(s, sub)], [None] for -1; [s[n:]] and [s[:n]] *)
Fixpoint Index (s sub : string) : option nat :=
  if String.prefix sub s then Some 0%nat else
  match s with
  | EmptyString => None
  | String _ s => S <$> Index s sub
  end.
Fixpoint str_drop (n : nat) (s : string) : string :=
  match n, s with S n, String _ s => str_drop n s | _, _ => s end.
Fixpoint str_take (n : nat) (s : string) : string :=
  match n, s with S n, String c s => String c (str_take n s) | _, _ => EmptyString end.

Definition StripScheme (addr : string) : err + string :=
  match Index addr "://" with
  | None => inl ErrBadTransport
  | Some i => inr (str_drop (i + 3) addr)
  end.

Definition ParseScheme (addr : string) : string :=
  match Index addr "://" with
  | None => EmptyString
  | Some i => str_take i addr
  end.

Section registry.
Context {T : Type} (Scheme : T → string).

Definition RegisterTransport (t : T) (transports : gmap string T) : gmap string T :=
  <[Scheme t := t]> transports.
Definition RegisterTransportWithScheme (t : T) (scheme : string) (transports : gmap string T) : gmap string T :=
  <[scheme := t]> transports.
Definition GetTransport (scheme : string) (transports : gmap string T) : option T := transports !! scheme.
Definition GetTransportFromAddr (addr : string) (transports : gmap string T) : option T :=
  GetTransport (ParseScheme addr) transports.
End registry.

(** [ResolveTCPAddr]: the wildcard is dropped; [resolve] is net.ResolveTCPAddr. *)
Definition ResolveTCPAddr {A} (resolve : string → err + A) (addr : string) : err + A :=
  resolve (if String.prefix "*" addr then str_drop 1 addr else addr).

(** ** Connections *)

(** [Address], a net.Addr *)
Record Address := NewAddress { Network : string; addr_String : string }.

(** [connection] over a net.Conn of type [C] *)
Record connection (C : Type) := mkConnection { tran : string; raw_conn : C; laddr : string; raddr : string }.
Arguments mkConnection {C} tran raw_conn laddr raddr.
Arguments tran {C} c : rename.
Arguments raw_conn {C} c : rename.
Arguments laddr {C} c : rename.
Arguments raddr {C} c : rename.

(** [local] and [remote] are the addresses of the net.Conn. *)
Definition NewConnection {C} (scheme : string) (c : C) (local remote : Address) (accepted : bool) : connection C :=
  if accepted
  then mkConnection scheme c (scheme +:+ "://" +:+ addr_String local) (Network remote +:+ "://" +:+ addr_String remote)
  else mkConnection scheme c (Network local +:+ "://" +:+ addr_String local) (scheme +:+ "://" +:+ addr_String remote).

(** [Writev]: [net.Buffers.WriteTo] writes the buffers one by one up to an error. *)
Fixpoint Writev {C} (Write : list Z → C → Z * option err * C) (v : list (list Z)) (c : C) : Z * option err * C :=
  match v with
  | [] => (0%Z, None, c)
  | b :: v =>
      let '(n, e, c) := Write b c in
      match e with
      | Some e => (n, Some e, c)
      | None => let '(m, e, c) := Writev Write v c in ((n + m)%Z, e, c)
      end
  end.

(** ** Addresses with a scheme *)

(** No colon, as in every URL scheme. *)
Fixpoint no_colon (s : string) : bool :=
  match s with EmptyString => true | String c s => negb (Ascii.eqb c ":") && no_colon s end.

Lemma prefix_sep_cons c s : Ascii.eqb c ":" = false → String.prefix "://" (String c s) = false.
Proof.
  intros H. cbn [String.prefix]. destruct (Ascii.ascii_dec ":" c) as [<-|]; [discriminate H|done].
Qed.

Lemma Index_scheme x y : no_colon x = true → Index (x +:+ "://" +:+ y) "://" = Some (String.length x).
Proof.
  induction x as [|c x IH]; [intros _; cbn; by destruct y|]. cbn [no_colon].
  intros [Hc%negb_true_iff Hx]%andb_true_iff. change (String c x +:+ "://" +:+ y)%string with (String c (x +:+ "://" +:+ y)).
  cbn [Index]. rewrite prefix_sep_cons, IH by done. done.
Qed.

Lemma str_take_app x y : str_take (String.length x) (x +:+ y) = x.
Proof. induction x as [|c x IH]; cbn; [by destruct y|]. by f_equal. Qed.
Lemma str_drop_app n x y : str_drop (String.length x + n) (x +:+ y) = str_drop n y.
Proof. by induction x. Qed.

(** A scheme and what follows it are taken apart as they were put together. *)
Lemma ParseScheme_app x y : no_colon x = true → ParseScheme (x +:+ "://" +:+ y) = x.
Proof. intros H. unfold ParseScheme. rewrite Index_scheme by done. apply str_take_app. Qed.
Lemma StripScheme_app x y : no_colon x = true → StripScheme (x +:+ "://" +:+ y) = inr y.
Proof.
  intros H. unfold StripScheme. rewrite Index_scheme by done. f_equal. rewrite str_drop_app. by destruct y.
Qed.
