(* ===== verification/Schemes.v ===== *)
(** The registrations of the transports: the [init] functions of transport/tcp, ipc, ws and of the
    packages under transport/inproc, which transport/all/all.go imports. *)
From S2P Require Import Prelude Errs Transport.
From stdpp Require Import base tactics gmap list strings sorting.
From Stdlib Require Import ZArith Lia.
Open Scope string_scope.

Inductive transport := Tcp | Ipc | WsRw | WsSr | ChannelRw | ChannelSr | ChannelMsr | IoPipe | NetPipe.
#[global] Instance transport_eq_dec : EqDecision transport.
Proof. solve_decision. Defined.

(** [Scheme] of every transport *)
Definition Scheme (t : transport) : string :=
  match t with
  | Tcp => "tcp" | Ipc => "ipc" | WsRw => "ws.rw" | WsSr => "ws.sr"
  | ChannelRw => "inproc.channel.rw" | ChannelSr => "inproc.channel.sr" | ChannelMsr => "inproc.channel.msr"
  | IoPipe => "inproc.iopipe" | NetPipe => "inproc.netpipe"
  end.

Definition reg : transport → gmap string transport → gmap string transport := RegisterTransport Scheme.

Definition tcp_init : gmap string transport → gmap string transport := reg Tcp.
Definition ipc_init : gmap string transport → gmap string transport := reg Ipc.
Definition ws_init (m : gmap string transport) : gmap string transport :=
  RegisterTransportWithScheme WsSr "ws" (reg WsSr (reg WsRw m)).
(** The three files of package channel *)
Definition channel_init : gmap string transport → gmap string transport := reg ChannelRw.
Definition channel_sr_init : gmap string transport → gmap string transport := reg ChannelSr.
Definition channel_msr_init (m : gmap string transport) : gmap string transport :=
  RegisterTransportWithScheme ChannelMsr "inproc.channel" (reg ChannelMsr m).
Definition inproc_init : gmap string transport → gmap string transport := RegisterTransportWithScheme ChannelMsr "inproc".
Definition iopipe_init : gmap string transport → gmap string transport := reg IoPipe.
Definition netpipe_init : gmap string transport → gmap string transport := reg NetPipe.

Definition inits : list (gmap string transport → gmap string transport) :=
  [channel_init; channel_msr_init; channel_sr_init; inproc_init; iopipe_init; netpipe_init; ipc_init; tcp_init; ws_init].
Definition run_inits (l : list (gmap string transport → gmap string transport)) : gmap string transport := foldl (λ m f, f m) ∅ l.

(** The schemes of addresses and what they stand for. *)
Definition schemes : list (string * transport) :=
  [("inproc", ChannelMsr); ("inproc.channel", ChannelMsr); ("ws", WsSr); ("tcp", Tcp); ("ipc", Ipc); ("ws.rw", WsRw);
   ("ws.sr", WsSr); ("inproc.channel.rw", ChannelRw); ("inproc.channel.sr", ChannelSr);
   ("inproc.channel.msr", ChannelMsr); ("inproc.iopipe", IoPipe); ("inproc.netpipe", NetPipe)].

(** What an [init] function writes. *)
Definition writes (f : gmap string transport → gmap string transport) : gmap string transport := f ∅.

Lemma init_writes f m : f ∈ inits → f m = writes f ∪ m.
Proof.
  intros H. unfold inits in H. unfold writes. repeat (apply elem_of_cons in H as [->|H]); [..|by apply not_elem_of_nil in H];
    rewrite <- (left_id_L ∅ (∪) m) at 1;
    unfold channel_init, channel_msr_init, channel_sr_init, inproc_init, iopipe_init, netpipe_init, ipc_init, tcp_init, ws_init,
      reg, RegisterTransport, RegisterTransportWithScheme; by rewrite ?insert_union_l.
Qed.

(** The table of an [init] function agrees with [schemes], and they make up the whole of it. *)
Definition writes_list : list (string * transport) := flat_map (λ f, map_to_list (writes f)) inits.

Lemma elem_of_writes_list s t : (s, t) ∈ writes_list ↔ ∃ f, f ∈ inits ∧ writes f !! s = Some t.
Proof.
  unfold writes_list. rewrite list_elem_of_In, in_flat_map. setoid_rewrite <- list_elem_of_In.
  setoid_rewrite elem_of_map_to_list. done.
Qed.
Lemma writes_list_schemes : writes_list ≡ₚ schemes.
Proof. apply (bool_decide_unpack _). vm_compute. exact I. Qed.
Lemma schemes_functional s t t' : (s, t) ∈ schemes → (s, t') ∈ schemes → t = t'.
Proof.
  assert (Hnd : NoDup schemes.*1) by (apply (bool_decide_unpack _); vm_compute; exact I).
  intros H1 H2. revert H1 H2.
  rewrite !list_elem_of_lookup. intros [i H1] [j H2].
  assert (i = j) as ->.
  { eapply NoDup_lookup; [exact Hnd| |]; rewrite list_lookup_fmap; [rewrite H1|rewrite H2]; done. }
  congruence.
Qed.

Lemma run_lookup l m : (∀ f, f ∈ l → f ∈ inits) → (∀ s t, m !! s = Some t → (s, t) ∈ schemes) →
  (∀ s t, foldl (λ m f, f m) m l !! s = Some t ↔ m !! s = Some t ∨ ∃ f, f ∈ l ∧ writes f !! s = Some t) ∧
  (∀ s t, foldl (λ m f, f m) m l !! s = Some t → (s, t) ∈ schemes).
Proof.
  assert (Hw : ∀ f s t, f ∈ inits → writes f !! s = Some t → (s, t) ∈ schemes).
  { intros f s t Hf H. rewrite <- writes_list_schemes. apply elem_of_writes_list. by exists f. }
  revert m. induction l as [|f l IH]; intros m Hl Hm; cbn [foldl].
  { split; [|done]. intros s t. split; [by left|]. intros [?|(f & ?%not_elem_of_nil & _)]; done. }
  assert (Hf : f ∈ inits) by (apply Hl; by left).
  assert (Hfm : ∀ s t, f m !! s = Some t ↔ m !! s = Some t ∨ writes f !! s = Some t).
  { intros s t. rewrite (init_writes f m Hf), lookup_union_Some_raw. split; [naive_solver|].
    intros [H|H]; [|by left]. destruct (writes f !! s) as [t'|] eqn:E; [|by right].
    left. f_equal. eapply schemes_functional; [by eapply Hw|by apply Hm]. }
  destruct (IH (f m)) as [H1 H2]; [intros g Hg; apply Hl; by right|intros s t [H|H]%Hfm; [by apply Hm|by eapply Hw]|].
  split; [|done]. intros s t. rewrite H1, Hfm. setoid_rewrite elem_of_cons. naive_solver.
Qed.

Lemma run_inits_lookup l s t : l ≡ₚ inits → run_inits l !! s = Some t ↔ (s, t) ∈ schemes.
Proof.
  intros Hl. destruct (run_lookup l ∅) as [H1 H2]; [intros f; by rewrite Hl|done|].
  split; [apply H2|]. intros H. apply H1. right. rewrite <- writes_list_schemes in H.
  apply elem_of_writes_list in H as (f & Hf & Hs). exists f. by rewrite Hl.
Qed.

(** whatever order the packages are initialised in, the registry holds the same table:
    an address of the form scheme://rest is given to the transport the table lists for its
    scheme - "inproc" and "inproc.channel" to the message channels, "ws" to the whole-message
    websocket transport - and no other scheme has one. *)
Theorem registered_schemes l x rest t : l ≡ₚ inits → no_colon x = true →
  GetTransportFromAddr (x +:+ "://" +:+ rest) (run_inits l) = Some t ↔ (x, t) ∈ schemes.
Proof.
  intros Hl Hx. unfold GetTransportFromAddr, GetTransport. rewrite ParseScheme_app by done. by apply run_inits_lookup.
Qed.

Lemma registered_schemes_witness :
  GetTransportFromAddr "ws://host:80/x" (run_inits (reverse inits)) = Some WsSr.
Proof.
  apply (registered_schemes (reverse inits) "ws" "host:80/x" WsSr).
  - apply reverse_Permutation.
  - reflexivity.
  - right. right. left.
Defined.
