(* ===== verification/Address.v ===== *)
(** address/address.go: one line that says whom to connect to, how, and with which options.

    Package net/url is not modelled: [url_Parse] and the [URL] it returns are parameters.
    The query is a Go map, enumerated in an arbitrary order: [Query] lists its entries in
    the order of one enumeration.  A [DialListener] is the interface the address is handed
    to; connector.go implements it. *)
From S2P Require Import Prelude Errs Options OptionSet OptionReg Transport.
From stdpp Require Import base tactics gmap list strings.
From Stdlib Require Import ZArith Lia.

Record URL := mkURL {
  u_Scheme : string; u_Host : string; u_Path : string; u_Fragment : string;
  Query : list (string * list string) }.

Definition ConnDial : string := "dial".
Definition ConnListen : string := "listen".

Record multiSocketAddress := mkAddress {
  raw : string; connType : string; addr : string; ovs : gmap Option value }.

(** The texts of the errors: [ErrBadConnectType], and those of the option parsers. *)
Definition bad_connect_type : string := "bad connect type".

(** [q.Get(k)] for a present key *)
Definition Get (vs : list string) : string := default EmptyString (head vs).

Section parse.
Context (ParseDuration : string → Z * option err) (url_Parse : string → string + URL).

(** The loop over the query; [None]: blocked on the registry's lock. *)
Fixpoint parse_query (q : list (string * list string)) (acc : gmap Option value) (g : registry)
  : option ((string + gmap Option value) * registry) :=
  match q with
  | [] => Some (inr acc, g)
  | (k, vs) :: q =>
      r ← ParseOption k g;
      match r with
      | (inl e, g) => Some (inl e, g)
      | (inr opt, g) =>
          match Parse ParseDuration opt (default EmptyString (optionFullNames g !! opt)) (Get vs) with
          | (_, Some e) => Some (inl e, g)
          | (val, None) => parse_query q (<[opt := val]> acc) g
          end
      end
  end.

Definition connect_type (fragment : string) : option string :=
  if bool_decide (fragment = "dial") then Some ConnDial
  else if bool_decide (fragment = "listen") then Some ConnListen
  else if bool_decide (fragment = "") then Some EmptyString
  else None.

Definition ParseMultiSocketAddress (s : string) (g : registry)
  : option ((string + multiSocketAddress) * registry) :=
  match url_Parse s with
  | inl e => Some (inl e, g)
  | inr u =>
      let address := (u_Scheme u +:+ "://" +:+ u_Host u +:+ u_Path u)%string in
      match connect_type (u_Fragment u) with
      | None => Some (inl bad_connect_type, g)
      | Some ct =>
          r ← parse_query (Query u) ∅ g;
          match r with
          | (inl e, g) => Some (inl e, g)
          | (inr m, g) => Some (inr (mkAddress s ct address m), g)
          end
      end
  end.
End parse.

(** ** Connecting *)

(** A call of the interface is an action [F] of its own; [refuse e] only answers the error [e]. *)
Class DialListener (F : Type) := {
  DialOptions : string → gmap Option value → F;
  ListenOptions : string → gmap Option value → F;
  refuse : err → F }.

(** The values of the address, overridden by the callers' values, the last ones first. *)
Definition merge_values (sa : multiSocketAddress) (ovses : list (gmap Option value)) : gmap Option value :=
  foldl (λ xovs m, m ∪ xovs) (ovs sa) ovses.

Section connect.
Context {F : Type} `{!DialListener F}.

Definition Dial (sa : multiSocketAddress) (ovses : list (gmap Option value)) : F :=
  DialOptions (addr sa) (merge_values sa ovses).
Definition Listen (sa : multiSocketAddress) (ovses : list (gmap Option value)) : F :=
  ListenOptions (addr sa) (merge_values sa ovses).

Definition Connect (sa : multiSocketAddress) (ovses : list (gmap Option value)) : F :=
  if bool_decide (connType sa = ConnDial) then Dial sa ovses
  else if bool_decide (connType sa = ConnListen) then Listen sa ovses
  else refuse ErrConnectTypeMissing.
End connect.

(** The package's functions [Connect], [Dial] and [Listen]: a line is parsed first; the text of an
    error of [ParseMultiSocketAddress], or the call that is made.  [None]: blocked. *)
Section lines.
Context {F : Type} `{!DialListener F} (PD : string → Z * option err) (url_Parse : string → string + URL).

Definition on_line (act : multiSocketAddress → F) (s : string) (g : registry) : option ((string + F) * registry) :=
  r ← ParseMultiSocketAddress PD url_Parse s g;
  match r with
  | (inl e, g) => Some (inl e, g)
  | (inr sa, g) => Some (inr (act sa), g)
  end.
Definition Connect_line (s : string) (ovses : list (gmap Option value)) := on_line (λ sa, Connect sa ovses) s.
Definition Dial_line (s : string) (ovses : list (gmap Option value)) := on_line (λ sa, Dial sa ovses) s.
Definition Listen_line (s : string) (ovses : list (gmap Option value)) := on_line (λ sa, Listen sa ovses) s.
End lines.

(** ** Facts *)

Section facts.
Context (PD : string → Z * option err).

(** What the entry [(k, vs)] of a query sets. *)
Definition sets_option (g : registry) (k : string) (vs : list string) (opt : Option) (v : value) : Prop :=
  ParseOption k g = Some (inr opt, g) ∧
  Parse PD opt (default EmptyString (optionFullNames g !! opt)) (Get vs) = (v, None).

Lemma ParseOption_inr k g opt g' : ParseOption k g = Some (inr opt, g') → g' = g ∧ locked g = false.
Proof.
  unfold ParseOption. destruct (locked g); [done|]. destruct (find_at _ _ _); [|done]. by intros [= _ <-].
Qed.
Lemma ParseOption_inl k g e g' : ParseOption k g = Some (inl e, g') → locked g' = true.
Proof.
  unfold ParseOption. destruct (locked g); [done|]. destruct (find_at _ _ _); [done|]. by intros [= _ <-].
Qed.

(** A query that parses sets what its entries say, the last entry of an option wins, and
    nothing else; the registry is left as it was. *)
Lemma parse_query_inr q acc g m g' :
  parse_query PD q acc g = Some (inr m, g') → g' = g ∧
  (∀ opt v, m !! opt = Some v → acc !! opt = Some v ∨ ∃ k vs, (k, vs) ∈ q ∧ sets_option g k vs opt v) ∧
  (∀ k vs, (k, vs) ∈ q → ∃ opt v, sets_option g k vs opt v ∧ is_Some (m !! opt)) ∧
  (∀ opt, is_Some (acc !! opt) → is_Some (m !! opt)).
Proof.
  revert acc. induction q as [|[k vs] q IH]; intros acc; cbn [parse_query].
  { intros [= <- <-]. split; [done|]. split; [by left|]. split; [|done]. by intros k vs ?%not_elem_of_nil. }
  destruct (ParseOption k g) as [[[e|opt] g1]|] eqn:Ek; [done| |done]. cbn.
  apply ParseOption_inr in Ek as Hg. destruct Hg as [-> _].
  destruct (Parse _ _ _ _) as [v [e|]] eqn:Ev; [done|]. intros (-> & H1 & H2 & H3)%IH.
  split; [done|]. split_and!.
  - intros o w [Hacc|(k' & vs' & Hin & Hs)]%H1.
    + destruct (decide (o = opt)) as [->|].
      * rewrite lookup_insert_eq in Hacc. injection Hacc as <-. right. exists k, vs. split; [by left|by split].
      * rewrite lookup_insert_ne in Hacc by done. by left.
    + right. exists k', vs'. split; [by right|done].
  - intros k' vs' [[= -> ->]|Hin]%elem_of_cons; [|by apply H2].
    exists opt, v. split; [by split|]. apply H3. rewrite lookup_insert_eq. by eexists.
  - intros o Ho. apply H3. destruct (decide (o = opt)) as [->|].
    + rewrite lookup_insert_eq. by eexists.
    + by rewrite lookup_insert_ne.
Qed.

(** A query fails at its first bad entry; on an unknown name the registry stays locked. *)
Lemma parse_query_total q acc g :
  locked g = false →
  (∀ k vs, (k, vs) ∈ q → ∃ opt v, sets_option g k vs opt v) →
  ∃ m, parse_query PD q acc g = Some (inr m, g).
Proof.
  revert acc. induction q as [|[k vs] q IH]; intros acc Hl Hall; cbn [parse_query]; [by eexists|].
  destruct (Hall k vs) as (opt & v & E1 & E2); [by left|]. rewrite E1. cbn. rewrite E2.
  apply IH; [done|]. intros k' vs' ?. apply Hall. by right.
Qed.
End facts.

Lemma merge_values_lookup sa ovses o :
  merge_values sa ovses !! o =
    foldl (λ r m, match m !! o with Some v => Some v | None => r end) (ovs sa !! o) ovses.
Proof.
  unfold merge_values. generalize (ovs sa). induction ovses as [|m ovses IH]; intros x; [done|].
  cbn [foldl]. rewrite IH, lookup_union. by destruct (m !! o), (x !! o).
Qed.

(** ** Claims *)


(** The value of the last map that has one. *)
Definition last_value (ms : list (gmap Option value)) (o : Option) : option value :=
  head (omap (λ m, m !! o) (reverse ms)).

(** Connecting to an address makes exactly the call its connect type says, with the
    address and for each option the value of the last of the callers' maps that has one,
    the address's own value otherwise; without a connect type nothing is called. *)
Lemma connect_options_override {F} `{!DialListener F} sa ovses :
  ∃ m, (∀ o, m !! o = last_value (ovs sa :: ovses) o) ∧
    Connect sa ovses =
      if bool_decide (connType sa = "dial"%string) then DialOptions (addr sa) m
      else if bool_decide (connType sa = "listen"%string) then ListenOptions (addr sa) m
      else refuse ErrConnectTypeMissing.
Proof.
  exists (merge_values sa ovses). split; [|done]. intros o. rewrite merge_values_lookup.
  unfold last_value. generalize (ovs sa) as x.
  assert (Hgen : ∀ x, foldl (λ r m, match m !! o with Some v => Some v | None => r end) (x !! o) ovses =
    head (omap (λ m : gmap Option value, m !! o) (reverse (x :: ovses)))); [|exact Hgen].
  induction ovses as [|m l IH] using rev_ind; intros x.
  - cbn. by destruct (x !! o).
  - rewrite foldl_app. cbn [foldl]. rewrite IH. change (x :: l ++ [m]) with ((x :: l) ++ [m]).
    rewrite reverse_app. cbn. by destruct (m !! o).
Qed.

(** [inproc://here?connector.pipelimit=3&Socket.NoRecv=t#dial], as net/url takes it apart. *)
Definition demo_url : URL :=
  mkURL "inproc" "here" "" "dial" [("connector.pipelimit", ["3"]); ("Socket.NoRecv", ["t"; "f"])]%string.

Definition demo_registry : registry :=
  match register_all [(Connector.PipeLimit, "PipeLimit", ["Connector"]); (Socket.NoRecv, "NoRecv", ["Socket"])]%string
          registry_init with
  | Some (Ret g) => g
  | _ => registry_init
  end.

Lemma demo_named k opt : bool_decide (named demo_registry (Split k) = Some opt) = true →
  ParseOption k demo_registry = Some (inr opt, demo_registry).
Proof. intros H%bool_decide_eq_true. by rewrite ParseOption_named, H by (vm_compute; reflexivity). Qed.

