(* ===== verification/Inproc.v ===== *)
(** transport/inproc/inproc.go: how dialers and listeners of one process meet.

    A transport keeps one listener per address ([byAddr]).  [Listen], [Accept], [Dial] and
    [Close] are cut at their critical sections and channel operations; [istep] interleaves
    them.  A listener's [accepts] is a reference to a channel, nil until [Listen] has made
    it; a [select] evaluates it once, when it is entered.  The channel [ac] a dialer hands
    over is named by its call; the pipe an [Accept] creates is named by that call, its two
    ends are what the two calls return.  [owner] is a ghost field. *)
From S2P Require Import Prelude Errs Transport.
From stdpp Require Import base tactics numbers gmap list strings relations.
From Stdlib Require Import ZArith Lia.
Open Scope Z_scope.

Definition defaultAcceptQueueSize : Z := 8.

Record listener := mkListener {
  l_addr : string; closedq : bool; accepts : option nat; acceptedCount : Z }.

Record achan := mkChan { owner : nat; queue : list nat }.

(** Where a call of [Dial] is. *)
Inductive dial_phase :=
  | DFound (l : nat) | DSend (l : nat) (ac : option nat) | DWait (l : nat)
  | DRefused | DConnected (a : nat).
Record dialing := mkDialing { d_addr : string; d_l : option nat; d_phase : dial_phase }.

(** Where a call of [Accept] is; [n] numbers the remote address. *)
Inductive accept_phase :=
  | AFound (l : nat) | ASelect (l : nat) (ac : option nat) | AOffer (l t : nat) (n : Z)
  | AFailed (e : err) | AAccepted (l t : nat) (n : Z).

(** The rest of a call of [Listen] or [Close]. *)
Inductive ltask := LAdd (l : nat) | LMake (l : nat) | CRemove (l : nat).
#[global] Instance ltask_eq_dec : EqDecision ltask.
Proof. solve_decision. Defined.

Record iworld := mkI {
  byAddr : gmap string nat; ltab : gmap nat listener; chans : gmap nat achan;
  dials : gmap nat dialing; accs : gmap nat accept_phase; pend : list ltask; next_ref : nat }.

Definition NewTransport : iworld := mkI ∅ ∅ ∅ ∅ ∅ [] 0.

(** ** The registry of listeners *)

Definition getListenerByAddr (a : string) (w : iworld) : option nat := byAddr w !! a.

Definition isListening (l : nat) (x : listener) (w : iworld) : bool :=
  bool_decide (byAddr w !! l_addr x = Some l).

Definition with_byAddr (m : gmap string nat) (w : iworld) : iworld :=
  mkI m (ltab w) (chans w) (dials w) (accs w) (pend w) (next_ref w).

Definition addListener (l : nat) (x : listener) (w : iworld) : bool * option err * iworld :=
  match byAddr w !! l_addr x with
  | Some xl => (false, if bool_decide (xl = l) then None else Some ErrAddrInUse, w)
  | None => (true, None, with_byAddr (<[l_addr x := l]> (byAddr w)) w)
  end.

Definition removeListener (l : nat) (x : listener) (w : iworld) : iworld :=
  if bool_decide (byAddr w !! l_addr x = Some l) then with_byAddr (delete (l_addr x) (byAddr w)) w else w.

(** ** State changes *)

Definition put_l (l : nat) (x : listener) (w : iworld) : iworld :=
  mkI (byAddr w) (<[l := x]> (ltab w)) (chans w) (dials w) (accs w) (pend w) (next_ref w).
Definition put_c (c : nat) (x : achan) (w : iworld) : iworld :=
  mkI (byAddr w) (ltab w) (<[c := x]> (chans w)) (dials w) (accs w) (pend w) (next_ref w).
Definition put_d (t : nat) (x : dialing) (w : iworld) : iworld :=
  mkI (byAddr w) (ltab w) (chans w) (<[t := x]> (dials w)) (accs w) (pend w) (next_ref w).
Definition put_a (a : nat) (x : accept_phase) (w : iworld) : iworld :=
  mkI (byAddr w) (ltab w) (chans w) (dials w) (<[a := x]> (accs w)) (pend w) (next_ref w).
Definition with_pend (p : list ltask) (w : iworld) : iworld :=
  mkI (byAddr w) (ltab w) (chans w) (dials w) (accs w) p (next_ref w).
(** A new reference. *)
Definition bump (w : iworld) : iworld :=
  mkI (byAddr w) (ltab w) (chans w) (dials w) (accs w) (pend w) (S (next_ref w)).

Definition phase_of (x : dialing) (p : dial_phase) : dialing := mkDialing (d_addr x) (d_l x) p.
Definition close_l (x : listener) : listener := mkListener (l_addr x) true (accepts x) (acceptedCount x).

(** ** The calls, step by step *)

(** [NewListener] and [NewDialer]: the address without its scheme *)
Definition NewListener (addr : string) (w : iworld) : (err + nat) * iworld :=
  match StripScheme addr with
  | inl e => (inl e, w)
  | inr a => (inr (next_ref w), bump (put_l (next_ref w) (mkListener a false None 0) w))
  end.
Definition NewDialer (addr : string) : err + string := StripScheme addr.

(** [Listen]: the answer, or the step that goes on; then [addListener]; then the channel. *)
Definition Listen (l : nat) (x : listener) (w : iworld) : option err * iworld :=
  if closedq x then (Some ErrClosed, w) else (None, with_pend (LAdd l :: pend w) w).
Definition Listen_add (l : nat) (x : listener) (w : iworld) : option err * iworld :=
  let '(ok, e, w) := addListener l x w in
  if ok then (None, with_pend (LMake l :: pend w) w) else (e, w).
Definition Listen_make (l : nat) (x : listener) (w : iworld) : iworld :=
  let c := next_ref w in
  bump (put_l l (mkListener (l_addr x) (closedq x) (Some c) (acceptedCount x)) (put_c c (mkChan l []) w)).

(** [Dial] up to its first select *)
Definition Dial (a : string) (w : iworld) : iworld :=
  bump (put_d (next_ref w) (match getListenerByAddr a w with
                            | None => mkDialing a None DRefused
                            | Some l => mkDialing a (Some l) (DFound l)
                            end) w).

(** [Accept] up to its first select *)
Definition Accept (l : nat) (x : listener) (w : iworld) : iworld :=
  bump (put_a (next_ref w) (if isListening l x w then AFound l else AFailed ErrNotListening) w).

Definition Close (l : nat) (x : listener) (w : iworld) : option err * iworld :=
  if closedq x then (Some ErrClosed, w)
  else (None, with_pend (CRemove l :: pend w) (put_l l (close_l x) w)).

(** The task [t] is taken from the pending ones. *)
Definition taken (t : ltask) (w w' : iworld) : Prop :=
  ∃ l1 l2, pend w = l1 ++ t :: l2 ∧ w' = with_pend (l1 ++ l2) w.

Inductive istep : iworld → iworld → Prop :=
  | s_new addr w : istep w (NewListener addr w).2
  | s_listen l x w : ltab w !! l = Some x → istep w (Listen l x w).2
  | s_add l x w w0 : taken (LAdd l) w w0 → ltab w0 !! l = Some x → istep w (Listen_add l x w0).2
  | s_make l x w w0 : taken (LMake l) w w0 → ltab w0 !! l = Some x → istep w (Listen_make l x w0)
  | s_dial a w : istep w (Dial a w)
  | s_dial_enter t d l x w :
      dials w !! t = Some d → d_phase d = DFound l → ltab w !! l = Some x →
      istep w (put_d t (phase_of d (DSend l (accepts x))) w)
  | s_dial_closed t d l x w :
      dials w !! t = Some d → ((∃ c, d_phase d = DSend l c) ∨ d_phase d = DWait l) →
      ltab w !! l = Some x → closedq x = true →
      istep w (put_d t (phase_of d DRefused) w)
  | s_dial_send t d l c k w :
      dials w !! t = Some d → d_phase d = DSend l (Some c) → chans w !! c = Some k →
      zlen (queue k) < defaultAcceptQueueSize →
      istep w (put_d t (phase_of d (DWait l)) (put_c c (mkChan (owner k) (queue k ++ [t])) w))
  | s_accept l x w : ltab w !! l = Some x → istep w (Accept l x w)
  | s_accept_enter a l x w :
      accs w !! a = Some (AFound l) → ltab w !! l = Some x →
      istep w (put_a a (ASelect l (accepts x)) w)
  | s_accept_closed a l x w :
      ((∃ c, accs w !! a = Some (ASelect l c)) ∨ (∃ t n, accs w !! a = Some (AOffer l t n))) →
      ltab w !! l = Some x → closedq x = true →
      istep w (put_a a (AFailed ErrClosed) w)
  | s_accept_take a l x c k t q w :
      accs w !! a = Some (ASelect l (Some c)) → ltab w !! l = Some x →
      chans w !! c = Some k → queue k = t :: q →
      istep w (put_a a (AOffer l t (acceptedCount x + 1))
                (put_l l (mkListener (l_addr x) (closedq x) (accepts x) (acceptedCount x + 1))
                  (put_c c (mkChan (owner k) q) w)))
  | s_meet a t l l' n d w :
      accs w !! a = Some (AOffer l t n) → dials w !! t = Some d → d_phase d = DWait l' →
      istep w (put_a a (AAccepted l t n) (put_d t (phase_of d (DConnected a)) w))
  | s_close l x w : ltab w !! l = Some x → istep w (Close l x w).2
  | s_remove l x w w0 : taken (CRemove l) w w0 → ltab w0 !! l = Some x → istep w (removeListener l x w0).

Definition ireached : iworld → Prop := rtc istep NewTransport.
