(* ===== verification/InprocThms.v ===== *)
(** In-process connections: who is connected to whom, and an address that is lost for good. *)
From S2P Require Import Prelude Errs Transport Inproc.
From stdpp Require Import base tactics numbers gmap list strings relations.
From Stdlib Require Import ZArith Lia.
Open Scope Z_scope.

(** ** Facts that last *)

Definition at_addr (w : iworld) (l : nat) (a : string) : Prop := ∃ x, ltab w !! l = Some x ∧ l_addr x = a.
Definition owned (w : iworld) (c l : nat) : Prop := ∃ k, chans w !! c = Some k ∧ owner k = l.
Definition dials_to (w : iworld) (t l : nat) : Prop := ∃ d, dials w !! t = Some d ∧ d_l d = Some l.
Definition connected (w : iworld) (t a : nat) : Prop := ∃ d, dials w !! t = Some d ∧ d_phase d = DConnected a.
Definition accepted (w : iworld) (a t : nat) : Prop := ∃ l n, accs w !! a = Some (AAccepted l t n).

Definition is_conn (p : dial_phase) : bool := match p with DConnected _ => true | _ => false end.
Definition is_acc (p : accept_phase) : bool := match p with AAccepted _ _ _ => true | _ => false end.

Definition dial_ok (w : iworld) (d : dialing) : Prop :=
  (∀ l, d_l d = Some l → at_addr w l (d_addr d)) ∧
  match d_phase d with
  | DFound l | DWait l | DSend l None => d_l d = Some l
  | DSend l (Some c) => d_l d = Some l ∧ owned w c l
  | _ => True
  end.
Definition acc_ok (w : iworld) (p : accept_phase) : Prop :=
  match p with
  | ASelect l (Some c) => owned w c l
  | AOffer l t _ | AAccepted l t _ => dials_to w t l
  | _ => True
  end.

Record iinv (w : iworld) : Prop := IInv {
  k_addr : ∀ a l, byAddr w !! a = Some l → at_addr w l a;
  k_lis : ∀ l x c, ltab w !! l = Some x → accepts x = Some c → owned w c l;
  k_chan : ∀ c k t, chans w !! c = Some k → t ∈ queue k → dials_to w t (owner k);
  k_dial : ∀ t d, dials w !! t = Some d → dial_ok w d;
  k_acc : ∀ a p, accs w !! a = Some p → acc_ok w p;
  k_meet : ∀ t a, connected w t a ↔ accepted w a t }.

Definition all_fresh (w : iworld) : Prop := ∀ n, (next_ref w ≤ n)%nat →
  ltab w !! n = None ∧ chans w !! n = None ∧ dials w !! n = None ∧ accs w !! n = None.

(** [w'] still knows what [w] knew. *)
Record lasts (w w' : iworld) : Prop := Lasts {
  ls_addr : ∀ l a, at_addr w l a → at_addr w' l a;
  ls_owned : ∀ c l, owned w c l → owned w' c l;
  ls_dials : ∀ t l, dials_to w t l → dials_to w' t l }.

Lemma dial_ok_lasts w w' d : lasts w w' → dial_ok w d → dial_ok w' d.
Proof.
  intros [H1 H2 H3] [Ha Hp]. split; [by eauto|]. destruct (d_phase d) as [|? []| | |]; naive_solver.
Qed.
Lemma acc_ok_lasts w w' p : lasts w w' → acc_ok w p → acc_ok w' p.
Proof. intros [H1 H2 H3]. destruct p as [|? []| | |]; cbn; auto. Qed.

(** The meeting records are those of the tables of dials and accepts. *)
Lemma meet_same w w' : dials w' = dials w → accs w' = accs w →
  (∀ t a, connected w t a ↔ accepted w a t) → ∀ t a, connected w' t a ↔ accepted w' a t.
Proof. intros E1 E2. unfold connected, accepted. by rewrite E1, E2. Qed.

(** ** Single changes *)

Lemma inv_put_l w l x : iinv w →
  (∀ x0, ltab w !! l = Some x0 → l_addr x = l_addr x0) →
  (∀ c, accepts x = Some c → owned w c l) → iinv (put_l l x w).
Proof.
  intros [I1 I2 I3 I4 I5 I6] Ha Hc.
  assert (Hl : lasts w (put_l l x w)).
  { split; [|done|done]. intros l0 a (x0 & H0 & <-). unfold at_addr. cbn.
    destruct (decide (l = l0)) as [<-|]; [rewrite lookup_insert_eq|rewrite lookup_insert_ne by done];
      eexists; split; eauto. }
  split.
  - intros a l0 H. by apply Hl, I1.
  - intros l0 x0 c. cbn. rewrite lookup_insert_Some. intros [[<- <-]|[_ H]]; [by apply Hc|by eapply I2].
  - exact I3.
  - intros t d H. eapply dial_ok_lasts; [exact Hl|by eapply I4].
  - intros a p H. eapply acc_ok_lasts; [exact Hl|by eapply I5].
  - by apply (meet_same w).
Qed.

Lemma inv_put_c w c k : iinv w →
  (∀ k0, chans w !! c = Some k0 → owner k = owner k0) →
  (∀ t, t ∈ queue k → dials_to w t (owner k)) → iinv (put_c c k w).
Proof.
  intros [I1 I2 I3 I4 I5 I6] Ho Hq.
  assert (Hl : lasts w (put_c c k w)).
  { split; [done| |done]. intros c0 l (k0 & H0 & <-). unfold owned. cbn.
    destruct (decide (c = c0)) as [<-|]; [rewrite lookup_insert_eq|rewrite lookup_insert_ne by done];
      eexists; split; eauto. }
  split.
  - exact I1.
  - intros l x c0 H1 H2. apply Hl. by eapply I2.
  - intros c0 k0 t. cbn. rewrite lookup_insert_Some. intros [[<- <-]|[_ H]]; [by apply Hq|by eapply I3].
  - intros t d H. eapply dial_ok_lasts; [exact Hl|by eapply I4].
  - intros a p H. eapply acc_ok_lasts; [exact Hl|by eapply I5].
  - by apply (meet_same w).
Qed.

Lemma lasts_put_d w t d :
  (∀ d0, dials w !! t = Some d0 → d_l d = d_l d0) → lasts w (put_d t d w).
Proof.
  intros Hd. split; [done|done|]. intros t0 l (d0 & H0 & H1). unfold dials_to. cbn.
  destruct (decide (t = t0)) as [<-|]; [rewrite lookup_insert_eq|rewrite lookup_insert_ne by done];
    eexists; split; eauto. by rewrite (Hd _ H0).
Qed.

Lemma inv_put_d w t d : iinv w →
  (∀ d0, dials w !! t = Some d0 → d_l d = d_l d0 ∧ is_conn (d_phase d0) = false) →
  dial_ok w d → is_conn (d_phase d) = false → iinv (put_d t d w).
Proof.
  intros [I1 I2 I3 I4 I5 I6] Hd Hok Hc.
  assert (Hl : lasts w (put_d t d w)) by (apply lasts_put_d; naive_solver).
  split.
  - exact I1.
  - exact I2.
  - intros c k t0 H1 H2. apply Hl. by eapply I3.
  - intros t0 d0. cbn. rewrite lookup_insert_Some. intros [[<- <-]|[_ H]]; eapply dial_ok_lasts; eauto.
  - intros a p H. eapply acc_ok_lasts; [exact Hl|by eapply I5].
  - intros t0 a. change (accepted (put_d t d w) a t0) with (accepted w a t0). rewrite <- I6. unfold connected. cbn.
    destruct (decide (t = t0)) as [<-|].
    + rewrite lookup_insert_eq. split; [intros (? & [= <-] & E); by rewrite E in Hc|].
      intros (d0 & H0 & E). destruct (Hd _ H0) as [_ Hf]. by rewrite E in Hf.
    + by rewrite lookup_insert_ne.
Qed.

Lemma inv_put_a w a p : iinv w →
  (∀ p0, accs w !! a = Some p0 → is_acc p0 = false) → acc_ok w p → is_acc p = false → iinv (put_a a p w).
Proof.
  intros [I1 I2 I3 I4 I5 I6] Ha Hok Hp. split; [done..| | |].
  - exact I4.
  - intros a0 p0. cbn. rewrite lookup_insert_Some. intros [[<- <-]|[_ H]]; [exact Hok|by apply (I5 a0)].
  - intros t a0. change (connected (put_a a p w) t a0) with (connected w t a0). rewrite I6. unfold accepted. cbn.
    destruct (decide (a = a0)) as [<-|].
    + rewrite lookup_insert_eq. split; intros (l & n & H); [by apply Ha in H|by simplify_eq].
    + by rewrite lookup_insert_ne.
Qed.

Lemma inv_with_pend w p : iinv w → iinv (with_pend p w).
Proof. by intros [I1 I2 I3 I4 I5 I6]. Qed.
Lemma inv_bump w : iinv w → iinv (bump w).
Proof. by intros [I1 I2 I3 I4 I5 I6]. Qed.

Lemma inv_byAddr w m : iinv w → (∀ a l, m !! a = Some l → at_addr w l a) → iinv (with_byAddr m w).
Proof. by intros [I1 I2 I3 I4 I5 I6] Hm. Qed.

Lemma inv_addListener l x w : iinv w → ltab w !! l = Some x → iinv (addListener l x w).2.
Proof.
  intros I Hl. unfold addListener. destruct (byAddr w !! l_addr x); [done|]. apply inv_byAddr; [done|].
  intros a l0 [[<- <-]|[_ H]]%lookup_insert_Some; [by exists x|by apply I].
Qed.

Lemma inv_removeListener l x w : iinv w → iinv (removeListener l x w).
Proof.
  intros I. unfold removeListener. case_bool_decide; [|done]. apply inv_byAddr; [done|].
  intros a l0 [_ H1]%lookup_delete_Some. by apply I.
Qed.

(** Two calls meet: both end, together. *)
Lemma inv_meet a t l l' n d w : iinv w →
  accs w !! a = Some (AOffer l t n) → dials w !! t = Some d → d_phase d = DWait l' →
  iinv (put_a a (AAccepted l t n) (put_d t (phase_of d (DConnected a)) w)).
Proof.
  intros [I1 I2 I3 I4 I5 I6] Ha Hd Hp.
  assert (Hl : lasts w (put_a a (AAccepted l t n) (put_d t (phase_of d (DConnected a)) w))).
  { destruct (lasts_put_d w t (phase_of d (DConnected a))); [intros d0 H0; by simplify_eq|by split]. }
  split.
  - intros a0 l0 H. by apply Hl, I1.
  - exact I2.
  - intros c k t0 H1 H2. apply Hl. by eapply I3.
  - intros t0 d0. cbn. rewrite lookup_insert_Some. intros [[<- <-]|[_ H]].
    + split; [|done]. cbn. intros l0 H0. by apply (I4 _ _ Hd).
    + eapply dial_ok_lasts; [exact Hl|by eapply I4].
  - intros a0 p0. cbn. rewrite lookup_insert_Some. intros [[<- <-]|[_ H]].
    + apply Hl. by apply (I5 _ _ Ha).
    + eapply acc_ok_lasts; [exact Hl|by eapply I5].
  - intros t0 a0. specialize (I6 t0 a0). unfold connected, accepted in *. cbn.
    assert (Hnot : ∀ a1, ¬ ∃ d0, dials w !! t = Some d0 ∧ d_phase d0 = DConnected a1) by (intros a1 (d0 & ? & ?); congruence).
    destruct (decide (t = t0)) as [<-|Ht], (decide (a = a0)) as [<-|Hne];
      rewrite ?lookup_insert_eq, ?lookup_insert_ne by done.
    + split; intros _; [by eauto|eexists; by split].
    + split; [intros (d0 & [= <-] & [= E]); congruence|]. intros H. by apply I6, Hnot in H.
    + split; [intros H|intros (l0 & n0 & [= _ E]); congruence]. apply I6 in H as (l0 & n0 & H). congruence.
    + exact I6.
Qed.

Lemma taken_same t w w0 : taken t w w0 → iinv w → iinv w0.
Proof. intros (l1 & l2 & _ & ->). apply inv_with_pend. Qed.

Lemma istep_inv w w' : istep w w' → all_fresh w → iinv w → iinv w'.
Proof.
  intros Hs Hf I. destruct (Hf (next_ref w)) as (F1 & F2 & F3 & F4); [lia|]. destruct Hs.
  - unfold NewListener. destruct (StripScheme addr); [done|]. apply inv_bump, inv_put_l; [done|congruence|done].
  - unfold Listen. destruct (closedq x); [done|]. by apply inv_with_pend.
  - eapply taken_same in I; [|done]. eapply inv_addListener in I; [|done]. unfold Listen_add.
    destruct (addListener l x w0) as [[[] e] w1]; [|done]. by apply inv_with_pend.
  - assert (next_ref w0 = next_ref w ∧ chans w0 = chans w) as [E1 E2] by (by destruct H as (? & ? & _ & ->)).
    eapply taken_same in I; [|done]. apply inv_bump, inv_put_l; [apply inv_put_c; [done| |]| |].
    + rewrite E1, E2. congruence.
    + by intros t0 ?%not_elem_of_nil.
    + intros x0 H1. cbn in H1. by simplify_eq.
    + cbn. intros c [= <-]. eexists. cbn. rewrite lookup_insert_eq. done.
  - apply inv_bump, inv_put_d; [done|intros; congruence| |by destruct (getListenerByAddr a w)].
    destruct (getListenerByAddr a w) as [l|] eqn:E; split; cbn; try done.
    intros l0 [= <-]. by apply I.
  - pose proof (k_dial _ I _ _ H) as [Ha Hp]. rewrite H0 in Hp.
    apply inv_put_d; [done| |split; [done|]|done].
    + intros d0 Hd0. simplify_eq. by rewrite H0.
    + cbn. destruct (accepts x) as [c|] eqn:Ec; [|done]. split; [done|]. by eapply (k_lis _ I).
  - apply inv_put_d; [done| |split; [|done]|done].
    + intros d0 Hd0. simplify_eq. split; [done|]. by destruct H0 as [[c ->]| ->].
    + apply (k_dial _ I _ _ H).
  - pose proof (k_dial _ I _ _ H) as [Ha Hp]. rewrite H0 in Hp. destruct Hp as (Hp & k0 & Hk0 & Ho).
    apply inv_put_d; [|intros d0 Hd0; cbn in Hd0; simplify_eq; by rewrite H0|split; done|done].
    simplify_eq. apply inv_put_c; [done|intros; by simplify_eq|]. cbn. intros t0 [Ht|Ht%list_elem_of_singleton]%elem_of_app.
    + by eapply (k_chan _ I).
    + subst. by exists d.
  - apply inv_bump, inv_put_a; [done|intros; congruence|by case_match|by case_match].
  - apply inv_put_a; [done|intros; by simplify_eq| |done]. cbn. destruct (accepts x) eqn:Ec; [|done].
    by eapply (k_lis _ I).
  - apply inv_put_a; [done| |done|done]. intros p0 Hp0. by destruct H as [[c E]|(t & n & E)]; simplify_eq.
  - pose proof (k_acc _ I _ _ H) as (k0 & Hk0 & Ho). simplify_eq.
    apply inv_put_a; [apply inv_put_l; [apply inv_put_c; [done|intros; by simplify_eq|]| |]| | |done].
    + intros t0 Ht0. apply (k_chan _ I _ _ _ H1). rewrite H2. by right.
    + cbn. intros x0 Hx0. by simplify_eq.
    + cbn. intros c0 Hc0. destruct (k_lis _ I _ _ _ H0 Hc0) as (k1 & Hk1 & Ho1). unfold owned. cbn.
      destruct (decide (c = c0)) as [<-|]; [rewrite lookup_insert_eq|rewrite lookup_insert_ne by done]; eexists; split; try done.
    + cbn. intros p0 Hp0. by simplify_eq.
    + cbn. apply (k_chan _ I _ _ t H1). rewrite H2. by left.
  - by eapply inv_meet.
  - unfold Close. destruct (closedq x); [done|]. apply inv_with_pend, inv_put_l; [done|intros; by simplify_eq|].
    intros c Hc. by eapply (k_lis _ I).
  - eapply taken_same in I; [|done]. by apply inv_removeListener.
Qed.

Ltac fresh_key := let H := fresh "Hk" in intros H; subst; first [congruence | lia].
Ltac fresh_case Hf :=
  let m := fresh "m" in intros m Hn; cbn in Hn |- *; destruct (Hf m) as (?&?&?&?); [lia|];
  repeat rewrite lookup_insert_ne by fresh_key; done.

Lemma istep_fresh w w' : istep w w' → all_fresh w → all_fresh w'.
Proof.
  intros Hs Hf.
  assert (Ht : ∀ t w0, taken t w w0 → all_fresh w0) by (intros t w0 (? & ? & _ & ->); exact Hf).
  destruct Hs; try fresh_case Hf.
  - unfold NewListener. destruct (StripScheme addr); [done|]. fresh_case Hf.
  - unfold Listen. destruct (closedq x); exact Hf.
  - apply Ht in H. unfold Listen_add, addListener. destruct (byAddr w0 !! l_addr x); cbn; [done|]. exact H.
  - apply Ht in H. fresh_case H.
  - destruct H as [[? H]|(? & ? & H)]; fresh_case Hf.
  - unfold Close. destruct (closedq x); cbn; fresh_case Hf.
  - apply Ht in H. unfold removeListener. case_bool_decide; [exact H|done].
Qed.

Lemma ireached_inv w : ireached w → iinv w ∧ all_fresh w.
Proof.
  intros H. unfold ireached in H. apply (rtc_ind_r (λ w, iinv w ∧ all_fresh w) NewTransport) in H; [exact H| |].
  - split; [|done]. split; try done. intros t a. split; [intros (d & E & _)|intros (l & n & E)]; cbn in E; by rewrite lookup_empty in E.
  - intros w1 w2 _ Hs [I F]. split; [by eapply istep_inv|by eapply istep_fresh].
Qed.

(** ** Claims *)

(** C14: dialers and listeners are paired off: in every interleaving, a [Dial] has returned an
    end of the pipe that the [Accept] call [a] created exactly when [a] has returned the
    other end and handed its pipe to that [Dial]; so no pipe has three ends or one, and no
    call has two pipes.  The two calls meet on one address. *)
Theorem inproc_pairs w t a d :
  ireached w → dials w !! t = Some d →
  (d_phase d = DConnected a ↔ ∃ l n, accs w !! a = Some (AAccepted l t n)) ∧
  (∀ l n, accs w !! a = Some (AAccepted l t n) → ∃ x, ltab w !! l = Some x ∧ l_addr x = d_addr d).
Proof.
  intros [I _]%ireached_inv Hd. split.
  - rewrite <- (k_meet _ I t a). unfold connected. split; [by exists d|]. intros (d0 & ? & ?). by simplify_eq.
  - intros l n Ha. apply (k_acc _ I) in Ha as (d0 & Hd0 & Hl). simplify_eq.
    apply (k_dial _ I) in Hd as [Hd _]. by apply Hd.
Qed.

(** The state of an address whose listener is closed and will not be removed. *)
Definition dead_address (a : string) (l : nat) (w : iworld) : Prop :=
  byAddr w !! a = Some l ∧ (∃ x, ltab w !! l = Some x ∧ l_addr x = a ∧ closedq x = true) ∧
  (CRemove l ∉ pend w) ∧ all_fresh w.

Lemma taken_dead t w w0 a l : taken t w w0 → dead_address a l w → dead_address a l w0.
Proof.
  intros (l1 & l2 & E & ->) (H1 & H2 & H3 & H4). split_and!; [done|done| |done].
  cbn. rewrite E in H3. set_solver.
Qed.

(** Nothing brings it back. *)
Lemma dead_step a l w w' : dead_address a l w → istep w w' → dead_address a l w'.
Proof.
  intros Hd Hs. assert (Hf : all_fresh w') by (eapply istep_fresh; [exact Hs|by destruct Hd as (_ & _ & _ & ?)]).
  assert (Ht : ∀ t w0, taken t w w0 → dead_address a l w0) by (intros t w0 H; by eapply taken_dead).
  assert (Hput : ∀ w1 l0 x0 x, byAddr w1 !! a = Some l → ltab w1 !! l0 = Some x0 → l_addr x = l_addr x0 →
    (closedq x0 = true → closedq x = true) → (∃ y, ltab w1 !! l = Some y ∧ l_addr y = a ∧ closedq y = true) →
    ∃ y, <[l0 := x]> (ltab w1) !! l = Some y ∧ l_addr y = a ∧ closedq y = true).
  { intros w1 l0 x0 x _ H0 Ha Hc (y & Hy & Hya & Hyc). destruct (decide (l0 = l)) as [->|].
    - rewrite lookup_insert_eq. exists x. simplify_eq. by repeat split; auto.
    - rewrite lookup_insert_ne by done. by exists y. }
  destruct Hs as [addr w|m x w Hx|m x w w0 Hk Hx|m x w w0 Hk Hx| | | | | | | |b m x c k t q w Hb Hx| |m x w Hx|m x w w0 Hk Hx];
    try (pose proof Hk as Hk0; apply Ht in Hk; rename Hd into Hd0; rename Hk into Hd);
    destruct Hd as (D1 & D2 & D3 & D4); try by split_and!.
  - unfold NewListener in *. destruct (StripScheme addr); [by split_and!|]. split_and!; [done| |done|done].
    destruct D2 as (y & Hy & Hya & Hyc). exists y. cbn.
    rewrite lookup_insert_ne; [done|]. intros <-. destruct (D4 (next_ref w)) as [E _]; [lia|]. congruence.
  - unfold Listen in *. destruct (closedq x); split_and!; try done. cbn. set_solver.
  - unfold Listen_add, addListener in *. destruct (byAddr w0 !! l_addr x) eqn:E; split_and!; try done.
    + cbn. rewrite lookup_insert_ne; [done|]. congruence.
    + cbn. set_solver.
  - split_and!; [done| |done|done]. by apply (Hput w0 m x).
  - split_and!; [done| |done|done]. by apply (Hput w m x).
  - unfold Close in *. destruct (closedq x) eqn:Ec; split_and!; try done.
    + by apply (Hput w m x).
    + cbn. destruct D2 as (y & Hy & Hya & Hyc). intros [E|E]%elem_of_cons; [|done]. injection E as <-. congruence.
  - unfold removeListener in *. case_bool_decide as E; [|by split_and!]. split_and!; try done.
    cbn. rewrite lookup_delete_ne; [done|]. intros <-. rewrite D1 in E. injection E as <-.
    destruct Hd0 as (_ & _ & Hn & _), Hk0 as (l1 & l2 & Ep & _). rewrite Ep in Hn. set_solver.
Qed.

(** A listener on [inproc://x] is closed while its [Listen] is between the look at [closedq]
    and [addListener]. *)
Definition race_listener (closed : bool) : listener := mkListener "x" closed None 0.
Definition race_listening : iworld := (Listen 0 (race_listener false) (NewListener "inproc://x" NewTransport).2).2.
Definition race_closing : iworld := (Close 0 (race_listener false) race_listening).2.
Definition race_removed : iworld := removeListener 0 (race_listener true) (with_pend [LAdd 0] race_closing).
Definition race_added : iworld := (Listen_add 0 (race_listener true) (with_pend [] race_removed)).2.
Definition race_end : iworld := Listen_make 0 (race_listener true) (with_pend [] race_added).

Lemma race_run : ireached race_end.
Proof.
  apply (rtc_l _ _ (NewListener "inproc://x" NewTransport).2); [apply s_new|].
  apply (rtc_l _ _ race_listening); [apply s_listen; vm_compute; reflexivity|].
  apply (rtc_l _ _ race_closing); [apply s_close; vm_compute; reflexivity|].
  apply (rtc_l _ _ race_removed); [eapply s_remove; [by exists [], [LAdd 0]|vm_compute; reflexivity]|].
  apply (rtc_l _ _ race_added); [eapply s_add; [by exists [], []|vm_compute; reflexivity]|].
  apply rtc_once. eapply s_make; [by exists [], []|vm_compute; reflexivity].
Qed.

(** An address can be lost: when [Close] runs inside [Listen], between its look at
    [closedq] and [addListener], the closed listener stays registered for ever - nothing is
    pending, yet in every later state it holds the address, and any other listener on it
    is refused with [ErrAddrInUse]. *)
Theorem closed_listener_keeps_address :
  ∃ w l, ireached w ∧ pend w = [] ∧ ∀ w', rtc istep w w' →
    byAddr w' !! "x"%string = Some l ∧ (∃ x, ltab w' !! l = Some x ∧ closedq x = true) ∧
    ∀ l' x', ltab w' !! l' = Some x' → l_addr x' = "x"%string → l' ≠ l →
      (addListener l' x' w').1 = (false, Some ErrAddrInUse).
Proof.
  exists race_end, 0%nat. split; [exact race_run|]. split; [reflexivity|]. intros w' Hr.
  assert (Hd : dead_address "x" 0 race_end).
  { split; [vm_compute; reflexivity|]. split; [|split; [by intros ?%not_elem_of_nil|]].
    - exists (mkListener "x" true (Some 1%nat) 0). vm_compute. done.
    - apply ireached_inv, race_run. }
  assert (Hd' : dead_address "x" 0 w') by (induction Hr; [done|]; by apply IHHr; [eapply dead_step]).
  destruct Hd' as (H1 & (y & Hy & _ & Hc) & _). split; [done|]. split; [by exists y|].
  intros l' x' _ Ha Hne. unfold addListener. rewrite Ha, H1, bool_decide_eq_false_2 by congruence. done.
Qed.

(** ** Witness: one dialer and one listener meet *)

Definition demo_listener : listener := mkListener "x" false (Some 1%nat) 0.
Definition demo_world : iworld :=
  mkI {["x"%string := 0%nat]} {[0%nat := mkListener "x" false (Some 1%nat) 1]} {[1%nat := mkChan 0 []]}
    {[2%nat := mkDialing "x" (Some 0%nat) (DConnected 3)]} {[3%nat := AAccepted 0 2 1]} [] 4.

Lemma demo_run : ireached demo_world.
Proof.
  apply (rtc_l _ _ (NewListener "inproc://x" NewTransport).2); [apply s_new|].
  eapply rtc_l; [eapply (s_listen 0); vm_compute; reflexivity|].
  eapply rtc_l; [eapply (s_add 0); [by exists [], []|vm_compute; reflexivity]|].
  eapply rtc_l; [eapply (s_make 0); [by exists [], []|vm_compute; reflexivity]|].
  eapply rtc_l; [apply (s_dial "x")|].
  eapply rtc_l; [eapply (s_dial_enter 2); vm_compute; reflexivity|].
  eapply rtc_l; [eapply (s_dial_send 2); vm_compute; reflexivity|].
  eapply rtc_l; [eapply (s_accept 0); vm_compute; reflexivity|].
  eapply rtc_l; [eapply (s_accept_enter 3); vm_compute; reflexivity|].
  eapply rtc_l; [eapply (s_accept_take 3); vm_compute; reflexivity|].
  eapply rtc_l; [eapply (s_meet 3 2); vm_compute; reflexivity|].
  vm_compute. apply rtc_refl.
Qed.

Lemma inproc_pairs_witness :
  ∃ l n, accs demo_world !! 3%nat = Some (AAccepted l 2 n) ∧ l = 0%nat ∧ n = 1.
Proof.
  destruct (inproc_pairs demo_world 2 3 (mkDialing "x" (Some 0%nat) (DConnected 3)) demo_run) as [[H _] _].
  - vm_compute. reflexivity.
  - destruct (H eq_refl) as (l & n & E). exists l, n. split; [exact E|]. vm_compute in E. injection E as <- <-. done.
Defined.
