(* ===== verification/Channel.v ===== *)
(** transport/inproc/channel: pipes over Go channels, in one direction.

    The two ends of a pipe share the channel and [closedq]; [half] is one direction: the
    writer's channel with what the reader holds of it.  The directions of a pipe are
    independent but for [closedq].  An operation that would wait is [None].  When the pipe
    is closed and the channel has room the [select] of a send picks either case: [pick]
    chooses.  A receive finds the remaining items in both cases of its [select], so it
    needs no choice.  [bytespool.Free] of a chunk is an entry of [freed].  A
    send hands the slice itself over; the sender of connector/pipe.go keeps off it from then on
    (its free level leaves the buffer to the reader), so a chunk is its bytes here. *)
From S2P Require Import Prelude Errs GoIO.
From stdpp Require Import base tactics numbers list.
From Stdlib Require Import ZArith Lia.
Open Scope Z_scope.

(** ** Items *)

Section items.
Context {A : Type}.

Record half := mkHalf { items : list A; size : Z; closedq : bool; last : option A; freed : list A }.

(** [createPipe] *)
Definition newHalf (bufferSize : Z) : half := mkHalf [] bufferSize false None [].

Definition Close (h : half) : option err * half :=
  if closedq h then (Some ErrClosed, h) else (None, mkHalf (items h) (size h) true (last h) (freed h)).

(** [select { case <-p.closedq: ... case p.wc <- b: }]: on a channel without a buffer the
    send waits for a receiver, which is [waiting]. *)
Definition Send (pick waiting : bool) (b : A) (h : half) : option (option err * half) :=
  let room := if size h =? 0 then waiting && (zlen (items h) =? 0) else zlen (items h) <? size h in
  let sent := (None, mkHalf (items h ++ [b]) (size h) (closedq h) (last h) (freed h)) in
  match closedq h, room with
  | true, true => Some (if pick then (Some ErrClosed, h) else sent)
  | true, false => Some (Some ErrClosed, h)
  | false, true => Some sent
  | false, false => None
  end.

(** The two nested [select]s of a receive *)
Definition take_item (h : half) : option (option A * option err * half) :=
  match items h with
  | b :: rest => Some (Some b, None, mkHalf rest (size h) (closedq h) (last h) (freed h))
  | [] => if closedq h then Some (None, Some ErrClosed, h) else None
  end.

(** [Recv] of srPipe: the item handed out before is released. *)
Definition Recv (h : half) : option (option A * option err * half) :=
  let h := mkHalf (items h) (size h) (closedq h) None (match last h with Some b => freed h ++ [b] | None => freed h end) in
  match take_item h with
  | None => None
  | Some (b, e, h) => Some (b, e, mkHalf (items h) (size h) (closedq h) b (freed h))
  end.
End items.
Arguments half A : clear implicits.

(** The pipe of messages: the same on channels of messages, released with [FreeAll]. *)
Section msr.
Context {Msg : Type}.
Definition newMsrPipe : Z → half Msg := newHalf.
Definition msr_SendMsg : bool → bool → Msg → half Msg → option (option err * half Msg) := Send.
Definition msr_RecvMsg : half Msg → option (option Msg * option err * half Msg) := Recv.
End msr.

(** ** Bytes: [pipe.Read] and [pipe.Write]; [ri] is the index in the chunk [last] *)

Record bpipe := mkB { hf : half (list Z); ri : nat }.

Definition newPipe (bufferSize : Z) : bpipe := mkB (newHalf bufferSize) 0.

Fixpoint Read_loop (fuel : nat) (n : Z) (p : bpipe) : option (list Z * option err * bpipe) :=
  match fuel with
  | O => None
  | S fuel =>
      let h := hf p in
      match last h with
      | None =>
          match take_item h with
          | None => None
          | Some (_, Some e, h) => Some ([], Some e, mkB h (ri p))
          | Some (b, None, h) => Read_loop fuel n (mkB (mkHalf (items h) (size h) (closedq h) b (freed h)) 0)
          end
      | Some s =>
          if (length s <=? ri p)%nat
          then Read_loop fuel n (mkB (mkHalf (items h) (size h) (closedq h) None (freed h ++ [s])) (ri p))
          else let bs := ztake n (drop (ri p) s) in
               Some (bs, None, mkB h (ri p + length bs))
      end
  end.

(** Two rounds for every chunk and two more are enough. *)
Definition Read (n : Z) (p : bpipe) : option (list Z * option err * bpipe) :=
  Read_loop (2 * length (items (hf p)) + 3) n p.

Definition Write (pick waiting : bool) (b : list Z) (p : bpipe) : option (Z * option err * bpipe) :=
  match Send pick waiting b (hf p) with
  | None => None
  | Some (Some e, h) => Some (0, Some e, mkB h (ri p))
  | Some (None, h) => Some (zlen b, None, mkB h (ri p))
  end.

Definition pipe_Close (p : bpipe) : option err * bpipe :=
  let '(e, h) := Close (hf p) in (e, mkB h (ri p)).

(** What was written and not yet read. *)
Definition unread (p : bpipe) : list Z :=
  match last (hf p) with Some s => drop (ri p) s | None => [] end ++ concat (items (hf p)).

Lemma chunk_next n i (s : list Z) : 0 < n → (i < length s)%nat →
  let bs := ztake n (drop i s) in
  drop i s = bs ++ drop (i + length bs) s ∧ bs ≠ [] ∧ zlen bs ≤ n.
Proof.
  intros Hn Hi bs. assert (Hl : length bs = min (Z.to_nat n) (length s - i)).
  { unfold bs, ztake. by rewrite length_take, length_drop. }
  split; [|split; [|unfold zlen; lia]].
  - rewrite <- drop_drop, <- (take_drop (length bs) (drop i s)) at 1. f_equal.
    unfold bs at 2, ztake. rewrite Hl. pose proof (length_drop s i).
    destruct (Nat.min_spec (Z.to_nat n) (length s - i)) as [[? ->]|[? ->]]; [done|].
    rewrite !take_ge by lia. done.
  - intros E. rewrite E in Hl. cbn in Hl. lia.
Qed.

(** What [Read] does: it hands out the next bytes, at least one; it waits only when there are
    none and the pipe is open; it fails only when there are none and the pipe is closed. *)
Definition read_result (n : Z) (p : bpipe) (r : option (list Z * option err * bpipe)) : Prop :=
  match r with
  | None => unread p = [] ∧ closedq (hf p) = false
  | Some (bs, None, p') => bs ≠ [] ∧ zlen bs ≤ n ∧ unread p = bs ++ unread p' ∧
      closedq (hf p') = closedq (hf p) ∧ size (hf p') = size (hf p) ∧
      (length (items (hf p')) ≤ length (items (hf p)))%nat
  | Some (bs, Some e, p') => e = ErrClosed ∧ bs = [] ∧ unread p = [] ∧ unread p' = [] ∧
      closedq (hf p) = true ∧ closedq (hf p') = true ∧ size (hf p') = size (hf p) ∧ 
      (length (items (hf p')) ≤ length (items (hf p)))%nat
  end.

Lemma Read_loop_result fuel n p : 0 < n →
  (2 * length (items (hf p)) + match last (hf p) with Some _ => 2 | None => 1 end ≤ fuel)%nat →
  read_result n p (Read_loop fuel n p).
Proof.
  intros Hn. revert p. induction fuel as [|fuel IH]; intros [[its sz cl l fr] i]; cbn; intros Hf;
    [destruct l; lia|].
  destruct l as [s|].
  - destruct (Nat.leb_spec (length s) i) as [Hge|Hlt].
    + specialize (IH (mkB (mkHalf its sz cl None (fr ++ [s])) i)). unfold read_result, unread in *. cbn in *.
      rewrite (drop_ge s) by done. apply IH. lia.
    + destruct (chunk_next n i s) as (E1 & E2 & E3); [lia..|].
      unfold unread. cbn. split_and!; try done. rewrite app_assoc. by rewrite <- E1.
  - destruct its as [|b its]; cbn; [by destruct cl|].
    specialize (IH (mkB (mkHalf its sz cl (Some b) fr) 0)). cbn in IH, Hf.
    assert (IH' : read_result n (mkB (mkHalf its sz cl (Some b) fr) 0)
      (Read_loop fuel n (mkB (mkHalf its sz cl (Some b) fr) 0))) by (apply IH; lia). clear IH.
    unfold read_result, unread in *. cbn in *.
    destruct (Read_loop fuel n _) as [[[bs e] p']|]; [|exact IH']. destruct e as [e|]; repeat (destruct IH' as [? IH']); split_and!; try done; lia.
Qed.

Lemma Read_spec n p : 0 < n → read_result n p (Read n p).
Proof. intros Hn. apply Read_loop_result; [done|]. destruct (last (hf p)); lia. Qed.

#[global] Arguments Read : simpl never.

(** ** The reader's end is a reader

    A reader that would wait is taken as at its end: what the client of the interface
    sees is the pipe whose writer closes it now. *)
#[global] Instance bpipe_reader : Reader bpipe := {
  GoIO.Read n p := default ([], Some ErrClosed, p) (Read n p);
  GoIO.Close p := (pipe_Close p).2;
  pending := unread;
  credit p := length (unread p) }.

Lemma pipe_Close_unread p : unread (pipe_Close p).2 = unread p.
Proof. unfold pipe_Close, Close. destruct p as [h i]. cbn. by destruct (closedq h). Qed.

#[global] Instance bpipe_reader_ok : ReaderOk bpipe.
Proof.
  split; [|intros p; cbn; by rewrite pipe_Close_unread|intros p; cbn; by rewrite pipe_Close_unread].
  intros n p bs e p' Hn. cbn. pose proof (Read_spec n p Hn) as Hr. unfold read_result in Hr.
  destruct (Read n p) as [[[bs0 [e0|]] p0]|]; cbn; intros [= <- <- <-].
  - destruct Hr as (_ & -> & E1 & E2 & _). rewrite E1, E2. split_and!; try done. change (zlen []) with 0. lia.
  - destruct Hr as (Hb & Hl & E & _). rewrite E, length_app. split_and!; try done; [|lia].
    intros _. destruct bs0; [done|]. cbn. lia.
  - destruct Hr as [E _]. rewrite E. split_and!; try done. change (zlen []) with 0. lia.
Qed.

(** ** Runs

    [brun size p w r]: one direction of a new pipe got to [p] while the bytes [w] were
    written and [r] read, in whatever order and pieces. *)
Inductive brun (size : Z) : bpipe → list Z → list Z → Prop :=
  | run_new : brun size (newPipe size) [] []
  | run_write pick waiting b n e p p' w r :
      brun size p w r → Write pick waiting b p = Some (n, e, p') →
      brun size p' (match e with None => w ++ b | Some _ => w end) r
  | run_read n bs e p p' w r :
      brun size p w r → 0 < n → Read n p = Some (bs, e, p') → brun size p' w (r ++ bs)
  | run_close e p p' w r : brun size p w r → pipe_Close p = (e, p') → brun size p' w r.

Lemma Write_unread pick waiting b p n e p' : Write pick waiting b p = Some (n, e, p') →
  unread p' = unread p ++ match e with None => b | Some _ => [] end ∧
  (e = None ∧ n = zlen b ∨ e = Some ErrClosed ∧ n = 0 ∧ closedq (hf p) = true).
Proof.
  unfold Write, Send. destruct p as [[its sz cl l fr] i]. cbn.
  destruct cl, (if sz =? 0 then _ else _); try destruct pick; try done; intros [= <- <- <-]; unfold unread; cbn;
    rewrite ?concat_app; cbn; rewrite ?app_nil_r, ?app_assoc; auto 10.
Qed.

Lemma Send_size {A} pick waiting (b : A) h e h' :
  Send pick waiting b h = Some (e, h') → zlen (items h) ≤ Z.max 1 (size h) →
  size h' = size h ∧ zlen (items h') ≤ Z.max 1 (size h').
Proof.
  unfold Send. intros H Hs.
  assert (Hroom : (if size h =? 0 then waiting && (zlen (items h) =? 0) else zlen (items h) <? size h) = true →
    zlen (items h ++ [b]) ≤ Z.max 1 (size h)).
  { rewrite zlen_app. change (zlen [b]) with 1. destruct (Z.eqb_spec (size h) 0); [|intros ?%Z.ltb_lt; lia].
    intros [_ ?%Z.eqb_eq]%andb_true_iff. lia. }
  destruct (closedq h), (if size h =? 0 then _ else _); try destruct pick; simplify_eq/=; auto.
Qed.

Lemma brun_inv size0 p w r : brun size0 p w r →
  w = r ++ unread p ∧ size (hf p) = size0 ∧ zlen (items (hf p)) ≤ Z.max 1 size0.
Proof.
  induction 1 as [|pick waiting b n e p p' w r _ (IH & Hsz & Hcap) HW|n bs e p p' w r _ (IH & Hsz & Hcap) Hn HR
    |e p p' w r _ (IH & Hsz & Hcap) HC].
  - cbn. split; [done|]. split; [done|]. change (zlen []) with 0. lia.
  - apply Write_unread in HW as Hu. destruct Hu as [Hu _]. rewrite Hu, IH. split; [destruct e; by rewrite ?app_nil_r, ?app_assoc|].
    unfold Write in HW. destruct (Send pick waiting b (hf p)) as [[o h]|] eqn:ES; [|done].
    apply Send_size in ES as [E1 E2]; [|by rewrite Hsz].
    destruct o; injection HW as <- <- <-; cbn; split; congruence || lia.
  - pose proof (Read_spec n p Hn) as Hr. rewrite HR in Hr. unfold read_result in Hr. unfold zlen in *.
    destruct e as [e|]; [destruct Hr as (-> & -> & E1 & E2 & _ & _ & Hs & Hi)|destruct Hr as (_ & _ & E & _ & Hs & Hi)].
    + rewrite IH, E1, E2, !app_nil_r. split; [done|]. split; [congruence|lia].
    + rewrite IH, E, app_assoc. split; [done|]. split; [congruence|lia].
  - pose proof (pipe_Close_unread p) as Hu. rewrite HC in Hu. cbn in Hu. rewrite Hu. split; [done|].
    unfold pipe_Close, Close in HC. destruct (closedq (hf p)); injection HC as <- <-; done.
Qed.

(** C11: the bytes of an in-process channel pipe arrive once, in order and all of them,
    whatever the pieces they are written and read in, and through the closing of the pipe:
    what was read is a prefix of what was written, a read hands out the next bytes (at
    least one, at most what was asked for), it waits only when everything written was read
    and the pipe is open, and it answers [ErrClosed] only when everything was read and the
    pipe is closed.  The channel never holds more than its buffer. *)
Theorem channel_stream size p w r n :
  brun size p w r → 0 < n →
  w = r ++ unread p ∧ zlen (items (hf p)) ≤ Z.max 1 size ∧
  match Read n p with
  | None => w = r ∧ closedq (hf p) = false
  | Some (bs, None, _) => bs ≠ [] ∧ zlen bs ≤ n ∧ r ++ bs `prefix_of` w
  | Some (bs, Some e, _) => e = ErrClosed ∧ bs = [] ∧ w = r ∧ closedq (hf p) = true
  end.
Proof.
  intros (Hw & _ & Hcap)%brun_inv Hn. split; [done|]. split; [done|].
  pose proof (Read_spec n p Hn) as Hr. unfold read_result in Hr.
  destruct (Read n p) as [[[bs [e|]] p']|].
  - destruct Hr as (-> & -> & E & _ & Hc & _). rewrite Hw, E, app_nil_r. done.
  - destruct Hr as (Hb & Hl & E & _). split; [done|]. split; [done|]. rewrite Hw, E. exists (unread p'). by rewrite app_assoc.
  - destruct Hr as [E Hc]. by rewrite Hw, E, app_nil_r.
Qed.

(** Two writes, a short read across nothing, and closing. *)
Definition demo_pipe : bpipe :=
  match Write false false [1; 2; 3] (newPipe 2) with
  | Some (_, _, p) => match Read 2 p with Some (_, _, p) => (pipe_Close p).2 | None => p end
  | None => newPipe 2
  end.

Lemma channel_stream_witness :
  brun 2 demo_pipe [1; 2; 3] [1; 2] ∧ ∃ p', Read 5 demo_pipe = Some ([3], None, p') ∧ [1; 2] ++ [3] `prefix_of` [1; 2; 3].
Proof.
  assert (Hrun : brun 2 demo_pipe [1; 2; 3] [1; 2]).
  { apply (run_close 2 None (mkB (mkHalf [] 2 false (Some [1; 2; 3]) []) 2)); [|vm_compute; reflexivity].
    apply (run_read 2 2 [1; 2] None (mkB (mkHalf [[1; 2; 3]] 2 false None []) 0) _ [1; 2; 3] []);
      [|lia|vm_compute; reflexivity].
    apply (run_write 2 false false [1; 2; 3] 3 None (newPipe 2) _ [] []); [apply run_new|vm_compute; reflexivity]. }
  split; [exact Hrun|]. destruct (channel_stream 2 demo_pipe [1; 2; 3] [1; 2] 5 Hrun) as (_ & _ & H); [lia|].
  eexists. split; [vm_compute; reflexivity|]. vm_compute in H. apply H.
Defined.

(** ** Packets and messages *)

(** [irun size h sent got]: the items [sent] into a new pipe and [got] from it. *)
Inductive irun {A} (n : Z) : half A → list A → list A → Prop :=
  | irun_new : irun n (newHalf n) [] []
  | irun_send pick waiting b e h h' sent got :
      irun n h sent got → Send pick waiting b h = Some (e, h') →
      irun n h' (match e with None => sent ++ [b] | Some _ => sent end) got
  | irun_recv b e h h' sent got :
      irun n h sent got → Recv h = Some (b, e, h') →
      irun n h' sent (match b with Some b => got ++ [b] | None => got end)
  | irun_close e h h' sent got : irun n h sent got → Close h = (e, h') → irun n h' sent got.

Definition held {A} (h : half A) : list A := match last h with Some b => [b] | None => [] end.

(** A pipe of packets or messages hands out what was sent in order, and its buffers
    are accounted for: at any moment everything sent was released, or is what the last
    receive handed out, or is still queued - in this order, each item once; so every
    received buffer is released exactly once, by the next receive. *)
Theorem channel_ledger {A} n (h : half A) sent got :
  irun n h sent got → sent = freed h ++ held h ++ items h ∧ got = freed h ++ held h.
Proof.
  induction 1 as [|pick waiting b e h h' sent got _ [IH1 IH2] HS|b e h h' sent got _ [IH1 IH2] HR|e h h' sent got _ [IH1 IH2] HC].
  - done.
  - unfold Send in HS. destruct h as [its sz cl l fr]. cbn in *.
    destruct cl, (if sz =? 0 then _ else _); try destruct pick; simplify_eq/=; try done;
      split; try done; unfold held; cbn; by rewrite <- !app_assoc.
  - unfold Recv, take_item in HR. destruct h as [[|x its] sz cl l fr]; unfold held in *; cbn in *.
    + destruct cl; [|done]. injection HR as <- <- <-. cbn. rewrite !app_nil_r in *. destruct l; by rewrite ?app_nil_r in *.
    + injection HR as <- <- <-. cbn. subst. destruct l; cbn; by rewrite ?app_nil_r, <- ?app_assoc.
  - unfold Close in HC. by destruct (closedq h); injection HC as <- <-.
Qed.

Lemma channel_ledger_witness :
  ∃ h : half Z, irun 4 h [5; 6] [5; 6] ∧ freed h = [5] ∧ [5; 6] = freed h ++ held h.
Proof.
  exists (mkHalf [] 4 false (Some 6) [5]).
  assert (Hrun : irun 4 (mkHalf [] 4 false (Some 6) [5]) [5; 6] [5; 6]).
  { apply (irun_recv 4 (Some 6) None (mkHalf [6] 4 false (Some 5) []) _ [5; 6] [5]); [|reflexivity].
    apply (irun_recv 4 (Some 5) None (mkHalf [5; 6] 4 false None []) _ [5; 6] []); [|reflexivity].
    apply (irun_send 4 false false 6 None (mkHalf [5] 4 false None []) _ [5] []); [|reflexivity].
    apply (irun_send 4 false false 5 None (newHalf 4) _ [] []); [apply irun_new|reflexivity]. }
  split; [exact Hrun|]. split; [reflexivity|]. apply (channel_ledger 4 _ _ _ Hrun).
Defined.
