(* ===== verification/Net.v ===== *)
(** transport/tcp/tcp.go and transport/ipc/ipc_unix.go: the transports over package net.

    What the operating system does is a parameter: [net_ops] are the calls of package net
    (and os) the two packages make, on a state [W] of the network.  The two listeners differ
    in what [Listen] does and in the options set on a connection; their state is the same
    record. *)
From S2P Require Import Prelude Errs Options OptionSet OptionReg Transport.
From stdpp Require Import base tactics numbers list strings.
From Stdlib Require Import ZArith Lia.
Open Scope Z_scope.

(** What [os.Stat] says of the path of a unix socket. *)
Inductive stat := StatSocket | StatOther | StatNotExist | StatError (e : err).

Record net_ops (W A C L : Type) := NetOps {
  resolve : string → err + A;
  dial_addr : A → M W (err + C);
  listen_addr : A → M W (err + L);
  accept_on : L → M W (err + C);
  close_listener : L → M W (option err);
  close_conn : C → M W (option err);
  local_addr : C → Address;
  remote_addr : C → Address;
  SetNoDelay : C → bool → M W (option err);
  SetKeepAlive : C → bool → M W (option err);
  SetKeepAlivePeriod : C → Z → M W (option err);
  SetReadBuffer : C → Z → M W (option err);
  SetWriteBuffer : C → Z → M W (option err);
  Stat : A → M W stat;
  Remove : A → M W (option err) }.
Arguments resolve {W A C L} n. Arguments dial_addr {W A C L} n. Arguments listen_addr {W A C L} n.
Arguments accept_on {W A C L} n. Arguments close_listener {W A C L} n. Arguments close_conn {W A C L} n.
Arguments local_addr {W A C L} n. Arguments remote_addr {W A C L} n. Arguments SetNoDelay {W A C L} n.
Arguments SetKeepAlive {W A C L} n. Arguments SetKeepAlivePeriod {W A C L} n. Arguments SetReadBuffer {W A C L} n.
Arguments SetWriteBuffer {W A C L} n. Arguments Stat {W A C L} n. Arguments Remove {W A C L} n.

Section net.
Context {W A C L : Type} (net : net_ops W A C L).

Record listener := mkListener { addr : A; bound : bool; lis : option L; closedq : bool }.

(** ** tcp *)

(** [if val, ok := opts.GetOption(opt); ok { if err := set(opt.Value(val)); ... } }] *)
Definition with_option {V} (assert : value → outcome V) (st : store) (opts : nat) (opt : Option)
  (set : V → M W (option err)) : M W (option err) :=
  match GetOption (S opts) st opts opt with
  | None => gopanic PanicNilDeref
  | Some None => mret None
  | Some (Some val) => match assert val with Ret v => set v | Panics q => gopanic q end
  end.

(** [if err := m; err != nil { return err }; k] *)
Definition unless_err (m : M W (option err)) (k : M W (option err)) : M W (option err) :=
  e ← m; match e with Some e => mret (Some e) | None => k end.

Definition configTCP (conn : C) (st : store) (opts : nat) : M W (option err) :=
  unless_err (with_option boolOption_Value st opts Transport.tcp_NoDelay (SetNoDelay net conn)) (
  unless_err (with_option boolOption_Value st opts Transport.tcp_KeepAlive (λ keepAlive,
      unless_err (SetKeepAlive net conn keepAlive) (
        if (keepAlive : bool)
        then with_option timeDurationOption_Value st opts Transport.tcp_KeepAlivePeriod (SetKeepAlivePeriod net conn)
        else mret None))) (
  unless_err (with_option intOption_Value st opts Transport.tcp_ReadBuffer (SetWriteBuffer net conn)) (
  with_option intOption_Value st opts Transport.tcp_WriteBuffer (SetWriteBuffer net conn)))).

Definition new_connection (scheme : string) (conn : C) (accepted : bool) : connection C :=
  NewConnection scheme conn (local_addr net conn) (remote_addr net conn) accepted.

(** A connection that could not be configured is closed. *)
Definition configured (conn : C) (st : store) (opts : nat) (accepted : bool) : M W (err + connection C) :=
  e ← configTCP conn st opts;
  match e with
  | Some e => close_conn net conn ;; mret (inl e)
  | None => mret (inr (new_connection "tcp" conn accepted))
  end.

Definition tcp_Dial (a : A) (st : store) (opts : nat) : M W (err + connection C) :=
  r ← dial_addr net a;
  match r with inl e => mret (inl e) | inr conn => configured conn st opts false end.

Definition tcp_Listen (l : listener) : M W (option err * listener) :=
  if closedq l then mret (Some ErrClosed, l) else
  r ← listen_addr net (addr l);
  match r with
  | inl e => mret (Some e, mkListener (addr l) (bound l) None (closedq l))
  | inr x => mret (None, mkListener (addr l) true (Some x) (closedq l))
  end.

Definition tcp_Accept (l : listener) (st : store) (opts : nat) : M W (err + connection C) :=
  if closedq l then mret (inl ErrClosed) else
  match lis l with
  | None => mret (inl ErrBadOperateState)
  | Some x =>
      r ← accept_on net x;
      match r with inl e => mret (inl e) | inr conn => configured conn st opts true end
  end.

Definition net_Close (l : listener) : M W (option err * listener) :=
  if closedq l then mret (Some ErrClosed, l) else
  let l := mkListener (addr l) (bound l) (lis l) true in
  match lis l with
  | None => mret (None, l)
  | Some x => e ← close_listener net x; mret (e, l)
  end.

Definition tcp_address (s : string) : err + A :=
  match StripScheme s with inl e => inl e | inr a => ResolveTCPAddr (resolve net) a end.
Definition tcp_NewDialer (s : string) : err + A := tcp_address s.
Definition tcp_NewListener (s : string) : err + listener :=
  match tcp_address s with inl e => inl e | inr a => inr (mkListener a false None false) end.

(** ** ipc *)

Definition ipc_Dial (a : A) : M W (err + connection C) :=
  r ← dial_addr net a;
  match r with inl e => mret (inl e) | inr conn => mret (inr (new_connection "ipc" conn false)) end.

(** A socket file that is left over is removed, any other file is refused. *)
Definition ipc_Listen (l : listener) : M W (option err * listener) :=
  if closedq l then mret (Some ErrClosed, l) else
  s ← Stat net (addr l);
  refused ← (match s with
    | StatSocket => e ← Remove net (addr l); mret (match e with Some _ => Some ErrAddrInUse | None => None end)
    | StatOther => mret (Some ErrBadAddr)
    | StatNotExist => mret None
    | StatError e => mret (Some e)
    end);
  match refused with
  | Some e => mret (Some e, l)
  | None =>
      r ← listen_addr net (addr l);
      match r with
      | inl e => mret (Some e, l)
      | inr x => mret (None, mkListener (addr l) (bound l) (Some x) (closedq l))
      end
  end.

Definition ipc_Accept (l : listener) : M W (err + connection C) :=
  if closedq l then mret (inl ErrClosed) else
  match lis l with
  | None => mret (inl ErrBadOperateState)
  | Some x =>
      r ← accept_on net x;
      match r with inl e => mret (inl e) | inr conn => mret (inr (new_connection "ipc" conn true)) end
  end.

Definition ipc_Close (l : listener) : M W (option err * listener) := net_Close l.

Definition ipc_address (s : string) : err + A :=
  match StripScheme s with inl e => inl e | inr a => resolve net a end.
Definition ipc_NewDialer (s : string) : err + A := ipc_address s.
Definition ipc_NewListener (s : string) : err + listener :=
  match ipc_address s with inl e => inl e | inr a => inr (mkListener a false None false) end.
End net.
Arguments listener A L : clear implicits.
Arguments mkListener {A L}.

(** ** Connections are accounted for *)

Record net_laws {W A C L} (net : net_ops W A C L) (opened : W → list C) : Prop := NetLaws {
  law_dial a w r w' : dial_addr net a w = Ret (r, w') →
    opened w' = match r with inl _ => opened w | inr c => c :: opened w end;
  law_accept l w r w' : accept_on net l w = Ret (r, w') →
    opened w' = match r with inl _ => opened w | inr c => c :: opened w end;
  law_close c w e w' cs : close_conn net c w = Ret (e, w') → opened w = c :: cs → opened w' = cs;
  law_nodelay c b w e w' : SetNoDelay net c b w = Ret (e, w') → opened w' = opened w;
  law_keepalive c b w e w' : SetKeepAlive net c b w = Ret (e, w') → opened w' = opened w;
  law_period c d w e w' : SetKeepAlivePeriod net c d w = Ret (e, w') → opened w' = opened w;
  law_writebuffer c n w e w' : SetWriteBuffer net c n w = Ret (e, w') → opened w' = opened w }.

Section accounts.
Context {W A C L : Type} (net : net_ops W A C L) (opened : W → list C) (Hlaws : net_laws net opened).

(** [m] opens and closes nothing. *)
Definition quiet {X} (m : M W X) : Prop := ∀ w x w', m w = Ret (x, w') → opened w' = opened w.

Lemma quiet_unless m k : quiet m → quiet k → quiet (unless_err m k).
Proof.
  intros Hm Hk w x w' (e & w1 & H1%Hm & H2)%M_bind_Ret. rewrite <- H1. destruct e; [by injection H2 as _ <-|by eapply Hk].
Qed.
Lemma quiet_option {V} (assert : value → outcome V) st opts opt set :
  (∀ v, quiet (set v)) → quiet (with_option assert st opts opt set).
Proof.
  intros Hs w x w'. unfold with_option. destruct (GetOption _ _ _ _) as [[v|]|]; [|by intros [= _ <-]|done].
  destruct (assert v); [apply Hs|done].
Qed.
Lemma configTCP_quiet conn st opts : quiet (configTCP net conn st opts).
Proof.
  unfold configTCP. destruct Hlaws as [_ _ _ L1 L2 L3 L4].
  apply quiet_unless; [apply quiet_option; intros b w x w'; apply L1|].
  apply quiet_unless; [apply quiet_option; intros keepAlive; apply quiet_unless; [intros w x w'; apply L2|]|].
  { destruct keepAlive; [apply quiet_option; intros d w x w'; apply L3|by intros w x w' [= _ <-]]. }
  apply quiet_unless; apply quiet_option; intros n w x w'; apply L4.
Qed.

(** The account of a call that may hand out a connection. *)
Definition accounted (m : M W (err + connection C)) : Prop := ∀ w r w', m w = Ret (r, w') →
  opened w' = match r with inl _ => opened w | inr c => raw_conn c :: opened w end.

Lemma configured_accounted conn st opts accepted w r w' cs :
  configured net conn st opts accepted w = Ret (r, w') → opened w = conn :: cs →
  opened w' = match r with inl _ => cs | inr c => raw_conn c :: cs end.
Proof.
  intros (e & w1 & H1%configTCP_quiet & H2)%M_bind_Ret Hw. destruct e as [e|].
  - apply M_bind_Ret in H2 as (e' & w2 & H2 & [= <- <-]). eapply (law_close _ _ Hlaws); [exact H2|congruence].
  - injection H2 as <- <-. unfold new_connection, NewConnection. destruct accepted; cbn; congruence.
Qed.

Lemma tcp_Dial_accounted a st opts : accounted (tcp_Dial net a st opts).
Proof.
  intros w r w' (x & w1 & H1%(law_dial _ _ Hlaws) & H2)%M_bind_Ret. destruct x as [e|conn]; [by injection H2 as <- <-|].
  by eapply configured_accounted in H2.
Qed.
Lemma tcp_Accept_accounted l st opts : accounted (tcp_Accept net l st opts).
Proof.
  intros w r w'. unfold tcp_Accept. destruct (closedq l); [by intros [= <- <-]|].
  destruct (lis l) as [x|]; [|by intros [= <- <-]].
  intros (y & w1 & H1%(law_accept _ _ Hlaws) & H2)%M_bind_Ret. destruct y as [e|conn]; [by injection H2 as <- <-|].
  by eapply configured_accounted in H2.
Qed.
Lemma ipc_Dial_accounted a : accounted (ipc_Dial net a).
Proof.
  intros w r w' (x & w1 & H1%(law_dial _ _ Hlaws) & H2)%M_bind_Ret. by destruct x; injection H2 as <- <-.
Qed.
Lemma ipc_Accept_accounted l : accounted (ipc_Accept net l).
Proof.
  intros w r w'. unfold ipc_Accept. destruct (closedq l); [by intros [= <- <-]|].
  destruct (lis l) as [x|]; [|by intros [= <- <-]].
  intros (y & w1 & H1%(law_accept _ _ Hlaws) & H2)%M_bind_Ret. by destruct y; injection H2 as <- <-.
Qed.
End accounts.

(** C24: the network transports leak no connection: a [Dial] or [Accept] of tcp and of ipc that
    fails leaves exactly the connections open that were open before - also when the
    connection was made and could not be configured - and one that succeeds hands out the
    one connection it opened. *)
Theorem net_connections_accounted {W A C L} (net : net_ops W A C L) (opened : W → list C) :
  net_laws net opened →
  (∀ a st opts, accounted opened (tcp_Dial net a st opts)) ∧
  (∀ l st opts, accounted opened (tcp_Accept net l st opts)) ∧
  (∀ a, accounted opened (ipc_Dial net a)) ∧ (∀ l, accounted opened (ipc_Accept net l)).
Proof.
  intros H. split_and!; intros; by (apply tcp_Dial_accounted || apply tcp_Accept_accounted
    || apply ipc_Dial_accounted || apply ipc_Accept_accounted).
Qed.

(** ** Listeners *)

(** The listeners of tcp and ipc after [Close]: listening and accepting answer
    [ErrClosed] and touch nothing, closing again answers [ErrClosed]; and before [Listen] an
    accept answers [ErrBadOperateState]. *)
Theorem net_listener_closed {W A C L} (net : net_ops W A C L) (l l' : listener A L) e w w' st opts :
  net_Close net l w = Ret ((e, l'), w') →
  closedq l' = true ∧
  (∀ w1, tcp_Listen net l' w1 = Ret ((Some ErrClosed, l'), w1) ∧ ipc_Listen net l' w1 = Ret ((Some ErrClosed, l'), w1) ∧
         tcp_Accept net l' st opts w1 = Ret (inl ErrClosed, w1) ∧ ipc_Accept net l' w1 = Ret (inl ErrClosed, w1) ∧
         net_Close net l' w1 = Ret ((Some ErrClosed, l'), w1)) ∧
  (closedq l = false → lis l = None →
     tcp_Accept net l st opts w = Ret (inl ErrBadOperateState, w) ∧ ipc_Accept net l w = Ret (inl ErrBadOperateState, w)).
Proof.
  intros H. assert (Hc : closedq l' = true).
  { unfold net_Close in H. destruct (closedq l) eqn:E; [by injection H as _ <- _|].
    cbn in H. destruct (lis l); [|by injection H as _ <- _].
    apply M_bind_Ret in H as (e1 & w1 & _ & [= _ <- _]). done. }
  split; [done|]. split.
  - intros w1. unfold tcp_Listen, ipc_Listen, tcp_Accept, ipc_Accept, net_Close. by rewrite Hc.
  - intros E1 E2. unfold tcp_Accept, ipc_Accept. by rewrite E1, E2.
Qed.

(** A network whose state lists the open connections, and that refuses [SetNoDelay]. *)
Definition demo_open (_ : unit) : M (list nat) (err + nat) := λ w, Ret (inr (length w), length w :: w).
Definition demo_ok {X} (_ : nat) (_ : X) : M (list nat) (option err) := mret None.
Definition demo_net : net_ops (list nat) unit nat unit := {|
  resolve := λ _, inr (); dial_addr := demo_open; listen_addr := λ _, mret (inr ());
  accept_on := demo_open; close_listener := λ _, mret None;
  close_conn := λ _ w, Ret (None, tail w);
  local_addr := λ _, NewAddress "tcp" "here"; remote_addr := λ _, NewAddress "tcp" "there";
  SetNoDelay := λ _ _, mret (Some (ErrOS 1)); SetKeepAlive := demo_ok; SetKeepAlivePeriod := demo_ok;
  SetReadBuffer := demo_ok; SetWriteBuffer := demo_ok;
  Stat := λ _, mret StatNotExist; Remove := λ _, mret None |}.
Definition demo_store : store := [mkOptions {[Transport.tcp_NoDelay := VBool true]} None [] None []].

Lemma demo_laws : net_laws demo_net id.
Proof.
  split; cbn; try by intros * [= _ <-].
  - by intros * [= <- <-].
  - by intros * [= <- <-].
  - intros c w e w' cs [= _ <-] Hw. by rewrite Hw.
  - by intros _ _ w e w' [= _ <-].
Qed.

Lemma net_connections_accounted_witness :
  tcp_Dial demo_net () demo_store 0 [7%nat] = Ret (inl (ErrOS 1), [7%nat]) ∧
  ∀ r w', tcp_Dial demo_net () demo_store 0 [7%nat] = Ret (r, w') →
    id w' = match r with inl _ => [7%nat] | inr c => raw_conn c :: [7%nat] end.
Proof.
  split; [vm_compute; reflexivity|]. intros r w'.
  apply (proj1 (net_connections_accounted demo_net id demo_laws) () demo_store 0%nat [7%nat] r w').
Defined.

Lemma net_listener_closed_witness :
  net_Close demo_net (mkListener () false None false) [] = Ret ((None, mkListener () false None true), []) ∧
  tcp_Accept demo_net (mkListener () false None true) [] 0 [] = Ret (inl ErrClosed, []).
Proof.
  split; [reflexivity|].
  destruct (net_listener_closed demo_net (mkListener () false None false) (mkListener () false None true) None [] [] [] 0 eq_refl)
    as (_ & H & _). apply H.
Defined.
