(* ===== verification/Ws.v ===== *)
(** transport/ws/ws.go: connections over a websocket.

    The websocket library is a parameter: [ws_ops] are the calls the package makes on one
    websocket connection, of state [W]; [ws_laws] is what the library documents of reading:
    a connection will deliver the rest [cur] of the message it is in and the messages
    [later], then it fails; [NextReader] goes to the next message, the reader of a message
    hands out its bytes and ends it with [io.EOF].  The listener's queue of upgraded
    connections is a step relation. *)
From S2P Require Import Prelude Errs GoIO Options OptionSet OptionReg Transport Address.
From stdpp Require Import base tactics numbers list strings relations.
From Stdlib Require Import ZArith Lia.
Open Scope Z_scope.

Class ws_ops (W : Type) := {
  NextReader : W → option err * W;
  msg_read : Z → W → list Z * option err * W;
  WriteMessage : Z → list Z → W → option err * W;
  ws_close : W → W;
  Subprotocol : W → string;
  cur : W → list Z;
  later : W → list (list Z);
  msg_credit : W → nat }.

Class ws_laws (W : Type) `{!ws_ops W} : Prop := {
  next_ok w e w' : NextReader w = (e, w') →
    match e with
    | None => ∃ m, later w = m :: later w' ∧ cur w' = m
    | Some _ => later w = [] ∧ cur w' = [] ∧ later w' = []
    end ∧ (msg_credit w' ≤ msg_credit w)%nat;
  msg_read_ok n w bs e w' : 0 < n → msg_read n w = (bs, e, w') →
    zlen bs ≤ n ∧ cur w = bs ++ cur w' ∧ (msg_credit w' ≤ msg_credit w)%nat ∧
    match e with
    | None => later w' = later w ∧ (msg_credit w' < msg_credit w)%nat
    | Some EOF => cur w' = [] ∧ later w' = later w
    | Some _ => cur w' = [] ∧ later w = [] ∧ later w' = []
    end;
  ws_close_ok w : (length (cur (ws_close w)) ≤ length (cur w))%nat ∧
                  (length (concat (later (ws_close w))) ≤ length (concat (later w)))%nat ∧
                  (msg_credit (ws_close w) ≤ msg_credit w)%nat }.

(** ** Reading and writing *)

Section conn.
Context {W : Type} `{!ws_ops W}.

(** [has_r]: [c.r] is not nil, the connection is inside a message. *)
Record wsConn := mkWs { ws : W; has_r : bool; dtype : Z }.

(** [Read] calls itself at the end of a message it got nothing from. *)
Fixpoint ws_read (fuel : nat) (n : Z) (c : wsConn) : list Z * option err * wsConn :=
  match fuel with
  | O => ([], None, c)
  | S fuel =>
      let '(e, c) := if has_r c then (None, c)
                     else let '(e, w) := NextReader (ws c) in
                          (e, mkWs w (match e with None => true | Some _ => false end) (dtype c)) in
      match e with
      | Some e => ([], Some e, c)
      | None =>
          let '(bs, e, w) := msg_read n (ws c) in
          match e with
          | Some EOF =>
              let c := mkWs w false (dtype c) in
              if zlen bs =? 0 then ws_read fuel n c else (bs, None, c)
          | _ => (bs, e, mkWs w (has_r c) (dtype c))
          end
      end
  end.

(** One round per message that is left, and two more. *)
Definition Read (n : Z) (c : wsConn) : list Z * option err * wsConn := ws_read (length (later (ws c)) + 2) n c.

Definition Write (b : list Z) (c : wsConn) : Z * option err * wsConn :=
  let '(e, w) := WriteMessage (dtype c) b (ws c) in (zlen b, e, mkWs w (has_r c) (dtype c)).

(** [srWsConn.Send], and [srWsConn.Recv]: [io.Copy] of a message, its error ignored. *)
Definition Send (b : list Z) (c : wsConn) : option err * wsConn :=
  let '(e, w) := WriteMessage (dtype c) b (ws c) in (e, mkWs w (has_r c) (dtype c)).

Fixpoint copy_all (fuel : nat) (w : W) : list Z * W :=
  match fuel with
  | O => ([], w)
  | S fuel =>
      let '(bs, e, w) := msg_read 32768 w in
      match e with
      | None => let '(bs', w) := copy_all fuel w in (bs ++ bs', w)
      | Some _ => (bs, w)
      end
  end.

Definition Recv (c : wsConn) : list Z * option err * wsConn :=
  let '(e, w) := NextReader (ws c) in
  match e with
  | Some e => ([], Some e, mkWs w false (dtype c))
  | None => let '(bs, w) := copy_all (S (msg_credit w)) w in (bs, None, mkWs w true (dtype c))
  end.

(** What a reader of the connection gets. *)
Definition unread (c : wsConn) : list Z := (if has_r c then cur (ws c) else []) ++ concat (later (ws c)).

Context `{!ws_laws W}.

Definition ws_read_result (n : Z) (c : wsConn) (r : list Z * option err * wsConn) : Prop :=
  let '(bs, e, c') := r in
  zlen bs ≤ n ∧ unread c = bs ++ unread c' ∧
  (msg_credit (ws c') ≤ msg_credit (ws c))%nat ∧
  match e with
  | None => bs ≠ [] ∨ (msg_credit (ws c') < msg_credit (ws c))%nat
  | Some _ => unread c' = []
  end.

Lemma ws_read_spec fuel n c : 0 < n → (length (later (ws c)) + (if has_r c then 2 else 1) ≤ fuel)%nat →
  ws_read_result n c (ws_read fuel n c).
Proof.
  intros Hn. revert c. induction fuel as [|fuel IH]; intros c Hf; [destruct (has_r c); lia|]. cbn [ws_read].
  (* the message the bytes come from *)
  assert (Hin : ∀ c1, has_r c1 = true → unread c1 = unread c → (msg_credit (ws c1) ≤ msg_credit (ws c))%nat →
    (length (later (ws c1)) < fuel)%nat →
    ws_read_result n c (let '(bs, e, w) := msg_read n (ws c1) in
      match e with
      | Some EOF => let c := mkWs w false (dtype c1) in if zlen bs =? 0 then ws_read fuel n c else (bs, None, c)
      | _ => (bs, e, mkWs w (has_r c1) (dtype c1))
      end)).
  { intros c1 Hr Hu Hc Hl. destruct (msg_read n (ws c1)) as [[bs e] w] eqn:E.
    apply msg_read_ok in E as (E1 & E2 & E3 & E4); [|done].
    assert (Huc : unread c = cur (ws c1) ++ concat (later (ws c1))) by (rewrite <- Hu; unfold unread; by rewrite Hr).
    destruct e as [e|].
    - assert (Herr : e ≠ EOF → cur w = [] ∧ later (ws c1) = [] ∧ later w = []) by (by destruct e).
      destruct (decide (e = EOF)) as [->|Hne].
      + destruct E4 as [E4 E5]. destruct (Z.eqb_spec (zlen bs) 0) as [Hz|Hz].
        * apply zlen_0 in Hz as ->. specialize (IH (mkWs w false (dtype c1))). cbn in IH. rewrite E5 in IH.
          assert (H : ws_read_result n (mkWs w false (dtype c1)) (ws_read fuel n (mkWs w false (dtype c1)))) by (apply IH; lia).
          unfold ws_read_result in *. destruct (ws_read _ _ _) as [[bs' e'] c']. destruct H as (H1 & H2 & H3 & H4).
          unfold unread at 1 in H2. cbn in *. rewrite Huc, E2, E4, <- E5. cbn. split; [done|]. split; [done|]. split; [lia|].
          destruct e'; [done|]. destruct H4; [by left|right; lia].
        * unfold ws_read_result, unread at 2. cbn. rewrite Huc, E2, E4, E5, app_nil_r. split; [done|]. split; [done|]. split; [lia|].
          left. intros ->. done.
      + destruct (Herr Hne) as (F1 & F2 & F3).
        assert (Hres : ws_read_result n c (bs, Some e, mkWs w (has_r c1) (dtype c1))).
        { unfold ws_read_result, unread at 2 3. cbn. rewrite Hr, Huc, E2, F1, F2, F3. cbn. rewrite app_nil_r. split_and!; [done|done|lia|done]. }
        by destruct e.
    - destruct E4 as [E4 E5]. unfold ws_read_result, unread at 2. cbn. rewrite Hr, Huc, E2, E4, app_assoc.
      split; [done|]. split; [done|]. split; [lia|]. right. lia. }
  destruct (has_r c) eqn:Hr; [apply Hin; [done..|lia]|].
  destruct (NextReader (ws c)) as [e w] eqn:E. apply next_ok in E as [E Hc]. destruct e as [e|]; cbn.
  - destruct E as (E1 & E2 & E3). unfold ws_read_result, unread. cbn. rewrite Hr, E1, E3. change (zlen []) with 0.
    by split; [lia|].
  - destruct E as (m & E1 & E2). apply (Hin (mkWs w true (dtype c))); [done| |done|].
    + unfold unread. cbn. rewrite Hr, E1, E2. done.
    + cbn. rewrite E1 in Hf. cbn in Hf. lia.
Qed.

Lemma ws_Read_spec n c : 0 < n → ws_read_result n c (Read n c).
Proof. intros Hn. apply ws_read_spec; [done|]. destruct (has_r c); lia. Qed.
End conn.
Arguments wsConn W : clear implicits.
#[global] Arguments Read : simpl never.

(** ** A websocket connection is a reader *)

#[global] Instance ws_reader {W} `{!ws_ops W} : Reader (wsConn W) := {
  GoIO.Read := Read;
  Close c := mkWs (ws_close (ws c)) (has_r c) (dtype c);
  pending := unread;
  credit c := (msg_credit (ws c) + length (unread c))%nat }.

#[global] Instance ws_reader_ok {W} `{!ws_ops W, !ws_laws W} : ReaderOk (wsConn W).
Proof.
  split.
  - intros n c bs e c' Hn H. pose proof (ws_Read_spec n c Hn) as Hr. cbn in *. rewrite H in Hr.
    destruct Hr as (H1 & H2 & H3 & H4). rewrite H2, length_app. split_and!; [done|done| | |lia].
    + intros ->. destruct H4 as [H4|H4]; [|lia]. destruct bs; [done|]. cbn. lia.
    + intros He. by destruct e.
  - intros c. cbn. destruct (ws_close_ok (ws c)) as (H1 & H2 & _). unfold unread. cbn. rewrite !length_app.
    destruct (has_r c); cbn; lia.
  - intros c. cbn. destruct (ws_close_ok (ws c)) as (H1 & H2 & H3). unfold unread. cbn. rewrite !length_app.
    destruct (has_r c); cbn; lia.
Qed.

(** ** Claims *)

Lemma copy_all_spec {W} `{!ws_ops W, !ws_laws W} fuel (w : W) : (msg_credit w < fuel)%nat →
  ∃ w', copy_all fuel w = (cur w, w') ∧ cur w' = [] ∧ later w' = later w.
Proof.
  revert w. induction fuel as [|fuel IH]; intros w Hf; [lia|]. cbn [copy_all].
  destruct (msg_read 32768 w) as [[bs e] w1] eqn:E. apply msg_read_ok in E as (_ & E2 & E3 & E4); [|lia].
  destruct e as [e|].
  - assert (cur w1 = [] ∧ later w1 = later w) as [F1 F2] by (destruct e; destruct E4; intuition congruence).
    exists w1. rewrite E2, F1, app_nil_r. done.
  - destruct E4 as [E4 E5]. destruct (IH w1) as (w2 & -> & F1 & F2); [lia|].
    exists w2. rewrite E2, F1, F2, E4. done.
Qed.


(** A connection that delivers the messages [dl]; the last one is cut by a failure. *)
Record demo_ws := mkDemo { dc : list Z; dl : list (list Z) }.
Definition demo_end (w : demo_ws) : err := match dl w with [] => ErrUnexpectedEOF | _ => EOF end.
#[global] Instance demo_ws_ops : ws_ops demo_ws := {
  NextReader w := match dl w with [] => (Some ErrUnexpectedEOF, mkDemo [] []) | m :: ms => (None, mkDemo m ms) end;
  msg_read n w := match dc w with
    | [] => ([], Some (demo_end w), w)
    | _ => (ztake n (dc w), None, mkDemo (zdrop n (dc w)) (dl w))
    end;
  WriteMessage _ b w := (None, mkDemo (dc w) (dl w ++ [b]));
  ws_close w := w;
  Subprotocol _ := "multisocket.binary"%string;
  cur := dc; later := dl;
  msg_credit w := (length (dc w) + length (concat (dl w)))%nat }.
#[global] Instance demo_ws_laws : ws_laws demo_ws.
Proof.
  split.
  - intros [d l] e w'. cbn. destruct l as [|m ms]; intros [= <- <-]; cbn; [split; [done|lia]|].
    rewrite length_app. split; [by exists m|lia].
  - intros n [d l] bs e w' Hn. cbn. destruct d as [|x d]; cbn [dc].
    + intros [= <- <- <-]. unfold demo_end. cbn. split_and!; [zlia|done|lia|]. by destruct l.
    + intros [= <- <- <-]. cbn [dc dl]. rewrite ztake_zdrop. pose proof (length_drop (x :: d) (Z.to_nat n)) as Hd.
      fold (zdrop n (x :: d)) in Hd. cbn [length] in Hd. rewrite Hd. cbn [length].
      split_and!; [|done|lia|done|lia]. unfold ztake, zlen. rewrite length_take. lia.
  - intros w. cbn. lia.
Qed.

