(* ===== verification/WsListen.v ===== *)
(** transport/ws/ws.go: dialling, and the listener with its queue of upgraded connections.

    The websocket library, the HTTP server and package net are parameters: [dial_url] opens a
    client connection, an HTTP request that is upgraded is a step [w_upgrade], [subproto]
    says what was negotiated for a connection.  [ServeHTTP], [Accept] and [Close] are cut at
    their channel operations and [wstep] interleaves them.  [pending] is a reference to a
    channel, nil before [Listen] and replaced by every [Listen]. *)
From S2P Require Import Prelude Errs Options OptionSet OptionReg Transport Address.
From stdpp Require Import base tactics numbers gmap list strings relations.
From Stdlib Require Import ZArith Lia.
Open Scope Z_scope.

Record wsTran := mkTran { scheme : string; isSr : bool; isRw : bool }.
Definition RwTransport : wsTran := mkTran "ws.rw" false true.
Definition SrTransport : wsTran := mkTran "ws.sr" true false.

Definition subprotocols : list string := ["multisocket.binary"; "multisocket.text"]%string.

(** websocket.BinaryMessage is 2, websocket.TextMessage is 1. *)
Definition dataTypes (s : string) : option Z :=
  if bool_decide (s = "multisocket.binary")%string then Some 2
  else if bool_decide (s = "multisocket.text")%string then Some 1 else None.

(** ** Addresses *)

Definition str_ends (s suf : string) : bool :=
  (String.length suf <=? String.length s)%nat &&
  bool_decide (str_drop (String.length s - String.length suf) s = suf).
Definition TrimSuffix (s suf : string) : string :=
  if str_ends s suf then str_take (String.length s - String.length suf) s else s.

Definition with_scheme (u : URL) (s : string) : URL := mkURL s (u_Host u) (u_Path u) (u_Fragment u) (Query u).
Definition with_path (u : URL) (p : string) : URL := mkURL (u_Scheme u) (u_Host u) p (u_Fragment u) (Query u).

Definition plain_scheme (t : wsTran) (u : URL) : URL :=
  if isSr t then with_scheme u (TrimSuffix (u_Scheme u) ".sr")
  else if isRw t then with_scheme u (TrimSuffix (u_Scheme u) ".rw") else u.

Section ws.
Context {F : Type} (as_checker : value → option F) (url_Parse : string → err + URL).

Definition parseAddressToURL (address : string) : err + (URL * string) :=
  match StripScheme address with
  | inl e => inl e
  | inr addr => match url_Parse address with inl e => inl e | inr u => inr (u, addr) end
  end.

Record dialer := mkDialer { d_tran : wsTran; d_addr : string; d_url : URL }.

Definition NewDialer (t : wsTran) (address : string) : err + dialer :=
  match parseAddressToURL address with
  | inl e => inl e
  | inr (u, addr) => inr (mkDialer t addr (plain_scheme t u))
  end.

(** ** Dialling *)

Section dial.
Context {N C : Type} (dial_url : Z → Z → URL → M N (err + C)) (ws_Close : C → M N unit)
  (ws_Subprotocol : C → string) (ws_LocalAddr : C → Address).

(** A typed option of the options [opts], or [d]. *)
Definition option_or {A} (assert : value → outcome A) (d : A) (st : store) (opts : nat) (opt : Option) : outcome A :=
  match GetOption (S opts) st opts opt with
  | None => Panics PanicNilDeref
  | Some None => Ret d
  | Some (Some v) => assert v
  end.

(** [if val, ok := opts.GetOption(opt); ok { x = opt.Value(val) }] on the buffer sizes; 0 is the default of the library. *)
Definition buffer_sizes (rd wr : Z) (st : store) (opts : nat) : outcome (Z * Z) :=
  match option_or intOption_Value rd st opts OptionReg.Transport.ws_ReadBufferSize with
  | Panics q => Panics q
  | Ret rd =>
      match option_or intOption_Value wr st opts OptionReg.Transport.ws_WriteBufferSize with
      | Panics q => Panics q
      | Ret wr => Ret (rd, wr)
      end
  end.

(** The connection, with its data type, under the label of [RwTransport]. *)
Definition Dial (d : dialer) (st : store) (opts : nat) : M N (err + connection (C * Z)) :=
  match buffer_sizes 0 0 st opts with
  | Panics q => gopanic q
  | Ret (rd, wr) =>
      r ← dial_url rd wr (d_url d);
      match r with
      | inl e => mret (inl e)
      | inr c =>
          match dataTypes (ws_Subprotocol c) with
          | None => ws_Close c ;; mret (inl ErrBadProtocol)
          | Some dt => mret (inr (NewConnection (scheme RwTransport) (c, dt) (ws_LocalAddr c)
                                    (NewAddress (scheme (d_tran d)) (d_addr d)) false))
          end
      end
  end.
End dial.

(** ** The listener *)

Inductive origin_check := CheckNil | noCheckOrigin | CheckFunc (f : F).
Record upgrader := mkUpgrader { ReadBufferSize : Z; WriteBufferSize : Z; CheckOrigin : origin_check }.

(** [l_net]: the net.Listener, an interface: [Some true] while it is open, [Some false] when
    closed, and also after a failed [net.ListenTCP], whose nil pointer makes an interface that
    is not nil. *)
Record Listener := mkListener {
  l_tran : wsTran; l_addr : string; l_URL : URL; l_upgrader : upgrader; externalListen : bool;
  l_net : option bool; pending : option nat; closedq : bool }.

Definition NewListener (t : wsTran) (address : string) : err + Listener :=
  match parseAddressToURL address with
  | inl e => inl e
  | inr (u, addr) =>
      let u := if bool_decide (u_Path u = EmptyString) then with_path u "/" else u in
      inr (mkListener t addr (plain_scheme t u) (mkUpgrader 0 0 CheckNil) false None None false)
  end.

Definition set_upgrader (l : Listener) (x : upgrader) : Listener :=
  mkListener (l_tran l) (l_addr l) (l_URL l) x (externalListen l) (l_net l) (pending l) (closedq l).
Definition set_pending (l : Listener) (c : nat) : Listener :=
  mkListener (l_tran l) (l_addr l) (l_URL l) (l_upgrader l) (externalListen l) (l_net l) (Some c) (closedq l).
Definition set_external (l : Listener) : Listener :=
  mkListener (l_tran l) (l_addr l) (l_URL l) (l_upgrader l) true (l_net l) (pending l) (closedq l).
Definition set_net (l : Listener) (n : option bool) : Listener :=
  mkListener (l_tran l) (l_addr l) (l_URL l) (l_upgrader l) (externalListen l) n (pending l) (closedq l).
(** [closedq] closed; the net.Listener, if there is one, closed too. *)
Definition set_closed (l : Listener) : Listener :=
  mkListener (l_tran l) (l_addr l) (l_URL l) (l_upgrader l) (externalListen l)
    (match l_net l with Some _ => Some false | None => None end) (pending l) true.

(** The origin check [Listen] installs: [val.(CheckOriginFunc)] panics on any other type. *)
Definition origin_checker (d : origin_check) (st : store) (opts : nat) : outcome origin_check :=
  option_or (λ v, match as_checker v with Some f => Ret (CheckFunc f) | None => Panics PanicTypeAssert end)
    d st opts OptionReg.Transport.ws_OriginChecker.
Definition origin_config (d : origin_check) (st : store) (opts : nat) : outcome origin_check :=
  match GetOption (S opts) st opts OptionReg.Transport.ws_CheckOrigin with
  | None => Panics PanicNilDeref
  | Some None => origin_checker d st opts
  | Some (Some v) =>
      match boolOption_Value v with
      | Panics q => Panics q
      | Ret true => origin_checker CheckNil st opts
      | Ret false => Ret noCheckOrigin
      end
  end.

(** Where an upgraded connection is: past [Upgrade], past the check of [closedq], at the send
    on the channel [c], in a queue, returned by the [a]th [Accept], closed. *)
Inductive cphase := WUp | WReady | WPush (c : option nat) | WQueued | WAccepted (a : nat) | WClosed.
Inductive aphase := AWait | AFailed (e : err) | AGot (k : nat).
Record achan := mkChan { cap : Z; queue : list nat }.

(** [closing]: the [Close] that drains the queue; [next_ref]: the next name. *)
Record wworld := mkW {
  lst : Listener; chs : gmap nat achan; conns : gmap nat cphase; accs : gmap nat aphase;
  closing : bool; next_ref : nat }.

Definition put_l (l : Listener) (w : wworld) : wworld := mkW l (chs w) (conns w) (accs w) (closing w) (next_ref w).
Definition put_ch (c : nat) (x : achan) (w : wworld) : wworld :=
  mkW (lst w) (<[c := x]> (chs w)) (conns w) (accs w) (closing w) (next_ref w).
Definition put_conn (k : nat) (p : cphase) (w : wworld) : wworld :=
  mkW (lst w) (chs w) (<[k := p]> (conns w)) (accs w) (closing w) (next_ref w).
Definition put_acc (a : nat) (p : aphase) (w : wworld) : wworld :=
  mkW (lst w) (chs w) (conns w) (<[a := p]> (accs w)) (closing w) (next_ref w).
Definition put_closing (b : bool) (w : wworld) : wworld := mkW (lst w) (chs w) (conns w) (accs w) b (next_ref w).
Definition bump (w : wworld) : wworld := mkW (lst w) (chs w) (conns w) (accs w) (closing w) (S (next_ref w)).

(** A fresh listener. *)
Definition start (l : Listener) : wworld := mkW l ∅ ∅ ∅ false 0.

Section listen.
Context {A : Type} (resolve : string → err + A) (listen_tcp : A → option err).

(** [Listen]; what it has changed stays changed when it fails. *)
Definition Listen (st : store) (opts : nat) (w : wworld) : outcome (option err * wworld) :=
  if closedq (lst w) then Ret (Some ErrClosed, w) else
  match ValueFrom intOption_Value st OptionReg.Transport.ws_PendingSize [opts] with
  | None => Panics PanicNilDeref
  | Some (Panics q) => Panics q
  | Some (Ret n) =>
      if n <? 0 then Panics PanicMakeChan else
      let c := next_ref w in
      let w := bump (put_ch c (mkChan n []) (put_l (set_pending (lst w) c) w)) in
      match buffer_sizes (ReadBufferSize (l_upgrader (lst w))) (WriteBufferSize (l_upgrader (lst w))) st opts with
      | Panics q => Panics q
      | Ret (rd, wr) =>
          match origin_config (CheckOrigin (l_upgrader (lst w))) st opts with
          | Panics q => Panics q
          | Ret chk =>
              let w := put_l (set_upgrader (lst w) (mkUpgrader rd wr chk)) w in
              match ValueFrom boolOption_Value st OptionReg.Transport.ws_ExternalListen [opts] with
              | None => Panics PanicNilDeref
              | Some (Panics q) => Panics q
              | Some (Ret true) => Ret (None, put_l (set_external (lst w)) w)
              | Some (Ret false) =>
                  match ResolveTCPAddr resolve (u_Host (l_URL (lst w))) with
                  | inl e => Ret (Some e, w)
                  | inr a =>
                      match listen_tcp a with
                      | Some e => Ret (Some e, put_l (set_net (lst w) (Some false)) w)
                      | None => Ret (None, put_l (set_net (lst w) (Some true)) w)
                      end
                  end
              end
          end
      end
  end.
End listen.

(** [Accept] up to its select; [Close] up to its loop. *)
Definition Accept (w : wworld) : wworld :=
  bump (put_acc (next_ref w)
    (if negb (externalListen (lst w)) && bool_decide (l_net (lst w) = None) then AFailed ErrBadOperateState else AWait) w).
Definition Close (w : wworld) : option err * wworld :=
  if closedq (lst w) then (Some ErrClosed, w) else (None, put_closing true (put_l (set_closed (lst w)) w)).

(** Past [Upgrade]: the closed listener's connections and unknown protocols are closed. *)
Definition ServeHTTP_check (subproto : nat → string) (k : nat) (w : wworld) : wworld :=
  put_conn k (if closedq (lst w) then WClosed
              else match dataTypes (subproto k) with None => WClosed | Some _ => WReady end) w.

(** A receive from the channel [c] yields the connection [k]: the head of the queue, or, on a
    channel without a buffer, what a sender waits with. *)
Inductive receives (c : nat) (k : nat) (w : wworld) : wworld → Prop :=
  | rcv_queue n q : chs w !! c = Some (mkChan n (k :: q)) → receives c k w (put_ch c (mkChan n q) w)
  | rcv_meet : chs w !! c = Some (mkChan 0 []) → conns w !! k = Some (WPush (Some c)) → receives c k w w.

Definition can_receive (w : wworld) : Prop := ∃ c k w', pending (lst w) = Some c ∧ receives c k w w'.

Inductive wstep (subproto : nat → string) : wworld → wworld → Prop :=
  | w_listen A (resolve : string → err + A) listen_tcp st opts w e w' :
      Listen resolve listen_tcp st opts w = Ret (e, w') → wstep subproto w w'
  | w_upgrade w : wstep subproto w (bump (put_conn (next_ref w) WUp w))
  | w_check k w : conns w !! k = Some WUp → wstep subproto w (ServeHTTP_check subproto k w)
  | w_enter k w : conns w !! k = Some WReady → wstep subproto w (put_conn k (WPush (pending (lst w))) w)
  | w_push k c n q w :
      conns w !! k = Some (WPush (Some c)) → chs w !! c = Some (mkChan n q) → zlen q < n →
      wstep subproto w (put_conn k WQueued (put_ch c (mkChan n (q ++ [k])) w))
  | w_accept w : wstep subproto w (Accept w)
  | w_accept_take a c k w w' :
      accs w !! a = Some AWait → pending (lst w) = Some c → receives c k w w' →
      wstep subproto w (put_acc a (AGot k) (put_conn k (WAccepted a) w'))
  | w_accept_closed a w :
      accs w !! a = Some AWait → closedq (lst w) = true → wstep subproto w (put_acc a (AFailed ErrClosed) w)
  | w_close w : wstep subproto w (Close w).2
  | w_drain c k w w' :
      closing w = true → pending (lst w) = Some c → receives c k w w' →
      wstep subproto w (put_conn k WClosed w')
  | w_drained w : closing w = true → ¬ can_receive w → wstep subproto w (put_closing false w).

Definition wreached (subproto : nat → string) (l : Listener) : wworld → Prop := rtc (wstep subproto) (start l).
End ws.
Arguments origin_check F : clear implicits.
Arguments Listener F : clear implicits.
Arguments wworld F : clear implicits.
