(* ===== verification/WsListenThms.v ===== *)
(** The queue of a websocket listener: no connection is handed out twice, and connections
    that outlive the listener. *)
From S2P Require Import Prelude Errs Options OptionSet OptionReg Transport Address WsListen.
From stdpp Require Import base tactics numbers gmap list strings relations.
From Stdlib Require Import ZArith Lia.
Open Scope Z_scope.

Section facts.
Context {F : Type} (as_checker : value → option F) (subproto : nat → string).
Implicit Types (w : wworld F).

(** The connection [k] is in the queue of the channel [c]. *)
Definition holds w (c k : nat) : Prop := ∃ ch, chs w !! c = Some ch ∧ k ∈ queue ch.

Definition chan_ok (ch : achan) : Prop := NoDup (queue ch) ∧ 0 ≤ cap ch ∧ zlen (queue ch) ≤ cap ch.

(** Past the check of the protocol, and not closed. *)
Definition usable (p : cphase) : bool := match p with WUp | WClosed => false | _ => true end.

Record winv w : Prop := WInv {
  w_chan : ∀ c ch, chs w !! c = Some ch → chan_ok ch;
  w_queued : ∀ k, conns w !! k = Some WQueued ↔ ∃ c, holds w c k;
  w_one : ∀ c1 c2 k, holds w c1 k → holds w c2 k → c1 = c2;
  w_acc : ∀ k a, conns w !! k = Some (WAccepted a) ↔ accs w !! a = Some (AGot k);
  w_proto : ∀ k p, conns w !! k = Some p → usable p → is_Some (dataTypes (subproto k));
  w_fresh : ∀ n, (next_ref w ≤ n)%nat → chs w !! n = None ∧ conns w !! n = None ∧ accs w !! n = None }.

Lemma winv_start l : winv (start l).
Proof.
  assert (Hn : ∀ c k, ¬ holds (start l) c k) by (by intros c k (ch & H & _)).
  split; cbn; try done.
  - intros k. rewrite lookup_empty. split; [done|]. by intros [c ?%Hn].
  - by intros c1 c2 k ?%Hn.
Qed.

(** The world changes in nothing the invariant speaks of. *)
Lemma winv_same w w' :
  winv w → chs w' = chs w → conns w' = conns w → accs w' = accs w → (next_ref w ≤ next_ref w')%nat → winv w'.
Proof.
  intros [I1 I2 I3 I4 I5 I6] E1 E2 E3 E4. unfold holds in *.
  split; unfold holds; rewrite ?E1, ?E2, ?E3; [done..|]. intros n Hn. apply I6. lia.
Qed.

(** A connection goes from a phase outside the queues to another one. *)
Lemma winv_conn w k p :
  winv w → (∀ c, ¬ holds w c k) → (∀ a, conns w !! k ≠ Some (WAccepted a)) →
  p ≠ WQueued → (∀ a, p ≠ WAccepted a) → (usable p → is_Some (dataTypes (subproto k))) → (k < next_ref w)%nat →
  winv (put_conn k p w).
Proof.
  intros [I1 I2 I3 I4 I5 I6] Hh Ha Hq Hp Hu Hk. split; cbn; try done.
  - intros k'. rewrite lookup_insert_Some. split; [intros [[<- ->]|[Hne H]]; [done|by apply I2]|].
    intros H. right. split; [intros <-; destruct H as [c H]; by apply (Hh c)|]. by apply I2.
  - intros k' a. rewrite lookup_insert_Some. rewrite <- I4. split; [intros [[<- ->]|[_ H]]; [by destruct (Hp a)|done]|].
    intros H. right. split; [intros <-; by apply (Ha a)|done].
  - intros k' p'. rewrite lookup_insert_Some. intros [[<- <-]|[_ H]]; [done|by eapply I5].
  - intros n Hn. rewrite lookup_insert_ne by lia. by apply I6.
Qed.

(** What a receive takes is out of the queues. *)
Lemma winv_receives w w' c k :
  winv w → receives c k w w' → winv (put_conn k WClosed w') ∧ accs w' = accs w ∧ next_ref w' = next_ref w ∧
  is_Some (dataTypes (subproto k)) ∧ ∃ p, conns w !! k = Some p ∧ ∀ a, p ≠ WAccepted a.
Proof.
  intros HI H. pose proof HI as [I1 I2 I3 I4 I5 I6]. destruct H as [n q Hc|Hc Hk].
  - destruct (I1 _ _ Hc) as (Hnd & Hn & Hl). cbn in Hnd, Hn, Hl. apply NoDup_cons in Hnd as [Hk Hnd].
    assert (Hcq : conns w !! k = Some WQueued) by (apply I2; exists c, (mkChan n (k :: q)); split; [done|by left]).
    assert (Hh : ∀ c' k', holds (put_ch c (mkChan n q) w) c' k' ↔ holds w c' k' ∧ k' ≠ k).
    { intros c' k'. unfold holds. cbn. destruct (decide (c' = c)) as [->|Hne].
      - rewrite lookup_insert_eq. split.
        + intros (ch & [= <-] & Hin). cbn in Hin. split; [exists (mkChan n (k :: q)); split; [done|by right]|by intros ->].
        + intros [(ch & Hch & Hin) Hkk]. rewrite Hc in Hch. injection Hch as <-. cbn in Hin.
          apply elem_of_cons in Hin as [->|Hin]; [done|]. by exists (mkChan n q).
      - rewrite lookup_insert_ne by done. split; [|by intros [? _]]. intros H. split; [done|]. intros ->.
        apply Hne, (I3 _ _ k H). exists (mkChan n (k :: q)). split; [done|by left]. }
    split; [|split; [done|split; [done|split; [by eapply I5|by eexists]]]].
    split; cbn; [|setoid_rewrite Hh..|intros k' a|intros k' p|].
    + intros c' ch. rewrite lookup_insert_Some. intros [[<- <-]|[_ H]]; [|by eapply I1].
      unfold chan_ok. cbn. rewrite zlen_cons in Hl. split; [done|lia].
    + intros k'. rewrite lookup_insert_Some. split.
      * intros [[_ H]|[Hne H]]; [done|]. apply I2 in H as [c' H]. by exists c'.
      * intros (c' & H & Hne). right. split; [done|]. apply I2. by exists c'.
    + intros c1 c2 k' [? _] [? _]. by eapply I3.
    + rewrite lookup_insert_Some, <- I4. split; [by intros [[_ H]|[_ H]]|]. intros H. right. split; [congruence|done].
    + rewrite lookup_insert_Some. intros [[_ <-]|[_ H]]; [done|by eapply I5].
    + intros m Hm. destruct (I6 m Hm) as (F1 & F2 & F3). rewrite !lookup_insert_ne; [done|congruence..].
  - split; [|split; [done|split; [done|split; [by eapply I5|by eexists]]]]. apply winv_conn; try done; try congruence.
    + intros c' H. assert (conns w !! k = Some WQueued) by (apply I2; by exists c'). congruence.
    + destruct (decide (k < next_ref w)%nat); [done|]. destruct (I6 k) as (_ & ? & _); [lia|congruence].
Qed.

Lemma winv_known w k p : winv w → conns w !! k = Some p → (k < next_ref w)%nat.
Proof.
  intros HI Hk. destruct (decide (k < next_ref w)%nat); [done|].
  destruct (w_fresh _ HI k) as (_ & ? & _); [lia|congruence].
Qed.
Lemma winv_outside w k p : winv w → conns w !! k = Some p → p ≠ WQueued → ∀ c, ¬ holds w c k.
Proof. intros HI Hk Hp c H. assert (conns w !! k = Some WQueued) by (apply (w_queued _ HI); by exists c). congruence. Qed.

(** A connection that waits outside the queues changes its phase. *)
Lemma winv_move w k p p' :
  winv w → conns w !! k = Some p → p ≠ WQueued → (∀ a, p ≠ WAccepted a) →
  p' ≠ WQueued → (∀ a, p' ≠ WAccepted a) → (usable p' → is_Some (dataTypes (subproto k))) →
  winv (put_conn k p' w).
Proof.
  intros HI Hk H1 H2 H3 H4 H5. apply winv_conn; try done.
  - by apply (winv_outside w k p).
  - intros a. rewrite Hk. intros [= ->]. by apply (H2 a).
  - by apply (winv_known w k p).
Qed.

Lemma winv_push w k c n q :
  winv w → conns w !! k = Some (WPush (Some c)) → chs w !! c = Some (mkChan n q) → zlen q < n →
  winv (put_conn k WQueued (put_ch c (mkChan n (q ++ [k])) w)).
Proof.
  intros HI Hk Hc Hl. pose proof HI as [I1 I2 I3 I4 I5 I6].
  assert (Hout : ∀ c', ¬ holds w c' k) by (by eapply winv_outside).
  destruct (I1 _ _ Hc) as (Hnd & Hn & _). cbn in Hnd, Hn.
  assert (Hh : ∀ c' k', holds (put_ch c (mkChan n (q ++ [k])) w) c' k' ↔ holds w c' k' ∨ (c' = c ∧ k' = k)).
  { intros c' k'. unfold holds. cbn. destruct (decide (c' = c)) as [->|Hne].
    - rewrite lookup_insert_eq, Hc. split.
      + intros (ch & [= <-] & [Hin| ->%list_elem_of_singleton]%elem_of_app); [left; by exists (mkChan n q)|by right].
      + intros [(ch & [= <-] & Hin)|[_ ->]]; eexists; (split; [done|]); cbn in *; apply elem_of_app; [by left|right; by left].
    - rewrite lookup_insert_ne by done. split; [by left|]. by intros [?|[? _]]. }
  split; cbn; [|setoid_rewrite Hh..|intros k' a|intros k' p|].
  - intros c' ch. rewrite lookup_insert_Some. intros [[<- <-]|[_ H]]; [|by eapply I1].
    unfold chan_ok. cbn [queue cap]. split; [|zlia].
    apply NoDup_app. split; [done|]. split; [|apply NoDup_singleton].
    intros x Hx ->%list_elem_of_singleton. apply (Hout c). by exists (mkChan n q).
  - intros k'. rewrite lookup_insert_Some, I2. split.
    + intros [[<- _]|[_ [c' H]]]; [exists c; by right|exists c'; by left].
    + intros (c' & [H|[_ ->]]); [|by left]. right. split; [intros <-; by apply (Hout c')|by exists c'].
  - intros c1 c2 k' [H1|[-> ->]] [H2|[-> E]]; subst; try done; [by eapply I3|by destruct (Hout c1)|by destruct (Hout c2)].
  - rewrite lookup_insert_Some, <- I4. split; [by intros [[_ H]|[_ H]]|]. intros H. right. split; [congruence|done].
  - rewrite lookup_insert_Some. intros [[<- <-]|[_ H]] Hu; by eapply I5.
  - intros m Hm. destruct (I6 m Hm) as (F1 & F2 & F3). rewrite !lookup_insert_ne; [done|congruence..].
Qed.

(** An accept that waits is answered. *)
Lemma winv_answer w a e : winv w → accs w !! a = Some AWait → winv (put_acc a (AFailed e) w).
Proof.
  intros [I1 I2 I3 I4 I5 I6] Ha. split; cbn; try done.
  - intros k a'. rewrite lookup_insert_Some, I4. split; [|by intros [[_ ?]|[_ ?]]].
    intros H. right. split; [congruence|done].
  - intros n Hn. destruct (I6 n Hn) as (F1 & F2 & F3). rewrite lookup_insert_ne; [done|congruence].
Qed.
Lemma winv_got w w' a c k :
  winv w → accs w !! a = Some AWait → receives c k w w' → winv (put_acc a (AGot k) (put_conn k (WAccepted a) w')).
Proof.
  intros HI Ha Hr. destruct (winv_receives w w' c k HI Hr) as ([I1 I2 I3 I4 I5 I6] & E1 & E2 & Hp & p & Hk & Hpa).
  cbn [put_conn conns chs accs next_ref] in *.
  assert (Hno : ∀ k' a', k' ≠ k → conns w' !! k' = Some (WAccepted a') ↔ accs w' !! a' = Some (AGot k')).
  { intros k' a' Hne. rewrite <- I4, lookup_insert_ne by done. done. }
  assert (Hout : ∀ c', ¬ holds w' c' k).
  { intros c' H. assert (E : <[k:=WClosed]> (conns w') !! k = Some WQueued) by (apply I2; by exists c').
    by rewrite lookup_insert_eq in E. }
  rewrite <- E1 in Ha. split; cbn; try done.
  - intros k'. etrans; [|apply (I2 k')]. rewrite !lookup_insert_Some. naive_solver.
  - intros k' a'. rewrite !lookup_insert_Some. destruct (decide (k' = k)) as [->|Hne].
    + split; [intros [[_ [= ->]]|[? _]]; [by left|done]|].
      intros [[-> _]|[Hne H]]; [by left|]. rewrite <- I4, lookup_insert_eq in H. done.
    + rewrite Hno by done. split; [intros [[? _]|[_ H]]; [done|right; split; [congruence|done]]|].
      intros [[_ [= ->]]|[_ H]]; [done|by right].
  - intros k' p'. rewrite lookup_insert_Some. intros [[<- <-]|[Hne H]] Hu; [done|].
    apply (I5 k' p'); [by rewrite lookup_insert_ne|done].
  - intros n Hn. destruct (I6 n Hn) as (F1 & F2 & F3).
    rewrite lookup_insert_ne in F2; [|intros <-; rewrite lookup_insert_eq in F2; done].
    rewrite !lookup_insert_ne; [done|congruence|intros <-]. specialize (I6 k Hn) as (_ & E & _). by rewrite lookup_insert_eq in E.
Qed.

(** [Listen] makes at most a new channel. *)
Lemma Listen_effect {A} (resolve : string → err + A) listen_tcp st opts w e w' :
  Listen as_checker resolve listen_tcp st opts w = Ret (e, w') →
  conns w' = conns w ∧ accs w' = accs w ∧ closing w' = closing w ∧ closedq (lst w') = closedq (lst w) ∧
  ((chs w' = chs w ∧ next_ref w' = next_ref w ∧ closedq (lst w) = true) ∨
   ∃ n, 0 ≤ n ∧ chs w' = <[next_ref w := mkChan n []]> (chs w) ∧ next_ref w' = S (next_ref w)).
Proof.
  unfold Listen. destruct (closedq (lst w)) eqn:Hc; [intros [= <- <-]; rewrite Hc; split_and!; by auto|].
  destruct (ValueFrom _ _ _ _) as [[n|]|]; [|done..]. destruct (Z.ltb_spec n 0); [done|].
  destruct (buffer_sizes _ _ _ _) as [[rd wr]|]; [|done]. destruct (origin_config _ _ _ _) as [chk|]; [|done].
  intros H1. assert (Hw : chs w' = <[next_ref w := mkChan n []]> (chs w) ∧ next_ref w' = S (next_ref w) ∧
    conns w' = conns w ∧ accs w' = accs w ∧ closing w' = closing w ∧ closedq (lst w') = closedq (lst w)).
  { destruct (ValueFrom _ _ _ _) as [[[]|]|]; [by injection H1 as <- <-| |done..].
    destruct (ResolveTCPAddr _ _) as [e1|a]; [by injection H1 as <- <-|].
    by destruct (listen_tcp a); injection H1 as <- <-. }
  rewrite Hc in Hw. destruct Hw as (?&?&?&?&?&?). split_and!; try done. right. by exists n.
Qed.

Lemma winv_listen {A} (resolve : string → err + A) listen_tcp st opts w e w' :
  winv w → Listen as_checker resolve listen_tcp st opts w = Ret (e, w') → winv w'.
Proof.
  intros HI (E1 & E2 & _ & _ & [(E3 & E4 & _)|(n & Hn & E3 & E4)])%Listen_effect; [apply (winv_same w); try done; lia|].
  pose proof HI as [I1 I2 I3 I4 I5 I6]. destruct (I6 (next_ref w)) as (F1 & _); [lia|].
  assert (Hh : ∀ c k, holds w' c k ↔ holds w c k).
  { intros c k. unfold holds. rewrite E3. destruct (decide (c = next_ref w)) as [->|Hne].
    - rewrite lookup_insert_eq, F1. split; [|by intros (? & ? & _)]. intros (ch & [= <-] & Hin).
      by apply not_elem_of_nil in Hin.
    - by rewrite lookup_insert_ne by done. }
  split; [|setoid_rewrite Hh..| | |]; rewrite ?E1, ?E2, ?E3, ?E4; try done.
  - intros c ch. rewrite lookup_insert_Some. intros [[_ <-]|[_ H]]; [|by eapply I1]. by repeat constructor.
  - intros m Hm. destruct (I6 m) as (F2 & F3 & F4); [lia|]. by rewrite lookup_insert_ne by lia.
Qed.

Lemma winv_step w w' : winv w → wstep as_checker subproto w w' → winv w'.
Proof.
  intros HI H. destruct H as [A rs lt st opts w e w' H|w|k w Hk|k w Hk|k c n q w Hk Hc Hl|w|a c k w w' Ha _ Hr
    |a w Ha _|w|c k w w' _ _ Hr|w _ _].
  - by eapply winv_listen.
  - destruct (w_fresh _ HI (next_ref w)) as (_ & Hk & _); [lia|].
    apply (winv_conn (bump w) (next_ref w) WUp); try done; [| |cbn; congruence|cbn; lia].
    + apply (winv_same w); cbn; try done; lia.
    + intros c H. assert (conns w !! next_ref w = Some WQueued) by (apply (w_queued _ HI); by exists c). congruence.
  - unfold ServeHTTP_check. apply (winv_move w k WUp); try done; repeat case_match; done.
  - apply (winv_move w k WReady); try done. intros _. by eapply w_proto.
  - by apply winv_push.
  - pose proof HI as [I1 I2 I3 I4 I5 I6]. destruct (I6 (next_ref w)) as (_ & _ & Fa); [lia|].
    split; cbn; try done.
    + intros k a. rewrite lookup_insert_Some, I4. split.
      * intros H. right. split; [congruence|done].
      * intros [[_ E]|[_ E]]; [|done]. by case_match.
    + intros n Hn. rewrite lookup_insert_ne by lia. apply I6. lia.
  - by eapply winv_got.
  - by apply winv_answer.
  - unfold Close. destruct (closedq (lst w)); [done|]. by apply (winv_same w).
  - by eapply winv_receives.
  - by apply (winv_same w).
Qed.

Lemma winv_reached l w : wreached as_checker subproto l w → winv w.
Proof.
  intros H. apply (rtc_ind_r winv (start l)) in H; [done|apply winv_start|].
  intros x y _ Hs HI. by eapply winv_step.
Qed.

(** A connection that is queued, or was handed out. *)
Definition kept w (k : nat) : Prop := conns w !! k = Some WQueued ∨ ∃ a, conns w !! k = Some (WAccepted a).

(** Once the listener is closed and its queue was drained nothing closes a queued connection. *)
Lemma kept_step w w' k :
  winv w → closedq (lst w) = true → closing w = false → kept w k → wstep as_checker subproto w w' →
  closedq (lst w') = true ∧ closing w' = false ∧ kept w' k.
Proof.
  intros HI Hc Hd Hk H.
  assert (Hput : ∀ w1 k' p, kept w1 k → k' ≠ k → kept (put_conn k' p w1) k).
  { intros w1 k' p Hk1 Hne. unfold kept. cbn. by rewrite lookup_insert_ne by done. }
  assert (Hne : ∀ k' p, conns w !! k' = Some p → usable p → p ≠ WQueued → (∀ a, p ≠ WAccepted a) → k' ≠ k).
  { intros k' p E1 _ N1 N2 ->. destruct Hk as [Hk|[a Hk]]; rewrite E1 in Hk; injection Hk as ->; [done|by apply (N2 a)]. }
  destruct H as [A rs lt st opts w e w' H|w|k' w Hk'|k' w Hk'|k' c n q w Hk' Hch Hl|w|a c k' w w' Ha _ Hr
    |a w Ha _|w|c k' w w' Hcl _ Hr|w Hcl _]; cbn.
  - apply Listen_effect in H as (E1 & _ & E3 & E4 & _). unfold kept. rewrite E1, E3, E4. done.
  - split_and!; try done. apply (Hput (bump w)); [done|]. intros <-.
    destruct (w_fresh _ HI (next_ref w)) as (_ & E & _); [lia|]. destruct Hk as [Hk|[? Hk]]; congruence.
  - split_and!; try done. apply Hput; [done|]. intros ->. destruct Hk as [Hk|[? Hk]]; congruence.
  - split_and!; try done. apply Hput; [done|]. by eapply Hne.
  - split_and!; try done. apply (Hput (put_ch c _ w)); [done|]. by eapply Hne.
  - done.
  - assert (lst w' = lst w ∧ closing w' = closing w ∧ conns w' = conns w) as (E1 & E2 & E3) by by destruct Hr.
    rewrite E1, E2. split_and!; try done. unfold kept. cbn. rewrite E3. destruct (decide (k' = k)) as [->|].
    + rewrite lookup_insert_eq. right. by eexists.
    + by rewrite lookup_insert_ne by done.
  - done.
  - unfold Close. rewrite Hc. done.
  - congruence.
  - done.
Qed.

Lemma kept_steps w w' k :
  winv w → closedq (lst w) = true → closing w = false → kept w k → rtc (wstep as_checker subproto) w w' → kept w' k.
Proof.
  intros HI Hc Hd Hk H. induction H as [|w w1 w' Hs _ IH]; [done|].
  destruct (kept_step w w1 k HI Hc Hd Hk Hs) as (? & ? & ?). apply IH; try done. by eapply winv_step.
Qed.
End facts.

(** ** Claims *)


(** A listener that was never asked to listen refuses to accept; one whose [net.ListenTCP] failed
    lets the accept wait: the nil pointer it returned makes an interface that is not nil. *)
Lemma failed_listen_accept_waits {F A} (as_checker : value → option F) (resolve : string → err + A) listen_tcp st opts
    t address l e w' :
  (∀ url_Parse, NewListener url_Parse t address = inr l →
     accs (Accept (start l)) !! 0%nat = Some (AFailed ErrBadOperateState)) ∧
  ((∃ a, ResolveTCPAddr resolve (u_Host (l_URL l)) = inr a) → closedq l = false →
   Listen as_checker resolve listen_tcp st opts (start l) = Ret (Some e, w') →
   accs (Accept w') !! next_ref w' = Some AWait).
Proof.
  split.
  - intros url_Parse. unfold NewListener. destruct (parseAddressToURL _ _) as [|[u x]]; [done|]. by intros [= <-].
  - intros [a Hr] Hc. unfold Listen. cbn [lst start]. rewrite Hc.
    destruct (ValueFrom _ _ _ _) as [[n|]|]; [|done..]. destruct (n <? 0); [done|].
    destruct (buffer_sizes _ _ _ _) as [[rd wr]|]; [|done]. destruct (origin_config _ _ _ _) as [chk|]; [|done].
    destruct (ValueFrom _ _ _ _) as [[[]|]|]; [done| |done..]. cbn. rewrite Hr.
    destruct (listen_tcp a); [|done]. intros [= _ <-]. unfold Accept. cbn.
    rewrite lookup_insert_eq. by destruct (externalListen l).
Qed.

(** A listener whose handler another server runs, with room for one connection. *)
Definition demo_store : store :=
  [mkOptions {[OptionReg.Transport.ws_ExternalListen := VBool true; OptionReg.Transport.ws_PendingSize := VInt 1]} None [] None []].
Definition demo_lis : Listener unit :=
  mkListener SrTransport "host/x" (mkURL "ws" "host" "/x" "" []) (mkUpgrader 0 0 CheckNil) false None None false.
Definition no_checker (_ : value) : option unit := None.
Definition binary (_ : nat) : string := "multisocket.binary".
Definition demo_listen : wworld unit :=
  match Listen no_checker (λ _, inr ()) (λ _ : unit, None) demo_store 0 (start demo_lis) with
  | Ret (_, w) => w
  | Panics _ => start demo_lis
  end.
Definition demo_serving : wworld unit :=
  let w := ServeHTTP_check binary 1 (bump (put_conn 1 WUp demo_listen)) in put_conn 1 (WPush (pending (lst w))) w.
Definition demo_pushed (w : wworld unit) : wworld unit := put_conn 1 WQueued (put_ch 0 (mkChan 1 [1%nat]) w).
Definition demo_drained : wworld unit := put_closing false (Close demo_serving).2.

Abbreviation demo_step := (wstep no_checker binary).

Lemma demo_serving_reached : wreached no_checker binary demo_lis demo_serving.
Proof.
  eapply rtc_l; [eapply (w_listen no_checker binary unit (λ _, inr ()) (λ _, None) demo_store 0 _ None demo_listen); reflexivity|].
  eapply rtc_l; [apply w_upgrade|].
  eapply rtc_l; [by apply (w_check _ _ 1)|].
  eapply rtc_l; [by apply (w_enter _ _ 1)|]. apply rtc_refl.
Qed.

Lemma demo_push w : conns w !! 1%nat = Some (WPush (Some 0%nat)) → chs w !! 0%nat = Some (mkChan 1 []) → demo_step w (demo_pushed w).
Proof. intros H1 H2. by apply (w_push no_checker binary 1 0 1 []). Qed.

Lemma demo_drained_reached : wreached no_checker binary demo_lis (demo_pushed demo_drained).
Proof.
  unfold wreached. etrans; [apply demo_serving_reached|].
  eapply rtc_l; [apply w_close|].
  eapply rtc_l; [apply w_drained; [done|]|].
  - intros (c & k & w' & Hc & Hr). injection Hc as <-. by destruct Hr as [n q H|H _]; vm_compute in H.
  - apply rtc_once, demo_push; reflexivity.
Qed.

(** A request that is being served while the listener is closed: its connection is put in
    the queue after [Close] has drained it, and in every later state it is still in the
    queue or was handed out by the closed listener - the package never closes it. *)
Theorem closed_ws_listener_keeps_connection :
  ∃ k w, wreached no_checker binary demo_lis w ∧ closedq (lst w) = true ∧ closing w = false ∧
    conns w !! k = Some WQueued ∧ ∀ w', rtc demo_step w w' → kept w' k.
Proof.
  exists 1%nat, (demo_pushed demo_drained). pose proof demo_drained_reached as Hr.
  split; [done|]. split; [done|]. split; [done|]. split; [done|]. intros w'.
  apply kept_steps; [by eapply winv_reached|done|done|by left].
Qed.

(** ** Witness: a connection that is served and accepted *)

Definition demo_accepted : wworld unit :=
  put_acc 2 (AGot 1) (put_conn 1 (WAccepted 2) (put_ch 0 (mkChan 1 []) (Accept (demo_pushed demo_serving)))).

Lemma demo_accepted_reached : wreached no_checker binary demo_lis demo_accepted.
Proof.
  unfold wreached. etrans; [apply demo_serving_reached|].
  eapply rtc_l; [apply demo_push; reflexivity|].
  eapply rtc_l; [apply w_accept|]. apply rtc_once.
  eapply (w_accept_take no_checker binary 2 0 1); [reflexivity..|]. by apply rcv_queue.
Qed.

