(* ===== verification/Pipe.v ===== *)
(** connector/pipe.go: how a pipe turns a transport connection into messages.

    [Conn R] is what a transport provides: a byte stream, packets, or whole messages (the
    interfaces SendReceiver and MsgSendReceiver of connector/types.go, which a connection
    may or may not implement, see [caps]).  A [pio] is the pipe's view of its connection:
    the connection, whether the pipe was closed, and CloseOnEOF.  Closing a pipe also takes
    it out of its connector and recycles its id: Connector.v. *)
From S2P Require Import Prelude Errs GoHeap GoIO Bytespool Message Packet MessageFacts MessageSend.
From S2P Require Import IdGen Options OptionSet OptionReg.
From stdpp Require Import base tactics numbers list gmap strings.
From Stdlib Require Import ZArith Lia.
Open Scope Z_scope.

(** ** Connections *)

Class Conn (R : Type) := {
  conn_Reader :: Reader R;
  conn_Write : list Z → R → option err * R;
  conn_Send : slice → R → option err * R;
  conn_Recv : R → option slice * option err * R;
  conn_SendMsg : Message → R → option err * R;
  conn_RecvMsg : R → option Message * option err * R }.

(** The scheme of the transport and the interfaces the raw connection implements. *)
Record caps := Caps { Scheme : string; isSendReceiver : bool; isMsgSendReceiver : bool }.

(** ** newPipe *)

Inductive send_func := sendMsgRawBlock | sendMsgRaw | sendMsgDirect | sendMsgBlock | sendMsgStream.
Inductive recv_func := recvMsgRawBlock | recvMsgRaw | recvMsgDirect | recvMsgBlock | recvMsgStream.

Record pipe := mkPipe {
  closeOnEOF : bool; raw : bool; maxRecvContentLength : Z; id : Z;
  readBuffer : option Z;           (* size of the buffered reader, if there is one *)
  sendMsgFunc : send_func; recvMsgFunc : recv_func;
  msgFreeLevel : FreeLevel;
  rawRecvBuf : option Z; metaBuf : option Z }.   (* sizes of the scratch buffers *)

(** [strings.HasPrefix(s, p)] *)
Definition HasPrefix (s p : string) : bool := String.prefix p s.
Definition is_channel (c : caps) : bool := HasPrefix (Scheme c) "inproc.channel".

(** A computation that may not return ([None]) or may panic. *)
Definition run (A : Type) : Type := option (outcome A).
Definition run_ret {A} (a : A) : run A := Some (Ret a).
Definition run_bind {A B} (m : run A) (f : A → run B) : run B :=
  match m with
  | None => None
  | Some (Panics p) => Some (Panics p)
  | Some (Ret a) => f a
  end.

(** [opt.ValueFrom(opts)] *)
Definition value_from {A} (assert : value → outcome A) (st : store) (opt : Option) (r : nat) : run A :=
  ValueFrom assert st opt [r].

(** [make([]byte, n)] *)
Definition make_bytes (n : Z) : run Z := if n <? 0 then Some (Panics PanicBounds) else run_ret n.

Definition newPipe (c : caps) (st : store) (opts : nat) (g : RecyclableIDGenerator)
  : run (pipe * RecyclableIDGenerator) :=
  run_bind (value_from boolOption_Value st Connector.CloseOnEOF opts) (λ eof,
  run_bind (value_from boolOption_Value st Connector.Raw opts) (λ raw,
  match NextID g with
  | None => None
  | Some (id, g) =>
  run_bind (match GetOptionDefault st opts Connector.ReadBuffer with
            | Some v => Some (intOption_Value v) | None => None end) (λ rb,
  let rb := if rb >? 0 then Some rb else None in
  if raw then
    let level := if is_channel c then FreeLevelMsg else FreeLevelAll in
    if isSendReceiver c
    then run_ret (mkPipe eof raw 0 id rb sendMsgRawBlock recvMsgRawBlock level None None, g)
    else
      run_bind (value_from intOption_Value st Connector.RawRecvBufSize opts) (λ n,
      run_bind (make_bytes n) (λ n,
      run_ret (mkPipe eof raw 0 id rb sendMsgRaw recvMsgRaw level (Some n) None, g)))
  else
    run_bind (value_from uint32Option_Value st Connector.MaxRecvContentLength opts) (λ maxL,
    if isMsgSendReceiver c then
      let level := if is_channel c then FreeLevelNone else FreeLevelAll in
      run_ret (mkPipe eof raw maxL id rb sendMsgDirect recvMsgDirect level None None, g)
    else
      let level := if is_channel c then FreeLevelMsg else FreeLevelAll in
      if isSendReceiver c
      then run_ret (mkPipe eof raw maxL id rb sendMsgBlock recvMsgBlock level None None, g)
      else run_ret (mkPipe eof raw maxL id rb sendMsgStream recvMsgStream level None (Some MetaSize), g)))
  end)).

Definition ID (p : pipe) : Z := id p.
Definition IsRaw (p : pipe) : bool := raw p.
Definition MsgFreeLevel (p : pipe) : FreeLevel := msgFreeLevel p.

(** ** I/O *)

Record pio (R : Type) := Pio { conn : R; closed : bool; onEOF : bool }.
Arguments Pio {R} conn closed onEOF.
Arguments conn {R} p : rename.
Arguments closed {R} p : rename.
Arguments onEOF {R} p : rename.

Section pipe_io.
Context {R : Type} `{!Conn R}.
Implicit Types (p : pio R).

Definition with_conn (r : R) p : pio R := Pio r (closed p) (onEOF p).

(** [Close]: the connection is closed once, a second call answers [ErrClosed]. *)
Definition pipe_Close p : option err * pio R :=
  if closed p then (Some ErrClosed, p)
  else (None, Pio (Close (conn p)) true (onEOF p)).

(** [if errx := p.Close(); errx != nil { err = errx }] *)
Definition close_on (e : err) p : err * pio R :=
  match pipe_Close p with
  | (Some errx, p') => (errx, p')
  | (None, p') => (e, p')
  end.

(** The error handling [Read] and [recv] share, after [n] bytes with error [e]. *)
Definition on_read_error (n : Z) (e : err) p : option err * pio R :=
  match e with
  | EOF =>
      if 0 <? n then (None, p)
      else if onEOF p then let '(_, p') := pipe_Close p in (Some ErrClosed, p')
      else (Some EOF, p)
  | _ => let '(e', p') := close_on e p in (Some e', p')
  end.

Definition pipe_Read (n : Z) p : list Z * option err * pio R :=
  let '(bs, e, r) := Read n (conn p) in
  match e with
  | None => (bs, None, with_conn r p)
  | Some e => let '(e', p') := on_read_error (zlen bs) e (with_conn r p) in (bs, e', p')
  end.

Definition pipe_recv p : option slice * option err * pio R :=
  let '(b, e, r) := conn_Recv (conn p) in
  match e with
  | None => (b, None, with_conn r p)
  | Some e =>
      let n := match b with Some s => slen s | None => 0 end in
      let '(e', p') := on_read_error n e (with_conn r p) in (b, e', p')
  end.

Definition on_write (res : option err * R) p : option err * pio R :=
  let '(e, r) := res in
  match e with
  | None => (None, with_conn r p)
  | Some e => let '(e', p') := close_on e (with_conn r p) in (Some e', p')
  end.

Definition pipe_Write (b : list Z) p : option err * pio R := on_write (conn_Write b (conn p)) p.
Definition pipe_send (b : slice) p : option err * pio R := on_write (conn_Send b (conn p)) p.
(** [Writev] writes the buffers one after the other. *)
Definition pipe_Writev (v : list (list Z)) p : option err * pio R :=
  on_write (conn_Write (concat v) (conn p)) p.

#[global] Instance pipe_reader : Reader (pio R) := {
  Read := pipe_Read;
  Close p := snd (pipe_Close p);
  pending p := pending (conn p);
  credit p := (length (pending (conn p)) + credit (conn p))%nat }.

(** ** Messages *)

Abbreviation PM := (M (world * pio R)).

Definition on_pio {A} (f : pio R → A * pio R) : PM A := λ '(w, p),
  let '(a, p') := f p in Ret (a, (w, p')).
Definition on_conn {A} (f : R → A * R) : PM A := λ '(w, p),
  let '(a, r) := f (conn p) in Ret (a, (w, with_conn r p)).
Definition bytes_of (s : slice) : PM (list Z) := λ '(w, p), Ret (wread w s, (w, p)).

Definition sendMsg (msg : Message) : PM (option err) :=
  if HasFlags (meta msg) MsgFlagRaw then mret None else
  b ← lift_world (Encode msg);
  bs ← bytes_of b;
  on_pio (pipe_Write bs).

Definition sendBlockMsg (msg : Message) : PM (option err) :=
  if HasFlags (meta msg) MsgFlagRaw then mret None else
  b ← lift_world (Encode msg);
  on_pio (pipe_send b).

Definition sendRawMsg (msg : Message) : PM (option err) :=
  if HasAnyFlags (meta msg) then mret None else
  bs ← bytes_of (Content msg);
  on_pio (pipe_Write bs).

Definition sendBlockRawMsg (msg : Message) : PM (option err) :=
  if HasAnyFlags (meta msg) then mret None else
  on_pio (pipe_send (Content msg)).

Definition SendMsg (q : pipe) (msg : Message) : PM (option err) :=
  match sendMsgFunc q with
  | sendMsgStream => sendMsg msg
  | sendMsgBlock => sendBlockMsg msg
  | sendMsgRaw => sendRawMsg msg
  | sendMsgRawBlock => sendBlockRawMsg msg
  | sendMsgDirect => on_conn (conn_SendMsg msg)
  end.

(** The results of the receive functions: [(msg, err)]. *)
Definition of_sum (x : err + Message) : option Message * option err :=
  match x with inl e => (None, Some e) | inr m => (Some m, None) end.

Definition recvMsg (q : pipe) : PM (option Message * option err) :=
  x ← NewMessageFromReader (id q) (default 0 (metaBuf q)) (maxRecvContentLength q);
  mret (of_sum x).

Definition recvBlockMsg (q : pipe) : PM (option Message * option err) :=
  '(b, e) ← on_pio pipe_recv;
  match e with
  | Some e => mret (None, Some e)
  | None =>
      bs ← bytes_of (default NilSlice b);
      x ← lift_world (NewMessageFromBytes (id q) bs (maxRecvContentLength q));
      mret (of_sum x)
  end.

Definition recvRawMsg (q : pipe) : PM (option Message * option err) :=
  '(bs, e) ← on_pio (pipe_Read (default 0 (rawRecvBuf q)));
  match e with
  | Some EOF => msg ← lift_world (NewRawRecvMessage (id q) None); mret (Some msg, Some EOF)
  | Some e => mret (None, Some e)
  | None => msg ← lift_world (NewRawRecvMessage (id q) (Some bs)); mret (Some msg, None)
  end.

Definition recvBlockRawMsg (q : pipe) : PM (option Message * option err) :=
  '(b, e) ← on_pio pipe_recv;
  match e with
  | Some EOF => msg ← lift_world (NewRawRecvMessage (id q) None); mret (Some msg, Some EOF)
  | Some e => mret (None, Some e)
  | None =>
      match b with
      | Some s => bs ← bytes_of s;
                  msg ← lift_world (NewRawRecvMessage (id q) (Some bs)); mret (Some msg, None)
      | None => msg ← lift_world (NewRawRecvMessage (id q) None); mret (Some msg, None)
      end
  end.

Definition recvDirectMsg (q : pipe) : PM (option Message * option err) :=
  '(m, e) ← on_conn conn_RecvMsg;
  match e with
  | Some e => mret (None, Some e)
  | None =>
      match m with
      | Some srcMsg =>
          x ← lift_world (NewMessageFromMsg (id q) srcMsg (maxRecvContentLength q));
          mret (of_sum x)
      | None => gopanic PanicNilDeref
      end
  end.

Definition RecvMsg (q : pipe) : PM (option Message * option err) :=
  match recvMsgFunc q with
  | recvMsgStream => recvMsg q
  | recvMsgBlock => recvBlockMsg q
  | recvMsgRaw => recvRawMsg q
  | recvMsgRawBlock => recvBlockRawMsg q
  | recvMsgDirect => recvDirectMsg q
  end.
End pipe_io.
