(* ===== verification/PipeThms.v ===== *)
(** Theorems on pipes: construction, messages across a connection, failures. *)
From S2P Require Import Prelude Errs GoHeap GoIO Bytespool Message Packet MessageFacts MessageSend MessageThms.
From S2P Require Import IdGen Options OptionSet OptionSetThms OptionReg Pipe.
From stdpp Require Import base tactics numbers list gmap strings.
From Stdlib Require Import ZArith Lia.
Open Scope Z_scope.

(** ** The pipe as a reader *)
Section reader.
Context {R : Type} `{!Conn R} `{!@ReaderOk R conn_Reader}.
Implicit Types (p : pio R).

#[global] Instance pipe_reader_ok : ReaderOk (pio R).
Proof.
  split.
  - intros n p bs e p' Hn. cbn. unfold pipe_Read. destruct p as [r cl eof]. cbn.
    destruct (Read n r) as [[bs0 e0] r'] eqn:E.
    destruct (read_ok n r bs0 e0 r' Hn E) as (Hl & Hp & Hc & He & Hle).
    destruct e0 as [e0|].
    2: { intros [= <- <- <-]. cbn. specialize (Hc eq_refl). rewrite Hp, length_app.
         split_and!; [done|done|intros _; lia|done|lia]. }
    specialize (He ltac:(done)). rewrite He in Hp. pose proof (close_pending r') as Hcp. rewrite He in Hcp.
    apply Nat.le_0_r, length_zero_iff_nil in Hcp.
    pose proof (close_credit r') as Hcc. rewrite app_nil_r in Hp.
    unfold on_read_error, close_on, pipe_Close, with_conn. cbn. unfold zlen.
    destruct e0, cl; cbn; try (intros [= <- <- <-]; cbn; rewrite ?He, ?Hcp, ?app_nil_r, ?Hp; cbn;
      split_and!; done || lia).
    all: destruct (Z.ltb_spec 0 (Z.of_nat (length bs0))); [|destruct eof]; cbn; intros [= <- <- <-]; cbn;
      rewrite ?He, ?Hcp, ?app_nil_r, ?Hp; cbn; split_and!; done || lia || (intros; lia).
  - intros p. cbn. unfold pipe_Close. destruct (closed p); cbn; [done|]. apply close_pending.
  - intros p. cbn. unfold pipe_Close. destruct (closed p); cbn; [done|].
    pose proof (close_credit (conn p)). pose proof (close_pending (conn p)). lia.
Qed.
End reader.

(** ** Messages across a connection *)

(** [sendMsg] and [recvMsg] over a byte stream are inverse up to the hop: for a message
    without the raw flag the sender hands exactly the packet's wire form to the
    connection, and any pipe whose connection delivers these bytes next - in whatever
    chunks, with whatever after them - receives the same packet one hop further, its own id
    pushed on the source path, and leaves the rest unread. *)
Theorem pipe_stream_roundtrip {R1 R2} `{!Conn R1, !Conn R2, !@ReaderOk R2 conn_Reader}
    w msg k (r1 r1' : R1) cl eof q (p2 : pio R2) rest :
  world_ok w → packet_ok k → receivable (pmeta k) → fits (pmeta k) (maxRecvContentLength q) →
  msg_at w msg k → HasFlags (pmeta k) MsgFlagRaw = false →
  conn_Write (wire k) r1 = (None, r1') → metaBuf q = Some MetaSize →
  pending (conn p2) = wire k ++ rest →
  ∃ w1 msg' w2 p2', sendMsg msg (w, Pio r1 cl eof) = Ret (None, (w1, Pio r1' cl eof)) ∧
    recvMsg q (w1, p2) = Ret ((Some msg', None), (w2, p2')) ∧
    shows w2 msg' (hop (id q) k) ∧ pending (conn p2') = rest.
Proof.
  intros Hw Hk Hr Hf Hat Hraw Hwr Hmb Hp.
  destruct (msg_at_read w msg k Hat) as (Hmeta & _).
  destruct (Encode_run w msg k Hw Hat) as (w1 & HE & Hwire & Hw1 & _).
  destruct (FromReader_run (id q) k (maxRecvContentLength q) w1 p2 rest) as (msg' & w2 & p2' & HR & Hb & Hp');
    [done..|].
  exists w1, msg', w2, p2'. split_and!; [| |by eapply built_shows|done].
  - unfold sendMsg. rewrite Hmeta, Hraw.
    erewrite M_bind_ret_run by (apply lift_world_run, HE). erewrite M_bind_ret_run by reflexivity.
    rewrite Hwire. unfold on_pio, pipe_Write. cbn [conn]. by rewrite Hwr.
  - unfold recvMsg. rewrite Hmb. cbn [default]. by go_step HR.
Qed.

(** ** Failures *)

(** Reading keeps a property that failed reads establish. *)
Section after_failure.
Context {R : Type} `{!Reader R} (P : R → Prop) (P_read : ∀ n r bs e r', Read n r = (bs, Some e, r') → P r').

Lemma read_loop_failed fuel n r bs e r' : read_loop fuel n r = (bs, Some e, r') → P r'.
Proof using P_read.
  revert n r bs. induction fuel as [|fuel IH]; intros n r bs; cbn; [by case_match|].
  case_match; [done|]. destruct (Read n r) as [[bs0 [e0|]] r1] eqn:E.
  - case_match; [done|]. intros [= <- <- <-]. by eapply P_read.
  - destruct (read_loop fuel (n - zlen bs0) r1) as [[bs1 e1] r2] eqn:El.
    intros [= <- -> <-]. by eapply IH.
Qed.

Lemma ReadFull_failed n r bs e r' : ReadFull n r = (bs, Some e, r') → P r'.
Proof using P_read.
  unfold ReadFull. destruct (read_loop _ n r) as [[bs0 e0] r0] eqn:E. intros [= <- He <-].
  destruct e0 as [e0|]; [|done]. by eapply read_loop_failed.
Qed.

Lemma CopyN_failed n r e r' : CopyN n r = (Some e, r') → P r'.
Proof using P_read.
  unfold CopyN. destruct (read_loop _ n r) as [[bs0 e0] r0] eqn:E. intros [= -> <-].
  by eapply read_loop_failed.
Qed.
End after_failure.

(** Everything [NewMessageFromReader] does besides reading keeps the reader, and every one
    of its failures follows a failed read or closes the reader. *)
Section reader_failure.
Context {R : Type} `{!Reader R} (P : R → Prop).
Context (P_read : ∀ n r bs e r', Read n r = (bs, Some e, r') → P r') (P_close : ∀ r, P (Close r)).

Definition failed (e : option err) (s : world * R) : Prop := e ≠ None → P s.2.

Lemma hoare_lift_world {A} (Q : R → Prop) (c : M world A) :
  hoare (λ s, Q s.2) (lift_world c) (λ _ (s : world * R), Q s.2).
Proof. intros [w r] a [w' r'] HQ. unfold lift_world. destruct (c w) as [[]|]; [|done]. by intros [= _ _ <-]. Qed.

Lemma hoare_lift_any {A} (c : M world A) : hoare (λ _ : world * R, True) (lift_world c) (λ _ _, True).
Proof. done. Qed.

Lemma hoare_readFull_into s : hoare (λ _, True) (readFull_into s) failed.
Proof using P_read.
  eapply hoare_bind with (Mid := λ be s, failed be.2 s).
  - intros [w r] [bs e] [w' r'] _. unfold readFull. destruct (ReadFull _ r) as [[bs1 e1] r1] eqn:E.
    intros [= <- <- _ <-]. intros He. destruct e1; [|done]. by eapply ReadFull_failed.
  - intros [bs [e|]].
    + eapply hoare_bind; [eapply hoare_weaken; [apply (hoare_lift_world P)|intros ? H; by apply H|done]|].
      intros []. apply hoare_ret. by intros ? ? ?.
    + eapply hoare_bind; [eapply hoare_weaken; [apply hoare_lift_any|done|done]|].
      intros []. apply hoare_ret. by intros ? _ ?.
Qed.

Lemma hoare_discardN n : hoare (λ _, True) (discardN n) failed.
Proof using P_read.
  intros [w r] e [w' r'] _. unfold discardN. destruct (CopyN n r) as [e1 r1] eqn:E.
  intros [= <- _ <-] He. destruct e1; [|done]. by eapply CopyN_failed.
Qed.

(** The error exits: release what was allocated, keep the reader. *)
Lemma hoare_exit {A} (c : M world unit) (e : err) :
  hoare (λ s, P s.2) (lift_world c ;; mret (inl e : err + A)) (λ x s, (∃ e, x = inl e) → P s.2).
Proof. eapply hoare_bind; [apply hoare_lift_world|]. intros []. apply hoare_ret. by intros. Qed.

Ltac reader_step :=
  lazymatch goal with
  | |- hoare _ (lift_world (lift_mem _ ;; _) ;; mret (inl _)) _ =>
      eapply hoare_weaken; [apply hoare_exit|intros ? H; by apply H|done]
  | |- hoare _ (lift_world (Message_Free _) ;; mret (inl _)) _ =>
      eapply hoare_weaken; [apply hoare_exit|intros ? H; by apply H|done]
  | |- hoare _ (lift_world _ ≫= _) _ =>
      eapply hoare_bind; [eapply hoare_weaken; [apply hoare_lift_any|done|intros; exact I]|intros ?]
  | |- hoare _ (readFull_into _ ≫= _) _ =>
      eapply hoare_bind; [eapply hoare_weaken; [apply hoare_readFull_into|done|intros; eassumption]|intros [?|]]
  | |- hoare _ (mret (inr _)) _ => apply hoare_ret; intros ? ? [? ?]; discriminate
  end.

Lemma FromReader_failure pid mb maxL :
  hoare (λ _, True) (NewMessageFromReader pid mb maxL) (λ x s, (∃ e, x = inl e) → P s.2).
Proof using P_read P_close.
  unfold NewMessageFromReader. reader_step.
  eapply hoare_bind with (Mid := λ be s, failed be.2 s).
  { intros [w r] [bs e] [w' r'] _. unfold readFull. destruct (ReadFull _ r) as [[bs1 e1] r1] eqn:E.
    intros [= <- <- _ <-] He. destruct e1; [|done]. by eapply ReadFull_failed. }
  intros [mb' [e|]]; [reader_step|].
  eapply hoare_bind with (Mid := λ _ _, True); [done|]. intros m.
  destruct (too_long m maxL).
  { reader_step. eapply hoare_bind with (Mid := λ _ s, P s.2).
    - intros [w r] [] [w' r'] _ [= _ <-]. apply P_close.
    - intros []. apply hoare_ret. by intros. }
  do 3 reader_step. reader_step; [reader_step|]. do 2 reader_step.
  eapply hoare_bind with (Mid := λ em s, failed em.1 s).
  { destruct (_ =? _); [|apply hoare_ret; by intros ? _ ?].
    eapply hoare_bind; [eapply hoare_weaken; [apply hoare_discardN|done|intros; eassumption]|].
    intros e. by apply hoare_ret. }
  intros [[e|] m2]; [reader_step|].
  eapply hoare_bind with (Mid := λ edt s, failed edt.1.1 s).
  { destruct (0 <? _); [|apply hoare_ret; by intros ? _ ?]. reader_step.
    eapply hoare_bind; [eapply hoare_weaken; [apply hoare_readFull_into|done|intros; eassumption]|].
    intros e. by apply hoare_ret. }
  intros [[[e|] dst] to]; [reader_step|]. reader_step. reader_step; [reader_step|reader_step].
Qed.
End reader_failure.

Section failures.
Context {R : Type} `{!Conn R}.
Implicit Types (p : pio R).

(** The pipe is closed, or it was told to stay open on EOF. *)
Definition shut p : Prop := closed p = true ∨ onEOF p = false.

Lemma close_on_shut e p : closed (close_on e p).2 = true.
Proof. unfold close_on, pipe_Close. destruct (closed p) eqn:E; done. Qed.

Lemma on_read_error_shut n e p e' p' : on_read_error n e p = (Some e', p') → shut p'.
Proof.
  unfold on_read_error. pose proof (close_on_shut e p) as Hc.
  destruct (close_on e p) as [e1 p1]. cbn in Hc.
  destruct e; try (intros [= <- <-]; by left). destruct (0 <? n); [done|].
  destruct (onEOF p) eqn:Eo; [|intros [= <- <-]; by right].
  unfold pipe_Close. destruct (closed p) eqn:Ec; intros [= <- <-]; by left.
Qed.

Lemma pipe_Read_shut n p bs e p' : pipe_Read n p = (bs, Some e, p') → shut p'.
Proof.
  unfold pipe_Read. destruct (Read n (conn p)) as [[bs0 [e0|]] r]; [|done].
  destruct (on_read_error _ e0 _) as [e1 p1] eqn:E. intros [= <- -> <-]. by eapply on_read_error_shut.
Qed.

Lemma pipe_recv_shut p b e p' : pipe_recv p = (b, Some e, p') → shut p'.
Proof.
  unfold pipe_recv. destruct (conn_Recv (conn p)) as [[b0 [e0|]] r]; [|done].
  destruct (on_read_error _ e0 _) as [e1 p1] eqn:E. intros [= <- -> <-]. by eapply on_read_error_shut.
Qed.

Lemma on_write_closed res p e p' : on_write res p = (Some e, p') → closed p' = true.
Proof.
  unfold on_write. destruct res as [[e0|] r]; [|done]. pose proof (close_on_shut e0 (with_conn r p)) as Hc.
  destruct (close_on e0 _) as [e1 p1]. by intros [= _ <-].
Qed.

Lemma pipe_Close_shut p : shut (snd (pipe_Close p)).
Proof. unfold pipe_Close. destruct (closed p) eqn:E; by left. Qed.

(** A send function of one call on the connection. *)
Lemma send_closed {A} (c : M (world * pio R) A) (res : A → pio R → option err * pio R) w p e w' p' :
  (∀ a p0 e0 p1, res a p0 = (Some e0, p1) → closed p1 = true) →
  (c ≫= λ a, on_pio (res a)) (w, p) = Ret (Some e, (w', p')) → closed p' = true.
Proof.
  intros Hres (a & [w1 p1] & _ & Ha)%M_bind_Ret. unfold on_pio in Ha.
  destruct (res a p1) as [e1 p2] eqn:E. injection Ha as -> _ <-. by eapply Hres.
Qed.

Lemma SendMsg_closes q msg w p e w' p' :
  sendMsgFunc q ≠ sendMsgDirect → SendMsg q msg (w, p) = Ret (Some e, (w', p')) → closed p' = true.
Proof.
  intros Hq. unfold SendMsg, sendMsg, sendBlockMsg, sendRawMsg, sendBlockRawMsg.
  destruct (sendMsgFunc q) eqn:E; try done; (case_match; [done|]).
  - unfold on_pio. destruct (pipe_send _ p) as [e1 p1] eqn:Es. intros [= -> _ <-]. by eapply on_write_closed.
  - apply (send_closed _ pipe_Write). intros ????. apply on_write_closed.
  - apply (send_closed _ pipe_send). intros ????. apply on_write_closed.
  - intros (b & s1 & _ & Hb)%M_bind_Ret. destruct s1 as [w1 p1]. revert Hb.
    apply (send_closed _ pipe_Write). intros ????. apply on_write_closed.
Qed.


(** The exception: a pipe over a connection that carries whole messages (the default
    inproc.channel transport) is never closed by its own failures - whatever error the
    connection answers to a send or a receive, the pipe stays open, in its connector and
    with its id taken; and a packet pipe stays open when it refuses a malformed packet. *)
Theorem direct_failure_leaves_open q msg w p w' p' :
  (∀ e, sendMsgFunc q = sendMsgDirect → SendMsg q msg (w, p) = Ret (e, (w', p')) → closed p' = closed p) ∧
  (∀ m e, recvMsgFunc q = recvMsgDirect → RecvMsg q (w, p) = Ret ((m, e), (w', p')) → closed p' = closed p) ∧
  (∀ s r', recvMsgFunc q = recvMsgBlock → conn_Recv (conn p) = (Some s, None, r') → world_ok w →
    zlen (wread w s) < MetaSize →
    ∃ w'', RecvMsg q (w, p) = Ret ((None, Some ErrBadMsg), (w'', with_conn r' p))).
Proof.
  split_and!.
  - intros e Hq. unfold SendMsg, on_conn. rewrite Hq. destruct (conn_SendMsg msg (conn p)) as [e1 r1].
    by intros [= _ _ <-].
  - intros m e Hq. unfold RecvMsg, recvDirectMsg. rewrite Hq.
    intros ([m1 e1] & [w1 p1] & H1 & H2)%M_bind_Ret. unfold on_conn in H1.
    destruct (conn_RecvMsg (conn p)) as [[m0 e0] r0]. injection H1 as -> -> <- <-.
    destruct e1 as [e1|]; [by injection H2 as _ _ _ <-|]. destruct m1 as [m1|]; [|done].
    apply M_bind_Ret in H2 as (x & [w2 p2] & H1 & H2). injection H2 as _ _ <-.
    unfold lift_world in H1. destruct (NewMessageFromMsg _ _ _ w) as [[]|]; [|done]. by injection H1 as _ _ <-.
  - intros s r' Hq Hr Hw Hs. unfold RecvMsg, recvBlockMsg. rewrite Hq.
    destruct (FromBytes_short (id q) (wread w s) (maxRecvContentLength q) w Hw Hs) as (w'' & HF & _).
    exists w''. erewrite M_bind_ret_run by (unfold on_pio, pipe_recv; by rewrite Hr). cbv beta iota.
    erewrite M_bind_ret_run by reflexivity. cbn [default].
    erewrite M_bind_ret_run by (apply lift_world_run, HF). done.
Qed.
End failures.

(** ** Construction *)

(** The functions and the free level that [newPipe] is meant to choose: a raw pipe talks
    bytes, in packets if the connection has them; the others whole messages, packets or
    a stream, in this order of preference; the sender of a channel transport does not
    free what the receiver of the channel will free. *)
Definition chosen_funcs (raw : bool) (c : caps) : send_func * recv_func :=
  match raw, isMsgSendReceiver c, isSendReceiver c with
  | true, _, true => (sendMsgRawBlock, recvMsgRawBlock)
  | true, _, false => (sendMsgRaw, recvMsgRaw)
  | false, true, _ => (sendMsgDirect, recvMsgDirect)
  | false, false, true => (sendMsgBlock, recvMsgBlock)
  | false, false, false => (sendMsgStream, recvMsgStream)
  end.
Definition freed_by_sender (raw : bool) (c : caps) : FreeLevel :=
  if is_channel c then if raw then FreeLevelMsg else if isMsgSendReceiver c then FreeLevelNone else FreeLevelMsg
  else FreeLevelAll.

(** Reading one well-typed option of a set. *)
Lemma option_read st opt r :
  store_ok st → store_typed st → (r < length st)%nat → has_kind (okind opt) (DefaultValue opt) →
  ∃ v, valueFrom st opt [r] = Some v ∧ GetOptionDefault st r opt = Some v ∧ has_kind (okind opt) v.
Proof.
  intros Hst Hty Hr Hdef. destruct (lookup_lt_is_Some_2 st r Hr) as [o Ho].
  unfold valueFrom, GetOptionDefault. cbn [first_hit].
  rewrite (GetOption_search (S r) st r opt o) by (done || lia).
  set (x := first_some (held st opt) (search (S r) st r opt)).
  exists (default (DefaultValue opt) x). split_and!; [by destruct x|done|].
  destruct x as [v|] eqn:Ex; [|done]. cbn. subst x.
  induction (search (S r) st r opt) as [|t l IH]; cbn in Ex; [done|].
  destruct (held st opt t) as [v'|] eqn:Eh; [|by apply IH].
  injection Ex as ->. by eapply held_typed.
Qed.

(** On a well-typed option set and while ids are free, [newPipe] returns (it cannot
    panic, unless a raw pipe is asked for a negative buffer size), under a fresh non-zero
    id, with the send and receive functions that fit the connection's interfaces, chosen
    consistently with each other, and with the free level that keeps exactly one owner for
    the buffers that cross an in-process channel. *)
Theorem newPipe_selects c st r g :
  store_ok st → store_typed st → (r < length st)%nat → gen_ok g →
  Z.of_nat (size (ids g)) < 2 ^ 31 - 1 →
  (∃ p g', newPipe c st r g = Some (Ret (p, g')) ∧ id_ok (id p) ∧ (id p ∉ ids g) ∧
     ids g' = {[id p]} ∪ ids g ∧ gen_ok g' ∧
     (sendMsgFunc p, recvMsgFunc p) = chosen_funcs (raw p) c ∧ msgFreeLevel p = freed_by_sender (raw p) c ∧
     (recvMsgFunc p = recvMsgStream → metaBuf p = Some MetaSize) ∧
     valueFrom st Connector.Raw [r] = Some (VBool (raw p))) ∨
  (∃ n, newPipe c st r g = Some (Panics PanicBounds) ∧ n < 0 ∧
     valueFrom st Connector.RawRecvBufSize [r] = Some (VInt n)).
Proof.
  intros Hst Hty Hr Hg Hsz.
  assert (∀ opt, has_kind (okind opt) (DefaultValue opt) → ∃ v, valueFrom st opt [r] = Some v ∧
    GetOptionDefault st r opt = Some v ∧ has_kind (okind opt) v) as Hv by (intros; by apply option_read).
  destruct (Hv Connector.CloseOnEOF I) as (v1 & E1 & _ & K1).
  destruct (Hv Connector.Raw I) as (v2 & E2 & _ & K2).
  destruct (Hv Connector.ReadBuffer ltac:(cbn; lia)) as (v3 & _ & E3 & K3).
  destruct (Hv Connector.RawRecvBufSize ltac:(cbn; lia)) as (v4 & E4 & _ & K4).
  destruct (Hv Connector.MaxRecvContentLength ltac:(cbn; lia)) as (v5 & E5 & _ & K5).
  destruct v1 as [|eof| | | | | | | | | |]; try done. destruct v2 as [|rw| | | | | | | | | |]; try done.
  destruct v3 as [| | | |rb| | | | | | |]; try done. destruct v4 as [| | | |n| | | | | | |]; try done.
  destruct v5 as [| | | | | | | | |maxL| |]; try done.
  destruct (NextID_run g Hg Hsz) as (i & g' & HN & Hi & Hni & Hids & Hg').
  unfold newPipe, value_from, ValueFrom. rewrite E1, E2, E3, E4, E5, HN.
  cbn [fmap option_fmap option_map boolOption_Value intOption_Value uint32Option_Value run_bind].
  destruct rw.
  - destruct (isSendReceiver c) eqn:Es.
    + left. eexists _, g'. split; [done|]. cbn. unfold freed_by_sender, chosen_funcs. rewrite Es.
      split_and!; done || by destruct (isMsgSendReceiver c).
    + cbn. unfold make_bytes. destruct (Z.ltb_spec n 0); [right; by exists n|].
      left. eexists _, g'. split; [done|]. cbn. unfold freed_by_sender, chosen_funcs. rewrite Es.
      split_and!; done || by destruct (isMsgSendReceiver c).
  - left. destruct (isMsgSendReceiver c) eqn:Em; [|destruct (isSendReceiver c) eqn:Es];
      (eexists _, g'; split; [done|]); cbn; unfold freed_by_sender, chosen_funcs; rewrite ?Em, ?Es;
      split_and!; done.
Qed.

(** ** Concrete instances *)

(** A connection in memory: what arrives as bytes and as packets, and what was written. *)
Record memconn := MemConn { incoming : stream; packets : list slice; written : list Z; broken : bool }.

#[global] Instance memconn_reader : Reader memconn := {
  Read n c := let '(bs, e, s) := Read n (incoming c) in (bs, e, MemConn s (packets c) (written c) (broken c));
  Close c := MemConn (Close (incoming c)) (packets c) (written c) true;
  pending c := pending (incoming c);
  credit c := credit (incoming c) }.

#[global] Instance memconn_reader_ok : ReaderOk memconn.
Proof.
  split.
  - intros n [s pk wr b] bs e r' Hn. cbn. destruct (stream_read n s) as [[bs0 e0] s'] eqn:E.
    intros [= <- <- <-]. exact (read_ok n s bs0 e0 s' Hn E).
  - intros [s pk wr b]. exact (close_pending s).
  - intros [s pk wr b]. exact (close_credit s).
Qed.

#[global] Instance memconn_conn : Conn memconn := {
  conn_Write bs c := if broken c then (Some ErrClosed, c)
                     else (None, MemConn (incoming c) (packets c) (written c ++ bs) (broken c));
  conn_Send s c := if broken c then (Some ErrClosed, c)
                   else (None, MemConn (incoming c) (packets c ++ [s]) (written c) (broken c));
  conn_Recv c := match packets c with
                 | [] => (None, Some EOF, c)
                 | s :: l => (Some s, None, MemConn (incoming c) l (written c) (broken c))
                 end;
  conn_SendMsg _ c := (Some ErrClosed, c);
  conn_RecvMsg c := (None, Some ErrClosed, c) }.

Definition demo_pipe (f : send_func) (g : recv_func) : pipe :=
  mkPipe true false 0 3 None f g FreeLevelAll (Some 16) (Some MetaSize).
Definition idle : memconn := MemConn (Stream [] EOF false) [] [] false.

Lemma pipe_stream_roundtrip_witness :
  ∃ w1 msg' w2 p2', sendMsg hi_state.1 (hi_state.2, Pio idle false true)
      = Ret (None, (w1, Pio (MemConn (Stream [] EOF false) [] (wire hi_packet) false) false true)) ∧
    recvMsg (demo_pipe sendMsgStream recvMsgStream)
      (w1, Pio (MemConn (Stream [wire hi_packet; [7]] EOF false) [] [] false) false true)
      = Ret ((Some msg', None), (w2, p2')) ∧
    shows w2 msg' (hop 3 hi_packet) ∧ pending (conn p2') = [7].
Proof.
  edestruct (pipe_stream_roundtrip (R1 := memconn) (R2 := memconn) hi_state.2 hi_state.1 hi_packet idle
    (MemConn (Stream [] EOF false) [] (wire hi_packet) false) false true
    (demo_pipe sendMsgStream recvMsgStream)
    (Pio (MemConn (Stream [wire hi_packet; [7]] EOF false) [] [] false) false true) [7])
    as (w1 & msg' & w2 & p2' & H1 & H2 & H3 & H4);
    [..|exists w1, msg', w2, p2'; exact (conj H1 (conj H2 (conj H3 H4)))].
  - apply hi_state_built.
  - apply hi_packet_ok.
  - apply hi_receivable.
  - by left.
  - apply hi_state_built.
  - vm_compute. reflexivity.
  - vm_compute. reflexivity.
  - reflexivity.
  - vm_compute. reflexivity.
Defined.


Lemma direct_failure_leaves_open_witness :
  ∃ w' p', RecvMsg (demo_pipe sendMsgDirect recvMsgDirect) (world_init [], Pio idle false true)
      = Ret ((None, Some ErrClosed), (w', p')) ∧ closed p' = false.
Proof.
  eexists _, _. split; [reflexivity|].
  exact (proj1 (proj2 (direct_failure_leaves_open (demo_pipe sendMsgDirect recvMsgDirect) zeroMessage
    (world_init []) (Pio idle false true) _ _)) None (Some ErrClosed) eq_refl eq_refl).
Defined.

Lemma newPipe_selects_witness :
  ∃ p g', newPipe (Caps "inproc.channel.sr" true false) [mkOptions ∅ None [] None []] 0 wrap_gen
      = Some (Ret (p, g')) ∧ sendMsgFunc p = sendMsgBlock ∧ msgFreeLevel p = FreeLevelMsg.
Proof.
  destruct (newPipe_selects (Caps "inproc.channel.sr" true false) [mkOptions ∅ None [] None []] 0 wrap_gen)
    as [(p & g' & H1 & _ & _ & _ & _ & H2 & H3 & _ & H4)|(n & _ & H2 & H3)].
  - intros [|] o; [|done]. intros [= <-]. split; [constructor|done].
  - intros [|] o opt v; [|done]. intros [= <-]. done.
  - cbn. lia.
  - split; [unfold wrap_gen; set_unfold; unfold id_ok; lia|done].
  - vm_compute. reflexivity.
  - exists p, g'. split; [exact H1|]. assert (raw p = false) as E.
    { assert (Some (VBool false) = Some (VBool (raw p))) as E by (rewrite <- H4; vm_compute; reflexivity).
      by injection E. }
    rewrite E in H2, H3.
    split; [by injection H2|exact H3].
  - exfalso. vm_compute in H3. injection H3 as H3. rewrite <- H3 in H2. discriminate H2.
Defined.
