(* ===== verification/Links.v ===== *)
(** What the two ends of a connection of the transports promise each other.

    A connection hands over bytes, packets or whole messages; [LinkOk], [PacketLink] and
    [MsgLink] say for each case that what one end sends successfully the other end receives,
    after what is under way.  The pipes of transport/inproc/channel and the websocket
    connection implement them.  A state of a link is one direction of the connection, seen from
    both ends.  An operation that has to wait answers [would_wait] here; the sessions take only
    steps that go through. *)
From S2P Require Import Prelude Errs GoHeap GoIO Bytespool Message Packet MessageFacts MessageSend MessageThms.
From S2P Require Import IdGen Options OptionSet OptionReg Pipe PipeThms Channel Ws.
From stdpp Require Import base tactics numbers list gmap relations.
From Stdlib Require Import ZArith Lia.
Open Scope Z_scope.

(** ** Bytes *)

Class LinkOk (R : Type) `{!Conn R} : Prop := {
  link_reader :: @ReaderOk R conn_Reader;
  link_write b r r' : conn_Write b r = (None, r') → pending r' = pending r ++ b }.

(** What stands for an operation that has to wait. *)
Definition would_wait : err := ErrOS 0.

(** A byte pipe implements neither SendReceiver nor MsgSendReceiver.  A write that has to wait is
    reported as an error here; the session takes only those that go through. *)
#[global] Instance bpipe_conn : Conn bpipe := {
  conn_Write b p := match Channel.Write false false b p with Some (_, e, p) => (e, p) | None => (Some would_wait, p) end;
  conn_Send _ p := (Some would_wait, p);
  conn_Recv p := (None, Some would_wait, p);
  conn_SendMsg _ p := (Some would_wait, p);
  conn_RecvMsg p := (None, Some would_wait, p) }.

Lemma bpipe_write b (p p' : bpipe) : conn_Write b p = (None, p') → pending p' = pending p ++ b.
Proof.
  cbn. unfold Channel.Write, Channel.Send.
  destruct p as [[its sz cl l fr] i]. cbn.
  assert (Hp : Channel.unread (mkB (mkHalf (its ++ [b]) sz cl l fr) i) = Channel.unread (mkB (mkHalf its sz cl l fr) i) ++ b).
  { unfold Channel.unread. cbn [hf ri items last]. rewrite concat_app. cbn [concat]. by rewrite app_nil_r, app_assoc. }
  destruct cl, (sz =? 0), (zlen its <? sz); cbn; intros E; simplify_eq; exact Hp.
Qed.
#[global] Instance bpipe_link : LinkOk bpipe := {| link_reader := bpipe_reader_ok; link_write := bpipe_write |}.

(** A websocket connection whose state [W] is one direction: what one end writes are the next
    messages of the other. *)
Class ws_duplex (W : Type) `{!ws_ops W} : Prop := {
  write_delivers dt b w w' : WriteMessage dt b w = (None, w') → cur w' = cur w ∧ later w' = later w ++ [b] }.

#[global] Instance ws_conn {W} `{!ws_ops W} : Conn (wsConn W) := {
  conn_Write b c := let '(_, e, c) := Ws.Write b c in (e, c);
  conn_Send _ c := (Some would_wait, c);
  conn_Recv c := (None, Some would_wait, c);
  conn_SendMsg _ c := (Some would_wait, c);
  conn_RecvMsg c := (None, Some would_wait, c) }.

Lemma ws_write {W} `{!ws_ops W, !ws_laws W, !ws_duplex W} b (c c' : wsConn W) :
  conn_Write b c = (None, c') → pending c' = pending c ++ b.
Proof.
  cbn. unfold Ws.Write.
  destruct (WriteMessage (dtype c) b (ws c)) as [e w] eqn:E. intros [= -> <-].
  apply write_delivers in E as [E1 E2]. unfold Ws.unread. cbn [ws has_r]. rewrite E1, E2, concat_app. cbn [concat].
  by rewrite app_nil_r, app_assoc.
Qed.
#[global] Instance ws_link {W} `{!ws_ops W, !ws_laws W, !ws_duplex W} : LinkOk (wsConn W) :=
  @Build_LinkOk (wsConn W) _ ws_reader_ok ws_write.

(** ** Packets and messages *)

(** A connection of packets: [lent] are the slices that were sent and not yet received.  The slices
    themselves are handed over. *)
Class PacketLink (R : Type) `{!Conn R} := {
  lent : R → list slice;
  packet_send b r r' : conn_Send b r = (None, r') → lent r' = lent r ++ [b];
  packet_recv r b e r' : conn_Recv r = (b, e, r') →
    match lent r with s :: l => b = Some s ∧ e = None ∧ lent r' = l | [] => b = None ∧ e ≠ None end }.

(** A connection of messages. *)
Class MsgLink (R : Type) `{!Conn R} := {
  queued : R → list Message;
  msg_send m r r' : conn_SendMsg m r = (None, r') → queued r' = queued r ++ [m];
  msg_recv r m e r' : conn_RecvMsg r = (m, e, r') →
    match queued r with x :: l => m = Some x ∧ e = None ∧ queued r' = l | [] => m = None ∧ e ≠ None end }.

(** The two pipes over Go channels whose items are not bytes. *)
Definition or_wait {A B} (r : option (option A * option err * B)) (h : B) : option A * option err * B :=
  match r with Some x => x | None => (None, Some would_wait, h) end.
Definition send_or_wait {B} (r : option (option err * B)) (h : B) : option err * B :=
  match r with Some x => x | None => (Some would_wait, h) end.

(** No byte of them is read or written by the connector's pipe. *)
Definition no_reader (A : Type) : Reader (Channel.half A) := {|
  GoIO.Read := λ _ h, ([], Some would_wait, h); GoIO.Close := λ h, (Channel.Close h).2;
  pending := λ _, []; credit := λ _, 0%nat |}.

#[global] Instance srPipe_conn : Conn (Channel.half slice) := {
  conn_Reader := no_reader slice;
  conn_Write _ h := (Some would_wait, h);
  conn_Send b h := send_or_wait (Channel.Send false false b h) h;
  conn_Recv h := or_wait (Channel.Recv h) h;
  conn_SendMsg _ h := (Some would_wait, h);
  conn_RecvMsg h := (None, Some would_wait, h) }.

#[global] Instance msrPipe_conn : Conn (Channel.half Message) := {
  conn_Reader := no_reader Message;
  conn_Write _ h := (Some would_wait, h);
  conn_Send _ h := (Some would_wait, h);
  conn_Recv h := (None, Some would_wait, h);
  conn_SendMsg m h := send_or_wait (msr_SendMsg false false m h) h;
  conn_RecvMsg h := or_wait (msr_RecvMsg h) h }.

Lemma half_send {A} (a : A) h h' : send_or_wait (Channel.Send false false a h) h = (None, h') → items h' = items h ++ [a].
Proof.
  unfold Channel.Send, send_or_wait. destruct (closedq h), (Channel.size h =? 0), (zlen (items h) <? Channel.size h); cbn;
    intros E; by simplify_eq.
Qed.
Lemma half_recv {A} (h : Channel.half A) b e h' : or_wait (Channel.Recv h) h = (b, e, h') →
  match items h with a :: l => b = Some a ∧ e = None ∧ items h' = l | [] => b = None ∧ e ≠ None end.
Proof.
  unfold Channel.Recv, take_item, or_wait. cbn. destruct (items h) as [|a l]; cbn.
  - destruct (closedq h); cbn; by intros [= <- <- <-].
  - by intros [= <- <- <-].
Qed.

#[global] Instance srPipe_link : PacketLink (Channel.half slice) := {| lent := items; packet_send := half_send; packet_recv := half_recv |}.
#[global] Instance msrPipe_link : MsgLink (Channel.half Message) := {| queued := items; msg_send := half_send; msg_recv := half_recv |}.
