(* ===== verification/BufReader.v ===== *)
(** The buffered reader of a pipe: [bufio.NewReaderSize] over the connection, which newPipe of
    connector/pipe.go and of transport/inproc/iopipe put in front of what they read.

    [bufio_Read] is bufio's Read: one read of the connection at most, straight into the
    caller's slice if that is not shorter than the empty buffer.  An error that comes with
    bytes is kept for the next call.  [buffered] are the states a reader gets to over a
    connection that does not report an error together with bytes; it is again a reader and a
    connection that keeps the promises of LinkOk, so all that is proved over a
    connection holds over the buffered one. *)
From S2P Require Import Prelude Errs GoHeap GoIO Bytespool Message Packet MessageFacts MessageSend MessageThms.
From S2P Require Import IdGen Options OptionSet OptionReg Channel Pipe Links.
From stdpp Require Import base tactics numbers list.
From Stdlib Require Import ZArith Lia.
Open Scope Z_scope.

Section bufio.
Context {R : Type}.

(** [buffered_bytes] are those between the indices r and w of the buffer. *)
Record breader := mkBuf { rd : R; bytes : list Z; berr : option err; bsize : Z }.

Definition minReadBufferSize : Z := 16.
Definition NewReaderSize (r : R) (n : Z) : breader := mkBuf r [] None (Z.max n minReadBufferSize).

Context `{!Reader R}.

(** [readErr] *)
Definition readErr (b : breader) : option err * breader := (berr b, mkBuf (rd b) (bytes b) None (bsize b)).

(** [copy(p, b.buf[b.r:b.w])] *)
Definition copy_out (n : Z) (b : breader) : list Z * option err * breader :=
  (ztake n (bytes b), None, mkBuf (rd b) (zdrop n (bytes b)) (berr b) (bsize b)).

Definition bufio_Read (n : Z) (b : breader) : list Z * option err * breader :=
  if n =? 0 then
    if 0 <? zlen (bytes b) then ([], None, b) else let '(e, b) := readErr b in ([], e, b)
  else
    match bytes b with
    | _ :: _ => copy_out n b
    | [] =>
        match berr b with
        | Some _ => let '(e, b) := readErr b in ([], e, b)
        | None =>
            if bsize b <=? n then
              let '(bs, e, r) := GoIO.Read n (rd b) in
              let '(e, b) := readErr (mkBuf r [] e (bsize b)) in (bs, e, b)
            else
              let '(bs, e, r) := GoIO.Read (bsize b) (rd b) in
              if zlen bs =? 0 then let '(e, b) := readErr (mkBuf r [] e (bsize b)) in ([], e, b)
              else copy_out n (mkBuf r bs e (bsize b))
        end
    end.

(** What comes out of the reader. *)
Definition bpending (b : breader) : list Z := bytes b ++ pending (rd b).
Definition bcredit (b : breader) : nat := (length (bpending b) + credit (rd b))%nat.
Definition steady (b : breader) : Prop := berr b = None ∧ minReadBufferSize ≤ bsize b.

Lemma NewReaderSize_ok r n : steady (NewReaderSize r n) ∧ bpending (NewReaderSize r n) = pending r.
Proof. by split; [split; [done|]; cbn; lia|]. Qed.

(** Whatever the reader below: if [acc] counts the bytes it hands out, the buffered reader hands out
    what it holds and then those. *)
Lemma bufio_Read_takes (acc : R → list Z) (P : R → Prop) :
  (∀ n r bs e r', P r → GoIO.Read n r = (bs, e, r') → acc r' = acc r ++ bs ∧ P r') →
  ∀ n b bs e b' pre, P (rd b) → bufio_Read n b = (bs, e, b') → acc (rd b) = pre ++ bytes b →
    P (rd b') ∧ acc (rd b') = (pre ++ bs) ++ bytes b'.
Proof.
  intros Hacc n [r l e0 m] bs e b' pre HP. unfold bufio_Read, copy_out. cbn. intros H Hpre.
  destruct (n =? 0).
  - destruct (0 <? zlen l); simplify_eq/=; by rewrite app_nil_r.
  - destruct l as [|x l]; cbn in H.
    + rewrite app_nil_r in Hpre. subst pre. destruct e0 as [e0|]; cbn in H; [simplify_eq/=; by rewrite !app_nil_r|].
      destruct (m <=? n).
      * destruct (GoIO.Read n r) as [[bs1 e1] r1] eqn:E. apply Hacc in E as [E HP']; [|done]. simplify_eq/=. by rewrite app_nil_r.
      * destruct (GoIO.Read m r) as [[bs1 e1] r1] eqn:E. apply Hacc in E as [E HP']; [|done].
        destruct (Z.eqb_spec (zlen bs1) 0) as [Hz|Hz]; simplify_eq/=.
        -- apply zlen_0 in Hz as ->. by rewrite E, !app_nil_r.
        -- rewrite E, <- app_assoc, ztake_zdrop. done.
    + simplify_eq/=. rewrite Hpre, <- app_assoc, ztake_zdrop. done.
Qed.
End bufio.
Arguments breader R : clear implicits.

(** An error comes without bytes. *)
Class ReadsApart (R : Type) `{!Reader R} : Prop :=
  read_apart n r bs e r' : GoIO.Read n r = (bs, Some e, r') → bs = [].

(** Then none is kept. *)
Lemma bufio_Read_keeps {R} `{!Reader R, !ReadsApart R} n (b : breader R) : berr b = None →
  berr (bufio_Read n b).2 = None ∧ bsize (bufio_Read n b).2 = bsize b.
Proof.
  destruct b as [r bs e m]. cbn. intros ->. unfold bufio_Read. cbn [bytes berr bsize rd].
  destruct (n =? 0); [by destruct (0 <? _)|]. destruct bs as [|x bs]; [|done].
  destruct (m <=? n); [by destruct (GoIO.Read n r) as [[? ?] ?]|]. destruct (GoIO.Read m r) as [[bs e] r'] eqn:E.
  destruct (Z.eqb_spec (zlen bs) 0); [done|]. destruct e as [e|]; [by apply read_apart in E as ->|done].
Qed.

Lemma bufio_Read_steady {R} `{!Reader R, !ReadsApart R} n (b : breader R) : steady b → steady (bufio_Read n b).2.
Proof. intros [He Hm]. destruct (bufio_Read_keeps n b He) as [? ?]. split; congruence. Qed.

Section laws.
Context {R : Type} `{!Reader R, !ReaderOk R, !ReadsApart R}.
Implicit Types (b : breader R).

(** The outcome of a read of [n] bytes. *)
Definition read_from (n : Z) b (res : list Z * option err * breader R) : Prop :=
  let '(bs, e, b') := res in
  steady b' ∧ zlen bs ≤ n ∧ bpending b = bs ++ bpending b' ∧
  (e = None → (bcredit b' < bcredit b)%nat) ∧ (e ≠ None → bpending b' = []) ∧ (bcredit b' ≤ bcredit b)%nat.

Lemma copy_out_ok n r bs m : 0 < n → minReadBufferSize ≤ m → bs ≠ [] →
  read_from n (mkBuf r bs None m) (copy_out n (mkBuf r bs None m)).
Proof.
  intros Hn Hm Hbs. unfold read_from, copy_out, bpending, bcredit, bpending. cbn.
  rewrite app_assoc, ztake_zdrop. split; [done|]. split; [unfold zlen, ztake; rewrite length_take; lia|].
  split; [done|]. assert (length (zdrop n bs) < length bs)%nat.
  { unfold zdrop. rewrite length_drop. destruct bs; [done|]. cbn. lia. }
  rewrite !length_app. split_and!; [lia|done|lia].
Qed.

Lemma bufio_Read_ok n b : 0 < n → steady b → read_from n b (bufio_Read n b).
Proof.
  intros Hn [He Hm]. destruct b as [r bs e m]. cbn in He, Hm. subst e. unfold bufio_Read. cbn [bytes berr bsize rd].
  rewrite (proj2 (Z.eqb_neq n 0)) by lia. destruct bs as [|x bs]; [|by apply copy_out_ok].
  destruct (Z.leb_spec m n).
  - destruct (GoIO.Read n r) as [[bs e] r'] eqn:E. destruct (read_ok n r bs e r' Hn E) as (H1 & H2 & H3 & H4 & H5).
    unfold read_from, readErr, bpending, bcredit, bpending. cbn. apply (f_equal length) in H2 as Hl. rewrite length_app in Hl.
    split; [done|]. split; [done|]. split; [done|]. split; [intros ->; specialize (H3 eq_refl); lia|]. split; [done|lia].
  - assert (0 < m) by (unfold minReadBufferSize in Hm; lia).
    destruct (GoIO.Read m r) as [[bs e] r'] eqn:E. destruct (read_ok m r bs e r') as (H1 & H2 & H3 & H4 & H5); [done..|].
    apply (f_equal length) in H2 as Hl. rewrite length_app in Hl.
    destruct (Z.eqb_spec (zlen bs) 0) as [Hz|Hz].
    + apply zlen_0 in Hz as ->. unfold read_from, readErr, bpending, bcredit, bpending. cbn.
      split; [done|]. split; [zlia|]. split; [done|]. split; [intros ->; specialize (H3 eq_refl); cbn in Hl; lia|].
      split; [done|]. cbn in Hl. lia.
    + assert (e = None) as -> by (destruct e as [e|]; [by apply read_apart in E as ->|done]).
      assert (Hbs : bs ≠ []) by by intros ->. pose proof (copy_out_ok n r' bs m Hn Hm Hbs) as Hc.
      unfold read_from in *. destruct (copy_out _ _) as [[bs' e'] b']. destruct Hc as (C1 & C2 & C3 & C4 & C5 & C6).
      assert (Hb : bpending (mkBuf r [] None m) = bpending (mkBuf r' bs None m)) by (unfold bpending; cbn; by rewrite H2).
      assert (Hb' : (bcredit (mkBuf r' bs None m) ≤ bcredit (mkBuf r [] None m))%nat) by (unfold bcredit; rewrite Hb; cbn; lia).
      rewrite Hb. split_and!; [done..| |done|lia]. intros He'. specialize (C4 He'). lia.
Qed.

End laws.

(** ** The buffered connection *)

Record buffered (R : Type) := Buffered { br : breader R; br_steady : steady br }.
Arguments Buffered {R} br br_steady.
Arguments br {R} b : rename.
Arguments br_steady {R} b : rename.

(** [bufio.NewReaderSize(tc, readBuffer)] *)
Definition new_buffered {R} `{!Reader R} (r : R) (n : Z) : buffered R :=
  Buffered (NewReaderSize r n) (proj1 (NewReaderSize_ok r n)).

(** The connection changes under the reader: a write, or the close of the pipe. *)
Definition with_rd {R} (r : R) (x : buffered R) : buffered R :=
  Buffered (mkBuf r (bytes (br x)) (berr (br x)) (bsize (br x))) (br_steady x).

Section conn.
Context {R : Type} `{!Conn R, !ReaderOk R, !ReadsApart R}.

Definition buffered_Read (n : Z) (x : buffered R) : list Z * option err * buffered R :=
  let res := bufio_Read n (br x) in
  (res.1, Buffered res.2 (bufio_Read_steady n (br x) (br_steady x))).

#[global] Instance buffered_reader : Reader (buffered R) := {
  GoIO.Read := buffered_Read;
  GoIO.Close x := with_rd (GoIO.Close (rd (br x))) x;
  pending x := bpending (br x);
  credit x := bcredit (br x) }.

#[global] Instance buffered_reader_ok : ReaderOk (buffered R).
Proof.
  split.
  - intros n x bs e x' Hn [= H <-]. pose proof (bufio_Read_ok n (br x) Hn (br_steady x)) as Hr.
    unfold read_from in Hr. cbn. destruct (bufio_Read n (br x)) as [[bs' e'] b]. cbn in H. injection H as -> ->. by destruct Hr.
  - intros x. cbn. unfold bpending. cbn. rewrite !length_app. pose proof (close_pending (rd (br x))). lia.
  - intros x. cbn. unfold bcredit, bpending. cbn. rewrite !length_app.
    pose proof (close_pending (rd (br x))). pose proof (close_credit (rd (br x))). lia.
Qed.

(** What the connection embeds beside its reader is used as it is. *)
Definition pass {A} (f : R → A * R) (x : buffered R) : A * buffered R := let '(a, r) := f (rd (br x)) in (a, with_rd r x).

#[global] Instance buffered_conn : Conn (buffered R) := {
  conn_Write b := pass (conn_Write b);
  conn_Send b := pass (conn_Send b);
  conn_Recv := pass conn_Recv;
  conn_SendMsg m := pass (conn_SendMsg m);
  conn_RecvMsg := pass conn_RecvMsg }.
End conn.

#[global] Instance buffered_link {R} `{!Conn R, !LinkOk R, !ReadsApart R} : LinkOk (buffered R).
Proof.
  split; [apply buffered_reader_ok|]. intros b x x'. cbn. unfold pass.
  destruct (conn_Write b (rd (br x))) as [e r] eqn:E. intros [= -> <-].
  unfold bpending. cbn. by rewrite (link_write _ _ _ E), app_assoc.
Qed.

(** ** The two connections a pipe may have *)

(** [p.r = tc], or the buffered reader if the option ReadBuffer is positive. *)
Definition reader_of {R} `{!Reader R} (q : pipe) (tc : R) : R + buffered R :=
  match readBuffer q with None => inl tc | Some n => inr (new_buffered tc n) end.

Section either.
Context {A B : Type} `{!Conn A, !Conn B}.

Definition either {X} (f : A → X * A) (g : B → X * B) (s : A + B) : X * (A + B) :=
  match s with inl a => let '(x, a) := f a in (x, inl a) | inr b => let '(x, b) := g b in (x, inr b) end.

#[global] Instance either_reader : Reader (A + B) := {
  GoIO.Read n := either (GoIO.Read n) (GoIO.Read n);
  GoIO.Close s := match s with inl a => inl (GoIO.Close a) | inr b => inr (GoIO.Close b) end;
  pending s := match s with inl a => pending a | inr b => pending b end;
  credit s := match s with inl a => credit a | inr b => credit b end }.
#[global] Instance either_conn : Conn (A + B) := {
  conn_Write v := either (conn_Write v) (conn_Write v);
  conn_Send v := either (conn_Send v) (conn_Send v);
  conn_Recv := either conn_Recv conn_Recv;
  conn_SendMsg m := either (conn_SendMsg m) (conn_SendMsg m);
  conn_RecvMsg := either conn_RecvMsg conn_RecvMsg }.

#[global] Instance either_reader_ok `{!ReaderOk A, !ReaderOk B} : ReaderOk (A + B).
Proof.
  split; [|intros [a|b]; [apply (close_pending a)|apply (close_pending b)]|intros [a|b]; [apply (close_credit a)|apply (close_credit b)]].
  intros n [s|s] bs e s' Hn; cbn; destruct (GoIO.Read n s) as [[bs' e'] s1] eqn:E; intros [= <- <- <-];
    by apply read_ok in E.
Qed.
#[global] Instance either_link `{!LinkOk A, !LinkOk B} : LinkOk (A + B).
Proof.
  split; [apply either_reader_ok|]. intros v [s|s] s'; cbn; destruct (conn_Write v s) as [e s1] eqn:E;
    intros [= -> <-]; by apply link_write in E.
Qed.
End either.

(** ** The in-process pipes report an error without bytes *)

#[global] Instance bpipe_apart : @ReadsApart bpipe conn_Reader.
Proof.
  intros n p bs e p'. cbn. unfold Channel.Read. generalize (2 * length (items (hf p)) + 3)%nat at 1. intros fuel.
  enough (H : ∀ q bs e q', Channel.Read_loop fuel n q = Some (bs, Some e, q') → bs = []).
  { destruct (Channel.Read_loop fuel n p) as [[[bs0 e0] p0]|] eqn:E; cbn; intros ?; simplify_eq; [by eapply H|done]. }
  induction fuel as [|fuel IH]; intros q bs0 e0 q'; cbn; [done|].
  destruct (Channel.last (hf q)) as [s|].
  - destruct (_ <=? _)%nat; [apply IH|done].
  - destruct (take_item (hf q)) as [[[b [e1|]] h]|]; [by intros [= <- _ _]|apply IH|done].
Qed.

(** ** Claims *)

(** C12: the read buffer of a pipe changes nothing of what is received: with no buffer and with one
    of any size, over a connection on which whole packets are under way, as many receives as
    there are packets return exactly them, in order, and what is unread then, in the buffer
    and on the connection, is what follows them on the connection. *)
Theorem read_buffer_transparent {R} `{!Conn R, !ReaderOk R, !ReadsApart R} (q : pipe) (tc : R)
    (ks : list packet) maxL w rest eof :
  world_ok w → Forall (decodable maxL) ks → pending tc = concat (wire <$> ks) ++ rest →
  ∃ msgs w' p', recv_n (length ks) (id q) maxL (w, Pio (reader_of q tc) false eof) = Ret (inr <$> msgs, (w', p')) ∧
    Forall2 (shows w') msgs (hop (id q) <$> ks) ∧
    match conn p' with inl r => pending r | inr x => bytes (br x) ++ pending (rd (br x)) end = rest.
Proof.
  intros Hw Hks Hp. destruct (recv_n_run (R := pio (R + buffered R)) ks (id q) maxL w (Pio (reader_of q tc) false eof) rest)
    as (msgs & w' & p' & H1 & _ & _ & H2 & H3); [done..| |].
  - cbn. unfold reader_of. destruct (readBuffer q) as [n|]; [|done]. rewrite <- Hp. apply (NewReaderSize_ok tc n).
  - exists msgs, w', p'. split; [done|]. split; [|cbn in H3; by destruct (conn p')].
    eapply Forall2_impl; [exact H2|]. intros. by apply msg_at_read.
Qed.

(** Two packets in three chunks, and a buffer that holds less than one packet. *)
Definition demo_tc : bpipe := mkB (mkHalf [ztake 5 (wire hi_packet);
  zdrop 5 (wire hi_packet) ++ ztake 1 (wire one_packet); zdrop 1 (wire one_packet)] 4 false None []) 0.
Definition demo_buffered : pipe :=
  mkPipe true false 131072 3 (Some 1) sendMsgStream recvMsgStream FreeLevelAll None (Some MetaSize).

Lemma read_buffer_transparent_witness :
  ∃ msgs w' p', recv_n 2 3 16 (world_init [], Pio (reader_of demo_buffered demo_tc) false true) = Ret (inr <$> msgs, (w', p')) ∧
    Forall2 (shows w') msgs [hop 3 hi_packet; hop 3 one_packet].
Proof.
  destruct (read_buffer_transparent demo_buffered demo_tc [hi_packet; one_packet] 16 (world_init []) [] true)
    as (msgs & w' & p' & H1 & H2 & _).
  - apply world_init_ok.
  - constructor; [|constructor; [|constructor]]; split_and!.
    + apply hi_packet_ok.
    + apply hi_receivable.
    + right. vm_compute. done.
    + apply one_packet_ok.
    + refine (bool_decide_unpack _ _). vm_compute. exact I.
    + right. vm_compute. done.
  - vm_compute. reflexivity.
  - exists msgs, w', p'. exact (conj H1 H2).
Defined.
