(* ===== verification/IoPipe.v ===== *)
(** transport/inproc/iopipe and transport/inproc/netpipe: pipes over package io and package net.

    One direction is a rendezvous ([rpipe]): a write offers its bytes and returns when readers have
    taken them all or the direction is closed.  [io.Pipe] is one direction, [net.Pipe] is two whose
    ends close both.  Of concurrent writes one holds the lock, the others wait.  An operation that
    waits is [None]; [entered] says that the call passed its first look at the closed channel before
    it was closed, so that its [select] may still find the other side.  [returned] is what the
    writes returned so far.

    [iopipe_newPipe] puts a buffered reader in front of each direction; netpipe reads directly.
    [iostep] interleaves the operations on both directions. *)
From S2P Require Import Prelude Errs GoIO Options OptionSet OptionReg Pipe Links BufReader.
From stdpp Require Import base tactics numbers list strings relations.
From Stdlib Require Import ZArith Lia.
Open Scope Z_scope.

(** ** One direction *)

Record rpipe := mkRP {
  offer : option (list Z * Z);      (* the bytes of the write that holds the lock, how many are taken *)
  rclosed : bool; wclosed : bool;
  returned : list (list Z * Z * option err) }.

Definition io_Pipe : rpipe := mkRP None false false [].
Definition done (p : rpipe) : bool := rclosed p || wclosed p.

Definition readCloseError (p : rpipe) : err := if negb (rclosed p) && wclosed p then EOF else ErrClosedPipe.

Definition with_offer (o : option (list Z * Z)) (p : rpipe) : rpipe := mkRP o (rclosed p) (wclosed p) (returned p).
Definition returns (v : list Z) (n : Z) (e : option err) (p : rpipe) : rpipe :=
  mkRP None (rclosed p) (wclosed p) (returned p ++ [(v, n, e)]).

(** A write begins: it returns at once, waits for the lock, or offers its bytes. *)
Definition Write_begin (entered : bool) (v : list Z) (p : rpipe) : option rpipe :=
  if done p && negb entered
  then Some (mkRP (offer p) (rclosed p) (wclosed p) (returned p ++ [(v, 0, Some ErrClosedPipe)]))
  else match offer p with Some _ => None | None => Some (with_offer (Some (v, 0)) p) end.

(** The write that offers its bytes sees the closed channel. *)
Definition Write_abort (p : rpipe) : option rpipe :=
  match offer p with
  | Some (v, n) => if done p then Some (returns v n (Some ErrClosedPipe) p) else None
  | None => None
  end.

(** [Read]: a transfer; the write returns if nothing of it is left. *)
Definition Read (entered : bool) (n : Z) (p : rpipe) : option (list Z * option err * rpipe) :=
  if done p && negb entered then Some ([], Some (readCloseError p), p)
  else match offer p with
       | Some (v, k) =>
           let bs := ztake n (zdrop k v) in
           let k := k + zlen bs in
           Some (bs, None, if k =? zlen v then returns v k None p else with_offer (Some (v, k)) p)
       | None => if done p then Some ([], Some (readCloseError p), p) else None
       end.

Definition CloseRead (p : rpipe) : rpipe := mkRP (offer p) true (wclosed p) (returned p).
Definition CloseWrite (p : rpipe) : rpipe := mkRP (offer p) (rclosed p) true (returned p).

(** What the buffered reader reads; [would_wait] stands for a read that waits. *)
Definition rpipe_reader (entered : bool) : Reader rpipe := {|
  GoIO.Read n p := default ([], Some would_wait, p) (Read entered n p);
  GoIO.Close := CloseRead;
  pending p := match offer p with Some (v, k) => zdrop k v | None => [] end;
  credit p := 0%nat |}.

(** ** The bytes taken from the writes *)

Definition accepted (p : rpipe) : list Z :=
  concat ((λ '(v, n, _), ztake n v) <$> returned p) ++ match offer p with Some (v, k) => ztake k v | None => [] end.

(** A write returned [n] without an error if all was taken, and only a closed pipe makes it fail. *)
Definition write_result (p : rpipe) (x : list Z * Z * option err) : Prop :=
  let '(v, n, e) := x in
  match e with None => n = zlen v | Some e => e = ErrClosedPipe ∧ 0 ≤ n ≤ zlen v ∧ done p = true end.

Record rp_ok (p : rpipe) : Prop := RPOk {
  rp_offer : match offer p with Some (v, k) => 0 ≤ k ≤ zlen v ∧ (k < zlen v ∨ v = []) | None => True end;
  rp_returned : Forall (write_result p) (returned p) }.

Lemma accepted_begin entered v p p' : Write_begin entered v p = Some p' → rp_ok p →
  accepted p' = accepted p ∧ rp_ok p' ∧ done p' = done p.
Proof.
  unfold Write_begin. destruct (done p && negb entered) eqn:E.
  - intros [= <-] [Ho Hr]. apply andb_true_iff in E as [E _]. split_and!; [|split; cbn; [done|]|done].
    + unfold accepted. cbn. by rewrite fmap_app, concat_app, app_nil_r.
    + apply Forall_app. split; [exact Hr|]. constructor; [|done]. cbn. split_and!; [done|lia|zlia|exact E].
  - destruct (offer p) as [[? ?]|] eqn:Eo; [done|]. intros [= <-] [_ Hr]. split_and!; [|split; cbn; [split; [zlia|destruct v; [by right|left; zlia]]|exact Hr]|done].
    unfold accepted. cbn. by rewrite Eo.
Qed.

Lemma accepted_abort p p' : Write_abort p = Some p' → rp_ok p → accepted p' = accepted p ∧ rp_ok p' ∧ done p' = done p.
Proof.
  unfold Write_abort. destruct (offer p) as [[v k]|] eqn:Eo; [|done]. destruct (done p) eqn:Ed; [|done].
  intros [= <-] [Ho Hr]. rewrite Eo in Ho. split_and!; [|split; cbn; [done|]|done].
  - unfold accepted. cbn. rewrite Eo, fmap_app, concat_app. cbn. by rewrite !app_nil_r.
  - apply Forall_app. split; [exact Hr|]. constructor; [|done]. cbn. split_and!; done || lia.
Qed.

Lemma accepted_read entered n p bs e p' : Read entered n p = Some (bs, e, p') → rp_ok p →
  accepted p' = accepted p ++ bs ∧ rp_ok p' ∧ done p' = done p.
Proof.
  unfold Read. destruct (done p && negb entered); [intros [= <- <- <-] ?; by rewrite app_nil_r|].
  destruct (offer p) as [[v k]|] eqn:Eo.
  - intros [= <- <- <-] [Ho Hr]. rewrite Eo in Ho. set (bs := ztake n (zdrop k v)).
    assert (Hbs : zdrop k v = bs ++ zdrop n (zdrop k v)) by (unfold bs; by rewrite ztake_zdrop).
    assert (Hv : v = (ztake k v ++ bs) ++ zdrop n (zdrop k v)) by (rewrite <- app_assoc, <- Hbs; by rewrite ztake_zdrop).
    clearbody bs. assert (Hk : zlen (ztake k v ++ bs) = k + zlen bs) by (rewrite zlen_app, zlen_take by lia; done).
    assert (Ht : ztake (k + zlen bs) v = ztake k v ++ bs).
    { rewrite <- Hk. etrans; [|apply (ztake_app (ztake k v ++ bs) (zdrop n (zdrop k v)))]. by rewrite <- Hv. }
    assert (Hle : k + zlen bs ≤ zlen v) by (apply (f_equal zlen) in Hv; rewrite zlen_app, Hk in Hv; zlen_pose; lia).
    unfold accepted. rewrite Eo, <- app_assoc, <- Ht. destruct (Z.eqb_spec (k + zlen bs) (zlen v)) as [E|E]; cbn.
    + split_and!; [|split; cbn; [done|]|done].
      * rewrite fmap_app, concat_app. cbn. by rewrite !app_nil_r.
      * apply Forall_app. split; [exact Hr|]. by constructor.
    + split_and!; [done|split; cbn; [split; zlia|exact Hr]|done].
  - destruct (done p) eqn:Ed; [|done]. intros [= <- <- <-] ?. by rewrite app_nil_r.
Qed.

Lemma accepted_close p : rp_ok p → rp_ok (CloseRead p) ∧ rp_ok (CloseWrite p).
Proof.
  intros [Ho Hr]. split; (split; cbn; [done|]); (eapply Forall_impl; [exact Hr|]);
    (intros [[v n] [e|]]; [|done]); unfold write_result, done; cbn; rewrite ?orb_true_r; tauto.
Qed.

(** ** The two pipes *)

(** A direction with the reader of its end; [got] is a ghost: what the end's reads returned. *)
Record dir := Dir { rb : breader rpipe; got : list Z }.

(** A pipe with its two directions, named by the end that reads: [true] is the left one. *)
Definition duplex : Type := bool → dir.
Definition upd (s : bool) (d : dir) (w : duplex) : duplex := λ t, if Bool.eqb t s then d else w t.

(** [LocalAddr] and [RemoteAddr] of an end *)
Record pipe_end := PipeEnd { side : bool; laddr : string; raddr : string }.
Definition new_ends (laddr raddr : string) : pipe_end * pipe_end := (PipeEnd true laddr raddr, PipeEnd false raddr laddr).

Definition iopipe_newPipe (laddr raddr : string) (st : store) (opts : nat) : run (pipe_end * pipe_end * duplex) :=
  run_bind (match GetOptionDefault st opts Transport.inproc_ReadBuffer with
            | Some v => Some (intOption_Value v) | None => None end) (λ readBufSize,
  run_ret (new_ends laddr raddr, λ _, Dir (NewReaderSize io_Pipe readBufSize) [])).

(** [net.Pipe]: no buffer *)
Definition netpipe_newPipe (laddr raddr : string) : pipe_end * pipe_end * duplex :=
  (new_ends laddr raddr, λ _, Dir (mkBuf io_Pipe [] None 0) []).

Definition on_rd (f : rpipe → rpipe) (d : dir) : dir :=
  Dir (mkBuf (f (rd (rb d))) (bytes (rb d)) (berr (rb d)) (bsize (rb d))) (got d).

(** [Close] of an end: its reader and its writer *)
Definition pipe_Close (s : bool) (w : duplex) : duplex :=
  λ t, if Bool.eqb t s then on_rd CloseRead (w t) else on_rd CloseWrite (w t).

(** [Read] of an end: iopipe embeds the buffered reader, netpipe the end of net.Pipe. *)
Definition end_Read (io entered : bool) (n : Z) (b : breader rpipe) : list Z * option err * breader rpipe :=
  if io then @bufio_Read _ (rpipe_reader entered) n b
  else let '(bs, e, p) := @GoIO.Read _ (rpipe_reader entered) n (rd b) in (bs, e, mkBuf p (bytes b) (berr b) (bsize b)).

(** The deadlines of iopipe *)
Definition SetDeadline : err := ErrOperationNotSupported.

Inductive iostep (io : bool) (w : duplex) : duplex → Prop :=
  | p_begin s entered v p : Write_begin entered v (rd (rb (w s))) = Some p → iostep io w (upd s (on_rd (λ _, p) (w s)) w)
  | p_abort s p : Write_abort (rd (rb (w s))) = Some p → iostep io w (upd s (on_rd (λ _, p) (w s)) w)
  | p_read s entered n bs e b : end_Read io entered n (rb (w s)) = (bs, e, b) → e ≠ Some would_wait →
      iostep io w (upd s (Dir b (got (w s) ++ bs)) w)
  | p_close s : iostep io w (pipe_Close s w).

(** ** The invariant of a direction *)

Record dir_ok (io : bool) (d : dir) : Prop := DirOk {
  do_rp : rp_ok (rd (rb d));
  do_taken : accepted (rd (rb d)) = got d ++ bytes (rb d);
  do_err : berr (rb d) = None;
  do_size : io = true → minReadBufferSize ≤ bsize (rb d);
  do_plain : io = false → bytes (rb d) = [] }.

Lemma rpipe_apart entered : @ReadsApart _ (rpipe_reader entered).
Proof.
  intros n p bs e p'. cbn. unfold Read. destruct (done p && negb entered); [cbn; by intros [= <- _ _]|].
  destruct (offer p) as [[v k]|]; [done|]. destruct (done p); cbn; by intros [= <- _ _].
Qed.

(** Reading, of either kind. *)
Lemma rpipe_reads entered n p bs e p' : @GoIO.Read _ (rpipe_reader entered) n p = (bs, e, p') → rp_ok p →
  accepted p' = accepted p ++ bs ∧ rp_ok p' ∧ rclosed p' = rclosed p ∧ wclosed p' = wclosed p.
Proof.
  cbn. destruct (Read entered n p) as [[[bs1 e1] p1]|] eqn:E; cbn; intros [= <- <- <-] Hp.
  - destruct (accepted_read _ _ _ _ _ _ E Hp) as (H1 & H2 & _). split_and!; [done..| |];
      unfold Read in E; repeat case_match; by simplify_eq/=.
  - by rewrite app_nil_r.
Qed.

Lemma end_Read_ok io entered n d bs e b : end_Read io entered n (rb d) = (bs, e, b) → dir_ok io d →
  dir_ok io (Dir b (got d ++ bs)) ∧ rclosed (rd b) = rclosed (rd (rb d)) ∧ wclosed (rd b) = wclosed (rd (rb d)).
Proof.
  intros H [Hrp Ht He Hm Hb]. unfold end_Read in H. destruct io.
  - destruct (@bufio_Read_takes _ (rpipe_reader entered) accepted
      (λ p, rp_ok p ∧ rclosed p = rclosed (rd (rb d)) ∧ wclosed p = wclosed (rd (rb d))))
      with (n := n) (b := rb d) (bs := bs) (e := e) (b' := b) (pre := got d) as ((H1 & H2 & H3) & H4); [|done..|].
    { intros n' p bs' e' p' (Hp & E1 & E2) HR. apply rpipe_reads in HR as (? & ? & -> & ->); [|done]. done. }
    destruct (@bufio_Read_keeps _ (rpipe_reader entered) (rpipe_apart entered) n (rb d) He) as [E1 E2].
    rewrite H in E1, E2. cbn in E1, E2. split; [|done]. split; cbn; [done..| |done]. intros _. rewrite E2. by apply Hm.
  - destruct (GoIO.Read n (rd (rb d))) as [[bs1 e1] p] eqn:E. injection H as -> -> <-.
    apply rpipe_reads in E as (E1 & E2 & E3 & E4); [|done]. specialize (Hb eq_refl).
    split; [|done]. split; cbn; [done| |done..]. by rewrite E1, Ht, Hb, !app_nil_r.
Qed.

Lemma dir_ok_rd io d p : dir_ok io d → rp_ok p → accepted p = accepted (rd (rb d)) → dir_ok io (on_rd (λ _, p) d).
Proof. intros [? ? ? ? ?] Hp Ha. split; cbn; [done|congruence|done..]. Qed.

(** The ends are closed with both of their sides. *)
Definition ioinv (io : bool) (w : duplex) : Prop :=
  ∀ s, dir_ok io (w s) ∧ wclosed (rd (rb (w s))) = rclosed (rd (rb (w (negb s)))).

Lemma upd_same s d w : upd s d w s = d.
Proof. unfold upd. by rewrite eqb_reflx. Qed.
Lemma upd_other s t d w : t ≠ s → upd s d w t = w t.
Proof. unfold upd. intros. by destruct (Bool.eqb_spec t s). Qed.

Lemma ioinv_upd io w s d : ioinv io w → dir_ok io d →
  rclosed (rd (rb d)) = rclosed (rd (rb (w s))) → wclosed (rd (rb d)) = wclosed (rd (rb (w s))) → ioinv io (upd s d w).
Proof.
  intros Hw Hd Er Ew t. destruct (Hw t) as [H1 H2].
  destruct (Bool.bool_dec t s) as [->|Hne].
  - rewrite upd_same, upd_other by (by destruct s). by rewrite Ew.
  - rewrite upd_other by done. split; [done|]. destruct (Bool.bool_dec (negb t) s) as [<-|Hne'].
    + by rewrite upd_same, Er.
    + by rewrite upd_other.
Qed.

Lemma ioinv_step io w w' : ioinv io w → iostep io w w' → ioinv io w'.
Proof.
  intros Hw H. destruct H as [s entered v p H|s p H|s entered n bs e b H _|s].
  - destruct (Hw s) as [Hd _]. destruct (accepted_begin _ _ _ _ H (do_rp _ _ Hd)) as (H1 & H2 & _).
    apply ioinv_upd; [done|by apply dir_ok_rd| |]; unfold Write_begin in H; repeat case_match; by simplify_eq/=.
  - destruct (Hw s) as [Hd _]. destruct (accepted_abort _ _ H (do_rp _ _ Hd)) as (H1 & H2 & _).
    apply ioinv_upd; [done|by apply dir_ok_rd| |]; unfold Write_abort in H; repeat case_match; by simplify_eq/=.
  - destruct (Hw s) as [Hd _]. destruct (end_Read_ok _ _ _ _ _ _ _ H Hd) as (H1 & H2 & H3). by apply ioinv_upd.
  - intros t. destruct (Hw t) as [[H1 H2 H3 H4 H5] Hc]. unfold pipe_Close.
    destruct (accepted_close _ H1) as [C1 C2].
    destruct t, s; cbn in *; (split; [split; cbn; done|done]).
Qed.

(** A new pipe of either kind *)
Definition made (io : bool) (w : duplex) : Prop :=
  if io then ∃ la ra st opts ends, iopipe_newPipe la ra st opts = Some (Ret (ends, w))
  else ∃ la ra, w = (netpipe_newPipe la ra).2.

Lemma made_inv io w : made io w → ioinv io w.
Proof.
  destruct io; cbn.
  - intros (la & ra & st & opts & ends & H). unfold iopipe_newPipe, run_bind, run_ret in H.
    destruct (GetOptionDefault _ _ _) as [v|]; [|done]. destruct (intOption_Value v) as [n|]; [|done]. injection H as _ <-.
    intros s. split; [|done]. split; cbn; [split; [done|constructor]|done|done|lia|done].
  - intros (la & ra & ->) s. split; [|done]. split; cbn; [split; [done|constructor]|done..].
Qed.

Lemma ioreached_inv io w0 w : made io w0 → rtc (iostep io) w0 w → ioinv io w.
Proof.
  intros H0 H. apply (rtc_ind_r (ioinv io) w0) in H; [done|by apply made_inv|].
  intros x y _ Hs Hx. by eapply ioinv_step.
Qed.

(** What a read of [n] bytes may answer at a direction. *)
Definition read_answer (d : dir) (bs : list Z) (e : option err) : Prop :=
  let p := rd (rb d) in
  match e with
  | None => bs ≠ [] ∨ ∃ k, offer p = Some ([], k)
  | Some e => bs = [] ∧ bytes (rb d) = [] ∧
      ((e = EOF ∧ wclosed p = true ∧ rclosed p = false) ∨ (e = ErrClosedPipe ∧ rclosed p = true) ∨
       (e = would_wait ∧ offer p = None ∧ done p = false))
  end.

Lemma take_some n (l : list Z) : 0 < n → l ≠ [] → ztake n l ≠ [].
Proof. intros Hn Hl. destruct l as [|x l]; [done|]. unfold ztake. by destruct (Z.to_nat n) eqn:En; [lia|]. Qed.

Lemma offer_taken n k (v : list Z) : 0 < n → 0 ≤ k ≤ zlen v → k < zlen v → ztake n (zdrop k v) ≠ [].
Proof.
  intros Hn Hk Hlt. apply take_some; [done|]. intros E. apply (f_equal zlen) in E.
  rewrite zlen_drop in E by done. change (zlen []) with 0 in E. lia.
Qed.

Lemma rpipe_answer entered n p bs e p' : 0 < n → rp_ok p →
  @GoIO.Read _ (rpipe_reader entered) n p = (bs, e, p') → read_answer (Dir (mkBuf p [] None 0) []) bs e.
Proof.
  intros Hn [Ho _]. cbn. unfold Read.
  assert (Hdone : done p = true → read_answer (Dir (mkBuf p [] None 0) []) [] (Some (readCloseError p))).
  { unfold done, readCloseError, read_answer. cbn. intros Hd. split; [done|]. split; [done|].
    destruct (rclosed p); [right; left; done|]. cbn in Hd. rewrite Hd. left. done. }
  destruct (done p) eqn:Ed; cbn [andb negb].
  - destruct entered; cbn [negb]; [|by intros [= <- <- <-]; apply Hdone].
    destruct (offer p) as [[v k]|] eqn:Eo; cbn; [|by intros [= <- <- <-]; apply Hdone].
    intros [= <- <- <-]. cbn. destruct Ho as [Hk [Hlt| ->]]; [left|by right; eexists].
    by apply offer_taken.
  - destruct (offer p) as [[v k]|] eqn:Eo; cbn.
    + intros [= <- <- <-]. cbn. destruct Ho as [Hk [Hlt| ->]]; [left|by right; eexists].
      by apply offer_taken.
    + intros [= <- <- <-]. cbn. split; [done|]. split; [done|]. by right; right.
Qed.

Lemma end_answer io entered n d bs e b : 0 < n → dir_ok io d → end_Read io entered n (rb d) = (bs, e, b) → read_answer d bs e.
Proof.
  intros Hn [Hrp _ He Hm Hb] H. destruct d as [[p l e0 m] g]. cbn in *. subst e0. destruct io; cbn in H.
  - unfold bufio_Read in H. cbn [bytes berr bsize rd] in H. rewrite (proj2 (Z.eqb_neq n 0)) in H by lia.
    destruct l as [|x l].
    + specialize (Hm eq_refl). unfold minReadBufferSize in Hm. destruct (m <=? n).
      * destruct (GoIO.Read n p) as [[bs1 e1] p1] eqn:E. apply rpipe_answer in E; [|done..].
        cbn in H. injection H as -> -> _. exact E.
      * destruct (GoIO.Read m p) as [[bs1 e1] p1] eqn:E. pose proof E as Ha. apply rpipe_answer in Ha; [|lia|done].
        destruct (Z.eqb_spec (zlen bs1) 0) as [Hz|Hz].
        -- apply zlen_0 in Hz as ->. cbn in H. injection H as <- <- _. exact Ha.
        -- assert (e1 = None) as -> by (destruct e1 as [e1|]; [by apply rpipe_apart in E as ->|done]).
           unfold copy_out in H. cbn in H. injection H as <- <- _. left. apply take_some; [done|]. by intros ->.
    + unfold copy_out in H. injection H as <- <- _. left. by apply take_some.
  - destruct (default _ (Read entered n p)) as [[bs1 e1] p1] eqn:E. injection H as -> -> _. apply rpipe_answer in E; [|done..].
    rewrite (Hb eq_refl). exact E.
Qed.

(** ** Claims *)


(** The left end writes three bytes, the right one reads two of them, the left one closes. *)
Definition demo_duplex : duplex := λ _, Dir (NewReaderSize io_Pipe 8192) [].
Definition demo_written : duplex :=
  upd false (on_rd (λ _, mkRP (Some ([1; 2; 3], 0)) false false []) (demo_duplex false)) demo_duplex.
Definition demo_read : duplex :=
  upd false (Dir (mkBuf (mkRP None false false [([1; 2; 3], 3, None)]) [3] None 8192) [1; 2]) demo_written.

