(* ===== verification/Carrier.v ===== *)
(** What two pipes of connector/pipe.go make of a connection: packets that arrive in order.

    [Carrier] and [CarrierOk] are the interface a session is proved against; the stream pipe, the
    packet pipe and the message pipe implement it over any connection of their kind. *)
From S2P Require Import Prelude Errs GoHeap GoIO Bytespool Message Packet MessageFacts MessageSend MessageThms.
From S2P Require Import IdGen Options OptionSet OptionReg Pipe PipeThms Links.
From stdpp Require Import base tactics numbers list gmap relations.
From Stdlib Require Import ZArith Lia.
Open Scope Z_scope.

(** [t] is still owned and shows the same bytes. *)
Definition stays (w w' : world) (t : slice) : Prop := wowned w' t ∧ wread w' t = wread w t.

(** What two pipes over a connection make of it: the packets [under_way], the buffers the
    connection refers to, and the packets the receiving pipe takes. *)
Class Carrier (R : Type) := {
  under_way : world → R → list packet → Prop;
  bufs : R → list slice;
  accepts : packet → Prop }.

Class CarrierOk (R : Type) `{!Conn R, !Carrier R} (q : pipe) (eof : bool) : Prop := {
  ca_frame w w' r ks : under_way w r ks → (∀ t, t ∈ bufs r → stays w w' t) → under_way w' r ks;
  ca_send w w' r r' msg k ks :
    world_ok w → under_way w r ks → msg_at w msg k → accepts k → HasFlags (pmeta k) MsgFlagRaw = false →
    (∀ t, t ∈ bufs r → sarr t ≠ sarr (buf msg)) →
    SendMsg q msg (w, Pio r false eof) = Ret (None, (w', Pio r' false eof)) →
    under_way w' r' (ks ++ [k]) ∧ world_ok w' ∧ msg_at w' msg k ∧
    (∀ t, wowned w t → sarr t ≠ sarr (buf msg) → stays w w' t);
  ca_next w r k ks :
    world_ok w → accepts k → under_way w r (k :: ks) →
    ∃ msg w' p', RecvMsg q (w, Pio r false eof) = Ret ((Some msg, None), (w', p')) ∧
      built w w' msg (hop (id q) k) ∧ under_way w' (conn p') ks;
  ca_none w r m e s' : under_way w r [] → RecvMsg q (w, Pio r false eof) = Ret ((m, e), s') → m = None }.

(** ** Sending *)

(** A message shows one packet only. *)
Lemma msg_at_unique w m k k' : msg_at w m k → msg_at w m k' → k = k'.
Proof.
  intros (E1 & E2 & E3 & E4)%msg_at_read (F1 & F2 & F3 & F4)%msg_at_read.
  destruct k, k'. cbn in *. congruence.
Qed.

Section send.
Context {R : Type} `{!Conn R}.
Implicit Types (r : R).

Lemma Encode_stays w w1 msg k : world_ok w → msg_at w msg k → Encode msg w = Ret (buf msg, w1) →
  wread w1 (buf msg) = wire k ∧ world_ok w1 ∧ msg_at w1 msg k ∧
  (∀ t, wowned w t → sarr t ≠ sarr (buf msg) → stays w w1 t).
Proof.
  intros Hw Hat HE. destruct (Encode_run w msg k Hw Hat) as (w2 & HE' & Hwire & Hw1 & Hat1 & _ & Ho & Hr).
  rewrite HE in HE'. injection HE' as <-. split_and!; [done..|]. intros t Ht Hne. split; [by apply Ho|by apply Hr].
Qed.

(** An outcome of [on_write] without an error. *)
Lemma on_write_ok res (p : pio R) p' : on_write res p = (None, p') → ∃ r', res = (None, r') ∧ p' = with_conn r' p.
Proof.
  destruct res as [[e|] r]; cbn; [|intros [= <-]; by exists r]. by destruct (close_on e _).
Qed.

(** The sending functions that encode: what they hand to the connection. *)
Lemma sendMsg_run w msg k r w' r' eof :
  world_ok w → msg_at w msg k → HasFlags (pmeta k) MsgFlagRaw = false →
  sendMsg msg (w, Pio r false eof) = Ret (None, (w', Pio r' false eof)) →
  Encode msg w = Ret (buf msg, w') ∧ conn_Write (wire k) r = (None, r').
Proof.
  intros Hw Hat Hraw. destruct (msg_at_read w msg k Hat) as (Hmeta & _).
  destruct (Encode_run w msg k Hw Hat) as (w1 & HE & Hwire & _).
  unfold sendMsg. rewrite Hmeta, Hraw.
  erewrite M_bind_ret_run by (apply lift_world_run, HE). erewrite M_bind_ret_run by reflexivity.
  rewrite Hwire. unfold on_pio, pipe_Write. destruct (on_write _ _) as [[e|] p] eqn:E; [done|].
  intros [= <- ->]. apply on_write_ok in E as (r1 & E & [= <-]). done.
Qed.

Lemma sendBlockMsg_run w msg k r w' r' eof :
  world_ok w → msg_at w msg k → HasFlags (pmeta k) MsgFlagRaw = false →
  sendBlockMsg msg (w, Pio r false eof) = Ret (None, (w', Pio r' false eof)) →
  Encode msg w = Ret (buf msg, w') ∧ conn_Send (buf msg) r = (None, r').
Proof.
  intros Hw Hat Hraw. destruct (msg_at_read w msg k Hat) as (Hmeta & _).
  destruct (Encode_run w msg k Hw Hat) as (w1 & HE & _).
  unfold sendBlockMsg. rewrite Hmeta, Hraw.
  erewrite M_bind_ret_run by (apply lift_world_run, HE).
  unfold on_pio, pipe_send. destruct (on_write _ _) as [[e|] p] eqn:E; [done|].
  intros [= <- ->]. apply on_write_ok in E as (r1 & E & [= <-]). done.
Qed.
End send.

(** ** Streams *)

Definition stream_carrier {R} `{!Conn R} (q : pipe) : Carrier R := {|
  under_way _ r ks := pending r = concat (wire <$> ks);
  bufs _ := [];
  accepts := decodable (maxRecvContentLength q) |}.

Section stream.
Context {R : Type} `{!Conn R, !LinkOk R} (q : pipe).

(** Nothing is received when nothing is under way. *)
Lemma recvMsg_nothing w (p : pio R) m e s' : metaBuf q = Some MetaSize → pending (conn p) = [] →
  recvMsg q (w, p) = Ret ((m, e), s') → m = None.
Proof.
  intros Hmb Hp. unfold recvMsg. rewrite Hmb. cbn [default].
  intros (x & s1 & H1 & H2)%M_bind_Ret. injection H2 as H2 _. unfold NewMessageFromReader in H1.
  apply M_bind_Ret in H1 as (msg & [w1 p1] & H0 & H1).
  assert (p1 = p) as -> by (unfold lift_world in H0; by case_match; repeat case_match; simplify_eq).
  assert (Hs : zlen (pending p) < MetaSize) by (cbn; rewrite Hp; done).
  destruct (ReadFull_short MetaSize p Hs) as (bs & e1 & p2 & HR & _).
  assert (Hrf : readFull MetaSize (w1, p) = Ret ((bs, Some e1), (w1, p2))) by (unfold readFull; by rewrite HR).
  rewrite (M_bind_ret_run _ _ _ _ _ Hrf) in H1. cbv beta iota in H1.
  apply M_bind_Ret in H1 as (u & s3 & _ & H1). injection H1 as <- _. cbn in H2. congruence.
Qed.

(** The next message under way is received. *)
Lemma recvMsg_next w (p : pio R) k rest : metaBuf q = Some MetaSize →
  world_ok w → decodable (maxRecvContentLength q) k → pending (conn p) = wire k ++ rest →
  ∃ msg w' p', recvMsg q (w, p) = Ret ((Some msg, None), (w', p')) ∧
    built w w' msg (hop (id q) k) ∧ pending (conn p') = rest.
Proof.
  intros Hmb Hw (Hk & Hr & Hf) Hp.
  destruct (FromReader_run (id q) k (maxRecvContentLength q) w p rest) as (msg & w' & p' & HR & Hb & Hp'); [done..|].
  exists msg, w', p'. split; [|done]. unfold recvMsg. rewrite Hmb. cbn [default]. by go_step HR.
Qed.

Lemma stream_carrier_ok eof :
  sendMsgFunc q = sendMsgStream → recvMsgFunc q = recvMsgStream → metaBuf q = Some MetaSize →
  @CarrierOk R _ (stream_carrier q) q eof.
Proof.
  intros Hs Hr Hmb. split; cbn [under_way bufs accepts stream_carrier].
  - done.
  - intros w w' r r' msg k ks Hw Hu Hat Hk Hraw _. unfold SendMsg. rewrite Hs. intros H.
    destruct (sendMsg_run _ _ _ _ _ _ _ Hw Hat Hraw H) as (HE & HW).
    destruct (Encode_stays _ _ _ _ Hw Hat HE) as (_ & ? & ? & ?). split_and!; [|done..].
    rewrite (link_write _ _ _ HW), Hu, fmap_app, concat_app. cbn. by rewrite app_nil_r.
  - intros w r k ks Hw Hk Hu. unfold RecvMsg. rewrite Hr. by apply recvMsg_next.
  - intros w r m e s' Hu. unfold RecvMsg. rewrite Hr. by apply recvMsg_nothing.
Qed.
End stream.

(** ** Packets *)

Definition packet_carrier {R} `{!Conn R, !PacketLink R} (q : pipe) : Carrier R := {|
  under_way w r ks := Forall2 (λ t k, wowned w t ∧ wread w t = wire k) (lent r) ks;
  bufs := lent;
  accepts := decodable (maxRecvContentLength q) |}.

Lemma stays_lent w w' (l : list slice) ks :
  (∀ t, t ∈ l → stays w w' t) → Forall2 (λ t k, wowned w t ∧ wread w t = wire k) l ks →
  Forall2 (λ t k, wowned w' t ∧ wread w' t = wire k) l ks.
Proof.
  intros Hl H. induction H as [|t k l ks [Ho Hr] _ IH]; constructor.
  - destruct (Hl t) as [? E]; [by left|]. split; [done|congruence].
  - apply IH. intros t' ?. apply Hl. by right.
Qed.

(** A frame keeps every owned buffer. *)
Lemma wframe_stays w w' t : wframe w w' → wowned w t → stays w w' t.
Proof. intros Hf Ho. by destruct (Hf t I Ho). Qed.

Section packets.
Context {R : Type} `{!Conn R, !PacketLink R} (q : pipe).

Lemma packet_carrier_ok eof :
  sendMsgFunc q = sendMsgBlock → recvMsgFunc q = recvMsgBlock → @CarrierOk R _ (packet_carrier q) q eof.
Proof.
  intros Hs Hr. split; cbn [under_way bufs accepts packet_carrier].
  - intros w w' r ks Hu Hl. by eapply stays_lent.
  - intros w w' r r' msg k ks Hw Hu Hat Hk Hraw Hap. unfold SendMsg. rewrite Hs. intros H.
    destruct (sendBlockMsg_run _ _ _ _ _ _ _ Hw Hat Hraw H) as (HE & HW).
    destruct (Encode_stays _ _ _ _ Hw Hat HE) as (Hwire & Hw' & Hat' & Hst). split_and!; [|done..].
    rewrite (packet_send _ _ _ HW). apply Forall2_app.
    + eapply stays_lent; [|exact Hu]. intros t Ht. apply Hst; [|by apply Hap].
      apply list_elem_of_lookup in Ht as [i Hi]. destruct (Forall2_lookup_l _ _ _ _ _ Hu Hi) as (k' & _ & ? & _). done.
    + constructor; [|done]. split; [apply Hat'|done].
  - intros w r k ks Hw (Hk & Hrc & Hf) Hu. unfold RecvMsg. rewrite Hr.
    apply Forall2_cons_inv_r in Hu as (t & l & [Ht Hread] & Hu & El).
    destruct (conn_Recv r) as [[b e] r'] eqn:E. pose proof (packet_recv _ _ _ _ E) as Hx. rewrite El in Hx.
    destruct Hx as (-> & -> & El').
    destruct (FromBytes_run (id q) k (maxRecvContentLength q) w Hw Hk Hrc Hf) as (msg & w' & HB & Hb).
    exists msg, w', (Pio r' false eof). split; [|split; [done|]].
    + unfold recvBlockMsg, on_pio. erewrite M_bind_ret_run by (unfold pipe_recv; cbn [conn]; rewrite E; reflexivity).
      cbv beta iota. cbn [default]. erewrite M_bind_ret_run by reflexivity. unfold with_conn. cbn. rewrite Hread.
      by erewrite M_bind_ret_run by (apply lift_world_run, HB).
    + cbn. rewrite El'. eapply stays_lent; [|exact Hu]. intros t' Ht'. apply wframe_stays; [apply Hb|].
      apply list_elem_of_lookup in Ht' as [i Hi]. destruct (Forall2_lookup_l _ _ _ _ _ Hu Hi) as (k' & _ & ? & _). done.
  - intros w r m e s' Hu. apply Forall2_nil_inv_r in Hu. unfold RecvMsg. rewrite Hr. unfold recvBlockMsg.
    intros ([b e1] & [w1 p1] & H1 & H2)%M_bind_Ret. unfold on_pio, pipe_recv in H1. cbn [conn] in H1.
    destruct (conn_Recv r) as [[b2 e2] r'] eqn:E. pose proof (packet_recv _ _ _ _ E) as Hx. rewrite Hu in Hx.
    destruct Hx as [-> He]. destruct e2 as [e2|]; [|done]. change (0 <? 0) with false in H1. unfold on_read_error in H1.
    assert (is_Some e1) as [e3 ->].
    { destruct e2; try (destruct (close_on _ _) as [? ?]; injection H1 as _ <- _ _; by eexists).
      destruct (onEOF _); [destruct (pipe_Close _) as [? ?]|]; injection H1 as _ <- _ _; by eexists. }
    by injection H2 as <- _.
Qed.
End packets.

(** ** Messages *)

(** [NewMessageFromMsg] passes a message on whole if no hop is left after this one. *)
Definition msg_carrier {R} `{!Conn R, !MsgLink R} (q : pipe) : Carrier R := {|
  under_way w r ks := Forall2 (msg_at w) (queued r) ks;
  bufs r := buf <$> queued r;
  accepts k := decodable (maxRecvContentLength q) k ∧ recv_destSize (pmeta k) = 0 |}.

Section messages.
Context {R : Type} `{!Conn R, !MsgLink R} (q : pipe).

Lemma msg_carrier_ok eof :
  sendMsgFunc q = sendMsgDirect → recvMsgFunc q = recvMsgDirect → @CarrierOk R _ (msg_carrier q) q eof.
Proof.
  intros Hs Hr.
  assert (Hst : ∀ w w' l ks, (∀ t, t ∈ buf <$> l → stays w w' t) → Forall2 (msg_at w) l ks → Forall2 (msg_at w') l ks).
  { intros w w' l ks Hl H. induction H as [|m k l ks Hm _ IH]; constructor.
    - destruct (Hl (buf m)) as [? ?]; [by left|]. by apply (msg_at_reads w).
    - apply IH. intros t ?. apply Hl. by right. }
  split; cbn [under_way bufs accepts msg_carrier].
  - intros w w' r ks Hu Hl. by eapply Hst.
  - intros w w' r r' msg k ks Hw Hu Hat _ _ _. unfold SendMsg. rewrite Hs. unfold on_conn. cbn [conn].
    destruct (conn_SendMsg msg r) as [e r1] eqn:E. unfold with_conn. cbn. intros [= -> <- <-].
    rewrite (msg_send _ _ _ E). split_and!; [|done|done|].
    + apply Forall2_app; [done|by constructor].
    + intros t Ht _. by split.
  - intros w r k ks Hw [(Hk & Hrc & Hf) H0] Hu. unfold RecvMsg. rewrite Hr.
    apply Forall2_cons_inv_r in Hu as (m & l & Hm & Hu & El).
    destruct (conn_RecvMsg r) as [[m1 e] r'] eqn:E. pose proof (msg_recv _ _ _ _ E) as Hx. rewrite El in Hx.
    destruct Hx as (-> & -> & El').
    destruct (FromMsg_run (id q) k (maxRecvContentLength q) w m Hw Hk Hrc Hf Hm) as (msg & w' & st & HF & _ & _ & Hb).
    destruct (hop_parts (id q) k Hk Hrc) as (_ & _ & _ & _ & Pl). rewrite H0 in Hb, Pl. cbn in Hb. apply zlen_0 in Pl.
    assert (Hb' : built w w' msg (hop (id q) k)) by (rewrite <- Pl in Hb; by destruct (hop (id q) k)).
    exists msg, w', (Pio r' false eof). split; [|split; [done|]].
    + unfold recvDirectMsg. erewrite M_bind_ret_run by (unfold on_conn; cbn [conn]; rewrite E; reflexivity).
      cbv beta iota. unfold with_conn. cbn. by erewrite M_bind_ret_run by (apply lift_world_run, HF).
    + cbn. rewrite El'. eapply Forall2_impl; [exact Hu|]. intros x k' Hx. eapply msg_at_frame; [exact Hx|apply Hb'].
  - intros w r m e s' Hu. apply Forall2_nil_inv_r in Hu. unfold RecvMsg. rewrite Hr. unfold recvDirectMsg.
    intros ([m1 e1] & [w1 p1] & H1 & H2)%M_bind_Ret. unfold on_conn in H1. cbn [conn] in H1.
    destruct (conn_RecvMsg r) as [[m2 e2] r'] eqn:E. pose proof (msg_recv _ _ _ _ E) as Hx. rewrite Hu in Hx.
    destruct Hx as [_ He]. injection H1 as _ <- _ _. destruct e2 as [e2|]; [|done]. by injection H2 as <- _.
Qed.
End messages.
