(* ===== verification/Session.v ===== *)
(** Messages from pipe to pipe: two pipes of connector/pipe.go at the ends of one connection of the
    transports, while both work.

    A [session] is the memory, the connection in one direction, and, as ghosts, the packets sent
    and the messages received so far; the two ends and the rest of the program take steps in
    any order.  It is proved against the interface of Carrier.v, so for every kind of
    connection. *)
From S2P Require Import Prelude Errs GoHeap GoIO Bytespool Message Packet MessageFacts MessageSend MessageThms.
From S2P Require Import IdGen Options OptionSet OptionReg Channel Pipe PipeThms Ws Links BufReader Carrier.
From stdpp Require Import base tactics numbers list gmap relations strings.
From Stdlib Require Import ZArith Lia.
Open Scope Z_scope.

Section session.
Context {R : Type} `{!Conn R, !Carrier R} (q : pipe) (eof : bool).

Record session := mkSession { sw : world; sl : R; sent : list packet; got : list Message }.

(** A send of any message that is not raw and that the receiver takes, a receive, and other activity
    on the memory.  A sender may use a message it received, or one in a buffer of its own; it
    keeps off the buffers lent to the connection, as everybody does. *)
Inductive session_step (s : session) : session → Prop :=
  | ss_send msg k w' l' :
      msg_at (sw s) msg k → accepts k → HasFlags (pmeta k) MsgFlagRaw = false →
      (∀ m, m ∈ got s → m = msg ∨ sarr (buf m) ≠ sarr (buf msg)) →
      (∀ t, t ∈ bufs (sl s) → sarr t ≠ sarr (buf msg)) →
      SendMsg q msg (sw s, Pio (sl s) false eof) = Ret (None, (w', Pio l' false eof)) →
      session_step s (mkSession w' l' (sent s ++ [k]) (got s))
  | ss_recv msg w' p' :
      RecvMsg q (sw s, Pio (sl s) false eof) = Ret ((Some msg, None), (w', p')) →
      session_step s (mkSession w' (conn p') (sent s) (got s ++ [msg]))
  | ss_other w' :
      world_ok w' → (∀ m k, m ∈ got s → msg_at (sw s) m k → msg_at w' m k) →
      (∀ t, t ∈ bufs (sl s) → stays (sw s) w' t) →
      session_step s (mkSession w' (sl s) (sent s) (got s)).

(** The start: nothing under way. *)
Definition sreached (s : session) : Prop :=
  ∃ w l, world_ok w ∧ under_way w l [] ∧ rtc session_step (mkSession w l [] []) s.

Record sinv (s : session) : Prop := SInv {
  si_world : world_ok (sw s);
  si_sent : Forall accepts (sent s);
  si_split : ∃ seen rest, sent s = seen ++ rest ∧ under_way (sw s) (sl s) rest ∧
    Forall2 (msg_at (sw s)) (got s) (hop (id q) <$> seen) }.

(** The messages received keep showing their packets if each of them does. *)
Lemma got_kept w w' (l : list Message) ks :
  (∀ m k, m ∈ l → msg_at w m k → msg_at w' m k) → Forall2 (msg_at w) l ks → Forall2 (msg_at w') l ks.
Proof.
  intros Hl H. induction H as [|m k l ks Hm _ IH]; constructor; [apply Hl; [by left|done]|].
  apply IH. intros m' k' ?. apply Hl. by right.
Qed.

Context `{!CarrierOk R q eof}.

Lemma sinv_step s s' : sinv s → session_step s s' → sinv s'.
Proof.
  intros [Hw Hs (seen & rest & E & Hu & Hg)] H.
  destruct H as [msg k w' l' Hat Hk Hraw Hsep Hap H|msg w' p' H|w' Hw' Hat Hst].
  - destruct (ca_send _ _ _ _ _ _ _ Hw Hu Hat Hk Hraw Hap H) as (Hu' & Hw' & Hat' & Hst).
    split; cbn; [done|by apply Forall_app_2; [|constructor]|].
    exists seen, (rest ++ [k]). split; [by rewrite E, app_assoc|]. split; [done|].
    eapply got_kept; [|exact Hg]. intros m k' Hm Hmk. destruct (Hsep m Hm) as [->|Hne].
    + by rewrite <- (msg_at_unique (sw s) msg k k').
    + destruct (Hst (buf m)) as [? ?]; [apply Hmk|done|]. by apply (msg_at_reads (sw s)).
  - destruct rest as [|k rest]; [by apply ca_none in H|].
    assert (Hk : accepts k).
    { rewrite E in Hs. apply Forall_app in Hs as [_ Hs]. apply Forall_cons in Hs as [Hs _]. exact Hs. }
    destruct (ca_next (eof := eof) (sw s) (sl s) k rest Hw Hk Hu) as (msg1 & w1 & p1 & HR & Hb & Hu1).
    rewrite HR in H. injection H as -> -> ->. split; cbn; [apply Hb|done|].
    exists (seen ++ [k]), rest. split; [by rewrite E, <- app_assoc|]. split; [done|].
    rewrite fmap_app. apply Forall2_app; [|by constructor; [apply Hb|]].
    eapply got_kept; [|exact Hg]. intros m k' _ Hm. eapply msg_at_frame; [exact Hm|apply Hb].
  - split; cbn; [done|done|]. exists seen, rest. split; [done|]. split; [by eapply ca_frame|]. by eapply got_kept.
Qed.

Lemma sreached_inv s : sreached s → sinv s.
Proof.
  intros (w & l & Hw & Hl & H). apply (rtc_ind_r sinv (mkSession w l [] [])) in H; [done| |].
  - split; cbn; [done|constructor|]. exists [], []. split; [done|]. split; [exact Hl|constructor].
  - intros x y _ Hs HI. by eapply sinv_step.
Qed.
End session.
Arguments session R : clear implicits.

(** ** Claims *)


(** The functions of a pipe that is not raw. *)
Lemma newPipe_funcs c st r g p g' : newPipe c st r g = Some (Ret (p, g')) → raw p = false →
  (sendMsgFunc p, recvMsgFunc p) = chosen_funcs false c ∧
  (isMsgSendReceiver c = false → isSendReceiver c = false → metaBuf p = Some MetaSize).
Proof.
  unfold newPipe, run_bind, run_ret, chosen_funcs. intros H Hraw.
  repeat (case_match; simplify_eq/=; try done).
Qed.

(** Whatever the interfaces of a connection, the pipe [newPipe] makes on it - if it is not
    raw - carries packets between two ends: by whole messages on a connection of messages, by
    packets on one of packets, and otherwise over the byte stream. *)
Theorem new_pipes_carry c st opts g q g' eof :
  newPipe c st opts g = Some (Ret (q, g')) → raw q = false →
  if isMsgSendReceiver c then ∀ R `(!Conn R) `(!MsgLink R), @CarrierOk R _ (msg_carrier q) q eof
  else if isSendReceiver c then ∀ R `(!Conn R) `(!PacketLink R), @CarrierOk R _ (packet_carrier q) q eof
  else ∀ R `(!Conn R) `(!LinkOk R), @CarrierOk R _ (stream_carrier q) q eof.
Proof.
  intros H Hraw. apply newPipe_funcs in H as [H Hm]; [|done]. unfold chosen_funcs in H.
  destruct (isMsgSendReceiver c), (isSendReceiver c); injection H as Hs Hr; intros R ? ?.
  - by apply msg_carrier_ok.
  - by apply msg_carrier_ok.
  - by apply packet_carrier_ok.
  - apply stream_carrier_ok; [done..|by apply Hm].
Qed.

(** ** Witnesses: the in-process pipes, plain and buffered, and a websocket connection *)

#[global] Instance demo_ws_duplex : ws_duplex demo_ws.
Proof. split. by intros dt b w w' [= <-]. Qed.

Definition demo_opts : store := [mkOptions ∅ None [] None []].
(** The pipe on a connection with the interfaces [msg] and [packet]. *)
Definition demo_q (msg packet : bool) : pipe :=
  match Pipe.newPipe (Caps "inproc.channel"%string packet msg) demo_opts 0 NewRecyclableIDGenerator with
  | Some (Ret (p, _)) => p
  | _ => PipeThms.demo_pipe sendMsgStream recvMsgStream
  end.

Lemma demo_q_made msg packet : ∃ g,
  Pipe.newPipe (Caps "inproc.channel"%string packet msg) demo_opts 0 NewRecyclableIDGenerator = Some (Ret (demo_q msg packet, g)) ∧
  raw (demo_q msg packet) = false ∧ maxRecvContentLength (demo_q msg packet) = 131072.
Proof. destruct msg, packet; eexists; repeat split; vm_compute; reflexivity. Qed.

Lemma demo_stream : @CarrierOk bpipe _ (stream_carrier (demo_q false false)) (demo_q false false) true ∧
  @CarrierOk (wsConn demo_ws) _ (stream_carrier (demo_q false false)) (demo_q false false) true ∧
  @CarrierOk (bpipe + buffered bpipe) _ (stream_carrier (demo_q false false)) (demo_q false false) true.
Proof. split_and!; apply stream_carrier_ok; vm_compute; reflexivity. Qed.
Lemma demo_packets : @CarrierOk (Channel.half slice) _ (packet_carrier (demo_q false true)) (demo_q false true) true.
Proof. apply packet_carrier_ok; vm_compute; reflexivity. Qed.
Lemma demo_messages : @CarrierOk (Channel.half Message) _ (msg_carrier (demo_q true false)) (demo_q true false) true.
Proof. apply msg_carrier_ok; vm_compute; reflexivity. Qed.

(** A message of [one_packet], sent over an idle connection. *)
Definition goes_out {R} `{!Conn R} (q : pipe) (r : R) : bool :=
  match SendMsg q one_state.1 (one_state.2, Pio r false true) with Ret (None, (_, Pio _ false true)) => true | _ => false end.

Lemma one_accepted : decodable 131072 one_packet ∧ recv_destSize (pmeta one_packet) = 0.
Proof.
  split; [|reflexivity]. split_and!; [apply one_packet_ok| |].
  - refine (bool_decide_unpack _ _). vm_compute. exact I.
  - right. vm_compute. done.
Qed.

Lemma demo_sent {R} `{!Conn R, !Carrier R} (q : pipe) (r : R) :
  goes_out q r = true → under_way one_state.2 r [] → accepts one_packet → bufs r = [] →
  ∃ s, sreached q true s ∧ sent s = [one_packet] ∧ got s = [].
Proof.
  unfold goes_out. intros H Hu Ha Hb.
  destruct (SendMsg _ _ _) as [[[e|] [w' [r' [|] [|]]]]|] eqn:E; try done.
  exists (mkSession w' r' [one_packet] []). split; [|done]. exists one_state.2, r.
  split; [apply one_state_built|]. split; [exact Hu|]. apply rtc_once.
  apply (ss_send q true (mkSession one_state.2 r [] []) one_state.1 one_packet w' r'); cbn [sw sl sent got].
  - apply one_state_built.
  - exact Ha.
  - reflexivity.
  - intros m Hm. by apply not_elem_of_nil in Hm.
  - rewrite Hb. intros t Ht. by apply not_elem_of_nil in Ht.
  - exact E.
Qed.

(** The receiver gets it. *)
Definition arrives {R} `{!Conn R} (q : pipe) (s : session R) : Prop :=
  ∃ msg w' p', RecvMsg q (sw s, Pio (sl s) false true) = Ret ((Some msg, None), (w', p')) ∧
    shows w' msg (hop (id q) one_packet).


Lemma new_pipes_carry_witness :
  @CarrierOk bpipe _ (stream_carrier (demo_q false false)) (demo_q false false) true ∧
  @CarrierOk (Channel.half slice) _ (packet_carrier (demo_q false true)) (demo_q false true) true ∧
  @CarrierOk (Channel.half Message) _ (msg_carrier (demo_q true true)) (demo_q true true) true.
Proof.
  destruct (demo_q_made false false) as (g1 & H1 & R1 & _), (demo_q_made false true) as (g2 & H2 & R2 & _),
    (demo_q_made true true) as (g3 & H3 & R3 & _).
  split; [|split].
  - exact (new_pipes_carry _ _ _ _ _ _ true H1 R1 bpipe _ _).
  - exact (new_pipes_carry _ _ _ _ _ _ true H2 R2 (Channel.half slice) _ _).
  - exact (new_pipes_carry _ _ _ _ _ _ true H3 R3 (Channel.half Message) _ _).
Defined.
