(* ===== verification/Connector.v ===== *)
(** connector/connector.go, dialer.go, listener.go and the part of pipe.go that talks to the
    connector: who dials, who listens, which pipes exist.

    The state [cworld] holds the connector, the dialers, listeners and pipes it created (by
    number, they are shared objects), the armed [time.AfterFunc] timers, and the goroutines
    and callers that are between two critical sections: [tasks].  Each operation below is
    one critical section or one sequence without a lock in between; [cstep] interleaves
    them.  What the transports answer (the result of a dial, an accepted connection), the
    verdict of a negotiator and the random growth of a reconnect time are inputs of the
    steps.  [connector.Close] closes the pipes one after the other; here each of these
    closings is a task of its own, which allows more interleavings. *)
From S2P Require Import Prelude Errs Message IdGen Options OptionSet OptionReg Pipe.
From stdpp Require Import base tactics numbers list gmap sets strings relations.
From Stdlib Require Import ZArith Lia.
Open Scope Z_scope.

Record dialer := mkDialer {
  d_opts : nat; d_addr : string;
  d_closedq : bool; stopped : bool; active : bool; dialing : bool; connected : bool;
  redialer : option nat;       (* its current timer *)
  reconnTime : Z }.

Record listener := mkListener { l_opts : nat; l_addr : string; l_closed : bool; l_stopped : bool }.

Record cpipe := mkCpipe { obj : pipe; p_d : option nat; p_l : option nat; p_closed : bool }.

Inductive PipeEvent := PipeEventAdd | PipeEventRemove.
#[global] Instance PipeEvent_eq_dec : EqDecision PipeEvent.
Proof. solve_decision. Defined.

(** A nil map is [None]. *)
Record connector := mkConnector {
  c_opts : nat;
  negotiator : bool;
  limit : Z;
  dialers : option (gset nat);
  listeners : option (gset nat);
  pipes : option (gmap Z nat);
  pipeEventHandler : bool;
  c_closed : bool }.

Inductive task :=
  | TDial (d : nat) (redial : bool)        (* about to call [dial] *)
  | TConnecting (d : nat) (redial : bool)  (* in [d.Dialer.Dial] *)
  | TAddPipe (p : nat) (dialed : option nat) (* about to call [addPipe] *)
  | TDialed (d : nat)                      (* [addPipe] returned to [dial] *)
  | TClose (p : nat)                       (* about to call [p.Close] *)
  | TRemPipe (p : nat)                     (* closed, about to call [remPipe] *)
  | TCheckLimit (p : nat)                  (* in [remPipe], removed, about to check the limit *)
  | TRecycle (p : nat)                     (* about to recycle the id *)
  | TPipeClosed (d : nat).                 (* about to call [d.pipeClosed] *)

Record cworld := mkWorld {
  ostore : store;
  gen : RecyclableIDGenerator;
  ctor : connector;
  dtab : gmap nat dialer;
  ltab : gmap nat listener;
  ptab : gmap nat cpipe;
  timers : gmap nat (nat * Z);       (* armed: the dialer and the duration *)
  tasks : list task;
  events : list (PipeEvent * Z);     (* handler calls, the last one first *)
  fresh_ref : nat }.

Abbreviation C := (M cworld).

(** ** Access to the state *)

Definition upd_ctor (f : connector → connector) : C unit := modify (λ w,
  mkWorld (ostore w) (gen w) (f (ctor w)) (dtab w) (ltab w) (ptab w) (timers w) (tasks w) (events w) (fresh_ref w)).
Definition upd_dtab (f : gmap nat dialer → gmap nat dialer) : C unit := modify (λ w,
  mkWorld (ostore w) (gen w) (ctor w) (f (dtab w)) (ltab w) (ptab w) (timers w) (tasks w) (events w) (fresh_ref w)).
Definition upd_ltab (f : gmap nat listener → gmap nat listener) : C unit := modify (λ w,
  mkWorld (ostore w) (gen w) (ctor w) (dtab w) (f (ltab w)) (ptab w) (timers w) (tasks w) (events w) (fresh_ref w)).
Definition upd_ptab (f : gmap nat cpipe → gmap nat cpipe) : C unit := modify (λ w,
  mkWorld (ostore w) (gen w) (ctor w) (dtab w) (ltab w) (f (ptab w)) (timers w) (tasks w) (events w) (fresh_ref w)).
Definition upd_timers (f : gmap nat (nat * Z) → gmap nat (nat * Z)) : C unit := modify (λ w,
  mkWorld (ostore w) (gen w) (ctor w) (dtab w) (ltab w) (ptab w) (f (timers w)) (tasks w) (events w) (fresh_ref w)).
Definition spawn (t : task) : C unit := modify (λ w,
  mkWorld (ostore w) (gen w) (ctor w) (dtab w) (ltab w) (ptab w) (timers w) (t :: tasks w) (events w) (fresh_ref w)).
Definition emit (e : PipeEvent) (i : Z) : C unit := modify (λ w,
  mkWorld (ostore w) (gen w) (ctor w) (dtab w) (ltab w) (ptab w) (timers w) (tasks w) ((e, i) :: events w) (fresh_ref w)).
Definition set_gen (g : RecyclableIDGenerator) : C unit := modify (λ w,
  mkWorld (ostore w) g (ctor w) (dtab w) (ltab w) (ptab w) (timers w) (tasks w) (events w) (fresh_ref w)).
Definition set_store (s : store) : C unit := modify (λ w,
  mkWorld s (gen w) (ctor w) (dtab w) (ltab w) (ptab w) (timers w) (tasks w) (events w) (fresh_ref w)).
Definition new_ref : C nat := λ w, Ret (fresh_ref w,
  mkWorld (ostore w) (gen w) (ctor w) (dtab w) (ltab w) (ptab w) (timers w) (tasks w) (events w) (S (fresh_ref w))).

Definition deref {A} (f : cworld → option A) : C A := λ w,
  match f w with Some a => Ret (a, w) | None => Panics PanicNilDeref end.
Definition getd (d : nat) : C dialer := deref (λ w, dtab w !! d).
Definition getl (l : nat) : C listener := deref (λ w, ltab w !! l).
Definition getp (p : nat) : C cpipe := deref (λ w, ptab w !! p).
Definition putd (d : nat) (x : dialer) : C unit := upd_dtab (insert d x).
Definition putl (l : nat) (x : listener) : C unit := upd_ltab (insert l x).
Definition putp (p : nat) (x : cpipe) : C unit := upd_ptab (insert p x).

(** [opts.GetOptionDefault(opt).(T)] *)
Definition get_opt {A} (assert : value → outcome A) (r : nat) (opt : Option) : C A := λ w,
  match GetOptionDefault (ostore w) r opt with
  | Some v => match assert v with Ret a => Ret (a, w) | Panics q => Panics q end
  | None => Panics PanicNilDeref
  end.

Fixpoint for_each {X} (l : list X) (f : X → C unit) : C unit :=
  match l with
  | [] => mret ()
  | x :: l => f x ;; for_each l f
  end.

Definition elems (s : option (gset nat)) : list nat := match s with Some s => elements s | None => [] end.
Definition len (m : option (gmap Z nat)) : Z := match m with Some m => Z.of_nat (size m) | None => 0 end.

(** ** dialer.go *)

Definition newDialer (addr : string) (opts : nat) : dialer :=
  mkDialer opts addr false false false false false None 0.

Definition with_flags (x : dialer) (closedq stop act dia con : bool) : dialer :=
  mkDialer (d_opts x) (d_addr x) closedq stop act dia con (redialer x) (reconnTime x).
Definition with_timer (x : dialer) (t : option nat) : dialer :=
  mkDialer (d_opts x) (d_addr x) (d_closedq x) (stopped x) (active x) (dialing x) (connected x) t (reconnTime x).
Definition with_time (x : dialer) (t : Z) : dialer :=
  mkDialer (d_opts x) (d_addr x) (d_closedq x) (stopped x) (active x) (dialing x) (connected x) (redialer x) t.

Definition minReconnectTime (x : dialer) : C Z :=
  get_opt timeDurationOption_Value (d_opts x) OptionReg.Connector.MinReconnectTime.
Definition maxReconnectTime (x : dialer) : C Z :=
  get_opt timeDurationOption_Value (d_opts x) OptionReg.Connector.MaxReconnectTime.
Definition dialAsync (x : dialer) : C bool := get_opt boolOption_Value (d_opts x) OptionReg.Connector.DialAsync.
Definition reconnect (x : dialer) : C bool := get_opt boolOption_Value (d_opts x) OptionReg.Connector.Reconnect.

(** [t.Stop()] and [time.AfterFunc(dur, d.redial)] *)
Definition stop_timer (t : option nat) : C unit :=
  match t with Some t => upd_timers (delete t) | None => mret () end.
Definition AfterFunc (d : nat) (dur : Z) : C nat :=
  t ← new_ref; upd_timers (insert t (d, dur)) ;; mret t.

(** [Dial]: [None] when the call goes on into [dial(false)]. *)
Definition Dial (d : nat) : C (option (option err)) :=
  x ← getd d;
  if d_closedq x then mret (Some (Some ErrClosed)) else
  if active x then mret (Some (Some ErrAddrInUse)) else
  m ← minReconnectTime x;
  putd d (with_time (with_flags x (d_closedq x) (stopped x) true (dialing x) (connected x)) m) ;;
  async ← dialAsync x;
  if (async : bool) then spawn (TDial d true) ;; mret (Some None)
  else spawn (TDial d false) ;; mret None.

Definition dialer_Close (d : nat) : C (option err) :=
  x ← getd d;
  if d_closedq x then mret (Some ErrClosed) else
  putd d (with_flags x true (stopped x) (active x) (dialing x) (connected x)) ;; mret None.

Definition reconn (d : nat) : C bool :=
  x ← getd d;
  if d_closedq x then mret true else
  r ← reconnect x;
  if negb r then mret false else
  stop_timer (redialer x) ;;
  t ← AfterFunc d (reconnTime x);
  putd d (with_timer x (Some t)) ;; mret true.

Definition dialer_start (d : nat) : C unit :=
  x ← getd d;
  if negb (stopped x) then mret () else
  putd d (with_flags x (d_closedq x) false (active x) (dialing x) (connected x)) ;;
  reconn d ;; mret ().

Definition dialer_stop (d : nat) : C unit :=
  x ← getd d;
  if stopped x then mret () else
  putd d (with_flags x (d_closedq x) true (active x) (dialing x) (connected x)) ;;
  stop_timer (redialer x).

(** [dial] up to the call of the transport *)
Definition dial_begin (d : nat) : C (err + unit) :=
  x ← getd d;
  if d_closedq x then mret (inl ErrClosed) else
  if stopped x then mret (inl ErrStopped) else
  if dialing x || connected x then mret (inl ErrAddrInUse) else
  stop_timer (redialer x) ;;
  putd d (with_timer (with_flags x (d_closedq x) (stopped x) (active x) true (connected x)) None) ;;
  mret (inr ()).

(** [dial] after [addPipe] returned *)
Definition dial_done (d : nat) : C unit :=
  x ← getd d;
  m ← minReconnectTime x;
  putd d (with_time (with_flags x (d_closedq x) (stopped x) (active x) false true) m).

(** [dial] after the transport failed; [grown] is [actfact * d.reconnTime] *)
Definition dial_failed (d : nat) (redial : bool) (grown : Z) : C unit :=
  x ← getd d;
  let x := with_flags x (d_closedq x) (stopped x) (active x) false (connected x) in
  if negb redial then putd d x else
  mx ← maxReconnectTime x;
  let next := if negb (mx =? 0) && (grown >? mx) then mx else grown in
  t ← AfterFunc d (reconnTime x);
  putd d (with_timer (with_time x next) (Some t)).

(** ** listener.go *)

Definition newListener (addr : string) (opts : nat) : listener := mkListener opts addr false false.

Definition listener_start (l : nat) : C unit :=
  x ← getl l;
  if negb (l_stopped x) then mret () else putl l (mkListener (l_opts x) (l_addr x) (l_closed x) false).
Definition listener_stop (l : nat) : C unit :=
  x ← getl l;
  if l_stopped x then mret () else putl l (mkListener (l_opts x) (l_addr x) (l_closed x) true).
Definition isStopped (l : nat) : C bool := x ← getl l; mret (l_stopped x).

(** [Listen] of a listener, [listening] being the transport's answer, after which [serve] runs *)
Definition listener_Listen (l : nat) (listening : option err) : C (option err) :=
  match listening with Some e => mret (Some e) | None => mret None end.

Definition listener_Close (l : nat) : C (option err) :=
  x ← getl l;
  if l_closed x then mret (Some ErrClosed) else
  putl l (mkListener (l_opts x) (l_addr x) true (l_stopped x)) ;; mret None.

(** The pipe of a new connection. *)
Definition new_cpipe (tc : caps) (d l : option nat) (opts : nat) : C nat := λ w,
  match newPipe tc (ostore w) opts (gen w) with
  | None => Panics PanicNilDeref
  | Some (Panics q) => Panics q
  | Some (Ret (p, g)) =>
      (set_gen g ;; r ← new_ref; putp r (mkCpipe p d l false) ;; mret r) w
  end.

(** One round of [serve] with the answer of [Accept]: whether the loop goes on. *)
Definition serve_round (l : nat) (res : err + caps) : C bool :=
  match res with
  | inl e => mret (negb (bool_decide (e = ErrClosed)))
  | inr tc =>
      b ← isStopped l;
      if (b : bool) then mret true else
      x ← getl l;
      p ← new_cpipe tc None (Some l) (l_opts x);
      spawn (TAddPipe p None) ;; mret true
  end.

(** ** connector.go *)

Definition startConnecting : C unit :=
  c ← gets ctor;
  for_each (elems (listeners c)) listener_start ;;
  for_each (elems (dialers c)) dialer_start.

Definition stopConnecting : C unit :=
  c ← gets ctor;
  for_each (elems (listeners c)) listener_stop ;;
  for_each (elems (dialers c)) dialer_stop.

Definition checkLimit (checkNoLimit : bool) : C unit :=
  c ← gets ctor;
  if c_closed c then mret () else
  if limit c =? -1 then if checkNoLimit then startConnecting else mret ()
  else if len (pipes c) <? limit c then startConnecting
  else stopConnecting.

Definition with_limit (n : Z) (c : connector) : connector :=
  mkConnector (c_opts c) (negotiator c) n (dialers c) (listeners c) (pipes c) (pipeEventHandler c) (c_closed c).
Definition with_maps (ds ls : option (gset nat)) (ps : option (gmap Z nat)) (c : connector) : connector :=
  mkConnector (c_opts c) (negotiator c) (limit c) ds ls ps (pipeEventHandler c) (c_closed c).

Definition onOptionChange (opt : Option) (newVal : value) : C unit :=
  if bool_decide (opt = OptionReg.Connector.PipeLimit) then
    match intOption_Value newVal with
    | Ret n => upd_ctor (with_limit n) ;; checkLimit true
    | Panics q => gopanic q
    end
  else mret ().

Definition call_handler (e : PipeEvent) (i : Z) : C unit :=
  c ← gets ctor; if pipeEventHandler c then emit e i else mret ().

(** [addPipe]; [verdict] is the answer of the negotiator, if one is set. *)
Definition addPipe (p : nat) (verdict : option err) : C unit :=
  c ← gets ctor;
  x ← getp p;
  if negotiator c && (match verdict with Some _ => true | None => false end) then mret () else
  if (limit c =? -1) || (limit c >? len (pipes c)) then
    match pipes c with
    | None => gopanic PanicNilMap
    | Some m =>
        upd_ctor (λ c, with_maps (dialers c) (listeners c) (Some (<[ID (obj x) := p]> m)) c) ;;
        call_handler PipeEventAdd (ID (obj x)) ;;
        checkLimit false
    end
  else spawn (TClose p).

(** The first critical section of [remPipe] and what follows it up to the second. *)
Definition remPipe (p : nat) : C unit :=
  x ← getp p;
  upd_ctor (λ c, with_maps (dialers c) (listeners c) (delete (ID (obj x)) <$> pipes c) c) ;;
  call_handler PipeEventRemove (ID (obj x)) ;;
  match p_d x with Some d => spawn (TPipeClosed d) | None => mret () end ;;
  spawn (TCheckLimit p).

(** [pipe.Close] up to the call of [remPipe] *)
Definition pipe_Close_begin (p : nat) : C (option err) :=
  x ← getp p;
  if p_closed x then mret (Some ErrClosed) else
  putp p (mkCpipe (obj x) (p_d x) (p_l x) true) ;;
  spawn (TRemPipe p) ;; mret None.

Definition recycle (p : nat) : C unit :=
  x ← getp p; g ← gets gen; set_gen (Recycle (ID (obj x)) g).

Definition remDialer (d : nat) : C unit :=
  upd_ctor (λ c, with_maps ((λ s, s ∖ {[d]}) <$> dialers c) (listeners c) (pipes c) c) ;;
  dialer_Close d ;; mret ().

Definition pipeClosed (d : nat) : C unit :=
  x ← getd d;
  putd d (with_flags x (d_closedq x) (stopped x) (active x) (dialing x) false) ;;
  b ← reconn d;
  if negb b then remDialer d else mret ().

Definition SetNegotiator (n : bool) : C unit := upd_ctor (λ c,
  mkConnector (c_opts c) n (limit c) (dialers c) (listeners c) (pipes c) (pipeEventHandler c) (c_closed c)).
Definition SetPipeEventHandler : C unit := upd_ctor (λ c,
  mkConnector (c_opts c) (negotiator c) (limit c) (dialers c) (listeners c) (pipes c) true (c_closed c)).
Definition ClearPipeEventHandler : C unit := upd_ctor (λ c,
  mkConnector (c_opts c) (negotiator c) (limit c) (dialers c) (listeners c) (pipes c) false (c_closed c)).

(** The option set of a new dialer or listener; a new set has no hooks to run. *)
Definition sub_options (ovs : list (Option * value)) : C nat := λ w,
  match NewOptionsWithValuesAndSubs (λ _ _ _ _ s, (None, s)) ovs [c_opts (ctor w)] (State (ostore w) ()) with
  | Some (r, s) => (set_store (sets s) ;; mret r) w
  | None => Panics PanicNilDeref
  end.

(** [tr]: no transport for the scheme, or the answer of the transport's constructor. *)
Definition NewDialer (addr : string) (ovs : list (Option * value)) (tr : option (option err)) : C (err + nat) :=
  c ← gets ctor;
  if c_closed c then mret (inl ErrClosed) else
  match tr with
  | None => mret (inl ErrBadTransport)
  | Some (Some e) => mret (inl e)
  | Some None =>
      o ← sub_options ovs;
      d ← new_ref;
      putd d (newDialer addr o) ;;
      (if negb (limit c =? -1) && (limit c <=? len (pipes c)) then dialer_stop d else mret ()) ;;
      upd_ctor (λ c, with_maps ((λ s, {[d]} ∪ s) <$> dialers c) (listeners c) (pipes c) c) ;;
      mret (inr d)
  end.

Definition NewListener (addr : string) (ovs : list (Option * value)) (tr : option (option err)) : C (err + nat) :=
  c ← gets ctor;
  if c_closed c then mret (inl ErrClosed) else
  match tr with
  | None => mret (inl ErrBadTransport)
  | Some (Some e) => mret (inl e)
  | Some None =>
      o ← sub_options ovs;
      l ← new_ref;
      putl l (newListener addr o) ;;
      (if negb (limit c =? -1) && (limit c <=? len (pipes c)) then listener_stop l else mret ()) ;;
      upd_ctor (λ c, with_maps (dialers c) ((λ s, {[l]} ∪ s) <$> listeners c) (pipes c) c) ;;
      mret (inr l)
  end.

(** The calls that connect at once; [None]: the call goes on into [dial(false)].  [listening]
    is the answer of the transport's [Listen]. *)
Definition DialOptions (addr : string) (ovs : list (Option * value)) (tr : option (option err))
  : C (option (option err)) :=
  r ← NewDialer addr ovs tr;
  match r with inl e => mret (Some (Some e)) | inr d => Dial d end.
Definition connector_Dial (addr : string) (tr : option (option err)) : C (option (option err)) :=
  DialOptions addr [] tr.

Definition ListenOptions (addr : string) (ovs : list (Option * value)) (tr : option (option err))
  (listening : option err) : C (option err) :=
  r ← NewListener addr ovs tr;
  match r with inl e => mret (Some e) | inr l => listener_Listen l listening end.
Definition connector_Listen (addr : string) (tr : option (option err)) (listening : option err) : C (option err) :=
  ListenOptions addr [] tr listening.

Definition StopDial (addr : string) : C unit :=
  c ← gets ctor;
  for_each (elems (dialers c)) (λ d,
    x ← getd d;
    if bool_decide (d_addr x = addr) then
      upd_ctor (λ c, with_maps ((λ s, s ∖ {[d]}) <$> dialers c) (listeners c) (pipes c) c) ;;
      dialer_Close d ;; mret ()
    else mret ()).

Definition StopListen (addr : string) : C unit :=
  c ← gets ctor;
  for_each (elems (listeners c)) (λ l,
    x ← getl l;
    if bool_decide (l_addr x = addr) then
      upd_ctor (λ c, with_maps (dialers c) ((λ s, s ∖ {[l]}) <$> listeners c) (pipes c) c) ;;
      listener_Close l ;; mret ()
    else mret ()).

Definition GetPipe (i : Z) : C (option nat) := c ← gets ctor; mret (pipes c ≫= λ m, m !! i).

Definition ClosePipe (i : Z) : C unit :=
  p ← GetPipe i;
  match p with Some p => spawn (TClose p) | None => mret () end.

Definition connector_Close : C unit :=
  c ← gets ctor;
  if c_closed c then mret () else
  upd_ctor (λ c, mkConnector (c_opts c) (negotiator c) (limit c) None None None (pipeEventHandler c) true) ;;
  for_each (elems (listeners c)) (λ l, listener_Close l ;; mret ()) ;;
  for_each (elems (dialers c)) (λ d, dialer_Close d ;; mret ());;
  for_each (match pipes c with Some m => (map_to_list m).*2 | None => [] end) (λ p, spawn (TClose p)).

(** ** Interleavings *)

Definition take_task (t : task) (w w' : cworld) : Prop :=
  ∃ l1 l2, tasks w = l1 ++ t :: l2 ∧
    w' = mkWorld (ostore w) (gen w) (ctor w) (dtab w) (ltab w) (ptab w) (timers w) (l1 ++ l2) (events w) (fresh_ref w).

Definition take_timer (t : nat) (d : nat) (w w' : cworld) : Prop :=
  ∃ dur, timers w !! t = Some (d, dur) ∧
    w' = mkWorld (ostore w) (gen w) (ctor w) (dtab w) (ltab w) (ptab w) (delete t (timers w)) (tasks w) (events w) (fresh_ref w).

(** What a task does when it is scheduled; the connection, verdict and growth are the
    answers of the environment. *)
Definition run_task (t : task) (answer : err + caps) (verdict : option err) (grown : Z) : C unit :=
  match t with
  | TDial d redial =>
      x ← dial_begin d;
      match x with inl _ => mret () | inr _ => spawn (TConnecting d redial) end
  | TConnecting d redial =>
      match answer with
      | inl _ => dial_failed d redial grown
      | inr tc =>
          x ← getd d;
          p ← new_cpipe tc (Some d) None (d_opts x);
          spawn (TAddPipe p (Some d))
      end
  | TAddPipe p dialed =>
      addPipe p verdict ;;
      match dialed with Some d => spawn (TDialed d) | None => mret () end
  | TDialed d => dial_done d
  | TClose p => pipe_Close_begin p ;; mret ()
  | TRemPipe p => remPipe p
  | TCheckLimit p => checkLimit false ;; spawn (TRecycle p)
  | TRecycle p => recycle p
  | TPipeClosed d => pipeClosed d
  end.

(** The calls of users and transports. *)
Inductive call :=
  | CDial (d : nat) | CNewDialer (addr : string) (ovs : list (Option * value)) (tr : option (option err))
  | CNewListener (addr : string) (ovs : list (Option * value)) (tr : option (option err))
  | CAccept (l : nat) (res : err + caps)
  | CStopDial (addr : string) | CStopListen (addr : string)
  | CClosePipe (i : Z) | CPipeClose (p : nat) | CSetNegotiator (n : bool) | CSetHandler | CClearHandler
  | COption (opt : Option) (v : value) | CClose.

Definition run_call (k : call) : C unit :=
  match k with
  | CDial d => Dial d ;; mret ()
  | CNewDialer a ovs tr => NewDialer a ovs tr ;; mret ()
  | CNewListener a ovs tr => NewListener a ovs tr ;; mret ()
  | CAccept l res => serve_round l res ;; mret ()
  | CStopDial a => StopDial a
  | CStopListen a => StopListen a
  | CClosePipe i => ClosePipe i
  | CPipeClose p => pipe_Close_begin p ;; mret ()
  | CSetNegotiator n => SetNegotiator n
  | CSetHandler => SetPipeEventHandler
  | CClearHandler => ClearPipeEventHandler
  | COption opt v => onOptionChange opt v
  | CClose => connector_Close
  end.

Inductive label := LTask (t : task) | LTimer (d : nat) | LCall (k : call).

Inductive cstep : cworld → label → cworld → Prop :=
  | step_task t answer verdict grown w w0 w' :
      take_task t w w0 → run_task t answer verdict grown w0 = Ret ((), w') → cstep w (LTask t) w'
  | step_timer t d w w0 w' :
      take_timer t d w w0 → spawn (TDial d true) w0 = Ret ((), w') → cstep w (LTimer d) w'
  | step_call k w w' : run_call k w = Ret ((), w') → cstep w (LCall k) w'.

(** [NewWithLimitAndOptions] on an option set that holds no limit. *)
Definition NewWithLimitAndOptions (lim : Z) (st : store) (opts : nat) (g : RecyclableIDGenerator) : cworld :=
  mkWorld st g (mkConnector opts false lim (Some ∅) (Some ∅) (Some ∅) false false) ∅ ∅ ∅ ∅ [] [] 0.
