(* ===== verification/ConnectorFacts.v ===== *)
(** What the operations of the connector keep: a preorder [keeps] on states that every
    operation respects except those that change the limit, the pipes or who may connect,
    and the effect of these on the "stopped" flags. *)
From S2P Require Import Prelude Errs Message IdGen Options OptionSet OptionReg Pipe Connector.
From stdpp Require Import base tactics numbers list gmap sets relations.
From Stdlib Require Import ZArith Lia.
Open Scope Z_scope.

(** ** Flags *)

Definition dflag (w : cworld) (d : nat) (b : bool) : Prop := ∃ x, dtab w !! d = Some x ∧ stopped x = b.
Definition lflag (w : cworld) (l : nat) (b : bool) : Prop := ∃ x, ltab w !! l = Some x ∧ l_stopped x = b.

(** [w] came from [w0] by operations that leave limit, pipes and handler alone. *)
Record from (w0 w : cworld) : Prop := {
  fr_limit : limit (ctor w) = limit (ctor w0);
  fr_pipes : pipes (ctor w) = pipes (ctor w0);
  fr_closed : c_closed (ctor w) = c_closed (ctor w0);
  fr_handler : pipeEventHandler (ctor w) = pipeEventHandler (ctor w0);
  fr_events : events w = events w0;
  fr_tasks : ∀ t, t ∈ tasks w0 → t ∈ tasks w;
  fr_dialers : ∀ d, d ∈ elems (dialers (ctor w)) → d ∈ elems (dialers (ctor w0));
  fr_listeners : ∀ l, l ∈ elems (listeners (ctor w)) → l ∈ elems (listeners (ctor w0));
  fr_dflag : ∀ d b, dflag w d b → dflag w0 d b;
  fr_lflag : ∀ l b, lflag w l b → lflag w0 l b }.

#[global] Instance from_preorder : PreOrder from.
Proof. split; [by split|]. intros w1 w2 w3 [] []. split; try congruence; eauto. Qed.

(** An operation that respects [from]. *)
Definition keeps {A} (w0 : cworld) (op : C A) : Prop := hoare (from w0) op (λ _, from w0).

Section keeps_rules.
Context (w0 : cworld).

Lemma keeps_bind {A B} (m : C A) (f : A → C B) :
  keeps w0 m → (∀ a, keeps w0 (f a)) → keeps w0 (m ≫= f).
Proof. intros Hm Hf. by eapply hoare_bind. Qed.
Lemma keeps_ret {A} (a : A) : keeps w0 (mret a).
Proof. by apply hoare_ret. Qed.
Lemma keeps_panic {A} p : keeps w0 (gopanic p : C A).
Proof. apply hoare_panic. Qed.
Lemma keeps_gets {A} (f : cworld → A) : keeps w0 (gets f).
Proof. intros w a w' Hw [= _ <-]. done. Qed.
Lemma keeps_deref {A} (f : cworld → option A) : keeps w0 (deref f).
Proof. intros w a w' Hw. unfold deref. destruct (f w); [|done]. by intros [= _ <-]. Qed.
Lemma keeps_get_opt {A} (g : value → outcome A) r opt : keeps w0 (get_opt g r opt).
Proof.
  intros w a w' Hw. unfold get_opt. destruct (GetOptionDefault _ _ _) as [v|]; [|done].
  destruct (g v); [|done]. by intros [= _ <-].
Qed.
Lemma keeps_getd {A} d (f : dialer → C A) :
  (∀ x, dflag w0 d (stopped x) → keeps w0 (f x)) → keeps w0 (getd d ≫= f).
Proof.
  intros Hf w b w' Hw (x & w1 & H1 & H2)%M_bind_Ret. unfold getd, deref in H1.
  destruct (dtab w !! d) as [y|] eqn:E; [|done]. injection H1 as -> <-.
  eapply Hf; [|exact Hw|exact H2]. apply (fr_dflag _ _ Hw). by exists x.
Qed.
Lemma keeps_getl {A} l (f : listener → C A) :
  (∀ x, lflag w0 l (l_stopped x) → keeps w0 (f x)) → keeps w0 (getl l ≫= f).
Proof.
  intros Hf w b w' Hw (x & w1 & H1 & H2)%M_bind_Ret. unfold getl, deref in H1.
  destruct (ltab w !! l) as [y|] eqn:E; [|done]. injection H1 as -> <-.
  eapply Hf; [|exact Hw|exact H2]. apply (fr_lflag _ _ Hw). by exists x.
Qed.
Lemma keeps_putd d x : dflag w0 d (stopped x) → keeps w0 (putd d x).
Proof.
  intros Hx w [] w' Hw [= <-]. destruct Hw. split; try done. intros d' b (y & Hy & <-). cbn in Hy.
  destruct (decide (d = d')) as [<-|Hne].
  - rewrite lookup_insert_eq in Hy. by injection Hy as <-.
  - rewrite lookup_insert_ne in Hy by done. apply fr_dflag0. by exists y.
Qed.
Lemma keeps_putl l x : lflag w0 l (l_stopped x) → keeps w0 (putl l x).
Proof.
  intros Hx w [] w' Hw [= <-]. destruct Hw. split; try done. intros d' b (y & Hy & <-). cbn in Hy.
  destruct (decide (l = d')) as [<-|Hne].
  - rewrite lookup_insert_eq in Hy. by injection Hy as <-.
  - rewrite lookup_insert_ne in Hy by done. apply fr_lflag0. by exists y.
Qed.
Lemma keeps_ptab f : keeps w0 (upd_ptab f).
Proof. intros w [] w' Hw [= <-]. by destruct Hw; split. Qed.
Lemma keeps_timers f : keeps w0 (upd_timers f).
Proof. intros w [] w' Hw [= <-]. by destruct Hw; split. Qed.
Lemma keeps_gen g : keeps w0 (set_gen g).
Proof. intros w [] w' Hw [= <-]. by destruct Hw; split. Qed.
Lemma keeps_store s : keeps w0 (set_store s).
Proof. intros w [] w' Hw [= <-]. by destruct Hw; split. Qed.
Lemma keeps_new_ref : keeps w0 new_ref.
Proof. intros w r w' Hw [= _ <-]. by destruct Hw; split. Qed.
Lemma keeps_spawn t : keeps w0 (spawn t).
Proof. intros w [] w' Hw [= <-]. destruct Hw; split; try done. intros t' Ht. right. by apply fr_tasks0. Qed.
Lemma keeps_ctor f :
  (∀ c, limit (f c) = limit c ∧ pipes (f c) = pipes c ∧ c_closed (f c) = c_closed c ∧
        pipeEventHandler (f c) = pipeEventHandler c ∧
        (∀ d, d ∈ elems (dialers (f c)) → d ∈ elems (dialers c)) ∧
        (∀ l, l ∈ elems (listeners (f c)) → l ∈ elems (listeners c))) →
  keeps w0 (upd_ctor f).
Proof.
  intros Hf w [] w' Hw [= <-]. destruct (Hf (ctor w)) as (E1 & E2 & E3 & E4 & E5 & E6).
  destruct Hw. split; cbn; try congruence; eauto.
Qed.
Lemma keeps_for_each {X} (l : list X) f : (∀ x, keeps w0 (f x)) → keeps w0 (for_each l f).
Proof.
  intros Hf. induction l as [|x l IH]; [apply keeps_ret|]. cbn. apply keeps_bind; [done|]. by intros [].
Qed.
Lemma keeps_if {A} (b : bool) (m1 m2 : C A) : keeps w0 m1 → keeps w0 m2 → keeps w0 (if b then m1 else m2).
Proof. by destruct b. Qed.
End keeps_rules.

(** Solve a [keeps] goal by the rules, structurally. *)
Ltac keeps_step :=
  lazymatch goal with
  | |- keeps _ (getd _ ≫= _) => apply keeps_getd; intros ? ?
  | |- keeps _ (getl _ ≫= _) => apply keeps_getl; intros ? ?
  | |- keeps _ (_ ≫= _) => apply keeps_bind; [|intros ?]
  | |- keeps _ (mret _) => apply keeps_ret
  | |- keeps _ (gopanic _) => apply keeps_panic
  | |- keeps _ (gets _) => apply keeps_gets
  | |- keeps _ (getp _) => apply keeps_deref
  | |- keeps _ (getd _) => apply keeps_deref
  | |- keeps _ (getl _) => apply keeps_deref
  | |- keeps _ (get_opt _ _ _) => apply keeps_get_opt
  | |- keeps _ (putd _ _) => apply keeps_putd; assumption
  | |- keeps _ (putl _ _) => apply keeps_putl; assumption
  | |- keeps _ (putp _ _) => apply keeps_ptab
  | |- keeps _ (upd_timers _) => apply keeps_timers
  | |- keeps _ (set_gen _) => apply keeps_gen
  | |- keeps _ (set_store _) => apply keeps_store
  | |- keeps _ new_ref => apply keeps_new_ref
  | |- keeps _ (spawn _) => apply keeps_spawn
  | |- keeps _ (for_each _ _) => apply keeps_for_each; intros ?
  | |- keeps _ (if _ then _ else _) => apply keeps_if
  | |- keeps _ (let _ := _ in _) => cbv zeta
  | |- keeps _ (match ?x with _ => _ end) => destruct x
  | |- keeps _ (_ <$> _) => fail
  end.
Ltac keeps_tac := repeat keeps_step; eauto with go.

Section keeps_ops.
Context (w0 : cworld).

Lemma keeps_stop_timer t : keeps w0 (stop_timer t).
Proof. unfold stop_timer. keeps_tac. Qed.
Lemma keeps_AfterFunc d t : keeps w0 (AfterFunc d t).
Proof. unfold AfterFunc. keeps_tac. Qed.
Hint Resolve keeps_stop_timer keeps_AfterFunc : go.
Lemma keeps_Dial d : keeps w0 (Dial d).
Proof. unfold Dial, minReconnectTime, dialAsync. keeps_tac. Qed.
Lemma keeps_dialer_Close d : keeps w0 (dialer_Close d).
Proof. unfold dialer_Close. keeps_tac. Qed.
Lemma keeps_listener_Close l : keeps w0 (listener_Close l).
Proof. unfold listener_Close. keeps_tac. Qed.
Lemma keeps_reconn d : keeps w0 (reconn d).
Proof. unfold reconn, reconnect. keeps_tac. Qed.
Lemma keeps_dial_begin d : keeps w0 (dial_begin d).
Proof. unfold dial_begin. keeps_tac. Qed.
Lemma keeps_dial_done d : keeps w0 (dial_done d).
Proof. unfold dial_done, minReconnectTime. keeps_tac. Qed.
Lemma keeps_dial_failed d r g : keeps w0 (dial_failed d r g).
Proof. unfold dial_failed, maxReconnectTime. keeps_tac. Qed.
Lemma keeps_new_cpipe tc d l o : keeps w0 (new_cpipe tc d l o).
Proof.
  intros w r w' Hw. unfold new_cpipe. destruct (newPipe _ _ _ _) as [[[p g]|]|]; [|done..].
  intros H. revert w r w' Hw H.
  change (keeps w0 (set_gen g ;; r ← new_ref; putp r (mkCpipe p d l false) ;; mret r)). keeps_tac.
Qed.
Hint Resolve keeps_new_cpipe keeps_reconn keeps_dialer_Close keeps_listener_Close
  keeps_Dial keeps_dial_begin keeps_dial_done keeps_dial_failed : go.
Lemma keeps_serve_round l res : keeps w0 (serve_round l res).
Proof. unfold serve_round, isStopped. keeps_tac. Qed.
Lemma keeps_pipe_Close_begin p : keeps w0 (pipe_Close_begin p).
Proof. unfold pipe_Close_begin. keeps_tac. Qed.
Lemma keeps_recycle p : keeps w0 (recycle p).
Proof. unfold recycle. keeps_tac. Qed.
Lemma keeps_drop_dialer d :
  keeps w0 (upd_ctor (λ c, with_maps ((λ s, s ∖ {[d]}) <$> dialers c) (listeners c) (pipes c) c)).
Proof.
  apply keeps_ctor. intros c. cbn. split_and!; try done. destruct (dialers c) as [s|]; cbn; [|done].
  intros x. rewrite !elem_of_elements. set_solver.
Qed.
Lemma keeps_drop_listener l :
  keeps w0 (upd_ctor (λ c, with_maps (dialers c) ((λ s, s ∖ {[l]}) <$> listeners c) (pipes c) c)).
Proof.
  apply keeps_ctor. intros c. cbn. split_and!; try done. destruct (listeners c) as [s|]; cbn; [|done].
  intros x. rewrite !elem_of_elements. set_solver.
Qed.
Hint Resolve keeps_drop_dialer keeps_drop_listener : go.
Lemma keeps_remDialer d : keeps w0 (remDialer d).
Proof. unfold remDialer. keeps_tac. Qed.
Hint Resolve keeps_remDialer : go.
Lemma keeps_pipeClosed d : keeps w0 (pipeClosed d).
Proof. unfold pipeClosed. keeps_tac. Qed.
Lemma keeps_StopDial a : keeps w0 (StopDial a).
Proof. unfold StopDial. keeps_tac. Qed.
Lemma keeps_StopListen a : keeps w0 (StopListen a).
Proof. unfold StopListen. keeps_tac. Qed.
Lemma keeps_ClosePipe i : keeps w0 (ClosePipe i).
Proof. unfold ClosePipe, GetPipe. keeps_tac. Qed.
Lemma keeps_SetNegotiator n : keeps w0 (SetNegotiator n).
Proof. unfold SetNegotiator. apply keeps_ctor. by intros c. Qed.
Lemma keeps_sub_options ovs : keeps w0 (sub_options ovs).
Proof.
  intros w r w' Hw. unfold sub_options. destruct (NewOptionsWithValuesAndSubs _ _ _ _) as [[r1 s1]|]; [|done].
  intros H. revert w r w' Hw H. change (keeps w0 (set_store (sets s1) ;; mret r1)). keeps_tac.
Qed.
End keeps_ops.

#[export] Hint Resolve keeps_stop_timer keeps_AfterFunc keeps_new_cpipe keeps_reconn keeps_dialer_Close
  keeps_listener_Close keeps_Dial keeps_dial_begin keeps_dial_done keeps_dial_failed keeps_serve_round
  keeps_pipe_Close_begin keeps_recycle keeps_pipeClosed keeps_StopDial keeps_StopListen keeps_ClosePipe
  keeps_SetNegotiator keeps_sub_options : go.

(** ** Starting and stopping *)

(** Everything but the flags is as in [from]. *)
Record from_but_flags (w0 w : cworld) : Prop := {
  ff_ctor : ctor w = ctor w0;
  ff_events : events w = events w0;
  ff_tasks : ∀ t, t ∈ tasks w0 → t ∈ tasks w }.

#[global] Instance from_but_flags_preorder : PreOrder from_but_flags.
Proof. split; [by split|]. intros w1 w2 w3 [] []. split; [congruence|congruence|eauto]. Qed.

(** [d]'s flag is [b], the others' flags are unchanged or [b]. *)
Record flagged_d (b : bool) (d : nat) (w w' : cworld) : Prop := {
  fd_rest : from_but_flags w w';
  fd_ltab : ltab w' = ltab w;
  fd_flag : ∀ b', dflag w' d b' → b' = b;
  fd_others : ∀ d' b', d' ≠ d → dflag w' d' b' → dflag w d' b' }.

Lemma dflag_putd d x w w' d' b :
  putd d x w = Ret ((), w') → dflag w' d' b → (d' = d ∧ b = stopped x) ∨ (d' ≠ d ∧ dflag w d' b).
Proof.
  intros [= <-] (y & Hy & <-). cbn in Hy. destruct (decide (d = d')) as [<-|Hne].
  - rewrite lookup_insert_eq in Hy. injection Hy as <-. by left.
  - rewrite lookup_insert_ne in Hy by done. right. split; [done|]. by exists y.
Qed.

Lemma dflag_eq w w' d b : dtab w' = dtab w → dflag w' d b → dflag w d b.
Proof. unfold dflag. by intros ->. Qed.

Lemma get_opt_inv {A} (g : value → outcome A) r opt w a w' : get_opt g r opt w = Ret (a, w') → w' = w.
Proof.
  unfold get_opt. destruct (GetOptionDefault _ _ _) as [v|]; [|done]. destruct (g v); [|done].
  by intros [= _ <-].
Qed.

Lemma getd_inv d w x w' : getd d w = Ret (x, w') → w' = w ∧ dtab w !! d = Some x.
Proof. unfold getd, deref. destruct (dtab w !! d); [|done]. by intros [= -> <-]. Qed.
Lemma getl_inv l w x w' : getl l w = Ret (x, w') → w' = w ∧ ltab w !! l = Some x.
Proof. unfold getl, deref. destruct (ltab w !! l); [|done]. by intros [= -> <-]. Qed.
Lemma getp_inv p w x w' : getp p w = Ret (x, w') → w' = w ∧ ptab w !! p = Some x.
Proof. unfold getp, deref. destruct (ptab w !! p); [|done]. by intros [= -> <-]. Qed.

Lemma reconn_rest d w b w' :
  reconn d w = Ret (b, w') → ctor w' = ctor w ∧ events w' = events w ∧ ltab w' = ltab w ∧ tasks w' = tasks w.
Proof.
  unfold reconn. intros (x & w1 & [-> Hx]%getd_inv & H)%M_bind_Ret.
  destruct (d_closedq x); [by injection H as _ <-|].
  apply M_bind_Ret in H as (r & w2 & Hr & H). apply get_opt_inv in Hr as ->.
  destruct r; [|by injection H as _ <-]. cbn [negb] in H.
  apply M_bind_Ret in H as ([] & w3 & Hs & H). apply M_bind_Ret in H as (t & w4 & Ht & H).
  assert (ctor w3 = ctor w ∧ events w3 = events w ∧ ltab w3 = ltab w ∧ tasks w3 = tasks w) as Hw3.
  { unfold stop_timer in Hs. destruct (redialer x); by injection Hs as <-. }
  injection Ht as _ <-. injection H as _ <-. exact Hw3.
Qed.

Lemma dialer_stop_flag d w w' : dialer_stop d w = Ret ((), w') → flagged_d true d w w'.
Proof.
  unfold dialer_stop. intros (x & w1 & [-> Hx]%getd_inv & H)%M_bind_Ret.
  destruct (stopped x) eqn:Es.
  - injection H as <-. split; [done|done| |done]. intros b' (y & Hy & <-). rewrite Hx in Hy. by injection Hy as <-.
  - apply M_bind_Ret in H as ([] & w2 & Hp & H).
    assert (dtab w' = dtab w2 ∧ from_but_flags w2 w' ∧ ltab w' = ltab w2) as (Ed & Hr & El).
    { unfold stop_timer in H. destruct (redialer x); injection H as <-; split_and!; done. }
    assert (from_but_flags w w2 ∧ ltab w2 = ltab w) as [Hr2 El2] by (by injection Hp as <-).
    split; [by etrans|congruence|..].
    + intros b' Hb. apply (dflag_eq _ _ _ _ Ed) in Hb.
      destruct (dflag_putd _ _ _ _ _ _ Hp Hb) as [[_ ->]|[? _]]; done.
    + intros d' b' Hne Hb. apply (dflag_eq _ _ _ _ Ed) in Hb.
      destruct (dflag_putd _ _ _ _ _ _ Hp Hb) as [[? _]|[_ ?]]; done.
Qed.

Lemma dialer_start_flag d w w' : dialer_start d w = Ret ((), w') → flagged_d false d w w'.
Proof.
  unfold dialer_start. intros (x & w1 & [-> Hx]%getd_inv & H)%M_bind_Ret.
  destruct (stopped x) eqn:Es; cbn [negb] in H.
  2: { injection H as <-. split; [done|done| |done]. intros b' (y & Hy & <-). rewrite Hx in Hy. by injection Hy as <-. }
  apply M_bind_Ret in H as ([] & w2 & Hp & H). apply M_bind_Ret in H as (b & w3 & Hr & H).
  injection H as <-. pose proof (keeps_reconn w2 d w2 b w3 (reflexivity _) Hr) as Hk.
  apply reconn_rest in Hr as (Ec & Ee & El & Et).
  assert (from_but_flags w w2 ∧ ltab w2 = ltab w) as [Hr2 El2] by (by injection Hp as <-).
  split.
  - etrans; [exact Hr2|]. split; [done|done|]. by rewrite Et.
  - congruence.
  - intros b' Hb. apply (fr_dflag _ _ Hk) in Hb.
    destruct (dflag_putd _ _ _ _ _ _ Hp Hb) as [[_ ->]|[? _]]; done.
  - intros d' b' Hne Hb. apply (fr_dflag _ _ Hk) in Hb.
    destruct (dflag_putd _ _ _ _ _ _ Hp Hb) as [[? _]|[_ ?]]; done.
Qed.

Record flagged_l (b : bool) (l : nat) (w w' : cworld) : Prop := {
  fl_rest : from_but_flags w w';
  fl_dtab : dtab w' = dtab w;
  fl_flag : ∀ b', lflag w' l b' → b' = b;
  fl_others : ∀ l' b', l' ≠ l → lflag w' l' b' → lflag w l' b' }.

Lemma putl_flag l x w w' : putl l x w = Ret ((), w') → flagged_l (l_stopped x) l w w'.
Proof.
  intros [= <-]. split; [done|done|..].
  - intros b' (y & Hy & <-). cbn in Hy. rewrite lookup_insert_eq in Hy. by injection Hy as <-.
  - intros l' b' Hne (y & Hy & <-). cbn in Hy. rewrite lookup_insert_ne in Hy by done. by exists y.
Qed.

Lemma getl_flag_id l x w b : ltab w !! l = Some x → l_stopped x = b → flagged_l b l w w.
Proof. intros Hx <-. split; [done|done| |done]. intros b' (y & Hy & <-). rewrite Hx in Hy. by injection Hy as <-. Qed.

Lemma listener_stop_flag l w w' : listener_stop l w = Ret ((), w') → flagged_l true l w w'.
Proof.
  unfold listener_stop. intros (x & w1 & [-> Hx]%getl_inv & H)%M_bind_Ret.
  destruct (l_stopped x) eqn:Es; [injection H as <-; by eapply getl_flag_id|]. by apply putl_flag in H.
Qed.
Lemma listener_start_flag l w w' : listener_start l w = Ret ((), w') → flagged_l false l w w'.
Proof.
  unfold listener_start. intros (x & w1 & [-> Hx]%getl_inv & H)%M_bind_Ret.
  destruct (l_stopped x) eqn:Es; [by apply putl_flag in H|injection H as <-; by eapply getl_flag_id].
Qed.

(** Doing it to every member of a list. *)
Lemma for_each_d b (f : nat → C unit) l w w' :
  (∀ d w w', f d w = Ret ((), w') → flagged_d b d w w') → for_each l f w = Ret ((), w') →
  from_but_flags w w' ∧ ltab w' = ltab w ∧ (∀ d b', d ∈ l → dflag w' d b' → b' = b).
Proof.
  intros Hf. revert w. induction l as [|d l IH]; intros w H; cbn in H.
  { injection H as <-. split_and!; [done|done|]. intros d b' Hd. by apply not_elem_of_nil in Hd. }
  apply M_bind_Ret in H as ([] & w1 & H1 & H2). destruct (Hf _ _ _ H1) as [Hr El Hb Ho].
  destruct (IH w1 H2) as (Hr2 & El2 & Hall). split_and!; [by etrans|congruence|].
  intros d' b' Hd Hb'. destruct (decide (d' ∈ l)) as [Hin|Hni]; [by eapply Hall|].
  apply elem_of_cons in Hd as [->|]; [|done].
  apply Hb. clear -Hf H2 Hb' Hni. revert w1 H2. induction l as [|e l IH]; intros w1 H2; cbn in H2.
  { injection H2 as <-. done. }
  apply M_bind_Ret in H2 as ([] & w2 & H1 & H2). apply not_elem_of_cons in Hni as [Hne Hni].
  apply (fd_others _ _ _ _ (Hf _ _ _ H1)); [done|]. by apply IH.
Qed.

Lemma for_each_l b (f : nat → C unit) l w w' :
  (∀ d w w', f d w = Ret ((), w') → flagged_l b d w w') → for_each l f w = Ret ((), w') →
  from_but_flags w w' ∧ dtab w' = dtab w ∧ (∀ d b', d ∈ l → lflag w' d b' → b' = b).
Proof.
  intros Hf. revert w. induction l as [|d l IH]; intros w H; cbn in H.
  { injection H as <-. split_and!; [done|done|]. intros d b' Hd. by apply not_elem_of_nil in Hd. }
  apply M_bind_Ret in H as ([] & w1 & H1 & H2). destruct (Hf _ _ _ H1) as [Hr El Hb Ho].
  destruct (IH w1 H2) as (Hr2 & El2 & Hall). split_and!; [by etrans|congruence|].
  intros d' b' Hd Hb'. destruct (decide (d' ∈ l)) as [Hin|Hni]; [by eapply Hall|].
  apply elem_of_cons in Hd as [->|]; [|done].
  apply Hb. clear -Hf H2 Hb' Hni. revert w1 H2. induction l as [|e l IH]; intros w1 H2; cbn in H2.
  { injection H2 as <-. done. }
  apply M_bind_Ret in H2 as ([] & w2 & H1 & H2). apply not_elem_of_cons in Hni as [Hne Hni].
  apply (fl_others _ _ _ _ (Hf _ _ _ H1)); [done|]. by apply IH.
Qed.

(** Every dialer and listener of the connector has the flag [b]. *)
Definition all_flags (b : bool) (w : cworld) : Prop :=
  (∀ d b', d ∈ elems (dialers (ctor w)) → dflag w d b' → b' = b) ∧
  (∀ l b', l ∈ elems (listeners (ctor w)) → lflag w l b' → b' = b).

Lemma connecting_flags b (fl fd : nat → C unit) w w' :
  (∀ d w w', fl d w = Ret ((), w') → flagged_l b d w w') →
  (∀ d w w', fd d w = Ret ((), w') → flagged_d b d w w') →
  (for_each (elems (listeners (ctor w))) fl ;; for_each (elems (dialers (ctor w))) fd) w = Ret ((), w') →
  from_but_flags w w' ∧ all_flags b w'.
Proof.
  intros Hl Hd ([] & w1 & H1 & H2)%M_bind_Ret.
  destruct (for_each_l b fl _ _ _ Hl H1) as (Hr1 & _ & Hall1).
  destruct (for_each_d b fd _ _ _ Hd H2) as (Hr2 & El & Hall2).
  pose proof (ff_ctor _ _ Hr1) as E1. pose proof (ff_ctor _ _ Hr2) as E2.
  split; [by etrans|]. split; intros x b' Hx Hb; rewrite E2, E1 in Hx.
  - by eapply Hall2.
  - eapply Hall1; [done|]. unfold lflag in *. by rewrite <- El.
Qed.

Lemma startConnecting_run w w' :
  startConnecting w = Ret ((), w') → from_but_flags w w' ∧ all_flags false w'.
Proof.
  unfold startConnecting. intros (c & w1 & Hc & H)%M_bind_Ret. injection Hc as <- <-.
  eapply connecting_flags; [apply listener_start_flag|apply dialer_start_flag|exact H].
Qed.
Lemma stopConnecting_run w w' :
  stopConnecting w = Ret ((), w') → from_but_flags w w' ∧ all_flags true w'.
Proof.
  unfold stopConnecting. intros (c & w1 & Hc & H)%M_bind_Ret. injection Hc as <- <-.
  eapply connecting_flags; [apply listener_stop_flag|apply dialer_stop_flag|exact H].
Qed.

(** ** checkLimit *)

(** The limit is reached. *)
Definition full (w : cworld) : bool := negb (limit (ctor w) =? -1) && (limit (ctor w) <=? len (pipes (ctor w))).

Definition synced (w : cworld) : Prop := c_closed (ctor w) = true ∨ all_flags (full w) w.

Lemma full_ctor w w' : ctor w' = ctor w → full w' = full w.
Proof. unfold full. by intros ->. Qed.

Lemma checkLimit_run b w w' :
  checkLimit b w = Ret ((), w') →
  from_but_flags w w' ∧ (b = true ∨ limit (ctor w) ≠ -1 ∨ synced w → synced w').
Proof.
  unfold checkLimit. intros (c & w1 & Hc & H)%M_bind_Ret. injection Hc as <- <-.
  destruct (c_closed (ctor w)) eqn:Ec; [injection H as <-; split; [done|]; by left|].
  destruct (Z.eqb_spec (limit (ctor w)) (-1)) as [El|El].
  - destruct b.
    + apply startConnecting_run in H as [Hr Hall]. split; [done|]. intros _. right.
      rewrite (full_ctor w) by apply Hr. unfold full. by rewrite El.
    + injection H as <-. split; [done|]. intros [?|[?|?]]; done.
  - destruct (Z.ltb_spec (len (pipes (ctor w))) (limit (ctor w))) as [Hlt|Hge].
    + apply startConnecting_run in H as [Hr Hall]. split; [done|]. intros _. right.
      rewrite (full_ctor w) by apply Hr. unfold full. rewrite (proj2 (Z.leb_gt _ _)) by lia.
      by rewrite andb_false_r.
    + apply stopConnecting_run in H as [Hr Hall]. split; [done|]. intros _. right.
      rewrite (full_ctor w) by apply Hr. unfold full.
      rewrite (proj2 (Z.leb_le _ _)), (proj2 (Z.eqb_neq _ _)) by lia. done.
Qed.
