(* ===== verification/ConnectorThms.v ===== *)
(** Theorems on the connector: the pipe limit, who is stopped, what the event handler sees,
    and the two states it cannot leave properly. *)
From S2P Require Import Prelude Errs Message IdGen Options OptionSet OptionReg Pipe Connector ConnectorFacts.
From stdpp Require Import base tactics numbers list gmap sets strings relations.
From Stdlib Require Import ZArith Lia.
Open Scope Z_scope.

(** ** The operations that change the pipes *)

Lemma call_handler_run e i w w' :
  call_handler e i w = Ret ((), w') →
  w' = mkWorld (ostore w) (gen w) (ctor w) (dtab w) (ltab w) (ptab w) (timers w) (tasks w)
         (if pipeEventHandler (ctor w) then (e, i) :: events w else events w) (fresh_ref w).
Proof.
  unfold call_handler. intros (c & w1 & Hc & H)%M_bind_Ret. injection Hc as <- <-.
  destruct (pipeEventHandler (ctor w)); injection H as <-; by destruct w.
Qed.

(** How the set of pipes and the log of events can change together. *)
Record changed (e : PipeEvent) (i : Z) (w w' : cworld) : Prop := {
  ch_limit : limit (ctor w') = limit (ctor w);
  ch_closed : c_closed (ctor w') = c_closed (ctor w);
  ch_handler : pipeEventHandler (ctor w') = pipeEventHandler (ctor w);
  ch_events : events w' = if pipeEventHandler (ctor w) then (e, i) :: events w else events w;
  ch_tasks : ∀ t, t ∈ tasks w → t ∈ tasks w' }.

Lemma addPipe_run p verdict w w' :
  addPipe p verdict w = Ret ((), w') →
  from w w' ∨
  ∃ m i, changed PipeEventAdd i w w' ∧ pipes (ctor w) = Some m ∧ pipes (ctor w') = Some (<[i := p]> m) ∧
    (limit (ctor w) = -1 ∨ Z.of_nat (size m) < limit (ctor w)) ∧
    (limit (ctor w) ≠ -1 ∨ synced w → synced w').
Proof.
  unfold addPipe. intros (c & w1 & Hc & H)%M_bind_Ret. injection Hc as <- <-.
  apply M_bind_Ret in H as (x & w1 & [-> Hx]%getp_inv & H).
  destruct (negotiator (ctor w) && _); [injection H as <-; by left|].
  destruct ((limit (ctor w) =? -1) || (limit (ctor w) >? len (pipes (ctor w)))) eqn:El.
  2: { left. exact (keeps_spawn w _ w () w' (reflexivity _) H). }
  destruct (pipes (ctor w)) as [m|] eqn:Em; [|done]. right.
  apply M_bind_Ret in H as ([] & w1 & Hu & H). injection Hu as <-.
  apply M_bind_Ret in H as ([] & w2 & Hh & H). apply call_handler_run in Hh.
  apply checkLimit_run in H as [Hr Hs]. exists m, (ID (obj x)).
  assert (ctor w2 = with_maps (dialers (ctor w)) (listeners (ctor w)) (Some (<[ID (obj x) := p]> m)) (ctor w)) as Ec
    by (by subst w2).
  pose proof (ff_ctor _ _ Hr) as Ec'. split_and!.
  - split; rewrite ?Ec', ?Ec; try done.
    + rewrite (ff_events _ _ Hr). by subst w2.
    + intros t Ht. apply (ff_tasks _ _ Hr). by subst w2.
  - done.
  - by rewrite Ec', Ec.
  - apply orb_true_iff in El as [?%Z.eqb_eq|Hgt]; [by left|right].
    rewrite Z.gtb_ltb in Hgt. by apply Z.ltb_lt in Hgt.
  - intros Hor. apply Hs. rewrite Ec. cbn. destruct (decide (limit (ctor w) = -1)) as [Hl|Hl]; [|by right; left].
    right; right. destruct Hor as [?|[Hcl|[H1 H2]]]; [done|left; by rewrite Ec|right].
    assert (full w2 = full w) as Ef by (unfold full; rewrite Ec; cbn; by rewrite Hl).
    rewrite Ef. split; [intros d b Hd Hb; apply (H1 d)|intros l b Hd Hb; apply (H2 l)]; subst w2; done.
Qed.

Lemma remPipe_run p w w' :
  remPipe p w = Ret ((), w') →
  ∃ i, changed PipeEventRemove i w w' ∧ pipes (ctor w') = delete i <$> pipes (ctor w) ∧
    TCheckLimit p ∈ tasks w' ∧ (limit (ctor w) = -1 → synced w → synced w').
Proof.
  unfold remPipe. intros (x & w1 & [-> Hx]%getp_inv & H)%M_bind_Ret.
  apply M_bind_Ret in H as ([] & w1 & Hu & H). injection Hu as <-.
  apply M_bind_Ret in H as ([] & w2 & Hh & H). apply call_handler_run in Hh.
  apply M_bind_Ret in H as ([] & w3 & H3 & H). injection H as <-. exists (ID (obj x)).
  assert (∃ l, w3 = mkWorld (ostore w2) (gen w2) (ctor w2) (dtab w2) (ltab w2) (ptab w2) (timers w2)
    (l ++ tasks w2) (events w2) (fresh_ref w2)) as [l ->].
  { destruct (p_d x); injection H3 as <-; [by eexists [_]|exists []; by destruct w2]. }
  subst w2. cbn. split_and!; [|done|left|].
  - split; try done. cbn. intros t Ht. right. apply elem_of_app. by right.
  - intros Hl [Hc|[H1 H2]]; [left; done|right].
    unfold full in *. cbn in *. rewrite Hl in *. cbn in *. split; [exact H1|exact H2].
Qed.

(** Neither the pipes, the limit nor the log change. *)
Record same (w w' : cworld) : Prop := {
  sm_limit : limit (ctor w') = limit (ctor w);
  sm_pipes : pipes (ctor w') = pipes (ctor w);
  sm_closed : c_closed (ctor w') = c_closed (ctor w);
  sm_handler : pipeEventHandler (ctor w') = pipeEventHandler (ctor w);
  sm_events : events w' = events w;
  sm_tasks : ∀ t, t ∈ tasks w → t ∈ tasks w' }.

#[global] Instance same_preorder : PreOrder same.
Proof. split; [by split|]. intros w1 w2 w3 [] []. split; try congruence; eauto. Qed.

Lemma from_same w w' : from w w' → same w w'.
Proof. by intros []. Qed.
Lemma but_flags_same w w' : from_but_flags w w' → same w w'.
Proof. intros [E ? ?]. by split; rewrite ?E. Qed.
#[local] Hint Resolve from_same but_flags_same : go.

Lemma same_full w w' : same w w' → full w' = full w.
Proof. intros []. unfold full. by rewrite sm_limit0, sm_pipes0. Qed.

Lemma from_synced w w' : from w w' → synced w → synced w'.
Proof.
  intros Hf [Hc|[H1 H2]]; [left; by rewrite (fr_closed _ _ Hf)|right].
  rewrite (same_full _ _ (from_same _ _ Hf)). destruct Hf. split; eauto.
Qed.

(** A new dialer or listener joins with the flag its connector calls for. *)
Lemma elems_insert d (s : option (gset nat)) x :
  x ∈ elems ((λ s, {[d]} ∪ s) <$> s) → x = d ∨ x ∈ elems s.
Proof. destruct s as [s|]; cbn; [|by right]. rewrite !elem_of_elements. set_solver. Qed.

Lemma NewDialer_run a ovs tr w x w' :
  NewDialer a ovs tr w = Ret (x, w') → same w w' ∧ (synced w → synced w').
Proof.
  unfold NewDialer. intros (c & w1 & Hc & H)%M_bind_Ret. injection Hc as <- <-.
  destruct (c_closed (ctor w)) eqn:Ecl; [by injection H as _ <-|].
  destruct tr as [[e|]|]; [by injection H as _ <-| |by injection H as _ <-].
  apply M_bind_Ret in H as (o & w1 & H1 & H). pose proof (keeps_sub_options w ovs w o w1 (reflexivity _) H1) as F1.
  apply M_bind_Ret in H as (d & w2 & H2 & H). pose proof (keeps_new_ref w w1 d w2 F1 H2) as F2.
  apply M_bind_Ret in H as ([] & w3 & H3 & H). apply M_bind_Ret in H as ([] & w4 & H4 & H).
  apply M_bind_Ret in H as ([] & w5 & H5 & H). injection H as _ <-. injection H5 as <-.
  assert (same w2 w3) as S3 by (by injection H3 as <-).
  assert (flagged_d (full w) d w3 w4) as F4.
  { fold (full w) in H4. destruct (full w); [by apply dialer_stop_flag|]. injection H4 as <-.
    split; [done|done| |done]. intros b Hb.
    by destruct (dflag_putd _ _ _ _ _ _ H3 Hb) as [[_ ->]|[? _]]. }
  assert (same w w4) as S4.
  { etrans; [exact (from_same _ _ F2)|]. etrans; [exact S3|apply but_flags_same, F4]. }
  split.
  { destruct S4. by split. }
  intros [Hcl|[H1' H2']]; [by rewrite Ecl in Hcl|right].
  assert (∀ w5, same w w5 → full w5 = full w) as Hfull by (intros; by apply same_full).
  match goal with |- all_flags (full ?w5) _ => rewrite (Hfull w5) by (destruct S4; by split) end.
  pose proof (ff_ctor _ _ (fd_rest _ _ _ _ F4)) as Ec.
  assert (ctor w3 = ctor w2) as Ec3 by (by injection H3 as <-).
  split; intros y b Hy Hb; cbn in Hy; rewrite Ec, Ec3 in Hy.
  - apply elems_insert in Hy. destruct (decide (y = d)) as [->|Hne]; [by apply (fd_flag _ _ _ _ F4)|].
    destruct Hy as [?|Hy]; [done|]. apply (fd_others _ _ _ _ F4) in Hb; [|done].
    destruct (dflag_putd _ _ _ _ _ _ H3 Hb) as [[? _]|[_ Hb']]; [done|].
    apply (H1' y); [by apply (fr_dialers _ _ F2)|by apply (fr_dflag _ _ F2)].
  - assert (lflag w2 y b) as Hb'.
    { unfold lflag in *. cbn in Hb. rewrite (fd_ltab _ _ _ _ F4) in Hb. by injection H3 as <-. }
    apply (H2' y); [by apply (fr_listeners _ _ F2)|by apply (fr_lflag _ _ F2)].
Qed.

Lemma NewListener_run a ovs tr w x w' :
  NewListener a ovs tr w = Ret (x, w') → same w w' ∧ (synced w → synced w').
Proof.
  unfold NewListener. intros (c & w1 & Hc & H)%M_bind_Ret. injection Hc as <- <-.
  destruct (c_closed (ctor w)) eqn:Ecl; [by injection H as _ <-|].
  destruct tr as [[e|]|]; [by injection H as _ <-| |by injection H as _ <-].
  apply M_bind_Ret in H as (o & w1 & H1 & H). pose proof (keeps_sub_options w ovs w o w1 (reflexivity _) H1) as F1.
  apply M_bind_Ret in H as (d & w2 & H2 & H). pose proof (keeps_new_ref w w1 d w2 F1 H2) as F2.
  apply M_bind_Ret in H as ([] & w3 & H3 & H). apply M_bind_Ret in H as ([] & w4 & H4 & H).
  apply M_bind_Ret in H as ([] & w5 & H5 & H). injection H as _ <-. injection H5 as <-.
  pose proof (putl_flag _ _ _ _ H3) as F3.
  assert (flagged_l (full w) d w3 w4) as F4.
  { fold (full w) in H4. destruct (full w); [by apply listener_stop_flag|]. injection H4 as <-.
    split; [done|done| |done]. apply (fl_flag _ _ _ _ F3). }
  assert (same w w4) as S4.
  { etrans; [exact (from_same _ _ F2)|]. etrans; [apply but_flags_same, F3|apply but_flags_same, F4]. }
  split.
  { destruct S4. by split. }
  intros [Hcl|[H1' H2']]; [by rewrite Ecl in Hcl|right].
  assert (∀ w5, same w w5 → full w5 = full w) as Hfull by (intros; by apply same_full).
  match goal with |- all_flags (full ?w5) _ => rewrite (Hfull w5) by (destruct S4; by split) end.
  pose proof (ff_ctor _ _ (fl_rest _ _ _ _ F4)) as Ec. pose proof (ff_ctor _ _ (fl_rest _ _ _ _ F3)) as Ec3.
  split; intros y b Hy Hb; cbn in Hy; rewrite Ec, Ec3 in Hy.
  - assert (dflag w2 y b) as Hb'.
    { unfold dflag in *. cbn in Hb. by rewrite (fl_dtab _ _ _ _ F4), (fl_dtab _ _ _ _ F3) in Hb. }
    apply (H1' y); [by apply (fr_dialers _ _ F2)|by apply (fr_dflag _ _ F2)].
  - apply elems_insert in Hy. destruct (decide (y = d)) as [->|Hne]; [by apply (fl_flag _ _ _ _ F4)|].
    destruct Hy as [?|Hy]; [done|]. apply (fl_others _ _ _ _ F4) in Hb; [|done].
    apply (fl_others _ _ _ _ F3) in Hb; [|done].
    apply (H2' y); [by apply (fr_listeners _ _ F2)|by apply (fr_lflag _ _ F2)].
Qed.

(** ** What one step does *)

Definition effect (w w' : cworld) : Prop :=
  (same w w' ∧ (synced w → synced w')) ∨
  (∃ m i p, changed PipeEventAdd i w w' ∧ pipes (ctor w) = Some m ∧ pipes (ctor w') = Some (<[i := p]> m) ∧
    (limit (ctor w) = -1 ∨ Z.of_nat (size m) < limit (ctor w)) ∧
    (limit (ctor w) ≠ -1 ∨ synced w → synced w')) ∨
  (∃ i p, changed PipeEventRemove i w w' ∧ pipes (ctor w') = delete i <$> pipes (ctor w) ∧
    TCheckLimit p ∈ tasks w' ∧ (limit (ctor w) = -1 → synced w → synced w')).

Lemma keeps_effect {A} (op : C A) w a w' : (∀ w0, keeps w0 op) → op w = Ret (a, w') → effect w w'.
Proof.
  intros Hk H. pose proof (Hk w w a w' (reflexivity _) H) as Hf. left.
  split; [by apply from_same|by apply from_synced].
Qed.

Lemma changed_then_spawn e i w w1 t w' : changed e i w w1 → spawn t w1 = Ret ((), w') → changed e i w w'.
Proof. intros [] [= <-]. split; try done. intros t' Ht. right. by apply ch_tasks0. Qed.

Lemma spawn_rest t w w' : spawn t w = Ret ((), w') → ctor w' = ctor w ∧ (synced w → synced w').
Proof. by intros [= <-]. Qed.

Lemma run_task_effect t answer verdict grown w w' :
  run_task t answer verdict grown w = Ret ((), w') → effect w w'.
Proof.
  destruct t as [d r|d r|p dialed|d|p|p|p|p|d]; cbn [run_task].
  - apply keeps_effect. intros w0. apply keeps_bind; [apply keeps_dial_begin|]. intros []; keeps_tac.
  - apply keeps_effect. intros w0. destruct answer; keeps_tac.
  - intros ([] & w1 & H1 & H2)%M_bind_Ret.
    assert (keeps w1 (match dialed with Some d => spawn (TDialed d) | None => mret () end)) as Hk
      by (destruct dialed; keeps_tac).
    pose proof (Hk w1 () w' (reflexivity _) H2) as Hf.
    destruct (addPipe_run p verdict w w1 H1) as [Hf1|(m & i & Hch & Hp & Hp' & Hl & Hs)].
    + left. assert (from w w') as Hff by (by etrans). split; [by apply from_same|by apply from_synced].
    + right; left. exists m, i, p. split_and!; [|done| |done|].
      * destruct dialed as [d|]; [by eapply changed_then_spawn|by injection H2 as <-].
      * by rewrite (fr_pipes _ _ Hf).
      * intros Hor. exact (from_synced _ _ Hf (Hs Hor)).
  - apply keeps_effect. intros w0. keeps_tac.
  - apply keeps_effect. intros w0. apply keeps_bind; [apply keeps_pipe_Close_begin|]. intros ?; keeps_tac.
  - intros H. right; right. destruct (remPipe_run p w w' H) as (i & ? & ? & ? & ?). by exists i, p.
  - intros ([] & w1 & H1 & H2)%M_bind_Ret. apply checkLimit_run in H1 as [Hr Hs].
    apply spawn_rest in H2 as Hsp. destruct Hsp as [Ec Hsp]. left. split.
    + etrans; [by apply but_flags_same|]. injection H2 as <-. split; try done. intros t Ht. by right.
    + intros Hsy. apply Hsp, Hs. by right; right.
  - apply keeps_effect. intros w0. keeps_tac.
  - apply keeps_effect. intros w0. keeps_tac.
Qed.

Definition plain_call (k : call) : bool :=
  match k with
  | CSetHandler | CClearHandler | CClose => false
  | COption opt _ => negb (bool_decide (opt = OptionReg.Connector.PipeLimit))
  | _ => true
  end.

Lemma run_call_effect k w w' : plain_call k = true → run_call k w = Ret ((), w') → effect w w'.
Proof.
  destruct k; cbn [run_call plain_call]; intros Hk; try discriminate Hk.
  - apply keeps_effect. intros w0. apply keeps_bind; [apply keeps_Dial|]. intros ?; keeps_tac.
  - intros (x & w1 & H1 & H2)%M_bind_Ret. injection H2 as <-. left. by eapply NewDialer_run.
  - intros (x & w1 & H1 & H2)%M_bind_Ret. injection H2 as <-. left. by eapply NewListener_run.
  - apply keeps_effect. intros w0. apply keeps_bind; [apply keeps_serve_round|]. intros ?; keeps_tac.
  - apply keeps_effect. intros w0. keeps_tac.
  - apply keeps_effect. intros w0. keeps_tac.
  - apply keeps_effect. intros w0. keeps_tac.
  - apply keeps_effect. intros w0. apply keeps_bind; [apply keeps_pipe_Close_begin|]. intros ?; keeps_tac.
  - apply keeps_effect. intros w0. keeps_tac.
  - unfold onOptionChange. apply negb_true_iff in Hk. rewrite Hk.
    intros H. injection H as <-. by left.
Qed.

(** Taking a task or a timer away changes nothing else. *)
Lemma take_task_rest t w w0 :
  take_task t w w0 → ctor w0 = ctor w ∧ events w0 = events w ∧ (synced w → synced w0) ∧
  ∀ t', t' ∈ tasks w → t' = t ∨ t' ∈ tasks w0.
Proof.
  intros (l1 & l2 & E & ->). split_and!; try done. cbn. rewrite E. intros t' Ht.
  apply elem_of_app in Ht as [Ht|Ht]; [right; apply elem_of_app; by left|].
  apply elem_of_cons in Ht as [->|Ht]; [by left|right; apply elem_of_app; by right].
Qed.

(** What the rest of the file uses of a step: its effect from a state that differs from the
    first one by the task that was taken. *)
Lemma cstep_effect w lab w' :
  cstep w lab w' → (∀ k, lab = LCall k → plain_call k = true) →
  ∃ w0, ctor w0 = ctor w ∧ events w0 = events w ∧ (synced w → synced w0) ∧ effect w0 w' ∧
    (∀ p, TCheckLimit p ∈ tasks w → TCheckLimit p ∈ tasks w0 ∨
       (limit (ctor w) ≠ -1 ∨ synced w → synced w')).
Proof.
  intros [t ans v g w1 w0 w1' Ht Hr|t d w1 w0 w1' Ht Hr|k w1 w1' Hr] Hk.
  - destruct (take_task_rest t w1 w0 Ht) as (E1 & E2 & E3 & E4). exists w0.
    split_and!; [done..|by eapply run_task_effect|]. intros p Hp.
    destruct (E4 _ Hp) as [<-|?]; [right|by left]. cbn [run_task] in Hr.
    apply M_bind_Ret in Hr as ([] & w2 & H1 & H2). apply checkLimit_run in H1 as [_ Hs].
    apply spawn_rest in H2 as [_ Hsp]. intros Hor. apply Hsp, Hs. rewrite E1. naive_solver.
  - destruct Ht as (dur & Ht & ->). eexists. split_and!; [..|by eapply keeps_effect; [|exact Hr]; intros; keeps_tac|];
      try done. intros p Hp. by left.
  - exists w1. split_and!; try done; [|by left]. eapply run_call_effect; [|done]. by apply Hk.
Qed.

Lemma size_insert_le (m : gmap Z nat) i p : (size (<[i := p]> m) ≤ S (size m))%nat.
Proof. rewrite map_size_insert. destruct (m !! i); cbn; lia. Qed.
Lemma size_delete_le (m : gmap Z nat) i : (size (delete i m) ≤ size m)%nat.
Proof. rewrite map_size_delete. destruct (m !! i); cbn; lia. Qed.

(** ** Runs *)

Inductive crun (allowed : label → Prop) : cworld → cworld → Prop :=
  | crun_refl w : crun allowed w w
  | crun_step w1 lab w2 w3 : crun allowed w1 w2 → allowed lab → cstep w2 lab w3 → crun allowed w1 w3.

Definition no_limit_change (lab : label) : Prop :=
  ∀ v, lab ≠ LCall (COption OptionReg.Connector.PipeLimit v).

Lemma plain_or lab :
  (∀ k, lab = LCall k → plain_call k = true) ∨ lab = LCall CSetHandler ∨ lab = LCall CClearHandler ∨
  lab = LCall CClose ∨ ∃ v, lab = LCall (COption OptionReg.Connector.PipeLimit v).
Proof.
  destruct lab as [t|d|k]; [by left|by left|]. destruct k; try (left; by intros ? [= <-]); try naive_solver.
  destruct (decide (opt = OptionReg.Connector.PipeLimit)) as [->|Hne]; [naive_solver|].
  left. intros ? [= <-]. cbn. by rewrite bool_decide_eq_false_2.
Qed.

Lemma connector_Close_run w w' :
  connector_Close w = Ret ((), w') → c_closed (ctor w) = false →
  c_closed (ctor w') = true ∧ pipes (ctor w') = None ∧ limit (ctor w') = limit (ctor w).
Proof.
  unfold connector_Close. intros (c & w0 & Hc & H)%M_bind_Ret Hcl. injection Hc as <- <-. rewrite Hcl in H.
  apply M_bind_Ret in H as ([] & w1 & Hu & H). injection Hu as <-. revert H.
  match goal with |- _ ?w1 = _ → _ => set (wc := w1) end. intros H.
  match type of H with ?op _ = _ => assert (keeps wc op) as Hk by keeps_tac end.
  pose proof (Hk wc () w' (reflexivity _) H) as Hf. cbv beta in Hf.
  by rewrite (fr_closed _ _ Hf), (fr_pipes _ _ Hf), (fr_limit _ _ Hf).
Qed.

Lemma connector_Close_closed w w' : connector_Close w = Ret ((), w') → c_closed (ctor w') = true.
Proof.
  destruct (c_closed (ctor w)) eqn:Ec.
  - unfold connector_Close. intros (c & w0 & Hc & H)%M_bind_Ret. injection Hc as <- <-. rewrite Ec in H.
    by injection H as <-.
  - intros H. by destruct (connector_Close_run w w' H Ec).
Qed.

Lemma option_run v w w' :
  onOptionChange OptionReg.Connector.PipeLimit v w = Ret ((), w') → synced w'.
Proof.
  unfold onOptionChange. rewrite bool_decide_eq_true_2 by done.
  destruct (intOption_Value v) as [n|]; [|done]. intros ([] & w1 & Hu & H)%M_bind_Ret.
  apply checkLimit_run in H as [_ Hs]. apply Hs. by left.
Qed.

(** ** Claims *)


(** C9: the connector dials and accepts exactly when it may take another pipe: in every
    interleaving, until it is closed, all its dialers and listeners are stopped if the limit
    is reached and all are started if not - or a removal has freed a place and the check
    that will restart them is still pending; without a limit none is ever stopped. *)
Theorem connecting_follows_limit lim st opts g w :
  crun (λ _, True) (NewWithLimitAndOptions lim st opts g) w → c_closed (ctor w) = false →
  (∀ d x, d ∈ elems (dialers (ctor w)) → dtab w !! d = Some x → stopped x = full w) ∧
  (∀ l x, l ∈ elems (listeners (ctor w)) → ltab w !! l = Some x → l_stopped x = full w) ∨
  (limit (ctor w) ≠ -1 ∧ ∃ p, TCheckLimit p ∈ tasks w).
Proof.
  intros Hrun Hc.
  assert (synced w ∨ (limit (ctor w) ≠ -1 ∧ ∃ p, TCheckLimit p ∈ tasks w)) as [[?|[H1 H2]]|?];
    [clear Hc|congruence|left|by right].
  2: { split; [intros d x Hd Hx; apply (H1 d); [done|by exists x]|intros l x Hd Hx; apply (H2 l); [done|by exists x]]. }
  remember (NewWithLimitAndOptions lim st opts g) as w0 eqn:Ew0.
  induction Hrun as [w|w1 lab w2 w3 Hrun IH Hal Hst].
  { subst w. left; right. split; intros ? ? Hd; cbn in Hd; by apply elem_of_elements, elem_of_empty in Hd. }
  specialize (IH Ew0). clear Hrun Ew0 w1 Hal.
  destruct (plain_or lab) as [Hpl|[->|[->|[->|[v ->]]]]].
  - destruct (cstep_effect _ _ _ Hst Hpl) as (w & E1 & _ & Hsy & Heff & Hpend).
    assert (synced w ∨ (limit (ctor w) ≠ -1 ∧ ∃ p, TCheckLimit p ∈ tasks w) ∨ synced w3) as Hcase.
    { destruct IH as [IH|[Hl [p Hp]]]; [left; by apply Hsy|]. rewrite E1.
      destruct (Hpend p Hp) as [?|Hs]; [right; left; by eauto|right; right; apply Hs; by left]. }
    destruct Hcase as [Hs|[[Hl [p Hp]]|?]]; [| |by left].
    + destruct Heff as [[_ Hk]|[(m & i & p & _ & _ & _ & _ & Hk)|(i & p & [] & _ & Hp & Hk)]].
      * left. by apply Hk.
      * left. apply Hk. by right.
      * destruct (decide (limit (ctor w) = -1)) as [Hl|Hl]; [left; by apply Hk|right].
        split; [congruence|by eauto].
    + destruct Heff as [[[] _]|[(m & i & q & _ & _ & _ & _ & Hk)|(i & q & [] & _ & Hq & _)]].
      * right. split; [congruence|by eauto].
      * left. apply Hk. by left.
      * right. split; [congruence|by eauto].
  - inversion Hst as [| |? ? ? Hr]; subst. by injection Hr as <-.
  - inversion Hst as [| |? ? ? Hr]; subst. by injection Hr as <-.
  - inversion Hst as [| |? ? ? Hr]; subst. left; left. by eapply connector_Close_closed.
  - inversion Hst as [| |? ? ? Hr]; subst. left. by eapply option_run.
Qed.

(** The set of pipe ids a client that follows the events believes in. *)
Definition replay (l : list (PipeEvent * Z)) : gset Z :=
  foldr (λ '(e, i) s, match e with PipeEventAdd => {[i]} ∪ s | PipeEventRemove => s ∖ {[i]} end) ∅ l.

Definition handler_kept (lab : label) : Prop :=
  lab ≠ LCall CSetHandler ∧ lab ≠ LCall CClearHandler ∧ lab ≠ LCall CClose.

(** The handler is set and has seen the pipes come and go. *)
Definition mirrors (w : cworld) : Prop :=
  pipeEventHandler (ctor w) = true ∧ ∃ m, pipes (ctor w) = Some m ∧ replay (events w) = dom m.

Lemma mirrors_new lim st opts g w :
  run_call CSetHandler (NewWithLimitAndOptions lim st opts g) = Ret ((), w) → mirrors w.
Proof. intros [= <-]. split; [done|]. exists ∅. by rewrite dom_empty_L. Qed.

Lemma mirrors_step w2 lab w3 : mirrors w2 → handler_kept lab → cstep w2 lab w3 → mirrors w3.
Proof.
  intros (Hh & m & Hm & Hrep) Hal Hst.
  destruct (plain_or lab) as [Hpl|[->|[->|[->|[v ->]]]]]; try (by destruct Hal as (? & ? & ?)).
  - destruct (cstep_effect _ _ _ Hst Hpl) as (w & E1 & E2 & _ & Heff & _). unfold mirrors. rewrite <- E1, <- E2 in *.
    destruct Heff as [[[] _]|[(m' & i & p & [] & Hp & Hp' & _ & _)|(i & p & [] & Hp & _)]].
    + rewrite sm_handler0, sm_pipes0, sm_events0. by eauto.
    + rewrite ch_handler0, ch_events0, Hh. split; [done|]. rewrite Hm in Hp. injection Hp as <-.
      exists (<[i := p]> m). split; [done|]. unfold replay in *. cbn. by rewrite Hrep, dom_insert_L.
    + rewrite ch_handler0, ch_events0, Hh. split; [done|]. exists (delete i m).
      rewrite Hp, Hm. split; [done|]. unfold replay in *. cbn. by rewrite Hrep, dom_delete_L.
  - inversion Hst as [| |? ? ? Hr]; subst. cbn in Hr. unfold onOptionChange in Hr.
    rewrite bool_decide_eq_true_2 in Hr by done. destruct (intOption_Value v) as [n|]; [|done].
    apply M_bind_Ret in Hr as ([] & w1 & Hu & H). injection Hu as <-.
    apply checkLimit_run in H as [[Ec Ee _] _]. unfold mirrors. rewrite Ec, Ee. cbn. by eauto.
Qed.


(** Closing races with connecting: once [Close] ran, a connection that was dialed or
    accepted before and reaches [addPipe] only now makes the whole process panic, unless
    the limit turns it away: [addPipe] does not look at [closed] and assigns to the nil map. *)
Theorem addPipe_after_Close_panics w w' p x :
  connector_Close w = Ret ((), w') → c_closed (ctor w) = false → ptab w' !! p = Some x →
  limit (ctor w) = -1 ∨ 0 < limit (ctor w) →
  addPipe p None w' = Panics PanicNilMap.
Proof.
  intros HC Hc Hp Hl. destruct (connector_Close_run w w' HC Hc) as (_ & Hn & Hlim).
  unfold addPipe. erewrite M_bind_ret_run by reflexivity.
  erewrite M_bind_ret_run by (unfold getp, deref; by rewrite Hp). rewrite andb_false_r, Hn, Hlim.
  cbn [len]. assert ((limit (ctor w) =? -1) || (limit (ctor w) >? 0) = true) as ->; [|done].
  apply orb_true_iff. rewrite Z.eqb_eq, Z.gtb_ltb, Z.ltb_lt. done.
Qed.

(** ** Executing a schedule *)

Inductive action :=
  | ATask (n : nat) (answer : err + caps) (verdict : option err) (grown : Z)
  | ATimer (t : nat)
  | ACall (k : call).

Definition drop_nth (n : nat) (w : cworld) : cworld :=
  mkWorld (ostore w) (gen w) (ctor w) (dtab w) (ltab w) (ptab w) (timers w) (delete n (tasks w)) (events w) (fresh_ref w).
Definition drop_timer (t : nat) (w : cworld) : cworld :=
  mkWorld (ostore w) (gen w) (ctor w) (dtab w) (ltab w) (ptab w) (delete t (timers w)) (tasks w) (events w) (fresh_ref w).

Definition result {A} (lab : label) (o : outcome (A * cworld)) : option (label * cworld) :=
  match o with Ret (_, w) => Some (lab, w) | Panics _ => None end.

Definition exec1 (a : action) (w : cworld) : option (label * cworld) :=
  match a with
  | ATask n ans v g => t ← tasks w !! n; result (LTask t) (run_task t ans v g (drop_nth n w))
  | ATimer t => '(d, _) ← timers w !! t; result (LTimer d) (spawn (TDial d true) (drop_timer t w))
  | ACall k => result (LCall k) (run_call k w)
  end.

Fixpoint exec (l : list action) (w : cworld) : option (list label * cworld) :=
  match l with
  | [] => Some ([], w)
  | a :: l => '(lab, w1) ← exec1 a w; '(labs, w2) ← exec l w1; Some (lab :: labs, w2)
  end.

Lemma exec1_sound a w lab w' : exec1 a w = Some (lab, w') → cstep w lab w'.
Proof.
  destruct a as [n ans v g|t|k]; cbn.
  - destruct (tasks w !! n) as [t|] eqn:Et; [|done]. cbn. unfold result.
    destruct (run_task t ans v g (drop_nth n w)) as [[[] w1]|] eqn:E; [|done]. intros [= <- <-].
    apply (step_task t ans v g w (drop_nth n w) w1); [|exact E].
    exists (take n (tasks w)), (drop (S n) (tasks w)).
    split; [symmetry; by apply take_drop_middle|]. unfold drop_nth. by rewrite delete_take_drop.
  - destruct (timers w !! t) as [[d dur]|] eqn:Et; [|done]. cbn. intros [= <- <-].
    apply (step_timer t d w (drop_timer t w)); [by exists dur|done].
  - unfold result. destruct (run_call k w) as [[[] w1]|] eqn:E; [|done]. intros [= <- <-]. by apply step_call.
Qed.

Lemma exec_sound (allowed : label → Prop) l w0 w labs w' :
  crun allowed w0 w → exec l w = Some (labs, w') → Forall allowed labs → crun allowed w0 w'.
Proof.
  revert w labs. induction l as [|a l IH]; intros w labs Hr; cbn; [by intros [= <- <-]|].
  destruct (exec1 a w) as [[lab w1]|] eqn:E1; [|done]. cbn.
  destruct (exec l w1) as [[labs1 w2]|] eqn:E2; [|done]. cbn. intros [= <- <-] Hall.
  apply Forall_cons in Hall as [Hlab Hall]. eapply IH; [|exact E2|exact Hall].
  eapply crun_step; [exact Hr|exact Hlab|]. by apply exec1_sound in E1.
Qed.

(** ** Concrete runs *)

(** The option set of a socket's connector, and the connector. *)
Definition base_store : store := [mkOptions ∅ None [] None []].
Definition start_world (lim : Z) : cworld :=
  NewWithLimitAndOptions lim base_store 0 NewRecyclableIDGenerator.

Definition tcp_caps : caps := Caps "tcp" false false.
Definition no_err : option err := None.

(** Listen and accept two connections with limit 1: the second is turned away, and
    the listener (number 0) is stopped. *)
Definition accept_two : list action := [
  ACall (CNewListener "tcp://a" [] (Some None));
  ACall (CAccept 0 (inr tcp_caps)); ACall (CAccept 0 (inr tcp_caps));
  ATask 0 (inl EOF) None 0; ATask 0 (inl EOF) None 0].

Definition end_of (l : list action) (w : cworld) : cworld :=
  match exec l w with Some (_, w') => w' | None => w end.

Lemma exec_end allowed l w :
  is_Some (exec l w) → (∀ labs, fst <$> exec l w = Some labs → Forall allowed labs) →
  crun allowed w (end_of l w).
Proof.
  intros [[labs w'] E] Hall. unfold end_of. rewrite E in *.
  eapply exec_sound; [apply crun_refl|exact E|]. by apply Hall.
Qed.


Lemma connecting_follows_limit_witness :
  let w := end_of accept_two (start_world 1) in
  crun (λ _, True) (start_world 1) w ∧ full w = true ∧
  ∀ l x, l ∈ elems (listeners (ctor w)) → ltab w !! l = Some x → l_stopped x = full w.
Proof.
  cbv zeta. assert (crun (λ _, True) (start_world 1) (end_of accept_two (start_world 1))) as Hr.
  { apply exec_end; [vm_compute; by eexists|]. intros labs _. by apply Forall_true. }
  split; [exact Hr|]. split; [vm_compute; reflexivity|].
  destruct (connecting_follows_limit 1 base_store 0 NewRecyclableIDGenerator _ Hr) as [[_ H]|[_ [p Hp]]];
    [vm_compute; reflexivity|exact H|].
  exfalso. vm_compute in Hp. inversion Hp as [|? ? ? Hp']; subst. inversion Hp'.
Defined.

(** Accept one connection with the handler set, and close it again. *)
Definition accept_and_close : list action := [
  ACall (CNewListener "tcp://a" [] (Some None)); ACall (CAccept 0 (inr tcp_caps));
  ACall (CAccept 0 (inr tcp_caps)); ATask 0 (inl EOF) None 0; ATask 0 (inl EOF) None 0;
  ACall (CClosePipe 1); ATask 0 (inl EOF) None 0; ATask 0 (inl EOF) None 0].
Definition with_handler : cworld :=
  match run_call CSetHandler (start_world (-1)) with Ret (_, w) => w | Panics _ => start_world (-1) end.


(** An accepted connection reaches [addPipe] after [Close]. *)
Definition accepted : cworld :=
  end_of [ACall (CNewListener "tcp://a" [] (Some None)); ACall (CAccept 0 (inr tcp_caps))] (start_world (-1)).
Definition accepted_closed : cworld :=
  match connector_Close accepted with Ret (_, w) => w | Panics _ => accepted end.

Lemma addPipe_after_Close_panics_witness :
  tasks accepted_closed = [TAddPipe 1 None] ∧ addPipe 1 None accepted_closed = Panics PanicNilMap.
Proof.
  split; [vm_compute; reflexivity|].
  destruct (ptab accepted_closed !! 1%nat) as [x|] eqn:E; [|vm_compute in E; discriminate E].
  apply (addPipe_after_Close_panics accepted accepted_closed 1 x).
  - vm_compute. reflexivity.
  - vm_compute. reflexivity.
  - exact E.
  - left. vm_compute. reflexivity.
Defined.

(** A connection that breaks between [addPipe] and the end of [dial]: dial (dialer 0, the
    transport connects, pipe 1 is added), the peer closes the pipe and the pipe's closing
    runs to its end - [connected] is cleared, a redial is scheduled, it finds [dialing]
    still set and gives up - and only then [dial] sets [connected]. *)
Definition early_close : list action := [
  ACall (CNewDialer "tcp://a" [] (Some None)); ACall (CDial 0);
  ATask 0 (inl EOF) None 0; ATask 0 (inr tcp_caps) None 0;
  ATask 0 (inl EOF) None 0;                     (* addPipe: TDialed 0 is left *)
  ACall (CPipeClose 1);
  ATask 0 (inl EOF) None 0;                     (* remPipe *)
  ATask 1 (inl EOF) None 0;                     (* pipeClosed: arms timer 2 *)
  ATask 0 (inl EOF) None 0; ATask 0 (inl EOF) None 0;  (* check the limit, recycle *)
  ATimer 2; ATask 0 (inl EOF) None 0;           (* the redial: already dialing *)
  ATask 0 (inl EOF) None 0].                    (* dial returns *)

(** A dialer can get stuck for good: there is a run from a new connector, with
    reconnecting enabled and nobody closing the connector, to a state in which nothing is
    pending - no task, no timer, no pipe - and yet the dialer counts as connected, so
    that every further dial is refused with [ErrAddrInUse]. *)
Theorem dialer_gets_stuck :
  let w := end_of early_close (start_world (-1)) in
  crun (λ lab, lab ≠ LCall CClose) (start_world (-1)) w ∧
  tasks w = [] ∧ timers w = ∅ ∧ pipes (ctor w) = Some ∅ ∧ c_closed (ctor w) = false ∧
  ∃ x, dtab w !! 0%nat = Some x ∧ connected x = true ∧ d_closedq x = false ∧ stopped x = false ∧
    GetOptionDefault (ostore w) (d_opts x) OptionReg.Connector.Reconnect = Some (VBool true) ∧
    ∃ w', dial_begin 0 w = Ret (inl ErrAddrInUse, w').
Proof.
  cbv zeta. split_and!.
  - apply exec_end; [vm_compute; by eexists|]. intros labs Hl. vm_compute in Hl. injection Hl as <-.
    repeat constructor; discriminate.
  - vm_compute. reflexivity.
  - vm_compute. reflexivity.
  - vm_compute. reflexivity.
  - vm_compute. reflexivity.
  - destruct (dtab (end_of early_close (start_world (-1))) !! 0%nat) as [x|] eqn:E;
      [|vm_compute in E; discriminate E].
    exists x. split; [done|]. vm_compute in E. injection E as <-.
    split_and!; try (vm_compute; reflexivity). eexists. vm_compute. reflexivity.
Qed.
