(* ===== verification/Connecting.v ===== *)
(** From an address line to a dialer: address/address.go, the registry of transports and the
    connector put together.

    The line is parsed by Address.v; the call it stands for goes to the connector of Connector.v,
    which asks the registry of Schemes.v for the transport of the scheme and the transport for a
    dialer or a listener (Inproc.v, Net.v, WsListen.v).  Package net and net/url are parameters, as
    in those files. *)
From S2P Require Import Prelude Errs Message IdGen Options OptionsThms OptionSet OptionSetThms OptionReg Transport Schemes Address.
From S2P Require Inproc Net WsListen.
From S2P Require Import Pipe PipeThms Connector.
From stdpp Require Import base tactics numbers list gmap sets strings.
From Stdlib Require Import ZArith Lia.
Open Scope Z_scope.

(** ** The transports' constructors *)

Section transports.
Context {W A C L W' A' C' L' : Type} (tnet : Net.net_ops W A C L) (unet : Net.net_ops W' A' C' L')
  (ws_Parse : string → err + URL).

(** The error of a call that answers an error or a value *)
Definition failure {X} (r : err + X) : option err := match r with inl e => Some e | inr _ => None end.

Definition transport_NewDialer (t : transport) (a : string) : option err :=
  match t with
  | Tcp => failure (Net.tcp_NewDialer tnet a)
  | Ipc => failure (Net.ipc_NewDialer unet a)
  | WsRw => failure (WsListen.NewDialer ws_Parse WsListen.RwTransport a)
  | WsSr => failure (WsListen.NewDialer ws_Parse WsListen.SrTransport a)
  | ChannelRw | ChannelSr | ChannelMsr | IoPipe | NetPipe => failure (Inproc.NewDialer a)
  end.

Definition transport_NewListener (t : transport) (a : string) : option err :=
  match t with
  | Tcp => failure (Net.tcp_NewListener (L := L) tnet a)
  | Ipc => failure (Net.ipc_NewListener (L := L') unet a)
  | WsRw => failure (WsListen.NewListener (F := unit) ws_Parse WsListen.RwTransport a)
  | WsSr => failure (WsListen.NewListener (F := unit) ws_Parse WsListen.SrTransport a)
  | ChannelRw | ChannelSr | ChannelMsr | IoPipe | NetPipe => failure (Inproc.NewListener a Inproc.NewTransport).1
  end.

(** What the connector gets: no transport, or the answer of the transport. *)
Definition dialer_answer (trs : gmap string transport) (a : string) : option (option err) :=
  (λ t, transport_NewDialer t a) <$> GetTransportFromAddr a trs.
Definition listener_answer (trs : gmap string transport) (a : string) : option (option err) :=
  (λ t, transport_NewListener t a) <$> GetTransportFromAddr a trs.

(** A connector takes addresses; [listening] is what the transport's Listen answers. *)
Definition connector_dials (trs : gmap string transport) (listening : string → option err) :
    DialListener (M cworld (option (option err))) := {|
  Address.DialOptions a m := Connector.DialOptions a (map_to_list m) (dialer_answer trs a);
  Address.ListenOptions a m :=
    e ← Connector.ListenOptions a (map_to_list m) (listener_answer trs a) (listening a); mret (Some e);
  refuse e := mret (Some (Some e)) |}.
End transports.

(** ** Parsing *)

(** A line of which every part is known parses. *)
Lemma line_parses PD url_Parse s u g ct :
  url_Parse s = inr u → locked g = false → connect_type (u_Fragment u) = Some ct →
  (∀ k vs, (k, vs) ∈ Query u → ∃ opt v, sets_option PD g k vs opt v) →
  ∃ m, ParseMultiSocketAddress PD url_Parse s g =
      Some (inr (mkAddress s ct (u_Scheme u +:+ "://" +:+ u_Host u +:+ u_Path u) m), g) ∧
    (∀ opt v, m !! opt = Some v → ∃ k vs, (k, vs) ∈ Query u ∧ sets_option PD g k vs opt v) ∧
    (∀ k vs, (k, vs) ∈ Query u → ∃ opt v, sets_option PD g k vs opt v ∧ is_Some (m !! opt)).
Proof.
  intros Hu Hl Hct Hq. destruct (parse_query_total PD (Query u) ∅ g Hl Hq) as [m Hm].
  exists m. unfold ParseMultiSocketAddress. rewrite Hu, Hct, Hm. split; [done|].
  apply parse_query_inr in Hm as (_ & H1 & H2 & _). split; [|done]. intros opt v [H|H]%H1; [by rewrite lookup_empty in H|done].
Qed.

(** ** The dialer of a connector *)

(** The value of an option in [m] if it is valid, otherwise what the set [c] says *)
Definition given (m : gmap Option value) (st : store) (c : nat) (o : Option) : option (option value) :=
  match m !! o ≫= λ v, match Validate o v with inr v => Some v | inl _ => None end with
  | Some v => Some (Some v)
  | None => GetOption (S c) st c o
  end.

(** A connector that is open, and whose options are well formed *)
Record ready (w : cworld) (ds : gset nat) : Prop := Ready {
  rd_open : c_closed (ctor w) = false;
  rd_dialers : dialers (ctor w) = Some ds;
  rd_store : store_ok (ostore w);
  rd_typed : store_typed (ostore w);
  rd_opts : (c_opts (ctor w) < length (ostore w))%nat }.

Definition at_limit (c : connector) : bool := negb (limit c =? -1) && (limit c <=? len (pipes c)).

(** What a new dialer [d] is, in the world [w'] it was made in. *)
Record new_dialer (w w' : cworld) (ds : gset nat) (a : string) (m : gmap Option value) (d : nat) (x : dialer) : Prop := {
  nd_tab : dtab w' !! d = Some x;
  nd_addr : d_addr x = a;
  nd_open : d_closedq x = false;
  nd_stopped : stopped x = at_limit (ctor w);
  nd_in : dialers (ctor w') = Some ({[d]} ∪ ds);
  nd_fresh : d = fresh_ref w;
  nd_store : store_ok (ostore w');
  nd_typed : store_typed (ostore w');
  nd_opts : (d_opts x < length (ostore w'))%nat;
  nd_given : ∀ o, GetOption (S (d_opts x)) (ostore w') (d_opts x) o = given m (ostore w) (c_opts (ctor w)) o;
  nd_tasks : tasks w' = tasks w }.

(** A new dialer, stopped if the limit is reached *)
Definition started (a : string) (o : nat) (stop : bool) : dialer := mkDialer o a false stop false false false None 0.

Lemma maybe_stop (b : bool) d a o w : dtab w !! d = Some (newDialer a o) →
  ∃ w', (if b then dialer_stop d else mret ()) w = Ret ((), w') ∧ dtab w' !! d = Some (started a o b) ∧
    ostore w' = ostore w ∧ ctor w' = ctor w ∧ tasks w' = tasks w.
Proof.
  intros Hd. destruct b; [|by exists w]. unfold dialer_stop, getd, deref.
  erewrite M_bind_ret_run by (rewrite Hd; reflexivity). cbn [newDialer stopped].
  erewrite M_bind_ret_run by reflexivity. eexists. split; [reflexivity|]. split; [|done].
  cbn. by rewrite lookup_insert_eq.
Qed.

Lemma NewDialer_new w ds a m : ready w ds → (∀ k v, m !! k = Some v → in_range v) →
  ∃ w' x, NewDialer a (map_to_list m) (Some None) w = Ret (inr (fresh_ref w), w') ∧
    new_dialer w w' ds a m (fresh_ref w) x ∧ active x = false.
Proof.
  intros [Ho Hd Hst Hty Hc] Hm. destruct (new_over (ostore w) (c_opts (ctor w)) m Hst Hc) as (o & HN & Hok & Hty' & Hg).
  unfold NewDialer. erewrite M_bind_ret_run by reflexivity. rewrite Ho.
  erewrite M_bind_ret_run by (unfold sub_options; rewrite HN; reflexivity). cbn [sets].
  erewrite M_bind_ret_run by reflexivity. erewrite M_bind_ret_run by reflexivity.
  fold (at_limit (ctor w)).
  match goal with |- context [(mbind _ _) ?w1] => destruct (maybe_stop (at_limit (ctor w)) (fresh_ref w) a
    (length (ostore w)) w1) as (w2 & H2 & Hx & E1 & E2 & E3); [cbn; by rewrite lookup_insert_eq|] end.
  cbn in E1, E2, E3. erewrite M_bind_ret_run by exact H2. erewrite M_bind_ret_run by reflexivity.
  eexists _, _. split; [reflexivity|]. split; [split; cbn; rewrite ?E1, ?E2, ?E3; [exact Hx|..]|]; try done.
  - by rewrite Hd.
  - by apply Hty'.
  - rewrite length_app. cbn. lia.
Qed.

(** Reading an option of a dialer *)
Lemma get_opt_run {A} (assert : value → outcome A) r opt w :
  store_ok (ostore w) → store_typed (ostore w) → (r < length (ostore w))%nat → has_kind (okind opt) (DefaultValue opt) →
  (∀ v, has_kind (okind opt) v → ∃ a, assert v = Ret a) → ∃ a, get_opt assert r opt w = Ret (a, w).
Proof.
  intros Hst Hty Hr Hdef Ha. destruct (option_read (ostore w) opt r Hst Hty Hr Hdef) as (v & _ & E & Hk).
  destruct (Ha v Hk) as [a Hv]. exists a. unfold get_opt. by rewrite E, Hv.
Qed.

(** [Dial] on a new dialer: it is active, and one call of [dial] is under way. *)
Lemma Dial_new d x w :
  dtab w !! d = Some x → d_closedq x = false → active x = false →
  store_ok (ostore w) → store_typed (ostore w) → (d_opts x < length (ostore w))%nat →
  ∃ w' x' (async : bool), Dial d w = Ret (if async then Some None else None, w') ∧
    dialAsync x w = Ret (async, w) ∧ tasks w' = TDial d async :: tasks w ∧
    dtab w' !! d = Some x' ∧ active x' = true ∧ d_addr x' = d_addr x ∧ d_opts x' = d_opts x ∧ stopped x' = stopped x ∧
    ostore w' = ostore w ∧ ctor w' = ctor w.
Proof.
  intros Hd Hc Ha Hst Hty Hr.
  destruct (get_opt_run timeDurationOption_Value (d_opts x) OptionReg.Connector.MinReconnectTime w) as [mn Hmn];
    [done..|cbn; lia|intros [] ?; try done; by eexists|].
  destruct (get_opt_run boolOption_Value (d_opts x) OptionReg.Connector.DialAsync w) as [async Has];
    [done..|intros [] ?; try done; by eexists|].
  set (x' := with_time (with_flags x false (stopped x) true (dialing x) (connected x)) mn).
  set (w1 := mkWorld (ostore w) (gen w) (ctor w) (<[d := x']> (dtab w)) (ltab w) (ptab w) (timers w) (tasks w) (events w) (fresh_ref w)).
  assert (Has' : dialAsync x w1 = Ret (async, w1)).
  { revert Has. unfold dialAsync, get_opt. cbn [ostore w1]. destruct (GetOptionDefault _ _ _) as [v|]; [|done].
    destruct (boolOption_Value v); [|done]. by intros [= <-]. }
  exists (mkWorld (ostore w) (gen w) (ctor w) (<[d := x']> (dtab w)) (ltab w) (ptab w) (timers w) (TDial d async :: tasks w) (events w) (fresh_ref w)), x', async.
  split; [|split; [exact Has|]].
  - unfold Dial, getd, deref. erewrite M_bind_ret_run by (rewrite Hd; reflexivity). cbn beta. rewrite Hc, Ha.
    erewrite M_bind_ret_run by exact Hmn. erewrite M_bind_ret_run by reflexivity. fold x'.
    erewrite M_bind_ret_run by exact Has'. by destruct async.
  - cbn. by rewrite lookup_insert_eq.
Qed.

(** ** Claims *)

(** What a line does at a connector: the call it makes. *)
Lemma line_call (dials : bool) {F} `{!DialListener F} PD url_Parse s ovses u g :
  url_Parse s = inr u → locked g = false → u_Fragment u = (if dials then "dial" else "listen")%string →
  (∀ k vs, (k, vs) ∈ Query u → ∃ opt v, sets_option PD g k vs opt v) →
  ∃ m mm, Connect_line PD url_Parse s ovses g =
      Some (inr ((if dials then Address.DialOptions else Address.ListenOptions)
                   (u_Scheme u +:+ "://" +:+ u_Host u +:+ u_Path u) mm), g) ∧
    (∀ o, mm !! o = last_value (m :: ovses) o) ∧
    (∀ opt v, m !! opt = Some v → ∃ k vs, (k, vs) ∈ Query u ∧ sets_option PD g k vs opt v) ∧
    (∀ k vs, (k, vs) ∈ Query u → ∃ opt v, sets_option PD g k vs opt v ∧ is_Some (m !! opt)).
Proof.
  intros Hu Hl Hf Hq. set (ct := if dials then ConnDial else ConnListen).
  destruct (line_parses PD url_Parse s u g ct Hu Hl) as (m & Hp & H1 & H2); [by rewrite Hf; destruct dials|done|].
  destruct (connect_options_override (mkAddress s ct (u_Scheme u +:+ "://" +:+ u_Host u +:+ u_Path u) m) ovses)
    as (mm & Hmm & HC).
  exists m, mm. split; [|done]. unfold Connect_line, on_line. rewrite Hp. cbn [mbind option_bind]. rewrite HC.
  cbn [connType]. by destruct dials.
Qed.

Lemma last_value_elem (l : list (gmap Option value)) o v : last_value l o = Some v → ∃ m, m ∈ l ∧ m !! o = Some v.
Proof.
  unfold last_value. intros H. assert (Hin : v ∈ omap (λ m : gmap Option value, m !! o) (reverse l)).
  { destruct (omap (λ m : gmap Option value, m !! o) (reverse l)); [done|]. injection H as ->. by left. }
  apply list_elem_of_omap in Hin as (m & Hm & E). rewrite elem_of_reverse in Hm. by exists m.
Qed.

(** The values that reach the connector are in range. *)
Lemma merged_in_range PD (u : URL) g (m mm : gmap Option value) ovses :
  (∀ s, - 2 ^ 63 ≤ (PD s).1 < 2 ^ 63) → (∀ o, mm !! o = last_value (m :: ovses) o) →
  (∀ opt v, m !! opt = Some v → ∃ k vs, (k, vs) ∈ Query u ∧ sets_option PD g k vs opt v) →
  (∀ m k v, m ∈ ovses → m !! k = Some v → in_range v) →
  ∀ k v, mm !! k = Some v → in_range v.
Proof.
  intros HPD Hmm Hm1 Hov k v E. rewrite Hmm in E. apply last_value_elem in E as (m' & Hin' & E).
  apply elem_of_cons in Hin' as [->|Hin'].
  - apply Hm1 in E as (k' & vs & _ & [_ E]). by eapply Parse_in_range.
  - by eapply Hov.
Qed.

(** The transport of an address is the one of its scheme in the table. *)
Lemma address_transport scheme rest l t : no_colon scheme = true → l ≡ₚ inits →
  GetTransportFromAddr (scheme +:+ "://" +:+ rest) (run_inits l) = Some t ↔ (scheme, t) ∈ schemes.
Proof.
  intros Hnc Hin. unfold GetTransportFromAddr, GetTransport. rewrite ParseScheme_app by done. by apply run_inits_lookup.
Qed.

Lemma address_no_transport scheme rest l : no_colon scheme = true → l ≡ₚ inits → scheme ∉ schemes.*1 →
  GetTransportFromAddr (scheme +:+ "://" +:+ rest) (run_inits l) = None.
Proof.
  intros Hnc Hin Hs. destruct (GetTransportFromAddr _ _) as [t|] eqn:E; [|done]. destruct Hs.
  apply list_elem_of_fmap. exists (scheme, t). split; [done|]. by apply (address_transport scheme rest l).
Qed.

(** C10: an address line of which every part is known, with the fragment "dial", given to an open
    connector: there is exactly one new dialer, for the address of the line, active, stopped
    just if the pipe limit is reached, and one call of [dial] is under way; each option of it
    reads as the last of the callers' values, else the line's value, else as the
    connector's own options say (an invalid value counts as absent); the call comes back at once
    exactly when the option DialAsync read this way is set.  A line whose scheme no transport
    has registered is answered ErrBadTransport and changes nothing. *)
Theorem connect_line_dials {W A C L W' A' C' L'} (tnet : Net.net_ops W A C L) (unet : Net.net_ops W' A' C' L')
    ws_Parse PD url_Parse (listening : string → option err) s ovses u g l w ds :
  let a := (u_Scheme u +:+ "://" +:+ u_Host u +:+ u_Path u)%string in
  url_Parse s = inr u → locked g = false → (∀ s, - 2 ^ 63 ≤ (PD s).1 < 2 ^ 63) →
  u_Fragment u = "dial"%string → no_colon (u_Scheme u) = true →
  (∀ k vs, (k, vs) ∈ Query u → ∃ opt v, sets_option PD g k vs opt v) →
  (∀ m k v, m ∈ ovses → m !! k = Some v → in_range v) →
  l ≡ₚ inits → ready w ds →
  (∀ t, (u_Scheme u, t) ∈ schemes → transport_NewDialer tnet unet ws_Parse t a = None) →
  ∃ act, @Connect_line _ (connector_dials tnet unet ws_Parse (run_inits l) listening) PD url_Parse s ovses g = Some (inr act, g) ∧
  if bool_decide (u_Scheme u ∈ schemes.*1) then
    ∃ m w' x (async : bool), act w = Ret (if async then Some None else None, w') ∧
      dtab w' !! fresh_ref w = Some x ∧ d_addr x = a ∧ active x = true ∧ stopped x = at_limit (ctor w) ∧
      dialers (ctor w') = Some ({[fresh_ref w]} ∪ ds) ∧ tasks w' = TDial (fresh_ref w) async :: tasks w ∧
      dialAsync x w' = Ret (async, w') ∧
      (∀ opt v, m !! opt = Some v → ∃ k vs, (k, vs) ∈ Query u ∧ sets_option PD g k vs opt v) ∧
      (∀ k vs, (k, vs) ∈ Query u → ∃ opt v, sets_option PD g k vs opt v ∧ is_Some (m !! opt)) ∧
      ∀ o, GetOption (S (d_opts x)) (ostore w') (d_opts x) o =
        match last_value (m :: ovses) o ≫= λ v, match Validate o v with inr v => Some v | inl _ => None end with
        | Some v => Some (Some v)
        | None => GetOption (S (c_opts (ctor w))) (ostore w) (c_opts (ctor w)) o
        end
  else act w = Ret (Some (Some ErrBadTransport), w).
Proof.
  intros a Hu Hl HPD Hf Hnc Hq Hov Hin Hw Htr.
  destruct (@line_call true _ (connector_dials tnet unet ws_Parse (run_inits l) listening) PD url_Parse s ovses u g Hu Hl Hf Hq)
    as (m & mm & HC & Hmm & Hm1 & Hm2). fold a in HC.
  eexists. split; [exact HC|]. cbn [Address.DialOptions connector_dials]. unfold Connector.DialOptions, dialer_answer.
  case_bool_decide as Hs.
  - apply list_elem_of_fmap in Hs as ([x0 t] & Ex & Ht). cbn in Ex. subst x0.
    assert (HT : GetTransportFromAddr a (run_inits l) = Some t) by (by apply address_transport).
    rewrite HT. cbn [fmap option_fmap option_map]. rewrite (Htr t Ht).
    pose proof (merged_in_range PD u g m mm ovses HPD Hmm Hm1 Hov) as Hr.
    destruct (NewDialer_new w ds a mm Hw Hr) as (w1 & x & HN & Hx & Hact).
    destruct (Dial_new (fresh_ref w) x w1) as (w' & x' & async & HD & Has & Ht' & Hd' & E1 & E2 & E3 & E4 & E5 & E6); try apply Hx; [done|].
    exists m, w', x', async. erewrite M_bind_ret_run by exact HN. cbv beta iota. split; [exact HD|].
    split; [done|]. split; [by rewrite E2, (nd_addr _ _ _ _ _ _ _ Hx)|]. split; [done|].
    split; [by rewrite E4, (nd_stopped _ _ _ _ _ _ _ Hx)|]. split; [by rewrite E6, (nd_in _ _ _ _ _ _ _ Hx)|].
    split; [by rewrite Ht', (nd_tasks _ _ _ _ _ _ _ Hx)|]. split.
    { revert Has. unfold dialAsync, get_opt. rewrite E3, E5. destruct (GetOptionDefault _ _ _) as [v|]; [|done].
      destruct (boolOption_Value v); [|done]. by intros [= <-]. }
    split; [done|]. split; [done|]. intros o. rewrite E3, E5, (nd_given _ _ _ _ _ _ _ Hx). unfold given. by rewrite Hmm.
  - assert (HT : GetTransportFromAddr a (run_inits l) = None) by (by apply address_no_transport).
    rewrite HT. cbn. unfold NewDialer.
    erewrite M_bind_ret_run; [|erewrite M_bind_ret_run by reflexivity; by rewrite (rd_open _ _ Hw)]. done.
Qed.

(** ** The listener of a connector *)

Lemma maybe_stop_listener (b : bool) l a o w : ltab w !! l = Some (newListener a o) →
  ∃ w', (if b then listener_stop l else mret ()) w = Ret ((), w') ∧ ltab w' !! l = Some (mkListener o a false b) ∧
    ostore w' = ostore w ∧ ctor w' = ctor w ∧ tasks w' = tasks w.
Proof.
  intros Hl. destruct b; [|by exists w]. unfold listener_stop, getl, deref.
  erewrite M_bind_ret_run by (rewrite Hl; reflexivity). cbn [newListener l_stopped]. eexists. split; [reflexivity|].
  cbn. by rewrite lookup_insert_eq.
Qed.

Lemma NewListener_new w ds ls a m : ready w ds → listeners (ctor w) = Some ls → (∀ k v, m !! k = Some v → in_range v) →
  ∃ w' x, NewListener a (map_to_list m) (Some None) w = Ret (inr (fresh_ref w), w') ∧
    ltab w' !! fresh_ref w = Some x ∧ l_addr x = a ∧ l_closed x = false ∧ l_stopped x = at_limit (ctor w) ∧
    listeners (ctor w') = Some ({[fresh_ref w]} ∪ ls) ∧ dialers (ctor w') = Some ds ∧ tasks w' = tasks w ∧
    ∀ o, GetOption (S (l_opts x)) (ostore w') (l_opts x) o = given m (ostore w) (c_opts (ctor w)) o.
Proof.
  intros [Ho Hd Hst Hty Hc] Hls Hm. destruct (new_over (ostore w) (c_opts (ctor w)) m Hst Hc) as (o & HN & Hok & Hty' & Hg).
  unfold NewListener. erewrite M_bind_ret_run by reflexivity. rewrite Ho.
  erewrite M_bind_ret_run by (unfold sub_options; rewrite HN; reflexivity). cbn [sets].
  erewrite M_bind_ret_run by reflexivity. erewrite M_bind_ret_run by reflexivity.
  fold (at_limit (ctor w)).
  match goal with |- context [(mbind _ _) ?w1] => destruct (maybe_stop_listener (at_limit (ctor w)) (fresh_ref w) a
    (length (ostore w)) w1) as (w2 & H2 & Hx & E1 & E2 & E3); [cbn; by rewrite lookup_insert_eq|] end.
  cbn in E1, E2, E3. erewrite M_bind_ret_run by exact H2. erewrite M_bind_ret_run by reflexivity.
  eexists _, _. split; [reflexivity|]. split; [exact Hx|]. cbn. rewrite E1, E2, E3, Hls. done.
Qed.

(** The same line with the fragment "listen": there is exactly one new listener, for the address
    of the line, open, stopped just if the pipe limit is reached, with the options read in the
    same order of precedence, and the call answers what the transport's Listen answers - and
    if that is an error, the listener stays among the connector's all the same.  The dialers
    and the tasks under way are as before, and an unknown scheme changes nothing. *)
Theorem connect_line_listens {W A C L W' A' C' L'} (tnet : Net.net_ops W A C L) (unet : Net.net_ops W' A' C' L')
    ws_Parse PD url_Parse (listening : string → option err) s ovses u g l w ds ls :
  let a := (u_Scheme u +:+ "://" +:+ u_Host u +:+ u_Path u)%string in
  url_Parse s = inr u → locked g = false → (∀ s, - 2 ^ 63 ≤ (PD s).1 < 2 ^ 63) →
  u_Fragment u = "listen"%string → no_colon (u_Scheme u) = true →
  (∀ k vs, (k, vs) ∈ Query u → ∃ opt v, sets_option PD g k vs opt v) →
  (∀ m k v, m ∈ ovses → m !! k = Some v → in_range v) →
  l ≡ₚ inits → ready w ds → listeners (ctor w) = Some ls →
  (∀ t, (u_Scheme u, t) ∈ schemes → transport_NewListener tnet unet ws_Parse t a = None) →
  ∃ act, @Connect_line _ (connector_dials tnet unet ws_Parse (run_inits l) listening) PD url_Parse s ovses g = Some (inr act, g) ∧
  if bool_decide (u_Scheme u ∈ schemes.*1) then
    ∃ m w' x, act w = Ret (Some (listening a), w') ∧
      ltab w' !! fresh_ref w = Some x ∧ l_addr x = a ∧ l_closed x = false ∧ l_stopped x = at_limit (ctor w) ∧
      listeners (ctor w') = Some ({[fresh_ref w]} ∪ ls) ∧ dialers (ctor w') = Some ds ∧ tasks w' = tasks w ∧
      (∀ opt v, m !! opt = Some v → ∃ k vs, (k, vs) ∈ Query u ∧ sets_option PD g k vs opt v) ∧
      (∀ k vs, (k, vs) ∈ Query u → ∃ opt v, sets_option PD g k vs opt v ∧ is_Some (m !! opt)) ∧
      ∀ o, GetOption (S (l_opts x)) (ostore w') (l_opts x) o =
        match last_value (m :: ovses) o ≫= λ v, match Validate o v with inr v => Some v | inl _ => None end with
        | Some v => Some (Some v)
        | None => GetOption (S (c_opts (ctor w))) (ostore w) (c_opts (ctor w)) o
        end
  else act w = Ret (Some (Some ErrBadTransport), w).
Proof.
  intros a Hu Hl HPD Hf Hnc Hq Hov Hin Hw Hls Htr.
  destruct (@line_call false _ (connector_dials tnet unet ws_Parse (run_inits l) listening) PD url_Parse s ovses u g Hu Hl Hf Hq)
    as (m & mm & HC & Hmm & Hm1 & Hm2). fold a in HC.
  eexists. split; [exact HC|]. cbn [Address.ListenOptions connector_dials]. unfold Connector.ListenOptions, listener_answer.
  case_bool_decide as Hs.
  - apply list_elem_of_fmap in Hs as ([x0 t] & Ex & Ht). cbn in Ex. subst x0.
    assert (HT : GetTransportFromAddr a (run_inits l) = Some t) by (by apply address_transport).
    rewrite HT. cbn [fmap option_fmap option_map]. rewrite (Htr t Ht).
    pose proof (merged_in_range PD u g m mm ovses HPD Hmm Hm1 Hov) as Hr.
    destruct (NewListener_new w ds ls a mm Hw Hls Hr) as (w' & x & HN & Hx & E1 & E2 & E3 & E4 & E5 & E6 & Hg).
    exists m, w', x. split.
    { assert (HLi : listener_Listen (fresh_ref w) (listening a) w' = Ret (listening a, w'))
        by (unfold listener_Listen; by destruct (listening a)).
      erewrite M_bind_ret_run; [|erewrite M_bind_ret_run by exact HN; exact HLi]. reflexivity. }
    split_and!; try done. intros o. rewrite Hg. unfold given. by rewrite Hmm.
  - assert (HT : GetTransportFromAddr a (run_inits l) = None) by (by apply address_no_transport).
    rewrite HT. cbn. unfold NewListener.
    erewrite M_bind_ret_run; [|erewrite M_bind_ret_run; [|erewrite M_bind_ret_run by reflexivity; by rewrite (rd_open _ _ Hw)]; reflexivity].
    done.
Qed.

(** The line of [demo_url] at a new connector *)
Definition demo_world : cworld :=
  NewWithLimitAndOptions (-1) [mkOptions ∅ None [] None []] 0 NewRecyclableIDGenerator.

Lemma demo_ready : ready demo_world ∅.
Proof.
  split; [done|done| | |cbn; lia].
  - intros r o Ho. destruct r as [|r]; [|done]. injection Ho as <-. by split; [constructor|].
  - intros r o opt v Ho Hv. destruct r as [|r]; [|done]. injection Ho as <-. cbn in Hv. by rewrite lookup_empty in Hv.
Qed.

Lemma connect_line_dials_witness :
  ∃ act w' x (async : bool), @Connect_line _ (connector_dials Net.demo_net Net.demo_net (λ _, inl ErrBadAddr) (run_inits inits) (λ _, None))
      (λ _, (0, None)) (λ _, inr demo_url) "line" [] demo_registry = Some (inr act, demo_registry) ∧
    act demo_world = Ret (if async then Some None else None, w') ∧ dtab w' !! 0%nat = Some x ∧
    d_addr x = "inproc://here"%string ∧ dialers (ctor w') = Some ({[0%nat]} ∪ ∅) ∧ tasks w' = [TDial 0 async].
Proof.
  assert (H1 : ParseOption "connector.pipelimit" demo_registry = Some (inr OptionReg.Connector.PipeLimit, demo_registry))
    by (apply demo_named; vm_compute; reflexivity).
  assert (H2 : ParseOption "Socket.NoRecv" demo_registry = Some (inr OptionReg.Socket.NoRecv, demo_registry))
    by (apply demo_named; vm_compute; reflexivity).
  destruct (connect_line_dials Net.demo_net Net.demo_net (λ _, inl ErrBadAddr) (λ _, (0, None)) (λ _, inr demo_url)
    (λ _, None) "line" [] demo_url demo_registry inits demo_world ∅) as (act & HC & H).
  - reflexivity.
  - vm_compute. reflexivity.
  - intros _. cbn. lia.
  - reflexivity.
  - reflexivity.
  - intros k vs Hin. cbn in Hin.
    apply elem_of_cons in Hin as [[= -> ->]|Hin]; [|apply list_elem_of_singleton in Hin; injection Hin as -> ->].
    + exists OptionReg.Connector.PipeLimit, (VInt64 3). split; [exact H1|reflexivity].
    + exists OptionReg.Socket.NoRecv, (VBool true). split; [exact H2|reflexivity].
  - intros m k v Hm. by apply not_elem_of_nil in Hm.
  - reflexivity.
  - apply demo_ready.
  - intros t Ht. apply (schemes_functional _ _ ChannelMsr) in Ht; [subst t; reflexivity|left].
  - rewrite bool_decide_eq_true_2 in H by left. destruct H as (m & w' & x & async & E1 & E2 & E3 & _ & _ & E4 & E5 & _).
    exists act, w', x, async. exact (conj HC (conj E1 (conj E2 (conj E3 (conj E4 E5))))).
Defined.

(** The same at a line without options, to listen; the transport refuses to. *)
Definition demo_listen : URL := mkURL "inproc" "here" "" "listen" [].

Lemma connect_line_listens_witness :
  ∃ act w' x, @Connect_line _ (connector_dials Net.demo_net Net.demo_net (λ _, inl ErrBadAddr) (run_inits inits) (λ _, Some ErrAddrInUse))
      (λ _, (0, None)) (λ _, inr demo_listen) "line" [] demo_registry = Some (inr act, demo_registry) ∧
    act demo_world = Ret (Some (Some ErrAddrInUse), w') ∧ ltab w' !! 0%nat = Some x ∧
    l_addr x = "inproc://here"%string ∧ listeners (ctor w') = Some ({[0%nat]} ∪ ∅).
Proof.
  destruct (connect_line_listens Net.demo_net Net.demo_net (λ _, inl ErrBadAddr) (λ _, (0, None)) (λ _, inr demo_listen)
    (λ _, Some ErrAddrInUse) "line" [] demo_listen demo_registry inits demo_world ∅ ∅) as (act & HC & H).
  - reflexivity.
  - vm_compute. reflexivity.
  - intros _. cbn. lia.
  - reflexivity.
  - reflexivity.
  - intros k vs Hin. by apply not_elem_of_nil in Hin.
  - intros m k v Hm. by apply not_elem_of_nil in Hm.
  - reflexivity.
  - apply demo_ready.
  - reflexivity.
  - intros t Ht. apply (schemes_functional _ _ ChannelMsr) in Ht; [subst t; reflexivity|left].
  - rewrite bool_decide_eq_true_2 in H by left. destruct H as (m & w' & x & E1 & E2 & E3 & _ & _ & E4 & _).
    exists act, w', x. exact (conj HC (conj E1 (conj E2 (conj E3 E4)))).
Defined.
