(* ===== verification/Socket.v ===== *)
(** socket.go: the queues of a socket, its senders and receivers.

    Channels are shared objects, named by reference: a sender keeps the channel it read from
    the socket when it started.  [pushed] and [taken] are ghost histories of a channel.
    A [select] picks any ready case, so an operation is a function to the list of its
    possible outcomes ([ND]); the empty list is "blocked".  On an unbuffered channel a
    send is possible when a receiver waits on it, which is an arbitrary choice here. *)
From S2P Require Import Prelude Errs GoHeap Bytespool Message MessageFacts Routing Options OptionSet OptionReg.
From stdpp Require Import base tactics numbers list gmap relations.
From Stdlib Require Import ZArith Lia.
Open Scope Z_scope.

Record channel := Chan { cap : Z; buffer : list Message; pushed : list Message; taken : list Message }.

Record socket := mkSocket {
  s_opts : nat;
  closedq : bool;
  pipes : gmap Z nat;
  noRecv : bool; recvq : nat;
  noSend : bool; ttl : Z; bestEffort : bool; sendq : nat;
  senderStoppedq : bool }.

Record spipe := mkSpipe { sp_id : Z; sp_raw : bool; stopq : bool; sp_sendq : nat; freeLevel : FreeLevel }.

(** The goroutine of [sender]: where it is, with its captured shared queue. *)
Inductive phase := Selecting | Sending (msg : Message) | Remaining | SendingRemaining (msg : Message) | Stopped.
Record sender := mkSender { se_pipe : nat; se_queue : option nat; se_phase : phase }.

Record sworld := mkSWorld {
  wd : world; sstore : store; sock : socket;
  chans : gmap nat channel; spipes : gmap nat spipe; senders : gmap nat sender; next_obj : nat }.

(** ** Nondeterministic computations *)

Definition ND (A : Type) : Type := sworld → list (outcome (A * sworld)).
#[global] Instance ND_ret : MRet ND := λ A a s, [Ret (a, s)].
#[global] Instance ND_bind : MBind ND := λ A B f m s,
  flat_map (λ o, match o with Ret (a, s') => f a s' | Panics p => [Panics p] end) (m s).

Definition pick {A} (l : list A) : ND A := λ s, (λ a, Ret (a, s)) <$> l.
Definition blocked {A} : ND A := λ _, [].
Definition det {A} (m : M sworld A) : ND A := λ s, [m s].
Definition lift_wd {A} (m : M world A) : ND A := det (λ s,
  match m (wd s) with
  | Ret (a, w) => Ret (a, mkSWorld w (sstore s) (sock s) (chans s) (spipes s) (senders s) (next_obj s))
  | Panics p => Panics p
  end).
Definition read_s {A} (f : sworld → A) : ND A := det (gets f).
Definition deref_s {A} (f : sworld → option A) : ND A := det (λ s,
  match f s with Some a => Ret (a, s) | None => Panics PanicNilDeref end).

Definition upd_sock (f : socket → socket) : ND unit := det (modify (λ s,
  mkSWorld (wd s) (sstore s) (f (sock s)) (chans s) (spipes s) (senders s) (next_obj s))).
Definition upd_chans (f : gmap nat channel → gmap nat channel) : ND unit := det (modify (λ s,
  mkSWorld (wd s) (sstore s) (sock s) (f (chans s)) (spipes s) (senders s) (next_obj s))).
Definition upd_spipes (f : gmap nat spipe → gmap nat spipe) : ND unit := det (modify (λ s,
  mkSWorld (wd s) (sstore s) (sock s) (chans s) (f (spipes s)) (senders s) (next_obj s))).
Definition upd_senders (f : gmap nat sender → gmap nat sender) : ND unit := det (modify (λ s,
  mkSWorld (wd s) (sstore s) (sock s) (chans s) (spipes s) (f (senders s)) (next_obj s))).
Definition new_obj : ND nat := det (λ s, Ret (next_obj s,
  mkSWorld (wd s) (sstore s) (sock s) (chans s) (spipes s) (senders s) (S (next_obj s)))).

(** ** Channels *)

Definition make_chan (n : Z) : ND nat := q ← new_obj; upd_chans (insert q (Chan n [] [] [])) ;; mret q.

(** Whether a send can proceed now; [waiting]: a receiver waits on it. *)
Definition has_room (waiting : bool) (c : channel) : bool :=
  if cap c =? 0 then waiting && (zlen (buffer c) =? 0) else zlen (buffer c) <? cap c.

Definition push (q : nat) (msg : Message) : ND unit :=
  c ← deref_s (λ s, chans s !! q);
  upd_chans (insert q (Chan (cap c) (buffer c ++ [msg]) (pushed c ++ [msg]) (taken c))).

(** Receive the head of the channel [q]; blocked if it is empty. *)
Definition pull (q : nat) : ND Message :=
  c ← deref_s (λ s, chans s !! q);
  match buffer c with
  | [] => blocked
  | msg :: rest => upd_chans (insert q (Chan (cap c) rest (pushed c) (taken c ++ [msg]))) ;; mret msg
  end.

(** ** doPushMsg *)

Inductive push_case := CaseClosed | CaseSend | CaseDefault.

(** The cases [select] may pick. *)
Definition push_cases (closed room best : bool) : list push_case :=
  match closed, room with
  | true, true => [CaseClosed; CaseSend]
  | true, false => [CaseClosed]
  | false, true => [CaseSend]
  | false, false => if best then [CaseDefault] else []
  end.

(** A [select] that sends [msg] on [q]: with a case for [closedq] if it is [closed], with a
    [default] if [best]. *)
Definition push_select (closed best : bool) (msg : Message) (q : nat) : ND push_case :=
  c ← deref_s (λ s, chans s !! q);
  waiting ← pick [true; false];
  x ← pick (push_cases closed (has_room waiting c) best);
  match x with CaseSend => push q msg ;; mret x | _ => mret x end.

Definition doPushMsg (msg : Message) (q : nat) : ND (option err) :=
  k ← read_s sock;
  x ← push_select (closedq k) (bestEffort k) msg q;
  mret (match x with
        | CaseClosed => Some ErrClosed
        | CaseSend => None
        | CaseDefault => Some ErrMsgDropped
        end).

(** ** Sending *)

Definition sendToPipe (id : Z) (msg : Message) : ND (option err) :=
  k ← read_s sock;
  match pipes k !! id with
  | None => mret (Some ErrBrokenPath)
  | Some p => sp ← deref_s (λ s, spipes s !! p); doPushMsg msg (sp_sendq sp)
  end.

Definition dest_of (msg : Message) : ND (list Z) := read_s (λ s, wread (wd s) (Destination msg)).

Definition sendTo (msg : Message) : ND (option err) :=
  dest ← dest_of msg;
  r ← det (sendTo_route (meta msg) dest);
  match r with ToPipe id => sendToPipe id msg | _ => mret None end.

(** Copies to the pipes, one after the other; their errors are ignored. *)
Fixpoint push_copies (ps : list nat) (msg : Message) : ND unit :=
  match ps with
  | [] => mret ()
  | p :: ps =>
      sp ← deref_s (λ s, spipes s !! p);
      dup ← lift_wd (Dup msg);
      doPushMsg dup (sp_sendq sp) ;;
      push_copies ps msg
  end.

Definition sendToAll (msg : Message) : ND (option err) :=
  k ← read_s sock;
  push_copies (map_to_list (pipes k)).*2 msg ;;
  lift_wd (Message_FreeAll msg) ;; mret None.

Definition Send (content : list Z) : ND (option err) :=
  k ← read_s sock;
  if noSend k then mret None else
  msg ← lift_wd (NewSendMessage 0 SendTypeToOne (ttl k) [] [] content);
  k ← read_s sock;
  doPushMsg msg (sendq k).

Definition SendTo (dest content : list Z) : ND (option err) :=
  k ← read_s sock;
  if noSend k then mret None else
  msg ← lift_wd (NewSendMessage 0 SendTypeToDest (ttl k) [] dest content);
  sendTo msg.

Definition SendAll (content : list Z) : ND (option err) :=
  k ← read_s sock;
  if noSend k then mret None else
  msg ← lift_wd (NewSendMessage 0 SendTypeToAll (ttl k) [] [] content);
  sendToAll msg.

Definition SendMsg (msg : Message) : ND (option err) :=
  k ← read_s sock;
  if noSend k then lift_wd (Message_FreeAll msg) ;; mret None else
  dest ← dest_of msg;
  r ← det (SendMsg_route (meta msg) dest);
  match r with
  | Drop => lift_wd (Message_FreeAll msg) ;; mret None
  | Arrived => mret None
  | ToPipe id => sendToPipe id msg
  | ToAny => doPushMsg msg (sendq k)
  | ToEach => sendToAll msg
  | BadSendType => mret (Some ErrInvalidSendType)
  end.

(** ** Receiving *)

Definition RecvMsg : ND (Message + err) :=
  k ← read_s sock;
  c ← deref_s (λ s, chans s !! recvq k);
  match buffer c with
  | [] => if closedq k then mret (inr ErrClosed) else blocked
  | _ :: _ => msg ← pull (recvq k); mret (inl msg)
  end.

(** ** Senders *)

Definition resendMsg (msg : Message) : ND (option err) :=
  if SendType (meta msg) =? SendTypeToOne
  then k ← read_s sock; doPushMsg msg (sendq k)
  else mret (Some ErrBadMsg).

(** [doSendMsg] with the answer of [p.SendMsg]. *)
Definition doSendMsg (sp : spipe) (msg : Message) (answer : option err) : ND (option err) :=
  match answer with
  | Some e =>
      r ← resendMsg msg;
      match r with
      | None => mret (Some e)
      | Some _ => lift_wd (Message_FreeAll msg) ;; mret (Some e)
      end
  | None => lift_wd (FreeByLevel msg (freeLevel sp)) ;; mret None
  end.

(** The start of [sender]: it captures the shared queue, a raw pipe takes none. *)
Definition start_sender (p : nat) : ND unit :=
  sp ← deref_s (λ s, spipes s !! p);
  k ← read_s sock;
  i ← new_obj;
  upd_senders (insert i (mkSender p (if sp_raw sp then None else Some (sendq k)) Selecting)).

Inductive send_case := OnClosed | OnStop | OnShared (q : nat) | OnOwn (q : nat) | OnTimeout | OnEmpty.

Definition nonempty (q : nat) (s : sworld) : bool :=
  match chans s !! q with Some c => negb (zlen (buffer c) =? 0) | None => false end.

(** The ready cases of the main select and of the one for the remaining messages. *)
Definition sender_cases (se : sender) (sp : spipe) (s : sworld) : list send_case :=
  match se_phase se with
  | Selecting =>
      (if closedq (sock s) then [OnClosed] else []) ++ (if stopq sp then [OnStop] else []) ++
      (match se_queue se with Some q => if nonempty q s then [OnShared q] else [] | None => [] end) ++
      (if nonempty (sp_sendq sp) s then [OnOwn (sp_sendq sp)] else [])
  | Remaining =>
      let l := (match se_queue se with Some q => if nonempty q s then [OnShared q] else [] | None => [] end) ++
               (if senderStoppedq (sock s) then [OnTimeout] else []) in
      match l with [] => [OnEmpty] | _ => l end
  | _ => []
  end.

Definition set_phase (i : nat) (ph : phase) : ND unit :=
  upd_senders (alter (λ se, mkSender (se_pipe se) (se_queue se) ph) i).

(** [remPipe] up to [stopPipe]: the pipe to stop, if the socket had it. *)
Definition remPipe (id : Z) : ND (option nat) :=
  k ← read_s sock;
  match pipes k !! id with
  | None => mret None
  | Some p =>
      upd_sock (λ k, mkSocket (s_opts k) (closedq k) (delete id (pipes k)) (noRecv k) (recvq k)
                       (noSend k) (ttl k) (bestEffort k) (sendq k) (senderStoppedq k)) ;;
      mret (Some p)
  end.

(** [stopPipe] with what its timer and the pipe answer: the messages left in the pipe's
    queue are sent until the timeout, the end of the socket's senders or an error, and
    the rest is dropped. *)
Fixpoint drop_queue (fuel : nat) (q : nat) : ND unit :=
  match fuel with
  | O => mret ()
  | S fuel => b ← read_s (nonempty q);
              if (b : bool) then msg ← pull q; lift_wd (Message_FreeAll msg) ;; drop_queue fuel q else mret ()
  end.

Fixpoint drain (answers : list (option err)) (sp : spipe) (fuel : nat) : ND unit :=
  b ← read_s (nonempty (sp_sendq sp));
  if negb b then mret () else
  match answers with
  | [] => drop_queue fuel (sp_sendq sp)     (* timeout or senders stopped *)
  | a :: answers =>
      msg ← pull (sp_sendq sp);
      e ← doSendMsg sp msg a;
      match e with
      | None => drain answers sp fuel
      | Some _ => drop_queue fuel (sp_sendq sp)
      end
  end.

Definition stopPipe (p : nat) (answers : list (option err)) : ND unit :=
  sp ← deref_s (λ s, spipes s !! p);
  (if stopq sp then det (gopanic PanicCloseClosed) else mret ()) ;;
  upd_spipes (insert p (mkSpipe (sp_id sp) (sp_raw sp) true (sp_sendq sp) (freeLevel sp))) ;;
  c ← deref_s (λ s, chans s !! sp_sendq sp);
  drain answers sp (length (buffer c)).

Definition remove_pipe (id : Z) (answers : list (option err)) : ND unit :=
  o ← remPipe id;
  match o with Some p => stopPipe p answers | None => mret () end.

(** One move of the sender [i]; [answer] is what the pipe answers to a send, [answers]
    what it answers while its own queue is drained. *)
Definition sender_move (i : nat) (answer : option err) (answers : list (option err)) : ND unit :=
  se ← deref_s (λ s, senders s !! i);
  sp ← deref_s (λ s, spipes s !! se_pipe se);
  match se_phase se with
  | Selecting =>
      cs ← read_s (sender_cases se sp);
      x ← pick cs;
      match x with
      | OnClosed => set_phase i Remaining
      | OnShared q | OnOwn q => msg ← pull q; set_phase i (Sending msg)
      | _ => set_phase i Stopped
      end
  | Sending msg =>
      e ← doSendMsg sp msg answer;
      set_phase i (match e with None => Selecting | Some _ => Stopped end)
  | Remaining =>
      cs ← read_s (sender_cases se sp);
      x ← pick cs;
      match x with
      | OnShared q => msg ← pull q; set_phase i (SendingRemaining msg)
      | _ => remove_pipe (sp_id sp) answers ;; set_phase i Stopped
      end
  | SendingRemaining msg =>
      e ← doSendMsg sp msg answer;
      match e with
      | None => set_phase i Remaining
      | Some _ => remove_pipe (sp_id sp) answers ;; set_phase i Stopped
      end
  | Stopped => blocked
  end.

(** ** Receivers *)

(** One round of [receiver] with the answer of [p.RecvMsg]: whether the loop goes on. *)
Definition receiver_round (p : nat) (msg : option Message) (e : option err) (answers : list (option err))
  : ND bool :=
  k ← read_s sock;
  goes_on ← match msg with
    | None => mret true
    | Some msg =>
        if noRecv k then lift_wd (Message_FreeAll msg) ;; mret true
        else if HasFlags (meta msg) MsgFlagInternal then lift_wd (Message_FreeAll msg) ;; mret true
        else
          x ← push_select (closedq k) false msg (recvq k);
          match x with
          | CaseSend => mret true
          | _ => lift_wd (Message_FreeAll msg) ;;
                 sp ← deref_s (λ s, spipes s !! p);
                 remove_pipe (sp_id sp) answers ;; mret false
          end
    end;
  mret (goes_on && (match e with None => true | Some _ => false end)).

(** ** Pipes *)

Definition get_opt_s {A} (assert : value → outcome A) (opt : Option) : ND A := det (λ s,
  match GetOptionDefault (sstore s) (s_opts (sock s)) opt with
  | Some v => match assert v with Ret a => Ret (a, s) | Panics q => Panics q end
  | None => Panics PanicNilDeref
  end).

Definition recvQueueSize : ND Z := get_opt_s uint16Option_Value Socket.RecvQueueSize.
Definition sendQueueSize : ND Z := get_opt_s uint16Option_Value Socket.SendQueueSize.

(** [newPipe]: a pipe with a queue of its own *)
Definition new_spipe (id : Z) (raw : bool) (level : FreeLevel) : ND nat :=
  n ← sendQueueSize;
  q ← make_chan n;
  p ← new_obj;
  upd_spipes (insert p (mkSpipe id raw false q level)) ;; mret p.

(** [addPipe]; the receiver and the sender start on their own. *)
Definition addPipe (id : Z) (raw : bool) (level : FreeLevel) : ND nat :=
  p ← new_spipe id raw level;
  upd_sock (λ k, mkSocket (s_opts k) (closedq k) (<[id := p]> (pipes k)) (noRecv k) (recvq k)
                   (noSend k) (ttl k) (bestEffort k) (sendq k) (senderStoppedq k)) ;;
  mret p.

(** The start of [receiver] on a raw pipe: an empty message announces the connection. *)
Definition announce (p : nat) : ND unit :=
  sp ← deref_s (λ s, spipes s !! p);
  if sp_raw sp then
    k ← read_s sock;
    msg ← lift_wd (NewRawRecvMessage (sp_id sp) (Some []));
    push_select false false msg (recvq k) ;; mret ()
  else mret ().

(** ** Options *)

(** The case for [NoSend] is written [Options.NoRecv] a second time and never matches. *)
Definition onOptionChange (opt : Option) : ND unit :=
  if bool_decide (opt = Socket.NoRecv) then
    b ← get_opt_s boolOption_Value Socket.NoRecv;
    upd_sock (λ k, mkSocket (s_opts k) (closedq k) (pipes k) b (recvq k) (noSend k) (ttl k) (bestEffort k) (sendq k) (senderStoppedq k))
  else if bool_decide (opt = Socket.RecvQueueSize) then
    n ← recvQueueSize; q ← make_chan n;
    upd_sock (λ k, mkSocket (s_opts k) (closedq k) (pipes k) (noRecv k) q (noSend k) (ttl k) (bestEffort k) (sendq k) (senderStoppedq k))
  else if bool_decide (opt = Socket.NoRecv) then
    b ← get_opt_s boolOption_Value Socket.NoSend;
    upd_sock (λ k, mkSocket (s_opts k) (closedq k) (pipes k) (noRecv k) (recvq k) b (ttl k) (bestEffort k) (sendq k) (senderStoppedq k))
  else if bool_decide (opt = Socket.SendQueueSize) then
    n ← sendQueueSize; q ← make_chan n;
    upd_sock (λ k, mkSocket (s_opts k) (closedq k) (pipes k) (noRecv k) (recvq k) (noSend k) (ttl k) (bestEffort k) q (senderStoppedq k))
  else if bool_decide (opt = Socket.SendTTL) then
    n ← get_opt_s uint8Option_Value Socket.SendTTL;
    upd_sock (λ k, mkSocket (s_opts k) (closedq k) (pipes k) (noRecv k) (recvq k) (noSend k) n (bestEffort k) (sendq k) (senderStoppedq k))
  else if bool_decide (opt = Socket.SendBestEffort) then
    b ← get_opt_s boolOption_Value Socket.SendBestEffort;
    upd_sock (λ k, mkSocket (s_opts k) (closedq k) (pipes k) (noRecv k) (recvq k) (noSend k) (ttl k) b (sendq k) (senderStoppedq k))
  else mret ().

(** [SetOption] on the socket's set, whose first hook is [onOptionChange]. *)
Definition set_option (opt : Option) (val : value) : ND (option err) := λ s,
  match OptionSet.SetOption (λ _ _ _ _ x, (None, x)) (S (s_opts (sock s))) (s_opts (sock s)) opt val
          (State (sstore s) ()) with
  | None => []
  | Some (Some e, _) => [Ret (Some e, s)]
  | Some (None, st) =>
      (onOptionChange opt ;; mret None)
        (mkSWorld (wd s) (sets st) (sock s) (chans s) (spipes s) (senders s) (next_obj s))
  end.

(** [New]: the socket's fields are set from its options; the reference 0 is the nil channel. *)
Definition New (w : world) (st : store) (opts : nat) : list (outcome (unit * sworld)) :=
  (onOptionChange Socket.NoRecv ;; onOptionChange Socket.RecvQueueSize ;;
   onOptionChange Socket.NoSend ;; onOptionChange Socket.SendQueueSize ;;
   onOptionChange Socket.SendTTL ;; onOptionChange Socket.SendBestEffort)
  (mkSWorld w st (mkSocket opts false ∅ false 0 false 0 false 0 false) ∅ ∅ ∅ 1).

(** ** Closing *)

(** The first critical section of [Close]. *)
Definition Close : ND (option err) :=
  k ← read_s sock;
  if closedq k then mret (Some ErrClosed) else
  upd_sock (λ k, mkSocket (s_opts k) true (pipes k) (noRecv k) (recvq k)
                   (noSend k) (ttl k) (bestEffort k) (sendq k) (senderStoppedq k)) ;;
  mret None.

(** [stopSender] after its wait: [timeout] says how the wait ended. *)
Definition stopSender (timeout : bool) : ND unit :=
  k ← read_s sock;
  (if timeout && senderStoppedq k then det (gopanic PanicCloseClosed) else mret ()) ;;
  (if timeout then upd_sock (λ k, mkSocket (s_opts k) (closedq k) (pipes k) (noRecv k) (recvq k)
                     (noSend k) (ttl k) (bestEffort k) (sendq k) true) else mret ()) ;;
  k ← read_s sock;
  c ← deref_s (λ s, chans s !! sendq k);
  drop_queue (length (buffer c)) (sendq k).

(** ** Interleavings *)

Inductive sevent :=
  | ESend (content : list Z) | ESendTo (dest content : list Z) | ESendAll (content : list Z)
  | ESendMsg (msg : Message) | ERecvMsg
  | ESender (i : nat) (answer : option err) (answers : list (option err))
  | EReceiver (p : nat) (msg : option Message) (e : option err) (answers : list (option err))
  | EAddPipe (id : Z) (raw : bool) (level : FreeLevel) | EStartSender (p : nat) | EAnnounce (p : nat)
  | ERemPipe (id : Z) (answers : list (option err))
  | ESetOption (opt : Option) (val : value) | EClose | EStopSender (timeout : bool).

Definition run_event (e : sevent) : ND unit :=
  match e with
  | ESend c => Send c ;; mret ()
  | ESendTo d c => SendTo d c ;; mret ()
  | ESendAll c => SendAll c ;; mret ()
  | ESendMsg m => SendMsg m ;; mret ()
  | ERecvMsg => RecvMsg ;; mret ()
  | ESender i a l => sender_move i a l
  | EReceiver p m e l => receiver_round p m e l ;; mret ()
  | EAddPipe i r l => addPipe i r l ;; mret ()
  | EStartSender p => start_sender p
  | EAnnounce p => announce p
  | ERemPipe i l => remove_pipe i l
  | ESetOption o v => set_option o v ;; mret ()
  | EClose => Close ;; mret ()
  | EStopSender t => stopSender t
  end.

Definition sstep (e : sevent) (s s' : sworld) : Prop := Ret ((), s') ∈ run_event e s.
