(* ===== verification/SocketFacts.v ===== *)
(** The runs of the socket's operations: triples for the nondeterministic computations, the
    invariant of the queues, senders and pipes, and that every operation preserves it. *)
From S2P Require Import Prelude Errs GoHeap Bytespool Message MessageFacts Routing Options OptionSet OptionReg Socket.
From stdpp Require Import base tactics numbers list gmap relations.
From Stdlib Require Import ZArith Lia.
Open Scope Z_scope.

(** ** Outcomes of a sequence *)

Lemma nd_bind {A B} (m : ND A) (f : A → ND B) s b s'' :
  Ret (b, s'') ∈ (m ≫= f) s ↔ ∃ a s', Ret (a, s') ∈ m s ∧ Ret (b, s'') ∈ f a s'.
Proof.
  unfold mbind, ND_bind. rewrite list_elem_of_In, in_flat_map. split.
  - intros ([[a s']|q] & Hm & Hf).
    + exists a, s'. by rewrite !list_elem_of_In.
    + by destruct Hf.
  - intros (a & s' & Hm & Hf). exists (Ret (a, s')). by rewrite <- !list_elem_of_In.
Qed.
Lemma nd_det {A} (m : M sworld A) s a s' : Ret (a, s') ∈ det m s ↔ m s = Ret (a, s').
Proof. unfold det. rewrite list_elem_of_singleton. done. Qed.
Lemma nd_ret {A} (a b : A) s s' : Ret (b, s') ∈ (mret a : ND A) s ↔ b = a ∧ s' = s.
Proof.
  unfold mret, ND_ret. rewrite list_elem_of_singleton. split; [by intros [= -> ->]|by intros [-> ->]].
Qed.
Lemma nd_pick {A} (l : list A) (a : A) s s' : Ret (a, s') ∈ pick l s ↔ a ∈ l ∧ s' = s.
Proof.
  unfold pick. rewrite list_elem_of_fmap. split.
  - intros (x & [= -> ->] & Hx). done.
  - intros [Hx ->]. by exists a.
Qed.
Lemma nd_read {A} (f : sworld → A) a s s' : Ret (a, s') ∈ read_s f s ↔ a = f s ∧ s' = s.
Proof. unfold read_s. rewrite nd_det. unfold gets. split; [by intros [= <- <-]|by intros [-> ->]]. Qed.
Lemma nd_deref {A} (f : sworld → option A) a s s' :
  Ret (a, s') ∈ deref_s f s ↔ f s = Some a ∧ s' = s.
Proof.
  unfold deref_s. rewrite nd_det. destruct (f s); [|by split; [|intros [? _]]].
  split; [by intros [= <- <-]|by intros [[= ->] ->]].
Qed.

(** [runs H]: split a run of a sequence into the runs of its parts. *)
Ltac runs H :=
  repeat match type of H with
  | Ret _ ∈ @mbind _ _ _ _ _ _ _ =>
      let x := fresh "x" in let s1 := fresh "s1" in let H1 := fresh "Hr" in
      apply nd_bind in H as (x & s1 & H1 & H); runs H1
  | Ret _ ∈ read_s _ _ => apply nd_read in H as [-> ->]
  | Ret _ ∈ deref_s _ _ => let E := fresh "Hd" in apply nd_deref in H as [E ->]
  | Ret _ ∈ pick _ _ => let E := fresh "Hc" in apply nd_pick in H as [E ->]
  | Ret _ ∈ @mret _ _ _ _ _ => let E := fresh "He" in apply nd_ret in H as [E ->]; lazymatch type of E with ?a = ?a => clear E | ?a = _ => (is_var a; subst a) || idtac end
  | Ret _ ∈ blocked _ => by apply not_elem_of_nil in H
  end.

(** ** Relations between the worlds before and after

    [evolves R c]: every run of [c] is in [R], a preorder. *)

Definition evolves {A} (R : sworld → sworld → Prop) (c : ND A) : Prop :=
  ∀ s a s', Ret (a, s') ∈ c s → R s s'.

Section evolves.
Context (R : sworld → sworld → Prop) `{!PreOrder R}.

Lemma ev_bind {A B} (m : ND A) (f : A → ND B) :
  evolves R m → (∀ a, evolves R (f a)) → evolves R (m ≫= f).
Proof. intros Hm Hf s b s'' (a & s' & H1 & H2)%nd_bind. etrans; [by eapply Hm|by eapply Hf]. Qed.
Lemma ev_ret {A} (a : A) : evolves R (mret a).
Proof. by intros s b s' [_ ->]%nd_ret. Qed.
Lemma ev_pick {A} (l : list A) : evolves R (pick l).
Proof. by intros s b s' [_ ->]%nd_pick. Qed.
Lemma ev_blocked {A} : evolves R (blocked (A:=A)).
Proof. by intros s b s' H%not_elem_of_nil. Qed.
Lemma ev_read {A} (f : sworld → A) : evolves R (read_s f).
Proof. by intros s b s' [_ ->]%nd_read. Qed.
Lemma ev_deref {A} (f : sworld → option A) : evolves R (deref_s f).
Proof. by intros s b s' [_ ->]%nd_deref. Qed.
Lemma ev_panic {A} p : evolves R (det (gopanic p) : ND A).
Proof. intros s b s' H%nd_det. discriminate H. Qed.
Lemma ev_if {A} (b : bool) (c d : ND A) : evolves R c → evolves R d → evolves R (if b then c else d).
Proof. by destruct b. Qed.
End evolves.

(** ** The invariant *)

Definition chan_ok (c : channel) : Prop :=
  pushed c = taken c ++ buffer c ∧ zlen (buffer c) ≤ Z.max 1 (cap c).

(** The receive queue is no queue that is sent from. *)
Record apart (s : sworld) : Prop := Apart {
  apart_known : is_Some (chans s !! recvq (sock s));
  apart_sendq : sendq (sock s) ≠ recvq (sock s);
  apart_spipes : ∀ p sp, spipes s !! p = Some sp → sp_sendq sp ≠ recvq (sock s);
  apart_senders : ∀ i se q, senders s !! i = Some se → se_queue se = Some q → q ≠ recvq (sock s) }.

Record inv (s : sworld) : Prop := Inv {
  inv_chans : ∀ q c, chans s !! q = Some c → (q < next_obj s)%nat ∧ chan_ok c;
  inv_sendq : (sendq (sock s) < next_obj s)%nat;
  inv_senders : ∀ i se, senders s !! i = Some se →
    (i < next_obj s)%nat ∧ ∀ q, se_queue se = Some q → (q < next_obj s)%nat;
  inv_spipes : ∀ p sp, spipes s !! p = Some sp → (p < next_obj s)%nat;
  inv_pipes : ∀ id p, pipes (sock s) !! id = Some p →
    ∃ sp, spipes s !! p = Some sp ∧ sp_id sp = id ∧ stopq sp = false;
  inv_spsendq : ∀ p sp, spipes s !! p = Some sp → (sp_sendq sp < next_obj s)%nat;
  inv_apart : recvq (sock s) ≠ 0%nat → apart s }.

(** What any run leaves as it was. *)
Record kept (s s' : sworld) : Prop := Kept {
  kept_chans : ∀ q c, chans s !! q = Some c → ∃ c', chans s' !! q = Some c' ∧
    cap c' = cap c ∧ pushed c `prefix_of` pushed c' ∧ taken c `prefix_of` taken c';
  kept_senders : ∀ i se, senders s !! i = Some se → ∃ se', senders s' !! i = Some se' ∧
    se_pipe se' = se_pipe se ∧ se_queue se' = se_queue se;
  kept_noSend : noSend (sock s') = noSend (sock s);
  kept_recvq : recvq (sock s) ≠ 0%nat → recvq (sock s') ≠ 0%nat }.

Definition good (s s' : sworld) : Prop := inv s → inv s' ∧ kept s s'.

#[global] Instance kept_preorder : PreOrder kept.
Proof.
  split.
  - intros s. split; [intros q c H; by exists c|intros i se H; by exists se|done|done].
  - intros s1 s2 s3 [C1 S1 N1 R1] [C2 S2 N2 R2]. split.
    + intros q c (c2 & (c3 & ? & ? & ? & ?)%C2 & ? & ? & ?)%C1. exists c3. repeat split; [done|congruence|by etrans..].
    + intros i se (se2 & (se3 & ? & ? & ?)%S2 & ? & ?)%S1. exists se3. repeat split; [done|congruence..].
    + congruence.
    + auto.
Qed.
#[global] Instance good_preorder : PreOrder good.
Proof.
  split; [by intros s H|]. intros s1 s2 s3 H1 H2 (I2 & K2)%H1. destruct (H2 I2) as [I3 K3].
  split; [done|by etrans].
Qed.

(** Changes that touch none of the queues. *)
Lemma good_same s s' :
  chans s' = chans s → senders s' = senders s → spipes s' = spipes s →
  next_obj s' = next_obj s → pipes (sock s') = pipes (sock s) → noSend (sock s') = noSend (sock s) →
  sendq (sock s') = sendq (sock s) → recvq (sock s') = recvq (sock s) → good s s'.
Proof.
  intros E1 E2 E3 E4 E5 E6 E7 E8 [I1 I2 I3 I4 I5 I6 I7]. split.
  - split; rewrite ?E1, ?E2, ?E3, ?E4, ?E5, ?E7, ?E8; try done.
    intros [A1 A2 A3 A4]%I7. split; rewrite ?E1, ?E2, ?E3, ?E7, ?E8; done.
  - split; rewrite ?E1, ?E2, ?E8; [|intros ? se ?; by exists se|done|done]. intros ? c ?; by exists c.
Qed.

Definition put_chan (q : nat) (c : channel) (s : sworld) : sworld :=
  mkSWorld (wd s) (sstore s) (sock s) (<[q := c]> (chans s)) (spipes s) (senders s) (next_obj s).

Lemma good_put_chan s q c c' :
  chans s !! q = Some c → cap c' = cap c → pushed c `prefix_of` pushed c' →
  taken c `prefix_of` taken c' → (chan_ok c → chan_ok c') → good s (put_chan q c' s).
Proof.
  intros Hq Hcap Hp Ht Hok [I1 I2 I3 I4 I5 I6 I7]. split.
  - split; [|done..|intros [A1 A2 A3 A4]%I7; split; [by apply lookup_insert_is_Some'; right|done..]]. intros q0 c0. cbn. rewrite lookup_insert_Some. intros [[<- <-]|[_ H]].
    + apply I1 in Hq as [??]. auto.
    + by apply I1.
  - split; [|intros i se H; by exists se|done|done]. cbn. intros q0 c0 H0. destruct (decide (q = q0)) as [<-|].
    + rewrite lookup_insert_eq. exists c'. by simplify_eq.
    + rewrite lookup_insert_ne by done. by exists c0.
Qed.

(** ** The channel operations *)

Definition pushed_on (msg : Message) (c : channel) : channel :=
  Chan (cap c) (buffer c ++ [msg]) (pushed c ++ [msg]) (taken c).

Lemma push_spec q msg s u s' : Ret (u, s') ∈ push q msg s →
  ∃ c, chans s !! q = Some c ∧ s' = put_chan q (pushed_on msg c) s.
Proof. intros H. unfold push in H. runs H. apply nd_det in H. injection H as <-. by exists x. Qed.

Lemma pull_spec q msg s s' : Ret (msg, s') ∈ pull q s →
  ∃ c rest, chans s !! q = Some c ∧ buffer c = msg :: rest ∧
    s' = put_chan q (Chan (cap c) rest (pushed c) (taken c ++ [msg])) s.
Proof.
  intros H. unfold pull in H. runs H. destruct (buffer x) as [|m rest] eqn:E; runs H.
  apply nd_det in Hr. injection Hr as <- <-. by exists x, rest.
Qed.

Lemma has_room_ok b c msg : has_room b c = true → chan_ok c → chan_ok (pushed_on msg c).
Proof.
  unfold has_room, chan_ok. intros Hr [Hp _]. cbn. split; [by rewrite Hp, app_assoc|].
  rewrite zlen_app. change (zlen [msg]) with 1. destruct (Z.eqb_spec (cap c) 0).
  - apply andb_prop in Hr as [_ Hz%Z.eqb_eq]. lia.
  - apply Z.ltb_lt in Hr. lia.
Qed.

(** A select with a send: what each of its cases says. *)
Lemma push_select_spec closed best msg q s x s' : Ret (x, s') ∈ push_select closed best msg q s →
  ∃ c, chans s !! q = Some c ∧
  match x with
  | CaseClosed => closed = true ∧ s' = s
  | CaseSend => (∃ w, has_room w c = true) ∧ s' = put_chan q (pushed_on msg c) s
  | CaseDefault => best = true ∧ closed = false ∧ (∃ w, has_room w c = false) ∧ s' = s
  end.
Proof.
  intros H. unfold push_select in H. runs H. exists x0. split; [done|].
  assert (Hcase : match x2 with
    | CaseClosed => closed = true
    | CaseSend => has_room x1 x0 = true
    | CaseDefault => best = true ∧ closed = false ∧ has_room x1 x0 = false end).
  { revert Hc0. unfold push_cases. destruct closed, (has_room x1 x0), best; set_solver. }
  destruct x2; runs H.
  - done.
  - apply push_spec in Hr as (c & Hc1 & ->). rewrite Hd in Hc1. injection Hc1 as <-. eauto.
  - destruct Hcase as (? & ? & ?). eauto.
Qed.

(** ** Every operation preserves the invariant *)

Lemma good_lift {A} (m : M world A) : evolves good (lift_wd m).
Proof.
  intros s a s' H%nd_det. destruct (m (wd s)) as [[b w]|]; [|done]. injection H as <- <-. by apply good_same.
Qed.

(** [gd]: split a sequence into its parts and close the parts known to be good. *)
Create HintDb good discriminated.
Ltac gd :=
  repeat first
    [ apply good_lift | solve [eauto with good]
    | apply ev_ret; apply _ | apply ev_pick; apply _ | apply ev_blocked | apply ev_read; apply _
    | apply ev_deref; apply _ | apply ev_panic | apply ev_bind; [apply _| |intros ?] | case_match ].

Lemma good_push_select closed best msg q : evolves good (push_select closed best msg q).
Proof.
  intros s x s' (c & Hc & H)%push_select_spec. destruct x; [by destruct H as [_ ->]| |by destruct H as (_ & _ & _ & ->)].
  destruct H as [[w Hw] ->]. apply (good_put_chan _ _ c); [done..| |done|by eapply has_room_ok].
  by eexists.
Qed.
#[export] Hint Resolve good_push_select : good.

Lemma good_pull q : evolves good (pull q).
Proof.
  intros s x s' (c & rest & Hc & Hb & ->)%pull_spec. apply (good_put_chan _ _ c); [done|done|reflexivity|by eexists|].
  unfold chan_ok. cbn. rewrite Hb, zlen_cons. pose proof (zlen_nonneg rest).
  intros [-> ?]. split; [by rewrite <- app_assoc|lia].
Qed.
#[export] Hint Resolve good_pull : good.

Lemma good_doPushMsg msg q : evolves good (doPushMsg msg q).
Proof. unfold doPushMsg. gd. Qed.
#[export] Hint Resolve good_doPushMsg : good.

Lemma good_sendToPipe id msg : evolves good (sendToPipe id msg).
Proof. unfold sendToPipe. gd. Qed.
#[export] Hint Resolve good_sendToPipe : good.

Lemma good_push_copies ps msg : evolves good (push_copies ps msg).
Proof. induction ps; cbn [push_copies]; gd. Qed.
#[export] Hint Resolve good_push_copies : good.

Lemma good_sendToAll msg : evolves good (sendToAll msg).
Proof. unfold sendToAll. gd. Qed.
#[export] Hint Resolve good_sendToAll : good.

Lemma good_route (r : M sworld route) : (∀ s a s', r s = Ret (a, s') → s' = s) → evolves good (det r).
Proof. intros H s a s' E%nd_det. by apply H in E as ->. Qed.

Lemma CurID_state {S} (l : list Z) (s s' : S) id : MsgPath_CurID l s = Ret (id, s') → s' = s.
Proof. unfold MsgPath_CurID, or_panic. destruct (be32_decode l); [by intros [= _ <-]|done]. Qed.

Lemma sendTo_route_state m dest (s s' : sworld) r : sendTo_route m dest s = Ret (r, s') → s' = s.
Proof.
  unfold sendTo_route. case_match; [by intros [= _ <-]|].
  intros (id & s1 & E & [= _ <-])%M_bind_Ret. by eapply CurID_state.
Qed.
Lemma SendMsg_route_state m dest (s s' : sworld) r : SendMsg_route m dest s = Ret (r, s') → s' = s.
Proof.
  unfold SendMsg_route. repeat case_match; [by intros [= _ <-]|by apply sendTo_route_state|by intros [= _ <-]..].
Qed.

Lemma good_sendTo_route m dest : evolves good (det (sendTo_route m dest)).
Proof. apply good_route. intros s a s'. apply sendTo_route_state. Qed.
Lemma good_SendMsg_route m dest : evolves good (det (SendMsg_route m dest)).
Proof. apply good_route. intros s a s'. apply SendMsg_route_state. Qed.
#[export] Hint Resolve good_sendTo_route good_SendMsg_route : good.

Lemma good_sendTo msg : evolves good (sendTo msg).
Proof. unfold sendTo, dest_of. gd. Qed.
Lemma good_Send c : evolves good (Send c).
Proof. unfold Send. gd. Qed.
#[export] Hint Resolve good_sendTo good_Send : good.
Lemma good_SendTo d c : evolves good (SendTo d c).
Proof. unfold SendTo. gd. Qed.
Lemma good_SendAll c : evolves good (SendAll c).
Proof. unfold SendAll. gd. Qed.
Lemma good_SendMsg msg : evolves good (SendMsg msg).
Proof. unfold SendMsg, dest_of. gd. Qed.
Lemma good_RecvMsg : evolves good RecvMsg.
Proof. unfold RecvMsg. gd. Qed.
Lemma good_doSendMsg sp msg answer : evolves good (doSendMsg sp msg answer).
Proof. unfold doSendMsg, resendMsg. gd. Qed.
#[export] Hint Resolve good_SendTo good_SendAll good_SendMsg good_RecvMsg good_doSendMsg : good.

Lemma good_drop_queue fuel q : evolves good (drop_queue fuel q).
Proof. induction fuel; cbn [drop_queue]; gd. Qed.
#[export] Hint Resolve good_drop_queue : good.
Lemma good_drain answers sp fuel : evolves good (drain answers sp fuel).
Proof. induction answers; cbn [drain]; gd. Qed.
#[export] Hint Resolve good_drain : good.

(** Changes of the socket's fields other than its pipes and its queues. *)
Lemma good_upd_sock f :
  (∀ k, pipes (f k) = pipes k ∧ noSend (f k) = noSend k ∧ sendq (f k) = sendq k ∧ recvq (f k) = recvq k) →
  evolves good (upd_sock f).
Proof.
  intros H s [] s' E%nd_det. injection E as <-. destruct (H (sock s)) as (?&?&?&?). by apply good_same.
Qed.
#[export] Hint Extern 1 (evolves good (upd_sock _)) => (apply good_upd_sock; intros; done) : good.

Lemma good_get_opt {A} (assert : value → outcome A) opt : evolves good (get_opt_s assert opt).
Proof.
  intros s a s' H%nd_det. repeat case_match; simplify_eq. reflexivity.
Qed.
#[export] Hint Resolve good_get_opt : good.

(** A new channel: fresh, and known from then on. *)
Lemma make_chan_spec n s q s' : Ret (q, s') ∈ make_chan n s →
  q = next_obj s ∧ s' = mkSWorld (wd s) (sstore s) (sock s) (<[q := Chan n [] [] []]> (chans s))
                          (spipes s) (senders s) (S (next_obj s)).
Proof.
  intros H. unfold make_chan in H. runs H. apply nd_det in Hr. injection Hr as <- <-.
  apply nd_det in Hr0. by injection Hr0 as <-.
Qed.

Lemma good_make_chan n s q s' : Ret (q, s') ∈ make_chan n s → inv s → inv s' ∧ kept s s' ∧ (q < next_obj s')%nat.
Proof.
  intros [-> ->]%make_chan_spec [I1 I2 I3 I4 I5 I6 I7]. split; [|split; [|cbn; lia]].
  - split; cbn.
    + intros q c [[<- <-]|[_ [? ?]%I1]]%lookup_insert_Some; [|split; [lia|done]].
      split; [lia|]. split; [done|]. cbn [buffer cap]. change (zlen []) with 0. lia.
    + lia.
    + intros i se [? Hq]%I3. split; [lia|]. intros q ?%Hq. lia.
    + intros p sp ?%I4. lia.
    + done.
    + intros p sp ?%I6. lia.
    + intros [A1 A2 A3 A4]%I7. split; cbn; [by apply lookup_insert_is_Some'; right|done..].
  - split; [|intros i se H; by exists se|done|done]. cbn. intros q c Hq. exists c.
    rewrite lookup_insert_ne; [done|]. apply I1 in Hq. lia.
Qed.

Lemma good_set_recvq n f :
  (∀ q k, pipes (f q k) = pipes k ∧ noSend (f q k) = noSend k ∧ sendq (f q k) = sendq k ∧ recvq (f q k) = q) →
  evolves good (q ← make_chan n; upd_sock (f q)).
Proof.
  intros H s [] s' (q & s1 & H1 & H2)%nd_bind Hs.
  pose proof (make_chan_spec _ _ _ _ H1) as [Eq Es]. apply good_make_chan in H1 as ([I1 I2 I3 I4 I5 I6 _] & K & Hq); [|done].
  apply nd_det in H2. injection H2 as <-. destruct (H q (sock s1)) as (E1 & E2 & E3 & E4).
  destruct Hs as [J1 J2 J3 J4 J5 J6 _]. split.
  - split; cbn; rewrite ?E1, ?E3; try done. intros _. split; cbn; rewrite ?E4, ?E3, ?Es; cbn; subst q.
    + rewrite lookup_insert_eq. by eexists.
    + lia.
    + intros p sp ?%J6. lia.
    + intros i se q [_ Hi]%J3 ?%Hi. lia.
  - etrans; [exact K|]. split; cbn; [|intros i se Hi; by exists se|done|rewrite E4; lia]. intros q0 c Hq0. by exists c.
Qed.

Lemma good_set_sendq n f :
  (∀ q k, pipes (f q k) = pipes k ∧ noSend (f q k) = noSend k ∧ sendq (f q k) = q ∧ recvq (f q k) = recvq k) →
  evolves good (q ← make_chan n; upd_sock (f q)).
Proof.
  intros H s [] s' (q & s1 & H1 & H2)%nd_bind Hs.
  pose proof (make_chan_spec _ _ _ _ H1) as [Eq Es]. apply good_make_chan in H1 as ([I1 I2 I3 I4 I5 I6 I7] & K & Hq); [|done].
  apply nd_det in H2. injection H2 as <-. destruct (H q (sock s1)) as (E1 & E2 & E3 & E4).
  split.
  - split; cbn; rewrite ?E1, ?E3, ?E4; try done. intros Hr. destruct (I7 Hr) as [A1 A2 A3 A4].
    split; cbn; rewrite ?E3, ?E4; try done. assert (Hne : recvq (sock s) ≠ 0%nat) by by rewrite Es in Hr.
    destruct (inv_apart _ Hs Hne) as [[c0 B1] _ _ _]. apply (inv_chans _ Hs) in B1 as [B1 _]. rewrite Es. cbn. lia.
  - etrans; [exact K|]. split; cbn; [|intros i se Hi; by exists se|done|by rewrite E4]. intros q0 c Hq0. by exists c.
Qed.

Lemma good_onOptionChange opt : evolves good (onOptionChange opt).
Proof.
  unfold onOptionChange, recvQueueSize, sendQueueSize.
  case_bool_decide as H1; [gd|].
  case_bool_decide as H2; [apply ev_bind; [apply _|gd|]; intros n; by apply good_set_recvq|].
  case_bool_decide; [apply ev_bind; [apply _|gd|]; intros n; by apply good_set_sendq|].
  gd.
Qed.
#[export] Hint Resolve good_onOptionChange : good.

Lemma good_set_phase i ph : evolves good (set_phase i ph).
Proof.
  intros s [] s' H%nd_det [I1 I2 I3 I4 I5 I6 I7]. injection H as <-. split.
  - split; cbn; [done|done| |done|done|done|].
    + intros j se. rewrite lookup_alter_Some. intros [(<- & se0 & H0%I3 & ->)|[_ H0%I3]]; done.
    + intros [A1 A2 A3 A4]%I7. split; cbn; [done..|]. intros j se q. rewrite lookup_alter_Some.
      intros [(<- & se0 & H0 & ->)|[_ H0]]; by apply (A4 _ _ _ H0).
  - split; cbn; [intros q c Hq; by exists c| |done|done]. intros j se Hj.
    destruct (decide (i = j)) as [<-|].
    + rewrite lookup_alter_eq, Hj. by eexists.
    + rewrite lookup_alter_ne by done. by exists se.
Qed.
#[export] Hint Resolve good_set_phase : good.

Lemma good_start_sender p : evolves good (start_sender p).
Proof.
  intros s [] s' H [I1 I2 I3 I4 I5 I6 I7]. unfold start_sender in H. runs H.
  apply nd_det in Hr. injection Hr as <- <-. apply nd_det in H. injection H as <-. split.
  - split; cbn.
    + intros q c [? ?]%I1. split; [lia|done].
    + lia.
    + intros i se [[<- <-]|[_ [? Hq]%I3]]%lookup_insert_Some.
      * split; [lia|]. cbn. destruct (sp_raw _); [done|]. intros q [= <-]. lia.
      * split; [lia|]. intros q ?%Hq. lia.
    + intros p0 sp0 ?%I4. lia.
    + done.
    + intros p0 sp0 ?%I6. lia.
    + intros [A1 A2 A3 A4]%I7. split; cbn; [done|done..|].
      intros i se q [[<- <-]|[_ Hi]]%lookup_insert_Some; [|by eapply A4]. cbn. destruct (sp_raw _); [done|]. by intros [= <-].
  - split; cbn; [intros q c Hq; by exists c| |done|done]. intros i se Hi. exists se.
    rewrite lookup_insert_ne; [done|]. apply I3 in Hi. lia.
Qed.
#[export] Hint Resolve good_start_sender : good.

(** Removing a pipe, then stopping it: it is no longer in the map when it is marked. *)
Lemma good_remove_pipe id answers : evolves good (remove_pipe id answers).
Proof.
  intros s [] s' H Hs. unfold remove_pipe, remPipe in H. runs H.
  destruct (pipes (sock s) !! id) as [p|] eqn:Ep; runs Hr; [|runs H; split; [done|reflexivity]].
  apply nd_det in Hr0. injection Hr0 as _ <-. unfold stopPipe in H. runs H.
  cbn in Hd. destruct (inv_pipes _ Hs _ _ Ep) as (sp & Hsp & Hid & Hstop). rewrite Hd in Hsp. injection Hsp as ->.
  rewrite Hstop in Hr. runs Hr. apply nd_det in Hr0. injection Hr0 as _ <-. apply good_drain in H.
  destruct Hs as [I1 I2 I3 I4 I5 I6 I7]. destruct H as [I K].
  { split; cbn; [done|done|done| | | |].
    - intros p0 sp0 [[<- _]|[_ ?%I4]]%lookup_insert_Some; [|done]. by apply I4 in Hd.
    - intros id0 p0. rewrite lookup_delete_Some. intros [Hne H0]. destruct (I5 _ _ H0) as (sp0 & H1 & H2 & H3).
      exists sp0. rewrite lookup_insert_ne; [done|]. intros <-. congruence.
    - intros p0 sp0 [[<- <-]|[_ ?%I6]]%lookup_insert_Some; [|done]. by apply I6 in Hd.
    - intros [A1 A2 A3 A4]%I7. split; cbn; [done..| |done].
      intros p0 sp0 [[<- <-]|[_ ?%A3]]%lookup_insert_Some; [|done]. by apply A3 in Hd. }
  split; [done|]. etrans; [|exact K]. split; cbn; [|intros i se Hi; by exists se|done|done].
  intros q c Hq. by exists c.
Qed.
#[export] Hint Resolve good_remove_pipe : good.

Lemma good_sender_move i answer answers : evolves good (sender_move i answer answers).
Proof. unfold sender_move. gd. Qed.
Lemma good_receiver_round p msg e answers : evolves good (receiver_round p msg e answers).
Proof. unfold receiver_round. gd. Qed.
Lemma good_announce p : evolves good (announce p).
Proof. unfold announce. gd. Qed.
Lemma good_stopSender t : evolves good (stopSender t).
Proof. unfold stopSender. gd. Qed.
Lemma good_Close : evolves good Close.
Proof. unfold Close. gd. Qed.
#[export] Hint Resolve good_sender_move good_receiver_round good_announce good_stopSender good_Close : good.

Lemma good_addPipe id raw level : evolves good (addPipe id raw level).
Proof.
  intros s p s' H Hs. unfold addPipe, new_spipe, sendQueueSize in H. runs H.
  rename Hr into HU.
  apply good_get_opt in Hr0. destruct (Hr0 Hs) as [Hi1 K1].
  pose proof Hr1 as Hm. apply good_make_chan in Hr1 as (Hi2 & K2 & Hx); [|done].
  pose proof (make_chan_spec _ _ _ _ Hm) as [Eq Es].
  destruct Hi2 as [I1 I2 I3 I4 I5 I6 I7].
  apply nd_det in Hr2. injection Hr2 as <- <-. apply nd_det in Hr3. injection Hr3 as <- <-.
  apply nd_det in HU. injection HU as <- <-. split; [|etrans; [exact K1|]; etrans; [exact K2|]].
  - split; cbn.
    + intros q c [? ?]%I1. split; [lia|done].
    + lia.
    + intros i se [? Hq]%I3. split; [lia|]. intros q ?%Hq. lia.
    + intros p0 sp0 [[<- _]|[_ ?%I4]]%lookup_insert_Some; lia.
    + intros id0 p0 [[<- <-]|[Hne H0]]%lookup_insert_Some.
      * eexists. by rewrite lookup_insert_eq.
      * destruct (I5 _ _ H0) as (sp0 & H1 & H2 & H3). exists sp0.
        rewrite lookup_insert_ne; [done|]. apply I4 in H1. lia.
    + intros p0 sp0 [[<- <-]|[_ ?%I6]]%lookup_insert_Some; cbn; lia.
    + intros Hne. destruct (I7 Hne) as [A1 A2 A3 A4]. split; cbn; [done|done| |done].
      intros p0 sp0 [[<- <-]|[_ ?%A3]]%lookup_insert_Some; [|done]. cbn.
      rewrite Es in Hne |- *. cbn in Hne |- *. destruct (inv_apart _ Hi1 Hne) as [[c0 B1] _ _ _].
      apply (inv_chans _ Hi1) in B1 as [B1 _]. lia.
  - split; cbn; [intros q c Hq; by exists c|intros i se Hi; by exists se|done|done].
Qed.
#[export] Hint Resolve good_addPipe : good.

Lemma good_set_option opt val : evolves good (set_option opt val).
Proof.
  intros s r s' H. unfold set_option in H. destruct (SetOption _ _ _ _ _ _) as [[[e|] st]|].
  - apply list_elem_of_singleton in H. injection H as -> ->; reflexivity.
  - apply nd_bind in H as ([] & s1 & H & [-> ->]%nd_ret). apply good_onOptionChange in H.
    etrans; [|exact H]. by apply good_same.
  - by apply not_elem_of_nil in H.
Qed.
#[export] Hint Resolve good_set_option : good.

(** ** Every interleaving *)

Lemma good_event e : evolves good (run_event e).
Proof. destruct e; cbn [run_event]; gd. Qed.

Definition moves (s s' : sworld) : Prop := ∃ e, sstep e s s'.
(** The worlds a new socket gets to. *)
Definition reached (w : world) (st : store) (opts : nat) (s : sworld) : Prop :=
  ∃ s0, Ret ((), s0) ∈ New w st opts ∧ rtc moves s0 s.

Lemma moves_good s s' : rtc moves s s' → good s s'.
Proof. induction 1 as [s|s1 s2 s3 [e H%good_event] _ IH]; [reflexivity|by etrans]. Qed.

Lemma reached_inv w st opts s : reached w st opts s → inv s ∧ noSend (sock s) = false.
Proof.
  intros (s0 & H & Hm%moves_good). unfold New in H.
  match type of H with Ret _ ∈ ?c ?s => assert (Hg : evolves good c) by gd;
    apply Hg in H; destruct H as [I K] end.
  { split; cbn; [done|lia|done..|]. by intros ?. }
  destruct (Hm I) as [I' K']. split; [done|]. by rewrite (kept_noSend _ _ K'), (kept_noSend _ _ K).
Qed.

Lemma set_recvq_known u s s' : Ret (u, s') ∈ onOptionChange Socket.RecvQueueSize s → inv s → recvq (sock s') ≠ 0%nat.
Proof.
  unfold onOptionChange. rewrite bool_decide_eq_false_2, bool_decide_eq_true_2 by done. intros H Hs. runs H.
  apply good_get_opt in Hr. destruct (Hr Hs) as [I _]. apply make_chan_spec in Hr0 as [-> ->].
  apply nd_det in H. injection H as _ <-. cbn. pose proof (inv_sendq _ I). lia.
Qed.

(** A socket has a receive queue from [New] on. *)
Lemma reached_recvq w st opts s : reached w st opts s → recvq (sock s) ≠ 0%nat.
Proof.
  intros (s0 & H & Hm%moves_good). unfold New in H. apply nd_bind in H as ([] & s1 & H1 & H).
  apply nd_bind in H as ([] & s2 & H2 & H).
  assert (I0 : inv (mkSWorld w st (mkSocket opts false ∅ false 0 false 0 false 0 false) ∅ ∅ ∅ 1)).
  { split; cbn; [done|lia|done..|]. by intros ?. }
  apply good_onOptionChange in H1. destruct (H1 I0) as [I1 _]. pose proof (set_recvq_known _ _ _ H2 I1) as Hr.
  apply good_onOptionChange in H2. destruct (H2 I1) as [I2 _].
  match type of H with Ret _ ∈ ?c ?s => assert (Hg : evolves good c) by gd; apply Hg in H end.
  destruct (H I2) as [I3 K3], (Hm I3) as [_ K]. apply (kept_recvq _ _ K), (kept_recvq _ _ K3), Hr.
Qed.
