(* ===== verification/SocketThms.v ===== *)
(** What the socket promises: the outcomes of a send, copies to every pipe, queues in order
    and without loss, the end of receiving, and what its options do. *)
From S2P Require Import Prelude Errs GoHeap Bytespool Message MessageFacts Routing Options OptionSet OptionReg Socket SocketFacts.
From stdpp Require Import base tactics numbers list gmap relations.
From Stdlib Require Import ZArith Lia.
Open Scope Z_scope.

(** ** Sending *)

(** What pushing [msg] on [q] may answer, and the world after it. *)
Definition push_outcome (q : nat) (msg : Message) (s : sworld) (r : option err) (s' : sworld) : Prop :=
  ∃ c, chans s !! q = Some c ∧
  ((r = None ∧ (∃ w, has_room w c = true) ∧ s' = put_chan q (pushed_on msg c) s) ∨
   (r = Some ErrClosed ∧ closedq (sock s) = true ∧ s' = s) ∨
   (r = Some ErrMsgDropped ∧ bestEffort (sock s) = true ∧ closedq (sock s) = false ∧
      (∃ w, has_room w c = false) ∧ s' = s)).

Lemma push_runs q msg s c : chans s !! q = Some c →
  Ret ((), put_chan q (pushed_on msg c) s) ∈ push q msg s.
Proof.
  intros H. unfold push. rewrite nd_bind. exists c, s. split; [by rewrite nd_deref|]. by apply nd_det.
Qed.

(** A ready case of the select is an outcome. *)
Lemma push_select_runs closed best msg q s c w x :
  chans s !! q = Some c → x ∈ push_cases closed (has_room w c) best →
  Ret (x, match x with CaseSend => put_chan q (pushed_on msg c) s | _ => s end) ∈ push_select closed best msg q s.
Proof.
  intros Hc Hx. unfold push_select. rewrite nd_bind. exists c, s. split; [by rewrite nd_deref|].
  rewrite nd_bind. exists w, s. split; [rewrite nd_pick; destruct w; set_solver|].
  rewrite nd_bind. exists x, s. split; [by rewrite nd_pick|].
  destruct x; [by apply nd_ret| |by apply nd_ret].
  rewrite nd_bind. eexists (), _. split; [by apply push_runs|by apply nd_ret].
Qed.

Lemma doPushMsg_iff q msg s r s' : Ret (r, s') ∈ doPushMsg msg q s ↔ push_outcome q msg s r s'.
Proof.
  split.
  - intros H. unfold doPushMsg in H. runs H. apply push_select_spec in Hr as (c & Hc & Hx).
    exists c. split; [done|]. destruct x; naive_solver.
  - intros (c & Hc & H). unfold doPushMsg. rewrite nd_bind. eexists _, _. split; [by apply nd_read|].
    rewrite nd_bind. destruct H as [(-> & [w Hw] & ->)|[(-> & Hcl & ->)|(-> & Hb & Hcl & [w Hw] & ->)]].
    + eexists CaseSend, _. split; [|by apply nd_ret]. apply (push_select_runs _ _ _ _ _ c w CaseSend); [done|].
      rewrite Hw. destruct (closedq _); cbn; set_solver.
    + eexists CaseClosed, s. split; [|by apply nd_ret]. apply (push_select_runs _ _ _ _ _ c true CaseClosed); [done|].
      rewrite Hcl. destruct (has_room _ _); cbn; set_solver.
    + eexists CaseDefault, s. split; [|by apply nd_ret]. apply (push_select_runs _ _ _ _ _ c w CaseDefault); [done|].
      rewrite Hcl, Hw, Hb. cbn. set_solver.
Qed.

(** The world after a change of the memory. *)
Definition with_wd (w : world) (s : sworld) : sworld :=
  mkSWorld w (sstore s) (sock s) (chans s) (spipes s) (senders s) (next_obj s).

Lemma nd_lift {A} (m : M world A) a s s' :
  Ret (a, s') ∈ lift_wd m s ↔ ∃ w, m (wd s) = Ret (a, w) ∧ s' = with_wd w s.
Proof.
  unfold lift_wd. rewrite nd_det. destruct (m (wd s)) as [[b w]|p].
  - split; [intros [= <- <-]; by exists w|]. by intros (w' & [= <- <-] & ->).
  - split; [done|]. by intros (w & ? & _).
Qed.

(** The route [SendMsg] takes. *)
Definition routed (msg : Message) (s : sworld) : outcome (route * sworld) :=
  SendMsg_route (meta msg) (wread (wd s) (Destination msg)) s.

Lemma free_iff msg s (r : option err) s' :
  Ret (r, s') ∈ (lift_wd (Message_FreeAll msg) ;; mret None) s ↔
  r = None ∧ ∃ w, Message_FreeAll msg (wd s) = Ret ((), w) ∧ s' = with_wd w s.
Proof.
  rewrite nd_bind. split.
  - intros ([] & s1 & (w & Hw & ->)%nd_lift & [-> ->]%nd_ret). eauto.
  - intros (-> & w & Hw & ->). exists (), (with_wd w s). split; [apply nd_lift; by exists w|by apply nd_ret].
Qed.

Lemma sendToPipe_iff id msg s r s' :
  Ret (r, s') ∈ sendToPipe id msg s ↔
  match pipes (sock s) !! id with
  | Some p => ∃ sp, spipes s !! p = Some sp ∧ push_outcome (sp_sendq sp) msg s r s'
  | None => r = Some ErrBrokenPath ∧ s' = s
  end.
Proof.
  unfold sendToPipe. rewrite nd_bind. split.
  - intros (k & s1 & [-> ->]%nd_read & H). destruct (pipes (sock s) !! id); [|by apply nd_ret].
    apply nd_bind in H as (sp & s1 & [Hsp ->]%nd_deref & Hp%doPushMsg_iff). by exists sp.
  - intros H. exists (sock s), s. split; [by apply nd_read|]. destruct (pipes (sock s) !! id).
    + destruct H as (sp & ? & ?). apply nd_bind. exists sp, s. split; [by apply nd_deref|by apply doPushMsg_iff].
    + by apply nd_ret.
Qed.


(** ** Sending to all *)

Lemma Dup_meta msg w dup w' : Dup msg w = Ret (dup, w') → meta dup = meta msg.
Proof.
  unfold Dup. repeat intros (? & ? & ? & ?)%M_bind_Ret.
  repeat match goal with H : (_ ≫= _) _ = _ |- _ => apply M_bind_Ret in H as (? & ? & ? & H) end.
  repeat match goal with H : mret _ _ = _ |- _ => injection H as <- _ end. done.
Qed.

(** How many of the pipes [ps] have the queue [q]. *)
Definition copies (q : nat) (ps : list nat) (s : sworld) : nat :=
  length (filter (λ p, sp_sendq <$> spipes s !! p = Some q) ps).

(** [s'] has the messages [l] more on the queue [q], all with the header of [msg]: at most
    [n], and [n] unless one could be refused. *)
Definition got_copies (msg : Message) (n : nat) (q : nat) (s s' : sworld) : Prop :=
  ∀ c, chans s !! q = Some c → ∃ l,
    chans s' !! q = Some (Chan (cap c) (buffer c ++ l) (pushed c ++ l) (taken c)) ∧
    Forall (λ m, meta m = meta msg) l ∧ (length l ≤ n)%nat ∧
    (closedq (sock s) = false → bestEffort (sock s) = false → length l = n).

Lemma got_none msg q s s' : chans s' = chans s → got_copies msg 0 q s s'.
Proof.
  intros E c Hc. exists []. rewrite E, !app_nil_r. split; [by destruct c|]. by split.
Qed.

Lemma got_more msg n m q s1 s2 s3 : sock s2 = sock s1 →
  got_copies msg n q s1 s2 → got_copies msg m q s2 s3 → got_copies msg (n + m) q s1 s3.
Proof.
  intros E H1 H2 c (l1 & H3 & F1 & B1 & N1)%H1. destruct (H2 _ H3) as (l2 & H4 & F2 & B2 & N2).
  exists (l1 ++ l2). cbn in H4. rewrite <- !app_assoc in H4. split; [done|]. rewrite length_app.
  split; [by apply Forall_app|]. split; [lia|]. intros Hc Hb. rewrite E in N2. by rewrite N1, N2.
Qed.

Lemma push_got msg q0 m s r s' q :
  Ret (r, s') ∈ doPushMsg m q0 s → meta m = meta msg →
  sock s' = sock s ∧ spipes s' = spipes s ∧ got_copies msg (if decide (q0 = q) then 1 else 0)%nat q s s'.
Proof.
  intros (c & Hc & H)%doPushMsg_iff Hm.
  assert (Hstay : s' = s → r ≠ None → closedq (sock s) = true ∨ bestEffort (sock s) = true →
    sock s' = sock s ∧ spipes s' = spipes s ∧ got_copies msg (if decide (q0 = q) then 1 else 0)%nat q s s').
  { intros -> _ Hor. split; [done|split; [done|]]. intros c1 Hc1. exists []. rewrite !app_nil_r.
    split; [by destruct c1|]. split; [done|]. split; [cbn; lia|]. intros H1 H2. destruct Hor; congruence. }
  destruct H as [(-> & _ & ->)|[(-> & ? & ->)|(-> & ? & ? & ? & ->)]]; [|apply Hstay; auto..].
  split; [done|split; [done|]]. case_decide as E.
  - subst q0. intros c1 Hc1. rewrite Hc in Hc1. injection Hc1 as <-. exists [m]. cbn.
    rewrite lookup_insert_eq. split; [done|]. by repeat constructor.
  - intros c1 Hc1. exists []. rewrite !app_nil_r. cbn. rewrite lookup_insert_ne by done.
    split; [by destruct c1|]. by repeat constructor.
Qed.

Lemma push_copies_got msg q ps s u s' :
  Ret (u, s') ∈ push_copies ps msg s →
  sock s' = sock s ∧ spipes s' = spipes s ∧ got_copies msg (copies q ps s) q s s'.
Proof.
  revert s. induction ps as [|p ps IH]; intros s H; cbn [push_copies] in H.
  { apply nd_ret in H as [_ ->]. split; [done|]. split; [done|]. by apply got_none. }
  runs H. apply nd_lift in Hr as (w & HD%Dup_meta & ->).
  apply (push_got msg _ _ _ _ _ q) in Hr0 as (E1 & E2 & G1); [|done].
  apply IH in H as (E3 & E4 & G2). cbn in E1, E2. split; [congruence|]. split; [congruence|].
  replace (copies q (p :: ps) s) with ((if decide (sp_sendq x = q) then 1 else 0) + copies q ps s0)%nat.
  - eapply got_more; [|exact G1|exact G2]. done.
  - unfold copies. rewrite E2, filter_cons, Hd. cbn. repeat case_decide; naive_solver.
Qed.


(** ** Receiving after [Close] *)

Fixpoint recv_n (n : nat) : ND (list (Message + err)) :=
  match n with
  | O => mret []
  | S n => x ← RecvMsg; l ← recv_n n; mret (x :: l)
  end.

Lemma nd_bind_single {A B} (m : ND A) (f : A → ND B) s a s' :
  m s = [Ret (a, s')] → (m ≫= f) s = f a s'.
Proof. intros H. unfold mbind, ND_bind. rewrite H. cbn. apply app_nil_r. Qed.

Lemma nd_deref_single {A B} (f : sworld → option A) (g : A → ND B) s a :
  f s = Some a → (deref_s f ≫= g) s = g a s.
Proof. intros H. apply nd_bind_single. unfold deref_s, det. by rewrite H. Qed.

Lemma nd_read_single {A B} (f : sworld → A) (g : A → ND B) s : (read_s f ≫= g) s = g (f s) s.
Proof. by apply nd_bind_single. Qed.

Lemma RecvMsg_some s c msg rest :
  chans s !! recvq (sock s) = Some c → buffer c = msg :: rest →
  RecvMsg s = [Ret (inl msg, put_chan (recvq (sock s)) (Chan (cap c) rest (pushed c) (taken c ++ [msg])) s)].
Proof.
  intros Hc Hb. unfold RecvMsg. rewrite nd_read_single, (nd_deref_single _ _ _ c), Hb by done.
  erewrite nd_bind_single; [done|]. unfold pull. rewrite (nd_deref_single _ _ _ c), Hb by done.
  reflexivity.
Qed.

Lemma put_chan_id q c s : chans s !! q = Some c → put_chan q c s = s.
Proof. intros H. destruct s. unfold put_chan. cbn in *. f_equal. by apply insert_id. Qed.
Lemma put_chan_twice q c d s : put_chan q c (put_chan q d s) = put_chan q c s.
Proof. unfold put_chan. cbn. by rewrite insert_insert_eq. Qed.

(** C22: after [Close] a receiver gets every message still queued, in order, and then
    [ErrClosed]; no call blocks and there is no other outcome. *)
Theorem recv_after_close_drains s c :
  closedq (sock s) = true → chans s !! recvq (sock s) = Some c →
  recv_n (length (buffer c) + 1) s =
    [Ret ((inl <$> buffer c) ++ [inr ErrClosed],
          put_chan (recvq (sock s)) (Chan (cap c) [] (pushed c) (taken c ++ buffer c)) s)].
Proof.
  intros Hcl. remember (buffer c) as l eqn:Hl. revert s c Hcl Hl.
  induction l as [|msg l IH]; intros s c Hcl Hl Hc.
  - cbn [recv_n length Nat.add].
    assert (HR : RecvMsg s = [Ret (inr ErrClosed, s)]).
    { unfold RecvMsg. rewrite nd_read_single, (nd_deref_single _ _ _ c), <- Hl, Hcl by done. done. }
    rewrite (nd_bind_single _ _ _ _ _ HR), put_chan_id by (rewrite Hc, app_nil_r, Hl; by destruct c). done.
  - cbn [recv_n length Nat.add]. erewrite nd_bind_single by (by eapply RecvMsg_some).
    erewrite nd_bind_single; [|apply (IH _ (Chan (cap c) l (pushed c) (taken c ++ [msg])))];
      [|done|done|apply lookup_insert_eq].
    rewrite put_chan_twice. cbn [cap pushed taken]. by rewrite <- app_assoc.
Qed.

(** ** All interleavings *)


(** A pipe in the socket's map is registered under its own id and has not been
    stopped: the [close(p.stopq)] of its removal cannot be the second one. *)
Theorem mapped_pipes_open w st opts s id p :
  reached w st opts s → pipes (sock s) !! id = Some p →
  ∃ sp, spipes s !! p = Some sp ∧ sp_id sp = id ∧ stopq sp = false.
Proof. intros [I _]%reached_inv. apply (inv_pipes _ I). Qed.

(** ** Options *)

(** The option [NoSend] never takes effect, whatever its value: the field
    [noSend] stays false, and a [Send] that returns nil has put a message on the queue. *)
Theorem noSend_never_set w st opts s content s' :
  reached w st opts s →
  noSend (sock s) = false ∧
  (Ret (None, s') ∈ Send content s → ∃ c msg w',
     NewSendMessage 0 SendTypeToOne (ttl (sock s)) [] [] content (wd s) = Ret (msg, w') ∧
     chans s !! sendq (sock s) = Some c ∧ chans s' !! sendq (sock s) = Some (pushed_on msg c)).
Proof.
  intros [I Hns]%reached_inv. split; [done|]. intros H. unfold Send in H.
  rewrite nd_bind in H. destruct H as (k & s1 & [-> ->]%nd_read & H). rewrite Hns in H.
  apply nd_bind in H as (msg & s1 & (w' & HN & ->)%nd_lift & H).
  apply nd_bind in H as (k & s1 & [-> ->]%nd_read & (c & Hc & H)%doPushMsg_iff).
  exists c, msg, w'. split; [exact HN|]. split; [exact Hc|].
  destruct H as [(_ & _ & ->)|[([=] & _)|([=] & _)]]. apply lookup_insert_eq.
Qed.

Lemma set_size_fresh val s s1 :
  Ret (None, s1) ∈ set_option Socket.SendQueueSize val s → sendq (sock s1) = next_obj s.
Proof.
  unfold set_option. destruct (SetOption _ _ _ _ _ _) as [[[e|] st]|]; [| |by intros H%not_elem_of_nil].
  { intros H%list_elem_of_singleton. discriminate H. }
  intros H. apply nd_bind in H as (u & s2 & H & [_ ->]%nd_ret). unfold onOptionChange in H.
  rewrite !bool_decide_eq_false_2, bool_decide_eq_true_2 in H by done.
  apply nd_bind in H as (n & s3 & Hn & H). apply nd_bind in H as (q & s4 & Hq & H).
  apply nd_det in Hn. apply nd_det in H. injection H as _ <-. cbn.
  apply make_chan_spec in Hq as [-> _]. repeat case_match; simplify_eq. done.
Qed.

(** After a change of [SendQueueSize] new messages go to a new queue that no
    sender of the pipes connected before ever reads. *)
Theorem size_change_strands_senders w st opts s val s1 s2 i se :
  reached w st opts s → senders s !! i = Some se →
  Ret (None, s1) ∈ set_option Socket.SendQueueSize val s → rtc moves s1 s2 →
  ∃ se', senders s2 !! i = Some se' ∧ se_pipe se' = se_pipe se ∧ se_queue se' = se_queue se ∧
    se_queue se' ≠ Some (sendq (sock s1)).
Proof.
  intros [I _]%reached_inv Hi Hset Hm%moves_good.
  destruct (good_set_option _ _ _ _ _ Hset I) as [I1 K1]. destruct (Hm I1) as [_ K2].
  destruct (kept_senders _ _ K1 _ _ Hi) as (se1 & Hi1 & Hp1 & Hq1).
  destruct (kept_senders _ _ K2 _ _ Hi1) as (se2 & Hi2 & Hp2 & Hq2).
  exists se2. split; [done|]. split; [congruence|]. split; [congruence|].
  apply set_size_fresh in Hset. rewrite Hset, Hq2, Hq1. intros Hq.
  apply (inv_senders _ I) in Hi as [_ Hlt]. apply Hlt in Hq. lia.
Qed.

(** ** Witnesses *)

Definition first_run {A} (c : ND A) (s : sworld) : option (A * sworld) :=
  match c s with Ret r :: _ => Some r | _ => None end.
Lemma first_run_in {A} (c : ND A) s a s' : first_run c s = Some (a, s') → Ret (a, s') ∈ c s.
Proof. unfold first_run. destruct (c s) as [|[r|] l]; [done| |done]. intros [= ->]. by left. Qed.

(** A socket created with [NoSend] set and a one-place queue for receiving. *)
Definition demo_store : store :=
  [mkOptions {[Socket.NoSend := VBool true; Socket.RecvQueueSize := VUint16 1]} None [] None []].
Definition demo_new : sworld := default (mkSWorld (world_init []) [] (mkSocket 0 false ∅ false 0 false 0 false 0 false) ∅ ∅ ∅ 1)
  (match New (world_init []) demo_store 0 with Ret (_, s) :: _ => Some s | _ => None end).
Definition demo_then (e : sevent) (s : sworld) : sworld :=
  match first_run (run_event e) s with Some (_, s') => s' | None => s end.
Definition demo_added : sworld := demo_then (EAddPipe 7 false FreeLevelAll) demo_new.
Definition demo_started : sworld := demo_then (EStartSender 4) demo_added.
Definition demo_sent : sworld := demo_then (ESend [104; 105]) demo_started.
Definition demo_closed : sworld := demo_then EClose demo_sent.
Definition demo_one : Message := mkMessage NilSlice (mkMeta SendTypeToOne 5 0 0 0) NilSlice NilSlice NilSlice.
Definition demo_all : Message * sworld :=
  match lift_wd (NewSendMessage 0 SendTypeToAll 5 [] [] [104; 105]) demo_started with
  | Ret r :: _ => r | _ => (demo_one, demo_started) end.

Ltac run_here := apply first_run_in; vm_compute; reflexivity.

Lemma demo_reached e s : rtc moves demo_new s → Ret ((), demo_then e s) ∈ run_event e s → rtc moves demo_new (demo_then e s).
Proof. intros H He. eapply rtc_r; [exact H|by exists e]. Qed.
Lemma demo_new_reached s : rtc moves demo_new s → reached (world_init []) demo_store 0 s.
Proof. intros H. exists demo_new. split; [unfold New; run_here|exact H]. Qed.
Lemma demo_started_reached : reached (world_init []) demo_store 0 demo_started.
Proof. apply demo_new_reached. do 2 (apply demo_reached; [|run_here]). apply rtc_refl. Qed.



Lemma recv_after_close_drains_witness :
  let s := put_chan 1 (Chan 1 [demo_one] [demo_one] []) demo_closed in
  recv_n 2 s = [Ret ([inl demo_one; inr ErrClosed], put_chan 1 (Chan 1 [] [demo_one] [demo_one]) s)].
Proof.
  intros s. exact (recv_after_close_drains s (Chan 1 [demo_one] [demo_one] []) eq_refl eq_refl).
Defined.


Lemma mapped_pipes_open_witness :
  ∃ sp, spipes demo_started !! 4%nat = Some sp ∧ sp_id sp = 7 ∧ stopq sp = false.
Proof.
  apply (mapped_pipes_open (world_init []) demo_store 0 demo_started 7 4 demo_started_reached).
  vm_compute. reflexivity.
Defined.

Lemma noSend_never_set_witness :
  GetOptionDefault (sstore demo_started) (s_opts (sock demo_started)) Socket.NoSend = Some (VBool true) ∧
  ∃ c msg, chans demo_sent !! 2%nat = Some (pushed_on msg c).
Proof.
  split; [vm_compute; reflexivity|].
  destruct (noSend_never_set (world_init []) demo_store 0 demo_started [104; 105] demo_sent demo_started_reached)
    as [_ H]. destruct H as (c & msg & w' & _ & _ & H).
  - run_here.
  - exists c, msg. exact H.
Defined.

Lemma size_change_strands_senders_witness :
  ∃ s1 se', Ret (None, s1) ∈ set_option Socket.SendQueueSize (VInt 9) demo_started ∧
    senders s1 !! 5%nat = Some se' ∧ se_queue se' ≠ Some (sendq (sock s1)).
Proof.
  destruct (first_run (set_option Socket.SendQueueSize (VInt 9)) demo_started) as [[[e|] s1]|] eqn:E;
    [vm_compute in E; discriminate E| |vm_compute in E; discriminate E].
  apply first_run_in in E.
  destruct (size_change_strands_senders (world_init []) demo_store 0 demo_started (VInt 9) s1 s1 5
    (mkSender 4 (Some 2%nat) Selecting) demo_started_reached) as (se' & H1 & _ & _ & H2).
  - vm_compute. reflexivity.
  - exact E.
  - apply rtc_refl.
  - exists s1, se'. split; [exact E|]. split; [exact H1|exact H2].
Defined.
