(* ===== verification/Attached.v ===== *)
(** A socket with its connector: socket.go's New and HandlePipeEvent over connector.go.

    [New] makes the option set the two share, the connector with the limit the set holds, and the
    socket, and registers the socket's handler of pipe events.  The connector calls the
    handler in the critical section in which its pipes change, so a step of the connector and what
    the handler does are one step of [jstep]; the socket's other activity is
    interleaved freely.  The shared option sets are kept in both states and copied along. *)
From S2P Require Import Prelude Errs GoHeap Bytespool Message MessageFacts MessageThms Routing IdGen Options OptionSet OptionReg Pipe.
From S2P Require Connector ConnectorFacts ConnectorThms.
From S2P Require Import OptionSetThms Socket SocketFacts.
From stdpp Require Import base tactics numbers list gmap sets strings relations.
From Stdlib Require Import ZArith Lia.
Open Scope Z_scope.

(** ** Constructors *)

Definition no_hook (_ : nat) (_ : Option) (_ _ : value) (s : state unit) : option err * state unit := (None, s).

(** [connector.NewWithLimitAndOptions]: the hook 0 is the connector's. *)
Definition NewWithLimitAndOptions (lim : Z) (st : store) (opts : nat) (g : RecyclableIDGenerator)
  : option (outcome (unit * Connector.cworld)) :=
  s ← AddOptionChangeHook opts 0 (State st ());
  o ← sets s !! opts;
  Some (Connector.for_each (OptionValues o) (λ '(opt, v), Connector.onOptionChange opt v)
          (Connector.NewWithLimitAndOptions lim (sets s) opts g)).

Definition NewWithOptions := NewWithLimitAndOptions (-1).

Definition NewWithLimitAndOptionValues (lim : Z) (ovs : gmap Option value) (st : store) (g : RecyclableIDGenerator)
  : option (outcome (unit * Connector.cworld)) :=
  '(r, s) ← NewOptionsWithValues no_hook (map_to_list ovs) (State st ());
  NewWithLimitAndOptions lim (sets s) r g.

Definition NewWithOptionValues := NewWithLimitAndOptionValues (-1).

Record jworld := J { jc : Connector.cworld; js : sworld }.

Definition with_ostore (st : store) (w : Connector.cworld) : Connector.cworld :=
  Connector.mkWorld st (Connector.gen w) (Connector.ctor w) (Connector.dtab w) (Connector.ltab w) (Connector.ptab w)
    (Connector.timers w) (Connector.tasks w) (Connector.events w) (Connector.fresh_ref w).
Definition with_sstore (st : store) (s : sworld) : sworld :=
  mkSWorld (wd s) st (sock s) (chans s) (spipes s) (senders s) (next_obj s).

(** [New(ovs)]: the hook 1 is the socket's; the connector's events go to it from now on. *)
Definition New (ovs : gmap Option value) (w : world) (st : store) (g : RecyclableIDGenerator) : list (outcome jworld) :=
  match ('(r, s) ← NewOptionsWithValues no_hook (map_to_list ovs) (State st ());
         c ← NewWithOptions (sets s) r g;
         Some (r, c)) with
  | None => []
  | Some (_, Panics q) => [Panics q]
  | Some (r, Ret (_, c)) =>
      flat_map (λ o, match o with
        | Panics q => [Panics q]
        | Ret (_, s) =>
            match AddOptionChangeHook r 1 (State (sstore s) ()), Connector.SetPipeEventHandler c with
            | Some st, Ret (_, c) => [Ret (J (with_ostore (sets st) c) (with_sstore (sets st) s))]
            | _, _ => []
            end
        end) (Socket.New w (Connector.ostore c) r)
  end.

Definition NewDefault : world → store → RecyclableIDGenerator → list (outcome jworld) := New ∅.

(** A nil map is [None]: writing to it panics. *)
Definition NewNoSend (ovs : option (gmap Option value)) (w : world) (st : store) (g : RecyclableIDGenerator)
  : list (outcome jworld) :=
  match ovs with
  | None => [Panics PanicNilMap]
  | Some m => New (<[OptionReg.Socket.NoSend := VBool true]> m) w st g
  end.
Definition NewNoRecv (ovs : option (gmap Option value)) (w : world) (st : store) (g : RecyclableIDGenerator)
  : list (outcome jworld) :=
  match ovs with
  | None => [Panics PanicNilMap]
  | Some m => New (<[OptionReg.Socket.NoRecv := VBool true]> m) w st g
  end.

(** ** Pipe events *)

(** [HandlePipeEvent]; [answers] is what a removed pipe answers while it is drained. *)
Definition HandlePipeEvent (e : Connector.PipeEvent) (q : pipe) (answers : list (option err)) : ND unit :=
  match e with
  | Connector.PipeEventAdd => addPipe (id q) (raw q) (msgFreeLevel q) ;; mret ()
  | Connector.PipeEventRemove => remove_pipe (id q) answers
  end.

(** What the handler did in a step of the connector from [w] to [w']. *)
Definition handled (w w' : Connector.cworld) (s s' : sworld) : Prop :=
  (Connector.events w' = Connector.events w ∧ s' = s) ∨
  ∃ e q answers, (∃ p x, Connector.ptab w' !! p = Some x ∧ Connector.obj x = q) ∧ Connector.events w' = (e, id q) :: Connector.events w ∧ Ret ((), s') ∈ HandlePipeEvent e q answers s.

(** What the socket does on its own. *)
Definition own (e : sevent) : Prop :=
  match e with EAddPipe _ _ _ | ERemPipe _ _ | ESetOption _ _ => False | _ => True end.

Inductive jstep : jworld → jworld → Prop :=
  | j_conn lab w w' s s' :
      Connector.cstep w lab w' → ConnectorThms.handler_kept lab → (∀ opt v, lab ≠ Connector.LCall (Connector.COption opt v)) →
      handled w w' s s' → jstep (J w s) (J w' (with_sstore (Connector.ostore w') s'))
  | j_sock e w s s' : own e → sstep e s s' → jstep (J w s) (J (with_ostore (sstore s') w) s')
  | j_option opt val v w w' s s' :
      Validate opt val = inr v → Connector.cstep w (Connector.LCall (Connector.COption opt v)) w' →
      sstep (ESetOption opt val) s s' → jstep (J w s) (J (with_ostore (sstore s') w') s').

(** ** The socket's own activity adds no pipe *)

Definition shrinks (s s' : sworld) : Prop := pipes (sock s') ⊆ pipes (sock s).
#[global] Instance shrinks_preorder : PreOrder shrinks.
Proof.
  unfold shrinks. split; [intros s; reflexivity|].
  intros s1 s2 s3 H1 H2. by transitivity (pipes (sock s2)).
Qed.

Lemma sh_modify (f : sworld → sworld) : (∀ s, pipes (sock (f s)) = pipes (sock s)) → evolves shrinks (det (modify f)).
Proof. intros H s [] s' E%nd_det. injection E as <-. unfold shrinks. by rewrite H. Qed.
Lemma sh_lift {A} (m : M world A) : evolves shrinks (lift_wd m).
Proof. intros s a s' H%nd_det. destruct (m (wd s)) as [[b w]|]; [|done]. injection H as <- <-. unfold shrinks. reflexivity. Qed.
Lemma sh_route {A} (r : M sworld A) : (∀ s a s', r s = Ret (a, s') → s' = s) → evolves shrinks (det r).
Proof. intros H s a s' E%nd_det. apply H in E as ->. reflexivity. Qed.
Lemma sh_new_obj : evolves shrinks new_obj.
Proof. intros s a s' E%nd_det. injection E as <- <-. unfold shrinks. reflexivity. Qed.
Lemma sh_get_opt {A} (assert : value → outcome A) opt : evolves shrinks (get_opt_s assert opt).
Proof. intros s a s' H%nd_det. repeat case_match; simplify_eq; reflexivity. Qed.
Lemma sh_sendTo_route m dest : evolves shrinks (det (sendTo_route m dest)).
Proof. apply sh_route. intros s a s'. apply sendTo_route_state. Qed.
Lemma sh_SendMsg_route m dest : evolves shrinks (det (SendMsg_route m dest)).
Proof. apply sh_route. intros s a s'. apply SendMsg_route_state. Qed.

Create HintDb shrinks discriminated.
#[export] Hint Resolve @sh_lift sh_new_obj @sh_get_opt sh_sendTo_route sh_SendMsg_route : shrinks.
Ltac sh :=
  repeat first
    [ solve [eauto with shrinks]
    | apply ev_ret; apply _ | apply ev_pick; apply _ | apply ev_blocked | apply ev_read; apply _
    | apply ev_deref; apply _ | apply ev_panic | apply sh_modify; reflexivity
    | apply ev_bind; [apply _| |intros ?] | case_match ].

Lemma sh_push_select closed best msg q : evolves shrinks (push_select closed best msg q).
Proof. unfold push_select, push, upd_chans. sh. Qed.
Lemma sh_pull q : evolves shrinks (pull q).
Proof. unfold pull, upd_chans. sh. Qed.
#[export] Hint Resolve sh_push_select sh_pull : shrinks.
Lemma sh_doPushMsg msg q : evolves shrinks (doPushMsg msg q).
Proof. unfold doPushMsg. sh. Qed.
#[export] Hint Resolve sh_doPushMsg : shrinks.
Lemma sh_sendToPipe i msg : evolves shrinks (sendToPipe i msg).
Proof. unfold sendToPipe. sh. Qed.
Lemma sh_push_copies ps msg : evolves shrinks (push_copies ps msg).
Proof. induction ps; cbn [push_copies]; sh. Qed.
Lemma sh_doSendMsg sp msg answer : evolves shrinks (doSendMsg sp msg answer).
Proof. unfold doSendMsg, resendMsg. sh. Qed.
Lemma sh_drop_queue fuel q : evolves shrinks (drop_queue fuel q).
Proof. induction fuel; cbn [drop_queue]; sh. Qed.
#[export] Hint Resolve sh_sendToPipe sh_push_copies sh_doSendMsg sh_drop_queue : shrinks.
Lemma sh_drain answers sp fuel : evolves shrinks (drain answers sp fuel).
Proof. induction answers; cbn [drain]; sh. Qed.
#[export] Hint Resolve sh_drain : shrinks.
Lemma sh_stopPipe p answers : evolves shrinks (stopPipe p answers).
Proof. unfold stopPipe, upd_spipes. sh. Qed.
#[export] Hint Resolve sh_stopPipe : shrinks.

(** A removed pipe is gone, whether the socket had it or not. *)
Lemma remove_pipe_gone i answers s s' :
  Ret ((), s') ∈ remove_pipe i answers s → pipes (sock s') ⊆ delete i (pipes (sock s)).
Proof.
  unfold remove_pipe, remPipe. intros (o & s1 & (k & s2 & [-> ->]%nd_read & H1)%nd_bind & H2)%nd_bind.
  destruct (pipes (sock s) !! i) as [p|] eqn:E.
  - apply nd_bind in H1 as ([] & s2 & H1%nd_det & [-> ->]%nd_ret). injection H1 as <-.
    apply sh_stopPipe in H2. exact H2.
  - apply nd_ret in H1 as [-> ->]. apply nd_ret in H2 as [_ ->]. by rewrite delete_id.
Qed.
Lemma sh_remove_pipe i answers : evolves shrinks (remove_pipe i answers).
Proof. intros s [] s' H%remove_pipe_gone. unfold shrinks. etrans; [exact H|apply delete_subseteq]. Qed.
#[export] Hint Resolve sh_remove_pipe : shrinks.

Lemma sh_set_phase i ph : evolves shrinks (set_phase i ph).
Proof. unfold set_phase, upd_senders. sh. Qed.
#[export] Hint Resolve sh_set_phase : shrinks.

Lemma sh_make_chan n : evolves shrinks (make_chan n).
Proof. unfold make_chan, upd_chans. sh. Qed.
#[export] Hint Resolve sh_make_chan : shrinks.

Lemma sh_onOptionChange opt : evolves shrinks (onOptionChange opt).
Proof. unfold onOptionChange, recvQueueSize, sendQueueSize, upd_sock. sh. Qed.
#[export] Hint Resolve sh_onOptionChange : shrinks.

Lemma sh_own e : own e → evolves shrinks (run_event e).
Proof.
  destruct e; intros Ho; try done; cbn [run_event];
    unfold Send, SendTo, SendAll, SendMsg, sendTo, sendToAll, dest_of, RecvMsg, sender_move, receiver_round, start_sender, announce, Close, stopSender,
      upd_sock, upd_senders; sh.
Qed.

Lemma sh_set_option opt val s r s' : Ret (r, s') ∈ set_option opt val s → shrinks s s'.
Proof.
  intros H. unfold set_option in H. destruct (SetOption _ _ _ _ _ _) as [[[e|] st]|].
  - apply list_elem_of_singleton in H. injection H as -> ->. reflexivity.
  - apply nd_bind in H as ([] & s1 & H & [-> ->]%nd_ret). by apply sh_onOptionChange in H.
  - by apply not_elem_of_nil in H.
Qed.

(** ** New *)

(** The limit that the options [l] set, applied one after the other to [lim]. *)
Definition limit_after (lim : Z) (l : list (Option * value)) : Z :=
  foldl (λ n ov, if bool_decide (ov.1 = OptionReg.Connector.PipeLimit) then
    match ov.2 with VInt k => k | _ => n end else n) lim l.

(** On a new connector a change of the limit changes nothing else. *)
Lemma new_option lim st opts g opt v :
  has_kind (okind opt) v →
  Connector.onOptionChange opt v (Connector.NewWithLimitAndOptions lim st opts g) =
    Ret ((), Connector.NewWithLimitAndOptions (limit_after lim [(opt, v)]) st opts g).
Proof.
  intros Hk. unfold Connector.onOptionChange, limit_after. cbn [foldl fst snd]. case_bool_decide as E; [|done].
  subst opt. destruct v as [ | | | |n| | | | | | |]; try done. cbn [intOption_Value].
  erewrite M_bind_ret_run by reflexivity. unfold Connector.checkLimit, Connector.startConnecting, Connector.stopConnecting.
  erewrite M_bind_ret_run by reflexivity. cbn. destruct (n =? -1); [reflexivity|]. destruct (_ <? n); reflexivity.
Qed.

Lemma new_options lim st opts g l : Forall (λ ov, has_kind (okind ov.1) ov.2) l →
  Connector.for_each l (λ '(opt, v), Connector.onOptionChange opt v) (Connector.NewWithLimitAndOptions lim st opts g) =
    Ret ((), Connector.NewWithLimitAndOptions (limit_after lim l) st opts g).
Proof.
  intros Hl. revert lim. induction Hl as [|[opt v] l Hk Hl IH]; intros lim; [done|]. cbn [Connector.for_each].
  erewrite M_bind_ret_run by (by apply new_option). apply IH.
Qed.

(** With distinct options it is the value held, if there is one. *)
Lemma limit_after_held lim (m : gmap Option value) :
  limit_after lim (map_to_list m) =
    match m !! OptionReg.Connector.PipeLimit with Some (VInt n) => n | _ => lim end.
Proof.
  assert (H : ∀ l lim, NoDup l.*1 → limit_after lim l =
    match (list_to_map l : gmap Option value) !! OptionReg.Connector.PipeLimit with Some (VInt n) => n | _ => lim end).
  { induction l as [|[o v] l IH]; intros lim0 Hnd; [done|]. apply NoDup_cons in Hnd as [Hni Hnd].
    unfold limit_after. cbn [foldl fst snd]. fold (limit_after (if bool_decide (o = OptionReg.Connector.PipeLimit)
      then match v with VInt k => k | _ => lim0 end else lim0) l). rewrite IH by done. cbn [list_to_map foldr].
    case_bool_decide as E.
    - subst o. cbn. rewrite lookup_insert_eq, not_elem_of_list_to_map_1 by done. by destruct v.
    - cbn. by rewrite lookup_insert_ne. }
  rewrite H by apply NoDup_fst_map_to_list. by rewrite list_to_map_to_list.
Qed.

(** ** The pipes of the two *)

(** The connector's handler is set and told the truth, and the socket knows only pipes of the connector. *)
Definition attached (j : jworld) : Prop :=
  ConnectorThms.mirrors (jc j) ∧ dom (pipes (sock (js j))) ⊆ ConnectorThms.replay (Connector.events (jc j)).

Lemma dom_shrinks s s' : shrinks s s' → dom (pipes (sock s')) ⊆ dom (pipes (sock s)).
Proof. apply subseteq_dom. Qed.

Lemma addPipe_dom i r f s p s' : Ret (p, s') ∈ addPipe i r f s → dom (pipes (sock s')) ⊆ {[i]} ∪ dom (pipes (sock s)).
Proof.
  unfold addPipe, new_spipe, sendQueueSize. intros (x & s4 & H4 & H)%nd_bind.
  apply nd_bind in H4 as (n & s1 & H1 & H4). apply sh_get_opt, dom_shrinks in H1.
  apply nd_bind in H4 as (q & s2 & H2 & H4). apply sh_make_chan, dom_shrinks in H2.
  apply nd_bind in H4 as (x' & s3 & H3 & H4). apply sh_new_obj, dom_shrinks in H3.
  apply nd_bind in H4 as ([] & s5 & H5%nd_det & [-> ->]%nd_ret). injection H5 as <-.
  apply nd_bind in H as ([] & s6 & H6%nd_det & [_ ->]%nd_ret). injection H6 as <-. cbn [sock pipes].
  rewrite dom_insert_L. set_solver.
Qed.

Lemma attached_step j j' : attached j → jstep j j' → attached j'.
Proof.
  intros [Hm Hd] H. destruct H as [lab w w' s s' Hc Hk _ Hh|e w s s' Ho Hs|opt val v w w' s s' Hv Hc Hs].
  - split; [by eapply ConnectorThms.mirrors_step|]. cbn in *.
    destruct Hh as [[-> ->]|([|] & q & answers & _ & -> & Hh)]; [done| |]; cbn [HandlePipeEvent] in Hh.
    + apply nd_bind in Hh as (p & s1 & Hh%addPipe_dom & [_ ->]%nd_ret).
      unfold ConnectorThms.replay in *. cbn [foldr]. set_solver.
    + apply remove_pipe_gone, subseteq_dom in Hh. rewrite dom_delete_L in Hh.
      unfold ConnectorThms.replay in *. cbn [foldr]. set_solver.
  - split; [exact Hm|]. cbn in *. apply (sh_own e Ho), dom_shrinks in Hs. set_solver.
  - assert (Hk : ConnectorThms.handler_kept (Connector.LCall (Connector.COption opt v))) by done.
    pose proof (ConnectorThms.mirrors_step w _ w' Hm Hk Hc) as Hm'. split; [exact Hm'|]. cbn in *.
    assert (He : Connector.events w' = Connector.events w).
    { inversion Hc as [| |? ? ? Hr]; subst. cbn in Hr. unfold Connector.onOptionChange in Hr.
      case_bool_decide; [|by injection Hr as <-]. destruct (intOption_Value v) as [n|]; [|done].
      apply M_bind_Ret in Hr as ([] & w1 & Hu & Hr). injection Hu as <-.
      apply ConnectorFacts.checkLimit_run in Hr as [[_ Ee _] _]. by rewrite Ee. }
    rewrite He. unfold sstep in Hs. cbn [run_event] in Hs. apply nd_bind in Hs as (r & s1 & Hs%sh_set_option%dom_shrinks & [_ ->]%nd_ret).
    set_solver.
Qed.

(** The values of a new option set *)
Definition valid_values (ovs : gmap Option value) : gmap Option value := foldl set_valid ∅ (map_to_list ovs).

Lemma valid_values_lookup ovs k :
  valid_values ovs !! k = ovs !! k ≫= λ v, match Validate k v with inr v => Some v | inl _ => None end.
Proof.
  unfold valid_values. rewrite set_valid_lookup by apply NoDup_fst_map_to_list. rewrite list_to_map_to_list, lookup_empty.
  by destruct (ovs !! k).
Qed.

Lemma new_set_values ovs st :
  NewOptionsWithValues no_hook (map_to_list ovs) (State st ()) =
    Some (length st, State (st ++ [mkOptions (valid_values ovs) None [] None []]) ()).
Proof.
  unfold NewOptionsWithValues, new_set. cbn [sets env].
  erewrite set_values_run; cbn [sets env]; [|by rewrite lookup_app_r, Nat.sub_diag by lia|done|done]. cbn.
  by rewrite insert_app_r_alt, Nat.sub_diag by lia.
Qed.

(** The connector of a new socket *)
Lemma new_connector lim ovs st g : (∀ k v, ovs !! k = Some v → in_range v) →
  ∃ st', NewWithLimitAndOptionValues lim ovs st g = Some (Ret ((),
    Connector.NewWithLimitAndOptions
      (match valid_values ovs !! OptionReg.Connector.PipeLimit with Some (VInt n) => n | _ => lim end) st' (length st) g)).
Proof.
  intros Hin. unfold NewWithLimitAndOptionValues. rewrite new_set_values. cbn [mbind option_bind sets].
  unfold NewWithLimitAndOptions, AddOptionChangeHook. cbn [sets env].
  rewrite lookup_app_r, Nat.sub_diag by lia. cbn [lookup list_lookup mbind option_bind sets].
  rewrite list_lookup_insert_eq by (rewrite length_app; cbn; lia). cbn [mbind option_bind]. eexists. f_equal.
  unfold OptionValues. cbn [opts]. rewrite new_options; [by rewrite limit_after_held|].
  apply Forall_forall. intros [o v] Ho%elem_of_map_to_list. rewrite valid_values_lookup in Ho. cbn.
  destruct (ovs !! o) as [v0|] eqn:E; [|done]. cbn in Ho. destruct (Validate o v0) as [|v1] eqn:Ev; [done|].
  injection Ho as <-. eapply Validate_has_kind; [by eapply Hin|done].
Qed.

Lemma new_attached ovs w st g j : (∀ k v, ovs !! k = Some v → in_range v) → Ret j ∈ New ovs w st g →
  attached j ∧ Connector.limit (Connector.ctor (jc j)) =
    match valid_values ovs !! OptionReg.Connector.PipeLimit with Some (VInt n) => n | _ => -1 end.
Proof.
  intros Hin H. destruct (new_connector (-1) ovs st g Hin) as [st' Hc].
  unfold NewWithLimitAndOptionValues in Hc. unfold New in H. rewrite new_set_values in *. cbn [mbind option_bind sets] in *.
  unfold NewWithOptions in H. rewrite Hc in H. cbn [mbind option_bind] in H.
  apply list_elem_of_In, in_flat_map in H as (o & Ho & H). apply list_elem_of_In in Ho, H.
  destruct o as [[[] s]|q]; [|apply list_elem_of_singleton in H; discriminate H].
  destruct (AddOptionChangeHook _ _ _) as [st2|]; [|by apply not_elem_of_nil in H].
  cbn in H. apply list_elem_of_singleton in H. injection H as ->. split; [|done]. split.
  - by apply (ConnectorThms.mirrors_new (match valid_values ovs !! OptionReg.Connector.PipeLimit with Some (VInt n) => n | _ => -1 end)
      (sets st2) (length st) g).
  - cbn. unfold Socket.New in Ho. match type of Ho with Ret _ ∈ ?c ?s0 => assert (Hs : evolves shrinks c) by sh;
      apply Hs, dom_shrinks in Ho end. cbn in Ho. set_solver.
Qed.

(** ** Claims *)


(** A socket whose options set the limit 2; its connector makes a dialer. *)
Definition demo_ovs : gmap Option value := {[OptionReg.Connector.PipeLimit := VInt64 2]}.
Definition demo_joint : jworld :=
  match New demo_ovs (world_init []) [] NewRecyclableIDGenerator with
  | Ret j :: _ => j
  | _ => J (Connector.NewWithLimitAndOptions 0 [] 0 NewRecyclableIDGenerator)
           (mkSWorld (world_init []) [] (mkSocket 0 false ∅ false 0 false 0 false 0 false) ∅ ∅ ∅ 0)
  end.
Definition demo_call : Connector.call := Connector.CNewDialer "inproc://x" [] (Some None).
Definition demo_called : Connector.cworld :=
  match Connector.run_call demo_call (jc demo_joint) with Ret (_, w) => w | Panics _ => jc demo_joint end.

Lemma demo_joint_new : Ret demo_joint ∈ New demo_ovs (world_init []) [] NewRecyclableIDGenerator.
Proof. apply list_elem_of_lookup. exists 0%nat. vm_compute. reflexivity. Qed.

Lemma call_step j k w' :
  Connector.run_call k (jc j) = Ret ((), w') → ConnectorThms.handler_kept (Connector.LCall k) →
  (∀ opt v, k ≠ Connector.COption opt v) → Connector.events w' = Connector.events (jc j) →
  jstep j (J w' (with_sstore (Connector.ostore w') (js j))).
Proof.
  intros H Hk Ho He. destruct j as [w s]. apply (j_conn (Connector.LCall k) w w' s s); [by apply Connector.step_call|done| |by left].
  intros opt v [= ->]. by eapply Ho.
Qed.

Definition demo_after : jworld := J demo_called (with_sstore (Connector.ostore demo_called) (js demo_joint)).
Lemma demo_joint_calls : jstep demo_joint demo_after.
Proof. apply (call_step demo_joint demo_call demo_called); [vm_compute; reflexivity|done|done|vm_compute; reflexivity]. Qed.

