(* ===== verification/Pair.v ===== *)
(** pair.go: the two sockets of a pair.

    The sockets of a pair hand messages over on two unbuffered channels and share [closedq].
    A call of [SendMsg] or [RecvMsg] waits in its select; [pstep] interleaves the calls of the
    clients, the exchanges, closing and the changes of options.  [pcall] records where a
    call is; the packet in it and the names of the partners are ghosts. *)
From S2P Require Import Prelude Errs GoHeap GoIO Bytespool Message Packet MessageFacts MessageSend MessageThms Options OptionSet OptionReg.
From stdpp Require Import base tactics numbers gmap list relations.
From Stdlib Require Import ZArith Lia.
Open Scope Z_scope.

Record pairSocket := mkPair { p_opts : nat; noSend : bool; ttl : Z; bestEffort : bool; peer : option bool }.

(** Sides are [false] (the first socket) and [true].  [Handed s m k j]: [SendMsg m] on the side
    [s] returned nil, the call [j] took [m]; [Got s m k i]: [RecvMsg] on [s] returned the [m] of
    the call [i]. *)
Inductive pcall :=
  | Sending (s : bool) (m : Message) (k : packet)
  | Receiving (s : bool)
  | Handed (s : bool) (m : Message) (k : packet) (j : nat)
  | Got (s : bool) (m : Message) (k : packet) (i : nat)
  | Returned (e : option err).

Record pworld := mkP {
  wd : world; pstore : store; sk : gmap bool pairSocket; closedq : bool;
  calls : gmap nat pcall; next_call : nat }.

Definition with_wd (x : world) (w : pworld) : pworld := mkP x (pstore w) (sk w) (closedq w) (calls w) (next_call w).
Definition with_pstore (x : store) (w : pworld) : pworld := mkP (wd w) x (sk w) (closedq w) (calls w) (next_call w).
Definition with_sk (s : bool) (x : pairSocket) (w : pworld) : pworld :=
  mkP (wd w) (pstore w) (<[s := x]> (sk w)) (closedq w) (calls w) (next_call w).
Definition with_call (i : nat) (x : pcall) (w : pworld) : pworld :=
  mkP (wd w) (pstore w) (sk w) (closedq w) (<[i := x]> (calls w)) (next_call w).
Definition with_closedq (w : pworld) : pworld := mkP (wd w) (pstore w) (sk w) true (calls w) (next_call w).

(** A method call on the socket [me], which may be nil. *)
Definition this (me : option bool) : M pworld pairSocket := λ w,
  match me ≫= λ s, sk w !! s with Some k => Ret (k, w) | None => Panics PanicNilDeref end.
Definition upd (me : option bool) (f : pairSocket → pairSocket) : M pworld unit := λ w,
  match me with
  | Some s => match sk w !! s with Some k => Ret ((), with_sk s (f k) w) | None => Panics PanicNilDeref end
  | None => Panics PanicNilDeref
  end.
Definition lift_wd {A} (c : M world A) : M pworld A := λ w,
  match c (wd w) with Ret (a, x) => Ret (a, with_wd x w) | Panics q => Panics q end.

(** [s.GetOptionDefault(opt).(T)] *)
Definition get_opt {A} (assert : value → outcome A) (r : nat) (opt : Option) : M pworld A := λ w,
  match GetOptionDefault (pstore w) r opt with
  | None => Panics PanicNilDeref
  | Some v => match assert v with Ret a => Ret (a, w) | Panics q => Panics q end
  end.

(** The second case repeats [NoRecv] and never matches, so the call on the peer - which is nil
    while the pair is made - does nothing.  [depth]: the calls that may still be nested. *)
Fixpoint onOptionChange (depth : nat) (opt : Option) (me : option bool) : M pworld unit :=
  if bool_decide (opt = Socket.NoRecv) then
    match depth with
    | O => mret ()
    | S depth => k ← this me; onOptionChange depth Socket.NoSend (peer k)
    end
  else if bool_decide (opt = Socket.NoRecv) then
    k ← this me; a ← get_opt boolOption_Value (p_opts k) Socket.NoSend;
    if (a : bool) then upd me (λ k, mkPair (p_opts k) true (ttl k) (bestEffort k) (peer k)) else
    p ← this (peer k); b ← get_opt boolOption_Value (p_opts p) Socket.NoRecv;
    upd me (λ k, mkPair (p_opts k) b (ttl k) (bestEffort k) (peer k))
  else if bool_decide (opt = Socket.SendTTL) then
    k ← this me; n ← get_opt uint8Option_Value (p_opts k) Socket.SendTTL;
    upd me (λ k, mkPair (p_opts k) (noSend k) n (bestEffort k) (peer k))
  else if bool_decide (opt = Socket.SendBestEffort) then
    k ← this me; b ← get_opt boolOption_Value (p_opts k) Socket.SendBestEffort;
    upd me (λ k, mkPair (p_opts k) (noSend k) (ttl k) b (peer k))
  else mret ().

Definition newPairSocket (s : bool) : M pworld unit :=
  modify (λ w, with_pstore (pstore w ++ [mkOptions ∅ None [] None []])
                 (with_sk s (mkPair (length (pstore w)) false 0 false None) w)) ;;
  onOptionChange 1 Socket.NoRecv (Some s) ;; onOptionChange 1 Socket.NoSend (Some s) ;;
  onOptionChange 1 Socket.SendTTL (Some s) ;; onOptionChange 1 Socket.SendBestEffort (Some s).

Definition set_peer (s : bool) : M pworld unit :=
  upd (Some s) (λ k, mkPair (p_opts k) (noSend k) (ttl k) (bestEffort k) (Some (negb s))).

Definition NewPair (w : world) (st : store) : outcome (unit * pworld) :=
  (newPairSocket false ;; newPairSocket true ;; set_peer false ;; set_peer true)
    (mkP w st ∅ false ∅ 0).

(** [SetOption] on a socket's set, whose hook is [onOptionChange]. *)
Definition set_option (s : bool) (opt : Option) (val : value) : M pworld (option err) := λ w,
  match sk w !! s with
  | None => Panics PanicNilDeref
  | Some k =>
      match OptionSet.SetOption (λ _ _ _ _ x, (None, x)) (S (p_opts k)) (p_opts k) opt val (State (pstore w) ()) with
      | None => Panics PanicNilDeref
      | Some (Some e, _) => Ret (Some e, w)
      | Some (None, st) => (onOptionChange 1 opt (Some s) ;; mret None) (with_pstore (sets st) w)
      end
  end.

(** ** Sending and receiving *)

(** A new call, in the phase [p]. *)
Definition start (p : pcall) : M pworld nat := λ w,
  Ret (next_call w, mkP (wd w) (pstore w) (sk w) (closedq w) (<[next_call w := p]> (calls w)) (S (next_call w))).

Definition RecvMsg (s : bool) : M pworld nat := start (Receiving s).

Definition SendMsg (s : bool) (m : Message) (k : packet) : M pworld nat :=
  x ← this (Some s);
  if noSend x then lift_wd (Message_FreeAll m) ;; start (Returned None) else start (Sending s m k).

(** [Send], [SendAll] and [SendTo] differ in the send type and the destination. *)
Definition send_as (sendType : Z) (dest : list Z) (s : bool) (content : list Z) : M pworld nat :=
  x ← this (Some s);
  if noSend x then start (Returned None) else
  m ← lift_wd (NewSendMessage 0 sendType (ttl x) [] dest content);
  SendMsg s m (Packet (send_meta 0 sendType (ttl x) [] dest content) [] dest content).
Definition Send : bool → list Z → M pworld nat := send_as SendTypeToOne [].
Definition SendAll : bool → list Z → M pworld nat := send_as SendTypeToAll [].
Definition SendTo (s : bool) (dest content : list Z) : M pworld nat := send_as SendTypeToDest dest s content.

Definition Close : M pworld (option err) := λ w,
  if closedq w then Ret (Some ErrClosed, w) else Ret (None, with_closedq w).

Inductive pstep : pworld → pworld → Prop :=
  | p_send sendType dest s content i w w' : send_as sendType dest s content w = Ret (i, w') → pstep w w'
  | p_sendmsg s m k i w w' : msg_at (wd w) m k → SendMsg s m k w = Ret (i, w') → pstep w w'
  | p_recv s i w w' : RecvMsg s w = Ret (i, w') → pstep w w'
  | p_meet i j s m k w :
      calls w !! i = Some (Sending s m k) → calls w !! j = Some (Receiving (negb s)) →
      pstep w (with_call i (Handed s m k j) (with_call j (Got (negb s) m k i) w))
  | p_closed i w :
      ((∃ s m k, calls w !! i = Some (Sending s m k)) ∨ (∃ s, calls w !! i = Some (Receiving s))) →
      closedq w = true → pstep w (with_call i (Returned (Some ErrClosed)) w)
  | p_close e w w' : Close w = Ret (e, w') → pstep w w'
  | p_option s opt val e w w' : set_option s opt val w = Ret (e, w') → pstep w w'
  | p_client x w :   (* the clients keep off the messages that are being sent *)
      world_ok x → (∀ i s m k, calls w !! i = Some (Sending s m k) → msg_at x m k) → pstep w (with_wd x w).

Definition preached (w : pworld) : Prop :=
  ∃ x st w0, world_ok x ∧ NewPair x st = Ret ((), w0) ∧ rtc pstep w0 w.

(** ** Invariant *)

Definition sends (w : pworld) : Prop := ∀ s k, sk w !! s = Some k → noSend k = false.

(** The calls, the heap and [closedq] are as before. *)
Definition same_calls (w w' : pworld) : Prop :=
  wd w' = wd w ∧ calls w' = calls w ∧ closedq w' = closedq w ∧ next_call w' = next_call w.

(** [c] touches the options and the fields set from them only, and never sets [noSend]. *)
Definition pkeeps {A} (c : M pworld A) : Prop := ∀ w a w', c w = Ret (a, w') → same_calls w w' ∧ (sends w → sends w').

Lemma pkeeps_bind {A B} (c : M pworld A) (f : A → M pworld B) : pkeeps c → (∀ a, pkeeps (f a)) → pkeeps (c ≫= f).
Proof.
  intros Hc Hf w b w' (a & w1 & H1 & H2)%M_bind_Ret. apply Hc in H1 as [(E1 & E2 & E3 & E4) S1].
  apply Hf in H2 as [(F1 & F2 & F3 & F4) S2]. split; [|by auto]. repeat split; congruence.
Qed.
Lemma pkeeps_ret {A} (a : A) : pkeeps (mret a).
Proof. by intros w b w' [= _ <-]. Qed.
Lemma pkeeps_this me : pkeeps (this me).
Proof. intros w k w'. unfold this. case_match; [|done]. by intros [= _ <-]. Qed.
Lemma pkeeps_get_opt {A} (assert : value → outcome A) r opt : pkeeps (get_opt assert r opt).
Proof. intros w k w'. unfold get_opt. do 2 (case_match; try done). by intros [= _ <-]. Qed.
Lemma pkeeps_upd me f : (∀ k, noSend k = false → noSend (f k) = false) → pkeeps (upd me f).
Proof.
  intros Hf w k w'. unfold upd. destruct me as [s|]; [|done]. destruct (sk w !! s) as [x|] eqn:E; [|done].
  intros [= _ <-]. split; [done|]. intros H s' k'. cbn. rewrite lookup_insert_Some.
  intros [[_ <-]|[_ H']]; [apply Hf; by eapply H|by eapply H].
Qed.

Lemma pkeeps_onOptionChange depth opt me : pkeeps (onOptionChange depth opt me).
Proof.
  revert opt me. induction depth as [|depth IH]; intros opt me; cbn [onOptionChange];
    destruct (bool_decide (opt = Socket.NoRecv)) eqn:E;
    try (apply pkeeps_ret || by (apply pkeeps_bind; [apply pkeeps_this|intros; apply IH]));
    repeat case_match; try apply pkeeps_ret;
    (apply pkeeps_bind; [apply pkeeps_this|]; intros; apply pkeeps_bind; [apply pkeeps_get_opt|]; intros; by apply pkeeps_upd).
Qed.

Lemma pkeeps_set_option s opt val : pkeeps (set_option s opt val).
Proof.
  intros w e w'. unfold set_option. destruct (sk w !! s) as [k|]; [|done].
  destruct (OptionSet.SetOption _ _ _ _ _ _) as [[[e1|] st]|]; [by intros [= _ <-]| |done].
  intros H. eapply (pkeeps_bind (onOptionChange 1 opt (Some s)) (λ _, mret None)) in H;
    [exact H|apply pkeeps_onOptionChange|intros; apply pkeeps_ret].
Qed.

Lemma pkeeps_newPairSocket s : pkeeps (newPairSocket s).
Proof.
  unfold newPairSocket. repeat (apply pkeeps_bind; [|intros _]); try apply pkeeps_onOptionChange.
  intros w a w' [= _ <-]. split; [done|]. intros H s' k. cbn. rewrite lookup_insert_Some.
  intros [[_ <-]|[_ H']]; [done|by eapply H].
Qed.

Record pinv (w : pworld) : Prop := PInv {
  p_world : world_ok (wd w);
  p_sends : sends w;
  p_flight : ∀ i s m k, calls w !! i = Some (Sending s m k) → msg_at (wd w) m k;
  p_pair : ∀ i j s m k, calls w !! i = Some (Handed s m k j) ↔ calls w !! j = Some (Got (negb s) m k i);
  p_errors : ∀ i e, calls w !! i = Some (Returned (Some e)) → e = ErrClosed ∧ closedq w = true;
  p_fresh : ∀ n, (next_call w ≤ n)%nat → calls w !! n = None }.

Lemma pinv_keeps w w' : pinv w → same_calls w w' → sends w' → pinv w'.
Proof. intros [I1 I2 I3 I4 I5 I6] (E1 & E2 & E3 & E4) H. split; rewrite ?E1, ?E2, ?E3, ?E4; done. Qed.

Lemma pinv_NewPair x st w : world_ok x → NewPair x st = Ret ((), w) → pinv w.
Proof.
  intros Hx H. assert (Hk : pkeeps (newPairSocket false ;; newPairSocket true ;; set_peer false ;; set_peer true)).
  { apply pkeeps_bind; [apply pkeeps_newPairSocket|intros _]. apply pkeeps_bind; [apply pkeeps_newPairSocket|intros _].
    apply pkeeps_bind; [|intros _]; by apply pkeeps_upd. }
  apply Hk in H as [H1 H2]. eapply pinv_keeps; [|exact H1|by apply H2]. by split.
Qed.

(** A new call that is not an exchange. *)
Definition plain (p : pcall) : Prop :=
  match p with Sending _ _ _ | Receiving _ | Returned None => True | _ => False end.

Lemma pinv_start w p i w' : pinv w → plain p → (∀ s m k, p = Sending s m k → msg_at (wd w) m k) →
  start p w = Ret (i, w') → pinv w'.
Proof.
  intros [I1 I2 I3 I4 I5 I6] Hp Hm [= _ <-]. split; cbn; try done.
  - intros i' s m k. rewrite lookup_insert_Some. intros [[_ ->]|[_ H]]; [by eapply Hm|by eapply I3].
  - assert (Hn : calls w !! next_call w = None) by (apply I6; lia).
    intros i' j s m k. rewrite !lookup_insert_Some, I4. split.
    + intros [[_ ->]|[_ H]]; [done|]. right. split; [congruence|done].
    + intros [[_ ->]|[_ H]]; [done|]. right. split; [|done]. apply I4 in H. congruence.
  - intros i' e. rewrite lookup_insert_Some. intros [[_ ->]|[_ H]]; [done|by eapply I5].
  - intros n Hl. rewrite lookup_insert_ne by lia. apply I6. lia.
Qed.

Lemma pinv_SendMsg w s m k i w' : pinv w → msg_at (wd w) m k → SendMsg s m k w = Ret (i, w') → pinv w'.
Proof.
  intros HI Hm (x & w1 & H1 & H2)%M_bind_Ret. pose proof H1 as Hx. unfold this in Hx. cbn in Hx.
  destruct (sk w !! s) as [x'|] eqn:E; [|done]. injection Hx as -> <-. rewrite (p_sends _ HI _ _ E) in H2.
  eapply pinv_start; [done| | |exact H2]; [done|]. by intros ??? [= -> -> ->].
Qed.

(** What a [Send] puts in flight. *)
Lemma send_as_run sendType dest s content w i w' : pinv w → send_as sendType dest s content w = Ret (i, w') →
  ∃ x m, sk w !! s = Some x ∧ pinv w' ∧
    calls w' !! i = Some (Sending s m (Packet (send_meta 0 sendType (ttl x) [] dest content) [] dest content)) ∧
    shows (wd w') m (Packet (send_meta 0 sendType (ttl x) [] dest content) [] dest content).
Proof.
  intros HI (x & w1 & H1 & H2)%M_bind_Ret. unfold this in H1. cbn in H1.
  destruct (sk w !! s) as [x'|] eqn:E; [|done]. injection H1 as -> <-. rewrite (p_sends _ HI _ _ E) in H2.
  destruct (NewSendMessage_run 0 sendType (ttl x) [] dest content (wd w) (p_world _ HI)) as (m & x1 & HN & Hb).
  apply M_bind_Ret in H2 as (m' & w2 & H2 & H3). unfold lift_wd in H2. rewrite HN in H2. injection H2 as <- <-.
  exists x, m. split; [done|].
  assert (HI' : pinv (with_wd x1 w)).
  { destruct HI as [I1 I2 I3 I4 I5 I6]. split; try done; [apply Hb|].
    intros i' s' m' k' H. eapply msg_at_frame; [by eapply I3|apply Hb]. }
  split; [eapply pinv_SendMsg; [exact HI'|apply Hb|exact H3]|].
  unfold SendMsg, this in H3. apply M_bind_Ret in H3 as (x2 & w3 & H3 & H4). cbn in H3. rewrite E in H3.
  injection H3 as <- <-. rewrite (p_sends _ HI _ _ E) in H4. injection H4 as <- <-. cbn.
  rewrite lookup_insert_eq. split; [done|]. by eapply built_shows.
Qed.

Lemma pinv_meet w i j s m k :
  pinv w → calls w !! i = Some (Sending s m k) → calls w !! j = Some (Receiving (negb s)) →
  pinv (with_call i (Handed s m k j) (with_call j (Got (negb s) m k i) w)).
Proof.
  intros [I1 I2 I3 I4 I5 I6] Hi Hj. assert (i ≠ j) as Hij by (intros ->; congruence). split; cbn; try done.
  - intros i' s' m' k'. rewrite !lookup_insert_Some. intros [[_ ?]|[_ [[_ ?]|[_ H]]]]; [done..|by eapply I3].
  - intros i' j' s' m' k'. rewrite !lookup_insert_Some, I4. split.
    + intros [[<- [= <- <- <- <-]]|[_ [[_ ?]|[Hne H]]]]; [right; split; [done|by left]|done|].
      right. split; [congruence|]. right. split; [congruence|done].
    + intros [[_ ?]|[Hne [[<- [= E <- <- <-]]|[_ H]]]]; [done| |].
      * left. split; [done|]. by destruct s, s'.
      * right. split; [intros <-|]; [apply I4 in H; congruence|]. right. split; [|done]. intros <-. apply I4 in H. congruence.
  - intros i' e. rewrite !lookup_insert_Some. intros [[_ ?]|[_ [[_ ?]|[_ H]]]]; [done..|by eapply I5].
  - intros n Hn. specialize (I6 n Hn). rewrite !lookup_insert_ne; [done|congruence..].
Qed.

Lemma pinv_step w w' : pinv w → pstep w w' → pinv w'.
Proof.
  intros HI H. destruct H as [ty dest s content i w w' H|s m k i w w' Hm H|s i w w' H|i j s m k w Hi Hj|i w Hi Hc|e w w' H
    |s opt val e w w' H|x w Hx Hm].
  - by apply send_as_run in H as (x & m & _ & ? & _).
  - by eapply pinv_SendMsg.
  - by eapply pinv_start in H.
  - by apply pinv_meet.
  - destruct HI as [I1 I2 I3 I4 I5 I6].
    assert (Hno : (∀ s m k j, calls w !! i ≠ Some (Handed s m k j)) ∧ (∀ s m k j, calls w !! i ≠ Some (Got s m k j)) ∧ calls w !! i ≠ None)
      by (destruct Hi as [(s & m & k & ->)|(s & ->)]; done).
    destruct Hno as (N1 & N2 & N3). split; cbn; try done.
    + intros i' s m k. rewrite lookup_insert_Some. intros [[_ ?]|[_ H]]; [done|by eapply I3].
    + intros i' j s m k. rewrite !lookup_insert_Some, I4. split.
      * intros [[_ ?]|[_ H]]; [done|]. right. split; [|done]. intros <-. by eapply N2.
      * intros [[_ ?]|[_ H]]; [done|]. right. split; [|done]. intros <-. apply I4 in H. by eapply N1.
    + intros i' e. rewrite lookup_insert_Some. intros [[_ [= <-]]|[_ H]]; [done|by eapply I5].
    + intros n Hn. rewrite lookup_insert_ne; [by apply I6|]. intros <-. by apply N3, I6.
  - unfold Close in H. destruct (closedq w) eqn:Ec; injection H as _ <-; [done|]. destruct HI as [I1 I2 I3 I4 I5 I6].
    split; try done. intros i e' H. apply I5 in H as [-> _]. done.
  - apply pkeeps_set_option in H as [H1 H2]. eapply pinv_keeps; [exact HI|exact H1|apply H2, HI].
  - destruct HI as [I1 I2 I3 I4 I5 I6]. by split.
Qed.

Lemma preached_inv w : preached w → pinv w.
Proof.
  intros (x & st & w0 & Hx & H0 & H). apply (rtc_ind_r pinv w0) in H; [done|by eapply pinv_NewPair|].
  intros y z _ Hs HI. by eapply pinv_step.
Qed.


(** ** Witness *)

(** A pair, the option [NoSend] set on its first socket, and still a message is exchanged. *)
Definition demo_m {A} (c : M pworld A) (w : pworld) : pworld := match c w with Ret (_, w') => w' | Panics _ => w end.
Definition demo_new : pworld := demo_m (newPairSocket false ;; newPairSocket true ;; set_peer false ;; set_peer true)
  (mkP (world_init []) [] ∅ false ∅ 0).
Definition demo_set : pworld := demo_m (set_option false Socket.NoSend (VBool true)) demo_new.
Definition demo_sent : pworld := demo_m (Send false [104; 105]) demo_set.
Definition demo_recv : pworld := demo_m (RecvMsg true) demo_sent.
Definition demo_packet : packet := Packet (send_meta 0 SendTypeToOne 16 [] [] [104; 105]) [] [] [104; 105].
Definition demo_msg : Message :=
  match calls demo_recv !! 0%nat with Some (Sending _ m _) => m | _ => zeroMessage end.
Definition demo_met : pworld :=
  with_call 0 (Handed false demo_msg demo_packet 1) (with_call 1 (Got true demo_msg demo_packet 0) demo_recv).

Lemma demo_m_run {A} (c : M pworld A) w : (∃ a w', c w = Ret (a, w')) → ∃ a, c w = Ret (a, demo_m c w).
Proof. intros (a & w' & H). exists a. unfold demo_m. by rewrite H. Qed.

Lemma demo_recv_reached : preached demo_recv.
Proof.
  destruct (demo_m_run (newPairSocket false ;; newPairSocket true ;; set_peer false ;; set_peer true)
    (mkP (world_init []) [] ∅ false ∅ 0)) as [[] H0]; [do 2 eexists; vm_compute; reflexivity|].
  exists (world_init []), [], demo_new. split; [apply world_init_ok; done|]. split; [exact H0|].
  destruct (demo_m_run (set_option false Socket.NoSend (VBool true)) demo_new) as [e H1]; [do 2 eexists; vm_compute; reflexivity|].
  eapply rtc_l; [eapply p_option; exact H1|].
  destruct (demo_m_run (Send false [104; 105]) demo_set) as [i H2]; [do 2 eexists; vm_compute; reflexivity|].
  eapply rtc_l; [eapply p_send; exact H2|].
  apply rtc_once. by eapply (p_recv true 1%nat).
Qed.

Lemma demo_met_reached : preached demo_met.
Proof.
  destruct demo_recv_reached as (x & st & w0 & Hx & H0 & H). exists x, st, w0. split; [done|]. split; [done|].
  eapply rtc_r; [exact H|]. eapply (p_meet 0 1 false); vm_compute; reflexivity.
Qed.

