(* ===== verification/Switch.v ===== *)
(** switch.go: two loops, each of which hands the messages of one socket to the other.

    For a single loop the two sockets are what it uses of the interface Socket: [recv] is
    [RecvMsg] of one, [send] is [SendMsg] of the other.  The loop ends only with an error, so it
    has fuel; [forward_to_end] shows how much is enough when the first socket fails in the end.
    StartSwitch runs two such loops at once over the same two sockets, the class [Sockets]: a
    round is cut at its calls, which may wait, and [swstep] interleaves the two loops and the
    arrival of messages. *)
From S2P Require Import Prelude Errs Message.
From stdpp Require Import base tactics list relations.
From Stdlib Require Import ZArith Lia.

Section switch.
Context {F T : Type} (recv : F → (err + Message) * F) (send : Message → T → option err * T).

(** A middleware may return nil, which [SendMsg] dereferences; [None] is no middleware. *)
Definition middleware : Type := option (Message → option Message).
Definition apply_mid (mid : middleware) (m : Message) : option Message :=
  match mid with Some f => f m | None => Some m end.

Fixpoint forward (fuel : nat) (mid : middleware) (from : F) (to : T) : option (outcome (F * T)) :=
  match fuel with
  | O => None
  | S fuel =>
      match recv from with
      | (inl _, from) => Some (Ret (from, to))
      | (inr m, from) =>
          match apply_mid mid m with
          | None => Some (Panics PanicNilDeref)
          | Some m =>
              match send m to with
              | (Some _, to) => Some (Ret (from, to))
              | (None, to) => forward fuel mid from to
              end
          end
      end
  end.

(** [from] delivers the messages [ms] one by one and is [from'] after them. *)
Fixpoint delivers (ms : list Message) (from from' : F) : Prop :=
  match ms with
  | [] => from' = from
  | m :: ms => ∃ f, recv from = (inr m, f) ∧ delivers ms f from'
  end.

(** Sending a list up to the first error: how many were taken, and the error. *)
Fixpoint send_list (ms : list Message) (to : T) : nat * option err * T :=
  match ms with
  | [] => (0, None, to)
  | m :: ms =>
      match send m to with
      | (Some e, to) => (1, Some e, to)
      | (None, to) => let '(n, e, to) := send_list ms to in (S n, e, to)
      end
  end.

Definition fails (from : F) : Prop := ∃ e f, recv from = (inl e, f).
End switch.

(** ** StartSwitch *)

(** The two sockets, [true] the back one: the possible outcomes of a call; none: it waits. *)
Class Sockets (W : Type) := {
  RecvMsg : bool → W → list (outcome ((err + Message) * W));
  SendMsg : bool → Message → W → list (outcome (option err * W))
}.

(** What the sockets promise the switch: [inbox] are the messages that wait at one, [outbox] the ones its
    [SendMsg] took; [arrives] is what else happens at the sockets while the loops run. *)
Class SocketsOk W `{!Sockets W} := {
  wf : W → Prop;
  inbox : bool → W → list Message;
  outbox : bool → W → list Message;
  arrives : W → W → Prop;
  recv_taken s w m w' : wf w → Ret (inr m, w') ∈ RecvMsg s w →
    wf w' ∧ inbox s w = m :: inbox s w' ∧ inbox (negb s) w' = inbox (negb s) w ∧ ∀ t, outbox t w' = outbox t w;
  recv_failed s w e w' : wf w → Ret (inl e, w') ∈ RecvMsg s w →
    wf w' ∧ ∀ t, inbox t w' = inbox t w ∧ outbox t w' = outbox t w;
  send_taken s m w w' : wf w → Ret (None, w') ∈ SendMsg s m w →
    wf w' ∧ outbox s w' = outbox s w ++ [m] ∧ outbox (negb s) w' = outbox (negb s) w ∧ ∀ t, inbox t w' = inbox t w;
  send_failed s m w e w' : wf w → Ret (Some e, w') ∈ SendMsg s m w →
    wf w' ∧ ∀ t, inbox t w' = inbox t w ∧ outbox t w' = outbox t w;
  arrives_extends w w' : wf w → arrives w w' → wf w' ∧ ∀ t, (∃ l, inbox t w' = inbox t w ++ l) ∧ outbox t w' = outbox t w
}.

(** Where a loop is: before its [RecvMsg], before its [SendMsg], or after its [break]. *)
Inductive phase := Receiving | Sending (m : Message) | NoMessage (e : err) | Refused (m : Message) (e : err).

Section both.
Context {W : Type} `{!Sockets W}.

(** One call of the loop that receives from [s]: its possible outcomes *)
Definition loop_step (mid : middleware) (s : bool) (ph : phase) (w : W) : list (outcome (phase * W)) :=
  match ph with
  | Receiving => (λ o, match o with
      | Panics p => Panics p
      | Ret (inl e, w) => Ret (NoMessage e, w)
      | Ret (inr m, w) => match apply_mid mid m with None => Panics PanicNilDeref | Some m => Ret (Sending m, w) end
      end) <$> RecvMsg s w
  | Sending m => (λ o, match o with
      | Panics p => Panics p
      | Ret (Some e, w) => Ret (Refused m e, w)
      | Ret (None, w) => Ret (Receiving, w)
      end) <$> SendMsg (negb s) m w
  | NoMessage _ | Refused _ _ => []
  end.

Definition ended (ph : phase) : bool := match ph with NoMessage _ | Refused _ _ => true | _ => false end.

(** The message a loop has received and not got rid of. *)
Definition in_hand (ph : phase) : list Message :=
  match ph with Sending m | Refused m _ => [m] | _ => [] end.

(** The switch, with the steps each loop has made. *)
Record switch := Switch { world_of : W; at_ : bool → phase; steps : bool → nat }.

(** [StartSwitch] *)
Definition StartSwitch (w : W) : switch := Switch w (λ _, Receiving) (λ _, 0%nat).

Definition set_at {A} (s : bool) (x : A) (f : bool → A) (t : bool) : A := if Bool.eqb t s then x else f t.

Inductive loop_moves (mid : middleware) (x : switch) : switch → Prop :=
  | loop_moves_at s ph w : Ret (ph, w) ∈ loop_step mid s (at_ x s) (world_of x) →
      loop_moves mid x (Switch w (set_at s ph (at_ x)) (set_at s (S (steps x s)) (steps x))).

Inductive swstep `{!SocketsOk W} (mid : middleware) (x : switch) : switch → Prop :=
  | sw_loop y : loop_moves mid x y → swstep mid x y
  | sw_arrives w : arrives (world_of x) w → swstep mid x (Switch w (at_ x) (steps x)).

(** What the next call of the loop on [s] is, and that it waits. *)
Definition waits (s : bool) (ph : phase) (w : W) : Prop :=
  match ph with
  | Receiving => RecvMsg s w = []
  | Sending m => SendMsg (negb s) m w = []
  | _ => False
  end.

(** A loop on its own *)
Definition solo (mid : middleware) (s : bool) (x y : phase * W) : Prop := Ret y ∈ loop_step mid s x.1 x.2.

(** What has happened on the way from [s]: [taken] was received, [passed] was sent. *)
Definition relayed `{!SocketsOk W} (mid : middleware) (w0 : W) (x : switch) (s : bool) : Prop :=
  ∃ taken passed new,
    inbox s w0 ++ new = taken ++ inbox s (world_of x) ∧
    mapM (apply_mid mid) taken = Some (passed ++ in_hand (at_ x s)) ∧
    outbox (negb s) (world_of x) = outbox (negb s) w0 ++ passed ∧
    steps x s = (2 * length taken - (if at_ x s is Sending _ then 1 else 0) + (if at_ x s is NoMessage _ then 1 else 0))%nat.
End both.
Arguments switch W : clear implicits.

(** The two sockets of one loop, with calls that do not wait. *)
Definition alone {F T} (recv : F → (err + Message) * F) (send : Message → T → option err * T) : Sockets (F * T) := {|
  RecvMsg s w := if s then [Ret (let '(r, f) := recv w.1 in (r, (f, w.2)))] else [];
  SendMsg s m w := if s then [] else [Ret (let '(e, t) := send m w.2 in (e, (w.1, t)))]
|}.

(** What [forward] does is what a loop on its own does. *)
Lemma forward_is_loop {F T} (recv : F → (err + Message) * F) (send : Message → T → option err * T) mid fuel f t r :
  forward recv send fuel mid f t = Some r →
  ∃ ph w, rtc (@solo _ (alone recv send) mid true) (Receiving, (f, t)) (ph, w) ∧
    match r with
    | Ret w' => w' = w ∧ ended ph = true
    | Panics p => Panics p ∈ @loop_step _ (alone recv send) mid true ph w
    end.
Proof.
  revert f t. induction fuel as [|fuel IH]; intros f t H; [done|]. cbn [forward] in H.
  destruct (recv f) as [[e|m] f1] eqn:Er.
  { injection H as <-. exists (NoMessage e), (f1, t). split; [|done]. apply rtc_once. unfold solo. cbn. rewrite Er. by left. }
  destruct (apply_mid mid m) as [m'|] eqn:Em; cycle 1.
  { injection H as <-. exists Receiving, (f, t). split; [done|]. cbn. rewrite Er, Em. by left. }
  assert (H1 : @solo _ (alone recv send) mid true (Receiving, (f, t)) (Sending m', (f1, t))).
  { unfold solo. cbn. rewrite Er, Em. by left. }
  destruct (send m' t) as [[e|] t1] eqn:Es.
  - injection H as <-. exists (Refused m' e), (f1, t1). split; [|done]. eapply rtc_l; [exact H1|]. apply rtc_once.
    unfold solo. cbn. rewrite Es. by left.
  - destruct (IH _ _ H) as (ph & w & Hr & Hm). exists ph, w. split; [|done]. eapply rtc_l; [exact H1|].
    eapply rtc_l; [|exact Hr]. unfold solo. cbn. rewrite Es. by left.
Qed.

Lemma mapM_snoc {A B} (f : A → option B) l x l' y :
  mapM f l = Some l' → f x = Some y → mapM f (l ++ [x]) = Some (l' ++ [y]).
Proof. rewrite !mapM_Some. intros H Hx. apply Forall2_app; [done|by constructor]. Qed.

Section relays.
Context {W : Type} `{!Sockets W, !SocketsOk W} (mid : middleware) (w0 : W).

Lemma relayed_start s : relayed mid w0 (StartSwitch w0) s.
Proof. exists [], [], []. cbn. by rewrite !app_nil_r. Qed.

Lemma relayed_arrives x w s : wf (world_of x) → relayed mid w0 x s → arrives (world_of x) w →
  relayed mid w0 (Switch w (at_ x) (steps x)) s.
Proof.
  intros Hwf (taken & passed & new & H1 & H2 & H3 & H4) Hw. destruct (arrives_extends _ _ Hwf Hw) as [_ Ha].
  destruct (Ha s) as [[l Hl] _]. destruct (Ha (negb s)) as [_ Ho].
  exists taken, passed, (new ++ l). cbn. by rewrite Hl, Ho, !app_assoc, H1.
Qed.

Lemma set_at_same {A} s (x : A) f : set_at s x f s = x.
Proof. unfold set_at. by rewrite eqb_reflx. Qed.
Lemma set_at_other {A} s (x : A) f : set_at (negb s) x f s = f s.
Proof. by destruct s. Qed.
Lemma set_at_negb {A} s (x : A) f : set_at s x f (negb s) = f (negb s).
Proof. by destruct s. Qed.

(** What a step of the loop on [s] changes at the sockets. *)
Lemma loop_step_effect s ph w ph' w' : wf w → Ret (ph', w') ∈ loop_step mid s ph w →
  wf w' ∧ (inbox (negb s) w' = inbox (negb s) w ∧ outbox s w' = outbox s w) ∧
  match ph with
  | Receiving => outbox (negb s) w' = outbox (negb s) w ∧
      ((∃ e, ph' = NoMessage e ∧ inbox s w' = inbox s w) ∨
       ∃ m m', ph' = Sending m' ∧ apply_mid mid m = Some m' ∧ inbox s w = m :: inbox s w')
  | Sending m => inbox s w' = inbox s w ∧
      ((∃ e, ph' = Refused m e ∧ outbox (negb s) w' = outbox (negb s) w) ∨
       (ph' = Receiving ∧ outbox (negb s) w' = outbox (negb s) w ++ [m]))
  | _ => False
  end.
Proof.
  intros Hwf H. destruct ph; cbn in H; try (by apply not_elem_of_nil in H);
    apply list_elem_of_fmap in H as (o & HE & E); [destruct o as [[[e|m] w1]|p]|destruct o as [[[e|] w1]|p]]; try done.
  - injection HE as -> ->. destruct (recv_failed _ _ _ _ Hwf E) as [H1 Hf].
    destruct (Hf s) as [-> ->], (Hf (negb s)) as [-> ->]. repeat split; [done|]. left. by exists e.
  - destruct (apply_mid mid m) as [m'|] eqn:Em; [|done]. injection HE as -> ->.
    destruct (recv_taken _ _ _ _ Hwf E) as (H0 & H1 & H2 & H3). rewrite H2, !H3. repeat split; [done|]. right. by exists m, m'.
  - injection HE as -> ->. destruct (send_failed _ _ _ _ _ Hwf E) as [H1 Hf].
    destruct (Hf s) as [-> ->], (Hf (negb s)) as [-> ->]. repeat split; [done|]. left. by exists e.
  - injection HE as -> ->. destruct (send_taken _ _ _ _ Hwf E) as (H0 & H1 & H2 & H3). rewrite negb_involutive in H2.
    rewrite H1, H2, !H3. repeat split; [done|]. by right.
Qed.

Lemma relayed_moves x y s : wf (world_of x) → (∀ t, relayed mid w0 x t) → loop_moves mid x y →
  wf (world_of y) ∧ relayed mid w0 y s.
Proof.
  intros Hwf HR [t ph w H]. apply loop_step_effect in H as (Hwf' & [Hi Ho] & H); [|done]. split; [done|].
  destruct (HR s) as (taken & passed & new & H1 & H2 & H3 & H4).
  destruct (decide (s = t)) as [->|Hst]; [|assert (t = negb s) as -> by (by destruct s, t)].
  - unfold relayed. cbn. rewrite !set_at_same. destruct (at_ x t) as [|m|e|m e]; cbn in *; try done.
    + destruct H as [Hn [(e & -> & Hs)|(m & m' & -> & Hm & Hs)]].
      * exists taken, passed, new. cbn. rewrite Hs, Hn. repeat split; [done..|lia].
      * exists (taken ++ [m]), passed, new. rewrite Hs in H1. cbn. rewrite Hn, <- app_assoc. split; [done|].
        rewrite app_nil_r in H2. split; [by apply mapM_snoc|]. split; [done|]. rewrite length_app. cbn. lia.
    + assert (taken ≠ []) by (intros ->; cbn in H2; injection H2 as H2; by destruct passed).
      assert (length taken ≠ 0)%nat by (by destruct taken).
      destruct H as [Hs [(e & -> & Hn)|[-> Hn]]].
      * exists taken, passed, new. cbn. rewrite Hs, Hn. repeat split; [done..|lia].
      * exists taken, (passed ++ [m]), new. cbn. rewrite Hs, Hn, H3, app_nil_r, app_assoc. repeat split; [done..|lia].
  - rewrite negb_involutive in Hi. exists taken, passed, new. cbn. rewrite !set_at_other, Hi, Ho. done.
Qed.

Lemma relayed_reached x : wf w0 → rtc (swstep mid) (StartSwitch w0) x → wf (world_of x) ∧ ∀ s, relayed mid w0 x s.
Proof.
  intros Hwf H. cut (∀ y, wf (world_of y) → (∀ s, relayed mid w0 y s) → rtc (swstep mid) y x → wf (world_of x) ∧ ∀ s, relayed mid w0 x s).
  { intros Hc. exact (Hc (StartSwitch w0) Hwf relayed_start H). }
  clear H Hwf. intros y Hwf Hy H. induction H as [|y z x Hs _ IH]; [done|]. destruct Hs as [z Hs|w Hw].
  - apply IH; [by apply (relayed_moves _ _ true Hwf Hy Hs)|]. intros s. by apply (relayed_moves _ _ s Hwf Hy Hs).
  - apply IH; [by apply (arrives_extends _ _ Hwf Hw)|]. intros s. by apply relayed_arrives.
Qed.

(** What the loops can still do with the messages at hand. *)
Definition left_over (ph : phase) : nat := match ph with Receiving => 1 | Sending _ => 2 | _ => 0 end.
Definition budget (x : switch W) : nat :=
  (2 * (length (inbox true (world_of x)) + length (inbox false (world_of x))) +
   left_over (at_ x true) + left_over (at_ x false))%nat.

Lemma budget_moves x y : wf (world_of x) → loop_moves mid x y → wf (world_of y) ∧ (budget y < budget x)%nat.
Proof.
  intros Hwf [s ph w H]. apply loop_step_effect in H as (Hwf' & [Hi _] & H); [|done]. split; [done|]. unfold budget.
  destruct s; cbn in *; rewrite ?Hi; destruct (at_ x _) as [|m|e|m e] in H |- *; cbn in *; try done;
    destruct H as [Hn H]; rewrite ?Hn; destruct H as [(e & -> & Hs)|H]; cbn; try rewrite Hs; try lia;
    [destruct H as (m & m' & -> & _ & Hs); rewrite Hs; cbn; lia|destruct H as [-> _]; cbn; lia|
     destruct H as (m & m' & -> & _ & Hs); rewrite Hs; cbn; lia|destruct H as [-> _]; cbn; lia].
Qed.

Lemma budget_bounds n x y : wf (world_of x) → nsteps (loop_moves mid) n x y → (n + budget y ≤ budget x)%nat.
Proof.
  intros Hwf H. induction H as [|n x y z H _ IH]; [lia|]. apply budget_moves in H as [Hwf' H]; [|done]. specialize (IH Hwf'). lia.
Qed.

(** A loop that makes no step has ended, or its call waits, or it panics. *)
Lemma loop_step_none s ph w : (∀ y, Ret y ∉ loop_step mid s ph w) →
  ended ph = true ∨ waits s ph w ∨ ∃ p, Panics p ∈ loop_step mid s ph w.
Proof.
  intros H. destruct (loop_step mid s ph w) as [|[y|p] l] eqn:E.
  - destruct ph; cbn in E; try (by left); right; left; cbn; by apply fmap_nil_inv in E.
  - exfalso. apply (H y). by left.
  - right. right. exists p. by left.
Qed.

(** A panic is one of the socket's call, or the middleware returned nil for the next message. *)
Lemma loop_step_panic s ph w p : wf w → Panics p ∈ loop_step mid s ph w →
  match ph with
  | Receiving => Panics p ∈ RecvMsg s w ∨
      p = PanicNilDeref ∧ ∃ m, head (inbox s w) = Some m ∧ apply_mid mid m = None
  | Sending m => Panics p ∈ SendMsg (negb s) m w
  | _ => False
  end.
Proof.
  intros Hwf H. destruct ph; cbn in H; try (by apply not_elem_of_nil in H);
    apply list_elem_of_fmap in H as (o & HE & E); [destruct o as [[[e|m] w1]|p1]|destruct o as [[[e|] w1]|p1]]; try done.
  - right. destruct (apply_mid mid m) eqn:Em; [done|]. injection HE as ->. split; [done|]. exists m.
    by destruct (recv_taken _ _ _ _ Hwf E) as (_ & -> & _).
  - left. by injection HE as ->.
  - by injection HE as ->.
Qed.
End relays.

(** However the two loops of a switch and the arrival of messages interleave: in each direction
    what was sent is what was received, each through the middleware, in order, but for the one
    message that is in hand or was refused; what arrived and was not received still waits; the
    loops make at most two calls for each message that waits and four more, and come to a
    stop only where each has ended on an error, its call waits or panics, or the middleware
    returned nil for the next message, which then panics too. *)
Theorem switch_relays {W} `{!Sockets W, !SocketsOk W} (mid : middleware) (w0 : W) (x : switch W) :
  wf w0 → rtc (swstep mid) (StartSwitch w0) x →
  (∀ s, relayed mid w0 x s) ∧
  (∀ n y, nsteps (loop_moves mid) n x y →
     (n ≤ 2 * (length (inbox true (world_of x)) + length (inbox false (world_of x))) + 4)%nat) ∧
  ((∀ y, ¬ loop_moves mid x y) → ∀ s,
     ended (at_ x s) = true ∨ waits s (at_ x s) (world_of x) ∨
     ∃ p, match at_ x s with
       | Receiving => Panics p ∈ RecvMsg s (world_of x) ∨
           p = PanicNilDeref ∧ ∃ m, head (inbox s (world_of x)) = Some m ∧ apply_mid mid m = None
       | Sending m => Panics p ∈ SendMsg (negb s) m (world_of x)
       | _ => False
       end).
Proof.
  intros Hwf H. destruct (relayed_reached _ _ _ Hwf H) as [Hwf' HR]. split; [done|]. split.
  - intros n y Hn%budget_bounds; [|done]. unfold budget in Hn.
    assert (∀ ph, (left_over ph ≤ 2)%nat) as Hl by (intros []; cbn; lia).
    pose proof (Hl (at_ x true)). pose proof (Hl (at_ x false)). lia.
  - intros Hs s. destruct (loop_step_none mid s (at_ x s) (world_of x)) as [He|[Hw|[p Hp]]]; [|by left|by right; left|].
    + intros [ph w] Hy. eapply Hs. by econstructor.
    + right. right. exists p. by apply loop_step_panic in Hp.
Qed.

(** Two mailboxes; a closed one hands out what it has and takes nothing. *)
Record mail := Mail { ins : bool → list Message; outs : bool → list Message; closed : bool → bool }.

#[global] Instance mail_sockets : Sockets mail := {|
  RecvMsg s w :=
    match ins w s with
    | m :: l => [Ret (inr m, Mail (set_at s l (ins w)) (outs w) (closed w))]
    | [] => if closed w s then [Ret (inl ErrClosed, w)] else []
    end;
  SendMsg s m w :=
    if closed w s then [Ret (Some ErrClosed, w)]
    else [Ret (None, Mail (ins w) (set_at s (outs w s ++ [m]) (outs w)) (closed w))]
|}.

#[global] Program Instance mail_ok : SocketsOk mail := {|
  wf _ := True;
  inbox s w := ins w s;
  outbox s w := outs w s;
  arrives w w' := ∃ s m, w' = Mail (set_at s (ins w s ++ [m]) (ins w)) (outs w) (closed w)
|}.
Next Obligation.
  intros s w m w' _ H. cbn in *. split; [done|]. destruct (ins w s) as [|m' l] eqn:E.
  - destruct (closed w s); [by apply list_elem_of_singleton in H|by apply not_elem_of_nil in H].
  - apply list_elem_of_singleton in H as [= -> ->]. cbn. by rewrite set_at_same, set_at_negb.
Qed.
Next Obligation.
  intros s w e w' _ H. cbn in *. split; [done|]. intros t. destruct (ins w s) as [|m' l].
  - destruct (closed w s); [by apply list_elem_of_singleton in H as [= _ ->]|by apply not_elem_of_nil in H].
  - by apply list_elem_of_singleton in H.
Qed.
Next Obligation.
  intros s m w w' _ H. cbn in *. split; [done|]. destruct (closed w s); apply list_elem_of_singleton in H; [done|].
  injection H as ->. cbn. by rewrite set_at_same, set_at_negb.
Qed.
Next Obligation.
  intros s m w e w' _ H. cbn in *. split; [done|]. intros t. destruct (closed w s); apply list_elem_of_singleton in H; [|done].
  by injection H as _ ->.
Qed.
Next Obligation.
  intros w w' _ (s & m & ->). split; [done|]. intros t. cbn. split; [|done]. unfold set_at. destruct (Bool.eqb t s) eqn:E.
  - apply eqb_prop in E as ->. by exists [m].
  - exists []. by rewrite app_nil_r.
Qed.

(** A message waits at each socket and the front one is closed: its message goes to the back one. *)
Definition demo_mail : mail := Mail (λ _, [zeroMessage]) (λ _, []) negb.

Definition demo_move {W} `{!Sockets W} (s : bool) (x : switch W) : switch W :=
  match loop_step None s (at_ x s) (world_of x) with
  | Ret (ph, w) :: _ => Switch w (set_at s ph (at_ x)) (set_at s (S (steps x s)) (steps x))
  | _ => x
  end.

Lemma demo_moves {W} `{!Sockets W, !SocketsOk W} s (x : switch W) :
  match loop_step None s (at_ x s) (world_of x) with Ret _ :: _ => True | _ => False end → swstep None x (demo_move s x).
Proof.
  unfold demo_move. destruct (loop_step None s (at_ x s) (world_of x)) as [|[[ph w]|] l] eqn:E; [done| |done].
  intros _. apply sw_loop, loop_moves_at. rewrite E. by left.
Qed.

Lemma switch_relays_witness : ∃ x : switch mail, rtc (swstep None) (StartSwitch demo_mail) x ∧
  outbox true (world_of x) = [zeroMessage] ∧ relayed None demo_mail x false ∧ relayed None demo_mail x true.
Proof.
  exists (demo_move false (demo_move false (StartSwitch demo_mail))).
  assert (H : rtc (swstep None) (StartSwitch demo_mail) (demo_move false (demo_move false (StartSwitch demo_mail)))).
  { eapply rtc_l; [by apply (demo_moves false)|]. eapply rtc_l; [by apply (demo_moves false)|]. apply rtc_refl. }
  destruct (switch_relays None demo_mail _ ltac:(exact I) H) as (HR & _ & _).
  split; [exact H|]. split; [reflexivity|]. split; apply HR.
Defined.

(** [forward] ends once its first socket fails, with fuel for one round more than there
    are messages: it has sent exactly the messages of the first socket, each through the
    middleware, in order, up to the first that the second socket refuses; that one is
    consumed and lost, and the ones after it stay unread. *)
Theorem forward_to_end {F T} (recv : F → (err + Message) * F) (send : Message → T → option err * T)
    (mid : middleware) (ms ms' : list Message) (from from' : F) (to : T) fuel :
  delivers recv ms from from' → fails recv from' → mapM (apply_mid mid) ms = Some ms' → (length ms < fuel)%nat →
  let '(n, e, to') := send_list send ms' to in
  ∃ f, forward recv send fuel mid from to = Some (Ret (f, to')) ∧
    match e with
    | Some _ => (1 ≤ n ≤ length ms)%nat ∧ delivers recv (take n ms) from f ∧ delivers recv (drop n ms) f from'
    | None => n = length ms ∧ recv from' = ((recv from').1, f)
    end.
Proof.
  intros Hd Hf. revert ms' from to fuel Hd. induction ms as [|m ms IH]; intros ms' from to fuel Hd Hm Hl.
  - injection Hm as <-. cbn in Hd. subst. destruct Hf as (e & f & Hf). destruct fuel as [|fuel]; [cbn in Hl; lia|].
    cbn. rewrite Hf. by eexists.
  - destruct Hd as (f1 & Hr & Hd). cbn in Hm. destruct (apply_mid mid m) as [m'|] eqn:Em; [|done]. cbn in Hm.
    destruct (mapM (apply_mid mid) ms) as [ms1|] eqn:Ems; [|done]. injection Hm as <-.
    destruct fuel as [|fuel]; [cbn in Hl; lia|]. cbn. rewrite Hr, Em. destruct (send m' to) as [[e|] to1] eqn:Es.
    + exists f1. split; [done|]. split; [lia|]. split; [by exists f1|]. done.
    + specialize (IH ms1 f1 to1 fuel Hd eq_refl). destruct (send_list send ms1 to1) as [[n e] to2].
      destruct IH as (f & HF & HE); [cbn in Hl; lia|]. exists f. split; [done|]. destruct e as [e|].
      * destruct HE as (H1 & H2 & H3). split; [lia|]. split; [|done]. by exists f1.
      * destruct HE as [-> H2]. by split.
Qed.

(** Two messages, the middleware keeps both, the second socket takes one. *)
Definition demo_recv (l : list Message) : (err + Message) * list Message :=
  match l with [] => (inl ErrClosed, []) | m :: l => (inr m, l) end.
Definition demo_send (m : Message) (l : list Message) : option err * list Message :=
  match l with [] => (None, [m]) | _ => (Some ErrMsgDropped, l) end.

Lemma forward_to_end_witness :
  ∃ f, forward demo_recv demo_send 3 (Some Some) [zeroMessage; zeroMessage] [] = Some (Ret (f, [zeroMessage])) ∧
    delivers demo_recv [] f [].
Proof.
  destruct (forward_to_end demo_recv demo_send (Some Some) [zeroMessage; zeroMessage] [zeroMessage; zeroMessage]
    [zeroMessage; zeroMessage] [] [] 3) as (f & H1 & _ & _ & H2).
  - by exists [zeroMessage]; split; [|exists []].
  - by exists ErrClosed, [].
  - reflexivity.
  - cbn. lia.
  - by exists f.
Defined.
