(* ===== verification/SwitchSock.v ===== *)
(** switch.go over socket.go: two sockets of Socket.v, which share the memory of the messages, are
    the [Sockets] of Switch.v.

    The two worlds of the sockets have one heap, [heap]; a call at one of them runs its operation there.
    [outs] records the messages a [SendMsg] of the switch took.  Meanwhile any other
    operation of the sockets may run - their receivers, senders, other users' sends, pipes, options -
    as long as it neither takes from a receive queue nor replaces it: [tw_event]. *)
From S2P Require Import Prelude Errs GoHeap Bytespool Message MessageFacts Options OptionSet OptionReg Routing Socket SocketFacts SocketThms Switch.
From stdpp Require Import base tactics numbers list gmap relations.
From Stdlib Require Import ZArith Lia.
Open Scope Z_scope.

Record two := Two { heap : world; sides : bool → sworld; outs : bool → list Message }.

Definition with_heap (h : world) (x : sworld) : sworld :=
  mkSWorld h (sstore x) (sock x) (chans x) (spipes x) (senders x) (next_obj x).
(** The world of the socket [s] *)
Definition view (s : bool) (w : two) : sworld := with_heap (heap w) (sides w s).

(** Run [c] at the socket [s]; [took] is what it takes to send. *)
Definition run_at {A B} (s : bool) (c : ND A) (f : A → B) (took : A → list Message) (w : two) : list (outcome (B * two)) :=
  (λ o, match o with
   | Ret (a, x) => Ret (f a, Two (wd x) (set_at s x (sides w)) (set_at s (outs w s ++ took a) (outs w)))
   | Panics p => Panics p
   end) <$> c (view s w).

#[global] Instance two_sockets : Sockets two := {|
  Switch.RecvMsg s := run_at s Socket.RecvMsg (λ r, match r with inl m => inr m | inr e => inl e end) (λ _, []);
  Switch.SendMsg s m := run_at s (Socket.SendMsg m) (λ r, r) (λ r, match r with None => [m] | Some _ => [] end)
|}.

(** The receive queue of a socket, and what has been taken from it *)
Definition recv_chan (x : sworld) : option channel := chans x !! recvq (sock x).
Definition queued (x : sworld) : list Message := from_option buffer [] (recv_chan x).
Definition received (x : sworld) : list Message := from_option taken [] (recv_chan x).

Record sound (x : sworld) : Prop := Sound {
  sound_inv : inv x;
  sound_recvq : recvq (sock x) ≠ 0%nat;
  sound_chan : is_Some (recv_chan x) }.

(** Another operation at the socket [s] *)
Definition tw_event (w w' : two) : Prop :=
  ∃ s e o, o ∈ run_at s (run_event e) (λ _, ()) (λ _, []) w ∧ o = Ret ((), w') ∧
    recvq (sock (sides w' s)) = recvq (sock (sides w s)) ∧ received (sides w' s) = received (sides w s).

Lemma run_at_ret {A B} s (c : ND A) (f : A → B) took w b w' : Ret (b, w') ∈ run_at s c f took w →
  ∃ a x, Ret (a, x) ∈ c (view s w) ∧ b = f a ∧ w' = Two (wd x) (set_at s x (sides w)) (set_at s (outs w s ++ took a) (outs w)).
Proof.
  intros (o & E & Ho)%list_elem_of_fmap. destruct o as [[a x]|p]; [|done]. injection E as -> ->. by exists a, x.
Qed.

Lemma sound_heap h x : sound (with_heap h x) ↔ sound x.
Proof.
  split; intros [[I1 I2 I3 I4 I5 I6 I7] Hr Hc]; (split; [|done..]); (split; [done..|]);
    intros [A1 A2 A3 A4]%I7; by split.
Qed.

(** ** What the operations do to the receive queue *)

(** [c] leaves the socket's fields, its pipes and its receive queue as they are, if that is apart. *)
Definition spares (x x' : sworld) : Prop :=
  apart x → apart x' ∧ recv_chan x' = recv_chan x ∧ sock x' = sock x ∧ spipes x' = spipes x.
#[global] Instance spares_preorder : PreOrder spares.
Proof.
  split; [by intros x H|]. intros x y z H1 H2 (A1 & E1 & E2 & E3)%H1. destruct (H2 A1) as (A2 & E4 & E5 & E6).
  split; [done|]. split_and!; congruence.
Qed.

Create HintDb spares discriminated.
Ltac sp :=
  repeat first
    [ solve [eauto with spares]
    | apply ev_ret; apply _ | apply ev_pick; apply _ | apply ev_blocked | apply ev_read; apply _
    | apply ev_deref; apply _ | apply ev_bind; [apply _| |intros ?] | case_match ].

Lemma spares_lift {A} (m : M world A) : evolves spares (lift_wd m).
Proof.
  intros x a x' H%nd_det [A1 A2 A3 A4]. destruct (m (wd x)) as [[b w]|]; [|done]. injection H as <- <-.
  split; [by split|done].
Qed.
#[export] Hint Resolve spares_lift : spares.

Lemma spares_push x q c : q ≠ recvq (sock x) → spares x (put_chan q c x).
Proof.
  intros Hq [A1 A2 A3 A4]. split; [split; [by apply lookup_insert_is_Some'; right|done..]|]. split; [|done]. unfold recv_chan. cbn. by rewrite lookup_insert_ne.
Qed.

Lemma spares_doPushMsg msg q x r x' : q ≠ recvq (sock x) → Ret (r, x') ∈ doPushMsg msg q x → spares x x'.
Proof.
  intros Hq H. unfold doPushMsg in H. runs H. apply push_select_spec in Hr as (c & _ & H).
  destruct x0; [by destruct H as [_ ->]| |by destruct H as (_ & _ & _ & ->)]. destruct H as [_ ->]. by apply spares_push.
Qed.

Lemma spares_sendToPipe id msg : evolves spares (sendToPipe id msg).
Proof.
  intros x r x' H HA. unfold sendToPipe in H. runs H. destruct (pipes (sock x) !! id) as [p|]; runs H; [|by split].
  eapply spares_doPushMsg; [|exact H|exact HA]. by apply (apart_spipes _ HA _ _ Hd).
Qed.
#[export] Hint Resolve spares_sendToPipe : spares.

Lemma spares_push_copies ps msg : evolves spares (push_copies ps msg).
Proof.
  induction ps as [|p ps IH]; cbn [push_copies]; [sp|]. intros x [] x' H HA. runs H.
  apply spares_lift in Hr as HD. destruct (HD HA) as (HA1 & E1 & E2 & E3).
  assert (Hq : sp_sendq x0 ≠ recvq (sock s1)) by (rewrite E2; by apply (apart_spipes _ HA _ _ Hd)).
  assert (HS : spares s1 x'); [|destruct (HS HA1) as (HA2 & E4 & E5 & E6); split; [done|]; split_and!; congruence].
  etrans; [by eapply spares_doPushMsg|by eapply IH].
Qed.
#[export] Hint Resolve spares_push_copies : spares.

Lemma spares_sendToAll msg : evolves spares (sendToAll msg).
Proof. unfold sendToAll. sp. Qed.
#[export] Hint Resolve spares_sendToAll : spares.

Lemma spares_SendMsg msg : evolves spares (Socket.SendMsg msg).
Proof.
  intros x r x' H HA. unfold Socket.SendMsg, dest_of in H. runs H. destruct (noSend (sock x)).
  { runs H. exact (spares_lift _ _ _ _ Hr HA). }
  runs H. apply nd_det, SendMsg_route_state in Hr as ->. destruct x0; runs H; try by split.
  - exact (spares_lift _ _ _ _ Hr HA).
  - exact (spares_sendToPipe _ _ _ _ _ H HA).
  - eapply spares_doPushMsg; [|exact H|exact HA]. apply (apart_sendq _ HA).
  - exact (spares_sendToAll _ _ _ _ H HA).
Qed.

(** What taking from the receive queue does *)
Lemma RecvMsg_effect x r x' : Ret (r, x') ∈ Socket.RecvMsg x →
  sock x' = sock x ∧ spipes x' = spipes x ∧
  match r with inl m => queued x = m :: queued x' ∧ is_Some (recv_chan x') | inr _ => x' = x end.
Proof.
  intros H. unfold Socket.RecvMsg in H. runs H. destruct (buffer x0) as [|m rest] eqn:Eb.
  - destruct (closedq (sock x)); runs H. by subst.
  - runs H. apply pull_spec in Hr as (c & rest1 & Hc & Hb & ->).
    rewrite Hd in Hc. injection Hc as <-. split; [done|]. split; [done|].
    unfold queued, recv_chan. cbn. rewrite Hd, lookup_insert_eq. cbn. by rewrite Hb.
Qed.

(** An operation that takes nothing from the receive queue only adds to it. *)
Lemma queued_grows x x' : inv x → inv x' → kept x x' → is_Some (recv_chan x) →
  recvq (sock x') = recvq (sock x) → received x' = received x →
  is_Some (recv_chan x') ∧ ∃ l, queued x' = queued x ++ l.
Proof.
  intros I I' [K _ _] [c Hc] Er Et. unfold queued, received, recv_chan in *. rewrite Er in *.
  destruct (K _ _ Hc) as (c' & Hc' & _ & [l Hp] & _). rewrite Hc, Hc' in *. cbn in *. split; [by eexists|].
  destruct (inv_chans _ I _ _ Hc) as [_ [H1 _]], (inv_chans _ I' _ _ Hc') as [_ [H2 _]].
  exists l. rewrite H2, Et, H1, <- app_assoc in Hp. by apply app_inv_head in Hp.
Qed.

(** ** The instance *)

Lemma view_sound s w : sound (sides w s) → sound (view s w).
Proof. by apply sound_heap. Qed.

Lemma send_effect s m w r x : (∀ t, sound (sides w t)) → Ret (r, x) ∈ Socket.SendMsg m (view s w) →
  (∀ t, sound (set_at s x (sides w) t)) ∧ ∀ t, queued (set_at s x (sides w) t) = queued (sides w t).
Proof.
  intros Hwf H. pose proof (good_SendMsg m _ _ _ H) as HG. destruct (view_sound s w (Hwf s)) as [I Hr Hc].
  destruct (HG I) as [I' _]. destruct (spares_SendMsg m _ _ _ H (inv_apart _ I Hr)) as (_ & E1 & E2 & _).
  split; intros t; unfold set_at; destruct (Bool.eqb t s) eqn:Ets; [|done| |done].
  - split; [done|by rewrite E2|by rewrite E1].
  - apply eqb_prop in Ets as ->. unfold queued. by rewrite E1.
Qed.

#[global] Program Instance two_ok : SocketsOk two := {|
  wf w := ∀ s, sound (sides w s);
  inbox s w := queued (sides w s);
  outbox s w := outs w s;
  arrives := tw_event
|}.
Next Obligation.
  intros s w m w' Hwf (r & x & H & E & ->)%run_at_ret. destruct r as [m1|e]; [|done]. injection E as <-.
  pose proof (good_RecvMsg _ _ _ H) as HG. destruct (view_sound s w (Hwf s)) as [I Hr Hc]. destruct (HG I) as [I' _].
  apply RecvMsg_effect in H as (E1 & E2 & E3 & E4). cbn. split; [|split; [|split]].
  - intros t. unfold set_at. destruct (Bool.eqb t s); [|done]. split; [done|by rewrite E1|done].
  - rewrite set_at_same. exact E3.
  - by rewrite set_at_negb.
  - intros t. unfold set_at. destruct (Bool.eqb t s) eqn:Ets; [|done]. apply eqb_prop in Ets as ->. by rewrite app_nil_r.
Qed.
Next Obligation.
  intros s w e w' Hwf (r & x & H & E & ->)%run_at_ret. destruct r as [m1|e1]; [done|].
  apply RecvMsg_effect in H as (_ & _ & ->). cbn. split.
  - intros t. unfold set_at. destruct (Bool.eqb t s); [|done]. by apply view_sound.
  - intros t. unfold set_at. destruct (Bool.eqb t s) eqn:Ets; [|done]. apply eqb_prop in Ets as ->. by rewrite app_nil_r.
Qed.
Next Obligation.
  intros s m w w' Hwf (r & x & H & <- & ->)%run_at_ret. destruct (send_effect s m w _ x Hwf H) as [Hs Hq]. cbn. split; [exact Hs|].
  split; [by rewrite set_at_same|]. split; [by rewrite set_at_negb|exact Hq].
Qed.
Next Obligation.
  intros s m w e w' Hwf (r & x & H & <- & ->)%run_at_ret. destruct (send_effect s m w _ x Hwf H) as [Hs Hq]. cbn. split; [exact Hs|].
  intros t. split; [exact (Hq t)|]. unfold set_at. destruct (Bool.eqb t s) eqn:Ets; [|done]. apply eqb_prop in Ets as ->. by rewrite app_nil_r.
Qed.
Next Obligation.
  intros w w' Hwf (s & e & o & H & -> & Er & Et). apply run_at_ret in H as ([] & x & H & _ & ->). cbn in Er, Et.
  rewrite set_at_same in Er, Et. pose proof (good_event e _ _ _ H) as HG.
  destruct (view_sound s w (Hwf s)) as [I Hr Hc]. destruct (HG I) as [I' K].
  destruct (queued_grows _ _ I I' K Hc Er Et) as [Hc' Hl]. cbn. split.
  - intros t. unfold set_at. destruct (Bool.eqb t s); [|done]. split; [done|by rewrite Er|done].
  - intros t. unfold set_at. destruct (Bool.eqb t s) eqn:Ets.
    + apply eqb_prop in Ets as ->. split; [exact Hl|by rewrite app_nil_r].
    + split; [exists []; by rewrite app_nil_r|done].
Qed.

(** Two sockets that their users have brought wherever they like, on the memory [h] *)
Definition starts (w : two) : Prop :=
  (∀ s, ∃ h st opts, reached h st opts (sides w s)) ∧ ∀ s, outs w s = [].

Lemma starts_wf w : starts w → wf w.
Proof.
  intros [H _] s. destruct (H s) as (h & st & opts & Hr). pose proof (reached_recvq _ _ _ _ Hr) as Hq.
  apply reached_inv in Hr as [I _]. split; [done..|]. apply (inv_apart _ I Hq).
Qed.


(** A message has come in at the back socket; the loop takes it to the front one. *)
Definition demo_got : sworld := demo_then (EReceiver 4 (Some demo_one) None []) demo_started.
Definition demo_two : two := Two (wd demo_got) (λ s, if s then demo_got else demo_new) (λ _, []).
Definition demo_switched : switch two := demo_move true (demo_move true (StartSwitch demo_two)).

Lemma demo_two_starts : starts demo_two.
Proof.
  split; [|done]. intros s. exists (world_init []), demo_store, 0%nat. destruct s.
  - destruct demo_started_reached as (s0 & H0 & Hr). exists s0. split; [exact H0|].
    eapply rtc_r; [exact Hr|]. exists (EReceiver 4 (Some demo_one) None []). unfold sstep. run_here.
  - apply demo_new_reached. reflexivity.
Qed.

Lemma demo_switched_reached : rtc (swstep None) (StartSwitch demo_two) demo_switched.
Proof.
  eapply rtc_l; [apply (demo_moves true); by vm_compute|].
  eapply rtc_l; [apply (demo_moves true); by vm_compute|]. apply rtc_refl.
Qed.

