(* ===== verification/Perf.v ===== *)
(** perf: the program that measures latency and throughput.

    [main] picks a command by the base of the program name or of the first argument and hands
    it the rest; the commands answer a wrong usage, or run a client or a server.  The
    clients and servers are loops over a socket of which they use RecvMsg, Send and SendTo: the
    section variables.  An [int] is 64 bits wide.  The loops of the servers end only when the
    counter meets the number of rounds, so they have fuel.  The whole programs, with
    the making of the socket, the clocks and the figures they print, are in PerfProg.v. *)
From S2P Require Import Prelude Errs Options.
From stdpp Require Import base tactics numbers list strings.
From Stdlib Require Import ZArith Lia Ascii.
Open Scope Z_scope.

(** ** Commands *)

Inductive command :=
  | ReqRepLatencyClient (addr : string) (msgSize roundTrips : Z)
  | ReqRepLatencyServer (addr : string) (msgSize roundTrips : Z)
  | LatencyClient (addr : string) (msgSize roundTrips : Z)
  | LatencyServer (addr : string) (msgSize roundTrips : Z)
  | ThroughputClient (addr : string) (msgSize count : Z)
  | ThroughputServer (addr : string) (msgSize count : Z).

(** What a call of [main] comes to: a goroutine, if any, and the command that runs, before
    [os.Exit(0)]; [log.Fatalf]; or [usage]. *)
Inductive verdict := Runs (background : option command) (c : command) | Fatal | Usage.

(** [strconv.Atoi] *)
Definition Atoi (s : string) : option Z := match ParseInt 64 s with (n, None) => Some n | (_, Some _) => None end.

Definition with_three (run : string → Z → Z → command) (args : list string) : verdict :=
  match args with
  | addr :: size :: count :: _ =>
      match Atoi size with
      | None => Fatal
      | Some size => match Atoi count with None => Fatal | Some count => Runs None (run addr size count) end
      end
  | _ => Fatal
  end.

Definition doRemoteReqRepLatency : list string → verdict := with_three ReqRepLatencyClient.
Definition doLocalReqRepLatency : list string → verdict := with_three ReqRepLatencyServer.
Definition doRemoteLatency : list string → verdict := with_three LatencyClient.
Definition doLocalLatency : list string → verdict := with_three LatencyServer.
Definition doRemoteThroughput : list string → verdict := with_three ThroughputClient.
Definition doLocalThroughput : list string → verdict := with_three ThroughputServer.

Definition with_two (background run : string → Z → Z → command) (args : list string) : verdict :=
  match args with
  | size :: count :: _ =>
      match Atoi size with
      | None => Fatal
      | Some size =>
          match Atoi count with
          | None => Fatal
          | Some count => Runs (Some (background "inproc://inproc_lat" size count)) (run "inproc://inproc_lat" size count)
          end
      end
  | _ => Fatal
  end%string.

Definition doInprocLat : list string → verdict := with_two LatencyServer LatencyClient.
Definition doInprocThr : list string → verdict := with_two ThroughputClient ThroughputServer.

(** [path.Base] *)
Fixpoint strip_slashes (s : list ascii) : list ascii :=
  match s with "/"%char :: s => strip_slashes s | _ => s end.
Fixpoint up_to_slash (s : list ascii) : list ascii :=
  match s with [] => [] | c :: s => if Ascii.eqb c "/" then [] else c :: up_to_slash s end.
Definition Base (p : string) : string :=
  if bool_decide (p = "")%string then "."%string else
  match reverse (up_to_slash (strip_slashes (reverse (String.list_ascii_of_string p)))) with
  | [] => "/"%string
  | l => String.string_of_list_ascii l
  end.

(** The cases of the switch *)
Definition commands : list (string * (list string → verdict)) := [
  ("remote_reqlat", doRemoteReqRepLatency); ("local_reqlat", doLocalReqRepLatency);
  ("latency_client", doRemoteLatency); ("remote_lat", doRemoteLatency);
  ("latency_server", doLocalLatency); ("local_lat", doLocalLatency);
  ("throughput_client", doRemoteThroughput); ("remote_thr", doRemoteThroughput);
  ("througput_server", doLocalThroughput); ("local_thr", doLocalThroughput);
  ("inproc_thr", doInprocThr); ("inproc_lat", doInprocLat)]%string.

Definition find_command (name : string) : option (list string → verdict) :=
  snd <$> head (filter (λ c, c.1 = name) commands).

(** [for tries = 0; tries < 2; tries++]: every command exits. *)
Fixpoint main_tries (tries : nat) (args : list string) : outcome verdict :=
  match tries with
  | O => Ret Usage
  | S tries =>
      match args with
      | [] => Panics PanicBounds
      | a :: rest => match find_command (Base a) with Some f => Ret (f rest) | None => main_tries tries rest end
      end
  end.
Definition main (args : list string) : outcome verdict := main_tries 2 args.

(** ** The loops *)

Inductive ending := Completed | LogFatal.

(** A Go [int] *)
Definition int64 (x : Z) : Z := (x + 2 ^ 63) mod 2 ^ 64 - 2 ^ 63.

Section loops.
Context {S : Type}.
(** [RecvMsg]: the source and the content of the message *)
Context (RecvMsg : S → (err + (list Z * list Z)) * S) (Send : list Z → S → option err * S)
  (SendTo : list Z → list Z → S → option err * S).

(** [for i := 0; i != roundTrips; i++] after at most [fuel] rounds: the ending ([None]: it goes on), the
    counter and the socket. *)
Fixpoint LatencyServer_rounds (fuel : nat) (msgSize roundTrips i : Z) (s : S) : option ending * Z * S :=
  match fuel with
  | O => (None, i, s)
  | Datatypes.S fuel =>
      if i =? roundTrips then (Some Completed, i, s) else
      match RecvMsg s with
      | (inl _, s) => (Some LogFatal, i, s)
      | (inr (source, content), s) =>
          if negb (zlen content =? msgSize) then (Some LogFatal, i, s) else
          match SendTo source content s with
          | (Some _, s) => (Some LogFatal, i, s)
          | (None, s) => LatencyServer_rounds fuel msgSize roundTrips (int64 (i + 1)) s
          end
      end
  end.

(** [for i := 0; i < roundTrips; i++] *)
Fixpoint LatencyClient_rounds (fuel : nat) (content : list Z) (roundTrips i : Z) (s : S) : option ending * Z * S :=
  match fuel with
  | O => (None, i, s)
  | Datatypes.S fuel =>
      if i <? roundTrips then
        match Send content s with
        | (Some _, s) => (Some LogFatal, i, s)
        | (None, s) =>
            match RecvMsg s with
            | (inl _, s) => (Some LogFatal, i, s)
            | (inr _, s) => LatencyClient_rounds fuel content roundTrips (int64 (i + 1)) s
            end
        end
      else (Some Completed, i, s)
  end.

(** [make([]byte, msgSize)] *)
Definition make_content (b msgSize : Z) : outcome (list Z) :=
  if msgSize <? 0 then Panics PanicBounds else Ret (replicate (Z.to_nat msgSize) b).

Definition run_LatencyServer (fuel : nat) (msgSize roundTrips : Z) (s : S) : option ending * Z * S :=
  LatencyServer_rounds fuel msgSize roundTrips 0 s.
Definition run_LatencyClient (fuel : nat) (msgSize roundTrips : Z) (s : S) : outcome (option ending * Z * S) :=
  match make_content 0 msgSize with
  | Panics p => Panics p
  | Ret content => Ret (LatencyClient_rounds fuel content roundTrips 0 s)
  end.

(** reqlatency.go: the same loops; only the clock is read in another place. *)
Definition run_ReqRepLatencyServer (fuel : nat) (msgSize roundTrips : Z) (s : S) : option ending * Z * S :=
  LatencyServer_rounds fuel msgSize roundTrips 0 s.
Definition run_ReqRepLatencyClient (fuel : nat) (msgSize roundTrips : Z) (s : S) : outcome (option ending * Z * S) :=
  match make_content 0 msgSize with
  | Panics p => Panics p
  | Ret content => Ret (LatencyClient_rounds fuel content roundTrips 0 s)
  end.

Fixpoint ThroughputServer_rounds (fuel : nat) (msgSize count i : Z) (s : S) : option ending * Z * S :=
  match fuel with
  | O => (None, i, s)
  | Datatypes.S fuel =>
      if i =? count then (Some Completed, i, s) else
      match RecvMsg s with
      | (inl _, s) => (Some LogFatal, i, s)
      | (inr (_, content), s) =>
          if negb (zlen content =? msgSize) then (Some LogFatal, i, s)
          else ThroughputServer_rounds fuel msgSize count (int64 (i + 1)) s
      end
  end.

(** The start message comes first. *)
Definition run_ThroughputServer (fuel : nat) (msgSize count : Z) (s : S) : option ending * Z * S :=
  match RecvMsg s with
  | (inl _, s) => (Some LogFatal, 0, s)
  | (inr _, s) => ThroughputServer_rounds fuel msgSize count 0 s
  end.

Fixpoint ThroughputClient_rounds (fuel : nat) (content : list Z) (count i : Z) (s : S) : option ending * Z * S :=
  match fuel with
  | O => (None, i, s)
  | Datatypes.S fuel =>
      if i <? count then
        match Send content s with
        | (Some _, s) => (Some LogFatal, i, s)
        | (None, s) => ThroughputClient_rounds fuel content count (int64 (i + 1)) s
        end
      else (Some Completed, i, s)
  end.

(** The error of the start message is not looked at. *)
Definition run_ThroughputClient (fuel : nat) (msgSize count : Z) (s : S) : outcome (option ending * Z * S) :=
  match make_content 111 msgSize with
  | Panics p => Panics p
  | Ret content => Ret (ThroughputClient_rounds fuel content count 0 (Send [] s).2)
  end.
End loops.

(** ** A client and a server over queues *)

(** The messages on their way, and the counter and ending of the server's loop. *)
Record duo := Duo { to_server : list (list Z); to_client : list (list Z); served : Z; ended : option ending }.

Definition server_RecvMsg (n : duo) : (err + (list Z * list Z)) * duo :=
  match to_server n with
  | [] => (inl ErrTimeout, n)
  | c :: l => (inr ([0; 0; 0; 1], c), Duo l (to_client n) (served n) (ended n))
  end.
Definition server_SendTo (_ content : list Z) (n : duo) : option err * duo :=
  (None, Duo (to_server n) (to_client n ++ [content]) (served n) (ended n)).
Definition client_Send (content : list Z) (n : duo) : option err * duo :=
  (None, Duo (to_server n ++ [content]) (to_client n) (served n) (ended n)).

(** The server's loop goes on for a round if a message waits for it. *)
Definition server_runs (msgSize roundTrips : Z) (n : duo) : duo :=
  match to_server n, ended n with
  | _ :: _, None =>
      let '(e, i, n) := LatencyServer_rounds server_RecvMsg server_SendTo 1 msgSize roundTrips (served n) n in
      Duo (to_server n) (to_client n) i e
  | _, _ => n
  end.

(** The client waits; meanwhile the server runs. *)
Definition client_RecvMsg (msgSize roundTrips : Z) (n : duo) : (err + (list Z * list Z)) * duo :=
  let n := server_runs msgSize roundTrips n in
  match to_client n with
  | [] => (inl ErrTimeout, n)
  | c :: l => (inr ([0; 0; 0; 1], c), Duo (to_server n) l (served n) (ended n))
  end.

Lemma int64_small x : - 2 ^ 63 ≤ x < 2 ^ 63 → int64 x = x.
Proof. intros. unfold int64. rewrite Z.mod_small by lia. lia. Qed.

(** One round trip *)
Lemma round_trip content m i n : 0 ≤ i < n → n < 2 ^ 63 → zlen content = m →
  client_RecvMsg m n (client_Send content (Duo [] [] i None)).2 = (inr ([0; 0; 0; 1], content), Duo [] [] (i + 1) None).
Proof.
  intros Hi Hn Hm. unfold client_RecvMsg, server_runs, client_Send. cbn [snd to_server ended app to_client served].
  cbn [LatencyServer_rounds]. rewrite (proj2 (Z.eqb_neq i n)) by lia. cbn [server_RecvMsg to_server].
  rewrite Hm, Z.eqb_refl. cbn. rewrite int64_small by lia. done.
Qed.

Lemma client_rounds content m n k i : 0 ≤ i → i + Z.of_nat k = n → n < 2 ^ 63 → zlen content = m →
  LatencyClient_rounds (client_RecvMsg m n) client_Send (S k) content n i (Duo [] [] i None) =
    (Some Completed, n, Duo [] [] n None).
Proof.
  revert i. induction k as [|k IH]; intros i Hi Hk Hn Hm.
  - cbn [LatencyClient_rounds]. assert (i = n) as -> by lia. by rewrite Z.ltb_irrefl.
  - set (f := S k) in *. cbn [LatencyClient_rounds]. rewrite (proj2 (Z.ltb_lt i n)) by lia.
    destruct (client_Send content (Duo [] [] i None)) as [e s] eqn:E. injection E as <- <-.
    pose proof (round_trip content m i n ltac:(lia) Hn Hm) as Hrt. cbn [client_Send snd to_server to_client served ended app] in Hrt.
    cbn [app]. rewrite Hrt. rewrite int64_small by lia. apply IH; lia || done.
Qed.

(** The throughput client leaves the start message and [count] contents on the queue. *)
Lemma throughput_client_rounds content n k i l : 0 ≤ i → i + Z.of_nat k = n → n < 2 ^ 63 →
  ThroughputClient_rounds client_Send (S k) content n i (Duo l [] 0 None) =
    (Some Completed, n, Duo (l ++ replicate k content) [] 0 None).
Proof.
  revert i l. induction k as [|k IH]; intros i l Hi Hk Hn.
  - cbn [ThroughputClient_rounds]. assert (i = n) as -> by lia. by rewrite Z.ltb_irrefl, app_nil_r.
  - set (f := S k) in *. cbn [ThroughputClient_rounds]. rewrite (proj2 (Z.ltb_lt i n)) by lia.
    cbn [client_Send to_server to_client served ended]. rewrite int64_small by lia.
    rewrite IH by lia. unfold f. cbn. by rewrite <- app_assoc.
Qed.

Lemma throughput_server_rounds m n ms i rest : 0 ≤ i → i + zlen ms = n → n < 2 ^ 63 → Forall (λ c : list Z, zlen c = m) ms →
  ThroughputServer_rounds server_RecvMsg (S (length ms)) m n i (Duo (ms ++ rest) [] 0 None) =
    (Some Completed, n, Duo rest [] 0 None).
Proof.
  intros Hi Hn Hb Hm. revert i Hi Hn. induction Hm as [|c ms Hc Hm IH]; intros i Hi Hn; autorewrite with zlist in Hn.
  - cbn. assert (i = n) as -> by lia. by rewrite Z.eqb_refl.
  - zlen_pose. cbn [length]. set (f := S (length ms)) in *. cbn [ThroughputServer_rounds]. rewrite (proj2 (Z.eqb_neq i n)) by lia.
    cbn [server_RecvMsg app to_server to_client served ended]. rewrite Hc, Z.eqb_refl. cbn [negb].
    rewrite int64_small by lia. apply IH; lia.
Qed.

(** A server's counter does not meet a negative count. *)
Lemma server_negative {S} RecvMsg SendTo fuel m n i (s : S) : n < 0 → 0 ≤ i → i + Z.of_nat fuel ≤ 2 ^ 63 →
  (LatencyServer_rounds RecvMsg SendTo fuel m n i s).1.1 ≠ Some Completed ∧
  (ThroughputServer_rounds RecvMsg fuel m n i s).1.1 ≠ Some Completed.
Proof.
  intros Hn. revert i s. induction fuel as [|fuel IH]; intros i s Hi Hf; [done|]. cbn [LatencyServer_rounds ThroughputServer_rounds].
  rewrite (proj2 (Z.eqb_neq i n)) by lia. destruct (RecvMsg s) as [[e|[src c]] s1]; [done|].
  destruct (negb (zlen c =? m)); [done|].
  assert (Hgo : ∀ s : S, (LatencyServer_rounds RecvMsg SendTo fuel m n (int64 (i + 1)) s).1.1 ≠ Some Completed ∧
    (ThroughputServer_rounds RecvMsg fuel m n (int64 (i + 1)) s).1.1 ≠ Some Completed).
  { intros s2. destruct fuel as [|fuel']; [done|]. rewrite int64_small by lia. apply IH; lia. }
  split; [|apply Hgo]. destruct (SendTo src c s1) as [[e|] s2]; [done|]. apply Hgo.
Qed.

(** ** Claims *)

Lemma Base_after d name :
  Forall (λ c, Ascii.eqb c "/" = false) (String.list_ascii_of_string name) → name ≠ ""%string →
  Base (d +:+ "/" +:+ name) = name ∧ Base name = name.
Proof.
  intros Hc Hn.
  assert (Hl : ∀ s t : string, String.list_ascii_of_string (s +:+ t) = String.list_ascii_of_string s ++ String.list_ascii_of_string t).
  { induction s as [|c s IH]; intros t; [done|]. exact (f_equal (cons c) (IH t)). }
  set (l := String.list_ascii_of_string name) in *.
  assert (Hl0 : l ≠ []) by (unfold l; by destruct name).
  assert (Hup : ∀ k rest, Forall (λ c, Ascii.eqb c "/" = false) k →
    (rest = [] ∨ ∃ r, rest = "/"%char :: r) → up_to_slash (k ++ rest) = k).
  { intros k rest Hk [->|[r ->]]; induction Hk as [|c k Hx _ IH]; cbn; [done|by rewrite Hx, IH|done|by rewrite Hx, IH]. }
  assert (Hst : ∀ k rest, Forall (λ c, Ascii.eqb c "/" = false) k → k ≠ [] → strip_slashes (k ++ rest) = k ++ rest).
  { intros k rest Hk Hne. destruct Hk as [|c k Hx _]; [done|]. cbn.
    destruct c as [[] [] [] [] [] [] [] []]; try done; discriminate Hx. }
  assert (Hr : Forall (λ c, Ascii.eqb c "/" = false) (reverse l)) by by apply Forall_reverse.
  assert (Hrn : reverse l ≠ []) by (intros E; apply (f_equal reverse) in E; by rewrite reverse_involutive in E).
  assert (Hfin : match reverse (reverse l) with [] => "/"%string | l => String.string_of_list_ascii l end = name).
  { rewrite reverse_involutive. destruct l eqn:E; [done|]. rewrite <- E. apply String.string_of_list_ascii_of_string. }
  split; unfold Base.
  - rewrite bool_decide_eq_false_2 by (by destruct d). rewrite !Hl. cbn [String.list_ascii_of_string app]. fold l.
    change ("/"%char :: l) with (["/"%char] ++ l). rewrite app_assoc, reverse_app, Hst by done. rewrite Hup; [exact Hfin|done|right].
    rewrite reverse_snoc. by eexists.
  - rewrite bool_decide_eq_false_2 by done. fold l. rewrite <- (app_nil_r (reverse l)).
    rewrite Hst, Hup by (done || by left). exact Hfin.
Qed.

(** How perf finds its command: a name of the switch is found as the base of the program's
    path, in whatever directory, and as that of the first argument of a program of another name,
    and the arguments after it are the command's; with another program name and no argument
    [main] panics instead of printing the usage, which takes a first argument that is no
    command either; and the name throughput_server is not one. *)
Theorem perf_finds_command name f d prog args :
  find_command name = Some f → find_command (Base prog) = None →
  main ((d +:+ "/" +:+ name) :: args) = Ret (f args) ∧
  main (prog :: (d +:+ "/" +:+ name) :: args) = Ret (f args) ∧
  main (prog :: name :: args) = Ret (f args) ∧
  main [prog] = Panics PanicBounds ∧
  (∀ a, find_command (Base a) = None → main (prog :: a :: args) = Ret Usage) ∧
  find_command "throughput_server" = None.
Proof.
  intros Hf Hp.
  assert (Hin : name ∈ commands.*1).
  { unfold find_command in Hf. destruct (filter (λ c : string * _, c.1 = name) commands) as [|c l] eqn:E; [done|].
    assert (Hc : c ∈ filter (λ c : string * _, c.1 = name) commands) by (rewrite E; by left).
    apply list_elem_of_filter in Hc as [<- Hc]. apply list_elem_of_fmap. by exists c. }
  assert (Hb : Base (d +:+ "/" +:+ name) = name ∧ Base name = name).
  { assert (Hall : Forall (λ n, Forall (λ c, Ascii.eqb c "/" = false) (String.list_ascii_of_string n) ∧ n ≠ ""%string) commands.*1)
      by (repeat constructor; done).
    rewrite Forall_forall in Hall. destruct (Hall name Hin). by apply Base_after. }
  destruct Hb as [Hb1 Hb2]. unfold main. cbn [main_tries]. rewrite Hb1, Hb2, Hp, Hf. split_and!; try done.
  intros a Ha. by rewrite Ha.
Qed.


Lemma perf_finds_command_witness :
  main ["/usr/bin/local_lat"; "tcp://here:1"; "8"; "100"]%string = Ret (Runs None (LatencyServer "tcp://here:1" 8 100)) ∧
  main ["perf"]%string = Panics PanicBounds.
Proof.
  destruct (perf_finds_command "local_lat" doLocalLatency "/usr/bin" "perf" ["tcp://here:1"; "8"; "100"]%string)
    as (H1 & _ & _ & H2 & _); [reflexivity..|]. split; [exact H1|exact H2].
Defined.

