(* ===== verification/PerfProg.v ===== *)
(** perf: the six programs whole, with the setting up of the socket, the clocks and the figures printed.

    A program makes a socket and a listener or a dialer, sets NoDelay on it without looking at
    the error, starts it, runs its loop (Perf.v), and prints.  The calls it makes are the record
    [calls]; [prog] threads the state of the world and stops at [log.Fatalf], which exits without
    the deferred calls, at a panic, which runs them, or when the fuel of a loop is used up.  A
    float64 is the Standard Library's [spec_float] with 53 bits of precision. *)
From S2P Require Import Prelude Errs Options OptionReg Perf.
From stdpp Require Import base tactics numbers list strings.
From Stdlib Require Import ZArith Lia SpecFloat.
Open Scope Z_scope.

Inductive stop := Fatal_ | Panicked (p : panic) | Running.

Definition prog (S A : Type) : Type := S → (stop + A) * S.
#[global] Instance prog_ret S : MRet (prog S) := λ A a s, (inr a, s).
#[global] Instance prog_bind S : MBind (prog S) := λ A B f m s,
  match m s with (inl x, s) => (inl x, s) | (inr a, s) => f a s end.

(** ** float64 *)

Definition float64 (n : Z) : spec_float := binary_normalize 53 1024 n 0 false.
Definition fdiv : spec_float → spec_float → spec_float := SFdiv 53 1024.

(** ** Durations: the difference of two times saturates. *)

Definition Sub (t u : Z) : Z := Z.max (- 2 ^ 63) (Z.min (2 ^ 63 - 1) (t - u)).
Definition Microsecond : Z := 1000.
Definition Millisecond : Z := 1000000.
Definition Second : Z := 1000000000.

(** What a program prints at its end. *)
Inductive printed :=
  | Nothing
  | LatencyReport (messageSize roundTrips : Z) (lat : spec_float)
  | RTTReport (messageSize roundTrips : Z) (lat : spec_float)
  | ThroughputReport (messageSize count : Z) (msgpersec mbps : spec_float).

(** What a program calls: the socket with its dialers and listeners, and package time. *)
Record calls (S : Type) := Calls {
  New : S → S;
  NewListener : string → S → (err + nat) * S;
  NewDialer : string → S → (err + nat) * S;
  SetOption : nat → Option → value → S → option err * S;
  Listen : nat → S → option err * S;
  Dial : nat → S → option err * S;
  RecvMsg : S → (err + (list Z * list Z)) * S;
  Send : list Z → S → option err * S;
  SendTo : list Z → list Z → S → option err * S;
  Close : S → S;
  Sleep : Z → S → S;
  Now : S → Z * S }.
Arguments New {S} c. Arguments NewListener {S} c. Arguments NewDialer {S} c. Arguments SetOption {S} c.
Arguments Listen {S} c. Arguments Dial {S} c. Arguments RecvMsg {S} c. Arguments Send {S} c.
Arguments SendTo {S} c. Arguments Close {S} c. Arguments Sleep {S} c. Arguments Now {S} c.

Section programs.
Context {S : Type} (c : calls S).

Definition does (f : S → S) : prog S unit := λ s, (inr (), f s).
Definition reads {A} (f : S → A * S) : prog S A := λ s, let '(a, s) := f s in (inr a, s).

(** [if err != nil { log.Fatalf(...) }] *)
Definition or_fatal {A} (f : S → (err + A) * S) : prog S A := λ s,
  match f s with (inl _, s) => (inl Fatal_, s) | (inr a, s) => (inr a, s) end.
Definition or_fatal_err (f : S → option err * S) : prog S unit := λ s,
  match f s with (Some _, s) => (inl Fatal_, s) | (None, s) => (inr (), s) end.

(** A loop of Perf.v *)
Definition loop (f : S → option ending * Z * S) : prog S unit := λ s,
  match f s with
  | (Some Completed, _, s) => (inr (), s)
  | (Some LogFatal, _, s) => (inl Fatal_, s)
  | (None, _, s) => (inl Running, s)
  end.

(** [make([]byte, msgSize)], filled with [b] *)
Definition makes (b msgSize : Z) : prog S (list Z) := λ s,
  match make_content b msgSize with Panics p => (inl (Panicked p), s) | Ret content => (inr content, s) end.

(** [defer close()] *)
Definition deferred (close : S → S) {A} (p : prog S A) : prog S A := λ s,
  match p s with
  | (inr a, s) => (inr a, close s)
  | (inl (Panicked x), s) => (inl (Panicked x), close s)
  | r => r
  end.

(** [l, err := s.NewListener(addr, nil)] up to [l.Listen()], and the same of a dialer *)
Definition listens (addr : string) : prog S unit :=
  l ← or_fatal (NewListener c addr);
  _ ← reads (SetOption c l Transport.tcp_NoDelay (VBool true));
  or_fatal_err (Listen c l).
Definition dials (addr : string) : prog S unit :=
  d ← or_fatal (NewDialer c addr);
  _ ← reads (SetOption c d Transport.tcp_NoDelay (VBool true));
  or_fatal_err (Dial c d);;
  does (Sleep c (100 * Millisecond)).

Definition LatencyServer (fuel : nat) (addr : string) (msgSize roundTrips : Z) : prog S printed :=
  does (New c);;
  deferred (λ s, Close c (Sleep c (10 * Microsecond) s)) (
    listens addr;;
    loop (run_LatencyServer (RecvMsg c) (SendTo c) fuel msgSize roundTrips);;
    mret Nothing).

Definition LatencyClient (fuel : nat) (addr : string) (msgSize roundTrips : Z) : prog S printed :=
  does (New c);;
  deferred (Close c) (
    dials addr;;
    content ← makes 0 msgSize;
    start ← reads (Now c);
    loop (LatencyClient_rounds (RecvMsg c) (Send c) fuel content roundTrips 0);;
    finish ← reads (Now c);
    let total := Sub finish start `quot` Microsecond in
    mret (LatencyReport msgSize roundTrips (fdiv (float64 total) (float64 (int64 (roundTrips * 2)))))).

Definition ReqRepLatencyServer (fuel : nat) (addr : string) (msgSize roundTrips : Z) : prog S printed :=
  does (New c);;
  deferred (λ s, Close c (Sleep c (10 * Microsecond) s)) (
    listens addr;;
    loop (run_ReqRepLatencyServer (RecvMsg c) (SendTo c) fuel msgSize roundTrips);;
    mret Nothing).

(** The loop reads the clock in each round and adds up. *)
Fixpoint ReqRepLatencyClient_rounds (fuel : nat) (content : list Z) (roundTrips i total : Z) : prog S Z :=
  match fuel with
  | O => λ s, (inl Running, s)
  | Datatypes.S fuel =>
      if i <? roundTrips then
        start ← reads (Now c);
        or_fatal_err (Send c content);;
        _ ← or_fatal (RecvMsg c);
        now ← reads (Now c);
        ReqRepLatencyClient_rounds fuel content roundTrips (int64 (i + 1)) (int64 (total + Sub now start))
      else mret total
  end.

Definition ReqRepLatencyClient (fuel : nat) (addr : string) (msgSize roundTrips : Z) : prog S printed :=
  does (New c);;
  deferred (Close c) (
    dials addr;;
    content ← makes 0 msgSize;
    total ← ReqRepLatencyClient_rounds fuel content roundTrips 0 0;
    mret (RTTReport msgSize roundTrips (fdiv (float64 (total `quot` Microsecond)) (float64 roundTrips)))).

Definition ThroughputServer (fuel : nat) (addr : string) (msgSize count : Z) : prog S printed :=
  does (New c);;
  deferred (Close c) (
    listens addr;;
    _ ← or_fatal (RecvMsg c);
    start ← reads (Now c);
    loop (ThroughputServer_rounds (RecvMsg c) fuel msgSize count 0);;
    finish ← reads (Now c);
    let deltasec := fdiv (float64 (Sub finish start)) (float64 Second) in
    let msgpersec := fdiv (float64 count) deltasec in
    let mbps := fdiv (fdiv (float64 (int64 (int64 (count * 8) * msgSize))) deltasec) (float64 1000000) in
    mret (ThroughputReport msgSize count msgpersec mbps)).

Definition ThroughputClient (fuel : nat) (addr : string) (msgSize count : Z) : prog S printed :=
  does (New c);;
  deferred (Close c) (
    dials addr;;
    content ← makes 111 msgSize;
    _ ← reads (Send c []);
    loop (ThroughputClient_rounds (Send c) fuel content count 0);;
    mret Nothing).

(** The call of a command *)
Definition run_command (fuel : nat) (x : command) : prog S printed :=
  match x with
  | Perf.LatencyServer a m n => LatencyServer fuel a m n
  | Perf.LatencyClient a m n => LatencyClient fuel a m n
  | Perf.ReqRepLatencyServer a m n => ReqRepLatencyServer fuel a m n
  | Perf.ReqRepLatencyClient a m n => ReqRepLatencyClient fuel a m n
  | Perf.ThroughputServer a m n => ThroughputServer fuel a m n
  | Perf.ThroughputClient a m n => ThroughputClient fuel a m n
  end.
End programs.

(** ** The order of the calls *)

Inductive action :=
  | AMade | AConn (listener : bool) (addr : string) | ASet (o : Option) (v : value) | AStarted (listener : bool)
  | AMessage | AClosed.

(** The same calls with a record of them *)
Definition logged {S} (c : calls S) : calls (S * list action) :=
  let log a (s : S * list action) := s.2 ++ [a] in
  let pure a (f : S → S) s := (f s.1, log a s) in
  let call {A} a (f : S → A * S) s := let '(x, s1) := f s.1 in (x, (s1, log a s)) in
  {|
    New := pure AMade (New c);
    NewListener addr := call (AConn true addr) (NewListener c addr);
    NewDialer addr := call (AConn false addr) (NewDialer c addr);
    SetOption l o v := call (ASet o v) (SetOption c l o v);
    Listen l := call (AStarted true) (Listen c l);
    Dial l := call (AStarted false) (Dial c l);
    RecvMsg := call AMessage (RecvMsg c);
    Send b := call AMessage (Send c b);
    SendTo d b := call AMessage (SendTo c d b);
    Close := pure AClosed (Close c);
    Sleep d s := (Sleep c d s.1, s.2);
    Now s := let '(t, s1) := Now c s.1 in (t, (s1, s.2))
  |}.

Section order.
Context {S : Type} (c : calls S).
Implicit Types s : S * list action.

(** [s'] is reached from [s] by calls [l]. *)
Definition after (l : list action) s s' : Prop := s'.2 = s.2 ++ l.
Definition messages s s' : Prop := ∃ j, after (replicate j AMessage) s s'.

Lemma messages_refl s : messages s s.
Proof. exists 0%nat. unfold after. by rewrite app_nil_r. Qed.
Lemma messages_trans s s1 s2 : messages s s1 → messages s1 s2 → messages s s2.
Proof. intros [j H] [k H1]. exists (j + k)%nat. unfold after in *. by rewrite H1, H, <- app_assoc, <- replicate_add. Qed.
Lemma messages_log (x : S) s : messages s (x, s.2 ++ [AMessage]).
Proof. by exists 1%nat. Qed.

(** The calls on messages only add to the record. *)
Lemma recv_messages s : messages s (RecvMsg (logged c) s).2.
Proof. cbn. destruct (RecvMsg c s.1). apply messages_log. Qed.
Lemma send_messages b s : messages s (Send (logged c) b s).2.
Proof. cbn. destruct (Send c b s.1). apply messages_log. Qed.
Lemma sendto_messages d b s : messages s (SendTo (logged c) d b s).2.
Proof. cbn. destruct (SendTo c d b s.1). apply messages_log. Qed.
Lemma now_messages s : messages s (Now (logged c) s).2.
Proof. cbn. destruct (Now c s.1). apply (messages_refl s). Qed.

(** A program that only exchanges messages, and may stop as [P] says. *)
Definition talks {A} (P : stop → Prop) (p : prog (S * list action) A) : Prop :=
  ∀ s, messages s (p s).2 ∧ match (p s).1 with inl x => P x | inr _ => True end.

Lemma talks_bind {A B} P (p : prog _ A) (f : A → prog _ B) : talks P p → (∀ a, talks P (f a)) → talks P (p ≫= f).
Proof.
  intros Hp Hf s. unfold mbind, prog_bind. destruct (Hp s) as [H1 H2]. destruct (p s) as [[x|a] s1]; [done|].
  destruct (Hf a s1) as [H3 H4]. split; [by eapply messages_trans|done].
Qed.

Lemma talks_ret {A} P (a : A) : talks P (mret a).
Proof. intros s. split; [apply messages_refl|done]. Qed.

Lemma talks_reads {A} P (f : S * list action → A * (S * list action)) : (∀ s, messages s (f s).2) → talks P (reads f).
Proof. intros H s. specialize (H s). unfold reads. by destruct (f s). Qed.

Lemma talks_or_fatal {A} (P : stop → Prop) (f : S * list action → (err + A) * (S * list action)) :
  P Fatal_ → (∀ s, messages s (f s).2) → talks P (or_fatal f).
Proof. intros HP H s. specialize (H s). unfold or_fatal. by destruct (f s) as [[e|a] s1]. Qed.

Lemma talks_or_fatal_err (P : stop → Prop) (f : S * list action → option err * (S * list action)) :
  P Fatal_ → (∀ s, messages s (f s).2) → talks P (or_fatal_err f).
Proof. intros HP H s. specialize (H s). unfold or_fatal_err. by destruct (f s) as [[e|] s1]. Qed.

Lemma talks_loop (P : stop → Prop) f : P Fatal_ → P Running → (∀ s, messages s (f s).2) → talks P (loop f).
Proof. intros HF HR H s. specialize (H s). unfold loop. by destruct (f s) as [[[[]|] i] s1]. Qed.

Lemma talks_makes (P : stop → Prop) b m : (m < 0 → P (Panicked PanicBounds)) → talks P (makes (S := S * list action) b m).
Proof.
  intros HP s. unfold makes, make_content. destruct (Z.ltb_spec m 0); cbn; [|split; [apply messages_refl|done]].
  split; [apply messages_refl|by apply HP].
Qed.

(** The loops *)
Lemma server_loop_talks fuel m n i s :
  messages s (LatencyServer_rounds (RecvMsg (logged c)) (SendTo (logged c)) fuel m n i s).2.
Proof.
  revert i s. induction fuel as [|fuel IH]; intros i s; [apply messages_refl|]. cbn [LatencyServer_rounds].
  destruct (i =? n); [apply messages_refl|]. pose proof (recv_messages s) as H.
  destruct (RecvMsg (logged c) s) as [[e|[src b]] s1]; [done|]. destruct (negb (zlen b =? m)); [done|].
  pose proof (sendto_messages src b s1) as H1. destruct (SendTo (logged c) src b s1) as [[e|] s2];
    [by eapply messages_trans|]. eapply messages_trans; [exact H|]. eapply messages_trans; [exact H1|apply IH].
Qed.

Lemma client_loop_talks fuel b n i s :
  messages s (LatencyClient_rounds (RecvMsg (logged c)) (Send (logged c)) fuel b n i s).2.
Proof.
  revert i s. induction fuel as [|fuel IH]; intros i s; [apply messages_refl|]. cbn [LatencyClient_rounds].
  destruct (i <? n); [|apply messages_refl]. pose proof (send_messages b s) as H.
  destruct (Send (logged c) b s) as [[e|] s1]; [done|]. pose proof (recv_messages s1) as H1.
  destruct (RecvMsg (logged c) s1) as [[e|x] s2]; [by eapply messages_trans|].
  eapply messages_trans; [exact H|]. eapply messages_trans; [exact H1|apply IH].
Qed.

Lemma count_loop_talks fuel m n i s : messages s (ThroughputServer_rounds (RecvMsg (logged c)) fuel m n i s).2.
Proof.
  revert i s. induction fuel as [|fuel IH]; intros i s; [apply messages_refl|]. cbn [ThroughputServer_rounds].
  destruct (i =? n); [apply messages_refl|]. pose proof (recv_messages s) as H.
  destruct (RecvMsg (logged c) s) as [[e|[src b]] s1]; [done|]. destruct (negb (zlen b =? m)); [done|].
  eapply messages_trans; [exact H|apply IH].
Qed.

Lemma send_loop_talks fuel b n i s : messages s (ThroughputClient_rounds (Send (logged c)) fuel b n i s).2.
Proof.
  revert i s. induction fuel as [|fuel IH]; intros i s; [apply messages_refl|]. cbn [ThroughputClient_rounds].
  destruct (i <? n); [|apply messages_refl]. pose proof (send_messages b s) as H.
  destruct (Send (logged c) b s) as [[e|] s1]; [done|]. eapply messages_trans; [exact H|apply IH].
Qed.

Lemma reqrep_loop_talks (P : stop → Prop) fuel b n i total :
  P Fatal_ → P Running → talks P (ReqRepLatencyClient_rounds (logged c) fuel b n i total).
Proof.
  intros HF HR. revert i total. induction fuel as [|fuel IH]; intros i total.
  { intros s. split; [apply messages_refl|done]. }
  cbn [ReqRepLatencyClient_rounds]. destruct (i <? n); [|apply talks_ret].
  repeat first [apply talks_bind; [|intros ?]]; [apply talks_reads, now_messages|apply talks_or_fatal_err, send_messages; done|
    apply talks_or_fatal, recv_messages; done|apply talks_reads, now_messages|apply IH].
Qed.

(** The socket is set up by these calls, in this order, as far as none of them fails. *)
Definition setup (listener : bool) (addr : string) : list action :=
  [AConn listener addr; ASet Transport.tcp_NoDelay (VBool true); AStarted listener].

Definition sets_up (listener : bool) (addr : string) (p : prog (S * list action) ()) : Prop :=
  ∀ s, ∃ k, (1 ≤ k ≤ 3)%nat ∧ after (take k (setup listener addr)) s (p s).2 ∧
    match (p s).1 with inl x => x = Fatal_ | inr _ => k = 3%nat end.

Lemma listens_sets_up addr : sets_up true addr (listens (logged c) addr).
Proof.
  intros s. unfold listens, mbind, prog_bind, or_fatal, or_fatal_err, reads, after. cbn.
  destruct (NewListener c addr s.1) as [[e|l] s1]; cbn; [by exists 1%nat; split; [lia|]|].
  destruct (SetOption c l Transport.tcp_NoDelay (VBool true) s1) as [r s2]. cbn.
  destruct (Listen c l s2) as [[e|] s3]; cbn; exists 3%nat; split; [lia|by rewrite <- !app_assoc|lia|by rewrite <- !app_assoc].
Qed.

Lemma dials_sets_up addr : sets_up false addr (dials (logged c) addr).
Proof.
  intros s. unfold dials, mbind, prog_bind, or_fatal, or_fatal_err, reads, does, after. cbn.
  destruct (NewDialer c addr s.1) as [[e|l] s1]; cbn; [by exists 1%nat; split; [lia|]|].
  destruct (SetOption c l Transport.tcp_NoDelay (VBool true) s1) as [r s2]. cbn.
  destruct (Dial c l s2) as [[e|] s3]; cbn; exists 3%nat; split; [lia|by rewrite <- !app_assoc|lia|by rewrite <- !app_assoc].
Qed.

Definition closes {A} (r : stop + A) : list action :=
  match r with inl Fatal_ | inl Running => [] | _ => [AClosed] end.

(** The record of a program from [s], and how it stopped. *)
Definition runs {A} (listener : bool) (addr : string) (P : stop → Prop) (p : prog (S * list action) A) : Prop :=
  ∀ s, ∃ k j, (1 ≤ k ≤ 3)%nat ∧ (k = 3%nat ∨ j = 0%nat ∧ (p s).1 = inl Fatal_) ∧
    after (AMade :: take k (setup listener addr) ++ replicate j AMessage ++ closes (p s).1) s (p s).2 ∧
    match (p s).1 with inl x => x = Fatal_ ∨ P x | inr _ => True end.

Lemma runs_program {A} listener addr P (p : prog _ ()) (q : prog _ A) close :
  sets_up listener addr p → talks P q → (∀ s, after [AClosed] s (close s)) →
  runs listener addr P (does (New (logged c));; deferred close (p;; q)).
Proof.
  intros Hp Hq Hc s. unfold mbind, prog_bind, does, deferred. cbn. set (s0 := (New c s.1, s.2 ++ [AMade])).
  destruct (Hp s0) as (k & Hk & Ha & Hr). destruct (p s0) as [[x|[]] s1]; cbn in Ha, Hr.
  - subst x. exists k, 0%nat. split; [done|]. split; [by right|]. split; [|by left]. unfold after in *. cbn in *.
    by rewrite Ha, app_nil_r, <- app_assoc.
  - subst k. destruct (Hq s1) as [[j Hj] HP]. destruct (q s1) as [r s2]. cbn in Hj, HP. exists 3%nat, j.
    assert (H2 : s2.2 = s.2 ++ AMade :: setup listener addr ++ replicate j AMessage).
    { unfold after in Hj, Ha. rewrite Hj, Ha. cbn. by rewrite <- !app_assoc. }
    split; [done|]. split; [by left|]. pose proof (Hc s2) as H3. unfold after in H3 |- *.
    destruct r as [[|x|]|a]; cbn [fst snd closes]; rewrite ?H3, H2; (split; [|by auto]); rewrite ?app_nil_r, <- ?app_assoc; cbn;
      by rewrite ?app_nil_r, <- ?app_assoc.
Qed.
End order.

Definition addr_of (x : command) : string :=
  match x with
  | Perf.LatencyServer a _ _ | Perf.LatencyClient a _ _ | Perf.ReqRepLatencyServer a _ _ | Perf.ReqRepLatencyClient a _ _
  | Perf.ThroughputServer a _ _ | Perf.ThroughputClient a _ _ => a
  end.
Definition is_server (x : command) : bool :=
  match x with Perf.LatencyServer _ _ _ | Perf.ReqRepLatencyServer _ _ _ | Perf.ThroughputServer _ _ _ => true | _ => false end.
Definition size_of (x : command) : Z :=
  match x with
  | Perf.LatencyServer _ m _ | Perf.LatencyClient _ m _ | Perf.ReqRepLatencyServer _ m _ | Perf.ReqRepLatencyClient _ m _
  | Perf.ThroughputServer _ m _ | Perf.ThroughputClient _ m _ => m
  end.

(** Every program of perf, whatever its calls answer, makes the socket, then its listener or its
    dialer for the address, sets NoDelay on it and starts it, in this order and up to the first of these
    that ends the program; only then it exchanges messages; at its end it closes the socket, also when it
    panics, which only a client does and only for a negative size - but not when it ends
    by log.Fatalf: then the socket stays open. *)
Theorem perf_programs {S} (c : calls S) fuel (x : command) (s : S) :
  let '(r, (_, l)) := run_command (logged c) fuel x (s, []) in
  ∃ k j, (1 ≤ k ≤ 3)%nat ∧ (k = 3%nat ∨ j = 0%nat ∧ r = inl Fatal_) ∧
    l = AMade :: take k (setup (is_server x) (addr_of x)) ++ replicate j AMessage ++ closes r ∧
    match r with inl (Panicked p) => p = PanicBounds ∧ size_of x < 0 ∧ is_server x = false | _ => True end.
Proof.
  set (P st := match st with Panicked p => p = PanicBounds ∧ size_of x < 0 ∧ is_server x = false | _ => True end).
  assert (H : runs (is_server x) (addr_of x) P (run_command (logged c) fuel x)).
  { assert (Hc : ∀ s, after [AClosed] s (Close (logged c) s)) by done.
    destruct x; cbn [run_command is_server addr_of]; apply runs_program; try done;
      try apply listens_sets_up; try apply dials_sets_up;
      repeat (first [apply talks_ret | apply talks_bind; [|intros ?] | apply talks_makes; by repeat split |
        apply talks_reads, now_messages | apply talks_reads; intros ?; apply send_messages | apply reqrep_loop_talks; done |
        apply talks_or_fatal; [done|apply recv_messages] |
        apply talks_loop; [done..|intros s1; first [apply server_loop_talks|apply client_loop_talks|
          apply count_loop_talks|apply send_loop_talks]]]). }
  destruct (H (s, [])) as (k & j & Hk & Hj & Ha & HP). destruct (run_command _ _ _ _) as [r [s1 l]].
  exists k, j. split; [done|]. split; [done|]. split; [exact Ha|]. destruct r as [[|p|]|]; try done. by destruct HP as [?|?].
Qed.

(** ** The figures *)

(** A connection in order to a server (Perf.v) whose answers take [lag] nanoseconds *)
Definition timed (m n lag : Z) : calls (duo * Z) := {|
  New s := (Duo [] [] 0 None, s.2);
  NewListener _ s := (inr 0%nat, s);
  NewDialer _ s := (inr 0%nat, s);
  SetOption _ _ _ s := (None, s);
  Listen _ s := (None, s);
  Dial _ s := (None, s);
  RecvMsg s := let '(r, d) := client_RecvMsg m n s.1 in (r, (d, s.2 + lag));
  Send b s := let '(e, d) := client_Send b s.1 in (e, (d, s.2));
  SendTo _ _ s := (None, s);
  Close s := s;
  Sleep d s := (s.1, s.2 + d);
  Now s := (s.2, s)
|}.

Section timed.
Context (m n lag : Z) (Hn : 0 ≤ n < 2 ^ 62) (Hlag : 0 ≤ lag) (Hall : n * lag < 2 ^ 63).

Lemma timed_trip content i t : 0 ≤ i < n → zlen content = m →
  ∃ s1, Send (timed m n lag) content (Duo [] [] i None, t) = (None, s1) ∧ s1.2 = t ∧
    RecvMsg (timed m n lag) s1 = (inr ([0; 0; 0; 1], content), (Duo [] [] (i + 1) None, t + lag)).
Proof.
  intros Hi Hm. eexists. split; [done|]. split; [done|]. cbn [RecvMsg timed fst snd].
  pose proof (round_trip content m i n Hi ltac:(lia) Hm) as H. cbn [client_Send snd to_server to_client served ended app] in H |- *.
  by rewrite H.
Qed.

Lemma timed_rounds content k i t : 0 ≤ i → i + Z.of_nat k = n → zlen content = m →
  LatencyClient_rounds (RecvMsg (timed m n lag)) (Send (timed m n lag)) (S k) content n i (Duo [] [] i None, t) =
    (Some Completed, n, (Duo [] [] n None, t + Z.of_nat k * lag)).
Proof.
  revert i t. induction k as [|k IH]; intros i t Hi Hk Hm.
  - cbn [LatencyClient_rounds]. assert (i = n) as -> by lia. by rewrite Z.ltb_irrefl, Z.add_0_r.
  - set (f := S k) in *. cbn [LatencyClient_rounds]. rewrite (proj2 (Z.ltb_lt i n)) by lia.
    destruct (timed_trip content i t) as (s1 & -> & _ & ->); [lia|done|]. rewrite int64_small by lia.
    unfold f. rewrite IH by lia || done. do 2 f_equal. lia.
Qed.

Lemma timed_reqrep content k i t total : 0 ≤ i → i + Z.of_nat k = n → zlen content = m → total = i * lag →
  ReqRepLatencyClient_rounds (timed m n lag) (S k) content n i total (Duo [] [] i None, t) =
    (inr (n * lag), (Duo [] [] n None, t + Z.of_nat k * lag)).
Proof.
  revert i t total. induction k as [|k IH]; intros i t total Hi Hk Hm ->.
  - cbn [ReqRepLatencyClient_rounds]. assert (i = n) as -> by lia. by rewrite Z.ltb_irrefl, Z.add_0_r.
  - set (f := S k) in *. cbn [ReqRepLatencyClient_rounds]. rewrite (proj2 (Z.ltb_lt i n)) by lia.
    destruct (timed_trip content i t) as (s1 & HS & Ht & HR); [lia|done|].
    unfold mbind, prog_bind, reads, or_fatal, or_fatal_err. change (Now (timed m n lag) (Duo [] [] i None, t)) with (t, (Duo [] [] i None, t)).
    cbv beta iota. rewrite HS, HR. cbv beta iota.
    change (Now (timed m n lag) (Duo [] [] (i + 1) None, t + lag)) with (t + lag, (Duo [] [] (i + 1) None, t + lag)). cbv beta iota.
    assert (0 ≤ i * lag ∧ (i + 1) * lag ≤ n * lag) as [? ?] by nia.
    assert (lag < 2 ^ 63) by nia.
    rewrite int64_small by lia. replace (Sub (t + lag) t) with lag by (unfold Sub; lia). rewrite int64_small by nia.
    unfold f. rewrite IH by nia || done. do 2 f_equal. lia.
Qed.
End timed.

Lemma bind_run {S A B} (p : prog S A) (f : A → prog S B) s a s1 : p s = (inr a, s1) → (p ≫= f) s = f a s1.
Proof. unfold mbind, prog_bind. by intros ->. Qed.

Lemma deferred_run {S A} close (p : prog S A) s a s1 : p s = (inr a, s1) → deferred close p s = (inr a, close s1).
Proof. unfold deferred. by intros ->. Qed.

(** What the latency clients print, over a connection that answers in order within [lag]
    nanoseconds each: the total of the round trips in whole microseconds, as a float64, divided by
    twice the number of rounds, or by the number of rounds for the round-trip time; and for no
    rounds it is not a number. *)
Theorem perf_reports m n lag a s : 0 ≤ m → 0 ≤ n < 2 ^ 62 → 0 ≤ lag → n * lag < 2 ^ 63 →
  let total := float64 ((n * lag) `quot` 1000) in
  let fuel := S (Z.to_nat n) in
  (run_command (timed m n lag) fuel (Perf.LatencyClient a m n) s).1 = inr (LatencyReport m n (fdiv total (float64 (2 * n)))) ∧
  (run_command (timed m n lag) fuel (Perf.ReqRepLatencyClient a m n) s).1 = inr (RTTReport m n (fdiv total (float64 n))) ∧
  (n = 0 → fdiv total (float64 (2 * n)) = S754_nan ∧ fdiv total (float64 n) = S754_nan).
Proof.
  intros Hm Hn Hlag Hall total fuel.
  assert (Hc : make_content 0 m = Ret (replicate (Z.to_nat m) 0)) by (unfold make_content; by rewrite (proj2 (Z.ltb_ge m 0)) by lia).
  assert (Hl : zlen (replicate (Z.to_nat m) 0) = m) by (unfold zlen; rewrite length_replicate; lia).
  set (content := replicate (Z.to_nat m) 0) in *. set (t := s.2 + 100 * Millisecond).
  pose proof (timed_rounds m n lag Hn content (Z.to_nat n) 0 t ltac:(lia) ltac:(lia) Hl) as HL.
  pose proof (timed_reqrep m n lag Hn Hlag Hall content (Z.to_nat n) 0 t 0 ltac:(lia) ltac:(lia) Hl ltac:(lia)) as HR.
  assert (Hd : dials (timed m n lag) a (New (timed m n lag) s) = (inr (), (Duo [] [] 0 None, t))) by reflexivity.
  rewrite Z2Nat.id in HL, HR by lia. set (c := timed m n lag) in *.
  split; [|split].
  - cbn [run_command]. unfold LatencyClient. rewrite (bind_run _ _ s tt (New c s)) by done.
    erewrite deferred_run; [reflexivity|]. rewrite (bind_run _ _ _ _ _ Hd).
    rewrite (bind_run _ _ _ content (Duo [] [] 0 None, t)) by (unfold makes; by rewrite Hc).
    rewrite (bind_run _ _ _ t (Duo [] [] 0 None, t)) by done.
    rewrite (bind_run _ _ _ tt (Duo [] [] n None, t + n * lag)) by (unfold loop, fuel; by rewrite HL).
    rewrite (bind_run _ _ _ (t + n * lag) (Duo [] [] n None, t + n * lag)) by done.
    cbv zeta. rewrite int64_small by lia. replace (Sub (t + n * lag) t) with (n * lag) by (unfold Sub; nia).
    by replace (n * 2) with (2 * n) by lia.
  - cbn [run_command]. unfold ReqRepLatencyClient. rewrite (bind_run _ _ s tt (New c s)) by done.
    erewrite deferred_run; [reflexivity|]. rewrite (bind_run _ _ _ _ _ Hd).
    rewrite (bind_run _ _ _ content (Duo [] [] 0 None, t)) by (unfold makes; by rewrite Hc).
    by rewrite (bind_run _ _ _ _ _ HR).
  - unfold total. intros ->. split; vm_compute; reflexivity.
Qed.

Lemma perf_programs_example : ∃ l,
  run_command (logged (timed 8 1 5000)) 2 (Perf.LatencyClient "tcp://here:1" 8 1) (Duo [] [] 0 None, 0, []) =
    (inr (LatencyReport 8 1 (fdiv (float64 5) (float64 2))), (Duo [] [] 1 None, 100005000, l)) ∧ List.last l AMade = AClosed.
Proof. eexists. split; [vm_compute; reflexivity|reflexivity]. Qed.

(** Three round trips of 2 ms each: 1000 microseconds on average *)
Lemma perf_reports_witness :
  (run_command (timed 8 3 2000000) 4 (Perf.LatencyClient "tcp://here:1" 8 3) (Duo [] [] 0 None, 0)).1 =
    inr (LatencyReport 8 3 (float64 1000)).
Proof. destruct (perf_reports 8 3 2000000 "tcp://here:1" (Duo [] [] 0 None, 0)) as [H _]; [lia..|]. exact H. Defined.
